(* ===== verification/_CoqProject ===== *)
-Q . S2P
Prelude.v
ByteStr.v
BytesCrate.v
Model.v
Protocol.v
Errors.v
Net.v
Bitfield.v
Collections.v
Allocation.v
Slices.v
Io.v
FileIo.v
Storage.v
Piece.v
State.v
Processor.v
Traffic.v
Swarm.v
Download.v
FileDownload.v
Ip.v
Bencode.v
Metainfo.v
Tracker.v
Peers.v
Startup.v
System.v
Channels.v
Program.v
UnitTests.v
ProcessorTest.v
