(* ===== verification/Prelude.v ===== *)
(** * A verified model of bentorrent

    bentorrent is a BitTorrent client in Rust (the crate under [src/src/]). It reads a
    metainfo file, asks the file's tracker for peers, connects to them, and runs a
    processor that downloads and serves the pieces of the torrent into a storage.
    This library is a model of the whole program in pure functions, with the
    theorems that make its parts correct and those that compose them.

    ** How the program works, and where each part is

    A run goes through these parts, in this order; the name in brackets is the file
    under [src/src/].

    - [Startup.v] ([main.rs], [start_processing] of [peer/mod.rs]): [main] parses the
      metainfo file, makes a peer id, announces itself, connects, creates the
      storage and starts the processor.
    - [Bencode.v] ([file/bencode.rs], [file/error.rs]): bencoded values, their encoder
      and their parser. [Metainfo.v] ([model/torrent.rs], [model/tracker.rs]): from
      a bencoded value to a torrent or to a tracker's answer. [Ip.v] is the
      standard library's parser of IP addresses, which the latter calls.
    - [Tracker.v] ([peer/tracker.rs], [make_peer_id] of [peer/mod.rs]): the announce URL
      and the request.
    - [Protocol.v] ([peer/protocol.rs]): the handshake and the messages on the wire.
      [Bitfield.v] ([peer/bitfield.rs]): the body of a [BitField] message.
      [Net.v] ([peer/net.rs], [Connection] and [do_handshake]): frames over a stream.
      [Peers.v] ([peer/net.rs], [connect_torrent_peers] and [run_connection];
      [config.rs]): dialling the peers and the task of one connection.
    - [Allocation.v] ([TorrentAllocation] of [peer/mod.rs]): the sizes of the pieces.
      [Piece.v] ([peer/state/piece.rs]): which blocks are asked of whom.
      [State.v] ([PeerPieceMap] and [TorrentState] of [peer/state/mod.rs]): who has what,
      who chokes whom. [Processor.v] ([TorrentProcessor], the same file): every
      handler and the main loop.
    - [Slices.v] and [Io.v] ([peer/io/mod.rs], [peer/io/state.rs]): which bytes of a
      piece have arrived, the trait of the storages, the storage in memory and the
      task that serves it. [FileIo.v] ([peer/io/file.rs]): the storage in a file.
    - [Model.v] ([model/mod.rs], [model/peer_context.rs]) and [Errors.v]
      ([peer/error.rs]): the data and the errors that these parts share.

    Some files compose the parts. [Storage.v] puts the two storages side by side.
    [Traffic.v] follows what the handlers send. [Swarm.v] runs the processor on the
    I/O task, [Download.v] carries a download to its end there and [FileDownload.v] does
    so on a file. [System.v] joins the
    processor to one task per connection through channels without bounds, [Channels.v]
    bounds them. [Startup.v] joins the reading half to the running half, [Program.v] the start-up
    to the system. [UnitTests.v] and [ProcessorTest.v] run the repository's
    own tests on the definitions. Four files are under all of them: this one, [ByteStr.v] (bytes
    and integers), [BytesCrate.v] (the interface of the crate [bytes]) and
    [Collections.v] (maps, sets and their orders of iteration).

    ** How code becomes definitions

    - A function that can fail returns an [outcome]: [Ret], [Err] with the error
      type of the function, or [Panic], for [unwrap], indexing out of range and
      checked arithmetic. [?] is the bind of this monad. A function that changes
      its receiver is an [action]: it also returns the state it leaves behind, whatever
      the outcome, so that what an early return leaves half done is in the model.
    - An integer of Rust is a [Z]; [arith] is an operation of the machine on [u8], [u32], [u64] or
      [usize], which panics or wraps as the build profile says ([Profile], instances
      [DevProfile] and [ReleaseProfile]); [wrap] is a cast with [as]. A [usize] has 64 bits.
    - A [HashMap] is a [gmap] and a [HashSet] a [gset]; an order of iteration that
      Rust leaves open is the parameter [HashOrder], and the theorems hold for all
      orders. A [BTreeMap] of integers is a [gmap] read in the order of its keys, one
      of byte strings a sorted list.
    - Tasks that run concurrently are step relations: [proc_step] takes one arm of
      the processor's [select!], [task_step] one iteration of a connection's loop or a
      move of its environment, [sys_step] one step of any component, [bounded_step] the
      same with an arm of the main loop that sends one message at a time. Theorems
      about them are over all reachable states, hence over all interleavings. A
      handler runs without being interrupted: it holds the mutex of the state at
      each access, and the model does not interleave two handlers between two
      accesses.
    - Loops that are not structural take fuel and return [None] when it runs out.
      [read_msg] needs more fuel than the stream has chunks to give; the theorems
      on it have this as a hypothesis and prove that a result is there. The parser
      of bencoded values takes the number of calls the stack has room for: one more than the
      length of the input is enough for every input, and fewer than its nesting overflow
      ([parse_bencode_total]). Decimal digits
      (20, enough for 64 bits), the UTF-8 decoder (one round per byte at most) and the
      iterator of a bit field (one round per bit) carry bounds that are not reached.
    - A write to a peer can succeed, fail, or be cancelled by its time limit, after any part of
      the frame; an iteration of a connection's loop then ends the task, with the
      message gone from the queue. The theorems say what is on the wire in each case.
    - Code outside the repository is a parameter, a class with its operations and
      a class with the documented laws that are used: [BytesCrate] ([bytes]), [Nom]
      ([nom]), [UrlCrate] ([url], [urlencoding]), [TcpStream] and [Dial] (tokio), [FileApi] (files),
      [Env] (channels and the storage's task as the processor sees them), and
      plain functions for SHA-1, hexadecimal digits, the HTTP request and the
      clock. [PieceStore] (in [Io.v]) is what a download asks
      of a storage; both storages are instances. What more some theorems need is a class of its
      own, also documented: [TcpWrites] (a stream that takes all writes), [FileWorks] (a disk
      without errors). Each class has a concrete instance ([ListBytes], [ListNom], [ListUrl],
      [chunk_stream] of [Net.v], [mem_file] of [FileIo.v], [SimNet] of [Swarm.v]), on which the witnesses evaluate.

    ** What is proved

    - Downloading ([download_completes], [file_download_completes], [piece_download_completes], [processor_invariant],
      [processor_never_panics], [outstanding_requests_are_sent], [init_connection_announces],
      [never_unchoked], [dequeue_loses_requests]): with honest peers that have the
      pieces, whatever has happened so far can be continued until every piece is complete and in the
      storage, in memory or in a file, and nothing wrong is ever stored; blocks of a piece that
      arrive in any order complete it and store its bytes; the state keeps
      its invariant in every step; the processor does not panic; each block it waits
      for has been asked of the peer it waits for, and a request that could not be sent may
      be made again; what a new peer is told;
      and two things the program does not do that it should.
    - Composition ([program_refines], [system_refines], [bounded_refines], [system_delivers], [connection_refines_relay],
      [connection_progress], [storages_agree], [start_up_ready]): a connection's task, however it
      is scheduled and cut off by cancelled reads, is a pair of queues, until a write fails; in the
      whole system the processor handles for each channel a prefix of what its peer said,
      and the peer is sent a prefix of what the processor said to it (where a failed write ended
      the connection, then a part of one more frame), and
      nothing stands in the way of the next message; bounded channels add no behaviour; what [main] starts
      on a file, an answer and peers that keep to the protocol is such a system; file storage and storage in memory
      cannot be told apart while requests succeed; a well-formed file and answer
      lead to a running processor with all of its connections.
    - Choosing what to ask for ([tracker_invariant], [generate_assignments_sound],
      [generate_assignments_saturates], [remove_expired_frees],
      [finished_piece_not_requested]): the block tracker's maps agree with each other; only missing
      blocks are asked for, of peers that have them, below the limit of requests;
      as long as something can be asked for it is.
    - Peers ([piece_id_to_peers_spec]): who is asked for a piece.
    - Wire formats ([messages_roundtrip], [messages_decode_sound], [messages_decode_panics_iff],
      [piece_set_roundtrip], [bencode_roundtrip], [parse_bencode_total]): encoding
      and decoding are inverse, the decoders accept nothing else (with one
      exception that is stated), they end (the bencode parser, when the nesting fits its stack), and exactly which frames make them panic.
    - Reading metainfo files and answers ([torrent_try_from_spec], [info_hash_of_file],
      [announce_collects_peers]): each field is
      the one of the file; the info hash is the digest of the bytes in the file; the URL of the
      announce, and the peers of its answer.
    - Storage and geometry ([slices_complete_on_last], [file_complete_verified],
      [pieces_partition_torrent], [allocate_panics_iff]): a piece is complete exactly with
      its last block, a piece the file storage calls complete has the right digest,
      the pieces partition the torrent, and which metainfo files make the start-up panic.
    - Failures ([split_handshake_stops_all], [malformed_frame_wedges], [arm_waits],
      [handler_waits]): what one misbehaving peer does to the others and to its own
      connection, and when the main loop or a handler waits for ever.

    The other theorems of the files are about operations on their own, among them
    each of the defects that the modelling found.

    ** What is not modelled

    - The command line, the log, the statistics that the timer prints, [Debug]
      instances: they do not change the state. Choosing the path of the download
      and creating the file is input and output.
    - In [Channels.v], handlers that wait in the middle of a message without keeping the
      mutex: such a handler takes a message when what it sends fits. The channels to the storage's task and to the processor's
      [start] have no bound in the model. Spawning is the step from a definition
      that starts a task to the relation that runs it.
    - The test [round_trip] of [bencode.rs], which reads a file from the disk;
      [connection_handles_choke_events] of [peer/state/mod.rs], which moves ten
      megabytes, is run on a smaller torrent.
    - [lib.rs] and [util/mod.rs], which hold module declarations only.
*)
From Stdlib Require Import ZArith Lia.
From Stdlib Require Export Strings.Byte.
From stdpp Require Export prelude fin_maps gmap strings sorting.

Open Scope Z_scope.

(** * Outcomes of fallible code

    Rust code returns a value, returns an error ([Result::Err], propagated by
    [?]) or panics. [Err] carries the error type of the function. *)
Inductive outcome (E A : Type) : Type :=
  | Ret (a : A)
  | Err (e : E)
  | Panic.
Arguments Ret {E A} a.
Arguments Err {E A} e.
Arguments Panic {E A}.

#[export] Instance outcome_ret E : MRet (outcome E) := @Ret E.
#[export] Instance outcome_bind E : MBind (outcome E) := λ A B f m,
  match m with Ret a => f a | Err e => Err e | Panic => Panic end.
#[export] Instance outcome_fmap E : FMap (outcome E) := λ A B f m,
  match m with Ret a => Ret (f a) | Err e => Err e | Panic => Panic end.

(** [map_err]: change the error type, keep values and panics. *)
Definition map_err {E E' A} (f : E → E') (m : outcome E A) : outcome E' A :=
  match m with Ret a => Ret a | Err e => Err (f e) | Panic => Panic end.

Definition is_ret {E A} (m : outcome E A) : bool :=
  match m with Ret _ => true | _ => false end.

Lemma bind_ret {E A B} (f : A → outcome E B) a : (Ret a ≫= f) = f a.
Proof. done. Qed.

Lemma bind_ret_inv {E A B} (f : A → outcome E B) m b :
  (m ≫= f) = Ret b ↔ ∃ a, m = Ret a ∧ f a = Ret b.
Proof. by destruct m; simpl; firstorder congruence. Qed.

Lemma bind_assoc {E A B C} (m : outcome E A) (f : A → outcome E B) (g : B → outcome E C) :
  ((m ≫= f) ≫= g) = (m ≫= λ a, f a ≫= g).
Proof. by destruct m. Qed.

Lemma map_err_ret {E E' A} (f : E → E') (m : outcome E A) a :
  map_err f m = Ret a ↔ m = Ret a.
Proof. destruct m; naive_solver. Qed.

(** Invert every [m ≫= f = Ret b] of the context. *)
Ltac inv_bind :=
  repeat match goal with
  | H : (_ ≫= _) = Ret _ |- _ =>
      apply bind_ret_inv in H;
      let a := fresh "a" in let H1 := fresh "Hm" in let H2 := fresh "Hk" in
      destruct H as (a & H1 & H2);
      repeat match type of a with prod _ _ => destruct a as [? a] end;
      cbn beta iota in H1, H2
  | H : map_err _ _ = Ret _ |- _ => apply map_err_ret in H
  | H : Ret _ = Ret _ |- _ => injection H as H; try subst
  | H : Err _ = Ret _ |- _ => discriminate H
  | H : Panic = Ret _ |- _ => discriminate H
  end.

(** * Stateful code

    An action runs in a state and leaves a state, whether it succeeds or not:
    [&mut self] methods that return a [Result]. *)
Definition action (S E A : Type) : Type := S → outcome E A * S.

Definition act_ret {S E A} (a : A) : action S E A := λ s, (Ret a, s).
Definition act_err {S E A} (e : E) : action S E A := λ s, (Err e, s).
Definition act_bind {S E A B} (m : action S E A) (f : A → action S E B) : action S E B := λ s,
  match m s with
  | (Ret a, s) => f a s
  | (Err e, s) => (Err e, s)
  | (Panic, s) => (Panic, s)
  end.
(** Code that does not touch the state. *)
Definition pure {S E A} (m : outcome E A) : action S E A := λ s, (m, s).
Definition get {S E} : action S E S := λ s, (Ret s, s).
Definition modify {S E} (f : S → S) : action S E unit := λ s, (Ret tt, f s).
(** Code on a component of the state. *)
Definition zoom {S T E A} (prj : S → T) (upd : T → S → S) (m : action T E A) : action S E A := λ s,
  let '(r, t) := m (prj s) in (r, upd t s).

Declare Scope action_scope.
Delimit Scope action_scope with action.
Notation "'let!' x ':=' m 'in' k" := (act_bind m (λ x, k))
  (at level 10, x name, m at level 100, k at level 200) : action_scope.
Notation "m ';;;' k" := (act_bind m (λ _, k))
  (at level 100, right associativity) : action_scope.

Lemma act_bind_inv {S E A B} (m : action S E A) (f : A → action S E B) s b s' :
  act_bind m f s = (Ret b, s') ↔ ∃ a s1, m s = (Ret a, s1) ∧ f a s1 = (Ret b, s').
Proof. unfold act_bind. destruct (m s) as [[] ?]; naive_solver. Qed.

(** Whatever the outcome, the action leaves a state in which [I] holds again. *)
Definition preserves {S E A} (I : S → Prop) (m : action S E A) : Prop := ∀ s r s',
  m s = (r, s') → I s → I s'.

Lemma preserves_bind {S E A B} (I : S → Prop) (m : action S E A) (f : A → action S E B) :
  preserves I m → (∀ a, preserves I (f a)) → preserves I (act_bind m f).
Proof.
  intros Hm Hf s r s' Hr Hs. unfold act_bind in Hr. destruct (m s) as [[a|e|] s1] eqn:He.
  - by eapply Hf, Hm.
  - injection Hr as _ <-. by eapply Hm.
  - injection Hr as _ <-. by eapply Hm.
Qed.

Lemma preserves_pure {S E A} (I : S → Prop) (m : outcome E A) : preserves (S := S) I (pure m).
Proof. by intros s r s' [= _ <-]. Qed.

Lemma preserves_ret {S E A} (I : S → Prop) (a : A) : preserves (S := S) (E := E) I (act_ret a).
Proof. by intros s r s' [= _ <-]. Qed.

Lemma preserves_err {S E A} (I : S → Prop) (e : E) : preserves (S := S) (A := A) I (act_err e).
Proof. by intros s r s' [= _ <-]. Qed.

Lemma preserves_get {S E} (I : S → Prop) : preserves (S := S) (E := E) I get.
Proof. by intros s r s' [= _ <-]. Qed.

Lemma preserves_modify {S E} (I : S → Prop) f : (∀ s, I s → I (f s)) →
  preserves (S := S) (E := E) I (modify f).
Proof. intros Hf s r s' [= _ <-]. apply Hf. Qed.

Lemma preserves_zoom {S T E A} (I : S → Prop) prj upd (m : action T E A) :
  (∀ t s, I s → I (upd t s)) → preserves I (zoom prj upd m).
Proof. intros Hu s r s' Hr Hs. unfold zoom in Hr. destruct (m (prj s)). injection Hr as _ <-. auto. Qed.

Create HintDb preserves.
#[export] Hint Resolve preserves_bind preserves_pure preserves_ret preserves_err preserves_get
  preserves_modify preserves_zoom : preserves.

(** * Machine integers

    A value of an unsigned [w]-bit type is a [Z] in [[0, 2^w)]. [usize] is 64
    bits wide. The build profile says whether an overflowing [+], [-] or [*]
    panics (the dev profile, [cargo run]) or wraps (the release profile). *)
Class Profile := overflow_checks : bool.

(** The two profiles, for the concrete inputs. *)
Module DevProfile.
#[export] Instance dev : Profile := true.
End DevProfile.
Module ReleaseProfile.
#[export] Instance release : Profile := false.
End ReleaseProfile.

Definition in_u (w z : Z) : bool := (0 <=? z) && (z <? 2 ^ w).
Definition wrap (w z : Z) : Z := z mod 2 ^ w.

Definition arith `{Profile} {E} (w z : Z) : outcome E Z :=
  if in_u w z then Ret z
  else if overflow_checks then Panic else Ret (wrap w z).

Abbreviation as_u8 := (wrap 8) (only parsing).
Abbreviation as_u16 := (wrap 16) (only parsing).
Abbreviation as_u32 := (wrap 32) (only parsing).
Abbreviation as_usize := (wrap 64) (only parsing).

Definition is_u32 (z : Z) : Prop := 0 ≤ z < 2 ^ 32.
Definition is_usize (z : Z) : Prop := 0 ≤ z < 2 ^ 64.

Lemma in_u_spec w z : in_u w z = true ↔ 0 ≤ z < 2 ^ w.
Proof. unfold in_u. rewrite andb_true_iff, Z.leb_le, Z.ltb_lt. lia. Qed.

Lemma wrap_small w z : 0 ≤ z < 2 ^ w → wrap w z = z.
Proof. apply Z.mod_small. Qed.

Lemma wrap_range w z : 0 ≤ w → 0 ≤ wrap w z < 2 ^ w.
Proof. intros. apply Z.mod_pos_bound. lia. Qed.

Lemma arith_ok `{Profile} {E} w z : 0 ≤ z < 2 ^ w → @arith _ E w z = Ret z.
Proof. intros Hz. unfold arith. by rewrite (proj2 (in_u_spec w z) Hz). Qed.

(** An operation in range, followed by the rest of a computation. *)
Lemma bind_arith `{Profile} {E B} w z (f : Z → outcome E B) :
  0 ≤ z < 2 ^ w → (arith w z ≫= f) = f z.
Proof. intros. by rewrite arith_ok. Qed.

Lemma arith_range `{Profile} {E} w z z' :
  0 ≤ w → @arith _ E w z = Ret z' → 0 ≤ z' < 2 ^ w.
Proof.
  unfold arith. intros Hw. destruct (in_u w z) eqn:Hz.
  - intros [= <-]. by apply in_u_spec.
  - destruct overflow_checks; [done|]. intros [= <-]. by apply wrap_range.
Qed.

(** Arithmetic overflows are panics, never errors. *)
Lemma bind_arith_err `{Profile} {E B} w z (f : Z → outcome E B) e :
  (arith w z ≫= f) = Err e → ∃ y, arith (E := E) w z = Ret y ∧ f y = Err e.
Proof. unfold arith. repeat case_match; [|done|]; rewrite bind_ret; eauto. Qed.

Lemma arith_not_err `{Profile} {E} w z (e : E) : arith w z ≠ Err e.
Proof. unfold arith. by repeat case_match. Qed.

(** With overflow checks, an operation panics exactly when it is out of range. *)
Lemma bind_arith_cases `{Profile} {E B} w z (f : Z → outcome E B) : overflow_checks = true →
  (arith w z ≫= f) = if decide (0 ≤ z < 2 ^ w) then f z else Panic.
Proof.
  intros Hc. unfold arith. rewrite Hc. destruct (in_u w z) eqn:Hz.
  - rewrite decide_True by (by apply in_u_spec). done.
  - rewrite decide_False; [done|]. rewrite <-in_u_spec, Hz. done.
Qed.

(** Close a goal about machine-integer bounds. *)
Ltac ulia := rewrite ?wrap_small by lia; lia.

(** Length of a list as a [usize]. *)
Definition zlen {A} (l : list A) : Z := Z.of_nat (length l).

Lemma zlen_app {A} (l k : list A) : zlen (l ++ k) = zlen l + zlen k.
Proof. unfold zlen. rewrite length_app. lia. Qed.
Lemma zlen_nonneg {A} (l : list A) : 0 ≤ zlen l.
Proof. unfold zlen. lia. Qed.
Lemma zlen_cons {A} (x : A) l : zlen (x :: l) = 1 + zlen l.
Proof. unfold zlen. simpl. lia. Qed.
Lemma zlen_nil {A} : zlen (@nil A) = 0.
Proof. done. Qed.

(** Linear arithmetic knowing that lengths are not negative. *)
Ltac zlen_facts :=
  repeat match goal with
  | |- context [zlen ?l] =>
      lazymatch goal with
      | _ : 0 ≤ zlen l |- _ => fail
      | _ => pose proof (zlen_nonneg l)
      end
  | _ : context [zlen ?l] |- _ =>
      lazymatch goal with
      | _ : 0 ≤ zlen l |- _ => fail
      | _ => pose proof (zlen_nonneg l)
      end
  end.
Ltac zlia := zlen_facts; lia.

(** In a list without two elements of the same key, the key finds the element. *)
Lemma NoDup_map_key {A B} (k : A → B) l x y : NoDup (map k l) → x ∈ l → y ∈ l → k x = k y → x = y.
Proof.
  induction l as [|z l IH]; [by intros _ ?%elem_of_nil|]. rewrite map_cons, NoDup_cons.
  intros [Hz Hl] [->|Hx]%elem_of_cons [->|Hy]%elem_of_cons Hk; [done| | |by apply IH].
  - destruct Hz. rewrite Hk. by apply list_elem_of_fmap_2.
  - destruct Hz. rewrite <-Hk. by apply list_elem_of_fmap_2.
Qed.
