(* ===== verification/ByteStr.v ===== *)
(** Bytes and byte strings.

    [u8] values are [byte]; a [&[u8]], a [Vec<u8>] or a [String] (UTF-8) is a
    [list byte]. This file holds the conversions between bytes and integers,
    big-endian encodings, ASCII literals and the lexicographic order that
    [BTreeMap] uses on byte strings. *)
From S2P Require Import Prelude.
From Stdlib Require Import ZArith Lia Ascii.

(** * Bytes as integers *)

Definition byte_val (b : byte) : Z := Z.of_N (Byte.to_N b).

Definition byte_of (z : Z) : byte :=
  match Byte.of_N (Z.to_N (z mod 256)) with Some b => b | None => x00 end.

#[export] Instance byte_eq_dec : EqDecision byte := Byte.byte_eq_dec.

#[export] Program Instance byte_countable : Countable byte :=
  inj_countable Byte.to_N Byte.of_N _.
Next Obligation. intros b. by rewrite Byte.of_to_N. Qed.

Lemma byte_val_range b : 0 ≤ byte_val b < 256.
Proof. unfold byte_val. pose proof (Byte.to_N_bounded b). lia. Qed.

Lemma byte_of_val b : byte_of (byte_val b) = b.
Proof.
  unfold byte_of, byte_val.
  rewrite Z.mod_small by (pose proof (Byte.to_N_bounded b); lia).
  by rewrite N2Z.id, Byte.of_to_N.
Qed.

Lemma byte_val_of z : byte_val (byte_of z) = z mod 256.
Proof.
  unfold byte_of, byte_val.
  pose proof (Z.mod_pos_bound z 256 ltac:(lia)).
  destruct (Byte.of_N _) as [b|] eqn:Hb.
  - apply Byte.to_of_N in Hb. rewrite Hb. lia.
  - apply Byte.of_N_None_iff in Hb. lia.
Qed.

Lemma byte_val_inj a b : byte_val a = byte_val b → a = b.
Proof. intros H. by rewrite <-(byte_of_val a), H, byte_of_val. Qed.

(** * Big-endian integers *)

Fixpoint be_bytes (n : nat) (z : Z) : list byte :=
  match n with
  | O => []
  | S n => be_bytes n (z / 256) ++ [byte_of z]
  end.

Definition be_value (l : list byte) : Z :=
  foldl (λ acc b, acc * 256 + byte_val b) 0 l.

Lemma length_be_bytes n z : length (be_bytes n z) = n.
Proof.
  revert z. induction n as [|n IH]; intros z; [done|].
  cbn [be_bytes]. rewrite length_app, IH. simpl. lia.
Qed.

Lemma be_value_snoc l b : be_value (l ++ [b]) = be_value l * 256 + byte_val b.
Proof. unfold be_value. by rewrite foldl_app. Qed.

Lemma be_value_range l : 0 ≤ be_value l < 256 ^ zlen l.
Proof.
  induction l as [|b l IH] using rev_ind; [done|].
  rewrite be_value_snoc, zlen_app. pose proof (byte_val_range b).
  unfold zlen in *. cbn [length]. rewrite Z.pow_add_r by lia. lia.
Qed.

Lemma be_value_bytes n z : be_value (be_bytes n z) = z mod 256 ^ Z.of_nat n.
Proof.
  revert z. induction n as [|n IH]; intros z.
  - by rewrite Z.mod_1_r.
  - cbn [be_bytes]. rewrite be_value_snoc, IH, byte_val_of.
    rewrite Nat2Z.inj_succ, Z.pow_succ_r, Z.rem_mul_r by lia. lia.
Qed.

Lemma be_bytes_value l : be_bytes (length l) (be_value l) = l.
Proof.
  induction l as [|b l IH] using rev_ind; [done|].
  rewrite length_app, Nat.add_comm. cbn [length Nat.add be_bytes].
  rewrite be_value_snoc. pose proof (byte_val_range b).
  rewrite Z.div_add_l, (Z.div_small (byte_val b)), Z.add_0_r, IH by lia.
  f_equal. f_equal. apply byte_val_inj.
  rewrite byte_val_of, Z.add_comm, Z.mod_add by lia.
  apply Z.mod_small. lia.
Qed.

Lemma be_value_u32 z : 0 ≤ z < 2 ^ 32 → be_value (be_bytes 4 z) = z.
Proof. intros. rewrite be_value_bytes. apply Z.mod_small. lia. Qed.

Lemma be_value_cons b l :
  be_value (b :: l) = byte_val b * 256 ^ zlen l + be_value l.
Proof.
  induction l as [|c l IH] using rev_ind; [unfold be_value; cbn [foldl]; change (zlen []) with 0; lia|].
  rewrite app_comm_cons, !be_value_snoc, IH, zlen_app.
  unfold zlen. cbn [length]. rewrite Z.pow_add_r by lia.
  change (256 ^ Z.of_nat 1) with 256. ring.
Qed.

(** * ASCII literals *)

Definition bs (s : string) : list byte :=
  map Ascii.byte_of_ascii (String.list_ascii_of_string s).


(** * Lexicographic order, as [Ord] on [&[u8]] and [String] *)

Fixpoint bytes_ltb (l k : list byte) : bool :=
  match l, k with
  | _, [] => false
  | [], _ :: _ => true
  | a :: l, b :: k =>
      if byte_val a <? byte_val b then true
      else if byte_val b <? byte_val a then false
      else bytes_ltb l k
  end.

Lemma bytes_ltb_irrefl l : bytes_ltb l l = false.
Proof. induction l as [|a l IH]; [done|]. simpl. by rewrite Z.ltb_irrefl. Qed.

Lemma bytes_ltb_trans l1 l2 l3 :
  bytes_ltb l1 l2 = true → bytes_ltb l2 l3 = true → bytes_ltb l1 l3 = true.
Proof.
  revert l2 l3. induction l1 as [|a l1 IH]; intros [|b l2] [|c l3]; simpl; try done.
  repeat case_match; intros; try done; try lia; eauto.
Qed.

Lemma bytes_ltb_total l1 l2 :
  bytes_ltb l1 l2 = false → bytes_ltb l2 l1 = false → l1 = l2.
Proof.
  revert l2. induction l1 as [|a l1 IH]; intros [|b l2]; simpl; try done.
  repeat case_match; intros; try done; try lia.
  f_equal; [apply byte_val_inj; lia|eauto].
Qed.
