(* ===== verification/BytesCrate.v ===== *)
(** Interface to the [bytes] crate.

    The crate is not part of the repository, so its cursors are parameters:
    the class [BytesCrate] has the methods of [Buf] (for [&[u8]]) and of
    [BufMut] (for [BytesMut]) that the program calls, and [BytesCrateOk] states
    their documented behaviour. A cursor is the bytes it still has to give
    out; a [BytesMut] is the bytes it holds. [ListBytes] shows that the
    documented behaviour is realisable. *)
From S2P Require Import Prelude ByteStr.
From Stdlib Require Import ZArith Lia.

(** [bytes::TryGetError]. *)
Record TryGetError := { requested : Z; available : Z }.

#[export] Instance TryGetError_eq_dec : EqDecision TryGetError.
Proof. solve_decision. Defined.

Class BytesCrate := {
  remaining : list byte → Z;
  try_get_u8 : list byte → outcome TryGetError (Z * list byte);
  try_get_u32 : list byte → outcome TryGetError (Z * list byte);
  try_copy_to_slice : Z → list byte → outcome TryGetError (list byte * list byte);
  advance : ∀ {E}, Z → list byte → outcome E (list byte);
  put_u8 : list byte → Z → list byte;
  put_u32 : list byte → Z → list byte;
  put_u64 : list byte → Z → list byte;
  put_slice : list byte → list byte → list byte;
  put : list byte → list byte → list byte;
}.

(** Documented behaviour: reads are big-endian and consume what they return; a
    [try_] read with too few bytes left reports what it needs; [advance] panics
    when it is asked to skip more than what is left; the [put] methods append. *)
Class BytesCrateOk `(BytesCrate) : Prop := {
  remaining_spec l : remaining l = zlen l;
  try_get_u8_ok b l : try_get_u8 (b :: l) = Ret (byte_val b, l);
  try_get_u8_err : try_get_u8 [] = Err {| requested := 1; available := 0 |};
  try_get_u32_ok a l : length a = 4%nat → try_get_u32 (a ++ l) = Ret (be_value a, l);
  try_get_u32_err l : zlen l < 4 →
    try_get_u32 l = Err {| requested := 4; available := zlen l |};
  try_copy_ok a l : try_copy_to_slice (zlen a) (a ++ l) = Ret (a, l);
  try_copy_err n l : zlen l < n →
    try_copy_to_slice n l = Err {| requested := n; available := zlen l |};
  advance_ok {E} a l : @advance _ E (zlen a) (a ++ l) = Ret l;
  advance_panic {E} n l : zlen l < n → @advance _ E n l = Panic;
  put_u8_spec l z : put_u8 l z = l ++ be_bytes 1 z;
  put_u32_spec l z : put_u32 l z = l ++ be_bytes 4 z;
  put_u64_spec l z : put_u64 l z = l ++ be_bytes 8 z;
  put_slice_spec l a : put_slice l a = l ++ a;
  put_spec l a : put l a = l ++ a;
}.

Create Rewrite HintDb bytes_crate.
#[export] Hint Rewrite @remaining_spec @try_get_u8_ok @try_get_u8_err
  @try_copy_ok @advance_ok @put_u8_spec @put_u32_spec @put_u64_spec
  @put_slice_spec @put_spec using typeclasses eauto : bytes_crate.
#[export] Hint Rewrite @bind_ret : bytes_crate.

(** * A realisation, used by the concrete examples *)
Module ListBytes.
Definition get (n : nat) (l : list byte) : outcome TryGetError (list byte * list byte) :=
  if decide (n ≤ length l)%nat then Ret (take n l, drop n l)
  else Err {| requested := Z.of_nat n; available := zlen l |}.

#[export] Instance list_bytes : BytesCrate := {|
  remaining := zlen;
  try_get_u8 l := '(a, l) ← get 1 l; Ret (be_value a, l);
  try_get_u32 l := '(a, l) ← get 4 l; Ret (be_value a, l);
  try_copy_to_slice n l := get (Z.to_nat n) l;
  advance E n l := if n <=? zlen l then Ret (drop (Z.to_nat n) l) else Panic;
  put_u8 l z := l ++ be_bytes 1 z;
  put_u32 l z := l ++ be_bytes 4 z;
  put_u64 l z := l ++ be_bytes 8 z;
  put_slice l a := l ++ a;
  put l a := l ++ a;
|}.

Lemma get_app a l : get (length a) (a ++ l) = Ret (a, l).
Proof.
  unfold get. rewrite decide_True by (rewrite length_app; lia).
  by rewrite take_app_length, drop_app_length.
Qed.

Lemma get_err n l : (length l < n)%nat →
  get n l = Err {| requested := Z.of_nat n; available := zlen l |}.
Proof. intros. unfold get. by rewrite decide_False by lia. Qed.

#[export] Instance list_bytes_ok : BytesCrateOk list_bytes.
Proof.
  split; intros; simpl; try done.
  - by rewrite <-H, get_app.
  - by rewrite get_err by (unfold zlen in *; lia).
  - unfold zlen. by rewrite Nat2Z.id, get_app.
  - rewrite get_err by (unfold zlen in *; lia). rewrite Z2Nat.id; [done|].
    pose proof (zlen_nonneg l). lia.
  - rewrite zlen_app. pose proof (zlen_nonneg l).
    rewrite (proj2 (Z.leb_le _ _)) by lia.
    unfold zlen. by rewrite Nat2Z.id, drop_app_length.
  - by rewrite (proj2 (Z.leb_gt _ _)) by lia.
Qed.
End ListBytes.
