(* ===== verification/Model.v ===== *)
(** The data the components share: [src/src/model/mod.rs],
    [peer_context.rs], and the record types of [torrent.rs] and
    [tracker.rs]. A [PeerId] is a [Vec<u8>]; [Arc] only shares it. *)
From S2P Require Import Prelude ByteStr.
From Stdlib Require Import ZArith.

Abbreviation PeerId := (list byte) (only parsing).
Abbreviation InternalPeerId := (list byte) (only parsing).

(** [PeerContext]. *)
Record PeerContext := mkPeerContext {
  info_hash : list byte;
  peer_id : list byte;
}.

(** [PeerRequestedPiece]; its integer fields are [u32]. *)
Record PeerRequestedPiece := mkRequest {
  req_peer_id : InternalPeerId;
  req_index : Z;
  req_begin : Z;
  req_length : Z;
}.

#[export] Instance PeerContext_eq_dec : EqDecision PeerContext.
Proof. solve_decision. Defined.
#[export] Instance PeerRequestedPiece_eq_dec : EqDecision PeerRequestedPiece.
Proof. solve_decision. Defined.

(** [V1Piece], [V1TorrentInfo], [V1Torrent]; [length] and [piece_length] are
    [i64]; a [String] is its UTF-8 bytes. *)
Record V1Piece := mkPiece { hash : list byte }.

Record V1TorrentInfo := mkInfo {
  torrent_length : Z;
  piece_length : Z;
  pieces : list V1Piece;
  name : list byte;
  torrent_info_hash : list byte;
}.

Record V1Torrent := mkTorrent {
  info : V1TorrentInfo;
  announce : list byte;
  announce_list : list (list byte);
}.

#[export] Instance V1Piece_eq_dec : EqDecision V1Piece.
Proof. solve_decision. Defined.
#[export] Instance V1TorrentInfo_eq_dec : EqDecision V1TorrentInfo.
Proof. solve_decision. Defined.
#[export] Instance V1Torrent_eq_dec : EqDecision V1Torrent.
Proof. solve_decision. Defined.
