(* ===== verification/Protocol.v ===== *)
(** The peer wire protocol, [src/src/peer/protocol.rs]: the handshake and the
    length-prefixed messages, their encoders and decoders.

    A decoder takes the bytes of the cursor and returns the value with the
    bytes left. An encoder appends to the bytes of its buffer. *)
From S2P Require Import Prelude ByteStr BytesCrate Model.
From Stdlib Require Import ZArith Lia.

(** [ProtocolError]. *)
Inductive ProtocolError :=
  | PE_TryGetError (e : TryGetError)
  | BadId.

Definition HANDSHAKE_PROTOCOL_ID : list byte := bs "BitTorrent protocol".

Record Handshake := mkHandshake { peer_ctx : PeerContext }.

(** [FlagMessages] and its discriminants. *)
Inductive FlagMessages := Choke | Unchoke | Interested | NotInterested.

Definition FlagMessages_as_u8 (f : FlagMessages) : Z :=
  match f with Choke => 0 | Unchoke => 1 | Interested => 2 | NotInterested => 3 end.

Definition FlagMessages_try_from (value : Z) : outcome ProtocolError FlagMessages :=
  if value =? 0 then Ret Choke
  else if value =? 1 then Ret Unchoke
  else if value =? 2 then Ret Interested
  else if value =? 3 then Ret NotInterested
  else Err BadId.

(** [Messages]. *)
Inductive Messages :=
  | KeepAlive
  | Flag (f : FlagMessages)
  | Have (piece_index : Z)
  | BitField (bitfield : list byte)
  | Request (index begin length : Z)
  | Piece (index begin : Z) (block : list byte)
  | Cancel (index begin length : Z).

#[export] Instance FlagMessages_eq_dec : EqDecision FlagMessages.
Proof. solve_decision. Defined.
#[export] Instance Messages_eq_dec : EqDecision Messages.
Proof. solve_decision. Defined.
#[export] Instance Handshake_eq_dec : EqDecision Handshake.
Proof. solve_decision. Defined.

Definition interest_msg (interest : bool) : Messages :=
  Flag (if interest then Interested else NotInterested).

(** [impl From<&PeerRequestedPiece> for Messages]. *)
Definition Messages_from_request (v : PeerRequestedPiece) : Messages :=
  Request (req_index v) (req_begin v) (req_length v).

(** [vec![0u8; n]]: allocation panics above [isize::MAX] bytes. *)
Definition vec_zeroed {E} (n : Z) : outcome E Z :=
  if n <=? 2 ^ 63 - 1 then Ret n else Panic.

Section protocol.
Context `{BytesCrate} `{Profile}.

Definition Handshake_encode (h : Handshake) (i : list byte) : list byte :=
  let i := put_u8 i (as_u8 (zlen HANDSHAKE_PROTOCOL_ID)) in
  let i := put i HANDSHAKE_PROTOCOL_ID in
  let i := put_u64 i 0 in
  let i := put i (info_hash (peer_ctx h)) in
  put i (peer_id (peer_ctx h)).

Abbreviation get_ m := (map_err PE_TryGetError m) (only parsing).

Definition HandshakeDecoder_decode (b : list byte)
    : outcome ProtocolError (Handshake * list byte) :=
  '(p_str_len, b) ← get_ (try_get_u8 b);
  n ← vec_zeroed p_str_len;
  '(p_str, b) ← get_ (try_copy_to_slice n b);
  b ← advance 8 b;
  n ← vec_zeroed 20;
  '(info_hash, b) ← get_ (try_copy_to_slice n b);
  n ← vec_zeroed 20;
  '(peer_id, b) ← get_ (try_copy_to_slice n b);
  Ret (mkHandshake (mkPeerContext info_hash peer_id), b).

Definition Messages_encode (m : Messages) (i : list byte)
    : outcome ProtocolError (list byte) :=
  match m with
  | KeepAlive => Ret (put_u32 i 0)
  | Flag flag =>
      let i := put_u32 i 1 in
      Ret (put_u8 i (FlagMessages_as_u8 flag))
  | Have piece_index =>
      let i := put_u32 i 5 in
      let i := put_u8 i 4 in
      Ret (put_u32 i piece_index)
  | BitField bitfield =>
      n ← arith 32 (1 + as_u32 (zlen bitfield));
      let i := put_u32 i n in
      let i := put_u8 i 5 in
      Ret (put_slice i bitfield)
  | Request index begin length =>
      let i := put_u32 i 13 in
      let i := put_u8 i 6 in
      let i := put_u32 i index in
      let i := put_u32 i begin in
      Ret (put_u32 i length)
  | Piece index begin block =>
      n ← arith 32 (9 + as_u32 (zlen block));
      let i := put_u32 i n in
      let i := put_u8 i 7 in
      let i := put_u32 i index in
      let i := put_u32 i begin in
      Ret (put_slice i block)
  | Cancel index begin length =>
      let i := put_u32 i 13 in
      let i := put_u8 i 8 in
      let i := put_u32 i index in
      let i := put_u32 i begin in
      Ret (put_u32 i length)
  end.

(** The body of [decode] after the length and the id have been read. *)
Definition decode_body (len id : Z) (b : list byte)
    : outcome ProtocolError (Messages * list byte) :=
  if id =? 4 then
    '(piece_index, b) ← get_ (try_get_u32 b);
    Ret (Have piece_index, b)
  else if id =? 5 then
    n ← arith 64 (len - 1);
    n ← vec_zeroed n;
    '(bitfield, b) ← get_ (try_copy_to_slice n b);
    Ret (BitField bitfield, b)
  else if id =? 6 then
    '(index, b) ← get_ (try_get_u32 b);
    '(begin, b) ← get_ (try_get_u32 b);
    '(length, b) ← get_ (try_get_u32 b);
    Ret (Request index begin length, b)
  else if id =? 7 then
    '(index, b) ← get_ (try_get_u32 b);
    '(begin, b) ← get_ (try_get_u32 b);
    n ← arith 64 (len - 9);
    n ← vec_zeroed n;
    '(block, b) ← get_ (try_copy_to_slice n b);
    Ret (Piece index begin block, b)
  else if id =? 8 then
    '(index, b) ← get_ (try_get_u32 b);
    '(begin, b) ← get_ (try_get_u32 b);
    '(length, b) ← get_ (try_get_u32 b);
    Ret (Cancel index begin length, b)
  else if len =? 1 then
    f ← FlagMessages_try_from id;
    Ret (Flag f, b)
  else Err BadId.

Definition MessagesDecoder_decode (b : list byte)
    : outcome ProtocolError (Messages * list byte) :=
  '(len, b) ← get_ (try_get_u32 b);
  if len =? 0 then Ret (KeepAlive, b)
  else if len >? remaining b then
    Err (PE_TryGetError {| requested := len; available := remaining b |})
  else
    '(id, b) ← get_ (try_get_u8 b);
    decode_body len id b.
End protocol.

(** * The wire format

    [frame m] is the message as the protocol defines it, independently of the
    code: a four-byte big-endian length followed by the payload. *)
Definition payload (m : Messages) : list byte :=
  match m with
  | KeepAlive => []
  | Flag f => [byte_of (FlagMessages_as_u8 f)]
  | Have p => x04 :: be_bytes 4 p
  | BitField bf => x05 :: bf
  | Request i b l => x06 :: be_bytes 4 i ++ be_bytes 4 b ++ be_bytes 4 l
  | Piece i b block => x07 :: be_bytes 4 i ++ be_bytes 4 b ++ block
  | Cancel i b l => x08 :: be_bytes 4 i ++ be_bytes 4 b ++ be_bytes 4 l
  end.

Definition frame (m : Messages) : list byte :=
  be_bytes 4 (zlen (payload m)) ++ payload m.

(** The values of the Rust type whose payload length fits its [u32] prefix. *)
Definition wf_message (m : Messages) : Prop :=
  match m with
  | KeepAlive | Flag _ => True
  | Have p => is_u32 p
  | BitField bf => zlen bf + 1 < 2 ^ 32
  | Request i b l | Cancel i b l => is_u32 i ∧ is_u32 b ∧ is_u32 l
  | Piece i b block => is_u32 i ∧ is_u32 b ∧ zlen block + 9 < 2 ^ 32
  end.

(** Messages whose payload has the same size for all values. *)
Definition fixed_size (m : Messages) : bool :=
  match m with Have _ | Request _ _ _ | Cancel _ _ _ => true | _ => false end.

(** The handshake: 19, the protocol name, eight reserved zero bytes, two ids. *)
Definition handshake_frame (h : Handshake) : list byte :=
  x13 :: HANDSHAKE_PROTOCOL_ID ++ replicate 8 x00 ++
  info_hash (peer_ctx h) ++ peer_id (peer_ctx h).

Definition wf_handshake (h : Handshake) : Prop :=
  zlen (info_hash (peer_ctx h)) = 20 ∧ zlen (peer_id (peer_ctx h)) = 20.

(** * Lemmas on the wire format and the decoders *)

Lemma zlen_be_bytes n z : zlen (be_bytes n z) = Z.of_nat n.
Proof. unfold zlen. by rewrite length_be_bytes. Qed.

(** Length of a list built from known parts. *)
Ltac zlen_simpl :=
  rewrite ?zlen_cons, ?zlen_app, ?zlen_be_bytes in *; change (@zlen byte []) with 0 in *.

Lemma payload_u32 m : wf_message m → is_u32 (zlen (payload m)).
Proof.
  unfold is_u32. destruct m; cbn [payload wf_message]; intros; zlen_simpl; zlia.
Qed.

Section protocol_facts.
Context `{BytesCrateOk} `{Profile}.

Lemma get_u32_be z l : is_u32 z → try_get_u32 (be_bytes 4 z ++ l) = Ret (z, l).
Proof.
  intros. rewrite try_get_u32_ok by apply length_be_bytes. by rewrite be_value_u32.
Qed.

Lemma copy_n n a l : n = zlen a → try_copy_to_slice n (a ++ l) = Ret (a, l).
Proof. intros ->. apply try_copy_ok. Qed.

Lemma vec_zeroed_ok {E} n : n < 2 ^ 63 → @vec_zeroed E n = Ret n.
Proof. intros. unfold vec_zeroed. by rewrite (proj2 (Z.leb_le _ _)) by lia. Qed.

Lemma bind_vec {E B} n (f : Z → outcome E B) : n < 2 ^ 63 → (vec_zeroed n ≫= f) = f n.
Proof. intros. by rewrite vec_zeroed_ok. Qed.

Lemma flag_of_u8 f : FlagMessages_try_from (FlagMessages_as_u8 f) = Ret f.
Proof. by destruct f. Qed.

Lemma decode_body_payload m id body rest :
  wf_message m → payload m = id :: body →
  decode_body (zlen (payload m)) (byte_val id) (body ++ rest) = Ret (m, rest).
Proof.
  intros Hwf Hp. pose proof (payload_u32 m Hwf) as Hlen. unfold is_u32 in Hlen.
  destruct m; cbn [payload wf_message] in *; simplify_eq; unfold decode_body.
  - destruct f; by vm_compute.
  - change (byte_val x04 =? 4) with true. cbn match. by rewrite get_u32_be.
  - change (byte_val x05 =? 4) with false. change (byte_val x05 =? 5) with true. cbn match.
    zlen_simpl. rewrite bind_arith by zlia.
    rewrite bind_vec, copy_n by zlia. done.
  - change (byte_val x06) with 6. cbn [Z.eqb Pos.eqb]. rewrite <-!app_assoc.
    destruct Hwf as (? & ? & ?). do 3 (rewrite get_u32_be by done; cbn [map_err]; rewrite bind_ret).
    done.
  - change (byte_val x07) with 7. cbn [Z.eqb Pos.eqb]. rewrite <-!app_assoc.
    destruct Hwf as (? & ? & ?). do 2 (rewrite get_u32_be by done; cbn [map_err]; rewrite bind_ret).
    zlen_simpl. rewrite bind_arith by zlia.
    rewrite bind_vec, copy_n by zlia. done.
  - change (byte_val x08) with 8. cbn [Z.eqb Pos.eqb]. rewrite <-!app_assoc.
    destruct Hwf as (? & ? & ?). do 3 (rewrite get_u32_be by done; cbn [map_err]; rewrite bind_ret).
    done.
Qed.

Lemma encode_frame m i :
  wf_message m → Messages_encode m i = Ret (i ++ frame m).
Proof.
  intros Hwf. pose proof (payload_u32 m Hwf) as Hlen. unfold is_u32 in Hlen.
  unfold frame. destruct m; cbn [payload wf_message] in *; unfold Messages_encode;
    zlen_simpl; rewrite ?wrap_small by zlia; rewrite ?bind_arith by zlia;
    autorewrite with bytes_crate; rewrite <-?app_assoc, ?app_nil_r; try done.
  by replace (1 + _) with (9 + zlen block) by lia.
Qed.

Lemma decode_frame m rest :
  wf_message m → MessagesDecoder_decode (frame m ++ rest) = Ret (m, rest).
Proof.
  intros Hwf. pose proof (payload_u32 m Hwf) as Hlen.
  unfold MessagesDecoder_decode, frame. rewrite <-app_assoc, get_u32_be by done.
  cbn [map_err]. rewrite bind_ret. destruct (payload m) as [|id body] eqn:Hp.
  { destruct m; try discriminate Hp. done. }
  rewrite <-Hp. rewrite remaining_spec, zlen_app.
  assert (0 < zlen (payload m)) by (rewrite Hp, zlen_cons; zlia).
  destruct (Z.eqb_spec (zlen (payload m)) 0) as [?|_]; [lia|].
  rewrite Z.gtb_ltb. destruct (Z.ltb_spec (zlen (payload m) + zlen rest) (zlen (payload m)));
    [zlia|].
  rewrite Hp at 1. cbn [app]. rewrite try_get_u8_ok. cbn [map_err]. rewrite bind_ret.
  by apply decode_body_payload.
Qed.

(** ** Inversion of successful reads *)

Lemma get_u8_inv b z b' : try_get_u8 b = Ret (z, b') → ∃ x, b = x :: b' ∧ z = byte_val x.
Proof.
  destruct b as [|x b]; [by rewrite try_get_u8_err|].
  rewrite try_get_u8_ok. intros [= <- <-]. eauto.
Qed.

Lemma get_u32_cases b :
  (zlen b < 4 ∧ try_get_u32 b = Err {| requested := 4; available := zlen b |}) ∨
  (∃ z b', is_u32 z ∧ b = be_bytes 4 z ++ b' ∧ try_get_u32 b = Ret (z, b')).
Proof.
  destruct (decide (zlen b < 4)) as [?|Hge]; [left; by rewrite try_get_u32_err|right].
  assert (length (take 4 b) = 4%nat) as Hl.
  { rewrite length_take. unfold zlen in Hge. lia. }
  exists (be_value (take 4 b)), (drop 4 b). split_and!.
  - pose proof (be_value_range (take 4 b)) as Hr. unfold zlen in Hr. rewrite Hl in Hr.
    unfold is_u32. change (2 ^ 32) with (256 ^ Z.of_nat 4). done.
  - rewrite <-Hl at 1. by rewrite be_bytes_value, take_drop.
  - rewrite <-(take_drop 4 b) at 1. by rewrite try_get_u32_ok.
Qed.

Lemma get_u32_inv b z b' :
  try_get_u32 b = Ret (z, b') → is_u32 z ∧ b = be_bytes 4 z ++ b'.
Proof.
  intros Hb. destruct (get_u32_cases b) as [[_ He]|(z' & b'' & ? & -> & Hr)]; [congruence|].
  rewrite Hb in Hr. by simplify_eq.
Qed.

Lemma copy_cases n b : 0 ≤ n →
  (zlen b < n ∧ try_copy_to_slice n b = Err {| requested := n; available := zlen b |}) ∨
  (∃ a b', zlen a = n ∧ b = a ++ b' ∧ try_copy_to_slice n b = Ret (a, b')).
Proof.
  intros Hn. destruct (decide (zlen b < n)) as [?|Hge]; [left; by rewrite try_copy_err|right].
  assert (zlen (take (Z.to_nat n) b) = n) as Hl.
  { unfold zlen in *. rewrite length_take. lia. }
  exists (take (Z.to_nat n) b), (drop (Z.to_nat n) b). split_and!; [done|by rewrite take_drop|].
  rewrite <-(take_drop (Z.to_nat n) b) at 1. by apply copy_n.
Qed.

Lemma copy_inv n b a b' : 0 ≤ n →
  try_copy_to_slice n b = Ret (a, b') → zlen a = n ∧ b = a ++ b'.
Proof.
  intros Hn Hb. destruct (copy_cases n b Hn) as [[_ He]|(a0 & b0 & ? & -> & Hr)]; [congruence|].
  rewrite Hb in Hr. by simplify_eq.
Qed.

(** Case analysis on the next read of a decoder, in the goal. *)
Local Ltac read32 :=
  match goal with
  | |- context [try_get_u32 ?b] =>
      let z := fresh "z" in let b' := fresh "b" in
      destruct (get_u32_cases b) as [[? ->]|(z & b' & ? & -> & ->)];
      cbn [map_err]; rewrite ?bind_ret
  end.

(** ** Panics of the message decoder *)

Lemma arith_small_piece {E} len :
  1 ≤ len < 9 → (n ← @arith _ E 64 (len - 9); vec_zeroed n) = Panic.
Proof.
  intros Hlen. unfold arith.
  destruct (in_u 64 (len - 9)) eqn:Hin; [apply in_u_spec in Hin; lia|].
  destruct overflow_checks; [done|]. rewrite bind_ret. unfold vec_zeroed, wrap.
  replace (len - 9) with (2 ^ 64 + (len - 9) + (-1) * 2 ^ 64) by lia.
  rewrite Z.mod_add, Z.mod_small by lia.
  by rewrite (proj2 (Z.leb_gt _ _)) by lia.
Qed.

Lemma decode_body_panic len id b :
  1 ≤ len < 2 ^ 32 →
  decode_body len id b = Panic ↔ id = 7 ∧ len < 9 ∧ 8 ≤ zlen b.
Proof.
  intros Hlen. unfold decode_body.
  destruct (Z.eqb_spec id 4) as [->|?]; [read32; naive_solver|].
  destruct (Z.eqb_spec id 5) as [->|?].
  { rewrite bind_arith, bind_vec by lia.
    destruct (copy_cases (len - 1) b) as [[? ->]|(? & ? & ? & -> & ->)]; naive_solver lia. }
  destruct (Z.eqb_spec id 6) as [->|?]; [repeat read32; naive_solver|].
  destruct (Z.eqb_spec id 7) as [->|?].
  { destruct (decide (len < 9)) as [Hs|Hs].
    - read32; [naive_solver lia|]. read32; zlen_simpl; [naive_solver lia|].
      rewrite <-bind_assoc, arith_small_piece by lia. naive_solver zlia.
    - do 2 (read32; [naive_solver|]).
      rewrite bind_arith, bind_vec by lia.
      edestruct copy_cases as [[? ->]|(? & ? & ? & -> & ->)]; naive_solver lia. }
  destruct (Z.eqb_spec id 8) as [->|?]; [repeat read32; naive_solver|].
  unfold FlagMessages_try_from. repeat case_match; naive_solver.
Qed.

(** What the header of a frame leads to. *)
Lemma decode_header len id body : is_u32 len → 0 < len →
  MessagesDecoder_decode (be_bytes 4 len ++ id :: body) =
    if len >? zlen (id :: body)
    then Err (PE_TryGetError {| requested := len; available := zlen (id :: body) |})
    else decode_body len (byte_val id) body.
Proof.
  intros Hu ?. unfold MessagesDecoder_decode. rewrite get_u32_be by done.
  cbn [map_err]. rewrite bind_ret. destruct (Z.eqb_spec len 0) as [?|_]; [lia|].
  rewrite remaining_spec. case_match; [done|].
  rewrite try_get_u8_ok. cbn [map_err]. by rewrite bind_ret.
Qed.

Lemma decode_short_header len : is_u32 len → 0 < len →
  MessagesDecoder_decode (be_bytes 4 len) =
    Err (PE_TryGetError {| requested := len; available := 0 |}).
Proof.
  intros Hu ?. unfold MessagesDecoder_decode.
  rewrite <-(app_nil_r (be_bytes 4 len)), get_u32_be by done.
  cbn [map_err]. rewrite bind_ret. destruct (Z.eqb_spec len 0) as [?|_]; [lia|].
  rewrite remaining_spec. change (zlen []) with 0.
  by rewrite Z.gtb_ltb, (proj2 (Z.ltb_lt _ _)).
Qed.

(** Every input is too short, a keep-alive, or a header with its payload. *)
Lemma decode_cases b :
  (zlen b < 4 ∧ MessagesDecoder_decode b =
     Err (PE_TryGetError {| requested := 4; available := zlen b |})) ∨
  (∃ rest, b = be_bytes 4 0 ++ rest ∧ MessagesDecoder_decode b = Ret (KeepAlive, rest)) ∨
  (∃ len, is_u32 len ∧ 0 < len ∧ b = be_bytes 4 len) ∨
  (∃ len id body, is_u32 len ∧ 0 < len ∧ b = be_bytes 4 len ++ id :: body).
Proof.
  destruct (get_u32_cases b) as [[? Hb]|(len & rest & Hu & -> & Hb)].
  { left. split; [done|]. unfold MessagesDecoder_decode. by rewrite Hb. }
  right. destruct (decide (len = 0)) as [->|?].
  { left. exists rest. split; [done|]. unfold MessagesDecoder_decode. by rewrite Hb. }
  right. assert (0 < len) by (unfold is_u32 in Hu; lia).
  destruct rest as [|id body]; [left|right]; [|eauto 10].
  exists len. by rewrite app_nil_r.
Qed.

Lemma be_header_inj len len' r r' : is_u32 len → is_u32 len' →
  be_bytes 4 len ++ r = be_bytes 4 len' ++ r' → len = len' ∧ r = r'.
Proof.
  intros Hl Hl' Heq. apply app_inj_1 in Heq as [Heq ->];
    [|by rewrite !length_be_bytes].
  split; [|done]. apply (f_equal be_value) in Heq. by rewrite !be_value_u32 in Heq.
Qed.

Lemma decode_panic_iff b :
  MessagesDecoder_decode b = Panic ↔
  ∃ len body, b = be_bytes 4 len ++ x07 :: body ∧
    1 ≤ len < 9 ∧ len ≤ zlen (x07 :: body) ∧ 8 ≤ zlen body.
Proof.
  split.
  - intros Hp. destruct (decode_cases b)
      as [[_ Hb]|[(? & _ & Hb)|[(len & Hu & ? & ->)|(len & id & body & Hu & ? & ->)]]].
    1,2: congruence.
    { by rewrite decode_short_header in Hp. }
    rewrite decode_header in Hp by done. rewrite Z.gtb_ltb in Hp.
    destruct (Z.ltb_spec (zlen (id :: body)) len); [done|].
    unfold is_u32 in Hu. apply decode_body_panic in Hp as (Hid & ? & ?); [|lia].
    exists len, body. rewrite (byte_val_inj id x07 Hid) in *. split_and!; try done; lia.
  - intros (len & body & -> & Hl & ? & ?).
    rewrite decode_header by (unfold is_u32; lia). rewrite Z.gtb_ltb.
    destruct (Z.ltb_spec (zlen (x07 :: body)) len); [lia|].
    apply decode_body_panic; [lia|]. split_and!; [done|lia|done].
Qed.

(** A strict prefix of a frame asks for more bytes, at most the frame's size. *)
Lemma decode_prefix m p s : wf_message m → frame m = p ++ s → s ≠ [] →
  ∃ e, MessagesDecoder_decode p = Err (PE_TryGetError e) ∧ requested e ≤ zlen (frame m).
Proof.
  intros Hwf Hfr Hs. pose proof (payload_u32 m Hwf) as Hu.
  assert (Hlen : zlen (frame m) = 4 + zlen (payload m)).
  { unfold frame. by rewrite zlen_app, zlen_be_bytes. }
  assert (0 < zlen s) by (destruct s; [done|]; rewrite zlen_cons; zlia).
  destruct (decode_cases p)
    as [[? Hb]|[(r & -> & Hb)|[(len & ? & ? & ->)|(len & id & r & ? & ? & ->)]]];
    [eexists; split; [done|]; cbn [requested]; zlia|..];
    unfold frame in Hfr; rewrite <-?app_assoc in Hfr;
    apply be_header_inj in Hfr as [Hl Hr]; try done.
  - rewrite Hr, zlen_app in Hl. zlia.
  - rewrite decode_short_header by done. eexists; split; [done|]. cbn [requested]. lia.
  - rewrite decode_header by done. rewrite Hr, zlen_app in Hl. rewrite Z.gtb_ltb.
    destruct (Z.ltb_spec (zlen (id :: r)) len); [|lia].
    eexists; split; [done|]. cbn [requested]. rewrite Hlen, Hr, zlen_app. lia.
Qed.

(** ** What the message decoder accepts *)

Lemma flag_try_from_inv x f :
  FlagMessages_try_from (byte_val x) = Ret f → x = byte_of (FlagMessages_as_u8 f).
Proof.
  unfold FlagMessages_try_from. intros Hf. apply byte_val_inj. rewrite byte_val_of.
  repeat case_match; simplify_eq;
    match goal with E : (_ =? _) = true |- _ => apply Z.eqb_eq in E; by rewrite E end.
Qed.

Lemma decode_body_sound len id b m rest :
  1 ≤ len < 2 ^ 32 → len ≤ 1 + zlen b → decode_body len (byte_val id) b = Ret (m, rest) →
  wf_message m ∧ id :: b = payload m ++ rest ∧
  (fixed_size m = true ∨ len = zlen (payload m)).
Proof.
  intros Hlen Hb. unfold decode_body.
  assert (Hid : ∀ x, (byte_val id =? byte_val x) = true → id = x).
  { intros x Hx. apply byte_val_inj. lia. }
  destruct (byte_val id =? 4) eqn:E4; [|destruct (byte_val id =? 5) eqn:E5;
    [|destruct (byte_val id =? 6) eqn:E6; [|destruct (byte_val id =? 7) eqn:E7;
    [|destruct (byte_val id =? 8) eqn:E8]]]].
  - rewrite (Hid x04 E4). read32; [done|]. intros [= <- <-]. naive_solver.
  - rewrite (Hid x05 E5), bind_arith, bind_vec by lia.
    destruct (copy_cases (len - 1) b) as [[? ->]|(a & b' & ? & -> & ->)]; [lia|done|].
    intros [= <- <-]. cbn [wf_message payload fixed_size]. zlen_simpl.
    split_and!; [lia|done|right; lia].
  - rewrite (Hid x06 E6). do 3 (read32; [done|]). intros [= <- <-].
    cbn [wf_message payload fixed_size app]. rewrite <-!app_assoc. naive_solver.
  - rewrite (Hid x07 E7). do 2 (read32; [done|]). zlen_simpl.
    destruct (decide (len < 9)).
    { by rewrite <-bind_assoc, arith_small_piece by lia. }
    rewrite bind_arith, bind_vec by lia.
    edestruct (copy_cases (len - 9)) as [[? ->]|(a & ? & ? & -> & ->)]; [lia|done|].
    intros [= <- <-]. cbn [wf_message payload fixed_size app]. zlen_simpl.
    rewrite <-!app_assoc. split_and!; try done; [lia|right; lia].
  - rewrite (Hid x08 E8). do 3 (read32; [done|]). intros [= <- <-].
    cbn [wf_message payload fixed_size app]. rewrite <-!app_assoc. naive_solver.
  - destruct (Z.eqb_spec len 1) as [->|?]; [|done]. intros Hf. inv_bind.
    apply flag_try_from_inv in Hm as ->. split_and!; [done|done|by right].
Qed.

Lemma decode_sound b m rest : MessagesDecoder_decode b = Ret (m, rest) →
  wf_message m ∧ ∃ len, is_u32 len ∧ b = be_bytes 4 len ++ payload m ++ rest ∧
    (fixed_size m = true ∨ len = zlen (payload m)).
Proof.
  intros Hd. destruct (decode_cases b)
    as [[_ Hb]|[(r & -> & Hb)|[(len & Hu & ? & ->)|(len & id & body & Hu & ? & ->)]]].
  - congruence.
  - rewrite Hd in Hb. injection Hb as -> ->. split; [done|]. exists 0.
    split_and!; [by unfold is_u32|done|by right].
  - by rewrite decode_short_header in Hd.
  - rewrite decode_header in Hd by done. rewrite Z.gtb_ltb in Hd.
    destruct (Z.ltb_spec (zlen (id :: body)) len); [done|].
    unfold is_u32 in Hu. rewrite zlen_cons in *.
    apply decode_body_sound in Hd as (? & Heq & ?); [|lia..].
    split; [done|]. exists len. by rewrite Heq.
Qed.

(** ** The handshake *)

Lemma handshake_encode_frame h i : Handshake_encode h i = i ++ handshake_frame h.
Proof.
  unfold Handshake_encode, handshake_frame. autorewrite with bytes_crate.
  by rewrite <-!app_assoc.
Qed.

Lemma handshake_decode_frame h rest : wf_handshake h →
  HandshakeDecoder_decode (handshake_frame h ++ rest) = Ret (h, rest).
Proof.
  intros [Hi Hp]. unfold HandshakeDecoder_decode, handshake_frame.
  cbn [app]. rewrite try_get_u8_ok. cbn [map_err]. rewrite bind_ret.
  rewrite <-!app_assoc, bind_vec by done.
  rewrite copy_n by done. cbn [map_err]. rewrite bind_ret.
  change 8 with (zlen (replicate 8 x00)). rewrite advance_ok, bind_ret.
  rewrite bind_vec by done.
  rewrite copy_n by done. cbn [map_err]. rewrite bind_ret.
  rewrite bind_vec by done.
  rewrite copy_n by done. cbn [map_err]. rewrite bind_ret. by destruct h as [[]].
Qed.

(** The decoder panics exactly when the cursor ends inside the eight reserved
    bytes, which it skips without a bounds check. *)
Lemma handshake_panic_iff b : HandshakeDecoder_decode b = Panic ↔
  ∃ n p tail, b = n :: p ++ tail ∧ zlen p = byte_val n ∧ zlen tail < 8.
Proof.
  unfold HandshakeDecoder_decode. split.
  - destruct b as [|n b]; [by rewrite try_get_u8_err|].
    rewrite try_get_u8_ok. cbn [map_err]. rewrite bind_ret.
    pose proof (byte_val_range n). rewrite bind_vec by lia.
    destruct (copy_cases (byte_val n) b) as [[? ->]|(p & tl & ? & -> & ->)]; [lia|done|].
    cbn [map_err]. rewrite bind_ret.
    destruct (decide (zlen tl < 8)) as [?|Hge]; [by eauto 10|].
    rewrite <-(take_drop 8 tl). assert (Ht : zlen (take 8 tl) = 8).
    { unfold zlen in *. rewrite length_take. lia. }
    rewrite <-Ht at 1. rewrite advance_ok, bind_ret.
    rewrite bind_vec by done.
    destruct (copy_cases 20 (drop 8 tl)) as [[? ->]|(? & t1 & ? & -> & ->)]; [lia|done|].
    cbn [map_err]. rewrite !bind_ret, bind_vec by done.
    destruct (copy_cases 20 t1) as [[? ->]|(? & ? & ? & -> & ->)]; [lia|done|done].
  - intros (n & p & tl & -> & Hp & Htl). rewrite try_get_u8_ok. cbn [map_err].
    rewrite bind_ret. pose proof (byte_val_range n).
    rewrite bind_vec, copy_n by lia. cbn [map_err].
    rewrite bind_ret. by rewrite advance_panic.
Qed.
End protocol_facts.

(** * Properties *)

Section protocol_properties.
Context `{BytesCrateOk} `{Profile}.

(** C18. Every message whose payload length fits the
    [u32] prefix is encoded without panic or overflow, in either build profile,
    by appending one frame, and the decoder reads that frame back, leaving
    exactly the bytes that follow it. *)
Theorem messages_roundtrip m i :
  wf_message m →
  ∃ fr, Messages_encode m i = Ret (i ++ fr) ∧
    ∀ rest, MessagesDecoder_decode (fr ++ rest) = Ret (m, rest).
Proof.
  intros Hwf. exists (frame m). split; [by apply encode_frame|].
  intros rest. by apply decode_frame.
Qed.

(** C19. Whatever the decoder accepts is a length
    prefix followed by the payload of the message it returns, every integer
    field of which is in range; unless the message has a fixed size (for these
    the declared length is not looked at), the bytes consumed are the encoding
    of the message. *)
Theorem messages_decode_sound b m rest :
  MessagesDecoder_decode b = Ret (m, rest) →
  wf_message m ∧ ∃ len, is_u32 len ∧ b = be_bytes 4 len ++ payload m ++ rest ∧
    (fixed_size m = false →
       Messages_encode m [] = Ret (be_bytes 4 len ++ payload m)).
Proof.
  intros (Hwf & len & Hu & -> & Hl)%decode_sound. split; [done|].
  exists len. split_and!; [done|done|]. intros Hf. rewrite encode_frame by done.
  destruct Hl as [?| ->]; [congruence|done].
Qed.

(** C20. The message decoder panics on exactly
    these inputs, in either build profile: a complete frame with id 7 (piece)
    whose declared length is below 9, when at least eight more bytes are
    buffered. Such a frame is a remote crash. *)
Theorem messages_decode_panics_iff b :
  MessagesDecoder_decode b = Panic ↔
  ∃ len body, b = be_bytes 4 len ++ x07 :: body ∧
    1 ≤ len < 9 ∧ len ≤ zlen (x07 :: body) ∧ 8 ≤ zlen body.
Proof. apply decode_panic_iff. Qed.

(** A handshake with 20-byte ids is encoded as 68
    bytes that decode to it, leaving the bytes that follow. *)
Theorem handshake_roundtrip h i rest :
  wf_handshake h →
  ∃ fr, Handshake_encode h i = i ++ fr ∧ zlen fr = 68 ∧
    HandshakeDecoder_decode (fr ++ rest) = Ret (h, rest).
Proof.
  intros Hwf. exists (handshake_frame h). split_and!.
  - apply handshake_encode_frame.
  - destruct Hwf as [Hi Hp]. unfold handshake_frame. rewrite zlen_cons, !zlen_app, Hi, Hp. done.
  - by apply handshake_decode_frame.
Qed.

(** The handshake decoder panics on exactly the
    inputs that hold the protocol name but end inside the eight reserved bytes,
    instead of asking for more bytes. *)
Theorem handshake_panics_iff b :
  HandshakeDecoder_decode b = Panic ↔
  ∃ n p tail, b = n :: p ++ tail ∧ zlen p = byte_val n ∧ zlen tail < 8.
Proof. apply handshake_panic_iff. Qed.
End protocol_properties.

(** * Concrete inputs *)

Module ProtocolExamples.
Import ListBytes DevProfile.

Definition piece_msg : Messages := Piece 1 16384 (bs "block").
Definition hs : Handshake :=
  mkHandshake (mkPeerContext (replicate 20 x01) (replicate 20 x02)).

Lemma messages_roundtrip_witness :
  wf_message piece_msg ∧
  ∃ fr, Messages_encode piece_msg [] = Ret ([] ++ fr) ∧
    ∀ rest, MessagesDecoder_decode (fr ++ rest) = Ret (piece_msg, rest).
Proof.
  assert (Hwf : wf_message piece_msg) by (vm_compute; split_and!; done).
  split; [exact Hwf|]. exact (messages_roundtrip piece_msg [] Hwf).
Defined.

Lemma messages_decode_sound_witness :
  ∃ len, is_u32 len ∧
    [x00; x00; x00; x01; x02; xff] = be_bytes 4 len ++ payload (Flag Interested) ++ [xff].
Proof.
  destruct (messages_decode_sound [x00; x00; x00; x01; x02; xff] (Flag Interested) [xff])
    as (_ & len & Hu & Hb & _); [reflexivity|].
  exists len. split; [exact Hu|exact Hb].
Defined.

Lemma handshake_roundtrip_witness :
  ∃ fr, Handshake_encode hs [] = [] ++ fr ∧ zlen fr = 68 ∧
    HandshakeDecoder_decode (fr ++ [x00]) = Ret (hs, [x00]).
Proof. apply (handshake_roundtrip hs [] [x00]). split; reflexivity. Defined.

Lemma messages_decode_panics_iff_witness :
  MessagesDecoder_decode
    (be_bytes 4 1 ++ x07 :: replicate 8 x00) = Panic.
Proof.
  apply messages_decode_panics_iff. exists 1, (replicate 8 x00).
  split_and!; try reflexivity; vm_compute; congruence.
Defined.

Lemma handshake_panics_iff_witness :
  HandshakeDecoder_decode (x13 :: HANDSHAKE_PROTOCOL_ID ++ []) = Panic.
Proof.
  apply handshake_panics_iff. exists x13, HANDSHAKE_PROTOCOL_ID, [].
  split_and!; reflexivity.
Defined.

(** [bitfield_cap] of the source's tests. *)
Example bitfield_cap :
  let b := be_bytes 4 25 ++ x05 :: replicate 23 xff ++ [xfe] in
  MessagesDecoder_decode b = Ret (BitField (replicate 23 xff ++ [xfe]), []).
Proof. vm_compute. reflexivity. Qed.

(** The declared length of a [Have] is not checked: the bytes between the
    payload and the declared end are read as the next frame. *)
Example have_length_ignored :
  MessagesDecoder_decode (be_bytes 4 9 ++ x04 :: be_bytes 4 7 ++ be_bytes 4 0) =
    Ret (Have 7, be_bytes 4 0) ∧
  MessagesDecoder_decode (be_bytes 4 0) = Ret (KeepAlive, []).
Proof. split; vm_compute; reflexivity. Qed.
End ProtocolExamples.
