(* ===== verification/Errors.v ===== *)
(** The errors of the peer side: [src/src/peer/error.rs], and [anyhow::Error]
    as the sum of the errors the program puts into it. *)
From S2P Require Import Prelude ByteStr Protocol.
From Stdlib Require Import ZArith.

Inductive PeerError :=
  | BadBounds (piece end_pos : Z)
  | BadPieceIdx (piece : Z)
  | FileAlreadyComplete (piece : Z)
  | FilePieceNotFinished (piece : Z)
  | PieceHashMismatch (piece : Z) (computed expected : list byte)
  | NetworkTimeout
  | Other (msg : list byte).

Definition PeerError_other (msg : string) : PeerError := Other (bs msg).

(** [io_error] stands for [std::io::Error] values, [SendError] for a send on a
    channel whose receiver is gone. *)
Inductive AnyError :=
  | AE_Peer (e : PeerError)
  | AE_Protocol (e : ProtocolError)
  | AE_Io (kind : Z)
  | AE_Send.
