(* ===== verification/Net.v ===== *)
(** The connection layer, [src/src/peer/net.rs]: reading frames off a TCP
    stream into a buffer, writing frames, the handshake exchange.

    The TCP stream belongs to tokio and is a parameter: [TcpStream] has the two
    calls the program makes, and the second when a time limit cuts it off; [TcpStreamOk]
    says what they do on a stream that delivers given chunks and then closes, and
    [TcpWrites] that its writes succeed. A loop takes fuel and returns [None]
    when it runs out. *)
From S2P Require Import Prelude ByteStr BytesCrate Model Protocol Errors.
From Stdlib Require Import ZArith Lia.

(** [stream.read_buf(&mut buffer)] appends what arrived to the buffer and
    returns its size; [stream.write_all_buf(&mut b)] sends all of [b], or fails with a part
    of it sent; [write_cut n b]: the stream when that call is dropped with [n] bytes of [b]
    sent. *)
Class TcpStream (S : Type) := {
  read_buf : S → list byte → outcome AnyError (Z * list byte * S);
  write_all_buf : list byte → action S AnyError unit;
  write_cut : nat → list byte → S → S;
}.

(** [delivers s cs]: the peer's bytes arrive as the chunks [cs], then the peer
    closes. [sent s]: the bytes written so far. *)
Class TcpStreamOk (S : Type) `{TcpStream S} := {
  delivers : S → list (list byte) → Prop;
  sent : S → list byte;
  read_buf_eof s buf : delivers s [] → ∃ s',
    read_buf s buf = Ret (0, buf, s') ∧ delivers s' [] ∧ sent s' = sent s;
  read_buf_chunk s buf c cs : delivers s (c :: cs) → ∃ s',
    read_buf s buf = Ret (zlen c, buf ++ c, s') ∧ delivers s' cs ∧ sent s' = sent s;
  write_all_sends s b r s' : write_all_buf b s = (r, s') →
    match r with
    | Ret _ => sent s' = sent s ++ b ∧ ∀ cs, delivers s cs → delivers s' cs
    | Err _ => ∃ part, part `prefix_of` b ∧ sent s' = sent s ++ part
    | Panic => False
    end;
  write_cut_sends s n b : sent (write_cut n b s) = sent s ++ take n b;
}.

Class TcpWrites (S : Type) `{TcpStreamOk S} : Prop :=
  writes s b cs : delivers s cs → ∃ s', write_all_buf b s = (Ret tt, s').

(** [Decode] and [Encode]: what a connection is parameterised by. *)
Class Decode (T : Type) := decode : list byte → outcome ProtocolError (T * list byte).
Class Encode (T : Type) := encode : T → list byte → outcome ProtocolError (list byte).

#[export] Instance MessagesDecoder `{BytesCrate, Profile} : Decode Messages :=
  MessagesDecoder_decode.
#[export] Instance HandshakeDecoder `{BytesCrate} : Decode Handshake :=
  HandshakeDecoder_decode.
#[export] Instance Messages_Encode `{BytesCrate, Profile} : Encode Messages :=
  Messages_encode.
#[export] Instance Handshake_Encode `{BytesCrate} : Encode Handshake :=
  λ h i, Ret (Handshake_encode h i).

(** [Connection]. The type of its messages is a parameter of its operations, so
    [translate] keeps the value. *)
Record Connection (S : Type) := mkConnection { stream : S; buffer : list byte }.
Arguments mkConnection {S} stream buffer.
Arguments stream {S} c.
Arguments buffer {S} c.

Definition Connection_new {S} (stream : S) : Connection S := mkConnection stream [].
Definition translate {S} (c : Connection S) : Connection S := mkConnection (stream c) (buffer c).

Section connection.
Context {S : Type} `{BytesCrate} `{TcpStream S}.

(** [read_msg]: the result and the connection it leaves. *)
Fixpoint read_msg_loop {T} `{Decode T} (fuel : nat) (needs : Z) (c : Connection S)
    : option (outcome AnyError (option T) * Connection S) :=
  match fuel with
  | O => None
  | Datatypes.S fuel =>
      let read (needs : Z) :=
        match read_buf (stream c) (buffer c) with
        | Err e => Some (Err e, c)
        | Panic => Some (Panic, c)
        | Ret (read_bytes, buffer, stream) =>
            let c := mkConnection stream buffer in
            if 0 =? read_bytes then
              if decide (buffer = []) then Some (Ret None, c)
              else Some (Err (AE_Peer (PeerError_other "connection reset by peer")), c)
            else read_msg_loop fuel needs c
        end in
      if remaining (buffer c) >=? needs then
        let read_buf := buffer c in
        let remaining_before := remaining read_buf in
        match decode read_buf with
        | Ret (msg, read_buf) =>
            let n := remaining_before - remaining read_buf in
            match advance n (buffer c) with
            | Ret b => Some (Ret (Some msg), mkConnection (stream c) b)
            | Err e => Some (Err e, c)
            | Panic => Some (Panic, c)
            end
        | Err (PE_TryGetError e) => read (requested e)
        | Err e => Some (Err (AE_Protocol e), c)
        | Panic => Some (Panic, c)
        end
      else read needs
  end.

Definition read_msg {T} `{Decode T} (fuel : nat) (c : Connection S)
    : option (outcome AnyError (option T) * Connection S) :=
  read_msg_loop fuel 0 c.

(** [write_msg], and the connection it leaves. [cut]: the time limit of three seconds cuts
    the write off with so many bytes sent. *)
Definition write_msg {T} `{Encode T} (cut : option nat) (msg : T)
    : action (Connection S) AnyError unit := λ c,
  match map_err AE_Protocol (encode msg []) with
  | Ret b =>
      match cut with
      | Some n => (Err (AE_Peer NetworkTimeout), mkConnection (write_cut n b (stream c)) (buffer c))
      | None => let '(r, s) := write_all_buf b (stream c) in (r, mkConnection s (buffer c))
      end
  | Err e => (Err e, c)
  | Panic => (Panic, c)
  end.

(** [do_handshake]. *)
Definition do_handshake (fuel : nat) (cut : option nat) (torrent : V1Torrent)
    (our_id : InternalPeerId) (s : S) : option (outcome AnyError (Handshake * Connection S)) :=
  let conn := Connection_new s in
  let our_handshake :=
    mkHandshake (mkPeerContext (torrent_info_hash (info torrent)) our_id) in
  match write_msg cut our_handshake conn with
  | (Err e, _) => Some (Err e)
  | (Panic, _) => Some Panic
  | (Ret _, conn) =>
      match read_msg fuel conn with
      | None => None
      | Some (Ret (Some handshake), conn) => Some (Ret (handshake, translate conn))
      | Some (Ret None, _) => Some (Err (AE_Peer
          (PeerError_other "Expected a handshake, but got an unknown message.")))
      | Some (Err e, _) => Some (Err e)
      | Some (Panic, _) => Some Panic
      end
  end.

(** The messages a connection yields until it reports the end or an error. *)
Fixpoint read_all {T} `{Decode T} (n fuel : nat) (c : Connection S)
    : option (list T * outcome AnyError unit) :=
  match n with
  | O => None
  | Datatypes.S n =>
      match read_msg fuel c with
      | None => None
      | Some (Ret (Some m), c) =>
          match read_all n fuel c with
          | Some (ms, r) => Some (m :: ms, r)
          | None => None
          end
      | Some (Ret None, _) => Some ([], Ret tt)
      | Some (Err e, _) => Some ([], Err e)
      | Some (Panic, _) => Some ([], Panic)
      end
  end.
End connection.

(** * Framed codecs

    What the read loop needs from a decoder, independently of the message
    type: whole frames decode, strict prefixes ask for more. *)
Class Framed (T : Type) `{Decode T} (fr : T → list byte) (wf : T → Prop) : Prop := {
  framed_decode m rest : wf m → decode (fr m ++ rest) = Ret (m, rest);
  framed_prefix m p s : wf m → fr m = p ++ s → s ≠ [] →
    ∃ e, decode p = Err (PE_TryGetError e) ∧ requested e ≤ zlen (fr m);
  framed_empty : ∃ e, decode [] = Err (PE_TryGetError e);
}.

#[export] Instance Messages_framed `{BytesCrateOk, Profile} :
  Framed Messages frame wf_message.
Proof.
  split.
  - intros. by apply decode_frame.
  - intros. by eapply decode_prefix.
  - destruct (decode_prefix KeepAlive [] (frame KeepAlive)) as (e & ? & _); [done..|by exists e].
Qed.

Definition reset_error : AnyError := AE_Peer (PeerError_other "connection reset by peer").

(** A stream, seen from a connection: what is buffered and what is to come. *)
Definition incoming {S} `{TcpStreamOk S} (c : Connection S) (cs : list (list byte)) : Prop :=
  delivers (stream c) cs ∧ Forall (λ x, x ≠ []) cs.

Section read_loop.
Context {S : Type} `{BytesCrateOk} `{TcpStreamOk S}.
Context {T : Type} `{Decode T} (fr : T → list byte) (wf : T → Prop) `{!Framed T fr wf}.
Implicit Types (c : Connection S) (cs : list (list byte)).

(** A decoder that asks for more makes the loop read one chunk. *)
Lemma loop_reads_chunk fuel needs c x cs :
  (∃ e, decode (buffer c) = Err (PE_TryGetError e)) →
  incoming c (x :: cs) →
  ∃ needs' c', read_msg_loop (Datatypes.S fuel) needs c = read_msg_loop fuel needs' c' ∧
    incoming c' cs ∧ buffer c' = buffer c ++ x ∧ sent (stream c') = sent (stream c) ∧
    (needs' = needs ∨ ∃ e, decode (buffer c) = Err (PE_TryGetError e) ∧ needs' = requested e).
Proof.
  intros [e He] [Hd Hne]. inversion Hne as [|? ? Hx Hcs]; subst.
  destruct (read_buf_chunk (stream c) (buffer c) x cs Hd) as (s' & Hr & Hd' & Hs).
  assert ((0 =? zlen x) = false) as Hz.
  { destruct x; [done|]. rewrite zlen_cons. apply Z.eqb_neq. zlia. }
  cbn [read_msg_loop]. rewrite He, Hr, Hz.
  case_match; (do 2 eexists; split; [reflexivity|]; split_and!; [done|done|done|eauto]).
Qed.

Lemma loop_reads_eof fuel needs c :
  (∃ e, decode (buffer c) = Err (PE_TryGetError e)) →
  incoming c [] →
  ∃ c', read_msg_loop (Datatypes.S fuel) needs c =
    Some (if decide (buffer c = []) then Ret None else Err reset_error, c') ∧
    sent (stream c') = sent (stream c).
Proof.
  intros [e He] [Hd _].
  destruct (read_buf_eof (stream c) (buffer c) Hd) as (s' & Hr & Hd' & Hs).
  cbn [read_msg_loop]. rewrite He, Hr. cbn [Z.eqb].
  repeat case_match; eexists; (split; [reflexivity|exact Hs]).
Qed.

Lemma loop_returns fuel needs c m pre rest :
  decode (buffer c) = Ret (m, rest) → buffer c = pre ++ rest → needs ≤ zlen (buffer c) →
  read_msg_loop (Datatypes.S fuel) needs c = Some (Ret (Some m), mkConnection (stream c) rest).
Proof.
  intros Hd Hb Hn. cbn [read_msg_loop]. rewrite Hd, !remaining_spec.
  rewrite Z.geb_leb, (proj2 (Z.leb_le _ _)) by done.
  rewrite Hb, zlen_app, Z.add_simpl_r. by rewrite advance_ok.
Qed.

Lemma loop_panics fuel needs c :
  decode (buffer c) = Panic → needs ≤ zlen (buffer c) →
  read_msg_loop (T := T) (Datatypes.S fuel) needs c = Some (Panic, c).
Proof.
  intros Hd Hn. cbn [read_msg_loop]. rewrite Hd, remaining_spec.
  by rewrite Z.geb_leb, (proj2 (Z.leb_le _ _)) by done.
Qed.

Lemma loop_decodes fuel needs c m rest :
  wf m → buffer c = fr m ++ rest → needs ≤ zlen (fr m) →
  read_msg_loop (Datatypes.S fuel) needs c = Some (Ret (Some m), mkConnection (stream c) rest).
Proof.
  intros Hwf Hb Hn. apply (loop_returns _ _ _ _ (fr m)); [|done|].
  - rewrite Hb. by apply framed_decode.
  - rewrite Hb, zlen_app. zlia.
Qed.

Lemma loop_frame m rest cs : wf m → ∀ fuel needs c,
  incoming c cs → buffer c ++ concat cs = fr m ++ rest → needs ≤ zlen (fr m) →
  (length cs < fuel)%nat →
  ∃ c' cs', read_msg_loop fuel needs c = Some (Ret (Some m), c') ∧ incoming c' cs' ∧
    buffer c' ++ concat cs' = rest ∧ (length cs' ≤ length cs)%nat ∧
    sent (stream c') = sent (stream c).
Proof.
  intros Hwf. induction cs as [|x cs IH]; intros fuel needs c Hin Heq Hn Hf;
    (destruct fuel as [|fuel]; [simpl in *; lia|]);
    apply app_eq_inv in Heq as [(k & Hb & Hk)|(k & Hfr & Hk)].
  - cbn [concat] in Hk. rewrite app_nil_r in Hk. subst k.
    exists (mkConnection (stream c) rest), []. split_and!; try done; [|by rewrite app_nil_r].
    by apply loop_decodes.
  - cbn [concat] in Hk. symmetry in Hk. apply app_nil in Hk as [-> ->].
    rewrite app_nil_r in Hfr. exists (mkConnection (stream c) []), [].
    split_and!; try done. apply loop_decodes; [done|by rewrite app_nil_r|done].
  - exists (mkConnection (stream c) k), (x :: cs). split_and!; try done.
    by apply loop_decodes.
  - destruct (decide (k = [])) as [->|Hk0].
    { rewrite app_nil_r in Hfr. exists (mkConnection (stream c) []), (x :: cs).
      split_and!; try done. apply loop_decodes; [done|by rewrite app_nil_r|done]. }
    destruct (framed_prefix m (buffer c) k Hwf Hfr Hk0) as (e & He & Hreq).
    destruct (loop_reads_chunk fuel needs c x cs) as (n' & c' & -> & Hin' & Hb' & Hs' & Hn');
      [eauto|done|].
    destruct (IH fuel n' c' Hin') as (c2 & cs2 & -> & ? & ? & ? & ?).
    + rewrite Hb', <-app_assoc. cbn [concat] in Hk. by rewrite Hk, Hfr, <-app_assoc.
    + destruct Hn' as [->|(e' & He' & ->)]; [done|]. rewrite He in He'. by simplify_eq.
    + simpl in *; lia.
    + exists c2, cs2. split_and!; [done|done|done|simpl; lia|congruence].
Qed.

(** What a peer may leave at the end: nothing, or a part of a frame. *)
Definition partial (p : list byte) : Prop :=
  p = [] ∨ ∃ m s, wf m ∧ fr m = p ++ s ∧ s ≠ [].

Lemma partial_decode p : partial p → ∃ e, decode p = Err (PE_TryGetError e).
Proof.
  intros [->|(m & s & Hwf & Hfr & Hs)]; [apply framed_empty|].
  destruct (framed_prefix m p s Hwf Hfr Hs) as (e & ? & _). by exists e.
Qed.

Lemma partial_take p q : partial (p ++ q) → partial p.
Proof.
  intros [[-> ->]%app_nil|(m & s & Hwf & Hfr & Hs)]; [by left|right].
  exists m, (q ++ s). split_and!; [done|by rewrite app_assoc|].
  intros [_ ?]%app_nil. done.
Qed.

Lemma loop_end cs : ∀ fuel needs c,
  incoming c cs → partial (buffer c ++ concat cs) → (length cs < fuel)%nat →
  ∃ c', read_msg_loop fuel needs c =
    Some (if decide (buffer c ++ concat cs = []) then Ret None else Err reset_error, c') ∧
    sent (stream c') = sent (stream c).
Proof.
  induction cs as [|x cs IH]; intros fuel needs c Hin Hp Hf;
    (destruct fuel as [|fuel]; [simpl in *; lia|]).
  - cbn [concat] in *. rewrite app_nil_r in *.
    apply loop_reads_eof; [by apply partial_decode|done].
  - destruct (loop_reads_chunk fuel needs c x cs) as (n' & c' & -> & Hin' & Hb' & Hs' & _);
      [eauto using partial_decode, partial_take|done|].
    cbn [concat]. rewrite app_assoc, <-Hb', <-Hs'.
    apply IH; [done| |simpl in *; lia]. by rewrite Hb', <-app_assoc.
Qed.

Lemma read_all_spec ms p cs : ∀ n fuel c,
  Forall wf ms → partial p → incoming c cs →
  buffer c ++ concat cs = concat (map fr ms) ++ p →
  (length ms < n)%nat → (length cs < fuel)%nat →
  read_all n fuel c = Some (ms, if decide (p = []) then Ret tt else Err reset_error).
Proof.
  revert cs. induction ms as [|m ms IH]; intros cs n fuel c Hwf Hp Hin Heq Hn Hf;
    (destruct n as [|n]; [simpl in *; lia|]); cbn [read_all]; unfold read_msg.
  - destruct (loop_end cs fuel 0 c Hin) as (c' & -> & _); [by rewrite Heq|done|].
    rewrite Heq. cbn [map concat app]. by case_decide.
  - apply Forall_cons in Hwf as [Hm Hms]. cbn [map concat] in Heq.
    rewrite <-app_assoc in Heq.
    destruct (loop_frame m _ cs Hm fuel 0 c Hin Heq) as (c' & cs' & -> & Hin' & Heq' & ? & _);
      [apply zlen_nonneg|done|].
    rewrite (IH cs' n fuel c'); try done; simpl in *; lia.
Qed.
End read_loop.

(** * Properties *)

Section net_properties.
Context {S : Type} `{BytesCrateOk, Profile} `{TcpStreamOk S}.

(** Framing: however the network cuts the bytes of a
    sequence of messages into non-empty chunks, reading the connection yields
    exactly these messages, in order; then the end of the stream if the peer
    closed between frames, an error if it closed inside one. One read of the
    stream per chunk is enough fuel. *)
Theorem read_all_messages (s : S) ms p cs n fuel :
  Forall wf_message ms → partial frame wf_message p →
  delivers s cs → Forall (λ x, x ≠ []) cs →
  concat cs = concat (map frame ms) ++ p →
  (length ms < n)%nat → (length cs < fuel)%nat →
  read_all n fuel (Connection_new s) =
    Some (ms, if decide (p = []) then Ret tt else Err reset_error).
Proof. intros. by apply (read_all_spec frame wf_message ms p cs). Qed.

Lemma handshake_first_read (s : S) x cs fuel :
  x ≠ [] → delivers s (x :: cs) →
  ∃ c, read_msg_loop (T := Handshake) (Datatypes.S fuel) 0 (mkConnection s []) =
      read_msg_loop fuel 1 c ∧
    delivers (stream c) cs ∧ buffer c = x ∧ sent (stream c) = sent s.
Proof.
  intros Hx Hd.
  destruct (read_buf_chunk s [] x cs Hd) as (s2 & Hr & Hd2 & Hs2).
  exists (mkConnection s2 x). split_and!; [|done..]. cbn [read_msg_loop buffer stream].
  rewrite remaining_spec, Hr. change (zlen [] >=? 0) with true.
  unfold decode at 1, HandshakeDecoder at 1, HandshakeDecoder_decode at 1.
  rewrite try_get_u8_err. cbn [map_err requested mbind outcome_bind].
  destruct (Z.eqb_spec 0 (zlen x)) as [Hz|_]; [|done].
  destruct x; [done|]. rewrite zlen_cons in Hz. zlia.
Qed.

(** Our handshake is written, or the write fails. *)
Lemma write_handshake (s : S) t our_id :
  let h := mkHandshake (mkPeerContext (torrent_info_hash (info t)) our_id) in
  (∃ e c, write_msg None h (Connection_new s) = (Err e, c)) ∨
  (∃ s', write_msg None h (Connection_new s) = (Ret tt, Connection_new s') ∧
    sent s' = sent s ++ handshake_frame h ∧ ∀ cs, delivers s cs → delivers s' cs).
Proof.
  cbv zeta. unfold write_msg, encode, Handshake_Encode. rewrite handshake_encode_frame. cbn [map_err app].
  unfold Connection_new. cbn [stream buffer].
  destruct (write_all_buf _ s) as [[[]|e|] s'] eqn:Hw; apply write_all_sends in Hw; [right|left|done].
  - destruct Hw as [Hs Hd]. by exists s'.
  - by eexists _, _.
Qed.

(** When the peer's handshake arrives in one piece, followed by anything, [do_handshake] has
    sent our 68-byte handshake, returns the peer's, and hands every byte that follows it to the
    message connection; unless it cannot write. *)
Lemma do_handshake_cases (s : S) t our_id h rest cs fuel : wf_handshake h →
  delivers s ((handshake_frame h ++ rest) :: cs) → (1 < fuel)%nat →
  (∃ e c, write_msg None (mkHandshake (mkPeerContext (torrent_info_hash (info t)) our_id)) (Connection_new s) =
     (Err e, c) ∧ do_handshake fuel None t our_id s = Some (Err e)) ∨
  ∃ c, do_handshake fuel None t our_id s = Some (Ret (h, c)) ∧
    buffer c = rest ∧ delivers (stream c) cs ∧
    sent (stream c) = sent s ++
      handshake_frame (mkHandshake (mkPeerContext (torrent_info_hash (info t)) our_id)).
Proof.
  intros Hwf Hd Hf. unfold do_handshake.
  destruct (write_handshake s t our_id) as [(e & c & Hw)|(s1 & Hw & Hs1 & Hd1)]; rewrite Hw;
    [left; by exists e, c|right]. apply Hd1 in Hd.
  destruct fuel as [|[|fuel]]; [lia..|]. unfold read_msg, Connection_new.
  destruct (handshake_first_read s1 (handshake_frame h ++ rest) cs (Datatypes.S fuel))
    as (c & -> & Hd2 & Hb & Hs2); [done|done|].
  rewrite (loop_returns _ _ _ h (handshake_frame h) rest); [|rewrite Hb..].
  - exists (mkConnection (stream c) rest). split_and!; [done|done|done|].
    cbn [stream]. by rewrite Hs2, Hs1.
  - by apply handshake_decode_frame.
  - done.
  - unfold handshake_frame. cbn [app]. rewrite zlen_cons. zlia.
Qed.

Lemma write_works `{!TcpWrites S} (s : S) t our_id cs : delivers s cs → ∀ e c,
  write_msg None (mkHandshake (mkPeerContext (torrent_info_hash (info t)) our_id)) (Connection_new s) ≠ (Err e, c).
Proof.
  intros Hd e c. unfold write_msg, encode, Handshake_Encode, Connection_new. rewrite handshake_encode_frame.
  cbn [map_err app stream].
  by destruct (writes s (handshake_frame (mkHandshake (mkPeerContext (torrent_info_hash (info t)) our_id))) cs Hd)
    as (s' & ->).
Qed.

Theorem do_handshake_exchanges `{!TcpWrites S} (s : S) t our_id h rest cs fuel : wf_handshake h →
  delivers s ((handshake_frame h ++ rest) :: cs) → (1 < fuel)%nat →
  ∃ c, do_handshake fuel None t our_id s = Some (Ret (h, c)) ∧
    buffer c = rest ∧ delivers (stream c) cs ∧
    sent (stream c) = sent s ++
      handshake_frame (mkHandshake (mkPeerContext (torrent_info_hash (info t)) our_id)).
Proof.
  intros Hwf Hd Hf.
  destruct (do_handshake_cases s t our_id h rest cs fuel Hwf Hd Hf) as [(e & c & Hw & _)|?]; [|done].
  by apply (write_works _ _ _ _ Hd) in Hw.
Qed.

Lemma read_split_handshake (s : S) h p q cs fuel :
  wf_handshake h → handshake_frame h = p ++ q → 20 ≤ zlen p < 28 →
  delivers s (p :: cs) → (1 < fuel)%nat →
  ∃ c, read_msg (T := Handshake) fuel (Connection_new s) = Some (Panic, c).
Proof.
  intros Hwf Hfr Hp Hd Hf. unfold read_msg, Connection_new.
  destruct fuel as [|[|fuel]]; [lia..|].
  destruct (handshake_first_read s p cs (Datatypes.S fuel)) as (c & -> & _ & Hb & _);
    [intros ->; change (zlen []) with 0 in Hp; lia|done|].
  exists c. apply loop_panics; [|rewrite Hb; lia]. rewrite Hb. apply handshake_panic_iff.
  exists x13, HANDSHAKE_PROTOCOL_ID, (drop 20 p).
  assert (Htake : take 20 p = x13 :: HANDSHAKE_PROTOCOL_ID).
  { apply (f_equal (take 20)) in Hfr. rewrite take_app_le in Hfr by (unfold zlen in *; lia).
    rewrite <-Hfr. reflexivity. }
  split_and!; [|done|].
  - by rewrite <-(take_drop 20 p) at 1; rewrite Htake.
  - unfold zlen in *. rewrite length_drop. lia.
Qed.

Lemma do_handshake_split `{!TcpWrites S} (s : S) t our_id h p q cs fuel :
  wf_handshake h → handshake_frame h = p ++ q → 20 ≤ zlen p < 28 →
  delivers s (p :: cs) → (1 < fuel)%nat → do_handshake fuel None t our_id s = Some Panic.
Proof.
  intros Hwf Hfr Hp Hd Hf. unfold do_handshake.
  destruct (write_handshake s t our_id) as [(e & c & Hw)|(s1 & Hw & _ & Hd1)].
  { by apply (write_works _ _ _ _ Hd) in Hw. }
  rewrite Hw. destruct (read_split_handshake s1 h p q cs fuel) as (c & Hc); [by auto..|]. by rewrite Hc.
Qed.

(** A peer that lets its handshake arrive in two
    pieces, the first of which ends inside the reserved bytes, makes the read
    panic: the handshake decoder cannot be resumed there. *)
Theorem handshake_split_panics (s : S) h p q cs fuel :
  wf_handshake h → handshake_frame h = p ++ q → 20 ≤ zlen p < 28 →
  delivers s (p :: cs) → (1 < fuel)%nat →
  ∃ c, read_msg (T := Handshake) fuel (Connection_new s) = Some (Panic, c).
Proof. apply read_split_handshake. Qed.
End net_properties.

(** * Concrete streams *)

Module NetExamples.
Import ListBytes DevProfile ProtocolExamples.

(** A stream is the chunks to come and the bytes written. *)
Definition chunk_stream : Type := list (list byte) * list byte.

#[export] Instance chunk_tcp : TcpStream chunk_stream := {|
  read_buf s buf := match s with
    | ([], w) => Ret (0, buf, ([], w))
    | (c :: cs, w) => Ret (zlen c, buf ++ c, (cs, w))
    end;
  write_all_buf b s := (Ret tt, (s.1, s.2 ++ b));
  write_cut n b s := (s.1, s.2 ++ take n b);
|}.

#[export] Program Instance chunk_tcp_ok : TcpStreamOk chunk_stream := {|
  delivers s cs := s.1 = cs;
  sent s := s.2;
|}.
Next Obligation. intros [] **; simplify_eq/=; by eexists. Qed.
Next Obligation. intros [] **; simplify_eq/=; by eexists. Qed.
Next Obligation. by intros s b r s' [= <- <-]. Qed.
Next Obligation. done. Qed.

#[export] Instance chunk_tcp_writes : TcpWrites chunk_stream.
Proof. intros s b cs _. by eexists. Qed.

Definition three : list Messages := [Flag Unchoke; KeepAlive; piece_msg].
Definition wire : list byte := concat (map frame three).

Lemma read_all_messages_witness :
  read_all 4 4 (Connection_new ([take 3 wire; drop 3 wire; take 6 (frame piece_msg)], [])
    : Connection chunk_stream) = Some (three, Err reset_error).
Proof.
  refine (read_all_messages (S := chunk_stream) _ three (take 6 (frame piece_msg))
    [take 3 wire; drop 3 wire; take 6 (frame piece_msg)] 4 4 _ _ _ _ _ _ _).
  - repeat constructor; vm_compute; try split; congruence.
  - right. exists piece_msg, (drop 6 (frame piece_msg)).
    split_and!; [repeat constructor; vm_compute; try split; congruence|reflexivity|discriminate].
  - reflexivity.
  - repeat constructor; discriminate.
  - reflexivity.
  - simpl; lia.
  - simpl; lia.
Defined.

Definition small_torrent : V1Torrent :=
  mkTorrent (mkInfo 10 5 [mkPiece []; mkPiece []] [] (replicate 20 x0a)) [] [].

Lemma do_handshake_exchanges_witness :
  ∃ c, do_handshake 2 None small_torrent (replicate 20 x0b)
      ([handshake_frame hs ++ frame KeepAlive], [] : list byte) = Some (Ret (hs, c)) ∧
    buffer c = frame KeepAlive.
Proof.
  destruct (do_handshake_exchanges (S := chunk_stream)
    ([handshake_frame hs ++ frame KeepAlive], []) small_torrent (replicate 20 x0b) hs
    (frame KeepAlive) [] 2) as (c & Hc & Hb & _); [split; reflexivity|reflexivity|lia|].
  exists c. split; [exact Hc|exact Hb].
Defined.

Lemma handshake_split_panics_witness :
  ∃ c, read_msg (T := Handshake) 2
    (Connection_new ([take 24 (handshake_frame hs)], []) : Connection chunk_stream)
    = Some (Panic, c).
Proof.
  apply (handshake_split_panics (S := chunk_stream) _ hs (take 24 (handshake_frame hs))
    (drop 24 (handshake_frame hs)) []).
  - split; reflexivity.
  - reflexivity.
  - vm_compute. split; congruence.
  - reflexivity.
  - lia.
Defined.
End NetExamples.
