(* ===== verification/Bitfield.v ===== *)
(** Bit fields, [src/src/peer/bitfield.rs]: the piece set of a peer as bits,
    most significant bit first, with its reader, iterator and writer; and the
    piece list that a received bit field stands for
    ([src/src/peer/state/mod.rs], the [BitField] message). *)
From S2P Require Import Prelude ByteStr BytesCrate.
From Stdlib Require Import ZArith Lia.

Definition MASK : Z := 128.

Record BitFieldReader := mkReader { reader_bytes : list byte }.

(** [u8::checked_shr]: [None] when the shift is not below the width. *)
Definition checked_shr (x n : Z) : option Z :=
  if n <? 8 then Some (Z.shiftr x n) else None.

Definition get_bit (r : BitFieldReader) (bit_num : Z) : option bool :=
  let byte_pos := bit_num / 8 in
  match reader_bytes r !! Z.to_nat byte_pos with
  | Some byte =>
      let bit_pos := as_u32 bit_num mod 8 in
      match checked_shr MASK bit_pos with
      | Some mask =>
          let v := Z.land mask (byte_val byte) in
          if negb (v =? 0) then Some true else Some false
      | None => None
      end
  | None => None
  end.

Record BitFieldReaderIter := mkIter { reader : BitFieldReader; pos : Z }.

Definition BitFieldReaderIter_from (reader : BitFieldReader) : BitFieldReaderIter :=
  mkIter reader 0.

Record BitFieldWriter := mkWriter { writer_bytes : list byte; bits_written : Z }.

Definition BitFieldWriter_new (bytes : list byte) : BitFieldWriter := mkWriter bytes 0.

Definition BitFieldWriter_into (w : BitFieldWriter) : list byte := writer_bytes w.

Section bitfield.
Context `{Profile} {E : Type}.

(** [next]: the item and the advanced iterator. *)
Definition next (it : BitFieldReaderIter) : outcome E (option bool * BitFieldReaderIter) :=
  let v := get_bit (reader it) (pos it) in
  p ← arith 64 (pos it + 1);
  Ret (v, mkIter (reader it) p).

(** Draining the iterator into a vector. *)
Fixpoint collect (fuel : nat) (it : BitFieldReaderIter) : option (outcome E (list bool)) :=
  match fuel with
  | O => None
  | S fuel =>
      match next it with
      | Ret (None, _) => Some (Ret [])
      | Ret (Some v, it) =>
          match collect fuel it with
          | Some (Ret vs) => Some (Ret (v :: vs))
          | r => r
          end
      | Err e => Some (Err e)
      | Panic => Some Panic
      end
  end.

(** [.enumerate().filter(|(_, set)| *set).map(|(i, _)| i as u32)]. *)
Definition pieces_present (bits : list bool) : list Z :=
  map (λ p, as_u32 (Z.of_nat p.1)) (filter (λ p, p.2 = true) (imap pair bits)).

Context `{BytesCrate}.

Definition put_bit (w : BitFieldWriter) (bit : bool) : outcome E BitFieldWriter :=
  let bit_pos := bits_written w mod 8 in
  let bytes := if bit_pos =? 0 then put_u8 (writer_bytes w) 0 else writer_bytes w in
  last_byte_pos ← arith 64 (zlen bytes - 1);
  match bytes !! Z.to_nat last_byte_pos with
  | None => Panic
  | Some last_byte =>
      let bytes :=
        if bit then
          let mask := Z.shiftr MASK bit_pos in
          <[Z.to_nat last_byte_pos := byte_of (Z.lor (byte_val last_byte) mask)]> bytes
        else bytes in
      n ← arith 32 (bits_written w + 1);
      Ret (mkWriter bytes n)
  end.

Fixpoint put_bits (w : BitFieldWriter) (l : list bool) : outcome E BitFieldWriter :=
  match l with
  | [] => Ret w
  | b :: l => w ← put_bit w b; put_bits w l
  end.

(** [for i in 0..length as u32 { self.put_bit(bits.contains(&i)) }]. *)
Definition put_bit_set (w : BitFieldWriter) (bits : gset Z) (length : Z)
    : outcome E BitFieldWriter :=
  put_bits w (map (λ i, bool_decide (i ∈ bits)) (seqZ 0 (as_u32 length))).
End bitfield.

(** * Specification

    Bit [n] of a byte string, most significant bit first. *)
Definition bit_at (l : list byte) (n : nat) : option bool :=
  b ← l !! (n `div` 8)%nat;
  Some (Z.testbit (byte_val b) (7 - Z.of_nat (n mod 8))).

(** [l] holds exactly the bits [bits], padded with zeros to whole bytes. *)
Definition holds_bits (l : list byte) (bits : list bool) : Prop :=
  length l = ((length bits + 7) `div` 8)%nat ∧
  ∀ n, (n < 8 * length l)%nat → bit_at l n = Some (default false (bits !! n)).

(** * Single bits *)

Lemma land_pow2_testbit x k : 0 ≤ k →
  negb (Z.land (2 ^ k) x =? 0) = Z.testbit x k.
Proof.
  intros Hk. destruct (Z.testbit x k) eqn:Hx.
  - apply negb_true_iff, Z.eqb_neq. intros Hz.
    apply (f_equal (λ z, Z.testbit z k)) in Hz.
    by rewrite Z.land_spec, Z.pow2_bits_true, Hx, Z.bits_0 in Hz by done.
  - apply negb_false_iff, Z.eqb_eq. apply Z.bits_inj'. intros n Hn.
    rewrite Z.land_spec, Z.bits_0, Z.pow2_bits_eqb by done.
    destruct (Z.eqb_spec k n) as [<-|?]; [by rewrite Hx|done].
Qed.

Lemma shiftr_mask p : 0 ≤ p < 8 → Z.shiftr MASK p = 2 ^ (7 - p).
Proof.
  intros. unfold MASK. change 128 with (2 ^ 7).
  rewrite Z.shiftr_div_pow2, Z.pow_sub_r by lia. done.
Qed.

Lemma u32_mod8 n : as_u32 n mod 8 = n mod 8.
Proof.
  unfold wrap. apply Z.mod_mod_divide. by exists (2 ^ 29).
Qed.

Lemma get_bit_spec r n : 0 ≤ n → get_bit r n = bit_at (reader_bytes r) (Z.to_nat n).
Proof.
  intros Hn. unfold get_bit, bit_at, checked_shr.
  rewrite u32_mod8. pose proof (Z.mod_pos_bound n 8 ltac:(lia)).
  rewrite Z2Nat.inj_div by lia. change (Z.to_nat 8) with 8%nat.
  destruct (_ !! _) as [b|]; [|done]. cbn [mbind option_bind].
  rewrite (proj2 (Z.ltb_lt _ _)) by lia. rewrite shiftr_mask, land_pow2_testbit by lia.
  rewrite Nat2Z.inj_mod, Z2Nat.id by lia. change (Z.of_nat 8) with 8.
  by destruct (Z.testbit _ _).
Qed.

Lemma byte_lor_mask b p j : 0 ≤ p < 8 → 0 ≤ j < 8 →
  Z.testbit (byte_val (byte_of (Z.lor (byte_val b) (Z.shiftr MASK p)))) (7 - j) =
  (Z.testbit (byte_val b) (7 - j) || (p =? j)).
Proof.
  intros Hp Hj. rewrite shiftr_mask, byte_val_of by done.
  change 256 with (2 ^ 8). rewrite Z.mod_pow2_bits_low by lia.
  rewrite Z.lor_spec, Z.pow2_bits_eqb by lia. f_equal.
  destruct (Z.eqb_spec p j), (Z.eqb_spec (7 - p) (7 - j)); done || lia.
Qed.

Lemma bit_at_app_l l k n : (n < 8 * length l)%nat → bit_at (l ++ k) n = bit_at l n.
Proof.
  intros. unfold bit_at. rewrite lookup_app_l; [done|].
  apply Nat.Div0.div_lt_upper_bound; lia.
Qed.

Lemma bit_at_last l b n : (8 * length l ≤ n < 8 * length l + 8)%nat →
  bit_at (l ++ [b]) n = Some (Z.testbit (byte_val b) (7 - (Z.of_nat n - 8 * Z.of_nat (length l)))).
Proof.
  intros Hn. unfold bit_at. assert (n `div` 8 = length l)%nat as ->.
  { symmetry. apply (Nat.div_unique n 8 _ (n - 8 * length l)); lia. }
  assert (n mod 8 = n - 8 * length l)%nat as ->.
  { symmetry. apply (Nat.mod_unique n 8 (length l)); lia. }
  rewrite lookup_app_r, Nat.sub_diag by lia. cbn [lookup list_lookup mbind option_bind].
  do 2 f_equal. lia.
Qed.

(** * The writer *)

(** The bytes when a bit is about to be stored in the last one. *)
Definition open_byte (l : list byte) (last : byte) (bits : list bool) : Prop :=
  (8 * length l ≤ length bits < 8 * length l + 8)%nat ∧
  ∀ n, (n < 8 * length (l ++ [last]))%nat → bit_at (l ++ [last]) n = Some (default false (bits !! n)).

Lemma holds_push l bits : holds_bits l bits → (length bits mod 8 = 0)%nat →
  open_byte l x00 bits.
Proof.
  intros [Hl Hb] Hm. pose proof (Nat.div_mod_eq (length bits) 8) as Hd.
  assert (length l = length bits `div` 8)%nat as Hl'.
  { rewrite Hl. symmetry. apply (Nat.div_unique _ 8 _ 7); lia. }
  split; [lia|]. intros n Hn. rewrite length_app in Hn. cbn [length] in Hn.
  destruct (decide (n < 8 * length l)%nat) as [?|Hge].
  - rewrite bit_at_app_l by done. by apply Hb.
  - rewrite bit_at_last by lia. rewrite lookup_ge_None_2 by lia. f_equal.
    change (byte_val x00) with 0. apply Z.bits_0.
Qed.

Lemma holds_open l bits : holds_bits l bits → (length bits mod 8 ≠ 0)%nat →
  ∃ k last, l = k ++ [last] ∧ open_byte k last bits.
Proof.
  intros [Hl Hb] Hm. pose proof (Nat.div_mod_eq (length bits) 8) as Hd.
  assert (length l = S (length bits `div` 8))%nat as Hl'.
  { rewrite Hl. symmetry. apply (Nat.div_unique _ 8 _ (length bits mod 8 - 1));
      pose proof (Nat.mod_upper_bound (length bits) 8); lia. }
  destruct l as [|last k _] using rev_ind; [done|].
  exists k, last. split; [done|]. rewrite length_app in Hl'. cbn [length] in Hl'.
  pose proof (Nat.mod_upper_bound (length bits) 8). split; [lia|done].
Qed.

Lemma open_store k last bits (b : bool) : open_byte k last bits →
  let p := Z.of_nat (length bits) mod 8 in
  holds_bits (k ++ [if b then byte_of (Z.lor (byte_val last) (Z.shiftr MASK p)) else last])
    (bits ++ [b]).
Proof.
  intros [Hlen Hb]. cbv zeta.
  assert (Z.of_nat (length bits) mod 8 = Z.of_nat (length bits) - 8 * Z.of_nat (length k)) as ->.
  { symmetry. apply (Z.mod_unique_pos _ _ (Z.of_nat (length k))); lia. }
  split.
  { rewrite !length_app. cbn [length].
    apply (Nat.div_unique _ 8 _ (length bits - 8 * length k)); lia. }
  intros n Hn. rewrite length_app in Hn. cbn [length] in Hn.
  pose proof (Hb n ltac:(rewrite length_app; cbn [length]; lia)) as Hbn.
  destruct (decide (n < 8 * length k)%nat) as [?|Hge].
  - rewrite bit_at_app_l in * by done. rewrite Hbn, lookup_app_l by lia. done.
  - rewrite bit_at_last in * by lia. injection Hbn as Hbn. f_equal.
    destruct (decide (n = length bits)) as [->|Hne].
    + rewrite lookup_app_r, Nat.sub_diag by lia. cbn [lookup list_lookup from_option].
      rewrite lookup_ge_None_2 in Hbn by lia.
      destruct b; [|done]. rewrite byte_lor_mask by lia. apply orb_true_iff. right. lia.
    + assert (default false ((bits ++ [b]) !! n) = default false (bits !! n)) as ->.
      { destruct (decide (n < length bits)%nat); [by rewrite lookup_app_l|].
        rewrite !lookup_ge_None_2; [done|lia|rewrite length_app; cbn [length]; lia]. }
      rewrite <-Hbn. destruct b; [|done]. rewrite byte_lor_mask by lia.
      destruct (Z.eqb_spec (Z.of_nat (length bits) - 8 * Z.of_nat (length k))
        (Z.of_nat n - 8 * Z.of_nat (length k))); [lia|]. apply orb_false_r.
Qed.

Section writer.
Context `{BytesCrateOk} `{Profile} {E : Type}.

Lemma put_bit_holds w bits b :
  holds_bits (writer_bytes w) bits → bits_written w = zlen bits → zlen bits + 1 < 2 ^ 32 →
  ∃ w', put_bit (E := E) w b = Ret w' ∧ holds_bits (writer_bytes w') (bits ++ [b]) ∧
    bits_written w' = zlen bits + 1.
Proof.
  intros Hh Hw Hlen. unfold put_bit. rewrite Hw.
  assert (∃ k last, (if zlen bits mod 8 =? 0 then put_u8 (writer_bytes w) 0 else writer_bytes w)
    = k ++ [last] ∧ open_byte k last bits) as (k & last & -> & Hopen).
  { unfold zlen. destruct (Z.eqb_spec (Z.of_nat (length bits) mod 8) 0) as [Hz|Hz].
    - rewrite put_u8_spec. exists (writer_bytes w), x00. split; [done|].
      apply holds_push; [done|]. apply Nat2Z.inj. by rewrite Nat2Z.inj_mod.
    - apply holds_open; [done|]. intros Hm. apply Hz. apply (f_equal Z.of_nat) in Hm.
      by rewrite Nat2Z.inj_mod in Hm. }
  pose proof (open_store k last bits b Hopen) as Hst. cbv zeta in Hst. destruct Hopen as [Hk _].
  rewrite zlen_app, bind_arith by (unfold zlen in *; cbn [length]; lia).
  replace (Z.to_nat _) with (length k) by (unfold zlen; cbn [length]; lia).
  rewrite lookup_app_r, Nat.sub_diag by lia. cbn [lookup list_lookup].
  rewrite bind_arith by zlia. eexists. split; [reflexivity|].
  cbn [writer_bytes bits_written]. split; [|done]. destruct b; [|done].
  rewrite <-(Nat.add_0_r (length k)) at 1. by rewrite insert_app_r.
Qed.

Lemma put_bits_holds l : ∀ w bits,
  holds_bits (writer_bytes w) bits → bits_written w = zlen bits →
  zlen bits + zlen l < 2 ^ 32 →
  ∃ w', put_bits (E := E) w l = Ret w' ∧ holds_bits (writer_bytes w') (bits ++ l) ∧
    bits_written w' = zlen bits + zlen l.
Proof.
  induction l as [|b l IH]; intros w bits Hh Hw Hl; cbn [put_bits].
  - exists w. rewrite app_nil_r. split_and!; [done|done|]. rewrite Hw. change (zlen []) with 0. lia.
  - rewrite zlen_cons in Hl.
    destruct (put_bit_holds w bits b) as (w1 & -> & Hh1 & Hw1); [done|done|zlia|].
    rewrite bind_ret.
    destruct (IH w1 (bits ++ [b])) as (w2 & -> & Hh2 & Hw2);
      [done|by rewrite zlen_app|rewrite zlen_app; change (zlen [b]) with 1; lia|].
    exists w2. rewrite <-app_assoc in Hh2. split_and!; [done|done|].
    rewrite Hw2, zlen_app, !zlen_cons. change (@zlen bool []) with 0. lia.
Qed.
End writer.

(** * The iterator *)

Definition all_bits (l : list byte) : list bool :=
  map (λ n, default false (bit_at l n)) (seq 0 (8 * length l)).

Lemma bit_at_Some l n : (n < 8 * length l)%nat → ∃ b, bit_at l n = Some b.
Proof.
  intros Hn. unfold bit_at. destruct (lookup_lt_is_Some_2 l (n `div` 8)%nat) as [b ->]; [|by eexists].
  apply Nat.Div0.div_lt_upper_bound; lia.
Qed.

Lemma bit_at_None l n : (8 * length l ≤ n)%nat → bit_at l n = None.
Proof.
  intros Hn. unfold bit_at. rewrite lookup_ge_None_2; [done|].
  apply Nat.div_le_lower_bound; lia.
Qed.

Lemma holds_all_bits l bits : holds_bits l bits →
  all_bits l = bits ++ replicate (8 * length l - length bits) false.
Proof.
  intros [Hl Hb]. assert (length bits ≤ 8 * length l)%nat as Hle.
  { rewrite Hl. pose proof (Nat.div_mod_eq (length bits + 7) 8).
    pose proof (Nat.mod_upper_bound (length bits + 7) 8). lia. }
  unfold all_bits. apply list_eq. intros n. rewrite list_lookup_fmap.
  destruct (decide (n < 8 * length l)%nat) as [Hn|Hn].
  - rewrite lookup_seq_lt by done. cbn [fmap option_fmap option_map].
    rewrite Hb by (simpl; done). cbn [Nat.add from_option].
    destruct (decide (n < length bits)%nat) as [?|?].
    + rewrite lookup_app_l by done.
      by destruct (lookup_lt_is_Some_2 bits n) as [b ->].
    + rewrite lookup_app_r, lookup_replicate_2, lookup_ge_None_2 by lia. done.
  - rewrite lookup_seq_ge by lia. symmetry. apply lookup_ge_None_2.
    rewrite length_app, length_replicate. lia.
Qed.

Section iterator.
Context `{Profile} {E : Type}.

Lemma collect_spec r k : ∀ p fuel,
  (p + k = 8 * length (reader_bytes r))%nat → (k < fuel)%nat →
  8 * zlen (reader_bytes r) + 1 < 2 ^ 64 →
  collect (E := E) fuel (mkIter r (Z.of_nat p)) =
    Some (Ret (map (λ n, default false (bit_at (reader_bytes r) n)) (seq p k))).
Proof.
  induction k as [|k IH]; intros p fuel Hp Hf Hl; (destruct fuel as [|fuel]; [lia|]);
    cbn [collect]; unfold next; cbn [reader pos];
    rewrite get_bit_spec, Nat2Z.id by lia; rewrite bind_arith by (unfold zlen in *; lia).
  - by rewrite bit_at_None by lia.
  - destruct (bit_at_Some (reader_bytes r) p) as [b Hb]; [lia|]. rewrite Hb.
    replace (Z.of_nat p + 1) with (Z.of_nat (S p)) by lia.
    rewrite IH by lia. cbn [seq map]. by rewrite Hb.
Qed.

Lemma collect_all r : 8 * zlen (reader_bytes r) + 1 < 2 ^ 64 →
  collect (E := E) (S (8 * length (reader_bytes r))) (BitFieldReaderIter_from r) =
    Some (Ret (all_bits (reader_bytes r))).
Proof. intros. by apply (collect_spec r _ 0); [lia..|]. Qed.
End iterator.

(** * The piece list *)

Lemma pieces_present_snoc l b :
  pieces_present (l ++ [b]) = pieces_present l ++ (if b then [as_u32 (zlen l)] else []).
Proof.
  unfold pieces_present. rewrite imap_app, filter_app, map_app. f_equal.
  cbn. rewrite Nat.add_0_r. by destruct b.
Qed.

Lemma pieces_present_pad l k : pieces_present (l ++ replicate k false) = pieces_present l.
Proof.
  induction k as [|k IH]; [by rewrite app_nil_r|].
  replace (S k) with (k + 1)%nat by lia. rewrite replicate_add, app_assoc. cbn [replicate].
  by rewrite pieces_present_snoc, IH, app_nil_r.
Qed.

Lemma pieces_present_set (s : gset Z) n : Z.of_nat n ≤ 2 ^ 32 →
  pieces_present (map (λ i, bool_decide (i ∈ s)) (seqZ 0 (Z.of_nat n))) =
  filter (λ i, i ∈ s) (seqZ 0 (Z.of_nat n)).
Proof.
  induction n as [|n IH]; intros Hn; [done|].
  rewrite seqZ_S, map_app, filter_app. cbn [map]. rewrite pieces_present_snoc, IH by lia.
  unfold zlen. rewrite length_map, length_seqZ, Z2Nat.id, wrap_small by lia.
  cbn. case_bool_decide; by rewrite ?decide_True, ?decide_False by done.
Qed.

(** * Properties *)

Section bitfield_properties.
Context `{BytesCrateOk} `{Profile} {E : Type}.

Lemma put_bit_set_read (s : gset Z) n : 0 ≤ n < 2 ^ 32 →
  ∃ w bits, put_bit_set (E := E) (BitFieldWriter_new []) s n = Ret w ∧
    collect (E := E) (S (8 * length (BitFieldWriter_into w)))
      (BitFieldReaderIter_from (mkReader (BitFieldWriter_into w))) = Some (Ret bits) ∧
    pieces_present bits = filter (λ i, i ∈ s) (seqZ 0 n).
Proof.
  intros Hn. unfold put_bit_set. rewrite wrap_small by done.
  set (l := map _ _). destruct (put_bits_holds (E := E) l (BitFieldWriter_new []) [])
    as (w & Hw & Hh & _); [|done| |].
  { split; [done|]. intros k Hk. cbn in Hk. lia. }
  { unfold l, zlen. rewrite length_map, length_seqZ. cbn [length]. lia. }
  cbn [app] in Hh. pose proof (holds_all_bits _ _ Hh) as Hall. destruct Hh as [Hlen _].
  exists w, (all_bits (writer_bytes w)). split_and!; [done| |].
  - apply (collect_all (mkReader (writer_bytes w))). cbn [reader_bytes].
    unfold zlen. rewrite Hlen. unfold l. rewrite length_map, length_seqZ.
    pose proof (Nat.div_mod_eq (Z.to_nat n + 7) 8). lia.
  - rewrite Hall, pieces_present_pad. unfold l.
    rewrite <-(Z2Nat.id n) by lia. apply pieces_present_set. lia.
Qed.

(** Eight bits to a byte. *)
Lemma put_bit_set_length (s : gset Z) n w : 0 ≤ n < 2 ^ 32 →
  put_bit_set (E := E) (BitFieldWriter_new []) s n = Ret w → 8 * zlen (BitFieldWriter_into w) ≤ n + 7.
Proof.
  intros Hn. unfold put_bit_set. rewrite wrap_small by done.
  set (l := map _ _). destruct (put_bits_holds (E := E) l (BitFieldWriter_new []) [])
    as (w' & Hw & [Hlen _] & _); [|done| |].
  { split; [done|]. intros k Hk. cbn in Hk. lia. }
  { unfold l, zlen. rewrite length_map, length_seqZ. cbn [length]. lia. }
  rewrite Hw. intros [= <-]. unfold BitFieldWriter_into, zlen. rewrite Hlen. cbn [app]. unfold l.
  rewrite length_map, length_seqZ. pose proof (Nat.div_mod_eq (Z.to_nat n + 7) 8). lia.
Qed.

(** Writing fewer than 2^32 bits to an empty buffer
    succeeds and reading the bytes back yields these bits, then the zeros that
    pad the last byte; eight reads per byte and one more end the iteration. *)
Theorem bitfield_roundtrip l : zlen l < 2 ^ 32 →
  ∃ w, put_bits (E := E) (BitFieldWriter_new []) l = Ret w ∧
    length (BitFieldWriter_into w) = ((length l + 7) `div` 8)%nat ∧
    collect (E := E) (S (8 * length (BitFieldWriter_into w)))
      (BitFieldReaderIter_from (mkReader (BitFieldWriter_into w))) =
    Some (Ret (l ++ replicate (8 * length (BitFieldWriter_into w) - length l) false)).
Proof.
  intros Hl. destruct (put_bits_holds (E := E) l (BitFieldWriter_new []) [])
    as (w & Hw & Hh & _); [|done|done|].
  { split; [done|]. intros n Hn. cbn in Hn. lia. }
  cbn [app] in Hh. pose proof (holds_all_bits _ _ Hh) as Hall. destruct Hh as [Hlen _].
  exists w. split_and!; [done|done|]. unfold BitFieldWriter_into in *. rewrite <-Hall.
  apply (collect_all (mkReader (writer_bytes w))). cbn [reader_bytes].
  unfold zlen in *. rewrite Hlen.
  pose proof (Nat.div_mod_eq (length l + 7) 8). lia.
Qed.

(** C38. The bit field we send for a piece set [s] of a
    torrent with [n] pieces is understood by the receiving side as exactly the
    pieces of [s] below [n], in increasing order. *)
Theorem piece_set_roundtrip (s : gset Z) n : 0 ≤ n < 2 ^ 32 →
  ∃ w bits, put_bit_set (E := E) (BitFieldWriter_new []) s n = Ret w ∧
    collect (E := E) (S (8 * length (BitFieldWriter_into w)))
      (BitFieldReaderIter_from (mkReader (BitFieldWriter_into w))) = Some (Ret bits) ∧
    pieces_present bits = filter (λ i, i ∈ s) (seqZ 0 n).
Proof. apply put_bit_set_read. Qed.
End bitfield_properties.

(** * Concrete inputs *)

Module BitfieldExamples.
Import ListBytes DevProfile.

Definition test_bits : list bool :=
  [true; false; false; false; true; false; false; true;
   true; true; true; true; true; false; false; false].

(** [read_bits] of the source's tests. *)
Example read_bits :
  map (get_bit (mkReader [byte_of 137; byte_of 248])) (seqZ 0 17) =
    map Some test_bits ++ [None].
Proof. vm_compute. reflexivity. Qed.

Lemma bitfield_roundtrip_witness :
  ∃ w, put_bits (E := unit) (BitFieldWriter_new []) test_bits = Ret w ∧
    length (BitFieldWriter_into w) = 2%nat.
Proof.
  destruct (bitfield_roundtrip (E := unit) test_bits) as (w & Hw & Hl & _); [reflexivity|].
  exists w. split; [exact Hw|exact Hl].
Defined.

Lemma piece_set_roundtrip_witness :
  ∃ w bits, put_bit_set (E := unit) (BitFieldWriter_new []) {[1; 9; 40]} 10 = Ret w ∧
    collect (E := unit) (S (8 * length (BitFieldWriter_into w)))
      (BitFieldReaderIter_from (mkReader (BitFieldWriter_into w))) = Some (Ret bits) ∧
    pieces_present bits = [1; 9].
Proof. exact (piece_set_roundtrip (E := unit) {[1; 9; 40]} 10 ltac:(lia)). Defined.
End BitfieldExamples.
