(* ===== verification/Collections.v ===== *)
(** The standard collections of the stateful components. A [HashMap] is a
    [gmap], a [HashSet] a [gset], a [BTreeMap] a [gmap] read in the order of its
    keys, a [VecDeque] a list whose front is its head. The order in which a
    [HashSet] or [HashMap] is iterated is not specified: it is a parameter. *)
From S2P Require Import Prelude.
From Stdlib Require Import ZArith Lia.

(** * Iteration order of hash tables

    The first argument tells apart sets with the same elements: each has its own
    order. *)
Class HashOrder := hash_iter : ∀ {A : Type} `{Countable A}, Z → gset A → list A.

(** Every element once. *)
Class HashOrderOk (O : HashOrder) :=
  hash_iter_perm : ∀ A `{Countable A} tag (X : gset A), hash_iter tag X ≡ₚ elements X.

(** The order of stdpp's [elements], for the concrete inputs. *)
Module ElementsOrder.
#[export] Instance elements_order : HashOrder := λ A _ _ _ X, elements X.
#[export] Instance elements_order_ok : HashOrderOk elements_order.
Proof. intros A ?? tag X. reflexivity. Qed.
End ElementsOrder.

Section hash_order.
Context `{HashOrderOk} {A : Type} `{Countable A}.

Lemma elem_of_hash_iter tag (X : gset A) x : x ∈ hash_iter tag X ↔ x ∈ X.
Proof. by rewrite hash_iter_perm, elem_of_elements. Qed.

Lemma hash_iter_NoDup tag (X : gset A) : NoDup (hash_iter tag X).
Proof. rewrite hash_iter_perm. apply NoDup_elements. Qed.

Lemma head_hash_iter_None tag (X : gset A) : head (hash_iter tag X) = None ↔ X = ∅.
Proof.
  rewrite head_None. split.
  - intros He. apply leibniz_equiv. intros x. rewrite <-(elem_of_hash_iter tag), He. set_solver.
  - intros ->. apply Permutation_nil. by rewrite hash_iter_perm, elements_empty.
Qed.

Lemma head_hash_iter_Some tag (X : gset A) x : head (hash_iter tag X) = Some x → x ∈ X.
Proof. intros Hx. apply (elem_of_hash_iter tag). by apply head_Some_elem_of. Qed.
End hash_order.

(** * [BTreeMap] keyed by integers: iteration in ascending order *)
Definition key_le {A} (p q : Z * A) : Prop := p.1 ≤ q.1.

#[export] Instance key_le_dec {A} (p q : Z * A) : Decision (key_le p q) := Z_le_dec p.1 q.1.
#[export] Instance key_le_trans {A} : Transitive (@key_le A).
Proof. intros ???. unfold key_le. lia. Qed.
#[export] Instance key_le_total {A} : Total (@key_le A).
Proof. intros ??. unfold key_le. lia. Qed.

Definition btree_iter {A} (m : gmap Z A) : list (Z * A) := merge_sort key_le (map_to_list m).

Lemma btree_iter_perm {A} (m : gmap Z A) : btree_iter m ≡ₚ map_to_list m.
Proof. apply merge_sort_Permutation. Qed.

Lemma elem_of_btree_iter {A} (m : gmap Z A) k x : (k, x) ∈ btree_iter m ↔ m !! k = Some x.
Proof. by rewrite btree_iter_perm, elem_of_map_to_list. Qed.

Lemma btree_iter_sorted {A} (m : gmap Z A) : StronglySorted key_le (btree_iter m).
Proof. apply (StronglySorted_merge_sort key_le). Qed.

Lemma btree_iter_NoDup {A} (m : gmap Z A) : NoDup (btree_iter m).*1.
Proof. rewrite btree_iter_perm. apply NoDup_fst_map_to_list. Qed.

(** * Maps of maps *)

(** [m.values().map(|req| req.len()).sum()]. *)
Definition total_size {A} (m : gmap Z (gmap Z A)) : Z :=
  map_fold (λ _ r n, Z.of_nat (size r) + n) 0 m.

Definition visit {A} (m : gmap Z (gmap Z A)) (p b : Z) : option A := r ← m !! p; r !! b.

Section total_size.
Context {A : Type}.
Implicit Types (m : gmap Z (gmap Z A)) (r : gmap Z A).

Lemma total_size_empty : total_size (∅ : gmap Z (gmap Z A)) = 0.
Proof. apply map_fold_empty. Qed.

Lemma total_size_insert_fresh m p r : m !! p = None →
  total_size (<[p := r]> m) = Z.of_nat (size r) + total_size m.
Proof. intros Hp. unfold total_size. rewrite map_fold_insert_L; [done|lia|done]. Qed.

Lemma total_size_delete m p r : m !! p = Some r →
  total_size m = Z.of_nat (size r) + total_size (delete p m).
Proof.
  intros Hp. rewrite <-(insert_delete_id m p r Hp) at 1.
  rewrite total_size_insert_fresh by apply lookup_delete_eq. done.
Qed.

Lemma total_size_insert m p r :
  total_size (<[p := r]> m) + Z.of_nat (size (default ∅ (m !! p))) =
  Z.of_nat (size r) + total_size m.
Proof.
  destruct (m !! p) as [r0|] eqn:Hp; cbn [default].
  - rewrite <-insert_delete_eq, total_size_insert_fresh by apply lookup_delete_eq.
    rewrite (total_size_delete m p r0 Hp). unfold default, id. lia.
  - rewrite total_size_insert_fresh by done. unfold default. rewrite map_size_empty. lia.
Qed.

Lemma total_size_nonneg m : 0 ≤ total_size m.
Proof.
  induction m as [|p r m Hp IH] using map_ind; [by rewrite total_size_empty|].
  rewrite total_size_insert_fresh by done. lia.
Qed.

Lemma total_size_pos m : 0 < total_size m → ∃ p r b x, m !! p = Some r ∧ r !! b = Some x.
Proof.
  induction m as [|p r m Hp IH] using map_ind; [by rewrite total_size_empty|].
  rewrite total_size_insert_fresh by done. intros Hs. destruct (decide (r = ∅)) as [->|Hr].
  - destruct IH as (p' & r' & b & x & Hp' & Hb); [rewrite map_size_empty in Hs; lia|].
    exists p', r', b, x. split; [|done]. rewrite lookup_insert_ne; [done|]. congruence.
  - apply map_choose in Hr as (b & x & Hb). exists p, r, b, x. by rewrite lookup_insert_eq.
Qed.

Lemma total_size_delete_le m p : total_size (delete p m) ≤ total_size m.
Proof.
  destruct (m !! p) as [r|] eqn:Hp; [|by rewrite delete_id].
  rewrite (total_size_delete m p r Hp). lia.
Qed.
End total_size.

(** Insert and remove one entry of a map of maps. *)
Definition put {A} (p b : Z) (x : A) (m : gmap Z (gmap Z A)) : gmap Z (gmap Z A) :=
  <[p := <[b := x]> (default ∅ (m !! p))]> m.
Definition cut {A} (p b : Z) (m : gmap Z (gmap Z A)) : gmap Z (gmap Z A) :=
  alter (delete b) p m.

Section nested.
Context {A : Type}.
Implicit Types (m : gmap Z (gmap Z A)).

Lemma visit_put m p b x p' b' :
  visit (put p b x m) p' b' = if decide (p' = p ∧ b' = b) then Some x else visit m p' b'.
Proof.
  unfold visit, put. destruct (decide (p' = p)) as [->|Hp].
  - rewrite lookup_insert_eq. cbn. destruct (decide (b' = b)) as [->|Hb].
    + by rewrite lookup_insert_eq, decide_True.
    + rewrite lookup_insert_ne, decide_False by naive_solver.
      by destruct (m !! p).
  - by rewrite lookup_insert_ne, decide_False by naive_solver.
Qed.

Lemma visit_cut m p b p' b' :
  visit (cut p b m) p' b' = if decide (p' = p ∧ b' = b) then None else visit m p' b'.
Proof.
  unfold visit, cut. destruct (decide (p' = p)) as [->|Hp].
  - rewrite lookup_alter_eq. destruct (m !! p) as [r|] eqn:Hr; cbn; [|by case_decide].
    destruct (decide (b' = b)) as [->|Hb].
    + by rewrite lookup_delete_eq, decide_True.
    + by rewrite lookup_delete_ne, decide_False by naive_solver.
  - by rewrite lookup_alter_ne, decide_False by naive_solver.
Qed.

Lemma visit_delete m p p' b' :
  visit (delete p m) p' b' = if decide (p' = p) then None else visit m p' b'.
Proof.
  unfold visit. case_decide; subst; [by rewrite lookup_delete_eq|by rewrite lookup_delete_ne].
Qed.

Lemma visit_empty p b : visit (∅ : gmap Z (gmap Z A)) p b = None.
Proof. unfold visit. by rewrite lookup_empty. Qed.

Lemma visit_dom m p b x : visit m p b = Some x → p ∈ dom m.
Proof. unfold visit. intros (r & Hr & _)%bind_Some. by apply elem_of_dom_2 in Hr. Qed.

Lemma dom_put m p b x : dom (put p b x m) = {[p]} ∪ dom m.
Proof. apply dom_insert_L. Qed.

Lemma dom_cut m p b : dom (cut p b m) = dom m.
Proof. apply dom_alter_L. Qed.

Lemma put_absent m p b x : visit m p b = None → total_size (put p b x m) = 1 + total_size m.
Proof.
  unfold visit, put. intros Hv. set (r := default ∅ (m !! p)).
  assert (r !! b = None) as Hr.
  { subst r. destruct (m !! p); [done|apply lookup_empty]. }
  pose proof (total_size_insert m p (<[b := x]> r)) as Ht. fold r in Ht.
  rewrite map_size_insert_None in Ht by done. lia.
Qed.

Lemma cut_id m p b : visit m p b = None → cut p b m = m.
Proof.
  unfold visit, cut. intros Hv. apply map_eq. intros p'.
  destruct (decide (p' = p)) as [->|?]; [|by rewrite lookup_alter_ne].
  rewrite lookup_alter_eq. destruct (m !! p) as [r|]; [|done].
  cbn in *. by rewrite delete_id.
Qed.

Lemma cut_present m p b x : visit m p b = Some x → total_size (cut p b m) = total_size m - 1.
Proof.
  unfold visit, cut. intros (r & Hr & Hb)%bind_Some. rewrite (alter_alt_Some _ m p r Hr).
  pose proof (total_size_insert m p (delete b r)) as Ht. rewrite Hr in Ht.
  cbn [default] in Ht. unfold id in Ht. rewrite map_size_delete_Some in Ht by done.
  assert (size r ≠ 0%nat) by (intros ?%map_size_empty_inv; subst; by rewrite lookup_empty in Hb).
  lia.
Qed.

Lemma cut_size_le m p b : total_size (cut p b m) ≤ total_size m.
Proof.
  destruct (visit m p b) as [x|] eqn:Hv; [|by rewrite cut_id].
  rewrite (cut_present m p b x Hv). lia.
Qed.
End nested.

Lemma filter_all {A} (P : A → Prop) `{∀ x, Decision (P x)} (l : list A) :
  Forall P l → filter P l = l.
Proof. induction 1; [done|]. rewrite filter_cons_True by done. by f_equal. Qed.

(** Ranges with a step, [(0..n).step_by(step)]. *)
Definition step_by (n step : Z) : list Z :=
  map (λ i, i * step) (seqZ 0 ((n + step - 1) / step)).

Lemma elem_of_step_by n step x : 0 < step →
  x ∈ step_by n step ↔ ∃ i, x = i * step ∧ 0 ≤ x < n.
Proof.
  intros Hs. unfold step_by. rewrite list_elem_of_fmap.
  pose proof (Z.div_mod (n + step - 1) step ltac:(lia)) as Hd.
  pose proof (Z.mod_pos_bound (n + step - 1) step Hs) as Hm.
  set (k := (n + step - 1) / step) in *.
  setoid_rewrite elem_of_seqZ. split.
  - intros (i & -> & Hi). exists i. nia.
  - intros (i & -> & Hi). exists i. nia.
Qed.

Lemma step_by_NoDup n step : 0 < step → NoDup (step_by n step).
Proof.
  intros Hs. unfold step_by. apply NoDup_fmap_2_strong; [|apply NoDup_seqZ].
  intros x y _ _ Hxy. nia.
Qed.
