(* ===== verification/Allocation.v ===== *)
(** Piece geometry: [TorrentAllocation] of [src/src/peer/mod.rs]. *)
From S2P Require Import Prelude ByteStr Model.
From Stdlib Require Import ZArith Lia.

Definition PIECE_BLOCK_SIZE : Z := 16384.

Record TorrentAllocation := mkAllocation {
  total_pieces : Z;
  max_piece_size : Z;
  last_piece_size : Z;
}.

Section allocation.
Context `{Profile} {E : Type}.

Definition allocate_torrent (torrent : V1Torrent) : outcome E TorrentAllocation :=
  let total_pieces := zlen (pieces (info torrent)) in
  let max_piece_size := as_usize (piece_length (info torrent)) in
  n ← arith 64 (total_pieces - 1);
  m ← arith 64 (n * max_piece_size);
  last_piece_size ← arith 64 (as_usize (torrent_length (info torrent)) - m);
  Ret (mkAllocation total_pieces max_piece_size last_piece_size).

Definition piece_len (a : TorrentAllocation) (piece_idx : Z) : outcome E Z :=
  n ← arith 64 (total_pieces a - 1);
  if piece_idx =? n then Ret (last_piece_size a) else Ret (max_piece_size a).
End allocation.

(** A torrent whose pieces partition its length, all but the last of the same
    size, small enough for the [u32] piece offsets of the protocol. *)
Definition wf_torrent (t : V1Torrent) : Prop :=
  let n := zlen (pieces (info t)) in
  let pl := piece_length (info t) in
  0 < n < 2 ^ 32 ∧ 0 < pl < 2 ^ 32 ∧ (n - 1) * pl < torrent_length (info t) ≤ n * pl ∧
  n * pl < 2 ^ 63.

(** The size of a piece, as the metainfo format defines it. *)
Definition piece_size (t : V1Torrent) (i : Z) : Z :=
  let pl := piece_length (info t) in
  Z.min pl (torrent_length (info t) - i * pl).

Lemma wf_allocation `{Profile} {E} t : wf_torrent t →
  allocate_torrent (E := E) t = Ret (mkAllocation (zlen (pieces (info t)))
    (piece_length (info t)) (piece_size t (zlen (pieces (info t)) - 1))).
Proof.
  intros (Hn & Hpl & Hlen & Hmax). unfold allocate_torrent, piece_size.
  rewrite bind_arith by lia.
  assert (0 ≤ (zlen (pieces (info t)) - 1) * piece_length (info t)) by nia.
  assert (piece_length (info t) < 2 ^ 64) by lia.
  rewrite !wrap_small by lia. rewrite bind_arith by nia. rewrite bind_arith by lia.
  rewrite Z.min_r by lia. done.
Qed.

Lemma wf_piece_len `{Profile} {E} t a i : wf_torrent t →
  allocate_torrent (E := E) t = Ret a → 0 ≤ i < zlen (pieces (info t)) →
  piece_len (E := E) a i = Ret (piece_size t i).
Proof.
  intros Hwf Ha Hi. rewrite wf_allocation in Ha by done. injection Ha as <-.
  destruct Hwf as (Hn & Hpl & Hlen & Hmax). unfold piece_len. cbn [total_pieces].
  rewrite bind_arith by lia. destruct (Z.eqb_spec i (zlen (pieces (info t)) - 1)) as [->|?]; [done|].
  cbn [max_piece_size]. unfold piece_size. rewrite Z.min_l by nia. done.
Qed.

Lemma piece_size_range t i : wf_torrent t → 0 ≤ i < zlen (pieces (info t)) →
  0 < piece_size t i ≤ piece_length (info t).
Proof. intros (Hn & Hpl & Hlen & Hmax) Hi. unfold piece_size. nia. Qed.

(** Where a piece starts in the torrent's data. *)
Definition piece_offset (t : V1Torrent) (i : Z) : Z := i * piece_length (info t).

(** C40. On a well-formed torrent the computation of
    the piece sizes neither overflows nor underflows, and the pieces it describes
    tile the torrent: each byte offset below its length lies in exactly one. *)
Theorem pieces_partition_torrent `{Profile} t : wf_torrent t →
  ∃ a, allocate_torrent (E := unit) t = Ret a ∧ total_pieces a = zlen (pieces (info t)) ∧
    ∀ x, 0 ≤ x < torrent_length (info t) → ∃ i, 0 ≤ i < total_pieces a ∧
      (∃ n, piece_len (E := unit) a i = Ret n ∧ piece_offset t i ≤ x < piece_offset t i + n) ∧
      ∀ j, 0 ≤ j < total_pieces a → ∃ n, piece_len (E := unit) a j = Ret n ∧
        (piece_offset t j ≤ x < piece_offset t j + n → j = i).
Proof.
  intros Hwf. pose proof (wf_allocation (E := unit) t Hwf) as Ha. eexists. split; [exact Ha|].
  split; [done|]. intros x Hx. cbn [total_pieces]. pose proof Hwf as (Hn & Hpl & Hlen & Hmax).
  pose proof (Z.div_mod x (piece_length (info t)) ltac:(lia)) as Hd.
  pose proof (Z.mod_pos_bound x (piece_length (info t)) ltac:(lia)) as Hm.
  set (i := x / piece_length (info t)) in *. assert (0 ≤ i < zlen (pieces (info t))) by nia.
  exists i. split; [done|]. unfold piece_offset. split.
  - exists (piece_size t i). split; [by apply wf_piece_len|]. unfold piece_size. nia.
  - intros j Hj. exists (piece_size t j). split; [by apply wf_piece_len|]. unfold piece_size. intros. nia.
Qed.

(** C39. With overflow checks, the computation of the geometry of a
    torrent panics exactly when it has no pieces, when the pieces before the last do not fit
    a machine word, or when they are longer than the torrent; it never returns an error. *)
Theorem allocate_panics_iff `{Profile} t : overflow_checks = true →
  let before_last := (zlen (pieces (info t)) - 1) * as_usize (piece_length (info t)) in
  (∀ e, allocate_torrent (E := unit) t ≠ Err e) ∧
  (zlen (pieces (info t)) < 2 ^ 64 →
   allocate_torrent (E := unit) t = Panic ↔
     pieces (info t) = [] ∨ 2 ^ 64 ≤ before_last ∨ as_usize (torrent_length (info t)) < before_last).
Proof.
  intros Hc before_last. unfold allocate_torrent.
  set (n := zlen _). set (l := as_usize (torrent_length _)).
  pose proof (wrap_range 64 (torrent_length (info t)) ltac:(lia)) as Hl. fold l in Hl.
  pose proof (wrap_range 64 (piece_length (info t)) ltac:(lia)) as Hp.
  pose proof (zlen_nonneg (pieces (info t))) as Hn. fold n in Hn.
  split.
  - intros e. rewrite !bind_arith_cases by done. by repeat case_decide.
  - intros Hmax. assert (pieces (info t) = [] ↔ n = 0) as ->.
    { subst n. unfold zlen. rewrite <-length_zero_iff_nil. lia. }
    rewrite !bind_arith_cases by done. fold before_last. subst before_last. repeat case_decide; nia || naive_solver nia.
Qed.

(** A torrent of two pieces, the second one shorter. *)
Definition short_last : V1Torrent :=
  mkTorrent (mkInfo 15 10 [mkPiece (replicate 20 x01); mkPiece (replicate 20 x02)]
    [] (replicate 20 x03)) [] [].

Lemma short_last_wf : wf_torrent short_last.
Proof. vm_compute. split_and!; congruence. Qed.

Module AllocationExamples.
Import DevProfile.

Lemma pieces_partition_torrent_witness : ∃ a, allocate_torrent (E := unit) short_last = Ret a ∧
  ∃ i, 0 ≤ i < total_pieces a ∧
    ∃ n, piece_len (E := unit) a i = Ret n ∧ i * 10 ≤ 12 < i * 10 + n.
Proof.
  destruct (pieces_partition_torrent short_last short_last_wf) as (a & Ha & _ & Hall).
  exists a. split; [exact Ha|]. destruct (Hall 12) as (i & Hi & (n & Hn & Hx) & _).
  - vm_compute. split; congruence.
  - exists i. split; [exact Hi|]. exists n. split; [exact Hn|exact Hx].
Defined.

(** No pieces at all: [total_pieces - 1] underflows. *)
Definition no_pieces : V1Torrent := mkTorrent (mkInfo 0 16384 [] [] []) [] [].

Lemma allocate_panics_iff_witness : allocate_torrent (E := unit) no_pieces = Panic.
Proof.
  apply (proj2 (allocate_panics_iff no_pieces eq_refl)); [vm_compute; reflexivity|].
  left. reflexivity.
Defined.

(** The release profile goes on with a last piece of a wrapped-around length. *)
Example no_pieces_released :
  allocate_torrent (H := ReleaseProfile.release) (E := unit) no_pieces =
    Ret (mkAllocation 0 16384 16384).
Proof. vm_compute. reflexivity. Qed.
End AllocationExamples.
