(* ===== verification/Slices.v ===== *)
(** [Slices] of [src/src/peer/io/mod.rs]: which byte ranges of a piece have
    arrived, and when the piece is complete.

    A slice [(a, b)] stands for the bytes [a, ..., b - 1]. *)
From S2P Require Import Prelude.
From Stdlib Require Import ZArith Lia.

Record Slices := mkSlices { slices : list (Z * Z); expected_size : Z }.

Definition Slices_new (expected_size : Z) : Slices := mkSlices [] expected_size.

(** [binary_search_by_key] on a list sorted by its keys: [inl] the position of
    the key, or [inr] the position where it would be inserted. *)
Fixpoint search (k : Z) (l : list (Z * Z)) : nat + nat :=
  match l with
  | [] => inr O
  | (a, _) :: l =>
      if a =? k then inl O
      else if k <? a then inr O
      else match search k l with inl p => inl (S p) | inr p => inr (S p) end
  end.

(** [Vec::insert] and [Vec::remove]. *)
Definition vec_insert {A} (i : nat) (x : A) (l : list A) : list A := take i l ++ x :: drop i l.
Definition vec_remove {A} (i : nat) (l : list A) : list A := take i l ++ drop (S i) l.

Definition is_complete (s : Slices) : bool :=
  match slices s with
  | [(a, b)] => (a =? 0) && (b =? as_u32 (expected_size s))
  | _ => false
  end.

(** The body of [insert] on the vector, once [end_pos] is computed. *)
Definition insert_slices (l : list (Z * Z)) (begin end_pos : Z) : list (Z * Z) :=
  match search begin l with
  | inl existing_pos =>
      match l !! existing_pos with
      | Some curr =>
          let new_end := Z.max curr.2 end_pos in
          <[existing_pos := (curr.1, new_end)]> l
      | None => l
      end
  | inr missing =>
      let '(l, start, end_, was_combined_right) :=
        match l !! missing with
        | Some look_right =>
            if look_right.1 =? end_pos
            then (<[missing := (begin, look_right.2)]> l, begin, look_right.2, true)
            else (l, begin, end_pos, false)
        | None => (l, begin, end_pos, false)
        end in
      let '(l, was_combined_left) :=
        match missing with
        | O => (l, false)
        | S prev =>
            match l !! prev with
            | Some look_left =>
                if look_left.2 >=? start
                then (<[prev := (look_left.1, end_)]> l, true)
                else (l, false)
            | None => (l, false)
            end
        end in
      if negb was_combined_left && negb was_combined_right
      then vec_insert missing (start, end_) l
      else if was_combined_left && was_combined_right
      then vec_remove missing l
      else l
  end.

Definition Slices_insert `{Profile} {E} (s : Slices) (begin len : Z)
    : outcome E (bool * Slices) :=
  end_pos ← arith 32 (begin + len);
  let s := mkSlices (insert_slices (slices s) begin end_pos) (expected_size s) in
  Ret (is_complete s, s).

(** * Specification *)

(** The bytes a list of slices stands for. *)
Definition covers (l : list (Z * Z)) (x : Z) : Prop := ∃ s, s ∈ l ∧ s.1 ≤ x < s.2.

(** Non-empty slices, in order, with a gap between any two, all after [lo]. *)
Fixpoint separated (lo : Z) (l : list (Z * Z)) : Prop :=
  match l with
  | [] => True
  | (a, b) :: l => lo < a ∧ a < b ∧ separated b l
  end.

Definition last_end (lo : Z) (l : list (Z * Z)) : Z := default lo (snd <$> last l).

(** The result of [insert], written as a splice between the slices [L] that
    start before it and the slices [R] that start after it. *)
Definition join_right (b e : Z) (R : list (Z * Z)) : Z * list (Z * Z) :=
  match R with
  | (r1, r2) :: R' => if r1 =? e then (r2, R') else (e, R)
  | [] => (e, [])
  end.

Definition splice (L : list (Z * Z)) (b e : Z) (R : list (Z * Z)) : list (Z * Z) :=
  let '(e', R') := join_right b e R in
  match last L with
  | Some lf => if lf.2 >=? b then removelast L ++ (lf.1, e') :: R' else L ++ (b, e') :: R'
  | None => (b, e') :: R'
  end.

(** * The search *)

Lemma search_inl k l p : search k l = inl p →
  ∃ L b R, l = L ++ (k, b) :: R ∧ length L = p.
Proof.
  revert p. induction l as [|[a b] l IH]; intros p; cbn [search]; [done|].
  destruct (Z.eqb_spec a k) as [->|]; [intros [= <-]; by exists [], b, l|].
  destruct (k <? a); [done|].
  destruct (search k l) as [q|q] eqn:Hq; [|done]. intros [= <-].
  destruct (IH q eq_refl) as (L & b' & R & -> & <-). by exists ((a, b) :: L), b', R.
Qed.

Lemma search_inr k l m : search k l = inr m →
  ∃ L R, l = L ++ R ∧ length L = m ∧ Forall (λ s, s.1 < k) L ∧
    (∀ s R', R = s :: R' → k < s.1).
Proof.
  revert m. induction l as [|[a b] l IH]; intros m; cbn [search].
  { intros [= <-]. by exists [], []. }
  destruct (Z.eqb_spec a k) as [->|]; [done|].
  destruct (Z.ltb_spec k a).
  { intros [= <-]. exists [], ((a, b) :: l). split_and!; [done|done|constructor|]. by intros ? ? [= <- _]. }
  destruct (search k l) as [q|q] eqn:Hq; [done|]. intros [= <-].
  destruct (IH q eq_refl) as (L & R & -> & <- & HL & HR).
  exists ((a, b) :: L), R. split_and!; [done|done| |done]. constructor; [cbn; lia|done].
Qed.

(** * [insert] is a splice *)

Lemma lookup_right {A} (L R : list A) : (L ++ R) !! length L = head R.
Proof. rewrite lookup_app_r, Nat.sub_diag by done. by destruct R. Qed.

Lemma insert_slices_miss L b e R :
  search b (L ++ R) = inr (length L) → insert_slices (L ++ R) b e = splice L b e R.
Proof.
  intros Hs. unfold insert_slices, splice. rewrite Hs, lookup_right.
  destruct L as [|lf L0 _] using rev_ind.
  - cbn [app length last]. destruct R as [|[r1 r2] R]; [done|]. cbn [head fst snd join_right].
    by destruct (r1 =? e).
  - rewrite length_app, Nat.add_comm. cbn [length Nat.add]. rewrite last_snoc, removelast_last.
    assert (Hins : ∀ x y R, <[S (length L0) := x]> ((L0 ++ [lf]) ++ y :: R) = (L0 ++ [lf]) ++ x :: R).
    { intros x y R'. replace (S (length L0)) with (length (L0 ++ [lf]) + 0)%nat
        by (rewrite length_app; simpl; lia). by rewrite insert_app_r. }
    assert (Hleft : ∀ R, ((L0 ++ [lf]) ++ R) !! length L0 = Some lf).
    { intros R'. by rewrite <-app_assoc, lookup_right. }
    assert (Hlins : ∀ x R, <[length L0 := x]> ((L0 ++ [lf]) ++ R) = (L0 ++ [x]) ++ R).
    { intros x R'. rewrite <-!app_assoc. cbn [app].
      rewrite <-(Nat.add_0_r (length L0)) at 1. by rewrite insert_app_r. }
    assert (Htk : ∀ x (R : list (Z * Z)), take (S (length L0)) ((L0 ++ [x]) ++ R) = L0 ++ [x]).
    { intros x R'. apply take_app_length'. rewrite length_app. simpl. lia. }
    assert (Hdr : ∀ x y (R : list (Z * Z)),
      drop (S (S (length L0))) ((L0 ++ [x]) ++ y :: R) = R).
    { intros x y R'. rewrite (cons_middle y), app_assoc.
      apply drop_app_length'. rewrite !length_app. simpl. lia. }
    destruct R as [|[r1 r2] R]; cbn [head fst snd join_right].
    + rewrite Hleft. destruct (lf.2 >=? b); cbn [negb andb].
      * by rewrite Hlins, app_nil_r.
      * unfold vec_insert. rewrite Htk, drop_ge; [done|]. rewrite !length_app. simpl. lia.
    + destruct (r1 =? e); [rewrite Hins|]; rewrite Hleft; destruct (lf.2 >=? b);
        cbn [negb andb]; rewrite ?Hlins; unfold vec_insert, vec_remove; rewrite ?Htk.
      * by rewrite Hdr, <-app_assoc.
      * done.
      * by rewrite <-app_assoc.
      * f_equal. f_equal. apply drop_app_length'. rewrite length_app. simpl. lia.
Qed.

(** * Coverage *)

Lemma covers_nil x : covers [] x ↔ False.
Proof. split; [|done]. by intros (s & []%not_elem_of_nil & _). Qed.

Lemma covers_cons a b l x : covers ((a, b) :: l) x ↔ a ≤ x < b ∨ covers l x.
Proof.
  unfold covers. split.
  - intros (s & [->|Hs]%elem_of_cons & Hx); [by left|right; by exists s].
  - intros [Hx|(s & Hs & Hx)]; [exists (a, b)|exists s]; split; set_solver.
Qed.

Lemma covers_app l k x : covers (l ++ k) x ↔ covers l x ∨ covers k x.
Proof.
  induction l as [|[a b] l IH]; cbn [app].
  - rewrite covers_nil. tauto.
  - rewrite !covers_cons, IH. tauto.
Qed.

Lemma last_snoc_inv {A} (l : list A) y : last l = Some y → l = removelast l ++ [y].
Proof.
  destruct l as [|z l _] using rev_ind; [done|].
  rewrite last_snoc, removelast_last. by intros [= ->].
Qed.

Lemma join_right_sound b e R e' R' x : join_right b e R = (e', R') →
  b ≤ x < e' ∨ covers R' x → b ≤ x < e ∨ covers R x.
Proof.
  destruct R as [|[r1 r2] R]; cbn [join_right]; [by intros [= <- <-]|].
  destruct (Z.eqb_spec r1 e) as [->|]; [|by intros [= <- <-]].
  intros [= <- <-]. rewrite covers_cons. intros [?|?]; [|tauto]. lia.
Qed.

Lemma splice_sound L b e R x :
  covers (splice L b e R) x → covers (L ++ R) x ∨ b ≤ x < e.
Proof.
  unfold splice. destruct (join_right b e R) as [e' R'] eqn:Hj.
  pose proof (join_right_sound b e R e' R' x Hj) as Hs. rewrite covers_app.
  destruct (last L) as [lf|] eqn:Hlast; [case_match eqn:Hge|].
  - rewrite (last_snoc_inv L lf Hlast) at 2. destruct lf as [la lb]. cbn [fst snd] in *.
    rewrite !covers_app, !covers_cons, covers_nil. intros [?|[?|?]]; [tauto| |tauto].
    destruct (decide (x < lb)); [left; left; right; left; lia|].
    destruct Hs; [left; lia|tauto|tauto].
  - rewrite covers_app, covers_cons. tauto.
  - rewrite covers_cons. tauto.
Qed.

Lemma insert_slices_sound l b e x :
  covers (insert_slices l b e) x → covers l x ∨ b ≤ x < e.
Proof.
  destruct (search b l) as [p|m] eqn:Hs.
  - unfold insert_slices. rewrite Hs.
    apply search_inl in Hs as (L & c & R & -> & <-). rewrite lookup_right. cbn [head fst snd].
    rewrite <-(Nat.add_0_r (length L)), insert_app_r. cbn [insert list_insert].
    rewrite !covers_app, !covers_cons. intros [?|[?|?]]; [tauto| |tauto]. lia.
  - pose proof Hs as Hs'. apply search_inr in Hs' as (L & R & -> & <- & _).
    rewrite insert_slices_miss by done. apply splice_sound.
Qed.

(** * Inserting a slice that overlaps nothing *)

Lemma separated_app lo L R : separated lo (L ++ R) ↔ separated lo L ∧ separated (last_end lo L) R.
Proof.
  revert lo. induction L as [|[a b] L IH]; intros lo; [cbn; tauto|].
  cbn [app separated]. rewrite IH.
  assert (last_end lo ((a, b) :: L) = last_end b L) as ->; [|tauto].
  unfold last_end. rewrite last_cons. by destruct (last L).
Qed.

Lemma last_end_snoc lo L s : last_end lo (L ++ [s]) = s.2.
Proof. unfold last_end. by rewrite last_snoc. Qed.

Lemma separated_lt lo l s : separated lo l → s ∈ l → lo < s.1 < s.2.
Proof.
  revert lo. induction l as [|[a b] l IH]; intros lo; [by intros ? ?%elem_of_nil|].
  cbn [separated]. intros (? & ? & Hl) [->|Hs]%elem_of_cons; [done|].
  specialize (IH _ Hl Hs). lia.
Qed.

Lemma separated_le lo l s : separated lo l → s ∈ l → s.2 ≤ last_end lo l.
Proof.
  destruct l as [|y l _] using rev_ind; [by intros ? ?%elem_of_nil|].
  intros Hl Hs. rewrite last_end_snoc. apply separated_app in Hl as [Hl Hy].
  apply elem_of_app in Hs as [Hs|Hs]; [|set_solver].
  revert lo Hl Hy. induction l as [|[a b] l IH]; intros lo Hl Hy; [set_solver|].
  assert (last_end lo ((a, b) :: l) = last_end b l) as Hle.
  { unfold last_end. rewrite last_cons. by destruct (last l). }
  rewrite Hle in Hy. destruct Hl as (? & ? & Hl). destruct y as [y1 y2].
  apply elem_of_cons in Hs as [->|Hs]; [|by apply (IH Hs b)].
  cbn [snd separated] in *. destruct Hy as (? & ? & _).
  destruct l as [|z l _] using rev_ind; [cbn in *; lia|].
  rewrite last_end_snoc in *. pose proof (separated_lt b _ z Hl). set_solver by lia.
Qed.

Lemma separated_weaken lo lo' l : lo' ≤ lo → separated lo l → separated lo' l.
Proof. destruct l as [|[a b] l]; cbn [separated]; [done|]. intuition lia. Qed.

Lemma join_right_separated b e R e' R' :
  separated b R → (∀ x, b ≤ x < e → ¬ covers R x) → b < e → join_right b e R = (e', R') →
  b < e' ∧ separated e' R' ∧ ∀ x, b ≤ x < e' ∨ covers R' x ↔ b ≤ x < e ∨ covers R x.
Proof.
  intros HR Hd Hbe. destruct R as [|[r1 r2] R]; cbn [join_right]; [by intros [= <- <-]|].
  destruct HR as (? & ? & HR).
  assert (e ≤ r1).
  { destruct (decide (r1 < e)); [|lia]. exfalso. apply (Hd r1); [lia|].
    rewrite covers_cons. left. lia. }
  destruct (Z.eqb_spec r1 e) as [->|]; intros [= <- <-].
  - split_and!; [lia|done|]. intros x. rewrite covers_cons.
    split; [|intros [?|[?|?]]; [left; lia|left; lia|by right]].
    intros [?|?]; [|tauto]. lia.
  - split_and!; [lia| |done]. cbn [separated]. split_and!; [lia|lia|done].
Qed.

Lemma insert_exact lo l b e :
  separated lo l → lo < b < e → (∀ x, b ≤ x < e → ¬ covers l x) →
  separated lo (insert_slices l b e) ∧
  ∀ x, covers (insert_slices l b e) x ↔ covers l x ∨ b ≤ x < e.
Proof.
  intros Hsep Hb Hd. destruct (search b l) as [p|m] eqn:Hs.
  { apply search_inl in Hs as (L & c & R & -> & _). exfalso.
    pose proof (separated_lt lo _ (b, c) Hsep ltac:(set_solver)) as Hc. cbn in Hc.
    apply (Hd b); [lia|]. rewrite covers_app, covers_cons. right. left. lia. }
  pose proof Hs as Hs'. apply search_inr in Hs' as (L & R & -> & <- & HL & HR).
  rewrite insert_slices_miss by done. apply separated_app in Hsep as [HsL HsR].
  assert (HbR : separated b R).
  { destruct R as [|[r1 r2] R]; [done|]. specialize (HR _ _ eq_refl).
    cbn [separated fst] in *. intuition lia. }
  unfold splice. destruct (join_right b e R) as [e' R'] eqn:Hj.
  destruct (join_right_separated b e R e' R' HbR) as (He' & HR' & Hcov); [|lia|done|].
  { intros x Hx Hc. apply (Hd x Hx). rewrite covers_app. by right. }
  destruct (last L) as [[la lb]|] eqn:Hlast.
  - apply last_snoc_inv in Hlast. rewrite Hlast in HsL, HL, Hd |- *.
    rewrite removelast_last. cbn [fst snd].
    apply separated_app in HsL as [HsL (? & ? & _)].
    assert (lb ≤ b).
    { destruct (decide (b < lb)); [|lia]. exfalso. apply Forall_app in HL as [_ HL].
      apply Forall_cons in HL as [HL _]. cbn in HL. apply (Hd b); [lia|].
      rewrite !covers_app, covers_cons. left. right. left. lia. }
    destruct (Z.geb_spec lb b) as [?|?].
    + split; [apply separated_app; split; [done|cbn [separated]; split_and!; [lia|lia|done]]|].
      intros x. rewrite !covers_app, !covers_cons, covers_nil. specialize (Hcov x).
      assert (la ≤ x < e' ↔ la ≤ x < lb ∨ b ≤ x < e') by lia. tauto.
    + split; [apply separated_app; split; [apply separated_app; split; [done|cbn; lia]|]|].
      { rewrite last_end_snoc. cbn [separated snd]. split_and!; [lia|lia|done]. }
      intros x. rewrite !covers_app, !covers_cons, covers_nil. specialize (Hcov x). tauto.
  - apply last_None in Hlast as ->. split; [cbn [separated]; split_and!; [lia|lia|done]|].
    intros x. rewrite covers_cons, covers_app, covers_nil. specialize (Hcov x). tauto.
Qed.

(** * Completion *)

(** A separated list covers [[0, n)] exactly when it is the one slice [(0, n)]. *)
Lemma separated_full l n : separated (-1) l → 0 < n →
  (∀ x, covers l x ↔ 0 ≤ x < n) ↔ l = [(0, n)].
Proof.
  intros Hsep Hn. split; [|intros ->; intros x; rewrite covers_cons, covers_nil; tauto].
  intros Hc. destruct l as [|[a b] l]; [exfalso; apply (covers_nil 0), Hc; lia|].
  destruct Hsep as (? & ? & Hl).
  assert (Hmin : ∀ x, covers l x → b < x).
  { intros x (s & Hs & ?). pose proof (separated_lt _ _ _ Hl Hs). lia. }
  pose proof (proj1 (Hc a)) as Ha. rewrite covers_cons in Ha.
  assert (a = 0) as ->.
  { pose proof (proj2 (Hc 0) ltac:(lia)) as Hz. rewrite covers_cons in Hz.
    destruct Hz as [?|Hz]; [lia|]. apply Hmin in Hz. lia. }
  pose proof (proj1 (Hc (b - 1))) as Hb1. rewrite covers_cons in Hb1.
  assert (b ≤ n) by lia.
  assert (b = n) as ->.
  { destruct (decide (b < n)); [|lia]. pose proof (proj2 (Hc b) ltac:(lia)) as Hb.
    rewrite covers_cons in Hb. destruct Hb as [?|Hb]; [lia|]. apply Hmin in Hb. lia. }
  destruct l as [|[c d] l]; [done|exfalso]. destruct Hl as (? & ? & _).
  pose proof (proj1 (Hc c)) as Hcc. rewrite !covers_cons in Hcc. lia.
Qed.

Lemma is_complete_spec s : 0 ≤ expected_size s < 2 ^ 32 →
  is_complete s = true ↔ slices s = [(0, expected_size s)].
Proof.
  intros Hs. unfold is_complete. rewrite wrap_small by done.
  destruct (slices s) as [|[a b] [|]]; [done| |done].
  rewrite andb_true_iff, !Z.eqb_eq. split; [by intros [-> ->]|by intros [= -> ->]].
Qed.

(** The slices that a list of [(begin, len)] insertions asks for. *)
Definition asked (l : list (Z * Z)) (x : Z) : Prop := ∃ p, p ∈ l ∧ p.1 ≤ x < p.1 + p.2.

Lemma asked_app l k x : asked (l ++ k) x ↔ asked l x ∨ asked k x.
Proof. unfold asked. setoid_rewrite elem_of_app. naive_solver. Qed.

Lemma asked_snoc l b n x : asked (l ++ [(b, n)]) x ↔ asked l x ∨ b ≤ x < b + n.
Proof.
  rewrite asked_app. unfold asked at 2. setoid_rewrite list_elem_of_singleton.
  naive_solver.
Qed.

Section insert_all.
Context `{Profile} {E : Type}.

(** A run of insertions: what each one answered, and the slices at the end. *)
Fixpoint insert_all (s : Slices) (l : list (Z * Z)) : outcome E (list bool * Slices) :=
  match l with
  | [] => Ret ([], s)
  | (b, n) :: l =>
      '(r, s) ← Slices_insert s b n;
      '(rs, s) ← insert_all s l;
      Ret (r :: rs, s)
  end.

Lemma insert_all_app s l k :
  insert_all s (l ++ k) =
    ('(rs, s) ← insert_all s l; '(rs', s) ← insert_all s k; Ret (rs ++ rs', s)).
Proof.
  revert s. induction l as [|[b n] l IH]; intros s; cbn [insert_all app].
  - rewrite bind_ret. by destruct (insert_all s k) as [[] | |].
  - rewrite bind_assoc. destruct (Slices_insert s b n) as [[r s'] | |]; [|done..].
    rewrite !bind_ret, IH, bind_assoc. destruct (insert_all s' l) as [[rs s2] | |]; [|done..].
    rewrite !bind_ret. by destruct (insert_all s2 k) as [[] | |].
Qed.

Lemma insert_all_snoc_inv s l b n rs s' :
  insert_all s (l ++ [(b, n)]) = Ret (rs, s') →
  ∃ rs1 s1 r, insert_all s l = Ret (rs1, s1) ∧ Slices_insert (E := E) s1 b n = Ret (r, s') ∧
    rs = rs1 ++ [r].
Proof.
  rewrite insert_all_app. destruct (insert_all s l) as [[rs1 s1] | |]; [|done..].
  rewrite bind_ret. cbn [insert_all].
  destruct (Slices_insert s1 b n) as [[r s2] | |] eqn:Hr; [|done..].
  rewrite !bind_ret. intros [= <- <-]. by exists rs1, s1, r.
Qed.

Lemma Slices_insert_inv s b n r s' : Slices_insert (E := E) s b n = Ret (r, s') →
  ∃ e, arith (E := E) 32 (b + n) = Ret e ∧ r = is_complete s' ∧
    s' = mkSlices (insert_slices (slices s) b e) (expected_size s).
Proof.
  unfold Slices_insert. destruct (arith 32 (b + n)) as [e| |]; [|done..].
  rewrite bind_ret. intros [= <- <-]. by exists e.
Qed.

(** Whatever is inserted, the slices stand only for bytes that were inserted. *)
Lemma insert_all_sound s l rs s' : slices s = [] →
  Forall (λ p, 0 ≤ p.1 ∧ 0 ≤ p.2 ∧ p.1 + p.2 < 2 ^ 32) l →
  insert_all s l = Ret (rs, s') →
  expected_size s' = expected_size s ∧ ∀ x, covers (slices s') x → asked l x.
Proof.
  intros Hs. revert rs s'. induction l as [|[b n] l IH] using rev_ind; intros rs s' Hl.
  { cbn. intros [= <- <-]. split; [done|]. intros x. rewrite Hs. by rewrite covers_nil. }
  apply Forall_app in Hl as [Hl Hb]. apply Forall_cons in Hb as [(? & ? & ?) _]. cbn [fst snd] in *.
  intros (rs1 & s1 & r & Hi & Hins & ->)%insert_all_snoc_inv.
  destruct (IH _ _ Hl Hi) as [Hexp Hc].
  apply Slices_insert_inv in Hins as (e & He & _ & ->).
  rewrite arith_ok in He by lia. injection He as <-.
  cbn [slices expected_size]. split; [done|]. intros x Hx. rewrite asked_snoc.
  apply insert_slices_sound in Hx as [Hx|Hx]; [left; by apply Hc|by right].
Qed.
End insert_all.

(** No byte is in two of the insertions. *)
Definition disjoint_slices (l : list (Z * Z)) : Prop :=
  ∀ i j p q x, l !! i = Some p → l !! j = Some q →
    p.1 ≤ x < p.1 + p.2 → q.1 ≤ x < q.1 + q.2 → i = j.

Definition slices_in (n : Z) (l : list (Z * Z)) : Prop :=
  Forall (λ p, 0 ≤ p.1 ∧ 0 < p.2 ∧ p.1 + p.2 ≤ n) l.

Lemma disjoint_snoc l p : disjoint_slices (l ++ [p]) →
  disjoint_slices l ∧ ∀ x, p.1 ≤ x < p.1 + p.2 → ¬ asked l x.
Proof.
  intros Hd. split.
  - intros i j q r x Hi Hj. apply Hd; by apply lookup_app_l_Some.
  - intros x Hx (q & Hq & Hqx). apply list_elem_of_lookup in Hq as [i Hi].
    pose proof (lookup_lt_Some _ _ _ Hi).
    pose proof (Hd i (length l) q p x ltac:(by apply lookup_app_l_Some)
      ltac:(by rewrite lookup_right) Hqx Hx). lia.
Qed.

Section insert_disjoint.
Context `{Profile} {E : Type} (n : Z) (Hn : 0 < n < 2 ^ 32).

Lemma insert_all_exact l : slices_in n l → disjoint_slices l →
  ∃ rs s, insert_all (E := E) (Slices_new n) l = Ret (rs, s) ∧
    expected_size s = n ∧ separated (-1) (slices s) ∧
    (∀ x, covers (slices s) x ↔ asked l x) ∧
    ((∃ x, 0 ≤ x < n ∧ ¬ asked l x) → rs = replicate (length l) false).
Proof.
  induction l as [|[b k] l IH] using rev_ind; intros Hin Hd.
  { exists [], (Slices_new n). split_and!; [done..| |done].
    intros x. rewrite covers_nil. unfold asked. set_solver. }
  apply Forall_app in Hin as [Hin Hb]. apply Forall_cons in Hb as [(Hb & Hk & Hbk) _].
  cbn [fst snd] in *. apply disjoint_snoc in Hd as [Hd Hdb]. cbn [fst snd] in Hdb.
  destruct (IH Hin Hd) as (rs & s & Hi & Hexp & Hsep & Hcov & Hrs).
  destruct (insert_exact (-1) (slices s) b (b + k)) as [Hsep' Hcov']; [done|lia| |].
  { intros x Hx Hc. by apply (Hdb x Hx), Hcov. }
  set (s' := mkSlices (insert_slices (slices s) b (b + k)) (expected_size s)).
  exists (rs ++ [is_complete s']), s'. split_and!; [|done|done| |].
  - rewrite insert_all_app, Hi, bind_ret. cbn [insert_all]. unfold Slices_insert.
    rewrite bind_arith, !bind_ret by lia. done.
  - intros x. cbn [slices s']. rewrite asked_snoc, Hcov', Hcov. done.
  - intros (x & Hx & Hax). rewrite asked_snoc in Hax.
    rewrite Hrs by (exists x; tauto). rewrite length_app, replicate_add. f_equal. cbn [replicate length].
    destruct (is_complete s') eqn:Hc; [|done]. apply is_complete_spec in Hc; [|cbn; lia].
    cbn [slices expected_size s'] in Hc. exfalso. apply Hax.
    rewrite <-Hcov, <-Hcov', Hc, covers_cons. left. lia.
Qed.
End insert_disjoint.

(** * Order of the keys

    The starts stay strictly increasing whatever is inserted: this is the
    precondition of the binary search. *)
Fixpoint increasing (lo : Z) (l : list (Z * Z)) : Prop :=
  match l with [] => True | (a, _) :: l => lo < a ∧ increasing a l end.

Lemma increasing_app lo L R : increasing lo (L ++ R) ↔
  increasing lo L ∧ increasing (default lo (fst <$> last L)) R.
Proof.
  revert lo. induction L as [|[a b] L IH]; intros lo; [cbn; tauto|].
  cbn [app increasing]. rewrite IH, last_cons. destruct (last L); cbn; tauto.
Qed.

Lemma increasing_insert lo l b e : lo < b → increasing lo l → increasing lo (insert_slices l b e).
Proof.
  intros Hb Hl. destruct (search b l) as [p|m] eqn:Hs.
  { unfold insert_slices. rewrite Hs.
    apply search_inl in Hs as (L & c & R & -> & <-). rewrite lookup_right. cbn [head fst snd].
    rewrite <-(Nat.add_0_r (length L)), insert_app_r. cbn [insert list_insert].
    apply increasing_app. by apply increasing_app in Hl. }
  pose proof Hs as Hs'. apply search_inr in Hs' as (L & R & -> & <- & HL & HR).
  rewrite insert_slices_miss by done. apply increasing_app in Hl as [HiL HiR].
  unfold splice. destruct (join_right b e R) as [e' R'] eqn:Hj.
  assert (HR' : increasing b R').
  { destruct R as [|[r1 r2] R]; cbn [join_right] in Hj; [by simplify_eq|].
    specialize (HR _ _ eq_refl). cbn [fst increasing] in *.
    case_match; simplify_eq; [|cbn; tauto].
    destruct R' as [|[]]; cbn in *; [done|]. intuition lia. }
  destruct (last L) as [[la lb]|] eqn:Hlast.
  - apply last_snoc_inv in Hlast. rewrite Hlast in HiL, HL |- *. rewrite removelast_last.
    apply Forall_app in HL as [_ HL]. apply Forall_cons in HL as [HL _]. cbn [fst snd] in *.
    pose proof HiL as HiL'. apply increasing_app in HiL' as [HiL0 HiL1].
    cbn [increasing] in HiL1. case_match; apply increasing_app; (split; [done|]).
    + cbn [increasing]. split; [tauto|].
      destruct R' as [|[]]; cbn [increasing] in *; [done|]. intuition lia.
    + rewrite last_snoc. cbn. split; [lia|done].
  - apply last_None in Hlast as ->. cbn. split; [lia|done].
Qed.

(** Inserting into a single run: touching or inside it, the run is cut or grown
    to the end of the new slice; after it, a second run starts. *)
Lemma insert_one_run a c b e : a < b →
  insert_slices [(a, c)] b e = if c >=? b then [(a, e)] else [(a, c); (b, e)].
Proof.
  intros Hab. change [(a, c)] with ([(a, c)] ++ []).
  rewrite insert_slices_miss; [done|]. cbn [search app].
  destruct (Z.eqb_spec a b); [lia|]. destruct (Z.ltb_spec b a); [lia|done].
Qed.

Section tiling.
Context `{Profile} {E : Type}.

Lemma insert_all_tiling n l p :
  0 < n < 2 ^ 32 → slices_in n (l ++ [p]) → disjoint_slices (l ++ [p]) →
  (∀ x, 0 ≤ x < n → asked (l ++ [p]) x) →
  insert_all (E := E) (Slices_new n) (l ++ [p]) =
    Ret (replicate (length l) false ++ [true], mkSlices [(0, n)] n) ∧ is_complete (mkSlices [(0, n)] n) = true.
Proof.
  intros Hn Hin Hd Hall.
  assert (Hc : is_complete (mkSlices [(0, n)] n) = true)
    by (apply is_complete_spec; cbn; lia || done).
  split; [|done].
  destruct (insert_all_exact (E := E) n Hn (l ++ [p]) Hin Hd) as (rs & s & Hi & He & Hsep & Hcov & _).
  assert (Hs : s = mkSlices [(0, n)] n).
  { destruct s as [ss ?]. cbn in *. subst. f_equal. apply separated_full; [done|lia|].
    intros x. rewrite Hcov. split; [|apply Hall]. intros (q & Hq & Hx).
    pose proof (proj1 (Forall_forall _ _) Hin q Hq). cbn in *. lia. }
  rewrite Hi, Hs. f_equal. f_equal.
  apply Forall_app in Hin as [Hin Hp]. apply Forall_cons in Hp as [(? & ? & ?) _].
  apply disjoint_snoc in Hd as [Hd Hdp].
  destruct (insert_all_exact (E := E) n Hn l Hin Hd) as (rs1 & s1 & Hi1 & _ & _ & _ & Hrs1).
  rewrite insert_all_app, Hi1, bind_ret in Hi. destruct p as [b k]. cbn [fst snd insert_all] in *.
  unfold Slices_insert in Hi. rewrite bind_arith, !bind_ret in Hi by lia.
  injection Hi as <- Hs'. rewrite Hrs1 by (exists b; split; [lia|apply Hdp; lia]).
  by rewrite Hs', Hs, Hc.
Qed.
End tiling.

(** * Properties *)

Section slices_properties.
Context `{Profile} {E : Type}.

(** C21. For a piece of [n] bytes cut into non-empty
    slices that do not overlap and together cover it, arriving in any order,
    [insert] answers [false] until the last slice and [true] for that one. *)
Theorem slices_complete_on_last n l p :
  0 < n < 2 ^ 32 → slices_in n (l ++ [p]) → disjoint_slices (l ++ [p]) →
  (∀ x, 0 ≤ x < n → asked (l ++ [p]) x) →
  insert_all (E := E) (Slices_new n) (l ++ [p]) =
    Ret (replicate (length l) false ++ [true], mkSlices [(0, n)] n).
Proof. intros. by apply insert_all_tiling. Qed.

(** Completion is never reported early: in any
    sequence of insertions, overlapping or repeated, a [true] answer to the last
    one means that every byte of the piece has been inserted. *)
Theorem slices_complete_sound n l p rs s x :
  0 < n < 2 ^ 32 →
  Forall (λ p, 0 ≤ p.1 ∧ 0 ≤ p.2 ∧ p.1 + p.2 < 2 ^ 32) (l ++ [p]) →
  insert_all (E := E) (Slices_new n) (l ++ [p]) = Ret (rs ++ [true], s) →
  0 ≤ x < n → asked (l ++ [p]) x.
Proof.
  intros Hn Hl Hi Hx. destruct (insert_all_sound (E := E) (Slices_new n) _ _ _ eq_refl Hl Hi) as [He Hc].
  apply Hc. destruct p as [b k].
  apply insert_all_snoc_inv in Hi as (rs1 & s1 & r & _ & Hins & [_ [= <-]]%app_inj_2); [|done].
  apply Slices_insert_inv in Hins as (e & _ & Hr & _). symmetry in Hr.
  apply is_complete_spec in Hr; [|rewrite He; cbn; lia].
  rewrite Hr, covers_cons, He. by left.
Qed.

(** The slices stay sorted by their start, without
    repetition, whatever is inserted: the precondition of the binary search. *)
Theorem slices_keys_sorted s b n r s' :
  0 ≤ b → Slices_insert (E := E) s b n = Ret (r, s') →
  increasing (-1) (slices s) → increasing (-1) (slices s').
Proof.
  intros Hb (e & _ & _ & ->)%Slices_insert_inv Hs. cbn [slices].
  apply increasing_insert; [lia|done].
Qed.

(** A slice received again after it has been
    merged truncates the run that contains it. In a piece of four blocks of [B]
    bytes whose second block arrives twice, every byte arrives and no insertion
    ever reports completion; the third block is no longer recorded. *)
Theorem slices_duplicate_loses_bytes B :
  0 < B → 4 * B < 2 ^ 32 →
  let l := [(0, B); (B, B); (2 * B, B); (B, B); (3 * B, B)] in
  (∀ x, 0 ≤ x < 4 * B → asked l x) ∧
  insert_all (E := E) (Slices_new (4 * B)) l =
    Ret ([false; false; false; false; false],
         mkSlices [(0, 2 * B); (3 * B, 4 * B)] (4 * B)).
Proof.
  intros HB HB4 l. split.
  { intros x Hx. unfold asked, l. destruct (decide (x < B)); [exists (0, B)|
      destruct (decide (x < 2 * B)); [exists (B, B)|destruct (decide (x < 3 * B));
      [exists (2 * B, B)|exists (3 * B, B)]]]; (split; [set_solver|cbn; lia]). }
  pose proof (wrap_small 32 (4 * B) ltac:(lia)) as Hw.
  assert (Hi : ∀ ls b n, 0 ≤ b + n < 2 ^ 32 →
    Slices_insert (E := E) (mkSlices ls (4 * B)) b n =
      Ret (is_complete (mkSlices (insert_slices ls b (b + n)) (4 * B)),
           mkSlices (insert_slices ls b (b + n)) (4 * B))).
  { intros ls b n Hbn. unfold Slices_insert. by rewrite bind_arith by done. }
  unfold l, Slices_new. cbn [insert_all].
  assert (insert_slices [] 0 (0 + B) = [(0, B)]) as H1 by done.
  assert (Hin : ∀ c b e, 0 < b ≤ c → insert_slices [(0, c)] b e = [(0, e)]).
  { intros c b e ?. rewrite insert_one_run by lia. by destruct (Z.geb_spec c b); [|lia]. }
  assert (Hout : ∀ c b e, 0 < b → c < b → insert_slices [(0, c)] b e = [(0, c); (b, e)]).
  { intros c b e ??. rewrite insert_one_run by lia. by destruct (Z.geb_spec c b); [lia|]. }
  do 5 (rewrite Hi, bind_ret by lia). rewrite !bind_ret, H1.
  rewrite !(Hin B), !(Hin (B + B)), !(Hin (2 * B + B)), !(Hout (B + B)) by lia.
  replace (B + B) with (2 * B) by lia. replace (2 * B + B) with (3 * B) by lia.
  replace (3 * B + B) with (4 * B) by lia.
  unfold is_complete. cbn [slices expected_size]. rewrite Hw.
  repeat match goal with |- context [?a =? ?b] => destruct (Z.eqb_spec a b); [lia|] end.
  done.
Qed.
End slices_properties.

(** * Concrete inputs *)

Module SlicesExamples.
Import DevProfile.

(** [slices_returns_full_double_gap_rev] of the source's tests. *)
Definition gaps : list (Z * Z) := [(15, 5); (5, 5); (0, 5)].

Lemma slices_complete_on_last_witness :
  insert_all (E := unit) (Slices_new 20) (gaps ++ [(10, 5)]) =
    Ret ([false; false; false; true], mkSlices [(0, 20)] 20).
Proof.
  apply (slices_complete_on_last 20 gaps (10, 5)).
  - lia.
  - repeat constructor; vm_compute; congruence.
  - intros i j p q x Hi Hj.
    destruct i as [|[|[|[|i]]]]; cbn in Hi; simplify_eq;
      (destruct j as [|[|[|[|j]]]]; cbn in Hj; simplify_eq; cbn; lia || done).
  - intros x Hx. destruct (decide (x < 5)); [exists (0, 5)|
      destruct (decide (x < 10)); [exists (5, 5)|destruct (decide (x < 15));
      [exists (10, 5)|exists (15, 5)]]]; (split; [set_solver|cbn; lia]).
Defined.

Lemma slices_complete_sound_witness : asked ([(0, 3); (2, 2)] ++ [(0, 5)]) 4.
Proof.
  apply (slices_complete_sound (E := unit) 5 [(0, 3); (2, 2)] (0, 5) [false; false]
    (mkSlices [(0, 5)] 5)).
  - lia.
  - repeat constructor; vm_compute; congruence.
  - vm_compute. reflexivity.
  - lia.
Defined.

Lemma slices_keys_sorted_witness : increasing (-1) [(0, 5); (8, 10)].
Proof.
  apply (slices_keys_sorted (E := unit) (mkSlices [(0, 5)] 20) 8 2 false
    (mkSlices [(0, 5); (8, 10)] 20)); [lia|reflexivity|cbn; lia].
Defined.

Lemma slices_duplicate_loses_bytes_witness :
  insert_all (E := unit) (Slices_new 65536)
    [(0, 16384); (16384, 16384); (32768, 16384); (16384, 16384); (49152, 16384)] =
    Ret ([false; false; false; false; false], mkSlices [(0, 32768); (49152, 65536)] 65536).
Proof. apply (slices_duplicate_loses_bytes (E := unit) 16384); reflexivity. Defined.
End SlicesExamples.
