(* ===== verification/Io.v ===== *)
(** The storage interface, [trait TorrentIO] of [src/src/peer/io/mod.rs], its
    in-memory implementation, and the task that serves it
    ([src/src/peer/io/state.rs]). The file implementation is in [FileIo.v]. *)
From S2P Require Import Prelude ByteStr BytesCrate Model Protocol Errors Allocation Slices.
From Stdlib Require Import ZArith Lia.

(** [trait TorrentIO]. *)
Class TorrentIO (S : Type) := {
  write_piece : Z → Z → list byte → action S AnyError bool;
  read_piece : Z → Z → Z → action S AnyError (list byte);
}.

(** [Memory] and [MemoryTorrentIO]. *)
Record Memory := mkMemory { memory : list byte; mem_slices : Slices }.

Definition Memory_from (memory : list byte) : Memory :=
  mkMemory memory (Slices_new (zlen memory)).

Record MemoryTorrentIO := mkMemoryIO { pieces_memory : list Memory }.

Section memory_io.
Context `{Profile}.

(** [vec![0; n]]. *)
Definition zeroed {E} (n : Z) : outcome E (list byte) :=
  n ← vec_zeroed n; Ret (replicate (Z.to_nat n) x00).

Definition MemoryTorrentIO_new (torrent : V1Torrent) : outcome AnyError MemoryTorrentIO :=
  allocation ← allocate_torrent torrent;
  full ← (if 1 <? total_pieces allocation then zeroed (max_piece_size allocation) else Ret []);
  last ← zeroed (last_piece_size allocation);
  Ret (mkMemoryIO
    (replicate (Z.to_nat (total_pieces allocation - 1)) (Memory_from full) ++ [Memory_from last])).

(** [for (idx, ele) in block.enumerate() { memory[idx + begin] = ele }]. *)
Fixpoint write_bytes {E} (memory : list byte) (piece_idx : Z) (block : list byte)
    : outcome E (list byte) :=
  match block with
  | [] => Ret memory
  | ele :: block =>
      if piece_idx <? zlen memory
      then write_bytes (<[Z.to_nat piece_idx := ele]> memory) (piece_idx + 1) block
      else Panic
  end.

(** The body of [write_piece] on the piece it addresses. *)
Definition Memory_write (index begin : Z) (block : list byte) (m : Memory)
    : outcome AnyError (bool * Memory) :=
  end_pos ← arith 64 (begin + zlen block);
  if end_pos >? zlen (memory m) then Err (AE_Peer (BadBounds index end_pos))
  else
    '(finished, slices) ← Slices_insert (mem_slices m) begin (as_u32 (zlen block));
    bytes ← write_bytes (memory m) begin block;
    Ret (finished, mkMemory bytes slices).

Definition Memory_write_piece (index begin : Z) (block : list byte)
    : action MemoryTorrentIO AnyError bool := λ io,
  match pieces_memory io !! Z.to_nat index with
  | Some m =>
      match Memory_write index begin block m with
      | Ret (finished, m) =>
          (Ret finished, mkMemoryIO (<[Z.to_nat index := m]> (pieces_memory io)))
      | Err e => (Err e, io)
      | Panic => (Panic, io)
      end
  | None => (Err (AE_Peer (BadPieceIdx index)), io)
  end.

(** [&memory[begin..end_offset]] panics out of bounds. *)
Definition slice_range {E} (l : list byte) (i j : Z) : outcome E (list byte) :=
  if (i <=? j) && (j <=? zlen l) then Ret (take (Z.to_nat (j - i)) (drop (Z.to_nat i) l))
  else Panic.

Definition Memory_read_piece (index begin length : Z)
    : action MemoryTorrentIO AnyError (list byte) := λ io,
  match pieces_memory io !! Z.to_nat index with
  | Some m => (end_offset ← arith 32 (begin + length); slice_range (memory m) begin end_offset, io)
  | None => (Err (AE_Peer (BadPieceIdx index)), io)
  end.

#[export] Instance memory_torrent_io : TorrentIO MemoryTorrentIO := {|
  write_piece := Memory_write_piece;
  read_piece := Memory_read_piece;
|}.
End memory_io.

(** ** A storage whose blocks fit into a frame

    [io_bounded] is kept by the operations, and the blocks read in such a state are
    short enough for a [Piece] message. *)
Class BoundedIO (S : Type) `{TorrentIO S} := {
  io_bounded : S → Prop;
  write_bounded i b block : preserves io_bounded (write_piece i b block);
  read_bounded i b k : preserves io_bounded (read_piece i b k);
  read_fits i b k io block io' : read_piece i b k io = (Ret block, io') → is_u32 b → is_u32 k →
    io_bounded io → zlen block + 9 < 2 ^ 32;
}.

Lemma write_bytes_length {E} block : ∀ mem b mem', write_bytes (E := E) mem b block = Ret mem' →
  zlen mem' = zlen mem.
Proof.
  induction block as [|e block IH]; intros mem b mem'; cbn [write_bytes]; [by intros [= <-]|].
  destruct (b <? zlen mem); [|done]. intros ->%IH. unfold zlen. by rewrite length_insert.
Qed.

#[export] Program Instance memory_bounded `{Profile} : BoundedIO MemoryTorrentIO := {|
  io_bounded io := Forall (λ m, zlen (memory m) + 9 < 2 ^ 32) (pieces_memory io);
|}.
Next Obligation.
  intros H i b block io r io' Hw Hio. cbn in Hw. unfold Memory_write_piece in Hw.
  destruct (pieces_memory io !! Z.to_nat i) as [m|] eqn:Hm; [|by injection Hw as _ <-].
  destruct (Memory_write i b block m) as [[fin m']| |] eqn:Hr; [|by injection Hw as _ <-..].
  injection Hw as _ <-. cbn. apply Forall_insert; [done|].
  unfold Memory_write in Hr. inv_bind. destruct (_ >? _); [done|]. inv_bind. cbn.
  match goal with Hb : write_bytes _ _ _ = Ret _ |- _ => apply write_bytes_length in Hb as -> end.
  by eapply Forall_lookup_1 in Hio.
Qed.
Next Obligation.
  intros H i b k io r io' Hr Hio. cbn in Hr. unfold Memory_read_piece in Hr.
  destruct (pieces_memory io !! Z.to_nat i); by injection Hr as _ <-.
Qed.
Next Obligation.
  intros H i b k io block io' Hr _ _ Hio. cbn in Hr, Hio. unfold Memory_read_piece in Hr.
  destruct (pieces_memory io !! Z.to_nat i) as [m|] eqn:Hm; [|done]. injection Hr as Hr _.
  eapply Forall_lookup_1 in Hio; [|exact Hm]. unfold slice_range in Hr. inv_bind.
  destruct (_ && _); [|done]. inv_bind.
  unfold zlen in *. rewrite length_take, length_drop. lia.
Qed.

(** * The I/O task

    [IoHandler] sends requests to a task that owns the storage and answers each
    on its own channel, in the order received. *)
Inductive IoMessage :=
  | IoRead (index begin length : Z)
  | IoWrite (index begin : Z) (block : list byte).

Inductive IoReply :=
  | ReadReply (res : outcome AnyError (list byte))
  | WriteReply (res : outcome AnyError bool).

Section io_task.
Context {S : Type} `{TorrentIO S}.

Definition io_handle (msg : IoMessage) (io : S) : IoReply * S :=
  match msg with
  | IoRead index begin length =>
      let '(res, io) := read_piece index begin length io in (ReadReply res, io)
  | IoWrite index begin block =>
      let '(res, io) := write_piece index begin block io in (WriteReply res, io)
  end.

Definition reply_panics (r : IoReply) : bool :=
  match r with ReadReply Panic | WriteReply Panic => true | _ => false end.

(** [io_handler_task] on the messages received until the channel closes: the
    replies sent, and the storage ([None] once the task has panicked: the
    requests left are never answered). *)
Fixpoint io_handler_task (rx : list IoMessage) (io : S) : list IoReply * option S :=
  match rx with
  | [] => ([], Some io)
  | msg :: rx =>
      let '(r, io) := io_handle msg io in
      if reply_panics r then ([], None)
      else let '(rs, io) := io_handler_task rx io in (r :: rs, io)
  end.

(** The client handle, [IoHandler]: the state is that of the task's storage, or
    [None] once the task is gone. A message sent to a task that is gone, and a
    callback dropped by a task that panics, are the same error. *)
Definition handler_exits : AnyError := AE_Peer (PeerError_other "file handler exits...").

Definition IoHandler_write (index begin : Z) (block : list byte) (task : option S)
    : (AnyError + bool) * option S :=
  match task with
  | None => (inl handler_exits, None)
  | Some io =>
      match io_handler_task [IoWrite index begin block] io with
      | ([WriteReply (Ret res)], task) => (inr res, task)
      | ([WriteReply (Err e)], task) => (inl e, task)
      | (_, task) => (inl handler_exits, task)
      end
  end.

Definition IoHandler_read (index begin length : Z) (task : option S)
    : (AnyError + list byte) * option S :=
  match task with
  | None => (inl handler_exits, None)
  | Some io =>
      match io_handler_task [IoRead index begin length] io with
      | ([ReadReply (Ret res)], task) => (inr res, task)
      | ([ReadReply (Err e)], task) => (inl e, task)
      | (_, task) => (inl handler_exits, task)
      end
  end.
End io_task.

(** * Specification of a download

    The [k] bytes of [data] from [b] on, as a block to write. *)
Definition sub (data : list byte) (b k : Z) : list byte :=
  take (Z.to_nat k) (drop (Z.to_nat b) data).

(** Writing blocks of [data] into piece [index], one call per block. *)
Fixpoint write_blocks {S} `{TorrentIO S} (index : Z) (data : list byte) (l : list (Z * Z))
    : action S AnyError (list bool) :=
  match l with
  | [] => act_ret []
  | (b, k) :: l =>
      act_bind (write_piece index b (sub data b k)) (λ r,
      act_bind (write_blocks index data l) (λ rs, act_ret (r :: rs)))
  end.

(** The buffer of a piece agrees with [data] wherever its slices say so. *)
Definition holds_data (data : list byte) (m : Memory) : Prop :=
  zlen (memory m) = zlen data ∧ expected_size (mem_slices m) = zlen data ∧
  ∀ i : nat, covers (slices (mem_slices m)) (Z.of_nat i) → memory m !! i = data !! i.

(** * Lemmas *)

Lemma zlen_sub data b k : 0 ≤ b → 0 ≤ k → b + k ≤ zlen data → zlen (sub data b k) = k.
Proof. intros. unfold sub, zlen in *. rewrite length_take, length_drop. lia. Qed.

Lemma lookup_sub data b k (i : nat) : 0 ≤ b → 0 ≤ k → b ≤ Z.of_nat i < b + k →
  sub data b k !! (i - Z.to_nat b)%nat = data !! i.
Proof.
  intros. unfold sub. rewrite lookup_take_lt, lookup_drop by lia. f_equal. lia.
Qed.

Lemma sub_all data : sub data 0 (zlen data) = data.
Proof. unfold sub, zlen. rewrite drop_0, firstn_all2; [done|lia]. Qed.

Lemma write_bytes_spec {E} block : ∀ mem b, 0 ≤ b → b + zlen block ≤ zlen mem →
  ∃ mem', write_bytes (E := E) mem b block = Ret mem' ∧ zlen mem' = zlen mem ∧
    ∀ i : nat, mem' !! i =
      if decide (b ≤ Z.of_nat i < b + zlen block) then block !! (i - Z.to_nat b)%nat
      else mem !! i.
Proof.
  induction block as [|e block IH]; intros mem b Hb Hlen; cbn [write_bytes].
  { exists mem. split_and!; [done|done|]. intros i. rewrite decide_False; [done|].
    change (@zlen byte []) with 0. lia. }
  rewrite zlen_cons in *. rewrite (proj2 (Z.ltb_lt _ _)) by zlia.
  assert (Hl : zlen (<[Z.to_nat b := e]> mem) = zlen mem) by (unfold zlen; by rewrite length_insert).
  destruct (IH (<[Z.to_nat b := e]> mem) (b + 1)) as (mem' & -> & Hm & Hi); [lia|lia|].
  exists mem'. split_and!; [done|lia|]. intros i. rewrite Hi. zlen_facts.
  destruct (decide (Z.of_nat i = b)) as [<-|Hne].
  - rewrite decide_False, decide_True by lia. rewrite Nat2Z.id, Nat.sub_diag.
    rewrite list_lookup_insert_eq by (unfold zlen in *; lia). done.
  - case_decide; [rewrite decide_True by lia|rewrite decide_False by lia].
    + replace (i - Z.to_nat b)%nat with (S (i - Z.to_nat (b + 1))) by lia. done.
    + rewrite list_lookup_insert_ne by lia. done.
Qed.

Section memory_facts.
Context `{Profile}.

Lemma Memory_write_data data index m b k :
  holds_data data m → 0 ≤ b → 0 ≤ k → b + k ≤ zlen data < 2 ^ 32 →
  ∃ r m', Memory_write index b (sub data b k) m = Ret (r, m') ∧ holds_data data m' ∧
    Slices_insert (E := AnyError) (mem_slices m) b k = Ret (r, mem_slices m').
Proof.
  intros (Hlen & Hexp & Hc) Hb Hk Hn. unfold Memory_write.
  rewrite zlen_sub, bind_arith by lia. rewrite Z.gtb_ltb, (proj2 (Z.ltb_ge _ _)) by lia.
  rewrite wrap_small by lia. unfold Slices_insert at 1 2. rewrite !bind_arith by lia.
  rewrite !bind_ret.
  destruct (write_bytes_spec (E := AnyError) (sub data b k) (memory m) b)
    as (mem' & -> & Hl & Hi); [done|rewrite zlen_sub; lia|].
  rewrite bind_ret. do 2 eexists. split_and!; [reflexivity| |reflexivity].
  split_and!; cbn [memory mem_slices expected_size slices]; [lia|done|].
  intros i Hi'. rewrite Hi, zlen_sub by lia. case_decide; [by apply lookup_sub|].
  apply insert_slices_sound in Hi' as [?|?]; [by apply Hc|lia].
Qed.

Lemma Memory_write_piece_at io index m b block :
  pieces_memory io !! Z.to_nat index = Some m →
  write_piece index b block io =
    match Memory_write index b block m with
    | Ret (r, m') => (Ret r, mkMemoryIO (<[Z.to_nat index := m']> (pieces_memory io)))
    | Err e => (Err e, io)
    | Panic => (Panic, io)
    end.
Proof. intros Hm. unfold write_piece, memory_torrent_io, Memory_write_piece. by rewrite Hm. Qed.

Lemma write_blocks_memory data index l : ∀ io m,
  pieces_memory io !! Z.to_nat index = Some m → holds_data data m →
  Forall (λ p, 0 ≤ p.1 ∧ 0 ≤ p.2 ∧ p.1 + p.2 ≤ zlen data) l → zlen data < 2 ^ 32 →
  ∃ rs io' m', write_blocks index data l io = (Ret rs, io') ∧
    pieces_memory io' !! Z.to_nat index = Some m' ∧ holds_data data m' ∧
    insert_all (E := AnyError) (mem_slices m) l = Ret (rs, mem_slices m').
Proof.
  induction l as [|[b k] l IH]; intros io m Hm Hh Hl Hn.
  { exists [], io, m. done. }
  apply Forall_cons in Hl as [(? & ? & ?) Hl]. cbn [fst snd] in *.
  destruct (Memory_write_data data index m b k) as (r & m1 & Hw & Hh1 & Hs1); [done|lia..|].
  cbn [write_blocks insert_all]. unfold act_bind at 1.
  rewrite (Memory_write_piece_at io index m) by done. rewrite Hw.
  destruct (IH (mkMemoryIO (<[Z.to_nat index := m1]> (pieces_memory io))) m1)
    as (rs & io' & m' & Hws & Hm' & Hh' & Hi); [|done|done|done|].
  { cbn. apply list_lookup_insert_eq. by eapply lookup_lt_Some. }
  unfold act_bind. rewrite Hws. exists (r :: rs), io', m'. split_and!; [done|done|done|].
  rewrite Hs1, bind_ret, Hi, bind_ret. done.
Qed.

(** A complete piece holds the data. *)
Lemma complete_holds data m : 0 < zlen data < 2 ^ 32 → holds_data data m →
  is_complete (mem_slices m) = true → memory m = data.
Proof.
  intros Hn (Hl & He & Hc) Hi. apply is_complete_spec in Hi; [|rewrite He; lia].
  apply list_eq. intros i. destruct (decide (Z.of_nat i < zlen data)) as [?|?].
  - apply Hc. rewrite Hi, He, covers_cons. left. lia.
  - rewrite !lookup_ge_None_2; [done|unfold zlen in *; lia..].
Qed.

Lemma read_whole io index m : zlen (memory m) < 2 ^ 32 →
  pieces_memory io !! Z.to_nat index = Some m →
  read_piece index 0 (zlen (memory m)) io = (Ret (memory m), io).
Proof.
  intros Hn Hm. unfold read_piece, memory_torrent_io, Memory_read_piece. rewrite Hm.
  rewrite bind_arith by zlia. unfold slice_range. cbn [Z.add].
  rewrite (proj2 (Z.leb_le _ _)), (proj2 (Z.leb_le _ _)) by zlia. cbn [andb].
  rewrite Z.sub_0_r. change (take _ _) with (sub (memory m) 0 (zlen (memory m))).
  by rewrite sub_all.
Qed.

(** The answer to a write tells whether the piece is complete. *)
Lemma Memory_write_finished index b block m r m' :
  Memory_write index b block m = Ret (r, m') → r = is_complete (mem_slices m').
Proof.
  unfold Memory_write. intros Hw. inv_bind. destruct (_ >? _); [done|]. inv_bind. cbn [mem_slices].
  match goal with Hs : Slices_insert _ _ _ = Ret _ |- _ => by apply Slices_insert_inv in Hs as (? & _ & ? & _) end.
Qed.

Lemma zeroed_ok {E B} n (f : list byte → outcome E B) :
  n < 2 ^ 63 → (zeroed n ≫= f) = f (replicate (Z.to_nat n) x00).
Proof. intros. unfold zeroed. by rewrite bind_assoc, bind_vec, bind_ret. Qed.

(** A fresh storage has, for each piece, a zeroed buffer of its size. *)
Lemma MemoryTorrentIO_new_ok t : wf_torrent t →
  ∃ io, MemoryTorrentIO_new t = Ret io ∧
    ∀ i, 0 ≤ i < zlen (pieces (info t)) → pieces_memory io !! Z.to_nat i =
      Some (Memory_from (replicate (Z.to_nat (piece_size t i)) x00)).
Proof.
  intros Hwf. unfold MemoryTorrentIO_new. rewrite wf_allocation, bind_ret by done.
  cbn [total_pieces max_piece_size last_piece_size].
  pose proof Hwf as (Hn & Hpl & Hlen & Hmax).
  pose proof (piece_size_range t (zlen (pieces (info t)) - 1) Hwf ltac:(lia)).
  destruct (Z.ltb_spec 1 (zlen (pieces (info t)))); rewrite ?bind_ret, !zeroed_ok by lia;
    (eexists; split; [reflexivity|]); intros i Hi; cbn [pieces_memory].
  - destruct (decide (i = zlen (pieces (info t)) - 1)) as [->|?].
    + rewrite lookup_app_r by (rewrite length_replicate; lia).
      by rewrite length_replicate, Nat.sub_diag.
    + rewrite lookup_app_l by (rewrite length_replicate; lia).
      rewrite lookup_replicate_2 by lia. unfold piece_size. rewrite Z.min_l by nia. done.
  - assert (i = zlen (pieces (info t)) - 1) as -> by lia.
    rewrite lookup_app_r by (rewrite length_replicate; lia).
    by rewrite length_replicate, Nat.sub_diag.
Qed.

Lemma MemoryTorrentIO_new_bounded t io : wf_torrent t → piece_length (info t) + 9 < 2 ^ 32 →
  MemoryTorrentIO_new t = Ret io → io_bounded io.
Proof.
  intros Hwf Hb. unfold MemoryTorrentIO_new. rewrite wf_allocation, bind_ret by done.
  cbn [total_pieces max_piece_size last_piece_size]. pose proof Hwf as (Hn & Hpl & Hlen & Hmax).
  pose proof (piece_size_range t (zlen (pieces (info t)) - 1) Hwf ltac:(lia)).
  assert (∀ n, 0 ≤ n ≤ piece_length (info t) →
    zlen (memory (Memory_from (replicate (Z.to_nat n) x00))) + 9 < 2 ^ 32) as Hz.
  { intros n ?. cbn [memory Memory_from]. unfold zlen. rewrite length_replicate. lia. }
  assert (∀ full, zlen (memory (Memory_from full)) + 9 < 2 ^ 32 → Forall (λ m, zlen (memory m) + 9 < 2 ^ 32)
    (replicate (Z.to_nat (zlen (pieces (info t)) - 1)) (Memory_from full) ++
     [Memory_from (replicate (Z.to_nat (piece_size t (zlen (pieces (info t)) - 1))) x00)])) as Hall.
  { intros full Hf. apply Forall_app. split; [by apply Forall_replicate|].
    repeat constructor. apply Hz. lia. }
  destruct (Z.ltb_spec 1 (zlen (pieces (info t)))); rewrite ?bind_ret, !zeroed_ok by lia;
    intros [= <-]; apply Hall; [apply Hz; lia|]. change (9 < 2 ^ 32). lia.
Qed.

Lemma fresh_holds data n : zlen data = n → holds_data data (Memory_from (replicate (Z.to_nat n) x00)).
Proof.
  intros <-. unfold holds_data, Memory_from. cbn [memory mem_slices expected_size slices].
  assert (Hl : zlen (replicate (Z.to_nat (zlen data)) x00) = zlen data).
  { unfold zlen at 1. rewrite length_replicate. zlia. }
  split_and!; [done|done|]. intros i Hc. by apply covers_nil in Hc.
Qed.
(** Writing a tiling of a piece of a fresh storage. *)
Lemma download_tiling t io i data l p :
  wf_torrent t → MemoryTorrentIO_new t = Ret io → 0 ≤ i < zlen (pieces (info t)) →
  zlen data = piece_size t i →
  slices_in (zlen data) (l ++ [p]) → disjoint_slices (l ++ [p]) →
  (∀ x, 0 ≤ x < zlen data → asked (l ++ [p]) x) →
  ∃ io', write_blocks i data (l ++ [p]) io = (Ret (replicate (length l) false ++ [true]), io') ∧
    read_piece i 0 (zlen data) io' = (Ret data, io').
Proof.
  intros Hwf Hio Hi Hd Hin Hdis Hall. pose proof (piece_size_range t i Hwf Hi) as Hps.
  pose proof Hwf as (_ & Hpl & _).
  destruct (MemoryTorrentIO_new_ok t Hwf) as (io0 & Hio0 & Hm). rewrite Hio in Hio0.
  injection Hio0 as <-. specialize (Hm i Hi). rewrite <-Hd in Hm.
  destruct (write_blocks_memory data i (l ++ [p]) io _ Hm (fresh_holds data _ eq_refl))
    as (rs & io' & m' & Hw & Hm' & Hh' & Hs).
  { eapply Forall_impl; [exact Hin|]. cbn. intros ?; lia. }
  { lia. }
  assert (Hnew : mem_slices (Memory_from (replicate (Z.to_nat (zlen data)) x00)) =
    Slices_new (zlen data)).
  { unfold Memory_from, Slices_new. cbn [mem_slices]. f_equal.
    unfold zlen at 1. rewrite length_replicate. zlia. }
  destruct (insert_all_tiling (E := AnyError) (zlen data) l p) as (Hfull & Hc);
    [lia|done|done|done|].
  rewrite Hnew, Hfull in Hs. injection Hs as <- Hs'.
  exists io'. split; [done|].
  rewrite <-(complete_holds data m'); [|lia|done|by rewrite <-Hs'].
  apply read_whole; [|done]. destruct Hh' as [-> _]. lia.
Qed.
End memory_facts.

(** ** A storage that does as the one in memory

    [shows io m]: the storage [io] holds what [m] holds in memory. It promises to take a
    block of an incomplete piece as the memory does, when the piece, if that completes it, is
    [data]; and to read a complete piece. *)
Class PieceStore (S : Type) `{TorrentIO S} `{Profile} (data : Z → list byte) := {
  shows : S → MemoryTorrentIO → Prop;
  shows_write io mem i b block m r m' : shows io mem → 0 ≤ i → is_u32 b → zlen block < 2 ^ 32 →
    pieces_memory mem !! Z.to_nat i = Some m → is_complete (mem_slices m) = false →
    Memory_write i b block m = Ret (r, m') → (r = true → memory m' = data i) →
    ∃ io', write_piece i b block io = (Ret r, io') ∧
      shows io' (mkMemoryIO (<[Z.to_nat i := m']> (pieces_memory mem)));
  shows_read io mem i m : shows io mem → 0 ≤ i → zlen (memory m) < 2 ^ 32 →
    pieces_memory mem !! Z.to_nat i = Some m → is_complete (mem_slices m) = true →
    ∃ io', read_piece i 0 (zlen (memory m)) io = (Ret (memory m), io');
}.

#[export] Program Instance memory_store {P : Profile} data :
    @PieceStore MemoryTorrentIO memory_torrent_io P data := {|
  shows := eq;
|}.
Next Obligation.
  cbn. intros ? data io ? i b block m r m' <- _ _ _ Hm _ Hw _.
  unfold Memory_write_piece. rewrite Hm, Hw. by eexists.
Qed.
Next Obligation.
  cbn. intros ? data io ? i m <- _ Hn Hm _. eexists. by apply read_whole.
Qed.

(** * Properties *)

Section io_properties.
Context `{Profile}.

(** In-memory storage of a fresh torrent: writing
    the blocks of a tiling of a piece, in any order, answers [false] for each but
    the last, [true] for the last, and the piece then reads back as the data the
    blocks were cut from. *)
Theorem memory_download_completes t io i data l p :
  wf_torrent t → MemoryTorrentIO_new t = Ret io → 0 ≤ i < zlen (pieces (info t)) →
  zlen data = piece_size t i →
  slices_in (zlen data) (l ++ [p]) → disjoint_slices (l ++ [p]) →
  (∀ x, 0 ≤ x < zlen data → asked (l ++ [p]) x) →
  ∃ io', write_blocks i data (l ++ [p]) io = (Ret (replicate (length l) false ++ [true]), io') ∧
    read_piece i 0 (zlen data) io' = (Ret data, io').
Proof. apply download_tiling. Qed.

(** Whatever blocks of some data are written to a
    piece, in any order, overlapping or repeated: once a write answers [true], the
    piece reads back as these data. *)
Theorem memory_complete_sound io i m data l p rs io' :
  pieces_memory io !! Z.to_nat i = Some m →
  mem_slices m = Slices_new (zlen data) → zlen (memory m) = zlen data →
  0 < zlen data < 2 ^ 32 →
  Forall (λ p, 0 ≤ p.1 ∧ 0 ≤ p.2 ∧ p.1 + p.2 ≤ zlen data) (l ++ [p]) →
  write_blocks i data (l ++ [p]) io = (Ret (rs ++ [true]), io') →
  read_piece i 0 (zlen data) io' = (Ret data, io').
Proof.
  intros Hm Hs Hlen Hn Hl Hw.
  destruct (write_blocks_memory data i (l ++ [p]) io m Hm) as (rs1 & io1 & m1 & Hw1 & Hm1 & Hh1 & Hi1);
    [|done|lia|].
  { split_and!; [done|by rewrite Hs|]. intros j Hj. rewrite Hs in Hj. by apply covers_nil in Hj. }
  rewrite Hw in Hw1. injection Hw1 as <- <-. destruct p as [b k].
  apply insert_all_snoc_inv in Hi1 as (rs2 & s2 & r & _ & Hins & [_ [= <-]]%app_inj_2); [|done].
  apply Slices_insert_inv in Hins as (e & _ & Hr & _). symmetry in Hr.
  rewrite <-(complete_holds data m1) by done.
  apply read_whole; [|done]. destruct Hh1 as [-> _]. lia.
Qed.

(** A write to a piece below 4 GiB never panics: it is
    refused without touching the storage when the piece does not exist or the
    block passes its end, and succeeds otherwise, leaving every other piece as it
    was. *)
Theorem memory_write_total io i b block :
  0 ≤ i → is_u32 b → Forall (λ m, zlen (memory m) < 2 ^ 32) (pieces_memory io) →
  zlen block < 2 ^ 63 →
  match pieces_memory io !! Z.to_nat i with
  | None => Memory_write_piece i b block io = (Err (AE_Peer (BadPieceIdx i)), io)
  | Some m =>
      if zlen (memory m) <? b + zlen block
      then Memory_write_piece i b block io = (Err (AE_Peer (BadBounds i (b + zlen block))), io)
      else ∃ r io', Memory_write_piece i b block io = (Ret r, io') ∧
        ∀ j, j ≠ Z.to_nat i → pieces_memory io' !! j = pieces_memory io !! j
  end.
Proof.
  change Memory_write_piece with (write_piece (S := MemoryTorrentIO)).
  intros Hi Hb Hall Hbl. unfold is_u32 in Hb. destruct (_ !! _) as [m|] eqn:Hm.
  2: { unfold write_piece, memory_torrent_io, Memory_write_piece. by rewrite Hm. }
  assert (zlen (memory m) < 2 ^ 32) by (by eapply Forall_lookup_1 in Hall).
  rewrite !(Memory_write_piece_at io i m) by done. unfold Memory_write.
  rewrite bind_arith by zlia. rewrite Z.gtb_ltb.
  destruct (Z.ltb_spec (zlen (memory m)) (b + zlen block)); [done|].
  rewrite wrap_small by zlia. unfold Slices_insert. rewrite bind_arith by zlia. rewrite bind_ret.
  destruct (write_bytes_spec (E := AnyError) block (memory m) b) as (mem' & -> & _); [lia|lia|].
  rewrite bind_ret. do 2 eexists. split; [reflexivity|]. intros j Hj. cbn [pieces_memory].
  by rewrite list_lookup_insert_ne.
Qed.

(** Reading an existing piece below 4 GiB panics
    exactly when the range passes its end, which the read does not check; the task
    that serves the storage dies with it, and the requests behind it are not
    answered. *)
Theorem memory_read_panics_iff io i b len m rx :
  is_u32 b → is_u32 len → pieces_memory io !! Z.to_nat i = Some m →
  zlen (memory m) < 2 ^ 31 → b < 2 ^ 31 → len < 2 ^ 31 →
  (fst (read_piece i b len io) = Panic ↔ zlen (memory m) < b + len) ∧
  (zlen (memory m) < b + len → io_handler_task (IoRead i b len :: rx) io = ([], None)).
Proof.
  unfold is_u32. intros Hb Hlen Hm ???.
  assert (Hr : read_piece i b len io = (slice_range (memory m) b (b + len), io)).
  { unfold read_piece, memory_torrent_io, Memory_read_piece. rewrite Hm.
    by rewrite bind_arith by lia. }
  cbn [io_handler_task io_handle]. rewrite Hr. unfold slice_range. cbn [fst].
  rewrite (proj2 (Z.leb_le b _)) by lia. cbn [andb].
  destruct (Z.leb_spec (b + len) (zlen (memory m))); [|done]. split; [|lia]. split; [done|lia].
Qed.

(** As long as no request panics, the task answers every
    request, in the order received, and the storage it is left with is that of the
    requests run one after the other. *)
Theorem io_task_in_order {S} `{TorrentIO S} (rx rx' : list IoMessage) (io io1 : S) rs :
  io_handler_task rx io = (rs, Some io1) →
  length rs = length rx ∧
  io_handler_task (rx ++ rx') io =
    (rs ++ (io_handler_task rx' io1).1, (io_handler_task rx' io1).2).
Proof.
  revert io rs. induction rx as [|msg rx IH]; intros io rs; cbn [io_handler_task app].
  { intros [= <- ->]. split; [done|]. by destruct (io_handler_task rx' io1). }
  destruct (io_handle msg io) as [r io2] eqn:Hh. destruct (reply_panics r); [done|].
  destruct (io_handler_task rx io2) as [rs2 o] eqn:Ht. intros [= <- ->].
  destruct (IH _ _ Ht) as [Hl ->]. split; [cbn; lia|done].
Qed.
End io_properties.

(** * Concrete storage *)

Module IoExamples.
Import DevProfile.

(** The first piece of a torrent of two, ten bytes long. *)
Definition data : list byte := bs "0123456789".
Definition fresh : MemoryTorrentIO :=
  match MemoryTorrentIO_new short_last with Ret io => io | _ => mkMemoryIO [] end.
Definition blocks : list (Z * Z) := [(4, 4); (8, 2)].

Lemma blocks_tile : disjoint_slices (blocks ++ [(0, 4)]) ∧
  ∀ x, 0 ≤ x < 10 → asked (blocks ++ [(0, 4)]) x.
Proof.
  split.
  - intros i j p q x Hi Hj.
    destruct i as [|[|[|i]]]; cbn in Hi; simplify_eq;
      (destruct j as [|[|[|j]]]; cbn in Hj; simplify_eq; cbn; lia || done).
  - intros x Hx. destruct (decide (x < 4)); [exists (0, 4)|
      destruct (decide (x < 8)); [exists (4, 4)|exists (8, 2)]]; (split; [set_solver|cbn; lia]).
Qed.

Lemma memory_download_completes_witness :
  ∃ io', write_blocks 0 data (blocks ++ [(0, 4)]) fresh = (Ret [false; false; true], io') ∧
    read_piece 0 0 10 io' = (Ret data, io').
Proof.
  apply (memory_download_completes short_last fresh 0 data blocks (0, 4)).
  - exact short_last_wf.
  - reflexivity.
  - vm_compute. split; congruence.
  - reflexivity.
  - repeat constructor; vm_compute; congruence.
  - exact (proj1 blocks_tile).
  - exact (proj2 blocks_tile).
Defined.

Definition repeated : list (Z * Z) := [(0, 6); (0, 6)].

Lemma memory_complete_sound_witness :
  read_piece 0 0 10 (write_blocks 0 data (repeated ++ [(6, 4)]) fresh).2 =
    (Ret data, (write_blocks 0 data (repeated ++ [(6, 4)]) fresh).2).
Proof.
  apply (memory_complete_sound fresh 0 (Memory_from (replicate 10 x00)) data repeated (6, 4)
    [false; false]).
  - reflexivity.
  - reflexivity.
  - reflexivity.
  - vm_compute. split; congruence.
  - repeat constructor; vm_compute; congruence.
  - reflexivity.
Defined.

Lemma memory_write_total_witness :
  Memory_write_piece 1 3 (bs "xyz") fresh = (Err (AE_Peer (BadBounds 1 6)), fresh).
Proof.
  apply (memory_write_total fresh 1 3 (bs "xyz"));
    [lia|vm_compute; split; congruence|repeat constructor|reflexivity].
Defined.

Lemma memory_read_panics_iff_witness :
  io_handler_task [IoRead 1 3 3; IoWrite 0 0 data] fresh = ([], None).
Proof.
  apply (memory_read_panics_iff fresh 1 3 3 (Memory_from (replicate 5 x00)));
    (reflexivity || (vm_compute; try split; congruence)).
Defined.

Lemma io_task_in_order_witness :
  length [WriteReply (Ret false)] = length [IoWrite 0 0 (bs "01")].
Proof.
  apply (io_task_in_order [IoWrite 0 0 (bs "01")] [] fresh
    (io_handle (IoWrite 0 0 (bs "01")) fresh).2). reflexivity.
Defined.
End IoExamples.
