(* ===== verification/FileIo.v ===== *)
(** File storage, [src/src/peer/io/file.rs]: one file for the whole torrent, a
    slice tracker per piece, and the SHA-1 check of a finished piece.

    The file (tokio), the digest (sha1) and the hexadecimal printer (hex) are
    not part of the repository: [FileApi] has the file operations the program
    calls (a failure is an [std::io::Error], a number here) and [FileOk] what they
    do when they succeed; [sha1] and [hex_encode]
    are arbitrary functions. *)
From S2P Require Import Prelude ByteStr BytesCrate Model Protocol Errors Allocation Slices Io.
From Stdlib Require Import ZArith Lia.

Class FileApi (F : Type) := {
  seek : Z → action F Z unit;
  write_all : list byte → action F Z unit;
  read_exact : Z → action F Z (list byte);
  set_len : Z → action F Z unit;
}.

(** [l] with [b] stored from offset [p] on. *)
Definition overwrite (l : list byte) (p : Z) (b : list byte) : list byte :=
  take (Z.to_nat p) l ++ b ++ drop (Z.to_nat p + length b) l.

(** Successful calls: [seek] moves the cursor, [write_all] stores its bytes at the
    cursor (here: inside the file), [read_exact] returns the bytes at the
    cursor, [set_len] sets the size of a fresh file. *)
Class FileOk (F : Type) `{FileApi F} := {
  contents : F → list byte;
  cursor : F → Z;
  seek_spec p f f' : seek p f = (Ret tt, f') →
    contents f' = contents f ∧ cursor f' = p;
  write_all_spec b f f' : write_all b f = (Ret tt, f') →
    0 ≤ cursor f → cursor f + zlen b ≤ zlen (contents f) →
    contents f' = overwrite (contents f) (cursor f) b;
  read_exact_spec n f buf f' : read_exact n f = (Ret buf, f') →
    contents f' = contents f ∧ zlen buf = n ∧ buf = sub (contents f) (cursor f) n;
  set_len_spec n f f' : set_len n f = (Ret tt, f') → contents f = [] →
    contents f' = replicate (Z.to_nat n) x00;
}.

(** [FilePieceState]. *)
Record FilePieceState := mkFilePiece {
  fp_hash : list byte;
  fp_slices : Slices;
  start_idx : Z;
  size : Z;
}.

Definition FilePieceState_new (expected_size start_idx : Z) (hash : list byte) : FilePieceState :=
  mkFilePiece hash (Slices_new expected_size) start_idx expected_size.

(** [FileTorrentIO]. *)
Record FileTorrentIO (F : Type) := mkFileIO {
  file : F;
  piece_to_file : list FilePieceState;
  allocation : TorrentAllocation;
}.
Arguments mkFileIO {F}.
Arguments file {F}.
Arguments piece_to_file {F}.
Arguments allocation {F}.

Section file_io.
Context {F : Type} `{FileApi F} `{Profile}.
Context (sha1 : list byte → list byte) (hex_encode : list byte → list byte).
Open Scope action_scope.

(** An [std::io::Error] becomes an [anyhow::Error]. *)
Definition io {S A} (m : action S Z A) : action S AnyError A := λ s,
  let '(r, s) := m s in (map_err AE_Io r, s).

Definition seek_offset (p : FilePieceState) (offset : Z) : action F AnyError unit :=
  let! offset := pure (arith 64 (start_idx p + offset)) in
  io (seek offset).

Definition compute_file_sha1_hash (p : FilePieceState) : action F AnyError (list byte) :=
  let! _ := io (seek (start_idx p)) in
  let! _ := pure (vec_zeroed (size p)) in
  let! buf := io (read_exact (size p)) in
  act_ret (sha1 buf).

(** The loop of [new]: the pieces from [idx] on. *)
Fixpoint file_pieces (a : TorrentAllocation) (idx : Z) (ps : list V1Piece)
    : outcome AnyError (list FilePieceState) :=
  match ps with
  | [] => Ret []
  | piece :: ps =>
      piece_len ← piece_len a idx;
      start ← arith 64 (piece_len * idx);
      rest ← file_pieces a (idx + 1) ps;
      Ret (FilePieceState_new piece_len start (hash piece) :: rest)
  end.

(** [new] on the file that [File::create_new] returned. *)
Definition FileTorrentIO_new (torrent : V1Torrent) (file : F)
    : outcome AnyError (FileTorrentIO F) :=
  allocation ← allocate_torrent torrent;
  let '(r, file) := set_len (as_usize (torrent_length (info torrent))) file in
  _ ← map_err AE_Io r;
  piece_to_file ← file_pieces allocation 0 (pieces (info torrent));
  Ret (mkFileIO file piece_to_file allocation).

Definition on_file {A} (m : action F AnyError A) : action (FileTorrentIO F) AnyError A :=
  zoom file (λ f io, mkFileIO f (piece_to_file io) (allocation io)) m.

Definition set_piece (index : Z) (p : FilePieceState) (io : FileTorrentIO F) : FileTorrentIO F :=
  mkFileIO (file io) (<[Z.to_nat index := p]> (piece_to_file io)) (allocation io).

Definition File_write_piece (index begin : Z) (block : list byte)
    : action (FileTorrentIO F) AnyError bool :=
  let! self := get in
  match piece_to_file self !! Z.to_nat index with
  | Some piece =>
      if is_complete (fp_slices piece) then act_err (AE_Peer (FileAlreadyComplete index))
      else
        let! end_pos := pure (arith 64 (begin + zlen block)) in
        let! piece_len := pure (piece_len (allocation self) index) in
        if end_pos >? piece_len then act_err (AE_Peer (BadBounds index end_pos))
        else
          let! _ := on_file (seek_offset piece begin) in
          let! _ := on_file (io (write_all block)) in
          let! r := pure (Slices_insert (fp_slices piece) begin (as_u32 (zlen block))) in
          let piece := mkFilePiece (fp_hash piece) r.2 (start_idx piece) (size piece) in
          let! _ := modify (set_piece index piece) in
          if (r.1 : bool) then
            let! computed_hash := on_file (compute_file_sha1_hash piece) in
            if decide (computed_hash = fp_hash piece) then act_ret true
            else act_err (AE_Peer
              (PieceHashMismatch index (hex_encode computed_hash) (hex_encode (fp_hash piece))))
          else act_ret false
  | None => act_err (AE_Peer (BadPieceIdx index))
  end.

Definition File_read_piece (index begin length : Z)
    : action (FileTorrentIO F) AnyError (list byte) :=
  let! self := get in
  match piece_to_file self !! Z.to_nat index with
  | Some piece =>
      let! end_pos := pure (arith 64 (begin + length)) in
      let! piece_len := pure (piece_len (allocation self) index) in
      if end_pos >? piece_len then act_err (AE_Peer (BadBounds index end_pos))
      else if negb (is_complete (fp_slices piece)) then
        act_err (AE_Peer (FilePieceNotFinished index))
      else
        let! _ := on_file (seek_offset piece begin) in
        let! _ := pure (vec_zeroed length) in
        on_file (io (read_exact length))
  | None => act_err (AE_Peer (BadPieceIdx index))
  end.

#[export] Instance file_torrent_io : TorrentIO (FileTorrentIO F) := {|
  write_piece := File_write_piece;
  read_piece := File_read_piece;
|}.
End file_io.

(** * Lemmas *)

Lemma zoom_inv {S T E A} (prj : S → T) upd (m : action T E A) s a s' :
  zoom prj upd m s = (Ret a, s') ↔ ∃ t, m (prj s) = (Ret a, t) ∧ s' = upd t s.
Proof. unfold zoom. destruct (m (prj s)) as [[] t]; naive_solver. Qed.

Lemma io_inv {S A} (m : action S Z A) s a s' : io m s = (Ret a, s') ↔ m s = (Ret a, s').
Proof. unfold io. destruct (m s) as [[] ?]; cbn; naive_solver. Qed.

Lemma pure_inv {S E A} (m : outcome E A) (s : S) a s' :
  pure m s = (Ret a, s') ↔ m = Ret a ∧ s' = s.
Proof. unfold pure. naive_solver. Qed.

(** Invert the steps of a successful action. *)
Ltac inv_act :=
  repeat match goal with
  | H : act_bind _ _ _ = (Ret _, _) |- _ =>
      apply act_bind_inv in H;
      let a := fresh "a" in let s := fresh "s" in let H1 := fresh "Hm" in
      destruct H as (a & s & H1 & H); cbn beta in H
  | H : zoom _ _ _ _ = (Ret _, _) |- _ =>
      apply zoom_inv in H;
      let t := fresh "f" in let H1 := fresh "Hf" in
      destruct H as (t & H & H1); subst
  | H : on_file _ _ = (Ret _, _) |- _ => unfold on_file in H
  | H : io _ _ = (Ret _, _) |- _ => apply io_inv in H
  | H : pure _ _ = (Ret _, _) |- _ =>
      apply pure_inv in H; let H1 := fresh "He" in destruct H as [H H1]; subst
  | H : get _ = (Ret _, _) |- _ => injection H as H; subst
  | H : modify _ _ = (Ret _, _) |- _ => unfold modify in H; simplify_eq
  | H : act_ret _ _ = (Ret _, _) |- _ => unfold act_ret in H; simplify_eq
  | H : act_err _ _ = (Ret _, _) |- _ => discriminate H
  end.

Lemma zlen_overwrite l p b : 0 ≤ p → p + zlen b ≤ zlen l → zlen (overwrite l p b) = zlen l.
Proof. intros. unfold overwrite, zlen in *. rewrite !length_app, length_take, length_drop. lia. Qed.

Section file_facts.
Context {F : Type} `{FileOk F} `{Profile}.
Context (sha1 : list byte → list byte) (hex_encode : list byte → list byte).
#[local] Existing Instance file_torrent_io.

Lemma seek_offset_inv p off f f' : seek_offset p off f = (Ret tt, f') →
  0 ≤ start_idx p + off < 2 ^ 64 →
  contents f' = contents f ∧ cursor f' = start_idx p + off.
Proof.
  intros Hs Hr. unfold seek_offset in Hs. inv_act.
  rewrite arith_ok in Hm by done. injection Hm as <-. by apply seek_spec in Hs.
Qed.

Lemma compute_hash_inv p f h f' : compute_file_sha1_hash sha1 p f = (Ret h, f') →
  contents f' = contents f ∧ h = sha1 (sub (contents f) (start_idx p) (size p)).
Proof.
  intros Hs. unfold compute_file_sha1_hash in Hs. inv_act. destruct a.
  apply seek_spec in Hm as [Hc Hp].
  apply read_exact_spec in Hm1 as (Hc' & _ & ->). rewrite Hc', Hc, Hp. done.
Qed.

(** A file storage whose pieces lie inside the file and have [u32] sizes. *)
Definition file_ok (s : FileTorrentIO F) : Prop :=
  Forall (λ p, 0 ≤ start_idx p ∧ 0 ≤ size p < 2 ^ 32 ∧
    start_idx p + size p ≤ zlen (contents (file s)) < 2 ^ 64) (piece_to_file s) ∧
  ∀ i p n, 0 ≤ i → piece_to_file s !! Z.to_nat i = Some p →
    piece_len (E := AnyError) (allocation s) i = Ret n → n ≤ size p.

(** What a successful write did. *)
Lemma file_write_inv i b block s r s' :
  file_ok s → 0 ≤ i → is_u32 b → zlen block < 2 ^ 32 →
  File_write_piece sha1 hex_encode i b block s = (Ret r, s') →
  ∃ p sl, piece_to_file s !! Z.to_nat i = Some p ∧ is_complete (fp_slices p) = false ∧
    b + zlen block ≤ size p ∧
    Slices_insert (E := AnyError) (fp_slices p) b (zlen block) = Ret (r, sl) ∧
    piece_to_file s' = <[Z.to_nat i := mkFilePiece (fp_hash p) sl (start_idx p) (size p)]>
      (piece_to_file s) ∧
    allocation s' = allocation s ∧
    contents (file s') = overwrite (contents (file s)) (start_idx p + b) block ∧
    (r = true → sha1 (sub (contents (file s')) (start_idx p) (size p)) = fp_hash p).
Proof.
  intros [Hok Hlen] Hi Hb Hbl Hw. unfold File_write_piece in Hw. inv_act.
  destruct (_ !! _) as [p|] eqn:Hp; [|done]. unfold is_u32 in Hb.
  destruct (is_complete (fp_slices p)) eqn:Hc; [done|]. inv_act.
  rewrite arith_ok in Hm by zlia. injection Hm as <-.
  destruct (_ >? _) eqn:Hgt; [done|]. inv_act.
  pose proof (Forall_lookup_1 _ _ _ _ Hok Hp) as (Hs0 & Hsz & Hin).
  specialize (Hlen _ _ _ Hi Hp Hm0). rewrite Z.gtb_ltb in Hgt. apply Z.ltb_ge in Hgt.
  repeat match goal with u : unit |- _ => destruct u end. cbn [file] in *.
  apply seek_offset_inv in Hm as [Hct Hcur]; [|zlia].
  apply write_all_spec in Hm1; [|zlia|rewrite Hct, Hcur; zlia]. rewrite Hct, Hcur in Hm1.
  rewrite wrap_small in Hm2 by zlia.
  match type of Hm2 with _ = Ret ?x => destruct x as [fin sl] end. cbn [fst snd] in *.
  exists p, sl. destruct fin; inv_act; cbn [file piece_to_file allocation set_piece] in *.
  - case_decide; [|done]. inv_act. cbn [file piece_to_file allocation].
    apply compute_hash_inv in Hm as [Hcf Hh]. cbn [fp_hash start_idx size] in *.
    rewrite Hcf, Hm1. rewrite Hm1 in Hh. split_and!; try done. lia.
  - split_and!; try done; lia.
Qed.

Lemma file_read_inv i b len s bytes s' :
  file_ok s → 0 ≤ i → is_u32 b → is_u32 len →
  File_read_piece (F := F) i b len s = (Ret bytes, s') →
  ∃ p, piece_to_file s !! Z.to_nat i = Some p ∧ is_complete (fp_slices p) = true ∧
    b + len ≤ size p ∧ bytes = sub (contents (file s)) (start_idx p + b) len ∧
    zlen bytes = len ∧ contents (file s') = contents (file s).
Proof.
  intros [Hok Hlen] Hi Hb Hl Hr. unfold File_read_piece, is_u32 in *. inv_act.
  destruct (_ !! _) as [p|] eqn:Hp; [|done]. inv_act.
  rewrite arith_ok in Hm by lia. injection Hm as <-.
  destruct (_ >? _) eqn:Hgt; [done|]. destruct (is_complete (fp_slices p)) eqn:Hc; [|done].
  cbn [negb] in Hr. inv_act. specialize (Hlen _ _ _ Hi Hp Hm0).
  rewrite Z.gtb_ltb in Hgt. apply Z.ltb_ge in Hgt.
  pose proof (Forall_lookup_1 _ _ _ _ Hok Hp) as (Hs0 & Hsz & Hin).
  repeat match goal with u : unit |- _ => destruct u end. cbn [file] in *.
  apply seek_offset_inv in Hm as [Hct Hcur]; [|lia].
  apply read_exact_spec in Hr as (Hcf & Hz & Hb'). rewrite Hct, Hcur in Hb'.
  exists p. split_and!; try done; [lia|congruence].
Qed.

(** The pieces are short enough for the blocks of the protocol: their lengths
    come from the allocation, which no operation changes. *)
Definition short_pieces (s : FileTorrentIO F) : Prop := ∀ i n,
  piece_len (E := AnyError) (allocation s) i = Ret n → n + 9 < 2 ^ 32.

Lemma on_file_short {A} (m : action F AnyError A) : preserves short_pieces (on_file m).
Proof. by apply preserves_zoom. Qed.

#[local] Hint Resolve on_file_short : preserves.

Lemma file_write_short i b block : preserves short_pieces (File_write_piece (F := F) sha1 hex_encode i b block).
Proof.
  unfold File_write_piece. apply preserves_bind; [auto with preserves|intros s].
  destruct (_ !! _) as [p|]; [|auto with preserves].
  destruct (is_complete _); [auto with preserves|].
  repeat (apply preserves_bind; [auto with preserves|intros ?]).
  destruct (_ >? _); [auto with preserves|].
  repeat (apply preserves_bind; [auto with preserves|intros ?]).
  match goal with |- preserves _ (if ?c then _ else _) => destruct c end; [|auto with preserves].
  apply preserves_bind; [auto with preserves|intros h]. destruct (decide _); auto with preserves.
Qed.

Lemma file_read_short i b k : preserves short_pieces (File_read_piece (F := F) i b k).
Proof.
  unfold File_read_piece. apply preserves_bind; [auto with preserves|intros s].
  destruct (_ !! _) as [p|]; [|auto with preserves].
  repeat (apply preserves_bind; [auto with preserves|intros ?]).
  destruct (_ >? _); [auto with preserves|]. destruct (negb _); auto with preserves.
Qed.

Lemma file_read_fits i b k s block s' : File_read_piece (F := F) i b k s = (Ret block, s') →
  is_u32 b → is_u32 k → short_pieces s → zlen block + 9 < 2 ^ 32.
Proof.
  intros Hr Hb Hk Hs. unfold File_read_piece, is_u32 in *. inv_act.
  destruct (_ !! _) as [p|]; [|done]. inv_act. rewrite arith_ok in Hm by lia. injection Hm as <-.
  destruct (_ >? _) eqn:Hgt; [done|]. rewrite Z.gtb_ltb in Hgt. apply Z.ltb_ge in Hgt.
  destruct (negb _); [done|]. inv_act. apply read_exact_spec in Hr as (_ & -> & _).
  apply Hs in Hm0. lia.
Qed.

#[export] Program Instance file_bounded :
    @BoundedIO (FileTorrentIO F) (file_torrent_io sha1 hex_encode) := {| io_bounded := short_pieces |}.
Next Obligation. exact file_write_short. Qed.
Next Obligation. exact file_read_short. Qed.
Next Obligation. exact file_read_fits. Qed.

Lemma file_ok_write i b block s r s' :
  file_ok s → 0 ≤ i → is_u32 b → zlen block < 2 ^ 32 →
  File_write_piece sha1 hex_encode i b block s = (Ret r, s') → file_ok s'.
Proof.
  intros Hok Hi Hb Hbl Hw.
  destruct (file_write_inv i b block s r s' Hok Hi Hb Hbl Hw)
    as (p & sl & Hp & _ & Hfit & _ & Hps & Hal & Hct & _).
  destruct Hok as [Hall Hlen]. pose proof (Forall_lookup_1 _ _ _ _ Hall Hp) as (Hs0 & Hsz & Hin).
  unfold is_u32 in Hb.
  assert (Hz : zlen (contents (file s')) = zlen (contents (file s))).
  { rewrite Hct. apply zlen_overwrite; zlia. }
  split; rewrite Hps, ?Hz.
  - apply Forall_insert; [done|]. done.
  - rewrite Hal. intros j q n Hj Hq Hn. rewrite list_lookup_insert in Hq. case_decide as Hd.
    + destruct Hd as [Hd _]. simplify_eq. cbn [size]. apply (Hlen j); [done| |done]. by rewrite Hd in Hp.
    + by apply (Hlen j).
Qed.

(** ** The layout that [new] computes *)

Lemma file_pieces_layout t a : wf_torrent t → allocate_torrent (E := AnyError) t = Ret a →
  ∀ ps idx, 0 ≤ idx → idx + zlen ps = zlen (pieces (info t)) →
  ∃ l, file_pieces a idx ps = Ret l ∧ length l = length ps ∧
    ∀ k p, ps !! k = Some p → l !! k =
      Some (let n := piece_size t (idx + Z.of_nat k) in
            FilePieceState_new n (n * (idx + Z.of_nat k)) (hash p)).
Proof.
  intros Hwf Ha ps. pose proof Hwf as (Hn & Hpl & Hlen & Hmax).
  induction ps as [|q ps IH]; intros idx Hidx Hps; cbn [file_pieces].
  { exists []. done. }
  rewrite zlen_cons in Hps. rewrite (wf_piece_len t a idx), bind_ret by (done || zlia).
  pose proof (piece_size_range t idx Hwf ltac:(zlia)).
  zlen_facts. rewrite bind_arith by nia.
  destruct (IH (idx + 1)) as (l & -> & Hl & Hk); [lia|lia|]. rewrite bind_ret.
  eexists. split; [reflexivity|]. split; [cbn; by rewrite Hl|].
  intros [|k] p Hp; cbn in Hp.
  - injection Hp as ->. cbv zeta. by rewrite Z.add_0_r.
  - etransitivity; [exact (Hk k p Hp)|]. cbv zeta. by replace (idx + 1 + Z.of_nat k) with (idx + Z.of_nat (S k)) by lia.
Qed.

Lemma file_new_inv t f s : wf_torrent t → FileTorrentIO_new t f = Ret s →
  contents f = [] →
  contents (file s) = replicate (Z.to_nat (torrent_length (info t))) x00 ∧
  allocate_torrent (E := AnyError) t = Ret (allocation s) ∧
  length (piece_to_file s) = length (pieces (info t)) ∧
  ∀ i p, piece_to_file s !! Z.to_nat i = Some p → 0 ≤ i →
    0 ≤ i < zlen (pieces (info t)) ∧
    size p = piece_size t i ∧ start_idx p = piece_size t i * i.
Proof.
  intros Hwf Hs Hc. unfold FileTorrentIO_new in Hs. pose proof Hwf as (Hn & Hpl & Hlen & Hmax).
  destruct (allocate_torrent t) as [a| |] eqn:Ha; [|done..]. rewrite bind_ret in Hs.
  destruct (set_len _ f) as [[[]| |] f'] eqn:Hsl; [|done..]. cbn [map_err] in Hs. rewrite bind_ret in Hs.
  apply set_len_spec in Hsl; [|done].
  destruct (file_pieces_layout t a Hwf Ha (pieces (info t)) 0) as (l & Hl & Hlen' & Hk); [lia|lia|].
  rewrite Hl, bind_ret in Hs. injection Hs as <-. cbn [file allocation piece_to_file].
  split_and!; [by rewrite Hsl, wrap_small by nia|done|done|].
  intros i p Hp Hi. pose proof (lookup_lt_Some _ _ _ Hp) as Hlt. rewrite Hlen' in Hlt.
  destruct (lookup_lt_is_Some_2 _ _ Hlt) as [q Hq]. rewrite (Hk _ _ Hq) in Hp.
  injection Hp as <-. cbn. rewrite Z2Nat.id by done. unfold zlen. split_and!; [lia|lia|done|done].
Qed.

Lemma file_new_ok t f s : wf_torrent t → FileTorrentIO_new t f = Ret s → contents f = [] →
  file_ok s.
Proof.
  intros Hwf Hs Hc. destruct (file_new_inv t f s Hwf Hs Hc) as (Hct & Ha & _ & Hp).
  pose proof Hwf as (Hn & Hpl & Hlen & Hmax).
  assert (Hz : zlen (contents (file s)) = torrent_length (info t)).
  { rewrite Hct. unfold zlen at 1. rewrite length_replicate. nia. }
  split.
  - apply Forall_lookup_2. intros k p Hk.
    destruct (Hp (Z.of_nat k) p) as (Hi & -> & ->); [by rewrite Nat2Z.id|lia|].
    pose proof (piece_size_range t (Z.of_nat k) Hwf Hi).
    rewrite Hz.
    unfold piece_size in *. split_and!; nia.
  - intros i p n Hi Hip Hpn. destruct (Hp i p Hip Hi) as (? & -> & _).
    rewrite (wf_piece_len t) in Hpn by done. by injection Hpn as <-.
Qed.
End file_facts.

(** * Properties *)

Section file_properties.
Context {F : Type} `{FileOk F} `{Profile}.
Context (sha1 : list byte → list byte) (hex_encode : list byte → list byte).

(** C22. File storage reports a piece complete only when
    the bytes of its place in the file, after the write, have the SHA-1 the torrent
    gives for it, and its slices cover it. *)
Theorem file_complete_verified i b block s s' :
  file_ok s → 0 ≤ i → is_u32 b → zlen block < 2 ^ 32 →
  File_write_piece sha1 hex_encode i b block s = (Ret true, s') →
  ∃ p, piece_to_file s' !! Z.to_nat i = Some p ∧ is_complete (fp_slices p) = true ∧
    sha1 (sub (contents (file s')) (start_idx p) (size p)) = fp_hash p.
Proof.
  intros Hok Hi Hb Hbl Hw.
  destruct (file_write_inv sha1 hex_encode i b block s true s' Hok Hi Hb Hbl Hw)
    as (p & sl & Hp & _ & _ & Hins & Hps & _ & _ & Hh).
  eexists. rewrite Hps, list_lookup_insert_eq by (by eapply lookup_lt_Some).
  split_and!; [reflexivity| |by apply Hh].
  apply Slices_insert_inv in Hins as (e & _ & Hr & _). cbn [fp_slices]. congruence.
Qed.

(** A successful write stores the block at its place inside
    its piece and changes no other byte of the file and no other piece's state; the
    storage stays well-formed. *)
Theorem file_write_frame i b block s r s' :
  file_ok s → 0 ≤ i → is_u32 b → zlen block < 2 ^ 32 →
  File_write_piece sha1 hex_encode i b block s = (Ret r, s') →
  file_ok s' ∧ ∃ p, piece_to_file s !! Z.to_nat i = Some p ∧ b + zlen block ≤ size p ∧
    contents (file s') = overwrite (contents (file s)) (start_idx p + b) block ∧
    ∀ j, j ≠ Z.to_nat i → piece_to_file s' !! j = piece_to_file s !! j.
Proof.
  intros Hok Hi Hb Hbl Hw. split; [by eapply file_ok_write|].
  destruct (file_write_inv sha1 hex_encode i b block s r s' Hok Hi Hb Hbl Hw)
    as (p & sl & Hp & _ & Hfit & _ & Hps & _ & Hct & _).
  exists p. split_and!; [done..|]. intros j Hj. by rewrite Hps, list_lookup_insert_ne.
Qed.

(** A successful read gives bytes of a complete
    piece, exactly those of the requested range, which lies inside the piece. *)
Theorem file_read_complete_only i b len s bytes s' :
  file_ok s → 0 ≤ i → is_u32 b → is_u32 len →
  File_read_piece (F := F) i b len s = (Ret bytes, s') →
  ∃ p, piece_to_file s !! Z.to_nat i = Some p ∧ is_complete (fp_slices p) = true ∧
    b + len ≤ size p ∧ bytes = sub (contents (file s)) (start_idx p + b) len ∧
    zlen bytes = len ∧ contents (file s') = contents (file s).
Proof. apply file_read_inv. Qed.

(** A piece whose bytes do not have the expected hash
    stays marked as fully received: every later write to it is refused as already
    complete, so the piece can never be downloaded again. *)
Theorem file_mismatch_stuck i b block s c h s' b2 block2 :
  File_write_piece sha1 hex_encode i b block s = (Err (AE_Peer (PieceHashMismatch i c h)), s') →
  File_write_piece sha1 hex_encode i b2 block2 s' = (Err (AE_Peer (FileAlreadyComplete i)), s').
Proof.
  unfold File_write_piece at 1. unfold act_bind at 1. cbn [get].
  destruct (piece_to_file s !! Z.to_nat i) as [p|] eqn:Hp; [|done].
  destruct (is_complete (fp_slices p)); [done|].
  unfold act_bind at 1, pure. destruct (arith 64 _) as [e| |] eqn:He; [| |done].
  2: by apply arith_not_err in He.
  unfold act_bind at 1. destruct (piece_len _ _) as [n| |] eqn:Hn; [| |done].
  2: { apply bind_arith_err in Hn as (? & _ & Hn). by case_match. }
  destruct (e >? n); [done|]. unfold act_bind at 1, on_file at 1, zoom.
  unfold seek_offset, act_bind at 1, pure, io.
  destruct (arith 64 (start_idx p + b)) as [o| |] eqn:Ho; [| |done].
  2: by apply arith_not_err in Ho.
  destruct (seek o (file s)) as [[[]| |] f1]; [|done..]. cbn [map_err].
  unfold act_bind at 1, on_file at 1, zoom. cbn [file].
  destruct (write_all block f1) as [[[]| |] f2]; [|done..]. cbn [map_err].
  unfold act_bind at 1. destruct (Slices_insert _ _ _) as [[fin sl]| |] eqn:Hins; [| |done].
  2: by apply bind_arith_err in Hins as (? & _ & ?).
  unfold act_bind at 1, modify. cbn [fst snd]. destruct fin; [|done].
  apply Slices_insert_inv in Hins as (? & _ & Hc & _). intros Herr.
  assert (Hs' : piece_to_file s' =
    <[Z.to_nat i := mkFilePiece (fp_hash p) sl (start_idx p) (size p)]> (piece_to_file s)).
  { revert Herr. unfold act_bind, on_file, zoom, act_ret, act_err. cbn [set_piece file piece_to_file allocation].
    destruct (compute_file_sha1_hash _ _ _) as [[|ee|] f3]; cbn;
      [case_decide|..]; intros ?; by simplify_eq. }
  unfold File_write_piece, act_bind at 1. cbn [get]. rewrite Hs'.
  rewrite list_lookup_insert_eq by (by eapply lookup_lt_Some). cbn [fp_slices]. by rewrite <-Hc.
Qed.

(** [new] on a well-formed torrent gives a well-formed
    storage over a file of the torrent's length, in which piece [i] starts at [i]
    times its own size: the right place for every piece but a short last one. *)
Theorem file_new_layout t f s : wf_torrent t → contents f = [] →
  FileTorrentIO_new t f = Ret s →
  file_ok s ∧ zlen (contents (file s)) = torrent_length (info t) ∧
  ∀ i p, 0 ≤ i → piece_to_file s !! Z.to_nat i = Some p →
    size p = piece_size t i ∧
    (start_idx p = piece_offset t i ↔ i = 0 ∨ piece_size t i = piece_length (info t)).
Proof.
  intros Hwf Hc Hs. destruct (file_new_inv t f s Hwf Hs Hc) as (Hct & _ & _ & Hp).
  split; [by eapply file_new_ok|]. pose proof Hwf as (Hn & Hpl & Hlen & Hmax). split.
  { rewrite Hct. unfold zlen at 1. rewrite length_replicate. nia. }
  intros i p Hi Hip. destruct (Hp i p Hip Hi) as (? & -> & ->). split; [done|].
  unfold piece_offset. nia.
Qed.

(** When a torrent of several pieces has a short last
    piece, the place [new] gives to it in the file overlaps the place of an earlier
    piece. *)
Theorem file_last_piece_overlaps t f s : wf_torrent t → contents f = [] →
  FileTorrentIO_new t f = Ret s →
  let n := zlen (pieces (info t)) in
  2 ≤ n → piece_size t (n - 1) < piece_length (info t) →
  ∃ j p q x, 0 ≤ j < n - 1 ∧ piece_to_file s !! Z.to_nat (n - 1) = Some p ∧
    piece_to_file s !! Z.to_nat j = Some q ∧
    start_idx p ≤ x < start_idx p + size p ∧ start_idx q ≤ x < start_idx q + size q.
Proof.
  intros Hwf Hc Hs n Hn Hshort.
  destruct (file_new_inv t f s Hwf Hs Hc) as (_ & _ & Hl & Hp).
  pose proof Hwf as (Hn' & Hpl & Hlen & Hmax). fold n in Hn', Hlen, Hmax.
  pose proof (piece_size_range t (n - 1) Hwf ltac:(lia)) as Hlast.
  set (x := piece_size t (n - 1) * (n - 1)). set (j := x / piece_length (info t)).
  pose proof (Z.div_mod x (piece_length (info t)) ltac:(lia)) as Hdm. fold j in Hdm.
  pose proof (Z.mod_pos_bound x (piece_length (info t)) ltac:(lia)) as Hmod.
  assert (Hj : 0 ≤ j < n - 1) by (unfold x in *; nia).
  assert (Hlk : ∀ i, 0 ≤ i < n → ∃ p, piece_to_file s !! Z.to_nat i = Some p).
  { intros i Hi. apply lookup_lt_is_Some_2. rewrite Hl. unfold n, zlen in Hi. lia. }
  destruct (Hlk (n - 1)) as [p Hpn]; [lia|]. destruct (Hlk j) as [q Hq]; [lia|].
  destruct (Hp _ _ Hpn ltac:(lia)) as (_ & Hsp & Hstp).
  destruct (Hp _ _ Hq ltac:(lia)) as (_ & Hsq & Hstq).
  exists j, p, q, x. split_and!; try done; rewrite ?Hstp, ?Hsp, ?Hstq, ?Hsq; [lia|unfold x; lia|..];
    (replace (piece_size t j) with (piece_length (info t)); [lia|]);
    unfold piece_size; rewrite Z.min_l; nia.
Qed.
End file_properties.

(** * A concrete file *)

Module FileExamples.
Import DevProfile.

Record mem_file := mkMemFile { mf_bytes : list byte; mf_pos : Z }.

#[export] Instance mem_file_api : FileApi mem_file := {|
  seek p f := (Ret tt, mkMemFile (mf_bytes f) p);
  write_all b f := (Ret tt, mkMemFile (overwrite (mf_bytes f) (mf_pos f) b) (mf_pos f + zlen b));
  read_exact n f :=
    if decide (zlen (sub (mf_bytes f) (mf_pos f) n) = n)
    then (Ret (sub (mf_bytes f) (mf_pos f) n), mkMemFile (mf_bytes f) (mf_pos f + n))
    else (Err 0, f);
  set_len n f := (Ret tt, mkMemFile (mf_bytes f ++ replicate (Z.to_nat n - length (mf_bytes f)) x00) 0);
|}.

#[export] Program Instance mem_file_ok : FileOk mem_file := {|
  contents := mf_bytes;
  cursor := mf_pos;
|}.
Next Obligation. intros p f f' [= <-]. done. Qed.
Next Obligation. intros b f f' [= <-] _ _. done. Qed.
Next Obligation.
  intros n f buf f'. cbn. case_decide as Hd; [|done]. intros [= <- <-]. done.
Qed.
Next Obligation.
  intros n f f' [= <-] Hf. cbn [mf_bytes]. rewrite Hf. cbn. by rewrite Nat.sub_0_r.
Qed.

(** Two pieces of four bytes; the digest is the identity. *)
Definition one : list byte := bs "abcd".
Definition two : list byte := bs "efgh".
Definition tor (len : Z) : V1Torrent :=
  mkTorrent (mkInfo len 4 [mkPiece one; mkPiece two] [] []) [] [].
Definition sha (l : list byte) : list byte := l.
Definition hex (l : list byte) : list byte := l.

Definition fresh (len : Z) : FileTorrentIO mem_file :=
  match FileTorrentIO_new (tor len) (mkMemFile [] 0) with
  | Ret s => s
  | _ => mkFileIO (mkMemFile [] 0) [] (mkAllocation 0 0 0)
  end.
Definition write (i b : Z) (block : list byte) (s : FileTorrentIO mem_file) :=
  File_write_piece sha hex i b block s.
Definition s1 : FileTorrentIO mem_file := (write 0 2 (bs "cd") (fresh 8)).2.
Definition s2 : FileTorrentIO mem_file := (write 0 0 (bs "ab") s1).2.
Definition bad : FileTorrentIO mem_file := (write 0 0 (bs "abcX") (fresh 8)).2.

Lemma fresh_file_ok : file_ok (fresh 8).
Proof.
  apply (file_new_ok (tor 8) (mkMemFile [] 0)); [|reflexivity|reflexivity].
  vm_compute. split_and!; congruence.
Qed.

Lemma s1_ok : file_ok s1.
Proof.
  apply (file_ok_write sha hex 0 2 (bs "cd") (fresh 8) false);
    [exact fresh_file_ok|lia|vm_compute; split; congruence|reflexivity|reflexivity].
Qed.

Lemma s2_ok : file_ok s2.
Proof.
  apply (file_ok_write sha hex 0 0 (bs "ab") s1 true);
    [exact s1_ok|lia|vm_compute; split; congruence|reflexivity|reflexivity].
Qed.

Lemma file_complete_verified_witness :
  ∃ p, piece_to_file s2 !! 0%nat = Some p ∧ is_complete (fp_slices p) = true ∧
    sha (sub (contents (file s2)) (start_idx p) (size p)) = fp_hash p.
Proof.
  apply (file_complete_verified sha hex 0 0 (bs "ab") s1 s2);
    [exact s1_ok|lia|vm_compute; split; congruence|reflexivity|reflexivity].
Defined.

Lemma file_write_frame_witness :
  ∃ p, piece_to_file (fresh 8) !! 0%nat = Some p ∧
    contents (file s1) = overwrite (contents (file (fresh 8))) (start_idx p + 2) (bs "cd").
Proof.
  destruct (file_write_frame sha hex 0 2 (bs "cd") (fresh 8) false s1)
    as (_ & p & Hp & _ & Hc & _);
    [exact fresh_file_ok|lia|vm_compute; split; congruence|reflexivity|reflexivity|].
  exists p. split; [exact Hp|exact Hc].
Defined.

Lemma file_read_complete_only_witness :
  ∃ p, piece_to_file s2 !! 0%nat = Some p ∧ is_complete (fp_slices p) = true ∧
    bs "bc" = sub (contents (file s2)) (start_idx p + 1) 2.
Proof.
  destruct (file_read_complete_only 0 1 2 s2 (bs "bc") (File_read_piece 0 1 2 s2).2)
    as (p & Hp & Hc & _ & Hb & _);
    [exact s2_ok|lia|vm_compute; split; congruence|vm_compute; split; congruence|reflexivity|].
  exists p. split_and!; [exact Hp|exact Hc|exact Hb].
Defined.

Lemma file_mismatch_stuck_witness :
  write 0 0 (bs "abcd") bad = (Err (AE_Peer (FileAlreadyComplete 0)), bad).
Proof.
  apply (file_mismatch_stuck sha hex 0 0 (bs "abcX") (fresh 8) (bs "abcX") one).
  reflexivity.
Defined.

Lemma file_new_layout_witness :
  file_ok (fresh 8) ∧ zlen (contents (file (fresh 8))) = 8.
Proof.
  destruct (file_new_layout (tor 8) (mkMemFile [] 0) (fresh 8)) as (Hok & Hl & _);
    [vm_compute; split_and!; congruence|reflexivity|reflexivity|].
  split; [exact Hok|exact Hl].
Defined.

Lemma file_last_piece_overlaps_witness :
  ∃ j p q x, 0 ≤ j < 1 ∧ piece_to_file (fresh 7) !! 1%nat = Some p ∧
    piece_to_file (fresh 7) !! Z.to_nat j = Some q ∧
    start_idx p ≤ x < start_idx p + size p ∧ start_idx q ≤ x < start_idx q + size q.
Proof.
  apply (file_last_piece_overlaps (tor 7) (mkMemFile [] 0) (fresh 7));
    [vm_compute; split_and!; congruence|reflexivity|reflexivity|vm_compute; congruence|reflexivity].
Defined.

(** The overlap at work: both pieces are reported complete, then the first no
    longer has its bytes. *)
Example short_last_piece_corrupts :
  let a := write 0 0 one (fresh 7) in
  let b := write 1 0 (bs "efg") a.2 in
  a.1 = Ret true ∧ (File_read_piece 0 0 4 b.2).1 = Ret (bs "abce").
Proof. vm_compute. split; reflexivity. Qed.
End FileExamples.
