(* ===== verification/Storage.v ===== *)
(** The two storages side by side: as long as every request succeeds, the file
    storage ([src/src/peer/io/file.rs]) answers as the in-memory one
    ([src/src/peer/io/mod.rs]) does.

    Requests that fail are where they differ: the file storage refuses writes to
    a complete piece, reads of an incomplete one and pieces with a wrong digest.
    The pieces must have one size: the place of a short last piece in the file
    overlaps an earlier one ([file_last_piece_overlaps]). *)
From S2P Require Import Prelude ByteStr BytesCrate Model Protocol Errors Allocation Slices Io FileIo.
From Stdlib Require Import ZArith Lia.

(** Requests whose integers are in range. *)
Definition request_ok (msg : IoMessage) : Prop :=
  match msg with
  | IoRead index begin length => 0 ≤ index ∧ is_u32 begin ∧ is_u32 length
  | IoWrite index begin block => 0 ≤ index ∧ is_u32 begin ∧ zlen block < 2 ^ 32
  end.

Definition reply_ok (r : IoReply) : Prop :=
  match r with ReadReply (Ret _) | WriteReply (Ret _) => True | _ => False end.

(** A piece of the file storage whose bytes in the file and slices are those of
    a piece in memory. *)
Record piece_sim (bytes : list byte) (p : FilePieceState) (m : Memory) : Prop := {
  sim_bytes : memory m = sub bytes (start_idx p) (size p);
  sim_slices : mem_slices m = fp_slices p;
}.

Definition apart (p q : FilePieceState) : Prop :=
  start_idx p + size p ≤ start_idx q ∨ start_idx q + size q ≤ start_idx p.

Record storage_sim {F} `{FileOk F} `{Profile} (s : FileTorrentIO F) (io : MemoryTorrentIO) : Prop := {
  sim_ok : file_ok s;
  sim_pieces : Forall2 (piece_sim (contents (file s))) (piece_to_file s) (pieces_memory io);
  sim_apart : ∀ i j p q, i ≠ j → piece_to_file s !! i = Some p → piece_to_file s !! j = Some q →
    apart p q;
}.

(** * Bytes in a place *)

Lemma lookup_overwrite l p b (i : nat) : 0 ≤ p → p + zlen b ≤ zlen l →
  overwrite l p b !! i =
    if decide (p ≤ Z.of_nat i < p + zlen b) then b !! (i - Z.to_nat p)%nat else l !! i.
Proof.
  intros Hp Hl. unfold overwrite, zlen in *. case_decide.
  - rewrite lookup_app_r, length_take by (rewrite length_take; lia).
    replace (Z.to_nat p `min` length l)%nat with (Z.to_nat p) by lia.
    by rewrite lookup_app_l by lia.
  - destruct (decide (Z.of_nat i < p)).
    + rewrite lookup_app_l by (rewrite length_take; lia). by rewrite lookup_take_lt by lia.
    + rewrite !lookup_app_r by (rewrite ?length_app, ?length_take; lia).
      rewrite length_take, lookup_drop. f_equal. lia.
Qed.

Lemma lookup_sub_at l b k (i : nat) : 0 ≤ b → Z.of_nat i < k →
  sub l b k !! i = l !! (Z.to_nat b + i)%nat.
Proof. intros. unfold sub. by rewrite lookup_take_lt, lookup_drop by lia. Qed.

(** A write into a place, seen there and from another place. *)
Lemma sub_overwrite_here l st sz b blk mem : 0 ≤ st → 0 ≤ sz → 0 ≤ b → b + zlen blk ≤ sz →
  st + sz ≤ zlen l → zlen mem = sz →
  (∀ i : nat, mem !! i = if decide (b ≤ Z.of_nat i < b + zlen blk) then blk !! (i - Z.to_nat b)%nat
    else sub l st sz !! i) →
  mem = sub (overwrite l (st + b) blk) st sz.
Proof.
  intros Hst Hsz Hb Hfit Hl Hm Hi. apply list_eq. intros i.
  assert (zlen (sub (overwrite l (st + b) blk) st sz) = sz) as Hlen.
  { apply zlen_sub; [lia|lia|]. rewrite zlen_overwrite; lia. }
  destruct (decide (Z.of_nat i < sz)) as [Hlt|Hge].
  - rewrite lookup_sub_at, lookup_overwrite, Hi by lia.
    destruct (decide (b ≤ Z.of_nat i < b + zlen blk)).
    + rewrite decide_True by lia. f_equal. lia.
    + rewrite decide_False by lia. by rewrite lookup_sub_at.
  - rewrite !lookup_ge_None_2; [done|unfold zlen in *; lia..].
Qed.

Lemma sub_overwrite_there l st sz p blk : 0 ≤ st → 0 ≤ sz → 0 ≤ p → st + sz ≤ zlen l →
  p + zlen blk ≤ zlen l → st + sz ≤ p ∨ p + zlen blk ≤ st →
  sub (overwrite l p blk) st sz = sub l st sz.
Proof.
  intros Hst Hsz Hp Hl Hpl Hd. apply list_eq. intros i.
  destruct (decide (Z.of_nat i < sz)) as [Hlt|Hge].
  - rewrite !lookup_sub_at, lookup_overwrite by lia. by rewrite decide_False by lia.
  - rewrite !lookup_ge_None_2; [done|..]; unfold sub; rewrite length_take; lia.
Qed.

(** * Simulation *)

Section simulation.
Context {F : Type} `{FileOk F} `{Profile}.
Context (sha1 : list byte → list byte) (hex_encode : list byte → list byte).
Implicit Types (s : FileTorrentIO F) (io : MemoryTorrentIO).

Lemma write_sim s io i b blk r s' : storage_sim s io → 0 ≤ i → is_u32 b → zlen blk < 2 ^ 32 →
  File_write_piece sha1 hex_encode i b blk s = (Ret r, s') →
  ∃ io', Memory_write_piece i b blk io = (Ret r, io') ∧ storage_sim s' io'.
Proof.
  intros [Hok Hps Hap] Hi Hb Hbl Hw. pose proof (file_ok_write _ _ _ _ _ _ _ _ Hok Hi Hb Hbl Hw) as Hok'.
  destruct (file_write_inv _ _ _ _ _ _ _ _ Hok Hi Hb Hbl Hw)
    as (p & sl & Hp & _ & Hfit & Hins & Hps' & _ & Hct & _).
  destruct (Forall2_lookup_l _ _ _ _ _ Hps Hp) as (m & Hm & Hbytes & Hsl).
  pose proof (Forall_lookup_1 _ _ _ _ (proj1 Hok) Hp) as (Hst & Hsz & Hin). unfold is_u32 in Hb.
  assert (zlen (memory m) = size p) as Hlen by (rewrite Hbytes; apply zlen_sub; lia).
  destruct (write_bytes_spec (E := AnyError) blk (memory m) b) as (mem' & Hwb & Hl' & Hlk); [lia|lia|].
  assert (Memory_write i b blk m = Ret (r, mkMemory mem' sl)) as Hmw.
  { unfold Memory_write. zlen_facts. rewrite bind_arith by lia.
    rewrite Z.gtb_ltb, (proj2 (Z.ltb_ge _ _)) by lia. rewrite wrap_small by lia.
    by rewrite Hsl, Hins, bind_ret, Hwb, bind_ret. }
  eexists. split; [unfold Memory_write_piece; by rewrite Hm, Hmw|].
  split; [done| |]; rewrite Hps'; cbn [pieces_memory].
  - apply Forall2_same_length_lookup. split.
    { rewrite !length_insert. by eapply Forall2_length. }
    intros j q mj Hq Hmj. rewrite list_lookup_insert in Hq. rewrite list_lookup_insert in Hmj.
    destruct (decide (j = Z.to_nat i)) as [->|Hji].
    + rewrite decide_True in Hq by (split; [done|by eapply lookup_lt_Some]).
      rewrite decide_True in Hmj by (split; [done|by eapply lookup_lt_Some]).
      injection Hq as <-. injection Hmj as <-. split; cbn [memory mem_slices fp_slices start_idx size]; [|done].
      rewrite Hct. apply (sub_overwrite_here _ _ _ _ _ mem'); try lia. intros k.
      by rewrite Hlk, <-Hbytes.
    + rewrite decide_False in Hq by naive_solver. rewrite decide_False in Hmj by naive_solver.
      pose proof (Forall2_lookup_lr _ _ _ _ _ _ Hps Hq Hmj) as [Hbj Hsj]. split; [|done].
      rewrite Hct, Hbj. pose proof (Forall_lookup_1 _ _ _ _ (proj1 Hok) Hq) as (? & ? & ?).
      symmetry. apply sub_overwrite_there; try lia.
      destruct (Hap _ _ _ _ Hji Hq Hp); lia.
  - assert (∀ j q, <[Z.to_nat i:=mkFilePiece (fp_hash p) sl (start_idx p) (size p)]>
      (piece_to_file s) !! j = Some q →
      ∃ q0, piece_to_file s !! j = Some q0 ∧ start_idx q = start_idx q0 ∧ size q = size q0) as Hsame.
    { intros j q Hq. rewrite list_lookup_insert in Hq. case_decide as Hd; [|by exists q].
      destruct Hd as [<- _]. injection Hq as <-. by exists p. }
    intros j k q q' Hjk (q0 & Hq & Hs1 & Hs2)%Hsame (q0' & Hq' & Hs1' & Hs2')%Hsame.
    unfold apart. rewrite Hs1, Hs2, Hs1', Hs2'. by apply (Hap j k).
Qed.

Lemma read_sim s io i b len bytes s' : storage_sim s io → 0 ≤ i → is_u32 b → is_u32 len →
  File_read_piece (F := F) i b len s = (Ret bytes, s') →
  Memory_read_piece i b len io = (Ret bytes, io) ∧ storage_sim s' io.
Proof.
  intros [Hok Hps Hap] Hi Hb Hl Hr.
  destruct (file_read_inv i b len s bytes s' Hok Hi Hb Hl Hr)
    as (p & Hp & _ & Hfit & Hbytes & _ & Hct).
  assert (piece_to_file s' = piece_to_file s ∧ allocation s' = allocation s) as [Hpf Hal].
  { unfold File_read_piece in Hr. inv_act. rewrite Hp in Hr. inv_act.
    destruct (_ >? _); [done|]. destruct (negb _); [done|]. inv_act. done. }
  destruct (Forall2_lookup_l _ _ _ _ _ Hps Hp) as (m & Hm & Hmem & _).
  pose proof (Forall_lookup_1 _ _ _ _ (proj1 Hok) Hp) as (Hst & Hsz & Hin).
  unfold is_u32 in *. assert (zlen (memory m) = size p) as Hlen by (rewrite Hmem; apply zlen_sub; lia).
  split; [|split].
  - unfold Memory_read_piece. rewrite Hm, bind_arith by lia. unfold slice_range.
    rewrite (proj2 (Z.leb_le b _)), (proj2 (Z.leb_le _ (zlen _))) by lia. cbn [andb].
    f_equal. f_equal. rewrite Hbytes, Hmem. unfold sub.
    replace (b + len - b) with len by lia. rewrite skipn_firstn_comm, drop_drop, take_take.
    f_equal; [|f_equal]; lia.
  - destruct Hok as [Hf Hn]. split; [by rewrite Hpf, Hct|]. by rewrite Hpf, Hal.
  - by rewrite Hpf, Hct.
  - by rewrite Hpf.
Qed.

Lemma session_sim rx : ∀ s io rs s', storage_sim s io → Forall request_ok rx →
  @io_handler_task _ (file_torrent_io sha1 hex_encode) rx s = (rs, Some s') → Forall reply_ok rs →
  ∃ io', io_handler_task rx io = (rs, Some io') ∧ storage_sim s' io'.
Proof.
  induction rx as [|msg rx IH]; intros s io rs s' Hsim Hreq; cbn [io_handler_task].
  { intros [= <- <-] _. by exists io. }
  apply Forall_cons in Hreq as [Hmsg Hreq].
  destruct (@io_handle _ (file_torrent_io sha1 hex_encode) msg s) as [r s1] eqn:Hh.
  destruct (reply_panics r) eqn:Hpan; [done|].
  destruct (@io_handler_task _ (file_torrent_io sha1 hex_encode) rx s1) as [rs1 o] eqn:Ht.
  intros [= <- ->] [Hr Hrs]%Forall_cons.
  assert (∃ io1, io_handle msg io = (r, io1) ∧ storage_sim s1 io1) as (io1 & Hio & Hsim1).
  { destruct msg as [i b len|i b blk]; cbn [io_handle] in *; destruct Hmsg as (? & ? & ?).
    - destruct (read_piece i b len s) as [res s2] eqn:Hrd. injection Hh as <- <-.
      destruct res as [bytes| |]; [|done..].
      destruct (read_sim s io i b len bytes s2) as [Hm Hsim2]; [done..|].
      exists io. split; [|done]. unfold read_piece, memory_torrent_io. by rewrite Hm.
    - destruct (write_piece i b blk s) as [res s2] eqn:Hwr. injection Hh as <- <-.
      destruct res as [fin| |]; [|done..].
      destruct (write_sim s io i b blk fin s2) as (io2 & Hm & Hsim2); [done..|].
      exists io2. split; [|done]. unfold write_piece, memory_torrent_io. by rewrite Hm. }
  destruct (IH s1 io1 rs1 s' Hsim1 Hreq Ht Hrs) as (io' & Ht' & Hsim').
  exists io'. by rewrite Hio, Hpan, Ht'.
Qed.

(** ** Fresh storages *)

Lemma memory_new_length t io : wf_torrent t → MemoryTorrentIO_new t = Ret io →
  length (pieces_memory io) = length (pieces (info t)).
Proof.
  intros Hwf Hio. pose proof Hwf as (Hn & _). unfold MemoryTorrentIO_new in Hio.
  rewrite wf_allocation, bind_ret in Hio by done. inv_bind. cbn [pieces_memory total_pieces].
  rewrite length_app, length_replicate. unfold zlen in *. cbn. lia.
Qed.

Lemma file_new_slices t f s k p : wf_torrent t → FileTorrentIO_new t f = Ret s →
  piece_to_file s !! k = Some p → fp_slices p = Slices_new (size p).
Proof.
  intros Hwf Hs Hk. unfold FileTorrentIO_new in Hs.
  destruct (allocate_torrent t) as [a| |] eqn:Ha; [|done..]. rewrite bind_ret in Hs.
  destruct (set_len _ f) as [r f']. destruct r as [[]| |]; [|done..]. cbn [map_err] in Hs. rewrite bind_ret in Hs.
  destruct (file_pieces_layout t a Hwf Ha (pieces (info t)) 0) as (l & Hl & Hlen & Hlk); [lia|lia|].
  rewrite Hl, bind_ret in Hs. injection Hs as <-. cbn [piece_to_file] in Hk.
  destruct (lookup_lt_is_Some_2 (pieces (info t)) k) as [q Hq].
  { rewrite <-Hlen. by eapply lookup_lt_Some. }
  rewrite (Hlk k q Hq) in Hk. by injection Hk as <-.
Qed.

Lemma fresh_sim t f s io : wf_torrent t → contents f = [] →
  torrent_length (info t) = zlen (pieces (info t)) * piece_length (info t) →
  FileTorrentIO_new t f = Ret s → MemoryTorrentIO_new t = Ret io → storage_sim s io.
Proof.
  intros Hwf Hc Hlen Hs Hio. pose proof (file_new_ok t f s Hwf Hs Hc) as Hok.
  destruct (file_new_inv t f s Hwf Hs Hc) as (Hct & _ & Hpl & Hp).
  destruct (MemoryTorrentIO_new_ok t Hwf) as (io0 & Hio0 & Hm). rewrite Hio in Hio0.
  injection Hio0 as <-. pose proof Hwf as (Hn & Hpz & Hlt & Hmax).
  assert (length (pieces_memory io) = length (pieces (info t))) as Hml by (by apply memory_new_length).
  assert (∀ i, 0 ≤ i < zlen (pieces (info t)) → piece_size t i = piece_length (info t)) as Hsize.
  { intros i Hi. unfold piece_size. rewrite Hlen. nia. }
  assert (∀ k p, piece_to_file s !! k = Some p → (k < length (pieces (info t)))%nat ∧
    size p = piece_length (info t) ∧ start_idx p = piece_length (info t) * Z.of_nat k) as Hplace.
  { intros k p Hk. destruct (Hp (Z.of_nat k) p) as (Hi & Hsz & Hst); [by rewrite Nat2Z.id|lia|].
    rewrite Hsize in Hsz, Hst by done. unfold zlen in Hi. split; [lia|]. split; lia. }
  split; [done| |].
  - apply Forall2_same_length_lookup. split; [lia|]. intros k p m Hk Hmk.
    destruct (Hplace k p Hk) as (Hkl & Hsz & Hst).
    specialize (Hm (Z.of_nat k) ltac:(unfold zlen; lia)). rewrite Nat2Z.id in Hm.
    rewrite Hmk in Hm. injection Hm as ->. rewrite Hsize by (unfold zlen; lia). split; cbn [memory mem_slices Memory_from].
    + rewrite Hct, Hsz, Hst. unfold sub. rewrite drop_replicate, take_replicate. f_equal.
      unfold zlen in *. nia.
    + assert (fp_slices p = Slices_new (size p)) as -> by (by eapply file_new_slices).
      rewrite Hsz. f_equal. unfold zlen at 1. rewrite length_replicate. lia.
  - intros j k p q Hjk Hj Hk. destruct (Hplace j p Hj) as (_ & Hsz & Hst).
    destruct (Hplace k q Hk) as (_ & Hsz' & Hst'). unfold apart. nia.
Qed.
End simulation.

(** * Property *)

(** C15. Equivalence of the two storages: on a torrent whose pieces have one
    size, a session of requests (in range) that all succeed on a fresh file storage gets the
    very same replies from a fresh in-memory storage, each completion and each byte read
    included. *)
Theorem storages_agree {F} `{FileOk F} `{Profile} (sha1 hex_encode : list byte → list byte)
    t f s io rx rs s' :
  wf_torrent t → contents f = [] →
  torrent_length (info t) = zlen (pieces (info t)) * piece_length (info t) →
  FileTorrentIO_new t f = Ret s → MemoryTorrentIO_new t = Ret io →
  Forall request_ok rx → @io_handler_task _ (file_torrent_io sha1 hex_encode) rx s = (rs, Some s') →
  Forall reply_ok rs →
  ∃ io', io_handler_task rx io = (rs, Some io').
Proof.
  intros Hwf Hc Hlen Hs Hio Hreq Ht Hrs.
  destruct (session_sim sha1 hex_encode rx s io rs s') as (io' & Hio' & _); [|done..|by exists io'].
  by eapply fresh_sim.
Qed.

Module StorageExamples.
Import DevProfile FileExamples.

(** Two pieces of four bytes, written in any order and read back. *)
Definition session : list IoMessage :=
  [IoWrite 1 2 (bs "gh"); IoWrite 0 0 (bs "abcd"); IoWrite 1 0 (bs "ef"); IoRead 1 1 2; IoRead 0 0 4].

Definition memory_fresh : MemoryTorrentIO :=
  match MemoryTorrentIO_new (tor 8) with Ret io => io | _ => mkMemoryIO [] end.

Lemma storages_agree_witness : ∃ io', io_handler_task session memory_fresh =
  ([WriteReply (Ret false); WriteReply (Ret true); WriteReply (Ret true);
    ReadReply (Ret (bs "fg")); ReadReply (Ret (bs "abcd"))], Some io').
Proof.
  apply (storages_agree sha hex (tor 8) (mkMemFile [] 0) (fresh 8) memory_fresh session _
    (default (fresh 8) (@io_handler_task _ (file_torrent_io sha hex) session (fresh 8)).2)).
  - vm_compute. split_and!; congruence.
  - reflexivity.
  - reflexivity.
  - reflexivity.
  - reflexivity.
  - repeat constructor; vm_compute; congruence.
  - vm_compute. reflexivity.
  - repeat constructor.
Defined.

(** Where they differ: only the file storage refuses to write a complete piece again. *)
Example storages_differ :
  (@io_handler_task _ (file_torrent_io sha hex) [IoWrite 0 0 (bs "abcd"); IoWrite 0 0 (bs "a")] (fresh 8)).1 =
    [WriteReply (Ret true); WriteReply (Err (AE_Peer (FileAlreadyComplete 0)))] ∧
  (io_handler_task [IoWrite 0 0 (bs "abcd"); IoWrite 0 0 (bs "a")] memory_fresh).1 =
    [WriteReply (Ret true); WriteReply (Ret true)].
Proof. vm_compute. split; reflexivity. Qed.
End StorageExamples.
