(* ===== verification/Piece.v ===== *)
(** The piece tracker, [src/src/peer/state/piece.rs]: which blocks of which
    pieces are requested, arrived, expired, and which to request next.

    [Instant]s and [Duration]s are nanoseconds; the operations that read the
    clock take the instant they read. A [u32] key is a [Z]. *)
From S2P Require Import Prelude ByteStr Model Collections Allocation Slices.
From Stdlib Require Import ZArith Lia.

(** * Data *)
Record BlockDownload := mkDownload { piece_request : PeerRequestedPiece }.

Abbreviation OutstandingBlockRequests := (gmap Z BlockDownload).

Record PieceToBlockKey := mkKey { key_piece_id : Z; key_block_begin : Z }.

#[export] Instance PieceToBlockKey_eq_dec : EqDecision PieceToBlockKey.
Proof. solve_decision. Defined.

Record PieceToBlockMap := mkBlockMap {
  downloading : gmap Z OutstandingBlockRequests;
  done_ : gmap Z OutstandingBlockRequests;
}.

Record InprogressPieceToBlockMap := mkInprogress {
  piece_to_blocks_started : PieceToBlockMap;
  expirations : list (Z * PieceToBlockKey);
}.

Record PieceBlockTracker := mkTracker {
  max_outstanding_requests : Z;
  request_timeout : Z;
  pieces_not_started : gset Z;
  piece_to_blocks_outstanding : InprogressPieceToBlockMap;
  pieces_completed : gset Z;
}.

(** * [PieceToBlockMap] *)
Definition PieceToBlockMap_default : PieceToBlockMap := mkBlockMap ∅ ∅.

Definition Map_set_request_finished (m : PieceToBlockMap) (piece_id begin : Z)
    : option unit * PieceToBlockMap :=
  match downloading m !! piece_id with
  | None => (None, m)
  | Some requests =>
      match requests !! begin with
      | None => (None, m)
      | Some download =>
          let block_map := default ∅ (done_ m !! piece_id) in
          (Some tt, mkBlockMap (<[piece_id := delete begin requests]> (downloading m))
                      (<[piece_id := <[begin := download]> block_map]> (done_ m)))
      end
  end.

(** The answer is whether the piece has a map of downloading requests, not
    whether this request was in it. *)
Definition remove_downloading_request (m : PieceToBlockMap) (piece_id begin : Z)
    : bool * PieceToBlockMap :=
  match downloading m !! piece_id with
  | None => (false, m)
  | Some reqs =>
      (true, mkBlockMap (<[piece_id := delete begin reqs]> (downloading m)) (done_ m))
  end.

Definition remove_piece (m : PieceToBlockMap) (piece_id : Z) : PieceToBlockMap :=
  mkBlockMap (delete piece_id (downloading m)) (delete piece_id (done_ m)).

Definition Map_downloading_requests_len (m : PieceToBlockMap) : Z := total_size (downloading m).

Definition pieces_ (m : PieceToBlockMap) : gset Z := dom (downloading m) ∪ dom (done_ m).

Definition insert_request (m : PieceToBlockMap) (piece_request : PeerRequestedPiece)
    : PieceToBlockMap :=
  let idx := req_index piece_request in
  let download := mkDownload piece_request in
  let block_map := default ∅ (downloading m !! idx) in
  mkBlockMap (<[idx := <[req_begin piece_request := download]> block_map]> (downloading m))
    (done_ m).

(** The entry of a request in its piece's map; removing an occupied entry. *)
Inductive Entry := Occupied (download : BlockDownload) | Vacant.

Definition get_downloading_request_entry (m : PieceToBlockMap) (piece_id begin : Z)
    : option Entry :=
  begin_map ← downloading m !! piece_id;
  Some (match begin_map !! begin with Some d => Occupied d | None => Vacant end).

Definition entry_remove (m : PieceToBlockMap) (piece_id begin : Z) : PieceToBlockMap :=
  mkBlockMap (alter (delete begin) piece_id (downloading m)) (done_ m).

Definition visit_req_map (map : gmap Z OutstandingBlockRequests) (piece_id begin : Z)
    : option BlockDownload :=
  requests ← map !! piece_id; requests !! begin.

Definition contains_inprogress (m : PieceToBlockMap) (piece_id begin : Z)
    : option BlockDownload :=
  match visit_req_map (downloading m) piece_id begin with
  | Some d => Some d
  | None => visit_req_map (done_ m) piece_id begin
  end.

(** * [InprogressPieceToBlockMap] *)
Definition Inprogress_default : InprogressPieceToBlockMap :=
  mkInprogress PieceToBlockMap_default [].

Definition Inprogress_insert (m : InprogressPieceToBlockMap) (started : Z)
    (piece_request : PeerRequestedPiece) : InprogressPieceToBlockMap :=
  let k := mkKey (req_index piece_request) (req_begin piece_request) in
  mkInprogress (insert_request (piece_to_blocks_started m) piece_request)
    (expirations m ++ [(started, k)]).

(** The [while let] loop on the queue: the requests removed, the map and the
    queue left. *)
Fixpoint remove_expired_loop (time ttl : Z) (queue : list (Z * PieceToBlockKey))
    (m : PieceToBlockMap) (acc : list PeerRequestedPiece)
    : list PeerRequestedPiece * InprogressPieceToBlockMap :=
  match queue with
  | [] => (acc, mkInprogress m [])
  | (entry_time, k) :: queue' =>
      let lived_time := Z.max 0 (time - entry_time) in
      if ttl <=? lived_time then
        match get_downloading_request_entry m (key_piece_id k) (key_block_begin k) with
        | Some (Occupied o) =>
            remove_expired_loop time ttl queue'
              (entry_remove m (key_piece_id k) (key_block_begin k)) (acc ++ [piece_request o])
        | _ => remove_expired_loop time ttl queue' m acc
        end
      else (acc, mkInprogress m queue)
  end.

Definition Inprogress_remove_expired (m : InprogressPieceToBlockMap) (time ttl : Z)
    : list PeerRequestedPiece * InprogressPieceToBlockMap :=
  remove_expired_loop time ttl (expirations m) (piece_to_blocks_started m) [].

(** * [PieceBlockAllocation::new] *)
Section allocation.
Context `{Profile} `{HashOrder} {E : Type}.

(** The [for] loop over the beginnings of the blocks: the requests made and
    the capacity left. *)
Fixpoint allocate_blocks (peer_id : InternalPeerId) (piece_id piece_size : Z)
    (requested_requests : PieceToBlockMap) (begins : list Z) (request_capacity : Z)
    (requests_to_make : list PeerRequestedPiece)
    : outcome E (list PeerRequestedPiece * Z) :=
  match begins with
  | [] => Ret (requests_to_make, request_capacity)
  | begin :: begins =>
      if request_capacity =? 0 then Ret (requests_to_make, request_capacity)
      else if bool_decide (is_Some (contains_inprogress requested_requests piece_id (as_u32 begin)))
      then allocate_blocks peer_id piece_id piece_size requested_requests begins
             request_capacity requests_to_make
      else
        request_capacity ← arith 64 (request_capacity - 1);
        end_pos ← arith 64 (begin + PIECE_BLOCK_SIZE);
        length ← (if end_pos >? piece_size then arith 64 (piece_size - begin)
                  else Ret PIECE_BLOCK_SIZE);
        allocate_blocks peer_id piece_id piece_size requested_requests begins request_capacity
          (requests_to_make ++ [mkRequest peer_id piece_id (as_u32 begin) (as_u32 length)])
  end.

Definition PieceBlockAllocation_new (piece_id : Z) (torrent : V1Torrent)
    (peer_ids : gset InternalPeerId) (requested_requests : InprogressPieceToBlockMap)
    (request_capacity : Z) : outcome E (option (list PeerRequestedPiece) * Z) :=
  match head (hash_iter piece_id peer_ids) with
  | Some peer_id =>
      allocation ← allocate_torrent torrent;
      last_piece_id ← arith 32 (as_u32 (zlen (pieces (info torrent))) - 1);
      let piece_size := if piece_id =? last_piece_id then last_piece_size allocation
                        else max_piece_size allocation in
      '(requests_to_make, request_capacity) ←
        allocate_blocks peer_id piece_id piece_size (piece_to_blocks_started requested_requests)
          (step_by piece_size PIECE_BLOCK_SIZE) request_capacity [];
      Ret (Some requests_to_make, request_capacity)
  | None => Ret (None, request_capacity)
  end.
End allocation.

(** * [PieceBlockTracker] *)

Definition set_outstanding (o : InprogressPieceToBlockMap) (t : PieceBlockTracker)
    : PieceBlockTracker :=
  mkTracker (max_outstanding_requests t) (request_timeout t) (pieces_not_started t) o
    (pieces_completed t).

Definition set_started (m : PieceToBlockMap) (t : PieceBlockTracker) : PieceBlockTracker :=
  set_outstanding (mkInprogress m (expirations (piece_to_blocks_outstanding t))) t.

(** The map of started pieces, to which the tracker's fields dereference. *)
Definition started (t : PieceBlockTracker) : PieceToBlockMap :=
  piece_to_blocks_started (piece_to_blocks_outstanding t).

Definition Tracker_new (max_outstanding_requests : Z) (pieces : list V1Piece)
    : PieceBlockTracker :=
  mkTracker max_outstanding_requests (10 * 10 ^ 9)
    (list_to_set (map as_u32 (seqZ 0 (zlen pieces)))) Inprogress_default ∅.

Definition get_incomplete_pieces `{HashOrder} (t : PieceBlockTracker) : list Z :=
  hash_iter 0 (pieces_ (started t)) ++ hash_iter 1 (pieces_not_started t).

Definition get_pieces_completed (t : PieceBlockTracker) : gset Z := pieces_completed t.
Definition pieces_completed_len (t : PieceBlockTracker) : Z := Z.of_nat (size (pieces_completed t)).
Definition downloading_requests_len (t : PieceBlockTracker) : Z :=
  Map_downloading_requests_len (started t).
Definition outstanding_pieces_len (t : PieceBlockTracker) : Z :=
  Z.of_nat (size (pieces_ (started t))).

Definition remove_request (t : PieceBlockTracker) (req : PeerRequestedPiece)
    : bool * PieceBlockTracker :=
  let '(r, m) := remove_downloading_request (started t) (req_index req) (req_begin req) in
  (r, set_started m t).

Definition set_request_finished (t : PieceBlockTracker) (piece_id begin : Z)
    : option unit * PieceBlockTracker :=
  let '(r, m) := Map_set_request_finished (started t) piece_id begin in (r, set_started m t).

Definition set_piece_finished (t : PieceBlockTracker) (piece_id : Z) : PieceBlockTracker :=
  let t := set_started (remove_piece (started t) piece_id) t in
  mkTracker (max_outstanding_requests t) (request_timeout t) (pieces_not_started t)
    (piece_to_blocks_outstanding t) ({[piece_id]} ∪ pieces_completed t).

Definition remove_expired (now : Z) (t : PieceBlockTracker)
    : list PeerRequestedPiece * PieceBlockTracker :=
  let '(r, o) := Inprogress_remove_expired (piece_to_blocks_outstanding t) now (request_timeout t) in
  (r, set_outstanding o t).

Section assignment.
Context `{Profile} `{HashOrder} {E : Type}.

Definition assign_piece (now : Z) (t : PieceBlockTracker) (torrent : V1Torrent) (piece_id : Z)
    (peer_ids : gset InternalPeerId) : outcome E (list PeerRequestedPiece * PieceBlockTracker) :=
  let inflight_requests := downloading_requests_len t in
  capacity ← arith 64 (max_outstanding_requests t - inflight_requests);
  '(assignable_requests_opt, _) ←
    PieceBlockAllocation_new piece_id torrent peer_ids (piece_to_blocks_outstanding t) capacity;
  match assignable_requests_opt with
  | Some allocated_requests =>
      let not_started :=
        if bool_decide (allocated_requests = []) then pieces_not_started t
        else pieces_not_started t ∖ {[piece_id]} in
      let o := fold_left (λ o req, Inprogress_insert o now req) allocated_requests
                 (piece_to_blocks_outstanding t) in
      Ret (allocated_requests,
           mkTracker (max_outstanding_requests t) (request_timeout t) not_started o
             (pieces_completed t))
  | None => Ret ([], t)
  end.

(** The [flat_map] over the pieces, in the order of the [BTreeMap]. The clock
    is read for each piece. *)
Fixpoint assign_pieces (clock : Z → Z) (torrent : V1Torrent)
    (l : list (Z * gset InternalPeerId)) (t : PieceBlockTracker)
    : outcome E (list PeerRequestedPiece * PieceBlockTracker) :=
  match l with
  | [] => Ret ([], t)
  | (piece_id, peers_with_piece) :: l =>
      '(reqs, t) ← assign_piece (clock piece_id) t torrent piece_id peers_with_piece;
      '(rest, t) ← assign_pieces clock torrent l t;
      Ret (reqs ++ rest, t)
  end.

Definition generate_assignments (clock : Z → Z) (torrent : V1Torrent)
    (available_piece_to_peers : gmap Z (gset InternalPeerId)) (t : PieceBlockTracker)
    : outcome E (list PeerRequestedPiece * PieceBlockTracker) :=
  assign_pieces clock torrent (btree_iter available_piece_to_peers) t.
End assignment.

(** * Specification of the block map

    [loading m p b] and [arrived m p b]: the download of block [b] of piece [p]
    that is under way, or over. *)
Definition loading (m : PieceToBlockMap) (p b : Z) : option BlockDownload :=
  visit (downloading m) p b.
Definition arrived (m : PieceToBlockMap) (p b : Z) : option BlockDownload := visit (done_ m) p b.

(** Neither under way nor over: the block may be requested. *)
Definition free (m : PieceToBlockMap) (p b : Z) : Prop := contains_inprogress m p b = None.

#[export] Instance free_dec m p b : Decision (free m p b).
Proof. unfold free. destruct (contains_inprogress m p b); [right|left]; congruence. Defined.

Lemma free_spec m p b : free m p b ↔ loading m p b = None ∧ arrived m p b = None.
Proof.
  unfold free, contains_inprogress, loading, arrived. change visit_req_map with (@visit BlockDownload).
  destruct (visit (downloading m) p b); naive_solver.
Qed.

Lemma insert_request_put m req : insert_request m req =
  mkBlockMap (put (req_index req) (req_begin req) (mkDownload req) (downloading m)) (done_ m).
Proof. done. Qed.

Lemma remove_request_cut m p b : snd (remove_downloading_request m p b) =
  mkBlockMap (cut p b (downloading m)) (done_ m).
Proof.
  unfold remove_downloading_request, cut. rewrite alter_alt.
  destruct m as [d f]. cbn. by destruct (d !! p).
Qed.

(** Finishing a request moves it from one map to the other. *)
Lemma set_request_finished_move m p b : Map_set_request_finished m p b =
  match loading m p b with
  | Some d => (Some tt, mkBlockMap (cut p b (downloading m)) (put p b d (done_ m)))
  | None => (None, m)
  end.
Proof.
  unfold Map_set_request_finished, loading, visit, cut, put. rewrite alter_alt.
  destruct m as [d f]. cbn. destruct (d !! p) as [r|]; cbn; [|done].
  by destruct (r !! b).
Qed.

Lemma pieces_insert m req : pieces_ (insert_request m req) = {[req_index req]} ∪ pieces_ m.
Proof.
  unfold pieces_. rewrite insert_request_put. cbn [downloading done_]. rewrite dom_put. set_solver.
Qed.

(** * Invariant of the tracker *)

Definition key_of (p b : Z) : PieceToBlockKey := mkKey p b.

(** A queue in the order of its times. *)
Definition timed (queue : list (Z * PieceToBlockKey)) : Prop :=
  StronglySorted (λ x y, x.1 ≤ y.1) queue.

(** [n] is the number of pieces and [clock] the last instant read. *)
Record tracker_ok (n clock : Z) (t : PieceBlockTracker) : Prop := {
  ok_max : max_outstanding_requests t < 2 ^ 64;
  ok_capacity : downloading_requests_len t ≤ max_outstanding_requests t;
  ok_keys : ∀ p b d, loading (started t) p b = Some d ∨ arrived (started t) p b = Some d →
    req_index (piece_request d) = p ∧ req_begin (piece_request d) = b;
  ok_moved : ∀ p b, is_Some (loading (started t) p b) → arrived (started t) p b = None;
  ok_not_started : pieces_not_started t ## pieces_ (started t);
  ok_range : ∀ p, p ∈ pieces_not_started t ∪ pieces_ (started t) → 0 ≤ p < n;
  ok_covered : ∀ p, 0 ≤ p < n →
    p ∈ pieces_not_started t ∪ pieces_ (started t) ∪ pieces_completed t;
  ok_expiring : ∀ p b, is_Some (loading (started t) p b) →
    key_of p b ∈ (expirations (piece_to_blocks_outstanding t)).*2;
  ok_timed : timed (expirations (piece_to_blocks_outstanding t));
  ok_clock : Forall (λ x, x.1 ≤ clock) (expirations (piece_to_blocks_outstanding t));
}.

(** ** A request starts *)

Definition start_request (now : Z) (t : PieceBlockTracker) (req : PeerRequestedPiece)
    : PieceBlockTracker :=
  mkTracker (max_outstanding_requests t) (request_timeout t)
    (pieces_not_started t ∖ {[req_index req]})
    (Inprogress_insert (piece_to_blocks_outstanding t) now req) (pieces_completed t).

Lemma loading_start now t req p b : loading (started (start_request now t req)) p b =
  if decide (p = req_index req ∧ b = req_begin req) then Some (mkDownload req)
  else loading (started t) p b.
Proof. apply visit_put. Qed.

Lemma arrived_start now t req p b :
  arrived (started (start_request now t req)) p b = arrived (started t) p b.
Proof. done. Qed.

Lemma len_start now t req : free (started t) (req_index req) (req_begin req) →
  downloading_requests_len (start_request now t req) = 1 + downloading_requests_len t.
Proof. intros [Hl _]%free_spec. by apply put_absent. Qed.

Lemma timed_snoc q now k : timed q → Forall (λ x, x.1 ≤ now) q → timed (q ++ [(now, k)]).
Proof.
  unfold timed. induction q as [|x q IH]; intros Hq Hn; cbn.
  - repeat constructor.
  - apply StronglySorted_inv in Hq as [Hq Hx]. apply Forall_cons in Hn as [? Hn].
    constructor; [by apply IH|]. apply Forall_app. split; [done|]. by repeat constructor.
Qed.

Lemma start_request_ok n clock now t req :
  tracker_ok n clock t → clock ≤ now → 0 ≤ req_index req < n →
  free (started t) (req_index req) (req_begin req) →
  downloading_requests_len t < max_outstanding_requests t →
  tracker_ok n now (start_request now t req).
Proof.
  intros [] Hc Hi Hf Hl. pose proof (len_start now t req Hf) as Hlen.
  pose proof Hf as [Hfl Hfa]%free_spec.
  assert (pieces_ (started (start_request now t req)) = {[req_index req]} ∪ pieces_ (started t))
    as Hpieces by apply pieces_insert.
  assert (Forall (λ x, x.1 ≤ now) (expirations (piece_to_blocks_outstanding t))).
  { eapply Forall_impl; [done|]. cbn. lia. }
  split.
  - done.
  - rewrite Hlen. cbn [start_request max_outstanding_requests]. lia.
  - intros p b d. rewrite loading_start, arrived_start. case_decide; [|auto].
    intros [[= <-]|?]; [naive_solver|]. naive_solver.
  - intros p b. rewrite loading_start, arrived_start. case_decide; [naive_solver|auto].
  - rewrite Hpieces. cbn [start_request pieces_not_started]. set_solver.
  - intros p. rewrite Hpieces. cbn [start_request pieces_not_started]. intros Hp.
    destruct (decide (p = req_index req)) as [->|?]; [done|]. apply ok_range0. set_solver.
  - intros p Hp. rewrite Hpieces. cbn [start_request pieces_not_started pieces_completed].
    specialize (ok_covered0 p Hp). destruct (decide (p = req_index req)); set_solver.
  - intros p b. rewrite loading_start. cbn. rewrite fmap_app. case_decide as Hd; intros Hp.
    + destruct Hd as [-> ->]. set_solver.
    + apply elem_of_app. left. by apply ok_expiring0.
  - by apply timed_snoc.
  - cbn. apply Forall_app. split; [done|]. by repeat constructor.
Qed.

(** A list of requests started one after the other, from a last clock reading to
    another. *)
Inductive starts (n : Z) : Z → PieceBlockTracker → list PeerRequestedPiece →
    Z → PieceBlockTracker → Prop :=
  | starts_nil c c' t : c ≤ c' → starts n c t [] c' t
  | starts_cons c now c' t req reqs t' :
      c ≤ now → 0 ≤ req_index req < n → free (started t) (req_index req) (req_begin req) →
      downloading_requests_len t < max_outstanding_requests t →
      starts n now (start_request now t req) reqs c' t' →
      starts n c t (req :: reqs) c' t'.

Lemma starts_app n c1 t1 l1 c2 t2 l2 c3 t3 :
  starts n c1 t1 l1 c2 t2 → starts n c2 t2 l2 c3 t3 → starts n c1 t1 (l1 ++ l2) c3 t3.
Proof.
  induction 1 as [c c' t Hc|]; cbn; intros Hs; [|by econstructor; eauto].
  inversion Hs; subst; [constructor; lia|]. econstructor; [|done..]. lia.
Qed.

Lemma tracker_ok_clock n c c' t : tracker_ok n c t → c ≤ c' → tracker_ok n c' t.
Proof.
  intros [] Hc. split; try done. eapply Forall_impl; [done|]. cbn. lia.
Qed.

Lemma starts_ok n c t l c' t' : tracker_ok n c t → starts n c t l c' t' → tracker_ok n c' t'.
Proof.
  intros Hok Hs. revert Hok. induction Hs as [c c' t Hc|c now c' t req reqs t' Hc Hi Hf Hl _ IH].
  - intros. by eapply tracker_ok_clock.
  - intros Hok. apply IH. by apply (start_request_ok n c).
Qed.

Lemma starts_max n c t l c' t' : starts n c t l c' t' →
  max_outstanding_requests t' = max_outstanding_requests t.
Proof. by induction 1. Qed.

Lemma starts_len n c t l c' t' : starts n c t l c' t' →
  downloading_requests_len t' = downloading_requests_len t + zlen l.
Proof.
  induction 1 as [|c now c' t req reqs t' Hc Hi Hf Hl _ IH]; [change (zlen _) with 0; lia|].
  rewrite IH, len_start, zlen_cons by done. lia.
Qed.

Lemma starts_arrived n c t l c' t' p b : starts n c t l c' t' →
  arrived (started t') p b = arrived (started t) p b.
Proof. by induction 1. Qed.

(** What is loading afterwards: what was, and the new requests. *)
Lemma starts_loading n c t l c' t' p b d : starts n c t l c' t' →
  loading (started t') p b = Some d ↔
  loading (started t) p b = Some d ∨
  (piece_request d ∈ l ∧ req_index (piece_request d) = p ∧ req_begin (piece_request d) = b).
Proof.
  induction 1 as [|c now c' t req reqs t' Hc Hi Hf Hl _ IH]; [set_solver|].
  rewrite IH, loading_start, elem_of_cons. apply free_spec in Hf as [Hf _].
  case_decide as Hd.
  - destruct Hd as [-> ->]. rewrite Hf. destruct d as [r]. naive_solver.
  - naive_solver.
Qed.

Lemma starts_free n c t l c' t' req : starts n c t l c' t' → req ∈ l →
  free (started t) (req_index req) (req_begin req) ∧ 0 ≤ req_index req < n.
Proof.
  induction 1 as [|c now c' t r reqs t' Hc Hi Hf Hl _ IH]; [by intros ?%elem_of_nil|].
  intros [->|Hin]%elem_of_cons; [done|]. destruct (IH Hin) as [Hfr ?]. split; [|done].
  apply free_spec in Hfr as [Hfl Hfa]. rewrite loading_start in Hfl. case_decide; [done|].
  by apply free_spec.
Qed.

(** No block is requested twice. *)
Lemma starts_NoDup n c t l c' t' : starts n c t l c' t' →
  NoDup (map (λ r, (req_index r, req_begin r)) l).
Proof.
  induction 1 as [|c now c' t r reqs t' Hc Hi Hf Hl Hs IH]; cbn; [constructor|].
  constructor; [|done]. intros (r' & [= Hi' Hb'] & Hin)%list_elem_of_fmap.
  destruct (starts_free _ _ _ _ _ _ _ Hs Hin) as [Hfr _].
  apply free_spec in Hfr as [Hfr _]. rewrite loading_start, decide_True in Hfr by done. done.
Qed.

(** ** [PieceBlockAllocation::new] makes the requests it should *)

Definition block_len (size b : Z) : Z := Z.min PIECE_BLOCK_SIZE (size - b).

Definition block_request (peer : InternalPeerId) (i size b : Z) : PeerRequestedPiece :=
  mkRequest peer i b (block_len size b).

Definition blocks (size : Z) : list Z := step_by size PIECE_BLOCK_SIZE.

Lemma elem_of_blocks size b : b ∈ blocks size ↔ ∃ k, b = k * PIECE_BLOCK_SIZE ∧ 0 ≤ b < size.
Proof. by apply elem_of_step_by. Qed.

Section allocation_facts.
Context `{Profile} `{HashOrderOk} {E : Type}.

Lemma allocate_blocks_spec peer i size m : 0 ≤ size < 2 ^ 32 → ∀ bs cap acc,
  0 ≤ cap < 2 ^ 64 → Forall (λ b, 0 ≤ b < size) bs →
  let new := take (Z.to_nat cap) (filter (free m i) bs) in
  allocate_blocks (E := E) peer i size m bs cap acc =
    Ret (acc ++ map (block_request peer i size) new, cap - zlen new).
Proof.
  intros Hs. induction bs as [|b bs IH]; intros cap acc Hc Hb; cbn [allocate_blocks].
  { rewrite filter_nil, take_nil. cbn. by rewrite app_nil_r, Z.sub_0_r. }
  apply Forall_cons in Hb as [Hb Hbs].
  destruct (Z.eqb_spec cap 0) as [->|Hne].
  { cbn. by rewrite app_nil_r. }
  rewrite (wrap_small 32 b) by lia.
  destruct (decide (free m i b)) as [Hf|Hf].
  - rewrite bool_decide_false by (rewrite Hf; by intros [? ?]).
    rewrite filter_cons_True by done.
    replace (Z.to_nat cap) with (S (Z.to_nat (cap - 1))) by lia. cbn [take map].
    unfold PIECE_BLOCK_SIZE. rewrite !bind_arith by lia.
    assert ((if b + 16384 >? size then arith 64 (size - b) else Ret 16384) =
      Ret (E := E) (block_len size b)) as ->.
    { unfold block_len, PIECE_BLOCK_SIZE. destruct (Z.gtb_spec (b + 16384) size).
      - rewrite arith_ok by lia. f_equal. lia.
      - f_equal. lia. }
    rewrite bind_ret. rewrite IH by (done || lia). rewrite <-app_assoc. cbn [app].
    rewrite (wrap_small 32 (block_len _ _)) by (unfold block_len, PIECE_BLOCK_SIZE; lia).
    f_equal. f_equal. rewrite zlen_cons. lia.
  - rewrite bool_decide_true by (unfold free in Hf; by destruct (contains_inprogress _ _ _)).
    rewrite filter_cons_False by done. by apply IH.
Qed.
End allocation_facts.

(** ** [assign_piece] starts the requests it returns *)

Lemma fold_insert_start now i reqs t : Forall (λ r, req_index r = i) reqs →
  fold_left (start_request now) reqs t =
  mkTracker (max_outstanding_requests t) (request_timeout t)
    (if bool_decide (reqs = []) then pieces_not_started t else pieces_not_started t ∖ {[i]})
    (fold_left (λ o req, Inprogress_insert o now req) reqs (piece_to_blocks_outstanding t))
    (pieces_completed t).
Proof.
  revert t. induction reqs as [|r reqs IH]; intros t Hr; [by destruct t|].
  apply Forall_cons in Hr as [<- Hr]. cbn [fold_left]. rewrite IH by done.
  rewrite (bool_decide_false (r :: reqs = [])) by done.
  cbn [start_request max_outstanding_requests request_timeout pieces_not_started
    piece_to_blocks_outstanding pieces_completed].
  f_equal. case_bool_decide; [done|]. set_solver.
Qed.

Lemma start_blocks n now peer i size bs : 0 ≤ i < n → NoDup bs → ∀ c t,
  c ≤ now → Forall (free (started t) i) bs →
  downloading_requests_len t + zlen bs ≤ max_outstanding_requests t →
  starts n c t (map (block_request peer i size) bs) now
    (fold_left (start_request now) (map (block_request peer i size) bs) t).
Proof.
  intros Hi. induction 1 as [|b bs Hb _ IH]; intros c t Hc Hf Hl; cbn; [by constructor|].
  apply Forall_cons in Hf as [Hfb Hf]. rewrite zlen_cons in Hl.
  apply (starts_cons n c now); [done|done|done|zlia|]. apply IH; [done| |].
  - apply Forall_forall. intros b' Hb'. eapply Forall_forall in Hf; [|done].
    apply free_spec in Hf as [Hfl Hfa]. apply free_spec.
    rewrite loading_start, decide_False; [done|]. cbn. intros [_ ->]. done.
  - rewrite len_start by done. cbn. lia.
Qed.

Section assignment_facts.
Context `{Profile} `{HashOrderOk} {E : Type}.
Context (torrent : V1Torrent) (Hwf : wf_torrent torrent).

Abbreviation n := (zlen (pieces (info torrent))).
Abbreviation size i := (piece_size torrent i).

(** A request for a block of piece [i] from one of the peers [X]. *)
Definition proper (i : Z) (X : gset InternalPeerId) (r : PeerRequestedPiece) : Prop :=
  ∃ peer b, peer ∈ X ∧ b ∈ blocks (size i) ∧ r = block_request peer i (size i) b.

(** Nothing more can be asked of piece [i]. *)
Definition saturated (i : Z) (t : PieceBlockTracker) : Prop :=
  downloading_requests_len t = max_outstanding_requests t ∨
  ∀ b, b ∈ blocks (size i) → ¬ free (started t) i b.

Lemma PieceBlockAllocation_new_spec i X o cap : 0 ≤ i < n → 0 ≤ cap < 2 ^ 64 →
  let new := take (Z.to_nat cap) (filter (free (piece_to_blocks_started o) i) (blocks (size i))) in
  PieceBlockAllocation_new (E := E) i torrent X o cap =
    match head (hash_iter i X) with
    | Some peer => Ret (Some (map (block_request peer i (size i)) new), cap - zlen new)
    | None => Ret (None, cap)
    end.
Proof.
  intros Hi Hc. unfold PieceBlockAllocation_new. destruct (head _) as [peer|]; [|done].
  rewrite wf_allocation, bind_ret by done.
  pose proof Hwf as (Hn & Hpl & _). pose proof (piece_size_range torrent i Hwf Hi).
  rewrite (wrap_small 32) by lia. rewrite bind_arith by lia.
  assert ((if i =? n - 1 then piece_size torrent (n - 1) else piece_length (info torrent)) = size i)
    as Hsize.
  { destruct (Z.eqb_spec i (n - 1)) as [->|?]; [done|]. unfold piece_size.
    destruct Hwf as (_ & _ & Hlen & _). nia. }
  cbn [last_piece_size max_piece_size]. rewrite Hsize.
  rewrite allocate_blocks_spec; [done|lia|done|].
  apply Forall_forall. intros b (k & -> & ?)%elem_of_blocks. lia.
Qed.

Lemma assign_piece_starts c now t i X : tracker_ok n c t → 0 ≤ i < n → c ≤ now →
  ∃ reqs t', assign_piece (E := E) now t torrent i X = Ret (reqs, t') ∧
    starts n c t reqs now t' ∧ Forall (proper i X) reqs ∧ (X ≠ ∅ → saturated i t').
Proof.
  intros Hok Hi Hc. destruct Hok as [Hmax Hcap _ _ _ _ _ _ _ _].
  assert (0 ≤ downloading_requests_len t) by apply total_size_nonneg.
  unfold assign_piece. rewrite bind_arith by lia.
  rewrite PieceBlockAllocation_new_spec by lia.
  destruct (head _) as [peer|] eqn:Hpeer; rewrite bind_ret.
  2: { exists [], t. split_and!; [done|by constructor|by constructor|].
       by apply head_hash_iter_None in Hpeer. }
  set (new := take _ _). set (reqs := map _ new).
  assert (new ⊆ filter (free (started t) i) (blocks (size i))) as Hsub by apply subseteq_take.
  assert (zlen new ≤ max_outstanding_requests t - downloading_requests_len t) as Hlen.
  { unfold zlen, new. rewrite length_take. lia. }
  assert (Forall (λ r, req_index r = i) reqs) as Hidx by (subst reqs; by apply Forall_map, Forall_true).
  eexists reqs, _. split; [reflexivity|]. rewrite <-(fold_insert_start now i reqs t) by done.
  assert (starts n c t reqs now (fold_left (start_request now) reqs t)) as Hs.
  { apply start_blocks; [done| |done| |lia].
    - apply (sublist_NoDup _ (filter (free (started t) i) (blocks (size i)))); [|apply sublist_take].
      apply NoDup_filter. by apply step_by_NoDup.
    - apply Forall_forall. intros b Hb. by apply Hsub, list_elem_of_filter in Hb as [? _]. }
  split_and!; [done| |].
  - apply Forall_map, Forall_forall. intros b Hb. apply Hsub, list_elem_of_filter in Hb as [_ Hb].
    exists peer, b. apply head_hash_iter_Some in Hpeer. done.
  - intros _. unfold saturated. rewrite (starts_max _ _ _ _ _ _ Hs), (starts_len _ _ _ _ _ _ Hs).
    unfold reqs at 1, zlen. rewrite length_map. fold (zlen new).
    destruct (decide (zlen new = max_outstanding_requests t - downloading_requests_len t)) as [He|He];
      [left; lia|right].
    intros b Hb Hf. assert (b ∈ new) as Hnew.
    { unfold new. rewrite take_ge.
      - apply list_elem_of_filter. split; [|done]. apply free_spec in Hf as [Hfl Hfa].
        apply free_spec. rewrite (starts_arrived _ _ _ _ _ _ _ _ Hs) in Hfa. split; [|done].
        destruct (loading (started t) i b) as [d|] eqn:Hd; [|done].
        assert (loading (started (fold_left (start_request now) reqs t)) i b = Some d); [|congruence].
        apply (starts_loading _ _ _ _ _ _ _ _ _ Hs). by left.
      - unfold zlen, new in He. rewrite length_take in He. lia. }
    apply free_spec in Hf as [Hfl _].
    assert (loading (started (fold_left (start_request now) reqs t)) i b =
      Some (mkDownload (block_request peer i (size i) b))); [|congruence].
    apply (starts_loading _ _ _ _ _ _ _ _ _ Hs). right. cbn. split; [|done].
    apply list_elem_of_fmap. by exists b.
Qed.

Lemma saturated_starts c t l c' t' i : tracker_ok n c' t' →
  starts n c t l c' t' → saturated i t → saturated i t'.
Proof.
  intros Hok Hs Hsat. unfold saturated.
  destruct Hsat as [Hsat|Hsat].
  - left. pose proof (ok_capacity _ _ _ Hok) as Hcap. revert Hcap.
    rewrite (starts_max _ _ _ _ _ _ Hs), (starts_len _ _ _ _ _ _ Hs), Hsat. zlia.
  - right. intros b Hb Hf. apply (Hsat b Hb). apply free_spec in Hf as [Hfl Hfa].
    rewrite (starts_arrived _ _ _ _ _ _ _ _ Hs) in Hfa. apply free_spec. split; [|done].
    destruct (loading (started t) i b) as [d|] eqn:Hd; [|done].
    rewrite (proj2 (starts_loading _ _ _ _ _ _ i b d Hs)) in Hfl; [done|by left].
Qed.

(** [generate_assignments], over any list of pieces. *)
Lemma assign_pieces_starts clock l : (∀ p q, p ≤ q → clock p ≤ clock q) →
  StronglySorted key_le l → Forall (λ x, 0 ≤ x.1 < n) l →
  ∀ c t, tracker_ok n c t → Forall (λ x, c ≤ clock x.1) l →
  ∃ reqs c' t', assign_pieces (E := E) clock torrent l t = Ret (reqs, t') ∧
    starts n c t reqs c' t' ∧ Forall (λ r, ∃ x, x ∈ l ∧ proper x.1 x.2 r) reqs ∧
    Forall (λ x, x.2 ≠ ∅ → saturated x.1 t') l ∧
    (∀ c2, c ≤ c2 → Forall (λ x, clock x.1 ≤ c2) l → c' ≤ c2).
Proof.
  intros Hmono. induction l as [|[i X] l IH]; intros Hl Hr c t Hok Hc; cbn [assign_pieces].
  { exists [], c, t. split_and!; [done|by constructor|constructor|constructor|done]. }
  apply StronglySorted_inv in Hl as [Hl Hi]. apply Forall_cons in Hr as [Hri Hr].
  apply Forall_cons in Hc as [Hci Hc].
  destruct (assign_piece_starts c (clock i) t i X) as (reqs1 & t1 & -> & Hs1 & Hp1 & Hsat1); [done..|].
  pose proof (starts_ok _ _ _ _ _ _ Hok Hs1) as Hok1.
  destruct (IH Hl Hr (clock i) t1) as (reqs2 & c2 & t2 & Ha & Hs2 & Hp2 & Hsat2 & Hc2); [done| |].
  { eapply Forall_impl; [exact Hi|]. intros x Hx. apply Hmono, Hx. }
  rewrite bind_ret, Ha, bind_ret. exists (reqs1 ++ reqs2), c2, t2.
  pose proof (starts_ok _ _ _ _ _ _ Hok1 Hs2) as Hok2. split_and!.
  - done.
  - by eapply starts_app.
  - apply Forall_app. split.
    + eapply Forall_impl; [done|]. intros r Hr'. exists (i, X). split; [left|done].
    + eapply Forall_impl; [done|]. intros r (x & Hx & Hr'). exists x. split; [by right|done].
  - constructor; [|done]. intros HX. by eapply saturated_starts; [| |apply Hsat1].
  - intros c3 Hc3 [Hx Hl3]%Forall_cons. by apply Hc2.
Qed.
End assignment_facts.

(** ** Expiry *)

Definition aged (time ttl : Z) (x : Z * PieceToBlockKey) : Prop := ttl ≤ Z.max 0 (time - x.1).

(** Drop the loading requests of some keys. *)
Definition drop_keys (ks : list PieceToBlockKey) (m : PieceToBlockMap) : PieceToBlockMap :=
  fold_left (λ m k, entry_remove m (key_piece_id k) (key_block_begin k)) ks m.

Lemma loading_remove m p b p' b' : loading (entry_remove m p b) p' b' =
  if decide (p' = p ∧ b' = b) then None else loading m p' b'.
Proof. apply visit_cut. Qed.

Lemma entry_remove_id m p b : loading m p b = None → entry_remove m p b = m.
Proof.
  intros Hl. unfold entry_remove. destruct m as [d f]. f_equal. by apply (cut_id d p b).
Qed.

Lemma get_entry_loading m p b : 
  match get_downloading_request_entry m p b with Some (Occupied d) => Some d | _ => None end =
  loading m p b.
Proof.
  unfold get_downloading_request_entry, loading, visit.
  destruct (downloading m !! p) as [r|]; cbn; [|done]. by destruct (r !! b).
Qed.

(** The loop removes the downloads of a prefix of the queue, all of them old,
    and stops at the first that is not. *)
Lemma remove_expired_loop_spec time ttl q : ∀ m acc, ∃ q1 q2 rs,
  q = q1 ++ q2 ∧ Forall (aged time ttl) q1 ∧
  (∀ x, head q2 = Some x → ¬ aged time ttl x) ∧
  remove_expired_loop time ttl q m acc = (acc ++ rs, mkInprogress (drop_keys q1.*2 m) q2) ∧
  ∀ r, r ∈ rs ↔ ∃ p b, key_of p b ∈ q1.*2 ∧ loading m p b = Some (mkDownload r).
Proof.
  induction q as [|[s k] q IH]; intros m acc; cbn [remove_expired_loop].
  { exists [], [], []. split_and!; [done|constructor|done|by rewrite app_nil_r|set_solver]. }
  destruct (Z.leb_spec ttl (Z.max 0 (time - s))) as [Ha|Ha].
  2: { exists [], ((s, k) :: q), []. split_and!; [done|constructor| |by rewrite app_nil_r|set_solver].
       intros x [= <-]. unfold aged. cbn. lia. }
  destruct k as [p b]. cbn [key_piece_id key_block_begin].
  pose proof (get_entry_loading m p b) as He. destruct (loading m p b) as [[r0]|] eqn:Hl.
  - destruct (get_downloading_request_entry m p b) as [[d|]|]; [|done..]. injection He as ->.
    destruct (IH (entry_remove m p b) (acc ++ [r0])) as (q1 & q2 & rs & -> & Hq1 & Hq2 & Hrun & Hrs).
    exists ((s, mkKey p b) :: q1), q2, (r0 :: rs). split_and!; [done|by constructor|done| |].
    { cbn [piece_request]. by rewrite Hrun, <-app_assoc. }
    intros r. rewrite elem_of_cons, Hrs. cbn [fmap list_fmap snd]. setoid_rewrite elem_of_cons.
    setoid_rewrite loading_remove. split.
    + intros [->|(p' & b' & Hk & Hr)]; [by exists p, b; auto|]. case_decide; [done|].
      exists p', b'. auto.
    + intros (p' & b' & Hk & Hr). destruct (decide (p' = p ∧ b' = b)) as [[-> ->]|Hne].
      * left. congruence.
      * right. exists p', b'. rewrite decide_False by done. split; [|done].
        destruct Hk as [[= -> ->]|Hk]; [by destruct Hne|done].
  - destruct (IH m acc) as (q1 & q2 & rs & -> & Hq1 & Hq2 & Hrun & Hrs).
    exists ((s, mkKey p b) :: q1), q2, rs. split_and!; [done|by constructor|done| |].
    { cbn. rewrite entry_remove_id by done.
      destruct (get_downloading_request_entry m p b) as [[d|]|]; [done|exact Hrun..]. }
    intros r. rewrite Hrs. cbn [fmap list_fmap snd]. setoid_rewrite elem_of_cons. split.
    + intros (p' & b' & ? & ?). exists p', b'. auto.
    + intros (p' & b' & [[= -> ->]|Hk] & Hr); [congruence|by exists p', b'].
Qed.

Lemma loading_drop ks m p b :
  loading (drop_keys ks m) p b = if decide (key_of p b ∈ ks) then None else loading m p b.
Proof.
  revert m. induction ks as [|[p' b'] ks IH]; intros m; cbn [drop_keys fold_left]; [done|].
  change (fold_left _ ks ?m) with (drop_keys ks m). rewrite IH, loading_remove.
  cbn [key_piece_id key_block_begin]. unfold key_of.
  destruct (decide (mkKey p b ∈ ks)); [by rewrite decide_True by (by right)|].
  destruct (decide (p = p' ∧ b = b')) as [[-> ->]|Hne]; [by rewrite decide_True by left|].
  rewrite decide_False; [done|]. intros [[= -> ->]|?]%elem_of_cons; [by destruct Hne|done].
Qed.

Lemma arrived_drop ks m p b : arrived (drop_keys ks m) p b = arrived m p b.
Proof. revert m. induction ks as [|k ks IH]; intros m; [done|]. cbn. by rewrite IH. Qed.

Lemma pieces_drop ks m : pieces_ (drop_keys ks m) = pieces_ m.
Proof.
  revert m. induction ks as [|k ks IH]; intros m; [done|]. cbn. rewrite IH.
  unfold pieces_, entry_remove. cbn [downloading done_]. f_equal. apply dom_cut.
Qed.

Lemma len_drop ks m :
  Map_downloading_requests_len (drop_keys ks m) ≤ Map_downloading_requests_len m.
Proof.
  revert m. induction ks as [|k ks IH]; intros m; [done|]. cbn.
  etrans; [apply IH|]. apply cut_size_le.
Qed.

(** ** Every operation preserves the invariant *)

(** Requests leave the map of downloads, for the map of arrived blocks or for
    good, pieces leave for the set of completed pieces, and the queue of
    expirations loses its front. *)
Lemma shrink_ok n c now t m q1 q2 completed :
  tracker_ok n c t → c ≤ now →
  expirations (piece_to_blocks_outstanding t) = q1 ++ q2 →
  Map_downloading_requests_len m ≤ downloading_requests_len t →
  (∀ p b d, loading m p b = Some d → loading (started t) p b = Some d ∧ key_of p b ∉ q1.*2) →
  (∀ p b d, arrived m p b = Some d → arrived (started t) p b = Some d ∨
    loading (started t) p b = Some d ∧ loading m p b = None) →
  pieces_ m ⊆ pieces_ (started t) → pieces_ (started t) ⊆ pieces_ m ∪ completed →
  pieces_completed t ⊆ completed →
  tracker_ok n now (mkTracker (max_outstanding_requests t) (request_timeout t)
    (pieces_not_started t) (mkInprogress m q2) completed).
Proof.
  intros [Hmax Hcap Hkeys Hmoved Hns Hrange Hcov Hexp Htimed Hclock] Hc Hq Hlen Hl Ha Hp Hp' Hcomp.
  rewrite Hq in *. split; cbn; try done.
  - unfold downloading_requests_len, started in *. cbn. lia.
  - intros p b d [Hd|Hd]; apply Hkeys; [by left; apply Hl|]. apply Ha in Hd. naive_solver.
  - intros p b [d Hd]. destruct (Hl _ _ _ Hd) as [Hd' _].
    destruct (arrived m p b) as [d'|] eqn:Hd2; [|done]. exfalso.
    apply Ha in Hd2 as [Hd2|[_ Hd2]]; [|congruence].
    rewrite Hmoved in Hd2 by eauto. done.
  - set_solver.
  - intros p. intros Hpp. apply Hrange. set_solver.
  - intros p Hpr. specialize (Hcov p Hpr). set_solver.
  - intros p b [d Hd]. destruct (Hl _ _ _ Hd) as [Hd' Hnq].
    specialize (Hexp p b (mk_is_Some _ _ Hd')). rewrite fmap_app in Hexp.
    by apply elem_of_app in Hexp as [?|?].
  - unfold timed in *. by apply StronglySorted_app in Htimed as (_ & _ & ?).
  - apply Forall_app in Hclock as [_ Hclock]. eapply Forall_impl; [done|]. cbn. lia.
Qed.

Lemma set_request_finished_ok n c t p b : tracker_ok n c t →
  tracker_ok n c (snd (set_request_finished t p b)).
Proof.
  intros Hok. unfold set_request_finished. rewrite set_request_finished_move.
  destruct (loading (started t) p b) as [d|] eqn:Hd; [|by destruct t as [? ? ? [] ?]].
  apply (shrink_ok n c c t _ [] _ _ Hok); [lia|done| | | | | |].
  - apply cut_size_le.
  - intros p' b' d' Hl. unfold loading in Hl. cbn in Hl. rewrite visit_cut in Hl.
    case_decide; [done|]. split; [done|by apply not_elem_of_nil].
  - intros p' b' d'. unfold arrived, loading. cbn. rewrite visit_put, visit_cut. case_decide as Hk.
    + destruct Hk as [-> ->]. intros [= <-]. by right.
    + by left.
  - unfold pieces_. cbn. rewrite dom_cut, dom_put. apply visit_dom in Hd. set_solver.
  - unfold pieces_. cbn. rewrite dom_cut, dom_put. set_solver.
  - done.
Qed.

Lemma remove_request_ok n c t req : tracker_ok n c t →
  tracker_ok n c (snd (remove_request t req)).
Proof.
  intros Hok. unfold remove_request.
  pose proof (remove_request_cut (started t) (req_index req) (req_begin req)) as Hm.
  destruct (remove_downloading_request _ _ _) as [r m]. cbn in Hm. subst m.
  apply (shrink_ok n c c t _ [] _ _ Hok); [lia|done| | | | |set_solver|done].
  - apply cut_size_le.
  - intros p' b' d' Hl. unfold loading in Hl. cbn in Hl. rewrite visit_cut in Hl.
    case_decide; [done|]. split; [done|by apply not_elem_of_nil].
  - intros p' b' d'. by left.
  - unfold pieces_. cbn. by rewrite dom_cut.
Qed.

Lemma set_piece_finished_ok n c t p : tracker_ok n c t → tracker_ok n c (set_piece_finished t p).
Proof.
  intros Hok. unfold set_piece_finished. 
  apply (shrink_ok n c c t _ [] _ _ Hok); [lia|done| | | | | |set_solver].
  - apply total_size_delete_le.
  - intros p' b' d' Hl. unfold loading in Hl. cbn in Hl. rewrite visit_delete in Hl.
    case_decide; [done|]. split; [done|by apply not_elem_of_nil].
  - intros p' b' d' Ha. unfold arrived in Ha. cbn in Ha. rewrite visit_delete in Ha.
    case_decide; [done|]. by left.
  - unfold pieces_. cbn. rewrite !dom_delete_L. set_solver.
  - unfold pieces_. cbn. rewrite !dom_delete_L. intros x Hx.
    destruct (decide (x = p)); set_solver.
Qed.

(** What the expiry does, and that it preserves the invariant. *)
Lemma remove_expired_spec n c now t rs t' : tracker_ok n c t → c ≤ now →
  remove_expired now t = (rs, t') →
  tracker_ok n now t' ∧
  (∀ x, x ∈ expirations (piece_to_blocks_outstanding t') → ¬ aged now (request_timeout t) x) ∧
  (∀ p b d, loading (started t') p b = Some d ↔
    loading (started t) p b = Some d ∧ piece_request d ∉ rs) ∧
  (∀ r, r ∈ rs → loading (started t) (req_index r) (req_begin r) = Some (mkDownload r) ∧
    ∃ s, (s, key_of (req_index r) (req_begin r)) ∈ expirations (piece_to_blocks_outstanding t) ∧
      aged now (request_timeout t) (s, key_of (req_index r) (req_begin r))) ∧
  (∀ r s, loading (started t) (req_index r) (req_begin r) = Some (mkDownload r) →
    (s, key_of (req_index r) (req_begin r)) ∈ expirations (piece_to_blocks_outstanding t) →
    aged now (request_timeout t) (s, key_of (req_index r) (req_begin r)) → r ∈ rs) ∧
  (∀ p b, arrived (started t') p b = arrived (started t) p b).
Proof.
  intros Hok Hc. unfold remove_expired, Inprogress_remove_expired.
  destruct (remove_expired_loop_spec now (request_timeout t)
    (expirations (piece_to_blocks_outstanding t)) (started t) [])
    as (q1 & q2 & rs' & Hq & Hq1 & Hq2 & Hrun & Hrs).
  change (piece_to_blocks_started _) with (started t). rewrite Hrun. intros [= <- <-]. cbn [app].
  pose proof Hok as [_ _ Hkeys _ _ _ _ Hexp Htimed _].
  assert (∀ x, x ∈ q2 → ¬ aged now (request_timeout t) x) as Hyoung.
  { intros x Hx Hage. rewrite Hq in Htimed. apply StronglySorted_app in Htimed as (_ & _ & Hs).
    destruct q2 as [|y q2]; [by apply elem_of_nil in Hx|]. apply (Hq2 y); [done|].
    apply elem_of_cons in Hx as [->|Hx]; [done|]. apply StronglySorted_inv in Hs as [_ Hs].
    eapply Forall_forall in Hs; [|done]. unfold aged in *. cbn in Hs. lia. }
  split_and!.
  - apply (shrink_ok n c now t _ q1 _ _ Hok); [done|done| | | | | |done].
    + apply len_drop.
    + intros p b d. rewrite loading_drop. by case_decide.
    + intros p b d. rewrite arrived_drop. by left.
    + by rewrite pieces_drop.
    + rewrite pieces_drop. set_solver.
  - exact Hyoung.
  - intros p b d. cbn. rewrite loading_drop. split.
    + case_decide as Hk; [done|]. intros Hd. split; [done|]. rewrite Hrs. intros (p' & b' & Hk' & Hd').
      destruct (Hkeys p b d) as [? ?]; [by left|].
      destruct (Hkeys p' b' _ (or_introl Hd')) as [? ?]. cbn in *. by subst.
    + intros [Hd Hn]. rewrite decide_False; [done|]. intros Hk. apply Hn, Hrs.
      exists p, b. by destruct d.
  - intros r (p & b & Hk & Hd)%Hrs. destruct (Hkeys p b _ (or_introl Hd)) as [Hp Hb].
    cbn in Hp, Hb. subst p b. split; [done|].
    apply list_elem_of_fmap in Hk as ([s k] & -> & Hk). exists s. split.
    + rewrite Hq. apply elem_of_app. by left.
    + by eapply Forall_forall in Hq1.
  - intros r s Hd Hs Ha. apply Hrs. exists (req_index r), (req_begin r). split; [|done].
    rewrite Hq in Hs. apply elem_of_app in Hs as [Hs|Hs]; [|by apply Hyoung in Hs].
    apply list_elem_of_fmap. by exists (s, key_of (req_index r) (req_begin r)).
  - intros p b. cbn. by rewrite arrived_drop.
Qed.

Lemma Tracker_new_ok c max l : 0 ≤ max < 2 ^ 64 → zlen l < 2 ^ 32 →
  tracker_ok (zlen l) c (Tracker_new max l).
Proof.
  intros Hm Hl. split; cbn.
  - lia.
  - unfold downloading_requests_len, Map_downloading_requests_len. cbn.
    rewrite total_size_empty. lia.
  - intros p b d. unfold loading, arrived. cbn. rewrite !visit_empty. naive_solver.
  - intros p b. unfold arrived. cbn. by rewrite visit_empty.
  - unfold started, pieces_. cbn. set_solver.
  - intros p. unfold started, pieces_. cbn. rewrite !dom_empty_L, elem_of_union, elem_of_list_to_set,
      list_elem_of_fmap. intros [(k & -> & Hk%elem_of_seqZ)|?]; [|set_solver].
    by rewrite wrap_small by lia.
  - intros p Hp. apply elem_of_union. left. apply elem_of_union. left.
    rewrite elem_of_list_to_set, list_elem_of_fmap. exists p.
    rewrite wrap_small by lia. by rewrite elem_of_seqZ.
  - intros p b. unfold loading. cbn. rewrite visit_empty. by intros [].
  - constructor.
  - constructor.
Qed.

(** ** [generate_assignments] *)

Section generate_facts.
Context `{Profile} `{HashOrderOk} {E : Type}.
Context (torrent : V1Torrent) (Hwf : wf_torrent torrent).

Abbreviation n := (zlen (pieces (info torrent))).
Abbreviation size i := (piece_size torrent i).

(** The clock does not go back while the pieces are visited. *)
Definition clock_ok (c : Z) (clock : Z → Z) (avail : gmap Z (gset InternalPeerId)) : Prop :=
  (∀ p q, p ≤ q → clock p ≤ clock q) ∧ ∀ p, p ∈ dom avail → 0 ≤ p < n ∧ c ≤ clock p.

Lemma generate_starts clock avail c t : tracker_ok n c t → clock_ok c clock avail →
  ∃ reqs c' t', generate_assignments (E := E) clock torrent avail t = Ret (reqs, t') ∧
    starts n c t reqs c' t' ∧ Forall (λ r, ∃ i X, avail !! i = Some X ∧ proper torrent i X r) reqs ∧
    (∀ i X, avail !! i = Some X → X ≠ ∅ → saturated torrent i t') ∧
    (∀ c2, c ≤ c2 → (∀ p, p ∈ dom avail → clock p ≤ c2) → c' ≤ c2).
Proof.
  intros Hok [Hmono Havail].
  assert (∀ x, x ∈ btree_iter avail → x.1 ∈ dom avail) as Hdom.
  { intros [i X] Hx%elem_of_btree_iter. by apply elem_of_dom_2 in Hx. }
  destruct (assign_pieces_starts (E := E) torrent Hwf clock (btree_iter avail) Hmono
    (btree_iter_sorted avail)) with (c := c) (t := t)
    as (reqs & c' & t' & Hrun & Hs & Hp & Hsat & Hc'); [|done| |].
  - apply Forall_forall. intros x Hx. by apply Havail, Hdom.
  - apply Forall_forall. intros x Hx. by apply Havail, Hdom.
  - exists reqs, c', t'. split_and!; [done|done| | |].
    + eapply Forall_impl; [done|]. intros r ([i X] & Hx%elem_of_btree_iter & Hr). by exists i, X.
    + intros i X Hi. rewrite Forall_forall in Hsat. apply (Hsat (i, X)).
      by apply elem_of_btree_iter.
    + intros c2 Hc2 Hcl. apply Hc'; [done|]. apply Forall_forall. intros x Hx. by apply Hcl, Hdom.
Qed.

(** The blocks of a piece, as the slices they are. *)
Definition block_slices (i : Z) : list (Z * Z) := map (λ b, (b, block_len (size i) b)) (blocks (size i)).

Lemma block_slices_tile i : 0 ≤ i < n →
  slices_in (size i) (block_slices i) ∧ disjoint_slices (block_slices i) ∧
  ∀ x, 0 ≤ x < size i → asked (block_slices i) x.
Proof.
  intros Hi. pose proof (piece_size_range torrent i Hwf Hi) as Hsz. unfold block_slices. split_and!.
  - apply Forall_map, Forall_forall. intros b (k & -> & ?)%elem_of_blocks. cbn.
    unfold block_len, PIECE_BLOCK_SIZE in *. lia.
  - intros j1 j2 p q x Hp Hq Hxp Hxq. apply list_lookup_fmap_Some in Hp as (b1 & -> & Hb1).
    apply list_lookup_fmap_Some in Hq as (b2 & -> & Hb2). cbn in *.
    pose proof (proj1 (elem_of_blocks (size i) b1) (list_elem_of_lookup_2 _ _ _ Hb1)) as (k1 & Hk1 & ?).
    pose proof (proj1 (elem_of_blocks (size i) b2) (list_elem_of_lookup_2 _ _ _ Hb2)) as (k2 & Hk2 & ?).
    assert (b1 = b2) as ->.
    { unfold block_len, PIECE_BLOCK_SIZE in *. assert (k1 = k2) by lia. by subst. }
    eapply (NoDup_lookup (blocks (size i))); [by apply step_by_NoDup|done..].
  - intros x Hx. exists (x / 16384 * 16384, block_len (size i) (x / 16384 * 16384)).
    pose proof (Z.div_mod x 16384 ltac:(lia)). pose proof (Z.mod_pos_bound x 16384 ltac:(lia)).
    split.
    + apply list_elem_of_fmap. eexists. split; [reflexivity|]. apply elem_of_blocks.
      exists (x / 16384). unfold PIECE_BLOCK_SIZE. lia.
    + cbn. unfold block_len, PIECE_BLOCK_SIZE. lia.
Qed.
End generate_facts.

Lemma slices_in_perm n l k : l ≡ₚ k → slices_in n l → slices_in n k.
Proof. intros Hp. unfold slices_in. by rewrite Hp. Qed.

Lemma asked_perm l k x : l ≡ₚ k → asked l x → asked k x.
Proof. intros Hp (p & Hin & ?). exists p. by rewrite <-Hp. Qed.

Lemma disjoint_slices_perm l k : l ≡ₚ k → disjoint_slices l → disjoint_slices k.
Proof.
  intros Hp Hd i j p q x Hi Hj Hxp Hxq. symmetry in Hp.
  apply Permutation_inj in Hp as (_ & f & Hf & Hk). rewrite Hk in Hi, Hj.
  apply Hf. by eapply Hd.
Qed.

(** * Runs of the tracker

    The operations in any order, with the clock going forward. The processor
    asks for assignments on incomplete pieces. *)
Inductive tracker_step `{Profile} (torrent : V1Torrent) :
    Z * PieceBlockTracker → Z * PieceBlockTracker → Prop :=
  | step_request_finished c t p b :
      tracker_step torrent (c, t) (c, snd (set_request_finished t p b))
  | step_piece_finished c t p : tracker_step torrent (c, t) (c, set_piece_finished t p)
  | step_remove_request c t req : tracker_step torrent (c, t) (c, snd (remove_request t req))
  | step_expire c now t :
      c ≤ now → tracker_step torrent (c, t) (now, snd (remove_expired now t))
  | step_assign c c' t (O : HashOrder) clock avail reqs t' :
      HashOrderOk O → clock_ok torrent c clock avail →
      (∀ p, p ∈ dom avail → p ∈ get_incomplete_pieces t) →
      generate_assignments (E := unit) clock torrent avail t = Ret (reqs, t') →
      c ≤ c' → (∀ p, p ∈ dom avail → clock p ≤ c') →
      tracker_step torrent (c, t) (c', t').

Lemma tracker_step_ok `{Profile} torrent x y : wf_torrent torrent →
  tracker_step torrent x y → tracker_ok (zlen (pieces (info torrent))) x.1 x.2 →
  tracker_ok (zlen (pieces (info torrent))) y.1 y.2.
Proof.
  intros Hwf Hs Hok. destruct Hs as [c t p b|c t p|c t req|c now t Hc|c c' t O clock avail reqs t'
    HO Hclk Hav Hrun Hc Hc']; cbn in *.
  - by apply set_request_finished_ok.
  - by apply set_piece_finished_ok.
  - by apply remove_request_ok.
  - destruct (remove_expired now t) as [rs t'] eqn:Hrun. by eapply remove_expired_spec.
  - destruct (generate_starts (E := unit) torrent Hwf clock avail c t Hok Hclk)
      as (reqs' & c2 & t2 & Hrun' & Hs & _ & _ & Hle).
    rewrite Hrun' in Hrun. injection Hrun as -> ->.
    eapply tracker_ok_clock; [by eapply starts_ok|]. by apply Hle.
Qed.

(** ** Which pieces are started *)

Lemma starts_pieces n c t l c' t' : starts n c t l c' t' →
  pieces_ (started t') = list_to_set (map req_index l) ∪ pieces_ (started t) ∧
  pieces_not_started t' ⊆ pieces_not_started t ∧ pieces_completed t' = pieces_completed t.
Proof.
  induction 1 as [|c now c' t r reqs t' Hc Hi Hf Hl Hs (IH & Hn & Hd)]; cbn [map list_to_set].
  - split_and!; [set_solver|done|done].
  - rewrite IH. change (pieces_ (started (start_request now t r))) with
      (pieces_ (insert_request (started t) r)).
    rewrite pieces_insert. split_and!; [set_solver| |done].
    etrans; [exact Hn|]. cbn. set_solver.
Qed.

(** Completed, and neither started nor waiting to start. *)
Definition settled (p : Z) (t : PieceBlockTracker) : Prop :=
  p ∈ pieces_completed t ∧ p ∉ pieces_not_started t ∪ pieces_ (started t).

Lemma not_incomplete `{HashOrderOk} p t :
  p ∉ get_incomplete_pieces t ↔ p ∉ pieces_not_started t ∪ pieces_ (started t).
Proof.
  unfold get_incomplete_pieces. rewrite elem_of_app, !elem_of_hash_iter. set_solver.
Qed.

Lemma remove_expired_pieces now t : let t' := snd (remove_expired now t) in
  pieces_ (started t') = pieces_ (started t) ∧
  pieces_not_started t' = pieces_not_started t ∧ pieces_completed t' = pieces_completed t.
Proof.
  cbv zeta. unfold remove_expired, Inprogress_remove_expired.
  destruct (remove_expired_loop_spec now (request_timeout t)
    (expirations (piece_to_blocks_outstanding t)) (started t) [])
    as (q1 & q2 & rs' & Hq & Hq1 & Hq2 & Hrun & Hrs).
  change (piece_to_blocks_started _) with (started t). rewrite Hrun. cbn.
  by rewrite pieces_drop.
Qed.

Lemma set_request_finished_pieces t p b : let t' := snd (set_request_finished t p b) in
  pieces_ (started t') = pieces_ (started t) ∧
  pieces_not_started t' = pieces_not_started t ∧ pieces_completed t' = pieces_completed t.
Proof.
  cbv zeta. unfold set_request_finished. rewrite set_request_finished_move.
  destruct (loading (started t) p b) as [d|] eqn:Hd; [|done].
  split_and!; [|done..]. apply visit_dom in Hd. unfold pieces_. cbn.
  rewrite dom_cut, dom_put. set_solver.
Qed.

Lemma remove_request_pieces t req : let t' := snd (remove_request t req) in
  pieces_ (started t') = pieces_ (started t) ∧
  pieces_not_started t' = pieces_not_started t ∧ pieces_completed t' = pieces_completed t.
Proof.
  cbv zeta. unfold remove_request.
  pose proof (remove_request_cut (started t) (req_index req) (req_begin req)) as Hm.
  destruct (remove_downloading_request _ _ _) as [r m]. cbn in Hm. subst m. cbn.
  split_and!; [|done..]. unfold pieces_. cbn. by rewrite dom_cut.
Qed.

Lemma set_piece_finished_pieces t p : let t' := set_piece_finished t p in
  pieces_ (started t') = pieces_ (started t) ∖ {[p]} ∧
  pieces_not_started t' = pieces_not_started t ∧
  pieces_completed t' = {[p]} ∪ pieces_completed t.
Proof.
  cbv zeta. split_and!; [|done..]. unfold set_piece_finished, pieces_. cbn.
  rewrite !dom_delete_L. set_solver.
Qed.

Lemma settled_step `{Profile} torrent x y p : wf_torrent torrent →
  tracker_ok (zlen (pieces (info torrent))) x.1 x.2 →
  tracker_step torrent x y → settled p x.2 → settled p y.2.
Proof.
  intros Hwf Hok Hs [Hd Hn].
  destruct Hs as [c t q b|c t q|c t req|c now t Hc|c c' t O clock avail reqs t'
    HO Hclk Hav Hrun Hc Hc']; cbn in *; unfold settled.
  - pose proof (set_request_finished_pieces t q b) as (-> & -> & ->). done.
  - pose proof (set_piece_finished_pieces t q) as (-> & -> & ->). set_solver.
  - pose proof (remove_request_pieces t req) as (-> & -> & ->). done.
  - pose proof (remove_expired_pieces now t) as (-> & -> & ->). done.
  - destruct (generate_starts (E := unit) torrent Hwf clock avail c t Hok Hclk)
      as (reqs' & c2 & t2 & Hrun' & Hs & Hp & _ & _).
    rewrite Hrun' in Hrun. injection Hrun as -> ->.
    destruct (starts_pieces _ _ _ _ _ _ Hs) as (-> & Hns & ->). split; [done|].
    assert (p ∉ map req_index reqs); [|set_solver].
    intros (r & -> & Hr)%list_elem_of_fmap. rewrite Forall_forall in Hp.
    destruct (Hp r Hr) as (i & X & HX & peer & b & _ & _ & ->).
    cbn in Hn. apply elem_of_dom_2, Hav in HX. by apply not_incomplete in Hn.
Qed.

Lemma settled_run `{Profile} torrent x y p : wf_torrent torrent →
  rtc (tracker_step torrent) x y →
  tracker_ok (zlen (pieces (info torrent))) x.1 x.2 → settled p x.2 → settled p y.2.
Proof.
  intros Hwf. induction 1 as [x|x y z Hxy _ IH]; intros Hok Hp; [done|].
  apply IH; [by eapply tracker_step_ok|by eapply settled_step].
Qed.

(** * Properties *)

(** C11. Whatever the processor does with the tracker of a
    well-formed torrent, in any order, the tracker keeps its invariant: no more
    requests are outstanding than allowed (so the capacity left never underflows),
    a block is not both under way and arrived, every piece is not started, started
    or completed, a started piece is not also waiting to start, and every request
    under way will expire. *)
Theorem tracker_invariant `{Profile} torrent max c0 c t :
  wf_torrent torrent → 0 ≤ max < 2 ^ 64 →
  rtc (tracker_step torrent) (c0, Tracker_new max (pieces (info torrent))) (c, t) →
  tracker_ok (zlen (pieces (info torrent))) c t.
Proof.
  intros Hwf Hmax Hrun.
  change (tracker_ok (zlen (pieces (info torrent))) (c, t).1 (c, t).2).
  eapply (rtc_ind_r (λ x, tracker_ok (zlen (pieces (info torrent))) x.1 x.2)); [|intros x y _ ? ?|exact Hrun].
  - apply Tracker_new_ok; [done|]. destruct Hwf as (? & _). lia.
  - by eapply tracker_step_ok.
Qed.

Section piece_properties.
Context `{Profile} `{HashOrderOk} {E : Type}.

(** C12. Assigning requests always succeeds; it asks for
    distinct blocks, none of them under way or arrived, each inside its piece and of
    the right length, from a peer that has the piece, and never for more than the
    limit on outstanding requests allows. *)
Theorem generate_assignments_sound torrent clock avail c t :
  wf_torrent torrent → tracker_ok (zlen (pieces (info torrent))) c t →
  clock_ok torrent c clock avail →
  ∃ reqs t', generate_assignments (E := E) clock torrent avail t = Ret (reqs, t') ∧
    NoDup (map (λ r, (req_index r, req_begin r)) reqs) ∧
    (∀ r, r ∈ reqs → free (started t) (req_index r) (req_begin r) ∧
      ∃ X k, avail !! req_index r = Some X ∧ req_peer_id r ∈ X ∧
        req_begin r = k * PIECE_BLOCK_SIZE ∧
        0 ≤ req_begin r < piece_size torrent (req_index r) ∧
        req_length r = Z.min PIECE_BLOCK_SIZE (piece_size torrent (req_index r) - req_begin r)) ∧
    downloading_requests_len t' = downloading_requests_len t + zlen reqs ∧
    downloading_requests_len t' ≤ max_outstanding_requests t.
Proof.
  intros Hwf Hok Hclk.
  destruct (generate_starts (E := E) torrent Hwf clock avail c t Hok Hclk)
    as (reqs & c' & t' & Hrun & Hs & Hp & _ & _).
  exists reqs, t'. split_and!; [done|by eapply starts_NoDup| |by eapply starts_len|].
  - intros r Hr. split; [by destruct (starts_free _ _ _ _ _ _ r Hs Hr)|].
    eapply Forall_forall in Hp as (i & X & HX & peer & b & Hpeer & (k & -> & Hb)%elem_of_blocks & ->);
      [|done].
    exists X, k. by cbn.
  - rewrite <-(starts_max _ _ _ _ _ _ Hs). apply (ok_capacity _ _ _ (starts_ok _ _ _ _ _ _ Hok Hs)).
Qed.

(** C13. Assignment does as much as it may: afterwards
    either the limit on outstanding requests is reached, or every block of every
    piece that some available peer has is under way or arrived. *)
Theorem generate_assignments_saturates torrent clock avail c t reqs t' :
  wf_torrent torrent → tracker_ok (zlen (pieces (info torrent))) c t →
  clock_ok torrent c clock avail →
  generate_assignments (E := E) clock torrent avail t = Ret (reqs, t') →
  downloading_requests_len t' = max_outstanding_requests t' ∨
  ∀ i X k, avail !! i = Some X → X ≠ ∅ →
    0 ≤ k * PIECE_BLOCK_SIZE < piece_size torrent i →
    is_Some (contains_inprogress (started t') i (k * PIECE_BLOCK_SIZE)).
Proof.
  intros Hwf Hok Hclk Hrun.
  destruct (generate_starts (E := E) torrent Hwf clock avail c t Hok Hclk)
    as (reqs' & c' & t2 & Hrun' & _ & _ & Hsat & _).
  rewrite Hrun' in Hrun. injection Hrun as -> ->.
  destruct (decide (downloading_requests_len t' = max_outstanding_requests t')) as [?|Hne]; [by left|].
  right. intros i X k HX HX0 Hk. destruct (Hsat i X HX HX0) as [?|Hall]; [done|].
  specialize (Hall (k * PIECE_BLOCK_SIZE)). unfold free in Hall.
  destruct (contains_inprogress _ _ _); [done|]. destruct Hall; [|done].
  apply elem_of_blocks. by exists k.
Qed.

(** The requests for an untouched piece, when there is
    room for all of them, cut it into blocks whose arrival in any order makes the
    storage's slice tracker report completion, and only with the last one. *)
Theorem assigned_piece_completes torrent c now t i X :
  wf_torrent torrent → tracker_ok (zlen (pieces (info torrent))) c t → c ≤ now →
  0 ≤ i < zlen (pieces (info torrent)) → X ≠ ∅ → (∀ b, free (started t) i b) →
  downloading_requests_len t + zlen (blocks (piece_size torrent i)) ≤ max_outstanding_requests t →
  ∃ reqs t', assign_piece (E := E) now t torrent i X = Ret (reqs, t') ∧
    ∀ l p, l ++ [p] ≡ₚ map (λ r, (req_begin r, req_length r)) reqs →
      insert_all (E := E) (Slices_new (piece_size torrent i)) (l ++ [p]) =
        Ret (replicate (length l) false ++ [true],
             mkSlices [(0, piece_size torrent i)] (piece_size torrent i)).
Proof.
  intros Hwf [Hmax Hcap _ _ _ _ _ _ _ _] Hc Hi HX Hfree Hroom.
  pose proof (piece_size_range torrent i Hwf Hi) as Hsz.
  assert (0 ≤ downloading_requests_len t) by apply total_size_nonneg.
  unfold assign_piece. rewrite bind_arith by lia.
  rewrite PieceBlockAllocation_new_spec by (done || lia).
  destruct (head _) as [peer|] eqn:Hpeer; [|by apply head_hash_iter_None in Hpeer].
  rewrite bind_ret. eexists _, _. split; [reflexivity|]. intros l p Hl.
  change (piece_to_blocks_started (piece_to_blocks_outstanding t)) with (started t) in Hl.
  rewrite filter_all in Hl; [|apply Forall_forall; intros; apply Hfree].
  rewrite take_ge in Hl by (unfold zlen in Hroom; lia). rewrite map_map in Hl.
  change (l ++ [p] ≡ₚ block_slices torrent i) in Hl.
  destruct (block_slices_tile torrent Hwf i Hi) as (Hin & Hd & Hcov). symmetry in Hl.
  apply insert_all_tiling; [|by eapply slices_in_perm|by eapply disjoint_slices_perm|].
  - destruct Hwf as (_ & Hpl & _). lia.
  - intros x Hx. by eapply asked_perm, Hcov.
Qed.
End piece_properties.

(** C28. Expiry takes away exactly the requests that are under way and
    whose block has an entry in the queue of expirations that is as old as the timeout: their
    blocks may be requested again, arrived blocks stay arrived, the other requests stay under
    way, and each of these has an entry younger than the timeout. *)
Theorem remove_expired_frees n c now t rs t' :
  tracker_ok n c t → c ≤ now → 0 < request_timeout t → remove_expired now t = (rs, t') →
  (∀ r, r ∈ rs ↔ loading (started t) (req_index r) (req_begin r) = Some (mkDownload r) ∧
     ∃ s, (s, key_of (req_index r) (req_begin r)) ∈ expirations (piece_to_blocks_outstanding t) ∧
       request_timeout t ≤ now - s) ∧
  (∀ r, r ∈ rs → free (started t') (req_index r) (req_begin r)) ∧
  (∀ p b, arrived (started t') p b = arrived (started t) p b) ∧
  (∀ p b d, loading (started t') p b = Some d ↔
     loading (started t) p b = Some d ∧ piece_request d ∉ rs) ∧
  (∀ p b, is_Some (loading (started t') p b) → ∃ s,
     (s, key_of p b) ∈ expirations (piece_to_blocks_outstanding t') ∧ now - s < request_timeout t).
Proof.
  intros Hok Hc Httl Hrun.
  destruct (remove_expired_spec n c now t rs t' Hok Hc Hrun) as (Hok' & Hyoung & Hload & Hrs & Hall & Harr).
  split_and!; [| |done|done|].
  - intros r. split.
    + intros Hr. destruct (Hrs r Hr) as (Hl & s & Hs & Ha). split; [done|]. exists s. split; [done|].
      unfold aged in Ha. cbn in Ha. lia.
    + intros (Hl & s & Hs & Ha). apply (Hall r s Hl Hs). unfold aged. cbn. lia.
  - intros r Hr. destruct (Hrs r Hr) as (Hl & _). apply free_spec. split.
    + destruct (loading (started t') _ _) as [d|] eqn:Hd; [|done].
      apply Hload in Hd as [Hd Hn]. rewrite Hl in Hd. by injection Hd as <-.
    + rewrite Harr. apply (ok_moved _ _ _ Hok). by eexists.
  - intros p b Hl. apply (ok_expiring _ _ _ Hok') in Hl.
    apply list_elem_of_fmap in Hl as ([s k] & Hk & Hin). cbn in Hk. subst k.
    exists s. split; [done|]. specialize (Hyoung _ Hin). unfold aged in Hyoung. cbn in Hyoung. lia.
Qed.

(** C29. A piece completed after it was started is never
    again offered for download, whatever happens to the tracker afterwards. *)
Theorem finished_piece_not_requested `{Profile} torrent c t p x (O : HashOrder) :
  wf_torrent torrent → tracker_ok (zlen (pieces (info torrent))) c t →
  p ∈ pieces_ (started t) → HashOrderOk O →
  rtc (tracker_step torrent) (c, set_piece_finished t p) x →
  p ∈ get_pieces_completed x.2 ∧ p ∉ get_incomplete_pieces x.2.
Proof.
  intros Hwf Hok Hp HO Hrun. rewrite not_incomplete.
  apply (settled_run torrent _ _ p Hwf Hrun).
  - by apply set_piece_finished_ok.
  - unfold settled. cbn [snd]. pose proof (set_piece_finished_pieces t p) as (-> & -> & ->).
    pose proof (ok_not_started _ _ _ Hok). set_solver.
Qed.

(** A piece completed without having been started (a peer
    may send blocks nobody asked for) stays among the pieces to start: it is both
    completed and incomplete, and with room for a request the next assignment asks
    for it again. *)
Theorem unsolicited_completion `{Profile} `{HashOrderOk} torrent clock c t p X :
  wf_torrent torrent → tracker_ok (zlen (pieces (info torrent))) c t →
  p ∈ pieces_not_started t → X ≠ ∅ → clock_ok torrent c clock {[p := X]} →
  let t1 := set_piece_finished t p in
  p ∈ get_pieces_completed t1 ∧ p ∈ get_incomplete_pieces t1 ∧
  (downloading_requests_len t1 < max_outstanding_requests t1 →
   ∃ r reqs t', generate_assignments (E := unit) clock torrent {[p := X]} t1 = Ret (r :: reqs, t') ∧
     req_index r = p).
Proof.
  intros Hwf Hok Hp HX Hclk t1.
  pose proof (set_piece_finished_pieces t p) as (Hpi & Hns & Hco). fold t1 in Hpi, Hns, Hco.
  split_and!.
  - unfold get_pieces_completed. rewrite Hco. set_solver.
  - unfold get_incomplete_pieces. rewrite elem_of_app, !elem_of_hash_iter. right. by rewrite Hns.
  - intros Hroom. assert (tracker_ok (zlen (pieces (info torrent))) c t1) as Hok1
      by by apply set_piece_finished_ok.
    destruct (generate_starts (E := unit) torrent Hwf clock {[p := X]} c t1 Hok1 Hclk)
      as (reqs & c' & t' & Hrun & Hs & Hpr & Hsat & _).
    destruct reqs as [|r reqs].
    + exfalso. specialize (Hsat p X (lookup_singleton_eq p X) HX). inversion Hs; subst.
      destruct Hsat as [?|Hall]; [lia|]. apply (Hall 0).
      * apply elem_of_blocks. exists 0.
        assert (0 ≤ p < zlen (pieces (info torrent))) as Hr
          by (apply (ok_range _ _ _ Hok p); set_solver).
        pose proof (piece_size_range torrent p Hwf Hr). lia.
      * apply free_spec. unfold loading, arrived, t1. cbn. rewrite !visit_delete.
        by rewrite !decide_True.
    + exists r, reqs, t'. split; [done|].
      apply Forall_cons in Hpr as [(i & Y & HY & peer & b & _ & _ & ->) _].
      by apply lookup_singleton_Some in HY as [<- _].
Qed.

(** Giving up a request reports success exactly when its
    piece has been started, even when that request is not under way, in which case
    nothing is removed. *)
Theorem remove_request_answer t req :
  (fst (remove_request t req) = true ↔ req_index req ∈ dom (downloading (started t))) ∧
  (loading (started t) (req_index req) (req_begin req) = None → snd (remove_request t req) = t).
Proof.
  unfold remove_request.
  pose proof (remove_request_cut (started t) (req_index req) (req_begin req)) as Hm.
  assert (fst (remove_downloading_request (started t) (req_index req) (req_begin req)) = true ↔
    req_index req ∈ dom (downloading (started t))) as Hr.
  { unfold remove_downloading_request. rewrite elem_of_dom.
    destruct (downloading (started t) !! req_index req); [by split|].
    split; [done|by intros []]. }
  destruct (remove_downloading_request _ _ _) as [r m]. cbn in *. subst m. split; [done|].
  intros Hl. rewrite cut_id by done. by destruct t as [? ? ? [[] ?] ?].
Qed.

(** A request given up and made again keeps the expiration of
    the first attempt: it expires one timeout after that, however recently it was
    made again. *)
Theorem stale_expiration t r s s' now :
  expirations (piece_to_blocks_outstanding t) = [] → 0 < request_timeout t →
  s + request_timeout t ≤ now →
  let t1 := snd (remove_request (start_request s t r) r) in
  let t2 := start_request s' t1 r in
  r ∈ fst (remove_expired now t2) ∧
  loading (started (snd (remove_expired now t2))) (req_index r) (req_begin r) = None.
Proof.
  intros Hq Httl Hs t1 t2.
  assert (expirations (piece_to_blocks_outstanding t2) =
    [(s, key_of (req_index r) (req_begin r)); (s', key_of (req_index r) (req_begin r))]) as Hq2.
  { unfold t2, t1, remove_request. destruct (remove_downloading_request _ _ _) as [x m].
    cbn. by rewrite Hq. }
  assert (request_timeout t2 = request_timeout t) as Ht.
  { unfold t2, t1, remove_request. by destruct (remove_downloading_request _ _ _) as [x m]. }
  assert (loading (started t2) (req_index r) (req_begin r) = Some (mkDownload r)) as Hl.
  { unfold t2. by rewrite loading_start, decide_True. }
  unfold remove_expired, Inprogress_remove_expired.
  destruct (remove_expired_loop_spec now (request_timeout t2)
    (expirations (piece_to_blocks_outstanding t2)) (started t2) [])
    as (q1 & q2 & rs & Hqs & Hq1 & Hh & Hrun & Hrs).
  change (piece_to_blocks_started _) with (started t2). rewrite Hrun. cbn [fst snd app].
  assert (key_of (req_index r) (req_begin r) ∈ q1.*2) as Hin.
  { rewrite Hq2 in Hqs. destruct q1 as [|x q1].
    - cbn in Hqs. subst q2. exfalso. eapply Hh; [done|]. unfold aged. rewrite Ht. cbn. lia.
    - injection Hqs as <- _. by left. }
  split; [apply Hrs; eauto|]. cbn. by rewrite loading_drop, decide_True.
Qed.

(** * Concrete runs *)

Module PieceExamples.
Import DevProfile ElementsOrder.

(** Two pieces of three and two blocks. *)
Definition two : V1Torrent :=
  mkTorrent (mkInfo 70000 40000 [mkPiece (replicate 20 x01); mkPiece (replicate 20 x02)]
    [] (replicate 20 x03)) [] [].
Definition peer : InternalPeerId := [x41].
Definition both : gmap Z (gset InternalPeerId) := {[0 := {[peer]}; 1 := {[peer]}]}.
Definition fresh : PieceBlockTracker := Tracker_new 4 (pieces (info two)).
Definition second (s : Z) : Z := s * 10 ^ 9.

Definition assigned (max : Z) : list PeerRequestedPiece * PieceBlockTracker :=
  match generate_assignments (E := unit) (λ _, second 1) two both (Tracker_new max (pieces (info two))) with
  | Ret r => r
  | _ => ([], fresh)
  end.

Lemma two_wf : wf_torrent two.
Proof. vm_compute. split_and!; congruence. Qed.

Lemma fresh_ok : tracker_ok 2 0 fresh.
Proof. apply (Tracker_new_ok 0 4 (pieces (info two))); [lia|reflexivity]. Qed.

Lemma both_dom p : p ∈ dom both → p = 0 ∨ p = 1.
Proof. unfold both. rewrite dom_insert_L, dom_singleton_L. set_solver. Qed.

Lemma both_clock : clock_ok two 0 (λ _, second 1) both.
Proof.
  split; [done|]. intros p [-> | ->]%both_dom; vm_compute; split_and!; congruence.
Qed.

(** With room for four requests: the three blocks of the first piece, then the
    first block of the second. *)
Example assigned_four : (assigned 4).1 =
  [mkRequest peer 0 0 16384; mkRequest peer 0 16384 16384; mkRequest peer 0 32768 7232;
   mkRequest peer 1 0 16384].
Proof. vm_compute. reflexivity. Qed.

Example assigned_rest :
  (match generate_assignments (E := unit) (λ _, second 2) two both
           (snd (set_request_finished (assigned 4).2 0 16384)) with
   | Ret r => r.1 | _ => [] end) = [mkRequest peer 1 16384 13616].
Proof. vm_compute. reflexivity. Qed.

(** The blocks of the second piece expire, the arrived one does not. *)
Example expired_after_ten :
  fst (remove_expired (second 11) (snd (set_request_finished (assigned 4).2 0 0))) =
  [mkRequest peer 0 16384 16384; mkRequest peer 0 32768 7232; mkRequest peer 1 0 16384].
Proof. vm_compute. reflexivity. Qed.

Example not_expired_after_nine : fst (remove_expired (second 10) (assigned 4).2) = [].
Proof. vm_compute. reflexivity. Qed.

Lemma assign_step : tracker_step two (0, fresh) (second 1, (assigned 4).2).
Proof.
  apply (step_assign two 0 (second 1) fresh elements_order (λ _, second 1) both (assigned 4).1).
  - apply _.
  - exact both_clock.
  - intros p [-> | ->]%both_dom; apply list_elem_of_In; vm_compute; tauto.
  - vm_compute. reflexivity.
  - done.
  - done.
Qed.

Lemma tracker_invariant_witness : tracker_ok 2 (second 1) (assigned 4).2.
Proof.
  apply (tracker_invariant two 4 0 (second 1) (assigned 4).2).
  - exact two_wf.
  - split; [lia|reflexivity].
  - exact (rtc_once _ _ assign_step).
Defined.

Lemma generate_assignments_sound_witness :
  ∃ reqs t', generate_assignments (E := unit) (λ _, second 1) two both fresh = Ret (reqs, t') ∧
    downloading_requests_len t' ≤ 4.
Proof.
  destruct (generate_assignments_sound (E := unit) two (λ _, second 1) both 0 fresh two_wf fresh_ok
    both_clock) as (reqs & t' & Hrun & _ & _ & _ & Hle).
  exists reqs, t'. split; [exact Hrun|exact Hle].
Defined.

Lemma generate_assignments_saturates_witness :
  downloading_requests_len (assigned 8).2 = 8 ∨
  is_Some (contains_inprogress (started (assigned 8).2) 1 16384).
Proof.
  destruct (generate_assignments_saturates (E := unit) two (λ _, second 1) both 0
    (Tracker_new 8 (pieces (info two))) (assigned 8).1 (assigned 8).2) as [Hm|Hall].
  - exact two_wf.
  - apply (Tracker_new_ok 0 8 (pieces (info two))); [lia|reflexivity].
  - exact both_clock.
  - vm_compute. reflexivity.
  - left. exact Hm.
  - right. apply (Hall 1 {[peer]} 1); [reflexivity|discriminate|vm_compute; split; congruence].
Defined.

Lemma assigned_piece_completes_witness :
  ∃ reqs t', assign_piece (E := unit) (second 1) fresh two 0 {[peer]} = Ret (reqs, t') ∧
    ([(32768, 7232); (0, 16384)] ++ [(16384, 16384)] ≡ₚ map (λ r, (req_begin r, req_length r)) reqs →
     insert_all (E := unit) (Slices_new 40000) ([(32768, 7232); (0, 16384)] ++ [(16384, 16384)]) =
       Ret ([false; false; true], mkSlices [(0, 40000)] 40000)).
Proof.
  destruct (assigned_piece_completes (E := unit) two 0 (second 1) fresh 0 {[peer]} two_wf fresh_ok)
    as (reqs & t' & Hrun & Hl).
  - vm_compute. congruence.
  - vm_compute. split; congruence.
  - discriminate.
  - intros b. reflexivity.
  - vm_compute. congruence.
  - exists reqs, t'. split; [exact Hrun|]. intros Hp. exact (Hl _ _ Hp).
Defined.

Lemma remove_expired_frees_witness :
  mkRequest peer 1 0 16384 ∈ fst (remove_expired (second 11) (assigned 4).2) ∧
  loading (started (snd (remove_expired (second 11) (assigned 4).2))) 1 0 = None ∧
  fst (remove_expired (second 2) (assigned 4).2) = [].
Proof.
  assert (tracker_ok 2 (second 1) (assigned 4).2) as Hok.
  { apply (tracker_step_ok two (0, fresh) (second 1, (assigned 4).2)); [exact two_wf|exact assign_step|].
    exact fresh_ok. }
  destruct (remove_expired_frees 2 (second 1) (second 11) (assigned 4).2
    (fst (remove_expired (second 11) (assigned 4).2)) (snd (remove_expired (second 11) (assigned 4).2)))
    as (Hrs & Hfree & _).
  - exact Hok.
  - vm_compute. congruence.
  - reflexivity.
  - vm_compute. reflexivity.
  - assert (mkRequest peer 1 0 16384 ∈ fst (remove_expired (second 11) (assigned 4).2)) as Hin.
    { apply Hrs. split; [vm_compute; reflexivity|]. exists (second 1). split; [|vm_compute; congruence].
      apply list_elem_of_In. vm_compute. tauto. }
    split; [exact Hin|]. split; [|vm_compute; reflexivity].
    apply Hfree, free_spec in Hin as [Hf _]. exact Hf.
Defined.

Lemma finished_piece_not_requested_witness :
  1 ∉ get_incomplete_pieces (snd (remove_expired (second 11) (set_piece_finished (assigned 4).2 1))).
Proof.
  apply (finished_piece_not_requested two (second 1) (assigned 4).2 1
    (second 11, snd (remove_expired (second 11) (set_piece_finished (assigned 4).2 1))) elements_order).
  - exact two_wf.
  - apply (tracker_step_ok two (0, fresh) (second 1, (assigned 4).2)); [exact two_wf|exact assign_step|].
    exact fresh_ok.
  - apply (bool_decide_unpack _). vm_compute. exact I.
  - apply _.
  - apply rtc_once. apply step_expire. vm_compute. congruence.
Defined.

Lemma unsolicited_completion_witness :
  ∃ r reqs t', generate_assignments (E := unit) (λ _, second 1) two {[1 := {[peer]}]}
    (set_piece_finished fresh 1) = Ret (r :: reqs, t') ∧ req_index r = 1.
Proof.
  apply (unsolicited_completion two (λ _, second 1) 0 fresh 1 {[peer]}).
  - exact two_wf.
  - exact fresh_ok.
  - apply (bool_decide_unpack _). vm_compute. exact I.
  - discriminate.
  - split; [reflexivity|]. intros p Hp. rewrite dom_singleton_L in Hp.
    apply elem_of_singleton in Hp as ->. vm_compute. split_and!; congruence.
  - reflexivity.
Defined.

Lemma remove_request_answer_witness :
  snd (remove_request (assigned 4).2 (mkRequest peer 1 16384 13616)) = (assigned 4).2.
Proof.
  apply (remove_request_answer (assigned 4).2 (mkRequest peer 1 16384 13616)).
  vm_compute. reflexivity.
Defined.

Lemma stale_expiration_witness :
  let r := mkRequest peer 0 0 16384 in
  r ∈ fst (remove_expired (second 11)
    (start_request (second 10) (snd (remove_request (start_request (second 1) fresh r) r)) r)).
Proof.
  apply (stale_expiration fresh (mkRequest peer 0 0 16384) (second 1) (second 10) (second 11)).
  - reflexivity.
  - reflexivity.
  - vm_compute. congruence.
Defined.
End PieceExamples.
