(* ===== verification/State.v ===== *)
(** The torrent state, [PeerPieceMap] and [TorrentState] of
    [src/src/peer/state/mod.rs]: who is connected, who has which pieces, who
    chokes us and who is interested in us. *)
From S2P Require Import Prelude ByteStr Model Collections Piece.
From Stdlib Require Import ZArith Lia.

(** * [PeerPieceMap] *)
Record PeerPieceMap := mkPieceMap {
  pieces_to_peers : gmap Z (gset InternalPeerId);
  peers_to_pieces : gmap InternalPeerId (gset Z);
}.

Definition PeerPieceMap_default : PeerPieceMap := mkPieceMap ∅ ∅.

Definition peer_interest (m : PeerPieceMap) (peer_id : InternalPeerId)
    (outstanding_pieces : gset Z) : gset Z :=
  match peers_to_pieces m !! peer_id with
  | Some peer_pieces => outstanding_pieces ∩ peer_pieces
  | None => ∅
  end.

Definition add_piece (peer_id : InternalPeerId) (m : PeerPieceMap) (piece : Z) : PeerPieceMap :=
  let ptb := default ∅ (peers_to_pieces m !! peer_id) in
  let btp := default ∅ (pieces_to_peers m !! piece) in
  mkPieceMap (<[piece := {[peer_id]} ∪ btp]> (pieces_to_peers m))
    (<[peer_id := {[piece]} ∪ ptb]> (peers_to_pieces m)).

Definition get_peers_with_piece (m : PeerPieceMap) (piece : Z) : gset InternalPeerId :=
  match pieces_to_peers m !! piece with Some peers => peers | None => ∅ end.

(** One turn of the [for block in blocks] loop. *)
Definition forget_block (peer_id : InternalPeerId) (m : gmap Z (gset InternalPeerId)) (block : Z)
    : gmap Z (gset InternalPeerId) :=
  match m !! block with
  | Some peers => <[block := peers ∖ {[peer_id]}]> m
  | None => m
  end.

Definition PieceMap_remove_peer `{HashOrder} (m : PeerPieceMap) (peer_id : InternalPeerId)
    : PeerPieceMap :=
  match peers_to_pieces m !! peer_id with
  | Some blocks =>
      mkPieceMap (fold_left (forget_block peer_id) (hash_iter 0 blocks) (pieces_to_peers m))
        (delete peer_id (peers_to_pieces m))
  | None => m
  end.

(** * [TorrentState] *)
Record InternalPeerState := mkPeerState { choked : bool; interested : bool }.

Definition InternalPeerState_default : InternalPeerState := mkPeerState false false.

Record TorrentState := mkState {
  piece_block_tracking : PieceBlockTracker;
  peers_interested : gset InternalPeerId;
  peers_not_choking : gset InternalPeerId;
  block_peer_map : PeerPieceMap;
  peers : gmap InternalPeerId InternalPeerState;
  outstanding_peer_requests : list PeerRequestedPiece;
}.

Definition set_tracking (t : PieceBlockTracker) (s : TorrentState) : TorrentState :=
  mkState t (peers_interested s) (peers_not_choking s) (block_peer_map s) (peers s)
    (outstanding_peer_requests s).
Definition set_interested (x : gset InternalPeerId) (s : TorrentState) : TorrentState :=
  mkState (piece_block_tracking s) x (peers_not_choking s) (block_peer_map s) (peers s)
    (outstanding_peer_requests s).
Definition set_not_choking (x : gset InternalPeerId) (s : TorrentState) : TorrentState :=
  mkState (piece_block_tracking s) (peers_interested s) x (block_peer_map s) (peers s)
    (outstanding_peer_requests s).
Definition set_piece_map (x : PeerPieceMap) (s : TorrentState) : TorrentState :=
  mkState (piece_block_tracking s) (peers_interested s) (peers_not_choking s) x (peers s)
    (outstanding_peer_requests s).
Definition set_peers (x : gmap InternalPeerId InternalPeerState) (s : TorrentState) : TorrentState :=
  mkState (piece_block_tracking s) (peers_interested s) (peers_not_choking s) (block_peer_map s) x
    (outstanding_peer_requests s).
Definition set_requests (x : list PeerRequestedPiece) (s : TorrentState) : TorrentState :=
  mkState (piece_block_tracking s) (peers_interested s) (peers_not_choking s) (block_peer_map s)
    (peers s) x.

Definition TorrentState_new (pieces : list V1Piece) (max_outstanding_requests : Z) : TorrentState :=
  mkState (Tracker_new max_outstanding_requests pieces) ∅ ∅ PeerPieceMap_default ∅ [].

Definition add_peer_id (peer_id : InternalPeerId) (s : TorrentState) : TorrentState :=
  match peers s !! peer_id with
  | None => set_peers (<[peer_id := InternalPeerState_default]> (peers s)) s
  | Some _ => s
  end.

Definition set_peer_choked_us (peer_id : InternalPeerId) (choked : bool) (s : TorrentState)
    : TorrentState :=
  let s := add_peer_id peer_id s in
  if negb choked then set_not_choking ({[peer_id]} ∪ peers_not_choking s) s
  else set_not_choking (peers_not_choking s ∖ {[peer_id]}) s.

Definition set_peers_interested_in_us (peer_id : InternalPeerId) (interested : bool)
    (s : TorrentState) : TorrentState :=
  let s := add_peer_id peer_id s in
  if interested then set_interested ({[peer_id]} ∪ peers_interested s) s
  else set_interested (peers_interested s ∖ {[peer_id]}) s.

Definition peer_set (s : TorrentState) : gset InternalPeerId := dom (peers s).

Definition peers_that_choke (choke : bool) (s : TorrentState) : gset InternalPeerId :=
  if choke then peer_set s ∖ peers_not_choking s else peer_set s ∩ peers_not_choking s.

Definition peers_that_are_interested (interested : bool) (s : TorrentState) : gset InternalPeerId :=
  if negb interested then peer_set s ∖ peers_interested s else peer_set s ∩ peers_interested s.

(** [!peer_interest(...).is_empty()] on the pieces not started. *)
Definition has_interest (peer_id : InternalPeerId) (s : TorrentState) : bool :=
  negb (bool_decide (peer_interest (block_peer_map s) peer_id
                       (pieces_not_started (piece_block_tracking s)) = ∅)).

Definition add_pieces_for_peer (peer_id : InternalPeerId) (pieces : list Z) (s : TorrentState)
    : option bool * TorrentState :=
  let s := add_peer_id peer_id s in
  let prev_interest := has_interest peer_id s in
  let s := set_piece_map (fold_left (add_piece peer_id) pieces (block_peer_map s)) s in
  let interest := has_interest peer_id s in
  if negb (Bool.eqb prev_interest interest) then
    let peer := default InternalPeerState_default (peers s !! peer_id) in
    (Some interest, set_peers (<[peer_id := mkPeerState (choked peer) interest]> (peers s)) s)
  else (None, s).

Definition get_internal_peer_state (peer_id : InternalPeerId) (s : TorrentState)
    : option InternalPeerState := peers s !! peer_id.

(** The pieces are collected into a [BTreeMap]. *)
Definition piece_id_to_peers `{HashOrder} (s : TorrentState) : gmap Z (gset InternalPeerId) :=
  let peer_we_can_download_from := peers_that_choke false s in
  fold_left
    (λ m outstanding_piece,
       let peers_with_piece := get_peers_with_piece (block_peer_map s) outstanding_piece in
       <[outstanding_piece := peer_we_can_download_from ∩ peers_with_piece]> m)
    (get_incomplete_pieces (piece_block_tracking s)) ∅.

(** The result, [Arc::into_inner] of the argument, is the peer id when nobody
    else shares it; no caller uses it. *)
Definition remove_peer `{HashOrder} (peer_id : InternalPeerId) (s : TorrentState) : TorrentState :=
  let s := add_peer_id peer_id s in
  mkState (piece_block_tracking s) (peers_interested s ∖ {[peer_id]})
    (peers_not_choking s ∖ {[peer_id]}) (PieceMap_remove_peer (block_peer_map s) peer_id)
    (delete peer_id (peers s)) (outstanding_peer_requests s).

(** * Specification: who has what *)

(** The two maps agree: peer [p] has piece [i]. *)
Definition has (m : PeerPieceMap) (p : InternalPeerId) (i : Z) : Prop :=
  p ∈ get_peers_with_piece m i.
Definition owns (m : PeerPieceMap) (p : InternalPeerId) (i : Z) : Prop :=
  i ∈ default ∅ (peers_to_pieces m !! p).

Record state_ok (s : TorrentState) : Prop := {
  ok_symmetric : ∀ p i, has (block_peer_map s) p i ↔ owns (block_peer_map s) p i;
  ok_interested : peers_interested s ⊆ peer_set s;
  ok_not_choking : peers_not_choking s ⊆ peer_set s;
  ok_owners : dom (peers_to_pieces (block_peer_map s)) ⊆ peer_set s;
}.

Lemma peer_interest_spec m p X i : i ∈ peer_interest m p X ↔ i ∈ X ∧ owns m p i.
Proof.
  unfold peer_interest, owns. destruct (peers_to_pieces m !! p); set_solver.
Qed.

Lemma has_add_piece q m i p j : has (add_piece q m i) p j ↔ (p = q ∧ j = i) ∨ has m p j.
Proof.
  unfold has, get_peers_with_piece, add_piece. cbn [pieces_to_peers].
  destruct (decide (j = i)) as [->|Hj].
  - rewrite lookup_insert_eq. destruct (pieces_to_peers m !! i); set_solver.
  - rewrite lookup_insert_ne by done. naive_solver.
Qed.

Lemma owns_add_piece q m i p j : owns (add_piece q m i) p j ↔ (p = q ∧ j = i) ∨ owns m p j.
Proof.
  unfold owns, add_piece. cbn [peers_to_pieces]. destruct (decide (p = q)) as [->|Hp].
  - rewrite lookup_insert_eq. cbn. set_solver.
  - rewrite lookup_insert_ne by done. naive_solver.
Qed.

Lemma has_add_pieces q l m p j :
  has (fold_left (add_piece q) l m) p j ↔ (p = q ∧ j ∈ l) ∨ has m p j.
Proof.
  revert m. induction l as [|i l IH]; intros m; cbn [fold_left]; [set_solver|].
  rewrite IH, has_add_piece. set_solver.
Qed.

Lemma owns_add_pieces q l m p j :
  owns (fold_left (add_piece q) l m) p j ↔ (p = q ∧ j ∈ l) ∨ owns m p j.
Proof.
  revert m. induction l as [|i l IH]; intros m; cbn [fold_left]; [set_solver|].
  rewrite IH, owns_add_piece. set_solver.
Qed.

Lemma dom_add_pieces q l m :
  dom (peers_to_pieces (fold_left (add_piece q) l m)) ⊆ {[q]} ∪ dom (peers_to_pieces m).
Proof.
  revert m. induction l as [|i l IH]; intros m; cbn [fold_left]; [set_solver|].
  etrans; [apply IH|]. cbn. rewrite dom_insert_L. set_solver.
Qed.

(** The loop that forgets a peer's pieces. *)
Lemma forget_blocks_spec q l m p j :
  p ∈ default ∅ (fold_left (forget_block q) l m !! j) ↔
  p ∈ default ∅ (m !! j) ∧ ¬ (p = q ∧ j ∈ l).
Proof.
  revert m. induction l as [|i l IH]; intros m; cbn [fold_left]; [set_solver|].
  rewrite IH. unfold forget_block. destruct (m !! i) as [X|] eqn:Hi.
  - destruct (decide (j = i)) as [->|Hj].
    + rewrite lookup_insert_eq, Hi. cbn. set_solver.
    + rewrite lookup_insert_ne by done. set_solver.
  - destruct (decide (j = i)) as [->|Hj]; [|set_solver]. rewrite Hi. cbn. set_solver.
Qed.

Lemma has_remove_peer `{HashOrderOk} m q p j : (∀ p i, has m p i ↔ owns m p i) →
  has (PieceMap_remove_peer m q) p j ↔ has m p j ∧ p ≠ q.
Proof.
  intros Hsym. unfold PieceMap_remove_peer. destruct (peers_to_pieces m !! q) as [Y|] eqn:Hq.
  - unfold has, get_peers_with_piece. cbn [pieces_to_peers].
    change (match ?o with Some peers => peers | None => ∅ end) with (default ∅ o).
    rewrite forget_blocks_spec, elem_of_hash_iter. specialize (Hsym q j).
    unfold has, get_peers_with_piece, owns in Hsym. rewrite Hq in Hsym.
    change (match ?o with Some peers => peers | None => ∅ end) with (default ∅ o) in Hsym.
    cbn in Hsym. destruct (decide (p = q)) as [->|]; naive_solver.
  - split; [|by intros []]. intros Hp. split; [done|]. intros ->.
    apply Hsym in Hp. unfold owns in Hp. rewrite Hq in Hp. set_solver.
Qed.

Lemma owns_remove_peer `{HashOrder} m q p j :
  owns (PieceMap_remove_peer m q) p j ↔ owns m p j ∧ p ≠ q.
Proof.
  unfold owns, PieceMap_remove_peer. destruct (peers_to_pieces m !! q) as [Y|] eqn:Hq; cbn.
  - destruct (decide (p = q)) as [->|?].
    + rewrite lookup_delete_eq. set_solver.
    + rewrite lookup_delete_ne by done. naive_solver.
  - destruct (decide (p = q)) as [->|?]; [|naive_solver]. rewrite Hq. set_solver.
Qed.

(** * The invariant is preserved *)

Lemma peer_set_add p s : peer_set (add_peer_id p s) = {[p]} ∪ peer_set s.
Proof.
  unfold add_peer_id, peer_set. destruct (peers s !! p) eqn:Hp.
  - apply elem_of_dom_2 in Hp. set_solver.
  - cbn. by rewrite dom_insert_L.
Qed.

(** Nothing but the peers' table changes. *)
Lemma add_peer_id_frame p s : add_peer_id p s = set_peers (peers (add_peer_id p s)) s.
Proof. unfold add_peer_id. by destruct (peers s !! p); destruct s. Qed.

Lemma add_peer_id_ok p s : state_ok s → state_ok (add_peer_id p s).
Proof.
  intros [Hs Hi Hc Ho]. rewrite add_peer_id_frame.
  pose proof (peer_set_add p s) as Hp. rewrite add_peer_id_frame in Hp.
  split; cbn [set_peers block_peer_map peers_interested peers_not_choking]; rewrite ?Hp;
    [done|set_solver..].
Qed.

Lemma TorrentState_new_ok l max : state_ok (TorrentState_new l max).
Proof.
  split; cbn; [|set_solver..]. intros p i. unfold has, owns, get_peers_with_piece. cbn.
  rewrite !lookup_empty. set_solver.
Qed.

Lemma set_peer_choked_us_ok p c s : state_ok s → state_ok (set_peer_choked_us p c s).
Proof.
  intros Hok. unfold set_peer_choked_us.
  pose proof (add_peer_id_ok p s Hok) as [Hs Hi Hc Ho]. pose proof (peer_set_add p s).
  destruct c; cbn [negb]; (split; [done|done| |done]);
    change (peer_set (set_not_choking ?x ?y)) with (peer_set y); cbn; set_solver.
Qed.

Lemma set_peers_interested_in_us_ok p b s :
  state_ok s → state_ok (set_peers_interested_in_us p b s).
Proof.
  intros Hok. unfold set_peers_interested_in_us.
  pose proof (add_peer_id_ok p s Hok) as [Hs Hi Hc Ho]. pose proof (peer_set_add p s).
  destruct b; (split; [done| |done|done]);
    change (peer_set (set_interested ?x ?y)) with (peer_set y); cbn; set_solver.
Qed.

Lemma set_tracking_ok t s : state_ok s → state_ok (set_tracking t s).
Proof. by intros []. Qed.

Lemma set_requests_ok l s : state_ok s → state_ok (set_requests l s).
Proof. by intros []. Qed.

(** What [add_pieces_for_peer] does, once the peer is known. *)
Lemma add_pieces_for_peer_spec p l s : ∃ P,
  snd (add_pieces_for_peer p l s) =
    set_peers P (set_piece_map (fold_left (add_piece p) l (block_peer_map s)) s) ∧
  dom P = {[p]} ∪ peer_set s.
Proof.
  unfold add_pieces_for_peer. pose proof (peer_set_add p s) as Hp.
  rewrite (add_peer_id_frame p s) in *. set (P := peers (add_peer_id p s)) in *.
  cbn [set_peers block_peer_map]. destruct (negb _); cbn [snd].
  - eexists. split; [reflexivity|]. cbn [set_piece_map set_peers peers].
    rewrite dom_insert_L. change (dom P) with (peer_set (set_peers P s)). set_solver.
  - exists P. done.
Qed.

Lemma add_pieces_for_peer_ok p l s : state_ok s → state_ok (snd (add_pieces_for_peer p l s)).
Proof.
  intros [Hs Hi Hc Ho]. destruct (add_pieces_for_peer_spec p l s) as (P & -> & HP).
  split; cbn [set_peers set_piece_map block_peer_map peers_interested peers_not_choking];
    try change (peer_set (set_peers P ?x)) with (dom P); rewrite ?HP; [|set_solver..|].
  - intros q i. by rewrite has_add_pieces, owns_add_pieces, Hs.
  - etrans; [apply dom_add_pieces|]. set_solver.
Qed.

Lemma remove_peer_ok `{HashOrderOk} p s : state_ok s → state_ok (remove_peer p s).
Proof.
  intros Hok. pose proof (add_peer_id_ok p s Hok) as [Hs Hi Hc Ho]. unfold remove_peer.
  split; cbn [block_peer_map peers_interested peers_not_choking];
    try (unfold peer_set at 1; cbn [peers]; rewrite ?dom_delete_L; fold (peer_set (add_peer_id p s))).
  - intros q i. rewrite has_remove_peer, owns_remove_peer by done. by rewrite Hs.
  - set_solver.
  - set_solver.
  - unfold PieceMap_remove_peer. destruct (peers_to_pieces _ !! p) as [Y|] eqn:Hp; cbn.
    + rewrite dom_delete_L. set_solver.
    + apply not_elem_of_dom in Hp. set_solver.
Qed.

(** * What the queries answer *)

Lemma has_interest_spec p s : has_interest p s = true ↔
  ∃ i, i ∈ pieces_not_started (piece_block_tracking s) ∧ owns (block_peer_map s) p i.
Proof.
  unfold has_interest. rewrite negb_true_iff, bool_decide_eq_false. setoid_rewrite <-peer_interest_spec.
  split.
  - intros Hne. by apply set_choose_L in Hne.
  - intros (i & Hi) He. rewrite He in Hi. by apply not_elem_of_empty in Hi.
Qed.

Lemma fold_insert_lookup {A} (f : Z → A) l (m : gmap Z A) i :
  fold_left (λ m j, <[j := f j]> m) l m !! i = if decide (i ∈ l) then Some (f i) else m !! i.
Proof.
  revert m. induction l as [|j l IH]; intros m; cbn [fold_left]; [done|].
  rewrite IH. destruct (decide (i = j)) as [->|Hij].
  - rewrite lookup_insert_eq. by repeat case_decide; set_solver.
  - rewrite lookup_insert_ne by done. repeat case_decide; set_solver.
Qed.

Lemma piece_id_to_peers_lookup `{HashOrderOk} s i : piece_id_to_peers s !! i =
  if decide (i ∈ pieces_not_started (piece_block_tracking s) ∪
                 pieces_ (started (piece_block_tracking s)))
  then Some (peers_that_choke false s ∩ get_peers_with_piece (block_peer_map s) i) else None.
Proof.
  unfold piece_id_to_peers.
  rewrite (fold_insert_lookup
    (λ i, peers_that_choke false s ∩ get_peers_with_piece (block_peer_map s) i)).
  rewrite lookup_empty. unfold get_incomplete_pieces.
  apply decide_ext. rewrite elem_of_app, !elem_of_hash_iter. set_solver.
Qed.

Lemma dom_piece_id_to_peers `{HashOrderOk} s : dom (piece_id_to_peers s) =
  pieces_not_started (piece_block_tracking s) ∪ pieces_ (started (piece_block_tracking s)).
Proof.
  apply set_eq. intros i. rewrite elem_of_dom, piece_id_to_peers_lookup.
  case_decide; split; try done; by intros [].
Qed.

(** * Properties *)

(** Asking who chokes us and who does not, and who is
    interested and who is not, splits the connected peers in two each time, as the
    last message of each peer said. *)
Theorem choke_interest_partition s p b :
  peers_that_choke true s ∪ peers_that_choke false s = peer_set s ∧
  peers_that_choke true s ## peers_that_choke false s ∧
  peers_that_are_interested true s ∪ peers_that_are_interested false s = peer_set s ∧
  peers_that_are_interested true s ## peers_that_are_interested false s ∧
  p ∈ peers_that_choke b (set_peer_choked_us p b s) ∧
  p ∈ peers_that_are_interested b (set_peers_interested_in_us p b s).
Proof.
  unfold peers_that_choke, peers_that_are_interested. cbn [negb].
  split_and!; [| set_solver | | set_solver | | ].
  - apply set_eq. intros q. destruct (decide (q ∈ peers_not_choking s)); set_solver.
  - apply set_eq. intros q. destruct (decide (q ∈ peers_interested s)); set_solver.
  - unfold set_peer_choked_us. pose proof (peer_set_add p s).
    destruct b; cbn [negb]; change (peer_set (set_not_choking ?x ?y)) with (peer_set y); cbn; set_solver.
  - unfold set_peers_interested_in_us. pose proof (peer_set_add p s).
    destruct b; cbn [negb]; change (peer_set (set_interested ?x ?y)) with (peer_set y); cbn; set_solver.
Qed.

(** Learning what a peer has adds exactly these pieces to it,
    reports a gained interest exactly when it had no piece still to start and now has
    one, records it, and never reports a lost interest. *)
Theorem add_pieces_interest p l s :
  let '(r, s') := add_pieces_for_peer p l s in
  let wanted := pieces_not_started (piece_block_tracking s) in
  (∀ q i, owns (block_peer_map s') q i ↔ (q = p ∧ i ∈ l) ∨ owns (block_peer_map s) q i) ∧
  (r = Some true ↔ (∀ i, i ∈ wanted → ¬ owns (block_peer_map s) p i) ∧ ∃ i, i ∈ wanted ∧ i ∈ l) ∧
  (r = Some true → interested <$> peers s' !! p = Some true) ∧
  r ≠ Some false.
Proof.
  destruct (add_pieces_for_peer p l s) as [r s'] eqn:Hr. intros wanted.
  destruct (add_pieces_for_peer_spec p l s) as (P & Hs' & _). rewrite Hr in Hs'. cbn [snd] in Hs'.
  assert (∀ q i, owns (block_peer_map s') q i ↔ (q = p ∧ i ∈ l) ∨ owns (block_peer_map s) q i) as Ho.
  { intros q i. rewrite Hs'. cbn. apply owns_add_pieces. }
  split; [done|]. unfold add_pieces_for_peer in Hr. rewrite add_peer_id_frame in Hr.
  set (s1 := set_peers _ s) in Hr.
  set (s2 := set_piece_map (fold_left (add_piece p) l (block_peer_map s1)) s1) in Hr.
  assert (has_interest p s1 = true ↔ ∃ i, i ∈ wanted ∧ owns (block_peer_map s) p i) as Hi1
    by exact (has_interest_spec p s1).
  assert (has_interest p s2 = true ↔ (∃ i, i ∈ wanted ∧ i ∈ l) ∨ has_interest p s1 = true) as Hi2.
  { rewrite Hi1, has_interest_spec. unfold s2. cbn [block_peer_map piece_block_tracking set_piece_map].
    setoid_rewrite owns_add_pieces. naive_solver. }
  destruct (has_interest p s1) eqn:H1, (has_interest p s2) eqn:H2; cbn in Hr; injection Hr as <- <-.
  - split_and!; [|done|done]. split; [done|]. intros [Hn _]. destruct Hi1 as [(i & ? & ?) _]; naive_solver.
  - exfalso. by apply diff_false_true, Hi2; right.
  - split_and!; [|by cbn; rewrite lookup_insert_eq|done]. split; [|done]. intros _. split.
    + intros i Hw Hown. apply diff_false_true, Hi1. by exists i.
    + by destruct (proj1 Hi2 eq_refl).
  - split_and!; [|done|done]. split; [done|]. intros [_ He]. exfalso.
    by apply diff_false_true, Hi2; left.
Qed.

(** C30. The table of pieces to download lists exactly the
    pieces started or to start, each with the connected peers that have it and do not
    choke us, whatever the iteration order of the sets. *)
Theorem piece_id_to_peers_spec `{HashOrderOk} s i X : state_ok s →
  piece_id_to_peers s !! i = Some X ↔
  (i ∈ pieces_not_started (piece_block_tracking s) ∨
   i ∈ pieces_ (started (piece_block_tracking s))) ∧
  ∀ p, p ∈ X ↔ is_Some (peers s !! p) ∧ p ∈ peers_not_choking s ∧ owns (block_peer_map s) p i.
Proof.
  intros [Hsym _ _ _]. rewrite piece_id_to_peers_lookup, <-elem_of_union.
  set (Y := peers_that_choke false s ∩ _).
  assert (∀ p, p ∈ Y ↔ is_Some (peers s !! p) ∧ p ∈ peers_not_choking s ∧
    owns (block_peer_map s) p i) as HY.
  { intros p. unfold Y, peers_that_choke, peer_set. rewrite !elem_of_intersection, elem_of_dom, <-Hsym.
    unfold has. naive_solver. }
  case_decide as Hi; [|naive_solver]. split.
  - by intros [= <-].
  - intros [_ HX]. f_equal. apply set_eq. intros p. by rewrite HX, HY.
Qed.

(** Removing a peer erases it from the table of peers, the sets
    of choking and interested peers and both piece maps, and leaves every other peer
    as it was; requests it was given stay until they expire. *)
Theorem remove_peer_erases `{HashOrderOk} s p : state_ok s →
  let s' := remove_peer p s in
  peers s' = delete p (peers s) ∧
  peers_interested s' = peers_interested s ∖ {[p]} ∧
  peers_not_choking s' = peers_not_choking s ∖ {[p]} ∧
  (∀ q i, has (block_peer_map s') q i ↔ has (block_peer_map s) q i ∧ q ≠ p) ∧
  (∀ q i, owns (block_peer_map s') q i ↔ owns (block_peer_map s) q i ∧ q ≠ p) ∧
  piece_block_tracking s' = piece_block_tracking s.
Proof.
  intros Hok. pose proof Hok as [Hs _ _ _]. unfold remove_peer. rewrite add_peer_id_frame.
  cbn [set_peers peers peers_interested peers_not_choking block_peer_map piece_block_tracking].
  split_and!; [|done|done| | |done].
  - unfold add_peer_id. destruct (peers s !! p); [done|]. cbn. by rewrite delete_insert_eq.
  - intros q i. by apply has_remove_peer.
  - intros q i. apply owns_remove_peer.
Qed.

(** * A concrete state *)

Module StateExamples.
Import ElementsOrder.

Definition alice : InternalPeerId := [x41].
Definition bob : InternalPeerId := [x42].

(** Three pieces; [alice] has the first and the third and does not choke us,
    [bob] has the third and chokes us. *)
Definition meeting : TorrentState :=
  let s := TorrentState_new [mkPiece []; mkPiece []; mkPiece []] 10 in
  let s := snd (add_pieces_for_peer alice [0; 2] s) in
  let s := set_peer_choked_us alice false s in
  let s := snd (add_pieces_for_peer bob [2] s) in
  set_peer_choked_us bob true s.

Lemma meeting_ok : state_ok meeting.
Proof.
  apply set_peer_choked_us_ok, add_pieces_for_peer_ok, set_peer_choked_us_ok, add_pieces_for_peer_ok,
    TorrentState_new_ok.
Qed.

Example meeting_downloads :
  map (λ x, (x.1, elements x.2)) (btree_iter (piece_id_to_peers meeting)) =
    [(0, [alice]); (1, []); (2, [alice])].
Proof. vm_compute. reflexivity. Qed.

Example second_bitfield_is_no_news : fst (add_pieces_for_peer bob [0; 1; 2] meeting) = None.
Proof. vm_compute. reflexivity. Qed.

Lemma piece_id_to_peers_spec_witness : owns (block_peer_map meeting) alice 2.
Proof.
  assert (elements <$> (piece_id_to_peers meeting !! 2) = Some [alice]) as He
    by (vm_compute; reflexivity).
  destruct (piece_id_to_peers meeting !! 2) as [X|] eqn:HX; [|discriminate He].
  destruct (proj1 (piece_id_to_peers_spec meeting 2 X meeting_ok) HX) as [_ Hp].
  apply (Hp alice). apply elem_of_elements. injection He as ->. left.
Defined.

Lemma remove_peer_erases_witness : peers_not_choking (remove_peer alice meeting) = ∅.
Proof.
  destruct (remove_peer_erases meeting alice meeting_ok) as (_ & _ & He & _).
  vm_compute in He |- *. exact He.
Defined.
End StateExamples.
