(* ===== verification/Processor.v ===== *)
(** The torrent processor, [TorrentProcessor] of [src/src/peer/state/mod.rs]:
    the handlers of the messages of a peer, of the wake-ups and of the timer.

    A handler runs on a [World]: the torrent's state (behind the mutex in the
    code) and the network. The channels to the peers, the channel of the
    wake-ups and the storage's task are behind the interface [Env]. *)
From S2P Require Import Prelude ByteStr BytesCrate Model Protocol Errors Bitfield Collections.
From S2P Require Import Allocation Piece State.
From Stdlib Require Import ZArith Lia.

Inductive InternalStateMessage :=
  | Wakeup
  | PieceComplete (piece_id : Z)
  | PeerRequested (request : PeerRequestedPiece).

(** What the handlers use of [tokio]'s channels and of the [IoHandler]. [tx_send]
    is [tx.send(msg).await.is_ok()], which fails once the receiver is gone. [N]
    is the state of all that is outside the processor: it changes while a handler
    waits. *)
Class Env (Tx N : Type) := {
  tx_send : Tx → Messages → N → bool * N;
  tx_is_closed : Tx → N → bool;
  wake_send : InternalStateMessage → N → bool * N;
  io_read : Z → Z → Z → N → (AnyError + list byte) * N;
  io_write : Z → Z → list byte → N → (AnyError + bool) * N;
}.

Record InnerTorrentState := mkInner { torrent : V1Torrent; torrent_state : TorrentState }.

Definition InnerTorrentState_new (torrent : V1Torrent) (max_outstanding_requests : Z)
    : InnerTorrentState :=
  mkInner torrent (TorrentState_new (pieces (info torrent)) max_outstanding_requests).

Record World (N : Type) := mkWorld { inner : InnerTorrentState; net : N }.
Arguments mkWorld {N} _ _.
Arguments inner {N} _.
Arguments net {N} _.

(** How a handler of a peer's message ends: the loop goes on, or stops. *)
Inductive Flow := Continue | Break.

Section processor.
Context {Tx N : Type} `{Env Tx N}.
Context `{BytesCrate} `{Profile} `{HashOrder}.

Abbreviation PeerToSender := (gmap InternalPeerId Tx).
Abbreviation World := (World N).

Definition on_state (f : TorrentState → TorrentState) (w : World) : World :=
  mkWorld (mkInner (torrent (inner w)) (f (torrent_state (inner w)))) (net w).
Definition on_net {A} (f : N → A * N) (w : World) : A * World :=
  let '(r, e) := f (net w) in (r, mkWorld (inner w) e).

(** The state behind the lock. *)
Definition locked (w : World) : TorrentState := torrent_state (inner w).
Definition tracker (w : World) : PieceBlockTracker := piece_block_tracking (locked w).
Definition on_tracker (f : PieceBlockTracker → PieceBlockTracker) : World → World :=
  on_state (λ s, set_tracking (f (piece_block_tracking s)) s).

Definition send (tx : Tx) (msg : Messages) : World → bool * World := on_net (tx_send tx msg).

(** [unlock_and_send!] on the wake-up channel, then on with the loop. *)
Definition unlock_and_send (msg : InternalStateMessage) (w : World) : outcome AnyError Flow * World :=
  let '(ok, w) := on_net (wake_send msg) w in
  if ok then (Ret Continue, w) else (Err AE_Send, w).

(** * The timer *)

Definition choke_peer (peer_to_tx : PeerToSender) (w : World) (p : InternalPeerId * bool) : World :=
  let '(peer_id, choked) := p in
  let w := on_state (λ s, set_peers
             (alter (λ peer, mkPeerState choked (interested peer)) peer_id (peers s)) s) w in
  match peer_to_tx !! peer_id with
  | Some tx => snd (send tx (Flag (if choked then Choke else Unchoke)) w)
  | None => w
  end.

Definition compute_unchoke (peer_to_tx : PeerToSender) (w : World) : World :=
  let ideal_stationary_choke_size := 4%nat in
  let s := locked w in
  let interested_peers := peers_that_are_interested true s in
  if bool_decide (interested_peers = ∅) then w
  else
    let unchoked_peers := dom (filter (λ kv, choked kv.2 = false) (peers s)) in
    let stationary_peer_set := unchoked_peers ∪ interested_peers in
    let stationary_peer_set_len := size stationary_peer_set in
    if (stationary_peer_set_len <? ideal_stationary_choke_size)%nat then
      let new_potential_peers := hash_iter 0 (interested_peers ∖ stationary_peer_set) in
      let combined_peers := map (λ k, (k, false))
        (take (ideal_stationary_choke_size - stationary_peer_set_len) new_potential_peers) in
      let peers_that_left := map (λ k, (k, true))
        (hash_iter 1 (unchoked_peers ∖ stationary_peer_set)) in
      fold_left (choke_peer peer_to_tx) (combined_peers ++ peers_that_left) w
    else w.

(** The branch of the timer: the error ends the processor. *)
Definition timer_tick (now : Z) (peer_to_tx : PeerToSender) (w : World)
    : outcome AnyError unit * World :=
  let w := compute_unchoke peer_to_tx w in
  let '(expired, t) := remove_expired now (tracker w) in
  let w := on_tracker (λ _, t) w in
  if bool_decide (expired = []) then (Ret tt, w)
  else
    let '(ok, w) := on_net (wake_send Wakeup) w in
    if ok then (Ret tt, w) else (Err AE_Send, w).

(** * The wake-ups *)

Definition queue_requests (request : PeerRequestedPiece) (w : World) : World :=
  match get_internal_peer_state (req_peer_id request) (locked w) with
  | Some _ => on_state (λ s, set_requests (outstanding_peer_requests s ++ [request]) s) w
  | None => w
  end.

(** The [while let] loop: the requests taken, and the queue left. The request
    popped when enough have been taken is neither. *)
Fixpoint take_requests (queue : list PeerRequestedPiece) (to_deq dequed_cnt : Z)
    : list PeerRequestedPiece * list PeerRequestedPiece :=
  match queue with
  | [] => ([], [])
  | dq :: queue =>
      if to_deq <=? dequed_cnt then ([], queue)
      else let '(deque, queue) := take_requests queue to_deq (dequed_cnt + 1) in
           (dq :: deque, queue)
  end.

Fixpoint answer_requests (peer_to_tx : PeerToSender) (dequed : list PeerRequestedPiece) (w : World)
    : outcome AnyError unit * World :=
  match dequed with
  | [] => (Ret tt, w)
  | dq :: dequed =>
      match peer_to_tx !! req_peer_id dq with
      | Some tx =>
          match on_net (io_read (req_index dq) (req_begin dq) (req_length dq)) w with
          | (inr block, w) =>
              let '(_, w) := send tx (Piece (req_index dq) (req_begin dq) block) w in
              answer_requests peer_to_tx dequed w
          | (inl e, w) => (Err e, w)
          end
      | None => answer_requests peer_to_tx dequed w
      end
  end.

Definition dequeue_requests (peer_to_tx : PeerToSender) (w : World)
    : outcome AnyError unit * World :=
  let to_deq := 4 in
  let '(dequed, queue) := take_requests (outstanding_peer_requests (locked w)) to_deq 0 in
  answer_requests peer_to_tx dequed (on_state (set_requests queue) w).

Definition prune_closed_tx (peer_to_tx : PeerToSender) (w : World) : PeerToSender :=
  let closed_keys := filter (λ p : InternalPeerId * Tx, tx_is_closed p.2 (net w) = true)
                       (map_to_list peer_to_tx) in
  fold_left (λ m p, delete p.1 m) closed_keys peer_to_tx.

(** [for (_, tx) in peer_to_tx.iter()]. *)
Definition announce_piece (peer_to_tx : PeerToSender) (piece_id : Z) (w : World) : World :=
  fold_left (λ w peer_id, match peer_to_tx !! peer_id with
                          | Some tx => snd (send tx (Have piece_id) w)
                          | None => w
                          end) (hash_iter 2 (dom peer_to_tx)) w.

Definition dispatch (peer_to_tx : PeerToSender) (w : World) (request : PeerRequestedPiece) : World :=
  let '(sent, w) :=
    match peer_to_tx !! req_peer_id request with
    | Some tx => send tx (Request (req_index request) (req_begin request) (req_length request)) w
    | None => (false, w)
    end in
  if sent : bool then w else on_tracker (λ t, snd (remove_request t request)) w.

Definition compute_requests_for_download (clock : Z → Z) (peer_to_tx : PeerToSender) (w : World)
    : outcome AnyError unit * World :=
  let s := locked w in
  let peer_to_pieces_available := piece_id_to_peers s in
  match generate_assignments clock (torrent (inner w)) peer_to_pieces_available
          (piece_block_tracking s) with
  | Ret (requests, t) =>
      (Ret tt, fold_left (dispatch peer_to_tx) requests (on_tracker (λ _, t) w))
  | Err e => (Err e, w)
  | Panic => (Panic, w)
  end.

(** The branch of the wake-ups; the result of [dequeue_requests] is only
    logged. *)
Definition wake_up (clock : Z → Z) (peer_to_tx : PeerToSender) (msg : InternalStateMessage)
    (w : World) : outcome AnyError PeerToSender * World :=
  let peer_to_tx := prune_closed_tx peer_to_tx w in
  let w := match msg with
           | Wakeup => w
           | PieceComplete piece_id => announce_piece peer_to_tx piece_id w
           | PeerRequested request => queue_requests request w
           end in
  match compute_requests_for_download clock peer_to_tx w with
  | (Ret _, w) =>
      match dequeue_requests peer_to_tx w with
      | (Panic, w) => (Panic, w)
      | (_, w) => (Ret peer_to_tx, w)
      end
  | (Err e, w) => (Err e, w)
  | (Panic, w) => (Panic, w)
  end.

(** * A new peer *)

Definition init_connection (tx : Tx) (w : World) : outcome AnyError unit * World :=
  let completed := get_pieces_completed (tracker w) in
  match put_bit_set (BitFieldWriter_new []) completed
          (zlen (pieces (info (torrent (inner w))))) with
  | Ret bitfield =>
      let '(ok, w) := send tx (BitField (BitFieldWriter_into bitfield)) w in
      if negb ok then (Err AE_Send, w)
      else
        let '(ok, w) := send tx (Flag Choke) w in
        if negb ok then (Err AE_Send, w)
        else
          let '(ok, w) := send tx (Flag NotInterested) w in
          if negb ok then (Err AE_Send, w) else (Ret tt, w)
  | Err e => (Err e, w)
  | Panic => (Panic, w)
  end.

(** * The messages of a peer *)

(** The pieces of a bit field. The iterator has at most eight bits per byte. *)
Definition bitfield_pieces (bitfield : list byte) : outcome AnyError (list Z) :=
  match collect (S (8 * length bitfield)) (BitFieldReaderIter_from (mkReader bitfield)) with
  | Some (Ret bits) => Ret (pieces_present bits)
  | Some (Err e) => Err e
  | _ => Panic
  end.

(** [add_pieces_for_peer], and the message that tells our interest. *)
Definition learn_pieces (peer_id : InternalPeerId) (tx : Tx) (pieces : list Z) (w : World)
    : outcome AnyError Flow * World :=
  let '(interest_change, s) := add_pieces_for_peer peer_id pieces (locked w) in
  let w := on_state (λ _, s) w in
  match interest_change with
  | Some interest =>
      let '(ok, w) := send tx (interest_msg interest) w in
      if negb ok then (Ret Break, w) else unlock_and_send Wakeup w
  | None => unlock_and_send Wakeup w
  end.

Definition handle_msg (peer_id : InternalPeerId) (tx : Tx) (msg : Messages) (w : World)
    : outcome AnyError Flow * World :=
  match msg with
  | KeepAlive => (Ret Continue, w)
  | Flag flag =>
      let w := on_state
        (match flag with
         | Choke => set_peer_choked_us peer_id true
         | Unchoke => set_peer_choked_us peer_id false
         | Interested => set_peers_interested_in_us peer_id true
         | NotInterested => set_peers_interested_in_us peer_id false
         end) w in
      unlock_and_send Wakeup w
  | Have piece_index => learn_pieces peer_id tx [piece_index] w
  | BitField bitfield =>
      match bitfield_pieces bitfield with
      | Ret pieces_present => learn_pieces peer_id tx pieces_present w
      | Err e => (Err e, w)
      | Panic => (Panic, w)
      end
  | Request index begin length =>
      let choked := match get_internal_peer_state peer_id (locked w) with
                    | Some peer_state => choked peer_state
                    | None => true
                    end in
      if choked : bool then (Ret Continue, w)
      else unlock_and_send (PeerRequested (mkRequest peer_id index begin length)) w
  | Cancel _ _ _ => (Ret Continue, w)
  | Piece index begin block =>
      match on_net (io_write index begin block) w with
      | (inr finished, w) =>
          if finished : bool then
            unlock_and_send (PieceComplete index)
              (on_tracker (λ t, set_piece_finished t index) w)
          else
            unlock_and_send Wakeup
              (on_tracker (λ t, snd (set_request_finished t index begin)) w)
      | (inl e, w) => (Err e, w)
      end
  end.

(** [while let Some(msg) = rx.recv().await]: the messages received until the
    channel closes. *)
Fixpoint inner_handle_peer_msgs (peer_id : InternalPeerId) (tx : Tx) (rx : list Messages) (w : World)
    : outcome AnyError unit * World :=
  match rx with
  | [] => (Ret tt, w)
  | msg :: rx =>
      match handle_msg peer_id tx msg w with
      | (Ret Continue, w) => inner_handle_peer_msgs peer_id tx rx w
      | (Ret Break, w) => (Ret tt, w)
      | (Err e, w) => (Err e, w)
      | (Panic, w) => (Panic, w)
      end
  end.
End processor.

(** * The main loop

    [handlers] are the futures of [handle_peer_requests_fq] still running, with
    the sender each got, [finished] the peers of those that have ended. *)
Record Proc (Tx N : Type) := mkProc {
  world : World N;
  peer_to_tx : gmap InternalPeerId Tx;
  handlers : list (InternalPeerId * Tx);
  finished : list InternalPeerId;
}.
Arguments mkProc {Tx N} _ _ _ _.
Arguments world {Tx N} _.
Arguments peer_to_tx {Tx N} _.
Arguments handlers {Tx N} _.
Arguments finished {Tx N} _.

Fixpoint remove_one {A} `{EqDecision A} (x : A) (l : list A) : list A :=
  match l with
  | [] => []
  | y :: l => if decide (x = y) then l else y :: remove_one x l
  end.

Section main_loop.
Context {Tx N : Type} `{Env Tx N} `{EqDecision Tx}.
Context `{BytesCrate} `{Profile} `{HashOrder}.

Definition Proc_new (torrent : V1Torrent) (max_outstanding_requests : Z) (net : N) : Proc Tx N :=
  mkProc (mkWorld (InnerTorrentState_new torrent max_outstanding_requests) net) ∅ [] [].

(** [Some(new) = rx.recv()]. *)
Definition accept_peer (handshake : Handshake) (tx : Tx) (p : Proc Tx N)
    : outcome AnyError (Proc Tx N) :=
  match init_connection tx (world p) with
  | (Ret _, w) =>
      let id := peer_id (peer_ctx handshake) in
      Ret (mkProc w (<[id := tx]> (peer_to_tx p)) ((id, tx) :: handlers p) (finished p))
  | (Err _, w) => Ret (mkProc w (peer_to_tx p) (handlers p) (finished p))
  | (Panic, _) => Panic
  end.

(** A handler ends, with its channel closed or with a result. *)
Definition stop_handler (h : InternalPeerId * Tx) (p : Proc Tx N) : Proc Tx N :=
  mkProc (world p) (peer_to_tx p) (remove_one h (handlers p)) (h.1 :: finished p).

(** A turn of [inner_handle_peer_msgs]. *)
Definition peer_message (h : InternalPeerId * Tx) (msg : Messages) (p : Proc Tx N)
    : outcome AnyError (Proc Tx N) :=
  match handle_msg h.1 h.2 msg (world p) with
  | (Ret Continue, w) => Ret (mkProc w (peer_to_tx p) (handlers p) (finished p))
  | (Ret Break, w) | (Err _, w) =>
      Ret (stop_handler h (mkProc w (peer_to_tx p) (handlers p) (finished p)))
  | (Panic, _) => Panic
  end.

(** [Some((peer_id, res)) = handle_peer_requests_fq.next()]. *)
Definition handler_finished (peer_id : InternalPeerId) (p : Proc Tx N) : Proc Tx N :=
  mkProc (on_state (remove_peer peer_id) (world p)) (delete peer_id (peer_to_tx p)) (handlers p)
    (remove_one peer_id (finished p)).

(** [Some(msg) = wake_up_rx.recv()]. *)
Definition wake_event (clock : Z → Z) (msg : InternalStateMessage) (p : Proc Tx N)
    : outcome AnyError (Proc Tx N) :=
  match wake_up clock (peer_to_tx p) msg (world p) with
  | (Ret txs, w) => Ret (mkProc w txs (handlers p) (finished p))
  | (Err e, _) => Err e
  | (Panic, _) => Panic
  end.

(** [timeout_fut.tick()]; an error leaves the loop. *)
Definition timer_event (now : Z) (p : Proc Tx N) : outcome AnyError (Proc Tx N) :=
  match timer_tick now (peer_to_tx p) (world p) with
  | (Ret _, w) => Ret (mkProc w (peer_to_tx p) (handlers p) (finished p))
  | (Err e, _) => Err e
  | (Panic, _) => Panic
  end.
End main_loop.

(** A frame is shorter than 4 GiB. *)
Definition msg_ok (msg : Messages) : Prop :=
  match msg with BitField b => zlen b < 2 ^ 32 | _ => True end.

(** The part of the channels' documented behaviour that matters here: what the
    processor has sent to each peer and to itself, in order. A send that fails
    sends nothing, and the storage does not send. *)
Class EnvOk (Tx N : Type) `{Env Tx N} := {
  sent : N → list (Tx * Messages);
  woken : N → list InternalStateMessage;
  tx_send_log tx msg e ok e' : tx_send tx msg e = (ok, e') →
    sent e' = sent e ++ (if ok then [(tx, msg)] else []) ∧ woken e' = woken e;
  wake_send_log msg e ok e' : wake_send msg e = (ok, e') →
    sent e' = sent e ∧ woken e' = woken e ++ (if ok then [msg] else []);
  io_read_log i b k e r e' : io_read i b k e = (r, e') → sent e' = sent e ∧ woken e' = woken e;
  io_write_log i b l e r e' : io_write i b l e = (r, e') → sent e' = sent e ∧ woken e' = woken e;
}.

(** The processor, in any order of events, with the last instant read. Outside
    the processor the network changes as it likes. *)
Inductive proc_step {Tx N} `{EnvOk Tx N, EqDecision Tx, BytesCrate, Profile} :
    Z * Proc Tx N → Z * Proc Tx N → Prop :=
  | step_accept c p h tx p' : accept_peer h tx p = Ret p' → proc_step (c, p) (c, p')
  | step_message c p h msg p' : h ∈ handlers p → msg_ok msg →
      peer_message h msg p = Ret p' → proc_step (c, p) (c, p')
  | step_eof c p h : h ∈ handlers p → proc_step (c, p) (c, stop_handler h p)
  | step_finished c p q (O : HashOrder) : HashOrderOk O →
      q ∈ finished p → proc_step (c, p) (c, handler_finished q p)
  | step_wake c c' p msg clock p' (O : HashOrder) : HashOrderOk O →
      (∀ i j, i ≤ j → clock i ≤ clock j) → (∀ i, c ≤ clock i ≤ c') →
      wake_event clock msg p = Ret p' → proc_step (c, p) (c', p')
  | step_timer c now p p' (O : HashOrder) : HashOrderOk O → c ≤ now →
      timer_event now p = Ret p' → proc_step (c, p) (now, p')
  | step_env c p e : sent e = sent (net (world p)) →
      proc_step (c, p) (c, mkProc (mkWorld (inner (world p)) e) (peer_to_tx p) (handlers p) (finished p)).

(** * Invariant *)

Section processor_facts.
Context {Tx N : Type} `{Env Tx N}.
Context `{BytesCrate} `{Profile} `{HashOrderOk}.
Abbreviation PeerToSender := (gmap InternalPeerId Tx).
Abbreviation World := (World N).

(** ** [compute_unchoke] does nothing *)
Lemma compute_unchoke_id (txs : PeerToSender) (w : World) : compute_unchoke txs w = w.
Proof.
  unfold compute_unchoke. case_bool_decide; [done|]. case_match; [|done].
  set (I := peers_that_are_interested true _). set (U := dom _).
  assert (hash_iter 0 (I ∖ (U ∪ I)) = []) as ->.
  { apply head_None. apply head_hash_iter_None. set_solver. }
  assert (hash_iter 1 (U ∖ (U ∪ I)) = []) as ->.
  { apply head_None. apply head_hash_iter_None. set_solver. }
  by rewrite take_nil.
Qed.

Context (tor : V1Torrent) (Hwf : wf_torrent tor).

Record inner_ok (c : Z) (s : InnerTorrentState) : Prop := {
  ok_torrent : torrent s = tor;
  ok_tracker : tracker_ok (zlen (pieces (info tor))) c (piece_block_tracking (torrent_state s));
  ok_state : state_ok (torrent_state s);
}.

Lemma on_net_inner {A} (f : N → A * N) (w : World) : inner (snd (on_net f w)) = inner w.
Proof. unfold on_net. by destruct (f (net w)). Qed.

Lemma on_state_ok c f (w : World) :
  (∀ s, piece_block_tracking (f s) = piece_block_tracking s) → (∀ s, state_ok s → state_ok (f s)) →
  inner_ok c (inner w) → inner_ok c (inner (on_state f w)).
Proof.
  intros Ht Hs [Htor Htr Hst]. split; cbn; [done|by rewrite Ht|by apply Hs].
Qed.

Lemma on_tracker_ok c c' f (w : World) :
  (∀ t, tracker_ok (zlen (pieces (info tor))) c t → tracker_ok (zlen (pieces (info tor))) c' (f t)) →
  inner_ok c (inner w) → inner_ok c' (inner (on_tracker f w)).
Proof.
  intros Ht [Htor Htr Hst]. split; cbn; [done|by apply Ht|by apply set_tracking_ok].
Qed.

Lemma inner_ok_clock c c' s : inner_ok c s → c ≤ c' → inner_ok c' s.
Proof. intros [] Hc. split; try done. by eapply tracker_ok_clock. Qed.

Lemma unlock_and_send_inner msg (w : World) : inner (snd (unlock_and_send msg w)) = inner w.
Proof.
  unfold unlock_and_send. pose proof (on_net_inner (wake_send msg) w).
  by destruct (on_net _ w) as [[] ?].
Qed.

Lemma unlock_and_send_no_panic msg (w : World) : fst (unlock_and_send msg w) ≠ Panic.
Proof. unfold unlock_and_send. by destruct (on_net _ w) as [[] ?]. Qed.

Lemma prune_in (txs : PeerToSender) (w : World) : prune_closed_tx txs w ⊆ txs.
Proof.
  unfold prune_closed_tx. generalize (filter (λ p : InternalPeerId * Tx, tx_is_closed p.2 (net w) = true)
    (map_to_list txs)). intros l. 
  assert (∀ m, m ⊆ txs → fold_left (λ m p, delete p.1 m) l m ⊆ txs); [|auto].
  induction l as [|x l IH]; intros m Hm; [done|]. apply IH. etrans; [apply delete_subseteq|done].
Qed.

Lemma timer_tick_ok (c now : Z) (txs : PeerToSender) (w : World) : inner_ok c (inner w) → c ≤ now →
  fst (timer_tick now txs w) ≠ Panic ∧ inner_ok now (inner (snd (timer_tick now txs w))).
Proof.
  intros Hok Hc. unfold timer_tick. rewrite compute_unchoke_id.
  destruct (remove_expired now (tracker w)) as [expired t] eqn:Hrun.
  assert (inner_ok now (inner (on_tracker (λ _, t) w))) as Hok'.
  { destruct Hok as [Htor Htr Hst]. split; cbn; [done| |by apply set_tracking_ok].
    by eapply remove_expired_spec. }
  case_bool_decide; [done|]. pose proof (on_net_inner (wake_send Wakeup) (on_tracker (λ _, t) w)) as Hi.
  destruct (on_net _ _) as [[] w']; cbn in *; by rewrite Hi.
Qed.

(** ** The wake-ups *)

Lemma queue_requests_ok c r (w : World) : inner_ok c (inner w) → inner_ok c (inner (queue_requests r w)).
Proof.
  intros Hok. unfold queue_requests. destruct (get_internal_peer_state _ _); [|done].
  by apply on_state_ok; [|intros; apply set_requests_ok|].
Qed.

Lemma answer_requests_ok (txs : PeerToSender) l : ∀ w : World,
  fst (answer_requests txs l w) ≠ Panic ∧ inner (snd (answer_requests txs l w)) = inner w.
Proof.
  induction l as [|r l IH]; intros w; cbn [answer_requests]; [done|].
  destruct (txs !! _) as [tx|]; [|apply IH].
  pose proof (on_net_inner (io_read (req_index r) (req_begin r) (req_length r)) w) as Hi.
  destruct (on_net _ w) as [[e|block] w1]; cbn in Hi; [done|].
  pose proof (on_net_inner (tx_send tx (Piece (req_index r) (req_begin r) block)) w1) as Hi2.
  unfold send. destruct (on_net _ w1) as [ok w2]; cbn in Hi2.
  destruct (IH w2) as [Hp Hw]. split; [done|congruence].
Qed.

Lemma dequeue_requests_ok (c : Z) (txs : PeerToSender) (w : World) : inner_ok c (inner w) →
  fst (dequeue_requests txs w) ≠ Panic ∧ inner_ok c (inner (snd (dequeue_requests txs w))).
Proof.
  intros Hok. unfold dequeue_requests. destruct (take_requests _ _ _) as [l q].
  destruct (answer_requests_ok txs l (on_state (set_requests q) w)) as [Hp Hi].
  split; [done|]. rewrite Hi. by apply on_state_ok; [|intros; apply set_requests_ok|].
Qed.

Lemma announce_piece_inner (txs : PeerToSender) (i : Z) (w : World) : inner (announce_piece txs i w) = inner w.
Proof.
  unfold announce_piece. generalize (hash_iter 2 (dom txs)). intros l. revert w.
  induction l as [|q l IH]; intros w; [done|]. cbn [fold_left]. rewrite IH.
  destruct (txs !! q); [|done]. apply on_net_inner.
Qed.

Lemma dispatch_ok (c : Z) (txs : PeerToSender) (w : World) r : inner_ok c (inner w) →
  inner_ok c (inner (dispatch txs w r)).
Proof.
  intros Hok. unfold dispatch. 
  assert (∀ b (w' : World), inner w' = inner w → inner_ok c (inner
    (if b : bool then w' else on_tracker (λ t, snd (remove_request t r)) w'))) as Hgen.
  { intros [] w' Hw; [by rewrite Hw|]. apply (on_tracker_ok c); [|by rewrite Hw].
    intros t. apply remove_request_ok. }
  destruct (txs !! _) as [tx|]; [|by apply (Hgen false)].
  pose proof (on_net_inner (tx_send tx (Request (req_index r) (req_begin r) (req_length r))) w) as Hi.
  unfold send. destruct (on_net _ w) as [b w']. by apply Hgen.
Qed.

Lemma dispatch_all_ok (c : Z) (txs : PeerToSender) l : ∀ w : World, inner_ok c (inner w) →
  inner_ok c (inner (fold_left (dispatch txs) l w)).
Proof.
  induction l as [|r l IH]; intros w Hok; [done|]. by apply IH, dispatch_ok.
Qed.

Lemma clock_ok_available c c' clock s : (∀ i j, i ≤ j → clock i ≤ clock j) →
  (∀ i, c ≤ clock i ≤ c') → tracker_ok (zlen (pieces (info tor))) c (piece_block_tracking s) →
  clock_ok tor c clock (piece_id_to_peers s).
Proof.
  intros Hm Hc Hok. split; [done|]. intros p Hp. rewrite dom_piece_id_to_peers in Hp.
  split; [|apply Hc]. by apply (ok_range _ _ _ Hok).
Qed.

Lemma compute_requests_ok (c c' : Z) (clock : Z → Z) (txs : PeerToSender) (w : World) : inner_ok c (inner w) →
  (∀ i j, i ≤ j → clock i ≤ clock j) → (∀ i, c ≤ clock i ≤ c') →
  ∃ w', compute_requests_for_download clock txs w = (Ret tt, w') ∧ inner_ok c' (inner w').
Proof.
  intros Hok Hm Hc. pose proof Hok as [Htor Htr Hst]. pose proof (Hc 0).
  unfold compute_requests_for_download. rewrite Htor.
  destruct (generate_starts (E := AnyError) tor Hwf clock (piece_id_to_peers (locked w)) c (tracker w))
    as (reqs & c2 & t' & Hrun & Hs & _ & _ & Hle); [done|by eapply clock_ok_available|].
  change (piece_block_tracking (locked w)) with (tracker w). rewrite Hrun.
  eexists. split; [reflexivity|]. apply dispatch_all_ok.
  apply (on_tracker_ok c); [|done]. intros t _. eapply tracker_ok_clock; [by eapply starts_ok|].
  apply Hle; [lia|]. intros p _. apply Hc.
Qed.

Lemma wake_up_ok (c c' : Z) (clock : Z → Z) (txs : PeerToSender) msg (w : World) : inner_ok c (inner w) →
  (∀ i j, i ≤ j → clock i ≤ clock j) → (∀ i, c ≤ clock i ≤ c') →
  ∃ txs' w', wake_up clock txs msg w = (Ret txs', w') ∧ inner_ok c' (inner w').
Proof.
  intros Hok Hm Hc. unfold wake_up. set (txs' := prune_closed_tx txs w). 
  set (w1 := match msg with
             | Wakeup => w
             | PieceComplete i => announce_piece txs' i w
             | PeerRequested r => queue_requests r w
             end).
  assert (inner_ok c (inner w1)) as Hok1.
  { subst w1. destruct msg; [done|by rewrite announce_piece_inner|by apply queue_requests_ok]. }
  destruct (compute_requests_ok c c' clock txs' w1 Hok1 Hm Hc) as (w2 & -> & Hok2).
  destruct (dequeue_requests_ok c' txs' w2 Hok2) as [Hp Hok3].
  destruct (dequeue_requests txs' w2) as [[] w3]; [by eauto|by eauto|done].
Qed.

(** ** A new peer, and the messages of a peer *)

Lemma bitfield_pieces_spec b : zlen b < 2 ^ 32 →
  bitfield_pieces b = Ret (pieces_present (all_bits b)).
Proof.
  intros Hb. unfold bitfield_pieces.
  rewrite (collect_all (E := AnyError) (mkReader b)) by (cbn [reader_bytes]; zlia). done.
Qed.

Lemma send_inner tx msg (w : World) : inner (snd (send tx msg w)) = inner w.
Proof. apply on_net_inner. Qed.

Lemma init_connection_ok `{!BytesCrateOk _} c tx (w : World) : inner_ok c (inner w) →
  fst (init_connection tx w) ≠ Panic ∧ inner (snd (init_connection tx w)) = inner w.
Proof.
  intros [Htor _ _]. unfold init_connection. rewrite Htor.
  destruct (put_bit_set_read (E := AnyError) (get_pieces_completed (tracker w))
    (zlen (pieces (info tor)))) as (b & _ & -> & _).
  { destruct Hwf as (? & _). lia. }
  pose proof (send_inner tx (BitField (BitFieldWriter_into b)) w) as Hs1.
  destruct (send tx _ w) as [[] w1]; cbn in Hs1 |- *; [|done].
  pose proof (send_inner tx (Flag Choke) w1) as Hs2.
  destruct (send tx _ w1) as [[] w2]; cbn in Hs2 |- *; [|split; [done|congruence]].
  pose proof (send_inner tx (Flag NotInterested) w2) as Hs3.
  destruct (send tx _ w2) as [[] w3]; cbn in Hs3 |- *; (split; [done|congruence]).
Qed.

Lemma inner_ok_eq c (w w' : World) : inner_ok c (inner w) → inner w' = inner w → inner_ok c (inner w').
Proof. by intros ? ->. Qed.

Lemma unlock_and_send_ok c msg (w : World) : inner_ok c (inner w) →
  fst (unlock_and_send msg w) ≠ Panic ∧ inner_ok c (inner (snd (unlock_and_send msg w))).
Proof.
  intros Hok. split; [apply unlock_and_send_no_panic|].
  eapply inner_ok_eq; [done|apply unlock_and_send_inner].
Qed.

Lemma learn_pieces_ok c q tx l (w : World) : inner_ok c (inner w) →
  fst (learn_pieces q tx l w) ≠ Panic ∧ inner_ok c (inner (snd (learn_pieces q tx l w))).
Proof.
  intros Hok. unfold learn_pieces.
  pose proof (add_pieces_for_peer_spec q l (locked w)) as (P & Hs & _).
  pose proof (add_pieces_for_peer_ok q l (locked w) (ok_state _ _ Hok)) as Hst.
  destruct (add_pieces_for_peer q l (locked w)) as [r s]. cbn [snd] in Hs, Hst.
  assert (inner_ok c (inner (on_state (λ _, s) w))) as Hok'.
  { destruct Hok as [Htor Htr _]. split; cbn; [done|by rewrite Hs|done]. }
  destruct r as [b|]; [|by apply unlock_and_send_ok].
  pose proof (send_inner tx (interest_msg b) (on_state (λ _, s) w)) as Hi.
  destruct (send tx _ _) as [[] w']; cbn [snd negb] in Hi |- *.
  - apply unlock_and_send_ok. by eapply inner_ok_eq.
  - split; [done|]. by eapply inner_ok_eq.
Qed.

(** No message of a peer makes its handler panic, and all keep the invariant. *)
Lemma handle_msg_ok c q tx msg (w : World) : inner_ok c (inner w) → msg_ok msg →
  fst (handle_msg q tx msg w) ≠ Panic ∧ inner_ok c (inner (snd (handle_msg q tx msg w))).
Proof.
  intros Hok Hmsg. destruct msg as [|f|i|b|i b k|i b blk|i b k]; cbn [handle_msg].
  - done.
  - apply unlock_and_send_ok. apply on_state_ok; [| |done].
    + intros s. destruct f; unfold set_peer_choked_us, set_peers_interested_in_us; cbn;
        by rewrite add_peer_id_frame.
    + intros s. destruct f; [apply set_peer_choked_us_ok|apply set_peer_choked_us_ok
        |apply set_peers_interested_in_us_ok|apply set_peers_interested_in_us_ok].
  - by apply learn_pieces_ok.
  - rewrite bitfield_pieces_spec by done. by apply learn_pieces_ok.
  - destruct (get_internal_peer_state q (locked w)) as [st|]; [|done].
    destruct (choked st); [done|]. by apply unlock_and_send_ok.
  - pose proof (on_net_inner (io_write i b blk) w) as Hi.
    destruct (on_net _ w) as [[e|[]] w1]; cbn [snd] in Hi |- *.
    + split; [done|]. by eapply inner_ok_eq.
    + apply unlock_and_send_ok, (on_tracker_ok c); [intros t; apply set_piece_finished_ok|by eapply inner_ok_eq].
    + apply unlock_and_send_ok, (on_tracker_ok c).
      * intros t. apply set_request_finished_ok.
      * by eapply inner_ok_eq.
  - done.
Qed.

Lemma handler_finished_ok c q (p : Proc Tx N) : inner_ok c (inner (world p)) →
  inner_ok c (inner (world (handler_finished q p))).
Proof.
  intros [Htor Htr Hst]. split; cbn; [done| |by apply remove_peer_ok].
  unfold remove_peer. cbn. by rewrite add_peer_id_frame.
Qed.
End processor_facts.

(** Every event keeps the invariant, and none panics. *)
Section events.
Context {Tx N : Type} `{EnvOk Tx N, EqDecision Tx, BytesCrateOk, Profile}.
Context (tor : V1Torrent) (Hwf : wf_torrent tor).

Definition proc_ok (c : Z) (p : Proc Tx N) : Prop := inner_ok tor c (inner (world p)).

Lemma accept_peer_ok c h tx (p : Proc Tx N) : proc_ok c p →
  ∃ p', accept_peer h tx p = Ret p' ∧ proc_ok c p'.
Proof.
  unfold proc_ok. intros Hok. unfold accept_peer.
  destruct (init_connection_ok tor Hwf c tx (world p) Hok) as [Hp Hi].
  destruct (init_connection tx (world p)) as [[] w]; cbn in Hp, Hi; [| |done];
    (eexists; split; [reflexivity|]; cbn; by rewrite Hi).
Qed.

Lemma peer_message_ok c h msg (p : Proc Tx N) : proc_ok c p → msg_ok msg →
  ∃ p', peer_message h msg p = Ret p' ∧ proc_ok c p'.
Proof.
  unfold proc_ok. intros Hok Hmsg. unfold peer_message.
  destruct (handle_msg_ok tor c h.1 h.2 msg (world p) Hok Hmsg) as [Hp Hi].
  destruct (handle_msg h.1 h.2 msg (world p)) as [[[]| |] w]; cbn in Hp, Hi; [| | |done];
    (eexists; split; [reflexivity|done]).
Qed.

Lemma wake_event_ok `{HashOrderOk} (c c' : Z) (clock : Z → Z) msg (p : Proc Tx N) : proc_ok c p →
  (∀ i j, i ≤ j → clock i ≤ clock j) → (∀ i, c ≤ clock i ≤ c') →
  ∃ p', wake_event clock msg p = Ret p' ∧ proc_ok c' p'.
Proof.
  unfold proc_ok. intros Hok Hm Hc. unfold wake_event.
  destruct (wake_up_ok tor Hwf c c' clock (peer_to_tx p) msg (world p) Hok Hm Hc)
    as (txs & w & -> & Hi). eexists. split; [reflexivity|done].
Qed.

Lemma timer_event_ok `{HashOrderOk} (c now : Z) (p : Proc Tx N) : proc_ok c p → c ≤ now →
  timer_event now p ≠ Panic ∧ ∀ p', timer_event now p = Ret p' → proc_ok now p'.
Proof.
  unfold proc_ok. intros Hok Hc. unfold timer_event.
  destruct (timer_tick_ok tor c now (peer_to_tx p) (world p) Hok Hc) as [Hp Hi].
  destruct (timer_tick now _ _) as [[] w]; cbn in Hp, Hi; [|done|done].
  split; [done|]. by intros p' [= <-].
Qed.

Lemma proc_step_ok x y : proc_step x y → proc_ok x.1 x.2 → proc_ok y.1 y.2.
Proof.
  intros Hs Hok. destruct Hs as [c p h tx p' Hr|c p h msg p' Hh Hmsg Hr|c p h Hh|c p q O HO Hq
    |c c' p msg clock p' O HO Hm Hc Hr|c now p p' O HO Hc Hr|c p e He]; cbn [fst snd] in *.
  - destruct (accept_peer_ok c h tx p Hok) as (p2 & Hr2 & Hp). congruence.
  - destruct (peer_message_ok c h msg p Hok Hmsg) as (p2 & Hr2 & Hp). congruence.
  - done.
  - by apply handler_finished_ok.
  - destruct (wake_event_ok c c' clock msg p Hok Hm Hc) as (p2 & Hr2 & Hp). congruence.
  - by apply (timer_event_ok c now p Hok Hc).
  - done.
Qed.

Lemma proc_new_ok c max e : 0 ≤ max < 2 ^ 64 → proc_ok c (Proc_new tor max e).
Proof.
  intros Hm. split; cbn; [done| |apply TorrentState_new_ok].
  apply Tracker_new_ok; [done|]. destruct Hwf as (? & _). lia.
Qed.

Lemma proc_reachable_ok max c0 e c p : 0 ≤ max < 2 ^ 64 →
  rtc proc_step (c0, Proc_new tor max e) (c, p) → proc_ok c p.
Proof.
  intros Hm Hrun. change (proc_ok (c, p).1 (c, p).2).
  eapply (rtc_ind_r (λ x, proc_ok x.1 x.2)); [|intros x y _ ? ?|exact Hrun].
  - by apply proc_new_ok.
  - by eapply proc_step_ok.
Qed.
End events.

(** * What is sent *)

Section logs.
Context {Tx N : Type} `{EnvOk Tx N} `{BytesCrate} `{Profile} `{HashOrderOk}.

Abbreviation PeerToSender := (gmap InternalPeerId Tx).
Abbreviation World := (World N).

(** From [w] to [w'] the messages [l] are sent to peers and [k] to the
    processor itself. *)
Definition sends (w : World) (l : list (Tx * Messages)) (k : list InternalStateMessage) (w' : World)
    : Prop :=
  sent (net w') = sent (net w) ++ l ∧ woken (net w') = woken (net w) ++ k.

Lemma sends_nil w : sends w [] [] w.
Proof. split; by rewrite app_nil_r. Qed.

Lemma sends_net w w' : net w' = net w → sends w [] [] w'.
Proof. intros He. unfold sends. rewrite He. apply sends_nil. Qed.

Lemma sends_trans w1 l1 k1 w2 l2 k2 w3 :
  sends w1 l1 k1 w2 → sends w2 l2 k2 w3 → sends w1 (l1 ++ l2) (k1 ++ k2) w3.
Proof. intros [H1l H1k] [H2l H2k]. split; by rewrite ?H2l, ?H2k, ?H1l, ?H1k, app_assoc. Qed.

Lemma send_sends tx msg w ok w' : send tx msg w = (ok, w') →
  sends w (if ok then [(tx, msg)] else []) [] w' ∧ inner w' = inner w.
Proof.
  unfold send, on_net. destruct (tx_send tx msg (net w)) as [b e] eqn:Hs. intros [= <- <-].
  apply tx_send_log in Hs as [Hl Hk]. unfold sends. cbn. by rewrite Hl, Hk, app_nil_r.
Qed.

Lemma unlock_sends msg w r w' : unlock_and_send msg w = (r, w') →
  inner w' = inner w ∧
  ((r = Ret Continue ∧ sends w [] [msg] w') ∨ (r = Err AE_Send ∧ sends w [] [] w')).
Proof.
  unfold unlock_and_send, on_net. destruct (wake_send msg (net w)) as [b e] eqn:Hs.
  apply wake_send_log in Hs as [Hl Hk]. unfold sends.
  destruct b; intros [= <- <-]; cbn; rewrite Hl, Hk, app_nil_r; auto.
Qed.

Lemma io_read_sends i b k w r w' : on_net (io_read i b k) w = (r, w') →
  sends w [] [] w' ∧ inner w' = inner w.
Proof.
  unfold on_net. destruct (io_read i b k (net w)) as [x e] eqn:Hs. intros [= <- <-].
  apply io_read_log in Hs as [Hl Hk]. unfold sends. cbn. by rewrite Hl, Hk, !app_nil_r.
Qed.

Lemma io_write_sends i b l w r w' : on_net (io_write i b l) w = (r, w') →
  sends w [] [] w' ∧ inner w' = inner w.
Proof.
  unfold on_net. destruct (io_write i b l (net w)) as [x e] eqn:Hs. intros [= <- <-].
  apply io_write_log in Hs as [Hl Hk]. unfold sends. cbn. by rewrite Hl, Hk, !app_nil_r.
Qed.

(** The requests of a list, each to the sender of its peer. *)
Definition addressed (txs : PeerToSender) (r : PeerRequestedPiece) (m : Tx * Messages) : Prop :=
  txs !! req_peer_id r = Some m.1 ∧ m.2 = Messages_from_request r.

(** The requests that the channels take when they are offered in turn. *)
Fixpoint offer (txs : PeerToSender) (l : list PeerRequestedPiece) (e : N) : list PeerRequestedPiece :=
  match l with
  | [] => []
  | r :: l =>
      match txs !! req_peer_id r with
      | Some tx =>
          let '(ok, e) := tx_send tx (Messages_from_request r) e in
          if ok : bool then r :: offer txs l e else offer txs l e
      | None => offer txs l e
      end
  end.

(** Dispatching the requests just made: those sent stay under way, the others do not. *)
Lemma dispatch_spec (txs : PeerToSender) l : ∀ w : World,
  NoDup (map (λ r, (req_index r, req_begin r)) l) →
  let good := offer txs l (net w) in
  ∃ log, good ⊆ l ∧ Forall2 (addressed txs) good log ∧
    sends w log [] (fold_left (dispatch txs) l w) ∧
    (∀ p b, arrived (started (tracker (fold_left (dispatch txs) l w))) p b =
      arrived (started (tracker w)) p b) ∧
    ∀ p b d, loading (started (tracker (fold_left (dispatch txs) l w))) p b = Some d ↔
      loading (started (tracker w)) p b = Some d ∧
      ((p, b) ∈ map (λ r, (req_index r, req_begin r)) l →
       (p, b) ∈ map (λ r, (req_index r, req_begin r)) good).
Proof.
  induction l as [|r l IH]; intros w Hd; cbn [fold_left].
  { exists []. split_and!; [done|constructor|apply sends_nil|done|]. set_solver. }
  rewrite map_cons in *.
  apply NoDup_cons in Hd as [Hr Hd]. destruct (IH (dispatch txs w r) Hd) as (log & Hg & Ha & Hs & Harr & Hl).
  set (good := offer txs l (net (dispatch txs w r))) in *.
  assert (∃ (b : bool) log1, (if b then Forall2 (addressed txs) [r] log1 else log1 = []) ∧
    offer txs (r :: l) (net w) = (if b then r :: good else good) ∧
    sends w log1 [] (dispatch txs w r) ∧
    started (tracker (dispatch txs w r)) = if b then started (tracker w)
      else snd (remove_downloading_request (started (tracker w)) (req_index r) (req_begin r)))
    as (b & log1 & Ha1 & Ho & Hs1 & Ht1).
  { assert (∀ (w1 : World) log1, inner w1 = inner w → sends w log1 [] w1 →
      sends w log1 [] (on_tracker (λ t, snd (remove_request t r)) w1) ∧
      started (tracker (on_tracker (λ t, snd (remove_request t r)) w1)) =
        snd (remove_downloading_request (started (tracker w)) (req_index r) (req_begin r))) as Hrem.
    { intros w1 log1 Hi Hsw. split; [done|]. unfold tracker, locked, on_tracker, on_state. cbn.
      rewrite Hi. unfold remove_request. by destruct (remove_downloading_request _ _ _). }
    subst good. cbn [offer]. unfold dispatch. destruct (txs !! req_peer_id r) as [tx|] eqn:Htx.
    - change (Request _ _ _) with (Messages_from_request r).
      destruct (send tx (Messages_from_request r) w) as [ok w1] eqn:Hsend. pose proof Hsend as Hsend'.
      unfold send, on_net in Hsend'. destruct (tx_send tx _ (net w)) as [ok' e']. injection Hsend' as -> <-.
      apply send_sends in Hsend as [Hsw Hi].
      destruct ok; [|exists false, []; split; [done|]; split; [done|by apply Hrem]].
      exists true, [(tx, Messages_from_request r)]. split_and!; [by repeat constructor|done|exact Hsw|done].
    - exists false, []. split; [done|]. split; [done|]. apply Hrem; [done|apply sends_nil]. }
  exists (log1 ++ log). rewrite Ho. split_and!.
  - destruct b; set_solver.
  - destruct b; [|by subst]. change (r :: good) with ([r] ++ good). by apply Forall2_app.
  - by apply (sends_trans w log1 [] (dispatch txs w r) log []).
  - intros p b'. rewrite Harr, Ht1. destruct b; [done|]. by rewrite remove_request_cut.
  - intros p b' d. rewrite Hl, Ht1. destruct b.
    + cbn [map]. rewrite !elem_of_cons. naive_solver.
    + rewrite remove_request_cut. unfold loading at 1. cbn [downloading]. rewrite visit_cut.
      fold (loading (started (tracker w)) p b'). rewrite elem_of_cons.
      assert (map (λ r, (req_index r, req_begin r)) good ⊆ map (λ r, (req_index r, req_begin r)) l) as Hsub.
      { intros x (y & -> & Hy)%list_elem_of_fmap. apply list_elem_of_fmap. eauto. }
      case_decide as Hk.
      * destruct Hk as [-> ->]. split; [by intros []|]. intros [_ Hn].
        destruct Hr. by apply Hsub, Hn; left.
      * split; [|naive_solver]. intros [Hld Hn]. split; [done|]. intros [[= -> ->]|Hin]; [by destruct Hk|auto].
Qed.

(** Requests of peers with channels, whose blocks can be read; the channels may refuse the
    answers. *)
Inductive answered (txs : PeerToSender) : list PeerRequestedPiece → N → list (Tx * Messages) → N → Prop :=
  | answered_all e : answered txs [] e [] e
  | answered_next r l tx e block e1 ok e2 log e' : txs !! req_peer_id r = Some tx →
      io_read (req_index r) (req_begin r) (req_length r) e = (inr block, e1) →
      tx_send tx (Piece (req_index r) (req_begin r) block) e1 = (ok, e2) →
      answered txs l e2 log e' →
      answered txs (r :: l) e
        ((if ok then [(tx, Piece (req_index r) (req_begin r) block)] else []) ++ log) e'.

Lemma answered_run txs l e log e' : answered txs l e log e' → ∀ w, e = net w →
  fst (answer_requests txs l w) = Ret tt ∧ sends w log [] (snd (answer_requests txs l w)) ∧
  net (snd (answer_requests txs l w)) = e'.
Proof.
  induction 1 as [e|r l tx e block e1 ok e2 log e' Htx Hr Hs _ IH]; intros w ->; cbn [answer_requests].
  { split_and!; [done|apply sends_nil|done]. }
  unfold send, on_net. rewrite Htx, Hr. cbn [net inner]. rewrite Hs.
  destruct (IH (mkWorld (inner w) e2) eq_refl) as (Hret & Hlog & Hnet). split_and!; [done| |done].
  apply io_read_log in Hr as [Hr1 Hr2]. apply tx_send_log in Hs as [Hs1 Hs2].
  destruct Hlog as [Hl1 Hl2]. unfold sends. cbn [net] in *. rewrite Hl1, Hl2, Hs1, Hs2, Hr1, Hr2.
  by rewrite app_assoc.
Qed.

End logs.

(** * Properties *)

Section processor_properties.
Context {Tx N : Type} `{EnvOk Tx N, EqDecision Tx, BytesCrateOk, Profile}.

(** C4. Whatever peers send, in whatever order the events of the
    main loop happen and whatever the channels and the storage do, the state of a
    processor started on a well-formed torrent stays consistent: the torrent is the
    same, the piece tracker keeps its invariant, the two maps of who has what agree,
    and choking, interest and pieces are recorded for connected peers only. *)
Theorem processor_invariant (torrent : V1Torrent) max c0 e c p :
  wf_torrent torrent → 0 ≤ max < 2 ^ 64 →
  rtc proc_step (c0, Proc_new torrent max e) (c, p) →
  let s := inner (world p) in
  Processor.torrent s = torrent ∧
  tracker_ok (zlen (pieces (info torrent))) c (piece_block_tracking (torrent_state s)) ∧
  state_ok (torrent_state s).
Proof.
  intros Hwf Hm Hrun. by destruct (proc_reachable_ok torrent Hwf max c0 e c p Hm Hrun).
Qed.

(** C5. In every reachable state every event is handled
    without a panic: a new peer, any message of a peer, a wake-up, and the timer. *)
Theorem processor_never_panics `{HashOrderOk} torrent max c0 e c p h tx msg m (clock : Z → Z) now :
  wf_torrent torrent → 0 ≤ max < 2 ^ 64 →
  rtc proc_step (c0, Proc_new torrent max e) (c, p) →
  msg_ok msg → (∀ i j, i ≤ j → clock i ≤ clock j) → (∀ i, c ≤ clock i ≤ now) →
  is_ret (accept_peer h tx p) = true ∧
  is_ret (peer_message (peer_id (peer_ctx h), tx) msg p) = true ∧
  is_ret (wake_event clock m p) = true ∧
  timer_event now p ≠ Panic.
Proof.
  intros Hwf Hm Hrun Hmsg Hmono Hc.
  pose proof (proc_reachable_ok torrent Hwf max c0 e c p Hm Hrun) as Hok. split_and!.
  - by destruct (accept_peer_ok torrent Hwf c h tx p Hok) as (p' & -> & _).
  - by destruct (peer_message_ok torrent c (peer_id (peer_ctx h), tx) msg p Hok Hmsg) as (p' & -> & _).
  - by destruct (wake_event_ok torrent Hwf c now clock m p Hok Hmono Hc) as (p' & -> & _).
  - apply (timer_event_ok torrent c now p Hok). pose proof (Hc 0). lia.
Qed.
End processor_properties.

Section handler_properties.
Context {Tx N : Type} `{EnvOk Tx N} `{BytesCrateOk} `{Profile} `{HashOrderOk}.

(** The periodic choke computation changes nothing
    and sends nothing: the stationary set contains both the unchoked and the
    interested peers, so that both differences with it are empty. *)
Theorem compute_unchoke_does_nothing (txs : gmap InternalPeerId Tx) (w : World N) :
  compute_unchoke txs w = w.
Proof. apply compute_unchoke_id. Qed.

(** C14. A wake-up's download computation sends the requests of
    the assignment, each to its peer, and adds exactly those to what is under way: a request for which
    the peer has no channel, or whose send is refused, is taken back and may be made again; no
    other is held back. *)
Theorem outstanding_requests_are_sent (torrent : V1Torrent) (c c' : Z) (clock : Z → Z) (txs : gmap InternalPeerId Tx) (w : World N) :
  wf_torrent torrent → inner_ok torrent c (inner w) →
  (∀ i j, i ≤ j → clock i ≤ clock j) → (∀ i, c ≤ clock i ≤ c') →
  ∃ w' reqs t' log, compute_requests_for_download clock txs w = (Ret tt, w') ∧
    generate_assignments (E := AnyError) clock torrent (piece_id_to_peers (locked w)) (tracker w) = Ret (reqs, t') ∧
    let good := offer txs reqs (net w) in
    sends w log [] w' ∧ Forall2 (addressed txs) good log ∧
    (∀ r, r ∈ reqs → r ∉ good → free (started (tracker w')) (req_index r) (req_begin r)) ∧
    (∀ p b, is_Some (loading (started (tracker w')) p b) ↔
      is_Some (loading (started (tracker w)) p b) ∨
      (p, b) ∈ map (λ r, (req_index r, req_begin r)) good) ∧
    downloading_requests_len (tracker w') ≤ max_outstanding_requests (tracker w').
Proof.
  intros Hwf Hok Hm Hc. 
  destruct (compute_requests_ok torrent Hwf c c' clock txs w Hok Hm Hc) as (w' & Hrun & Hok').
  destruct Hok as [Htor Htr Hst]. unfold compute_requests_for_download in *. rewrite Htor in *.
  destruct (generate_starts (E := AnyError) torrent Hwf clock (piece_id_to_peers (locked w)) c (tracker w))
    as (reqs & c2 & t' & Hgen & Hs & _ & _ & Hle); [done|by eapply clock_ok_available|].
  change (piece_block_tracking (locked w)) with (tracker w) in *. rewrite Hgen in *.
  pose proof (starts_NoDup _ _ _ _ _ _ Hs) as Hnd.
  destruct (dispatch_spec txs reqs (on_tracker (λ _, t') w) Hnd) as (log & Hg & Ha & Hsd & Harr & Hl).
  change (net (on_tracker (λ _, t') w)) with (net w) in *. set (good := offer txs reqs (net w)) in *.
  injection Hrun as <-. eexists _, reqs, t', log. cbv zeta.
  split_and!; [reflexivity|done|exact Hsd|done| | |].
  - intros r Hr Hn. apply free_spec.
    destruct (starts_free _ _ _ _ _ _ r Hs Hr) as [[_ Hfree]%free_spec _]. split.
    + destruct (loading (started (tracker (fold_left (dispatch txs) reqs (on_tracker (λ _, t') w))))
        (req_index r) (req_begin r)) as [d|] eqn:Hd; [|done].
      apply Hl in Hd as [_ Hin]. destruct Hn.
      assert ((req_index r, req_begin r) ∈ map (λ r, (req_index r, req_begin r)) good) as (r' & Hk & Hr')%list_elem_of_fmap.
      { apply Hin. apply list_elem_of_fmap. by exists r. }
      by rewrite (NoDup_map_key _ reqs r r' Hnd Hr (Hg _ Hr') Hk).
    + rewrite Harr. change (arrived (started t') (req_index r) (req_begin r) = None).
      by rewrite (starts_arrived _ _ _ _ _ _ _ _ Hs).
  - intros p b. set (k := λ r : PeerRequestedPiece, (req_index r, req_begin r)) in *.
    assert (∀ r, r ∈ reqs → loading (started (tracker w)) (req_index r) (req_begin r) = None) as Hfree.
    { intros r Hr. by destruct (starts_free _ _ _ _ _ _ r Hs Hr) as [[? _]%free_spec _]. }
    split.
    + intros [d [Hd Hin]%Hl]. change (loading (started t') p b = Some d) in Hd.
      apply (starts_loading _ _ _ _ _ _ p b d Hs) in Hd as [Hd|(Hr & <- & <-)]; [left; eauto|right].
      apply Hin. apply list_elem_of_fmap. by eexists.
    + intros [[d Hd]|Hin].
      * exists d. apply Hl. split; [apply (starts_loading _ _ _ _ _ _ p b d Hs); by left|].
        intros (r & [= -> ->] & Hr)%list_elem_of_fmap. rewrite Hfree in Hd by done. done.
      * apply list_elem_of_fmap in Hin as (r & [= -> ->] & Hr). exists (mkDownload r). apply Hl. split.
        -- apply (starts_loading _ _ _ _ _ _ _ _ _ Hs). right. cbn. split; [by apply Hg|done].
        -- intros _. apply list_elem_of_fmap. by exists r.
  - apply (ok_capacity _ _ _ (ok_tracker _ _ _ Hok')).
Qed.

(** C33. Answering queued requests loses some: with at least
    five queued, when the blocks of the first four can be read they are answered, in order, each
    to its peer (which loses the answer if its channel is closed), and the fifth is removed without
    an answer; and if the block of the first cannot
    be read, all five are gone without an answer. *)
Theorem dequeue_loses_requests (txs : gmap InternalPeerId Tx) (w : World N) r1 r2 r3 r4 r5 rest tx :
  outstanding_peer_requests (locked w) = r1 :: r2 :: r3 :: r4 :: r5 :: rest →
  txs !! req_peer_id r1 = Some tx →
  let w' := snd (dequeue_requests txs w) in
  outstanding_peer_requests (locked w') = rest ∧
  (∀ log e, answered txs [r1; r2; r3; r4] (net w) log e →
    fst (dequeue_requests txs w) = Ret tt ∧ sends w log [] w' ∧ net w' = e) ∧
  (∀ e, fst (io_read (req_index r1) (req_begin r1) (req_length r1) (net w)) = inl e →
    fst (dequeue_requests txs w) = Err e ∧ sends w [] [] w').
Proof.
  intros Hq Htx w'. unfold w', dequeue_requests. rewrite Hq.
  change (take_requests (r1 :: r2 :: r3 :: r4 :: r5 :: rest) 4 0) with ([r1; r2; r3; r4], rest).
  cbv beta iota zeta. set (w1 := on_state (set_requests rest) w). split_and!.
  - unfold locked. by rewrite (proj2 (answer_requests_ok txs [r1; r2; r3; r4] w1)).
  - intros log e Ha. change (net w) with (net w1) in Ha. by apply (answered_run txs _ _ _ _ Ha w1).
  - intros e He. destruct (io_read (req_index r1) (req_begin r1) (req_length r1) (net w)) as [x e'] eqn:Hr.
    cbn in He. subst x. cbn [answer_requests]. rewrite Htx.
    assert (on_net (io_read (req_index r1) (req_begin r1) (req_length r1)) w1 =
      (inl e, mkWorld (inner w1) e')) as -> by (unfold on_net, w1, on_state; cbn [net]; by rewrite Hr).
    split; [done|]. apply io_read_log in Hr as [Hl Hk].
    unfold sends. cbn. by rewrite Hl, Hk, !app_nil_r.
Qed.
End handler_properties.

Section message_properties.
Context {Tx N : Type} `{EnvOk Tx N} `{BytesCrateOk} `{Profile}.

(** C31. A new connection is sent, in this order, a bit field
    that its receiver reads as exactly the completed pieces, [Choke] and
    [NotInterested]; nothing else changes. *)
Theorem init_connection_announces tx (w w' : World N) :
  wf_torrent (torrent (inner w)) → init_connection tx w = (Ret tt, w') →
  inner w' = inner w ∧ ∃ b,
    sends w [(tx, BitField b); (tx, Flag Choke); (tx, Flag NotInterested)] [] w' ∧
    (zlen b < 2 ^ 32 → bitfield_pieces b =
      Ret (filter (λ i, i ∈ get_pieces_completed (tracker w))
             (seqZ 0 (zlen (pieces (info (torrent (inner w)))))))).
Proof.
  intros (Hn & _) Hrun. unfold init_connection in Hrun.
  destruct (put_bit_set_read (E := AnyError) (get_pieces_completed (tracker w))
    (zlen (pieces (info (torrent (inner w)))))) as (b & bits & Hb & Hc & Hp); [lia|].
  rewrite Hb in Hrun.
  destruct (send tx _ w) as [[] w1] eqn:Hs1; cbn [negb] in Hrun; [|done].
  destruct (send tx _ w1) as [[] w2] eqn:Hs2; cbn [negb] in Hrun; [|done].
  destruct (send tx _ w2) as [[] w3] eqn:Hs3; cbn [negb] in Hrun; [|done]. injection Hrun as <-.
  apply send_sends in Hs1 as [Hs1 Hi1], Hs2 as [Hs2 Hi2], Hs3 as [Hs3 Hi3].
  split; [congruence|]. exists (BitFieldWriter_into b). split.
  - apply (sends_trans w [_] [] w1 [_; _] []); [exact Hs1|].
    by apply (sends_trans w1 [_] [] w2 [_] []).
  - intros _. unfold bitfield_pieces. by rewrite Hc, Hp.
Qed.

(** A peer's request for a block is queued exactly when the peer
    is known and not recorded as choked; otherwise it is ignored without an effect. *)
Theorem request_served_iff q tx i b k (w w' : World N) r :
  handle_msg q tx (Request i b k) w = (r, w') →
  inner w' = inner w ∧
  match get_internal_peer_state q (locked w) with
  | Some (mkPeerState false _) =>
      (r = Ret Continue ∧ sends w [] [PeerRequested (mkRequest q i b k)] w') ∨
      (r = Err AE_Send ∧ sends w [] [] w')
  | _ => r = Ret Continue ∧ w' = w
  end.
Proof.
  cbn [handle_msg]. destruct (get_internal_peer_state q (locked w)) as [[[] int]|]; cbn [choked].
  - by intros [= <- <-].
  - intros Hr. apply unlock_sends in Hr as [? ?]. auto.
  - by intros [= <- <-].
Qed.

(** A new peer is told that it is choked, and its requests
    are served all the same as soon as it has said that it is interested: the peer's
    record starts as not choked. *)
Theorem told_choked_but_served q tx i b k (w w1 w2 : World N) :
  peers (locked w) !! q = None → init_connection tx w = (Ret tt, w1) →
  handle_msg q tx (Flag Interested) w1 = (Ret Continue, w2) →
  (tx, Flag Choke) ∈ sent (net w1) ∧ ((tx, Flag Unchoke) ∉ (drop (length (sent (net w))) (sent (net w2)) : list _)) ∧
  ∀ w3, handle_msg q tx (Request i b k) w2 = (Ret Continue, w3) →
    PeerRequested (mkRequest q i b k) ∈ woken (net w3).
Proof.
  intros Hq Hinit Hint. unfold init_connection in Hinit.
  destruct (put_bit_set _ _ _) as [bf| |]; [|done..].
  destruct (send tx _ w) as [[] wa] eqn:Hs1; cbn [negb] in Hinit; [|done].
  destruct (send tx _ wa) as [[] wb] eqn:Hs2; cbn [negb] in Hinit; [|done].
  destruct (send tx _ wb) as [[] wc] eqn:Hs3; cbn [negb] in Hinit; [|done]. injection Hinit as ->.
  apply send_sends in Hs1 as [[Hl1 _] Hi1], Hs2 as [[Hl2 _] Hi2], Hs3 as [[Hl3 _] Hi3].
  cbn [handle_msg] in Hint. apply unlock_sends in Hint as [Hi4 [[_ [Hl4 _]]|[? _]]]; [|done].
  cbn [net on_state] in Hl4. split_and!.
  - rewrite Hl3, Hl2. set_solver.
  - rewrite Hl4, Hl3, Hl2, Hl1, app_nil_r, <-!app_assoc, drop_app_length. set_solver.
  - intros w3 Hreq. cbn [handle_msg] in Hreq. unfold locked in Hreq at 1. rewrite Hi4 in Hreq.
    assert (get_internal_peer_state q (torrent_state (inner
      (on_state (set_peers_interested_in_us q true) w1))) = Some InternalPeerState_default) as Hst.
    { unfold on_state, get_internal_peer_state, set_peers_interested_in_us, add_peer_id. cbn.
      assert (inner w1 = inner w) as -> by congruence. unfold locked in Hq. rewrite Hq. cbn.
      apply lookup_insert_eq. }
    rewrite Hst in Hreq. cbn [choked InternalPeerState_default] in Hreq.
    apply unlock_sends in Hreq as [_ [[_ [_ Hk]]|[? _]]]; [|done]. rewrite Hk. set_solver.
Qed.

(** A received block is given to the storage; an error of
    the storage ends the connection and leaves the state as it was; a block that
    completes the piece makes the tracker forget its requests, marks it completed and
    has it announced; any other block moves its request, if it was under way, to the
    arrived ones. *)
Theorem piece_message_effects q tx i b blk (w w' : World N) r :
  handle_msg q tx (Piece i b blk) w = (r, w') →
  match fst (io_write i b blk (net w)) with
  | inl e => r = Err e ∧ inner w' = inner w ∧ sends w [] [] w'
  | inr true =>
      inner w' = mkInner (torrent (inner w))
                   (set_tracking (set_piece_finished (tracker w) i) (locked w)) ∧
      i ∈ pieces_completed (tracker w') ∧ (∀ c, free (started (tracker w')) i c) ∧
      (r = Ret Continue → sends w [] [PieceComplete i] w')
  | inr false =>
      (∀ d, loading (started (tracker w)) i b = Some d →
        arrived (started (tracker w')) i b = Some d ∧ loading (started (tracker w')) i b = None) ∧
      (loading (started (tracker w)) i b = None → tracker w' = tracker w) ∧
      (r = Ret Continue → sends w [] [Wakeup] w')
  end.
Proof.
  cbn [handle_msg]. destruct (on_net (io_write i b blk) w) as [x w1] eqn:Hw.
  pose proof (io_write_sends i b blk w x w1 Hw) as [Hs1 Hi1].
  assert (fst (io_write i b blk (net w)) = x) as ->.
  { unfold on_net in Hw. destruct (io_write i b blk (net w)). by injection Hw as -> _. }
  destruct x as [e|[]].
  - by intros [= <- <-].
  - intros Hr. apply unlock_sends in Hr as [Hi2 Hr].
    assert (inner w' = mkInner (torrent (inner w))
      (set_tracking (set_piece_finished (tracker w) i) (locked w))) as Hin.
    { rewrite Hi2. unfold on_tracker, on_state. cbn. by rewrite Hi1. }
    split_and!; [done| | |].
    + unfold tracker, locked. rewrite Hin. cbn. set_solver.
    + intros c. unfold tracker, locked. rewrite Hin. apply free_spec. unfold loading, arrived. cbn.
      rewrite !visit_delete. by rewrite !decide_True.
    + intros ->. destruct Hr as [[_ Hs2]|[? _]]; [|done].
      exact (sends_trans w [] [] w1 [] _ w' Hs1 Hs2).
  - intros Hr. apply unlock_sends in Hr as [Hi2 Hr].
    assert (tracker w' = snd (set_request_finished (tracker w) i b)) as Ht.
    { unfold tracker, locked. rewrite Hi2. unfold on_tracker, on_state. cbn. by rewrite Hi1. }
    rewrite Ht. unfold set_request_finished. rewrite set_request_finished_move. split_and!.
    + intros d Hd. rewrite Hd. unfold loading, arrived. cbn. rewrite visit_put, visit_cut.
      by rewrite !decide_True.
    + intros Hd. rewrite Hd. by destruct (tracker w) as [? ? ? [] ?].
    + intros ->. destruct Hr as [[_ Hs2]|[? _]]; [|done].
      exact (sends_trans w [] [] w1 [] _ w' Hs1 Hs2).
Qed.
End message_properties.
