(* ===== verification/Traffic.v ===== *)
(** What the processor sends: every message that its handlers send to peers, and
    every message they send to the processor itself, follows from the messages they
    were given. Two consequences: nobody is ever unchoked, and what is sent can be
    encoded. *)
From S2P Require Import Prelude ByteStr BytesCrate Model Protocol Errors Bitfield Collections.
From S2P Require Import Allocation Piece State Processor.
From Stdlib Require Import ZArith Lia.

(** * One walk through the handlers

    [P] holds of the messages to peers, [Q] of those to the processor itself, [R] of
    the requests that wait to be answered, [I] of the network. *)
Section emits.
Context {Tx N : Type} `{EnvOk Tx N}.
Context (P : Messages → Prop) (Q : InternalStateMessage → Prop) (R : PeerRequestedPiece → Prop).
Context (I : N → Prop).

Abbreviation PeerToSender := (gmap InternalPeerId Tx).
Abbreviation World := (World N).

(** What the environment does keeps [I], and a block it reads may be sent. *)
Record env_keeps : Prop := {
  keeps_send tx m e ok e' : tx_send tx m e = (ok, e') → I e → I e';
  keeps_wake m e ok e' : wake_send m e = (ok, e') → I e → I e';
  keeps_write i b blk e r e' : io_write i b blk e = (r, e') → I e → I e';
  keeps_read r e x e' : io_read (req_index r) (req_begin r) (req_length r) e = (x, e') → R r → I e →
    I e' ∧ ∀ blk, x = inr blk → P (Piece (req_index r) (req_begin r) blk);
}.

Definition sound (w : World) : Prop := I (net w) ∧ Forall R (outstanding_peer_requests (locked w)).

(** From [w] to [w'] only such messages are sent. *)
Definition emits (w w' : World) : Prop :=
  sound w → sound w' ∧ ∃ l k, sends w l k w' ∧ Forall (λ m, P m.2) l ∧ Forall Q k.

Lemma emits_same w w' : net w' = net w →
  (Forall R (outstanding_peer_requests (locked w)) → Forall R (outstanding_peer_requests (locked w'))) →
  emits w w'.
Proof.
  intros Hn Hr [HI HR]. split; [split; [by rewrite Hn|auto]|]. exists [], [].
  split_and!; [by apply sends_net|constructor..].
Qed.

Lemma emits_refl w : emits w w.
Proof. by apply emits_same. Qed.

Lemma emits_trans w1 w2 w3 : emits w1 w2 → emits w2 w3 → emits w1 w3.
Proof.
  intros H12 H23 H1. destruct (H12 H1) as [H2 (l & k & Hs & Hl & Hk)].
  destruct (H23 H2) as [H3 (l' & k' & Hs' & Hl' & Hk')]. split; [done|]. exists (l ++ l'), (k ++ k').
  split_and!; [by eapply sends_trans|by apply Forall_app..].
Qed.

Lemma emits_fold {A} (f : World → A → World) l : (∀ w x, x ∈ l → emits w (f w x)) → ∀ w,
  emits w (fold_left f l w).
Proof.
  induction l as [|x l IH]; intros Hf w; cbn [fold_left]; [apply emits_refl|].
  eapply emits_trans; [apply Hf; by left|]. apply IH. intros w' y Hy. apply Hf. by right.
Qed.

Context (Henv : env_keeps).

Lemma emits_send tx m w : P m → emits w (snd (send tx m w)).
Proof.
  intros Hm [HI HR]. destruct (send tx m w) as [ok w'] eqn:Hs.
  pose proof Hs as (Hl & Hi)%send_sends. unfold send, on_net in Hs.
  destruct (tx_send tx m (net w)) as [b e] eqn:He. injection Hs as <- <-.
  split; [split; [by eapply (keeps_send Henv)|exact HR]|].
  eexists _, []. split_and!; [exact Hl| |constructor]. destruct b; by repeat constructor.
Qed.

Lemma emits_unlock m w : Q m → emits w (snd (unlock_and_send m w)).
Proof.
  intros Hm [HI HR]. destruct (unlock_and_send m w) as [r w'] eqn:Hs.
  pose proof Hs as (Hi & Hl)%unlock_sends. unfold unlock_and_send, on_net in Hs.
  destruct (wake_send m (net w)) as [b e] eqn:He. apply (keeps_wake Henv) in He; [|done].
  split; [split; [by destruct b; injection Hs as <- <-|]|].
  - unfold locked. cbn [snd]. by rewrite Hi.
  - destruct Hl as [[_ Hl]|[_ Hl]]; (eexists _, _; split; [exact Hl|]); by repeat constructor.
Qed.

Lemma emits_dispatch txs w r : P (Messages_from_request r) → emits w (dispatch txs w r).
Proof.
  intros Hp. unfold dispatch. destruct (txs !! req_peer_id r) as [tx|]; [|by apply emits_same].
  pose proof (emits_send tx (Messages_from_request r) w Hp) as Hq. unfold Messages_from_request in Hq.
  destruct (send tx _ w) as [[] w']; [done|]. eapply emits_trans; [exact Hq|by apply emits_same].
Qed.

Lemma emits_announce `{HashOrder} txs i w : P (Have i) → emits w (announce_piece txs i w).
Proof.
  intros Hp. apply emits_fold. intros w1 q _. destruct (txs !! q); [by apply emits_send|apply emits_refl].
Qed.

Lemma emits_answer txs l : Forall R l → ∀ w, emits w (snd (answer_requests txs l w)).
Proof.
  induction 1 as [|r l Hr _ IH]; intros w; cbn [answer_requests]; [apply emits_refl|].
  destruct (txs !! req_peer_id r) as [tx|]; [|apply IH].
  destruct (on_net _ w) as [x w1] eqn:Hread. intros Hw.
  pose proof Hread as (Hs1 & Hi1)%io_read_sends.
  assert (sound w1 ∧ ∀ blk, x = inr blk → P (Piece (req_index r) (req_begin r) blk)) as [Hw1 Hblk].
  { destruct Hw as [HI HR]. unfold on_net in Hread.
    destruct (io_read (req_index r) (req_begin r) (req_length r) (net w)) as [y e] eqn:He.
    injection Hread as <- <-. apply (keeps_read Henv) in He as [He Hb]; [|done..]. by repeat split. }
  destruct x as [e|blk].
  - split; [done|]. exists [], []. by split_and!.
  - pose proof (emits_send tx (Piece (req_index r) (req_begin r) blk) w1 (Hblk _ eq_refl)) as Hq.
    destruct (send tx _ w1) as [ok w2]. cbn [snd] in Hq.
    eapply emits_trans; [|eapply emits_trans; [exact Hq|apply IH]|done].
    intros _. split; [done|]. exists [], []. by split_and!.
Qed.

Lemma take_requests_Forall queue to_deq n : Forall R queue →
  Forall R (take_requests queue to_deq n).1 ∧ Forall R (take_requests queue to_deq n).2.
Proof.
  intros Hq. revert n. induction Hq as [|r queue Hr Hq IH]; intros n; cbn [take_requests]; [done|].
  destruct (to_deq <=? n); [done|]. specialize (IH (n + 1)).
  destruct (take_requests queue to_deq (n + 1)). cbn [fst snd] in *.
  destruct IH. split; [by constructor|done].
Qed.

Lemma emits_dequeue txs w : emits w (snd (dequeue_requests txs w)).
Proof.
  intros Hw. unfold dequeue_requests. pose proof Hw as [_ HR].
  destruct (take_requests_Forall _ 4 0 HR) as [Hd Hq].
  destruct (take_requests _ _ _) as [l q]. cbn [fst snd] in *.
  eapply emits_trans; [|by apply emits_answer|exact Hw]. by apply emits_same.
Qed.

(** What a wake-up may carry. *)
Definition wake_fine (msg : InternalStateMessage) : Prop :=
  match msg with Wakeup => True | PieceComplete i => P (Have i) | PeerRequested r => R r end.

(** The requests made in a world may be sent. *)
Definition asks_fine `{HashOrder, Profile} (clock : Z → Z) (w : World) : Prop := ∀ reqs t,
  generate_assignments (E := AnyError) clock (torrent (inner w)) (piece_id_to_peers (locked w))
    (tracker w) = Ret (reqs, t) → Forall (λ r, P (Messages_from_request r)) reqs.

Lemma emits_compute_requests `{HashOrder, Profile} clock txs w : asks_fine clock w →
  emits w (snd (compute_requests_for_download clock txs w)).
Proof.
  intros Hg. unfold compute_requests_for_download, asks_fine, tracker in *.
  destruct (generate_assignments _ _ _ _) as [[reqs t]| |]; [|apply emits_refl..]. cbn [snd].
  specialize (Hg _ _ eq_refl). apply (emits_trans _ (on_tracker (λ _, t) w)); [by apply emits_same|].
  apply emits_fold. intros w1 r Hr. apply emits_dispatch. by eapply Forall_forall in Hg.
Qed.

Lemma emits_wake_up `{HashOrderOk, Profile} clock txs msg w : wake_fine msg → asks_fine clock w →
  emits w (snd (wake_up clock txs msg w)).
Proof.
  intros Hm Hg. unfold wake_up. set (txs' := prune_closed_tx txs w).
  set (w1 := match msg with
             | Wakeup => w
             | PieceComplete i => announce_piece txs' i w
             | PeerRequested r => queue_requests r w
             end).
  assert (emits w w1 ∧ asks_fine clock w1) as [Hq1 Hg1].
  { destruct msg as [|i|r]; cbn in Hm; subst w1; [by split; [apply emits_refl|]| |].
    - split; [by apply emits_announce|]. unfold asks_fine, tracker, locked.
      by rewrite announce_piece_inner.
    - unfold queue_requests. destruct (get_internal_peer_state _ _); [|by split; [apply emits_refl|]].
      split; [|exact Hg]. apply emits_same; [done|]. cbn. intros HR. apply Forall_app.
      split; [done|by constructor]. }
  pose proof (emits_compute_requests clock txs' w1 Hg1) as Hq2.
  destruct (compute_requests_for_download clock txs' w1) as [[u| |] w2]; cbn [snd] in Hq2;
    [|by eapply emits_trans..].
  pose proof (emits_dequeue txs' w2) as Hq3. destruct (dequeue_requests txs' w2) as [[] w3]; cbn [snd] in *;
    (eapply emits_trans; [done|]; by eapply emits_trans).
Qed.

Lemma emits_timer `{HashOrderOk} now txs w : Q Wakeup → emits w (snd (timer_tick now txs w)).
Proof.
  intros Hm. unfold timer_tick. rewrite compute_unchoke_id. destruct (remove_expired now (tracker w)) as [rs t].
  case_bool_decide; [by apply emits_same|]. set (w1 := on_tracker _ w).
  assert (emits w w1) as Hq by by apply emits_same.
  pose proof (emits_unlock Wakeup w1 Hm) as Hq2. unfold unlock_and_send in Hq2.
  destruct (on_net _ w1) as [[] w2]; cbn [snd] in *; exact (emits_trans _ _ _ Hq Hq2).
Qed.

Lemma emits_init `{BytesCrate, Profile} tx w :
  (∀ b, put_bit_set (E := AnyError) (BitFieldWriter_new []) (get_pieces_completed (tracker w))
     (zlen (pieces (info (torrent (inner w))))) = Ret b → P (BitField (BitFieldWriter_into b))) →
  P (Flag Choke) → P (Flag NotInterested) → emits w (snd (init_connection tx w)).
Proof.
  intros Hb Hc Hn. unfold init_connection.
  destruct (put_bit_set _ _ _) as [b| |]; [|apply emits_refl..].
  pose proof (emits_send tx (BitField (BitFieldWriter_into b)) w (Hb _ eq_refl)) as Hq1.
  destruct (send tx _ w) as [[] w1]; cbn [snd negb] in *; [|done].
  pose proof (emits_send tx (Flag Choke) w1 Hc) as Hq2.
  destruct (send tx _ w1) as [[] w2]; cbn [snd negb] in *; [|by eapply emits_trans].
  pose proof (emits_send tx (Flag NotInterested) w2 Hn) as Hq3.
  destruct (send tx _ w2) as [[] w3]; cbn [snd negb] in *;
    (eapply emits_trans; [done|]; by eapply emits_trans).
Qed.

Lemma emits_learn q tx l w : (∀ b, P (interest_msg b)) → Q Wakeup →
  emits w (snd (learn_pieces q tx l w)).
Proof.
  intros Hi Hm. unfold learn_pieces. destruct (add_pieces_for_peer_spec q l (locked w)) as (X & Hs & _).
  destruct (add_pieces_for_peer q l (locked w)) as [r s]. cbn [snd] in Hs.
  set (w1 := on_state _ w). assert (emits w w1) as Hq by (apply emits_same; [done|cbn; by rewrite Hs]).
  destruct r as [b|]; [|eapply emits_trans; [done|by apply emits_unlock]].
  pose proof (emits_send tx (interest_msg b) w1 (Hi b)) as Hq2.
  destruct (send tx _ w1) as [[] w2]; cbn [snd negb] in *; [|exact (emits_trans _ _ _ Hq Hq2)].
  eapply emits_trans; [exact Hq|]. eapply emits_trans; [exact Hq2|by apply emits_unlock].
Qed.

(** What a message of a peer makes the handler tell the processor. *)
Definition wakes (q : InternalPeerId) (msg : Messages) : list InternalStateMessage :=
  match msg with
  | Request i b k => [PeerRequested (mkRequest q i b k)]
  | Piece i b blk => [PieceComplete i; Wakeup]
  | _ => [Wakeup]
  end.

Lemma emits_handle_msg `{Profile} q tx msg w : (∀ b, P (interest_msg b)) →
  Forall Q (wakes q msg) → emits w (snd (handle_msg q tx msg w)).
Proof.
  intros Hi Hm. destruct msg as [|f|i|b|i b k|i b blk|i b k]; cbn [handle_msg wakes] in *;
    [apply emits_refl| | | | | |apply emits_refl];
    repeat match goal with H : Forall Q (_ :: _) |- _ => apply Forall_cons in H as [? H] end.
  - eapply emits_trans; [|by apply emits_unlock]. apply emits_same; [done|].
    destruct f; cbn; unfold set_peer_choked_us, set_peers_interested_in_us; cbn; by rewrite add_peer_id_frame.
  - by apply emits_learn.
  - destruct (bitfield_pieces b); [by apply emits_learn|apply emits_refl..].
  - destruct (get_internal_peer_state q (locked w)) as [st|]; [|apply emits_refl].
    destruct (choked st); [apply emits_refl|by apply emits_unlock].
  - destruct (on_net _ w) as [x w1] eqn:Hw. pose proof Hw as (Hs1 & Hi1)%io_write_sends.
    assert (emits w w1) as Hq.
    { intros [HI HR]. unfold on_net in Hw. destruct (io_write i b blk (net w)) as [y e] eqn:He.
      injection Hw as <- <-. split; [split; [by eapply (keeps_write Henv)|done]|].
      exists [], []. by split_and!. }
    destruct x as [e|[]]; [done| |]; (eapply emits_trans; [exact Hq|]);
      (eapply emits_trans; [|by apply emits_unlock]); by apply emits_same.
Qed.

(** * The events of the processor *)

Context `{EqDecision Tx}.

Lemma emits_peer_message `{Profile} h msg (p p' : Proc Tx N) : (∀ b, P (interest_msg b)) →
  Forall Q (wakes h.1 msg) → peer_message h msg p = Ret p' → emits (world p) (world p').
Proof.
  intros Hi Hm Hr. unfold peer_message in Hr.
  pose proof (emits_handle_msg h.1 h.2 msg (world p) Hi Hm) as He.
  destruct (handle_msg _ _ _ _) as [[[]| |] w]; [by injection Hr as <-..|done].
Qed.

Lemma emits_accept_peer `{BytesCrate, Profile} h tx (p p' : Proc Tx N) :
  (∀ b, put_bit_set (E := AnyError) (BitFieldWriter_new []) (get_pieces_completed (tracker (world p)))
     (zlen (pieces (info (torrent (inner (world p)))))) = Ret b → P (BitField (BitFieldWriter_into b))) →
  P (Flag Choke) → P (Flag NotInterested) →
  accept_peer h tx p = Ret p' → emits (world p) (world p').
Proof.
  intros Hb Hc Hn Hr. unfold accept_peer in Hr. pose proof (emits_init tx (world p) Hb Hc Hn) as He.
  destruct (init_connection tx (world p)) as [[] w]; [by injection Hr as <-..|done].
Qed.

Lemma emits_wake_event `{HashOrderOk, Profile} clock msg (p p' : Proc Tx N) : wake_fine msg →
  asks_fine clock (world p) → wake_event clock msg p = Ret p' → emits (world p) (world p').
Proof.
  intros Hm Hg Hr. unfold wake_event in Hr.
  pose proof (emits_wake_up clock (peer_to_tx p) msg (world p) Hm Hg) as He.
  destruct (wake_up _ _ _ _) as [[] w]; [by injection Hr as <-|done..].
Qed.

Lemma emits_timer_event `{HashOrderOk} now (p p' : Proc Tx N) : Q Wakeup →
  timer_event now p = Ret p' → emits (world p) (world p').
Proof.
  intros Hm Hr. unfold timer_event in Hr. pose proof (emits_timer now (peer_to_tx p) (world p) Hm) as He.
  destruct (timer_tick _ _ _) as [[] w]; [by injection Hr as <-|done..].
Qed.

Lemma emits_finished `{HashOrder} q (p : Proc Tx N) : emits (world p) (world (handler_finished q p)).
Proof. apply emits_same; [done|]. cbn. by rewrite add_peer_id_frame. Qed.
End emits.

(** * Nothing unchokes *)

Section quiet.
Context {Tx N : Type} `{EnvOk Tx N}.

Definition quiet : World N → World N → Prop :=
  emits (λ m, m ≠ Flag Unchoke) (λ _, True) (λ _, True) (λ _, True).

Lemma quiet_env : env_keeps (λ m, m ≠ Flag Unchoke) (λ _, True) (λ _ : N, True).
Proof. by split. Qed.

Lemma quiet_log (w w' : World N) : quiet w w' →
  ∃ l, sent (net w') = sent (net w) ++ l ∧ Forall (λ m, m.2 ≠ Flag Unchoke) l.
Proof.
  intros Hq. destruct Hq as [_ (l & k & [Hl _] & Hf & _)]; [|by exists l].
  split; [done|by apply Forall_true].
Qed.

Context `{EqDecision Tx, BytesCrate, Profile}.

Lemma peer_message_log h msg (p p' : Proc Tx N) : peer_message h msg p = Ret p' →
  ∃ l, sent (net (world p')) = sent (net (world p)) ++ l ∧ Forall (λ m, m.2 ≠ Flag Unchoke) l.
Proof.
  intros Hr. apply quiet_log. eapply emits_peer_message; [exact quiet_env|by intros b; destruct b| |exact Hr].
  by apply Forall_true.
Qed.

(** A step appends to what was sent, and never [Unchoke]. *)
Lemma proc_step_log (x y : Z * Proc Tx N) :
  proc_step x y → ∃ l, sent (net (world y.2)) = sent (net (world x.2)) ++ l ∧
    Forall (λ m, m.2 ≠ Flag Unchoke) l.
Proof.
  intros Hs. destruct Hs as [c p h tx p' Hr|c p h msg p' Hh Hmsg Hr|c p h Hh|c p q O HO Hq'
    |c c' p msg clock p' O HO Hm Hc Hr|c now p p' O HO Hc Hr|c p e He]; cbn [fst snd].
  - apply quiet_log. by apply (emits_accept_peer _ _ _ _ quiet_env h tx).
  - by apply (peer_message_log h msg).
  - apply quiet_log, emits_refl.
  - apply quiet_log, (emits_finished _ _ _ _ q p).
  - apply quiet_log. apply (emits_wake_event _ _ _ _ quiet_env clock msg); [by destruct msg| |done].
    intros reqs t _. by apply Forall_true.
  - apply quiet_log. by apply (emits_timer_event _ _ _ _ quiet_env now).
  - exists []. cbn. rewrite He. split; [by rewrite app_nil_r|constructor].
Qed.

End quiet.

(** * What is sent can be encoded *)

(** The network's part of it: the blocks that the storage reads fit into a frame. *)
Class EnvBounded (Tx N : Type) `{Env Tx N} := {
  net_bounded : N → Prop;
  tx_send_bounded tx m e ok e' : tx_send tx m e = (ok, e') → net_bounded e → net_bounded e';
  wake_send_bounded m e ok e' : wake_send m e = (ok, e') → net_bounded e → net_bounded e';
  io_write_bounded i b blk e r e' : io_write i b blk e = (r, e') → net_bounded e → net_bounded e';
  io_read_bounded i b k e r e' : io_read i b k e = (r, e') → is_u32 b → is_u32 k →
    net_bounded e → net_bounded e' ∧ ∀ blk, r = inr blk → zlen blk + 9 < 2 ^ 32;
}.

Definition req_ok (r : PeerRequestedPiece) : Prop :=
  is_u32 (req_index r) ∧ is_u32 (req_begin r) ∧ is_u32 (req_length r).

Definition wake_ok (msg : InternalStateMessage) : Prop :=
  match msg with Wakeup => True | PieceComplete i => is_u32 i | PeerRequested r => req_ok r end.

Section encodable.
Context {Tx N : Type} `{EnvOk Tx N, !EnvBounded Tx N}.

(** From one world to another only messages that can be encoded are sent. *)
Definition encodable : World N → World N → Prop := emits wf_message wake_ok req_ok net_bounded.

Lemma bounded_env : env_keeps wf_message req_ok (net_bounded (Tx := Tx) (N := N)).
Proof.
  split; [apply tx_send_bounded|apply wake_send_bounded|apply io_write_bounded|].
  intros r e x e' Hr (Hi & Hb & Hk) He. eapply io_read_bounded in Hr as [He' Hblk]; [|done..].
  split; [done|]. intros blk ->. by repeat split; try apply Hi; try apply Hb; apply Hblk.
Qed.

Context `{EqDecision Tx, BytesCrateOk, Profile}.
Context (tor : V1Torrent) (Hwf : wf_torrent tor).

Lemma asks_encodable `{HashOrderOk} c c' clock (w : World N) : inner_ok tor c (inner w) →
  (∀ i j, i ≤ j → clock i ≤ clock j) → (∀ i, c ≤ clock i ≤ c') → asks_fine wf_message clock w.
Proof.
  intros [Htor Htr Hst] Hm Hc reqs t Hrun. rewrite Htor in Hrun.
  destruct (generate_starts (E := AnyError) tor Hwf clock (piece_id_to_peers (locked w)) c (tracker w))
    as (reqs' & c2 & t' & Hrun' & _ & Hp & _); [done|by eapply clock_ok_available|].
  assert (reqs' = reqs) as -> by congruence. eapply Forall_impl; [exact Hp|].
  intros r (i & X & HX & peer & b & _ & (k & -> & Hb)%elem_of_blocks & ->).
  assert (0 ≤ i < zlen (pieces (info tor))) as Hi.
  { apply elem_of_dom_2 in HX. rewrite dom_piece_id_to_peers in HX. by apply (ok_range _ _ _ Htr). }
  pose proof (piece_size_range tor i Hwf Hi). destruct Hwf as (Hn & Hpl & _).
  cbn. unfold block_len, is_u32, PIECE_BLOCK_SIZE in *. lia.
Qed.

(** What the processor has sent and what waits, in a state that events keep. *)
Record traffic_ok (c : Z) (p : Proc Tx N) : Prop := {
  traffic_proc : proc_ok tor c p;
  traffic_sent : Forall (λ m, wf_message m.2) (sent (net (world p)));
  traffic_woken : Forall wake_ok (woken (net (world p)));
  traffic_requests : Forall req_ok (outstanding_peer_requests (locked (world p)));
  traffic_net : net_bounded (net (world p));
}.

Lemma traffic_step c c' (p p' : Proc Tx N) : traffic_ok c p → proc_ok tor c' p' →
  encodable (world p) (world p') → traffic_ok c' p'.
Proof.
  intros [Hp Hs Hk Hr Hn] Hp' He. destruct He as [[Hn' Hr'] (l & k & [Hl Hk'] & Hfl & Hfk)]; [by split|].
  split; [done| | |done|done]; [rewrite Hl|rewrite Hk']; by apply Forall_app.
Qed.

Lemma traffic_accept c h tx (p p' : Proc Tx N) : traffic_ok c p → accept_peer h tx p = Ret p' →
  traffic_ok c p'.
Proof.
  intros Ht Hr. pose proof (traffic_proc _ _ Ht) as Hok.
  destruct (accept_peer_ok tor Hwf c h tx p Hok) as (p2 & Hr2 & Hok2).
  assert (p2 = p') as -> by congruence. eapply traffic_step; [done..|].
  apply (emits_accept_peer _ _ _ _ bounded_env h tx); [|done..].
  intros b Hb. rewrite (ok_torrent _ _ _ Hok) in Hb. destruct Hwf as (Hn & _).
  apply put_bit_set_length in Hb; [|lia]. cbn. lia.
Qed.

Lemma traffic_message c h msg (p p' : Proc Tx N) : traffic_ok c p → wf_message msg →
  peer_message h msg p = Ret p' → traffic_ok c p'.
Proof.
  intros Ht Hm Hr. pose proof (traffic_proc _ _ Ht) as Hok.
  destruct (peer_message_ok tor c h msg p Hok) as (p2 & Hr2 & Hok2); [destruct msg; cbn in *; lia || done|].
  assert (p2 = p') as -> by congruence. eapply traffic_step; [done..|].
  apply (emits_peer_message _ _ _ _ bounded_env h msg); [by intros []| |done].
  destruct msg; cbn in Hm |- *; repeat constructor; by try apply Hm.
Qed.

Lemma traffic_wake `{HashOrderOk} c c' clock msg (p p' : Proc Tx N) : traffic_ok c p → wake_ok msg →
  (∀ i j, i ≤ j → clock i ≤ clock j) → (∀ i, c ≤ clock i ≤ c') →
  wake_event clock msg p = Ret p' → traffic_ok c' p'.
Proof.
  intros Ht Hm Hmono Hc Hr. pose proof (traffic_proc _ _ Ht) as Hok.
  destruct (wake_event_ok tor Hwf c c' clock msg p Hok Hmono Hc) as (p2 & Hr2 & Hok2).
  assert (p2 = p') as -> by congruence. eapply traffic_step; [done..|].
  apply (emits_wake_event _ _ _ _ bounded_env clock msg); [by destruct msg| |done].
  by eapply asks_encodable.
Qed.

Lemma traffic_timer `{HashOrderOk} c now (p p' : Proc Tx N) : traffic_ok c p → c ≤ now →
  timer_event now p = Ret p' → traffic_ok now p'.
Proof.
  intros Ht Hc Hr. pose proof (traffic_proc _ _ Ht) as Hok.
  pose proof (proj2 (timer_event_ok tor c now p Hok Hc) _ Hr) as Hok2.
  eapply traffic_step; [done..|]. by apply (emits_timer_event _ _ _ _ bounded_env now).
Qed.

Lemma traffic_finished `{HashOrderOk} c q (p : Proc Tx N) : traffic_ok c p →
  traffic_ok c (handler_finished q p).
Proof.
  intros Ht. eapply traffic_step; [done| |apply emits_finished].
  apply handler_finished_ok, (traffic_proc _ _ Ht).
Qed.

Lemma traffic_new max e c : 0 ≤ max < 2 ^ 64 → sent e = [] → woken e = [] → net_bounded e →
  traffic_ok c (Proc_new tor max e).
Proof. intros Hm Hs Hk Hn. split; cbn; rewrite ?Hs, ?Hk; [by apply proc_new_ok|done..]. Qed.
End encodable.

(** * Properties *)

Section traffic_properties.
Context {Tx N : Type} `{EnvOk Tx N, EqDecision Tx, BytesCrateOk, Profile}.

(** C32. No run of the processor ever sends [Unchoke] to a peer. *)
Theorem never_unchoked torrent max c0 e c p tx :
  sent e = [] → rtc proc_step (c0, Proc_new torrent max e) (c, p) →
  (tx, Flag Unchoke) ∉ sent (net (world p)).
Proof.
  intros He Hrun.
  assert (Forall (λ m, m.2 ≠ Flag Unchoke) (sent (net (world (c, p).2)))) as Hf.
  { eapply (rtc_ind_r (λ x, Forall (λ m, m.2 ≠ Flag Unchoke) (sent (net (world x.2)))));
      [|intros x y _ Hs Hx|exact Hrun].
    - cbn. rewrite He. constructor.
    - apply proc_step_log in Hs as (l & -> & Hl). by apply Forall_app. }
  rewrite Forall_forall in Hf. intros Hin. by apply (Hf _ Hin).
Qed.
End traffic_properties.
