(* ===== verification/Swarm.v ===== *)
(** The processor on a storage: an environment made of per-peer channels and of
    the I/O task of [Io.v] over any storage, a piece downloaded message by
    message, and a concrete run with the witnesses of the processor's properties. *)
From S2P Require Import Prelude ByteStr BytesCrate Model Protocol Errors Bitfield Collections.
From S2P Require Import Allocation Slices Io Piece State Processor Traffic.
From Stdlib Require Import ZArith Lia.

(** * An environment

    A channel is a number; it refuses messages once its receiver is gone. *)
Record SimNet (S : Type) := mkSim {
  sim_sent : list (Z * Messages);
  sim_woken : list InternalStateMessage;
  sim_closed : list Z;
  sim_storage : option S;
}.
Arguments mkSim {S} _ _ _ _.
Arguments sim_sent {S} _.
Arguments sim_woken {S} _.
Arguments sim_closed {S} _.
Arguments sim_storage {S} _.

Section sim.
Context {S : Type} `{TorrentIO S}.

#[export] Instance sim_env : Env Z (SimNet S) := {|
  tx_send tx msg e :=
    if bool_decide (tx ∈ sim_closed e) then (false, e)
    else (true, mkSim (sim_sent e ++ [(tx, msg)]) (sim_woken e) (sim_closed e) (sim_storage e));
  tx_is_closed tx e := bool_decide (tx ∈ sim_closed e);
  wake_send msg e := (true, mkSim (sim_sent e) (sim_woken e ++ [msg]) (sim_closed e) (sim_storage e));
  io_read i b k e :=
    let '(r, st) := IoHandler_read i b k (sim_storage e) in
    (r, mkSim (sim_sent e) (sim_woken e) (sim_closed e) st);
  io_write i b l e :=
    let '(r, st) := IoHandler_write i b l (sim_storage e) in
    (r, mkSim (sim_sent e) (sim_woken e) (sim_closed e) st);
|}.

#[export] Program Instance sim_env_ok : EnvOk Z (SimNet S) := {|
  sent := sim_sent;
  woken := sim_woken;
|}.
Next Obligation. cbn. intros tx msg e ok e'. case_bool_decide; intros [= <- <-]; cbn; by rewrite ?app_nil_r. Qed.
Next Obligation. cbn. by intros msg e ok e' [= <- <-]. Qed.
Next Obligation. cbn. intros i b k e r e'. destruct (IoHandler_read _ _ _ _). by intros [= <- <-]. Qed.
Next Obligation. cbn. intros i b l e r e'. destruct (IoHandler_write _ _ _ _). by intros [= <- <-]. Qed.
End sim.

(** The client of the I/O task answers what the storage answers. *)
Lemma IoHandler_write_spec {S} `{TorrentIO S} i b blk (io : S) :
  IoHandler_write i b blk (Some io) =
  match write_piece i b blk io with
  | (Ret r, io') => (inr r, Some io')
  | (Err e, io') => (inl e, Some io')
  | (Panic, _) => (inl handler_exits, None)
  end.
Proof.
  unfold IoHandler_write. cbn [io_handler_task io_handle].
  by destruct (write_piece i b blk io) as [[] io'].
Qed.

Lemma IoHandler_read_spec {S} `{TorrentIO S} i b k (io : S) :
  IoHandler_read i b k (Some io) =
  match read_piece i b k io with
  | (Ret r, io') => (inr r, Some io')
  | (Err e, io') => (inl e, Some io')
  | (Panic, _) => (inl handler_exits, None)
  end.
Proof.
  unfold IoHandler_read. cbn [io_handler_task io_handle].
  by destruct (read_piece i b k io) as [[] io'].
Qed.

(** A network with a bounded storage. *)
#[export] Program Instance sim_env_bounded {S} `{BoundedIO S} : EnvBounded Z (SimNet S) := {|
  net_bounded e := from_option io_bounded True (sim_storage e);
|}.
Next Obligation. cbn. intros S ? ? tx m e ok e'. case_bool_decide; by intros [= <- <-]. Qed.
Next Obligation. cbn. by intros S ? ? m e ok e' [= <- <-]. Qed.
Next Obligation.
  cbn. intros S ? ? i b blk e r e' Hw Hs. destruct (sim_storage e) as [io|]; [|by injection Hw as <- <-].
  rewrite IoHandler_write_spec in Hw. destruct (write_piece i b blk io) as [x io'] eqn:He.
  cbn in Hs.
  pose proof (write_bounded _ _ _ _ _ _ He Hs). destruct x; by injection Hw as <- <-.
Qed.
Next Obligation.
  cbn. intros S ? ? i b k e r e' Hr Hb Hk Hs.
  destruct (sim_storage e) as [io|]; [|by injection Hr as <- <-].
  rewrite IoHandler_read_spec in Hr. destruct (read_piece i b k io) as [x io'] eqn:He. cbn in Hs.
  pose proof (read_bounded _ _ _ _ _ _ He Hs).
  destruct x; injection Hr as <- <-; (split; [done|]); intros block [= <-]. by eapply read_fits.
Qed.

(** * Receiving blocks *)

Section receive.
Context {S : Type} `{TorrentIO S} `{BytesCrate} `{Profile}.

(** The [Piece] messages that carry the slices [l] of [data]. *)
Definition piece_messages (i : Z) (data : list byte) (l : list (Z * Z)) : list Messages :=
  map (λ p, Piece i p.1 (sub data p.1 p.2)) l.

Definition wake_of (i : Z) (r : bool) : InternalStateMessage := if r then PieceComplete i else Wakeup.

(** The handler writes each block, and wakes the processor up with what the
    storage answered. *)
Lemma receive_blocks i data q tx l : ∀ rs (w : World (SimNet S)) io io',
  sim_storage (net w) = Some io → write_blocks i data l io = (Ret rs, io') →
  ∃ w', inner_handle_peer_msgs q tx (piece_messages i data l) w = (Ret tt, w') ∧
    sim_storage (net w') = Some io' ∧ sends w [] (map (wake_of i) rs) w' ∧
    pieces_completed (tracker w') =
      (if bool_decide (true ∈ rs) then {[i]} else ∅) ∪ pieces_completed (tracker w).
Proof.
  induction l as [|[b k] l IH]; intros rs w io io' Hio Hw; cbn [write_blocks] in Hw.
  { injection Hw as <- <-. exists w. split_and!; [done|done|apply sends_nil|].
    rewrite bool_decide_false by apply not_elem_of_nil. set_solver. }
  apply act_bind_inv in Hw as (r & io1 & Hw1 & Hw).
  apply act_bind_inv in Hw as (rs1 & io2 & Hw2 & Hw). injection Hw as <- <-.
  change (piece_messages i data ((b, k) :: l)) with (Piece i b (sub data b k) :: piece_messages i data l).
  cbn [inner_handle_peer_msgs handle_msg].
  assert (on_net (io_write i b (sub data b k)) w =
    (inr r, mkWorld (inner w) (mkSim (sim_sent (net w)) (sim_woken (net w)) (sim_closed (net w)) (Some io1))))
    as ->.
  { unfold on_net. cbn [io_write sim_env]. rewrite Hio, IoHandler_write_spec, Hw1. done. }
  set (w1 := mkWorld (inner w) _).
  assert (∃ w2, (if r then unlock_and_send (PieceComplete i) (on_tracker (λ t, set_piece_finished t i) w1)
      else unlock_and_send Wakeup (on_tracker (λ t, snd (set_request_finished t i b)) w1)) = (Ret Continue, w2) ∧
    sim_storage (net w2) = Some io1 ∧ sends w [] [wake_of i r] w2 ∧
    pieces_completed (tracker w2) = (if r then {[i]} else ∅) ∪ pieces_completed (tracker w))
    as (w2 & -> & Hst2 & Hs2 & Hc2).
  { destruct r; eexists; (split; [reflexivity|]); split_and!; [done| |done|done| |].
    - unfold sends. cbn. by rewrite app_nil_r.
    - unfold sends. cbn. by rewrite app_nil_r.
    - unfold tracker, locked. cbn.
      destruct (set_request_finished_pieces (piece_block_tracking (torrent_state (inner w))) i b)
        as (_ & _ & ->). set_solver. }
  destruct (IH rs1 w2 io1 io2 Hst2 Hw2) as (w3 & -> & Hst3 & Hs3 & Hc3).
  exists w3. split_and!; [done|done|exact (sends_trans w [] [_] w2 [] _ w3 Hs2 Hs3)|].
  rewrite Hc3, Hc2. destruct r.
  - rewrite (bool_decide_true (true ∈ true :: rs1)) by left. case_bool_decide; set_solver.
  - assert (bool_decide (true ∈ false :: rs1) = bool_decide (true ∈ rs1)) as ->.
    { apply bool_decide_ext. rewrite elem_of_cons. naive_solver. }
    set_solver.
Qed.
End receive.

(** * Properties *)

(** C3. The whole path of a download: a peer that sends the
    blocks of a piece of a fresh torrent, in any order, has each of them written; the
    processor is told once, with the last block, that the piece is complete, counts it
    as completed, and the storage then reads back the peer's data. *)
Theorem piece_download_completes `{BytesCrate} `{Profile} t io i data l p q tx
    (w : World (SimNet MemoryTorrentIO)) :
  wf_torrent t → MemoryTorrentIO_new t = Ret io → sim_storage (net w) = Some io →
  0 ≤ i < zlen (pieces (info t)) → zlen data = piece_size t i →
  slices_in (zlen data) (l ++ [p]) → disjoint_slices (l ++ [p]) →
  (∀ x, 0 ≤ x < zlen data → asked (l ++ [p]) x) →
  ∃ w', inner_handle_peer_msgs q tx (piece_messages i data (l ++ [p])) w = (Ret tt, w') ∧
    sends w [] (replicate (length l) Wakeup ++ [PieceComplete i]) w' ∧
    i ∈ get_pieces_completed (tracker w') ∧
    fst (io_read i 0 (zlen data) (net w')) = inr data.
Proof.
  intros Hwf Hio Hst Hi Hd Hin Hdis Hall.
  destruct (download_tiling t io i data l p) as (io' & Hw & Hread); [done..|].
  destruct (receive_blocks i data q tx (l ++ [p]) _ w io io' Hst Hw) as (w' & Hrun & Hst' & Hs & Hc).
  exists w'. split_and!; [done| | |].
  - rewrite map_app in Hs. cbn [map wake_of] in Hs. by rewrite (fmap_replicate (wake_of i)) in Hs.
  - unfold get_pieces_completed. rewrite Hc, bool_decide_true by set_solver. set_solver.
  - cbn [io_read sim_env]. rewrite Hst', IoHandler_read_spec. by rewrite Hread.
Qed.

(** * A concrete run *)

Module SwarmExamples.
Import ListBytes DevProfile ElementsOrder.

(** The processor on in-memory storage; [ann] connects on channel 7, does not
    choke us and has both pieces. *)
Definition ann : InternalPeerId := [x41].
Definition hello : Handshake := mkHandshake (mkPeerContext (replicate 20 x03) ann).
Definition store : option MemoryTorrentIO :=
  match MemoryTorrentIO_new short_last with Ret io => Some io | _ => None end.
Definition net0 : SimNet MemoryTorrentIO := mkSim [] [] [] store.
Definition start : Proc Z (SimNet MemoryTorrentIO) := Proc_new short_last 4 net0.
Definition or_start {E} (r : outcome E (Proc Z (SimNet MemoryTorrentIO))) : Proc Z (SimNet MemoryTorrentIO) :=
  match r with Ret p => p | _ => start end.

Definition connected := or_start (accept_peer hello 7 start).
Definition unchoked := or_start (peer_message (ann, 7) (Flag Unchoke) connected).
Definition informed := or_start (peer_message (ann, 7) (BitField [xc0]) unchoked).
Definition asking := or_start (wake_event (λ _, 1) Wakeup informed).
Definition keen := or_start (peer_message (ann, 7) (Flag Interested) asking).

Example asking_sent : sim_sent (net (world asking)) =
  [(7, BitField [x00]); (7, Flag Choke); (7, Flag NotInterested); (7, Flag Interested);
   (7, Request 0 0 10); (7, Request 1 0 5)].
Proof. vm_compute. reflexivity. Qed.

(** The request of the second piece is answered with its bytes. *)
Example download_second :
  let p := or_start (peer_message (ann, 7) (Piece 1 0 (bs "world")) asking) in
  sim_woken (net (world p)) = [Wakeup; Wakeup; PieceComplete 1] ∧
  pieces_completed (tracker (world p)) = {[1]} ∧
  fst (io_read 1 0 5 (net (world p))) = inr (bs "world").
Proof. vm_compute. repeat split; reflexivity. Qed.

Lemma run_informed : rtc proc_step (0, start) (0, informed).
Proof.
  apply (rtc_l _ _ (0, connected)); [apply (step_accept 0 start hello 7); vm_compute; reflexivity|].
  apply (rtc_l _ _ (0, unchoked)).
  { apply (step_message 0 connected (ann, 7) (Flag Unchoke)); [by left|exact I|vm_compute; reflexivity]. }
  apply rtc_once.
  apply (step_message 0 unchoked (ann, 7) (BitField [xc0])); [by left|reflexivity|vm_compute; reflexivity].
Qed.

Lemma run_asking : rtc proc_step (0, start) (1, asking).
Proof.
  apply (rtc_r _ (0, informed)); [exact run_informed|].
  apply (step_wake 0 1 informed Wakeup (λ _, 1) asking elements_order);
    [apply _|reflexivity|intros i; split; [discriminate|reflexivity]|vm_compute; reflexivity].
Qed.

Lemma processor_invariant_witness : state_ok (locked (world asking)).
Proof.
  destruct (processor_invariant short_last 4 0 net0 1 asking) as (_ & _ & Hs).
  - exact short_last_wf.
  - split; [discriminate|reflexivity].
  - exact run_asking.
  - exact Hs.
Defined.

Lemma processor_never_panics_witness :
  is_ret (peer_message (ann, 9) (BitField [xff; xff]) asking) = true.
Proof.
  destruct (processor_never_panics short_last 4 0 net0 1 asking hello 9 (BitField [xff; xff]) Wakeup
    (λ _, 2) 2) as (_ & Hp & _).
  - exact short_last_wf.
  - split; [discriminate|reflexivity].
  - exact run_asking.
  - reflexivity.
  - reflexivity.
  - intros i. split; [discriminate|reflexivity].
  - exact Hp.
Defined.

Lemma never_unchoked_witness : (7, Flag Unchoke) ∉ sim_sent (net (world asking)).
Proof.
  exact (never_unchoked short_last 4 0 net0 1 asking 7 eq_refl run_asking).
Defined.

Lemma compute_unchoke_does_nothing_witness :
  compute_unchoke (peer_to_tx keen) (world keen) = world keen.
Proof. apply (compute_unchoke_does_nothing (peer_to_tx keen) (world keen)). Defined.

Lemma informed_ok : inner_ok short_last 0 (inner (world informed)).
Proof.
  apply (proc_reachable_ok short_last short_last_wf 4 0 net0 0 informed); [split; [discriminate|reflexivity]|].
  exact run_informed.
Qed.

(** With a channel to the peer both pieces are asked for; without, the requests are taken
    back. *)
Lemma outstanding_requests_are_sent_witness :
  (∃ w' log, compute_requests_for_download (λ _, 1) {[ann := 7]} (world informed) = (Ret tt, w') ∧
    sends (world informed) log [] w' ∧ length log = 2%nat) ∧
  (∃ w', compute_requests_for_download (λ _, 1) (∅ : gmap InternalPeerId Z) (world informed) = (Ret tt, w') ∧
    free (started (tracker w')) 0 0).
Proof.
  split.
  - destruct (outstanding_requests_are_sent short_last 0 1 (λ _, 1) {[ann := 7]} (world informed))
      as (w' & reqs & t' & log & Hrun & Hgen & Hs & Ha & _);
      [exact short_last_wf|exact informed_ok|reflexivity|intros i; split; [discriminate|reflexivity]|].
    exists w', log. split; [exact Hrun|]. split; [exact Hs|].
    rewrite <-(Forall2_length _ _ _ Ha). vm_compute in Hgen. injection Hgen as <- _. vm_compute. reflexivity.
  - destruct (outstanding_requests_are_sent short_last 0 1 (λ _, 1) ∅ (world informed))
      as (w' & reqs & t' & log & Hrun & Hgen & _ & _ & Hf & _);
      [exact short_last_wf|exact informed_ok|reflexivity|intros i; split; [discriminate|reflexivity]|].
    exists w'. split; [exact Hrun|]. apply (Hf (mkRequest ann 0 0 10)).
    + vm_compute in Hgen. injection Hgen as <- _. apply list_elem_of_In. vm_compute. tauto.
    + intros Hin. vm_compute in Hgen. injection Hgen as <- _. apply list_elem_of_In in Hin.
      vm_compute in Hin. tauto.
Defined.

(** Five requests of [ann] queued, the first for a piece that does not exist. *)
Definition queued : list PeerRequestedPiece :=
  [mkRequest ann 2 0 1; mkRequest ann 0 0 1; mkRequest ann 0 1 1; mkRequest ann 0 2 1;
   mkRequest ann 0 3 1].
Definition busy : World (SimNet MemoryTorrentIO) := on_state (set_requests queued) (world asking).

(** Five that can be answered. *)
Definition served : list PeerRequestedPiece :=
  [mkRequest ann 0 0 1; mkRequest ann 0 1 1; mkRequest ann 1 0 2; mkRequest ann 0 3 1; mkRequest ann 0 4 1].
Definition serving : World (SimNet MemoryTorrentIO) := on_state (set_requests served) (world asking).

Lemma dequeue_loses_requests_witness :
  (outstanding_peer_requests (locked (snd (dequeue_requests {[ann := 7]} busy))) = [] ∧
    sends busy [] [] (snd (dequeue_requests {[ann := 7]} busy))) ∧
  (∃ log, sends serving log [] (snd (dequeue_requests {[ann := 7]} serving)) ∧ length log = 4%nat).
Proof.
  split.
  - destruct (dequeue_loses_requests {[ann := 7]} busy (mkRequest ann 2 0 1) (mkRequest ann 0 0 1)
      (mkRequest ann 0 1 1) (mkRequest ann 0 2 1) (mkRequest ann 0 3 1) [] 7) as (Hq & _ & He).
    + reflexivity.
    + reflexivity.
    + split; [exact Hq|]. apply (He (AE_Peer (BadPieceIdx 2))). vm_compute. reflexivity.
  - destruct (dequeue_loses_requests {[ann := 7]} serving (mkRequest ann 0 0 1) (mkRequest ann 0 1 1)
      (mkRequest ann 1 0 2) (mkRequest ann 0 3 1) (mkRequest ann 0 4 1) [] 7) as (_ & Ha & _).
    + reflexivity.
    + reflexivity.
    + assert (∃ log e, answered {[ann := 7]} [mkRequest ann 0 0 1; mkRequest ann 0 1 1; mkRequest ann 1 0 2;
        mkRequest ann 0 3 1] (net serving) log e ∧ length log = 4%nat) as (log & e & Hlog & Hl).
      { eexists _, _. split.
        - do 4 (eapply (answered_next _ _ _ 7 _ _ _ true); [reflexivity|vm_compute; reflexivity|vm_compute; reflexivity|]).
          apply answered_all.
        - reflexivity. }
      exists log. split; [apply (Ha log e Hlog)|exact Hl].
Defined.

Lemma init_connection_announces_witness :
  ∃ b, sends (world start) [(9, BitField b); (9, Flag Choke); (9, Flag NotInterested)] []
    (snd (init_connection 9 (world start))).
Proof.
  destruct (init_connection_announces 9 (world start) (snd (init_connection 9 (world start))))
    as (_ & b & Hs & _).
  - exact short_last_wf.
  - vm_compute. reflexivity.
  - exists b. exact Hs.
Defined.

(** [ann] has been told [Choke] and never [Unchoke]. *)
Lemma request_served_iff_witness :
  sends (world keen) [] [PeerRequested (mkRequest ann 0 0 4)]
    (snd (handle_msg ann 7 (Request 0 0 4) (world keen))).
Proof.
  assert (handle_msg ann 7 (Request 0 0 4) (world keen) =
    (Ret Continue, snd (handle_msg ann 7 (Request 0 0 4) (world keen)))) as Hrun
    by (vm_compute; reflexivity).
  assert (get_internal_peer_state ann (locked (world keen)) = Some (mkPeerState false true)) as Hst
    by (vm_compute; reflexivity).
  pose proof (request_served_iff ann 7 0 0 4 (world keen) _ _ Hrun) as Hp. rewrite Hst in Hp.
  destruct Hp as (_ & [[_ Hs]|[Hr _]]); [exact Hs|discriminate Hr].
Defined.

Lemma told_choked_but_served_witness :
  (7, Flag Choke) ∈ sim_sent (net (snd (init_connection 7 (world start)))).
Proof.
  destruct (told_choked_but_served ann 7 0 0 4 (world start) (snd (init_connection 7 (world start)))
    (snd (handle_msg ann 7 (Flag Interested) (snd (init_connection 7 (world start)))))) as (Hs & _).
  - reflexivity.
  - vm_compute. reflexivity.
  - vm_compute. reflexivity.
  - exact Hs.
Defined.

Lemma piece_message_effects_witness :
  1 ∈ pieces_completed (tracker (snd (handle_msg ann 7 (Piece 1 0 (bs "world")) (world asking)))).
Proof.
  assert (handle_msg ann 7 (Piece 1 0 (bs "world")) (world asking) =
    (Ret Continue, snd (handle_msg ann 7 (Piece 1 0 (bs "world")) (world asking)))) as Hrun
    by (vm_compute; reflexivity).
  assert (fst (io_write 1 0 (bs "world") (net (world asking))) = inr true) as Hio
    by (vm_compute; reflexivity).
  pose proof (piece_message_effects ann 7 1 0 (bs "world") (world asking) _ _ Hrun) as Hp.
  rewrite Hio in Hp. exact (proj1 (proj2 Hp)).
Defined.

Lemma piece_download_completes_witness :
  ∃ w', inner_handle_peer_msgs ann 7
      [Piece 0 4 (bs "4567"); Piece 0 8 (bs "89"); Piece 0 0 (bs "0123")] (world asking) = (Ret tt, w') ∧
    0 ∈ get_pieces_completed (tracker w') ∧
    fst (io_read 0 0 10 (net w')) = inr (bs "0123456789").
Proof.
  destruct (piece_download_completes short_last (IoExamples.fresh) 0 (bs "0123456789")
    [(4, 4); (8, 2)] (0, 4) ann 7 (world asking)) as (w' & Hrun & _ & Hc & Hr).
  - exact short_last_wf.
  - reflexivity.
  - vm_compute. reflexivity.
  - vm_compute. split; congruence.
  - reflexivity.
  - repeat constructor; vm_compute; congruence.
  - exact (proj1 IoExamples.blocks_tile).
  - exact (proj2 IoExamples.blocks_tile).
  - exists w'. split; [exact Hrun|]. split; [exact Hc|exact Hr].
Defined.
End SwarmExamples.
