(* ===== verification/Download.v ===== *)
(** A whole download: peers that have the pieces and answer what they are asked,
    in any order and interleaved with whatever else they announce, bring every
    piece of the torrent into the storage. The storage is any that does as the one in
    memory ([PieceStore]). *)
From S2P Require Import Prelude ByteStr BytesCrate Model Protocol Errors Bitfield Collections.
From S2P Require Import Allocation Slices Io Piece State Processor Traffic Swarm.
From Stdlib Require Import ZArith Lia.

(** * What the tracker and the storage know of each other *)

(** The tracker after a block: what the message handler does with it. *)
Definition block_arrives (done : bool) (i b : Z) (t : PieceBlockTracker) : PieceBlockTracker :=
  if done then set_piece_finished t i else snd (set_request_finished t i b).

Lemma arrives_maps done i b t d : loading (started t) i b = Some d →
  let t' := block_arrives done i b t in
  pieces_completed t' = (if done then {[i]} else ∅) ∪ pieces_completed t ∧
  pieces_not_started t' = pieces_not_started t ∧
  (∀ p c, loading (started t') p c =
     if decide (p = i ∧ (done = true ∨ c = b)) then None else loading (started t) p c) ∧
  (∀ p c, arrived (started t') p c =
     if decide (p = i ∧ done = true) then None
     else if decide (p = i ∧ c = b) then Some d else arrived (started t) p c).
Proof.
  intros Hd. destruct done; cbn [block_arrives].
  - split_and!; [done|done| |]; intros p c.
    + unfold loading. cbn. rewrite visit_delete. repeat case_decide; naive_solver.
    + unfold arrived. cbn. rewrite visit_delete. repeat case_decide; naive_solver.
  - unfold set_request_finished. rewrite set_request_finished_move, Hd. cbn [snd].
    split_and!; [cbn; set_solver|done| |]; intros p c.
    + unfold loading. cbn. rewrite visit_cut. repeat case_decide; naive_solver.
    + unfold arrived. cbn. rewrite visit_put. repeat case_decide; naive_solver.
Qed.

Section stored.
Context `{Profile} (tor : V1Torrent) (Hwf : wf_torrent tor).
Context (data : Z → list byte).
Abbreviation n := (zlen (pieces (info tor))).
Abbreviation size := (piece_size tor).
Context (Hdata : ∀ i, 0 ≤ i < n → zlen (data i) = size i).

(** Requests are for blocks of the torrent, and a completed piece is not
    downloaded again. *)
Record honest (t : PieceBlockTracker) : Prop := {
  hn_blocks : ∀ i b d, loading (started t) i b = Some d ∨ arrived (started t) i b = Some d →
    0 ≤ i < n ∧ b ∈ blocks (size i);
  hn_len : ∀ i b d, loading (started t) i b = Some d →
    req_length (piece_request d) = block_len (size i) b;
  hn_settled : ∀ i, i ∈ pieces_completed t → i ∉ pieces_not_started t ∪ pieces_ (started t);
}.

(** Byte [x] of piece [i] has arrived, as the tracker sees it. *)
Definition known (t : PieceBlockTracker) (i x : Z) : Prop :=
  i ∈ pieces_completed t ∨
  ∃ b, is_Some (arrived (started t) i b) ∧ b ≤ x < b + block_len (size i) b.

(** The storage has the bytes of a piece that the tracker thinks it has. *)
Record piece_stored (t : PieceBlockTracker) (i : Z) (m : Memory) : Prop := {
  ps_data : holds_data (data i) m;
  ps_separated : separated (-1) (slices (mem_slices m));
  ps_known : ∀ x, covers (slices (mem_slices m)) x ↔ 0 ≤ x < size i ∧ known t i x;
  ps_incomplete : i ∉ pieces_completed t → is_complete (mem_slices m) = false;
}.

(** A block of the torrent that has not arrived. *)
Definition missing (t : PieceBlockTracker) (k : Z * Z) : Prop :=
  (k.1 ∉ pieces_completed t) ∧ arrived (started t) k.1 k.2 = None.

#[export] Instance missing_dec t k : Decision (missing t k).
Proof. unfold missing. apply _. Defined.

Definition all_blocks : list (Z * Z) := i ← seqZ 0 n; pair i <$> blocks (size i).

Lemma elem_of_all_blocks i b : (i, b) ∈ all_blocks ↔ 0 ≤ i < n ∧ b ∈ blocks (size i).
Proof.
  unfold all_blocks. rewrite list_elem_of_bind. split.
  - intros (j & (b' & [= -> ->] & Hb)%list_elem_of_fmap & Hj%elem_of_seqZ). split; [lia|done].
  - intros [Hi Hb]. exists i. split; [apply list_elem_of_fmap; eauto|apply elem_of_seqZ; lia].
Qed.

Definition remaining (t : PieceBlockTracker) : nat := length (filter (missing t) all_blocks).

Lemma block_range i b : 0 ≤ i < n → b ∈ blocks (size i) →
  0 ≤ b ∧ 0 < block_len (size i) b ∧ b + block_len (size i) b ≤ size i.
Proof.
  intros Hi (k & -> & Hb)%elem_of_blocks. unfold block_len, PIECE_BLOCK_SIZE in *. lia.
Qed.

(** A byte belongs to one block. *)
Lemma block_of_byte i b c x : b ∈ blocks (size i) → c ∈ blocks (size i) →
  b ≤ x < b + block_len (size i) b → c ≤ x < c + block_len (size i) c → b = c.
Proof.
  intros (k & -> & Hb)%elem_of_blocks (l & -> & Hc)%elem_of_blocks Hxb Hxc.
  unfold block_len, PIECE_BLOCK_SIZE in *. assert (k = l) by lia. by subst.
Qed.

Lemma arrives_known done i b t d j x : loading (started t) i b = Some d →
  arrived (started t) i b = None →
  known (block_arrives done i b t) j x ↔ known t j x ∨
    (j = i ∧ (done = true ∨ b ≤ x < b + block_len (size i) b)).
Proof.
  intros Hd Ha. pose proof (arrives_maps done i b t d Hd) as (Hc & _ & _ & Harr). unfold known.
  rewrite Hc. setoid_rewrite Harr. split.
  - intros [Hj|(c & Hs & Hx)]; [destruct done; set_solver|].
    case_decide as H1; [by destruct Hs|]. case_decide as H2; [naive_solver|]. left. right. eauto.
  - intros [[Hj|(c & Hs & Hx)]|[-> [->|Hx]]].
    + left. set_solver.
    + destruct (decide (j = i ∧ done = true)) as [[-> ->]|Hn]; [left; set_solver|].
      right. exists c. destruct (decide (j = i ∧ c = b)) as [[-> ->]|]; [|done].
      by rewrite Ha in Hs; destruct Hs.
    + left. set_solver.
    + destruct done; [left; set_solver|]. right. exists b.
      rewrite decide_False by naive_solver. by rewrite decide_True.
Qed.

Lemma arrives_honest done c i b t d : tracker_ok n c t → honest t → loading (started t) i b = Some d →
  honest (block_arrives done i b t).
Proof.
  intros Hok [Hb Hl Hs] Hd. pose proof (arrives_maps done i b t d Hd) as (Hc & Hn & Hld & Harr). split.
  - intros p c' d'. rewrite Hld, Harr. repeat case_decide; naive_solver.
  - intros p c' d'. rewrite Hld. destruct (decide _); [done|apply Hl].
  - intros p. rewrite Hc, Hn. assert (pieces_ (started (block_arrives done i b t)) ⊆ pieces_ (started t) ∧
      (done = true → i ∉ pieces_ (started (block_arrives done i b t)))) as [Hsub Hi].
    { destruct done; cbn [block_arrives].
      - pose proof (set_piece_finished_pieces t i) as (-> & _). set_solver.
      - pose proof (set_request_finished_pieces t i b) as (-> & _). done. }
    apply visit_dom in Hd. pose proof (ok_not_started _ _ _ Hok) as Hdis.
    assert (i ∈ pieces_ (started t)) as Hip by (unfold pieces_; set_solver).
    intros Hp. destruct done; [|set_solver]. destruct (decide (p = i)) as [->|]; set_solver.
Qed.

Lemma filter_shorter {A} (P Q : A → Prop) `{∀ x, Decision (P x), ∀ x, Decision (Q x)} (l : list A) x :
  (∀ y, y ∈ l → Q y → P y) → x ∈ l → P x → ¬ Q x → (length (filter Q l) < length (filter P l))%nat.
Proof.
  intros Hqp. assert (∀ l', (∀ y, y ∈ l' → Q y → P y) → (length (filter Q l') ≤ length (filter P l'))%nat) as Hle.
  { induction l' as [|y l' IH]; intros Hl'; [done|]. rewrite !filter_cons.
    assert (length (filter Q l') ≤ length (filter P l'))%nat by (apply IH; set_solver).
    repeat case_decide; cbn; [lia| |lia|lia]. exfalso. naive_solver set_solver. }
  induction l as [|y l IH]; intros Hx Hp Hq; [set_solver|]. rewrite !filter_cons.
  apply elem_of_cons in Hx as [<-|Hx].
  - rewrite (decide_False (P := Q x)), (decide_True (P := P x)) by done. cbn.
    specialize (Hle l ltac:(set_solver)). lia.
  - assert (length (filter Q l) < length (filter P l))%nat by (apply IH; set_solver).
    repeat case_decide; cbn; [lia| |lia|lia]. exfalso. naive_solver set_solver.
Qed.

(** One block fewer is missing. *)
Lemma arrives_remaining done c i b t d : tracker_ok n c t → honest t → loading (started t) i b = Some d →
  (remaining (block_arrives done i b t) < remaining t)%nat.
Proof.
  intros Hok Hh Hd. pose proof (arrives_maps done i b t d Hd) as (Hc & _ & _ & Harr).
  assert (arrived (started t) i b = None) as Ha by (apply (ok_moved _ _ _ Hok); eauto).
  apply (filter_shorter _ _ _ (i, b)); unfold missing; cbn [fst snd].
  - intros [p c'] _. cbn [fst snd]. rewrite Hc, Harr. intros [Hp Hm]. split; [set_solver|].
    case_decide; [destruct H0 as [-> ->]; set_solver|]. by case_decide.
  - apply elem_of_all_blocks, (hn_blocks _ Hh i b d). by left.
  - split; [|done]. intros Hi%(hn_settled _ Hh). apply visit_dom in Hd. unfold pieces_ in Hi. set_solver.
  - rewrite Hc, Harr. intros [Hi Hm]. destruct done; [set_solver|].
    rewrite decide_False in Hm by naive_solver. by rewrite decide_True in Hm.
Qed.

(** The answer to a request is written, and the storage keeps up with the tracker. *)
Lemma answer_stored c i b d t m : tracker_ok n c t → honest t → piece_stored t i m →
  loading (started t) i b = Some d →
  ∃ r m', Memory_write i b (sub (data i) b (block_len (size i) b)) m = Ret (r, m') ∧
    piece_stored (block_arrives r i b t) i m'.
Proof.
  intros Hok Hh [Hm Hsep Hkn Hinc] Hd. destruct (hn_blocks _ Hh i b d) as [Hi Hb]; [by left|].
  destruct (block_range i b Hi Hb) as (Hb0 & Hk & Hbk). pose proof (piece_size_range tor i Hwf Hi) as Hsz.
  assert (arrived (started t) i b = None) as Ha by (apply (ok_moved _ _ _ Hok); eauto).
  assert (i ∉ pieces_completed t) as Hni.
  { intros Hc%(hn_settled _ Hh). apply visit_dom in Hd. unfold pieces_ in Hc. set_solver. }
  pose proof Hwf as (_ & Hpl & _). pose proof (Hdata i Hi) as Hz.
  destruct (Memory_write_data (data i) i m b (block_len (size i) b)) as (r & m' & Hw & Hm' & Hins);
    [done|lia..|]. exists r, m'. split; [done|].
  unfold Slices_insert in Hins. rewrite bind_arith in Hins by lia. injection Hins as Hr Hs'.
  assert (∀ x, b ≤ x < b + block_len (size i) b → ¬ covers (slices (mem_slices m)) x) as Hfresh.
  { intros x Hx Hc. apply Hkn in Hc as [_ [?|(b' & [d' Hd'] & Hx')]]; [done|].
    assert (b = b') as <-; [|congruence]. apply (block_of_byte i b b' x); [done| |done..].
    apply (hn_blocks _ Hh i b' d'). by right. }
  destruct (insert_exact (-1) (slices (mem_slices m)) b (b + block_len (size i) b)) as [Hsep' Hcov];
    [done|lia|done|]. rewrite Hs' in Hr.
  assert (∀ x, covers (slices (mem_slices m')) x ↔ covers (slices (mem_slices m)) x ∨
    b ≤ x < b + block_len (size i) b) as Hcov' by by rewrite <-Hs'.
  assert (r = true → ∀ x, 0 ≤ x < size i → covers (slices (mem_slices m')) x) as Hfull.
  { intros Ht x Hx. rewrite Ht in Hr. destruct Hm' as (_ & He & _). apply is_complete_spec in Hr; [|lia].
    rewrite Hr, He, covers_cons, Hdata by done. by left. }
  split; [done|by rewrite <-Hs'| |].
  - intros x. rewrite Hcov', (arrives_known r i b t d i x Hd Ha), Hkn. split.
    + intros [[? ?]|?]; split; try lia; tauto.
    + intros [Hx [?|[_ [->|?]]]]; [tauto| |tauto]. specialize (Hfull eq_refl x Hx).
      rewrite Hcov', Hkn in Hfull. done.
  - intros Hc. rewrite Hr. pose proof (arrives_maps r i b t d Hd) as (Hc' & _).
    destruct r; [|done]. destruct Hc. rewrite Hc'. apply elem_of_union_l, elem_of_singleton_2. done.
Qed.

Lemma other_stored done i b d t j m : loading (started t) i b = Some d →
  arrived (started t) i b = None → j ≠ i →
  piece_stored t j m → piece_stored (block_arrives done i b t) j m.
Proof.
  intros Hd Ha Hj [Hm Hsep Hkn Hinc]. split; [done|done| |].
  - intros x. rewrite (arrives_known done i b t d j x Hd Ha), Hkn. naive_solver.
  - pose proof (arrives_maps done i b t d Hd) as (-> & _). intros Hn. apply Hinc. set_solver.
Qed.

(** Asking changes nothing of what has arrived. *)
Lemma starts_missing c t l c' t' : starts n c t l c' t' →
  (∀ i x, known t' i x ↔ known t i x) ∧ remaining t' = remaining t.
Proof.
  intros Hs. destruct (starts_pieces _ _ _ _ _ _ Hs) as (_ & _ & Hc). split.
  - intros i x. unfold known. rewrite Hc. by setoid_rewrite (starts_arrived _ _ _ _ _ _ i _ Hs).
  - unfold remaining. f_equal. apply list_filter_iff. intros [i b]. unfold missing. cbn [fst snd].
    by rewrite Hc, (starts_arrived _ _ _ _ _ _ i b Hs).
Qed.

Lemma starts_stored c t l c' t' i m : starts n c t l c' t' → piece_stored t i m → piece_stored t' i m.
Proof.
  intros Hs [Hm Hsep Hkn Hinc]. destruct (starts_missing _ _ _ _ _ Hs) as [Hk _].
  destruct (starts_pieces _ _ _ _ _ _ Hs) as (_ & _ & Hc). split; [done|done| |by rewrite Hc].
  intros x. by rewrite Hk.
Qed.

Lemma starts_honest c t l c' t' : starts n c t l c' t' → honest t →
  Forall (λ r, ∃ i X, i ∈ pieces_not_started t ∪ pieces_ (started t) ∧ proper tor i X r) l → honest t'.
Proof.
  intros Hs [Hb Hl Hset] Hp. rewrite Forall_forall in Hp.
  assert (∀ r, r ∈ l → req_index r ∈ pieces_not_started t ∪ pieces_ (started t) ∧ 0 ≤ req_index r < n ∧
    req_begin r ∈ blocks (size (req_index r)) ∧ req_length r = block_len (size (req_index r)) (req_begin r))
    as Hr.
  { intros r Hr. destruct (Hp r Hr) as (i & X & Hi & peer & b & _ & Hbb & Heq).
    destruct (starts_free _ _ _ _ _ _ r Hs Hr) as [_ Hn]. by subst r. }
  destruct (starts_pieces _ _ _ _ _ _ Hs) as (Hpc & Hns & Hc). split.
  - intros i b d [Hd|Hd].
    + apply (starts_loading _ _ _ _ _ _ i b d Hs) in Hd as [Hd|(Hd & <- & <-)]; [eauto|].
      destruct (Hr _ Hd) as (_ & ? & ? & _). done.
    + rewrite (starts_arrived _ _ _ _ _ _ i b Hs) in Hd. eauto.
  - intros i b d Hd. apply (starts_loading _ _ _ _ _ _ i b d Hs) in Hd as [Hd|(Hd & <- & <-)]; [eauto|].
    by destruct (Hr _ Hd) as (_ & _ & _ & ?).
  - intros i. rewrite Hc, Hpc. intros Hi. pose proof (Hset i Hi) as Hni.
    assert (i ∉ map req_index l); [|set_solver].
    intros (r & -> & Hin)%list_elem_of_fmap. by destruct (Hr r Hin).
Qed.
End stored.

(** * The network of a session

    No channel closes, so that nothing the processor sends is lost. *)
Section open.
Context {S : Type} `{TorrentIO S} `{Profile}.
Abbreviation Net := (SimNet S).
Abbreviation World := (World Net).

(** Sending does not touch the state, the storage or the channels. *)
Definition kept (w w' : World) : Prop :=
  inner w' = inner w ∧ sim_storage (net w') = sim_storage (net w) ∧ sim_closed (net w') = sim_closed (net w).

Lemma kept_trans w1 w2 w3 : kept w1 w2 → kept w2 w3 → kept w1 w3.
Proof. intros (? & ? & ?) (? & ? & ?). split_and!; congruence. Qed.

Lemma send_kept tx m (w : World) : kept w (snd (send tx m w)).
Proof. unfold send, on_net. cbn. by case_bool_decide. Qed.

Lemma send_open tx m (w : World) : sim_closed (net w) = [] → fst (send tx m w) = true.
Proof.
  intros Hc. unfold send, on_net. cbn. rewrite Hc, bool_decide_false; [done|apply not_elem_of_nil].
Qed.

Lemma unlock_open m (w : World) : ∃ w', unlock_and_send m w = (Ret Continue, w') ∧ kept w w'.
Proof. unfold unlock_and_send, on_net. cbn. eexists. split; [reflexivity|done]. Qed.

Lemma fold_kept {A} (f : World → A → World) l : (∀ w x, kept w (f w x)) → ∀ w,
  kept w (fold_left f l w).
Proof.
  intros Hf. induction l as [|x l IH]; intros w; cbn [fold_left]; [done|].
  eapply kept_trans; [apply Hf|apply IH].
Qed.

Lemma announce_kept `{HashOrder} txs i (w : World) : kept w (announce_piece txs i w).
Proof. apply fold_kept. intros w1 q. destruct (txs !! q); [apply send_kept|done]. Qed.

Lemma prune_open txs (w : World) : sim_closed (net w) = [] → prune_closed_tx txs w = txs.
Proof.
  intros Hc. unfold prune_closed_tx.
  assert (∀ l : list (InternalPeerId * Z), filter (λ p, tx_is_closed p.2 (net w) = true) l = []) as ->; [|done].
  induction l as [|x l IH]; [done|]. rewrite filter_cons, decide_False; [done|].
  cbn. rewrite Hc, bool_decide_false; [done|apply not_elem_of_nil].
Qed.

(** Every request is sent when every peer has a channel. *)
Lemma dispatch_open txs l : ∀ w : World, sim_closed (net w) = [] →
  (∀ r, r ∈ l → is_Some (txs !! req_peer_id r)) → kept w (fold_left (dispatch txs) l w).
Proof.
  induction l as [|r l IH]; intros w Hc Hl; cbn [fold_left]; [done|].
  assert (kept w (dispatch txs w r)) as Hk.
  { unfold dispatch. destruct (Hl r) as [tx ->]; [by left|].
    pose proof (send_kept tx (Request (req_index r) (req_begin r) (req_length r)) w) as Hk.
    pose proof (send_open tx (Request (req_index r) (req_begin r) (req_length r)) w Hc) as Ho.
    destruct (send tx _ w) as [ok w1]. cbn in Ho. by subst ok. }
  eapply kept_trans; [exact Hk|]. apply IH; [by destruct Hk as (_ & _ & ->)|].
  intros r' Hr'. apply Hl. by right.
Qed.

(** What a peer may say besides answers: anything but requests. *)
Definition announcement (msg : Messages) : Prop :=
  match msg with
  | Request _ _ _ | Piece _ _ _ => False
  | BitField b => zlen b < 2 ^ 32
  | _ => True
  end.

(** It changes what is known of the peer, and nothing of the download. *)
Lemma announcement_open q tx msg (w : World) : sim_closed (net w) = [] → announcement msg →
  ∃ w', handle_msg q tx msg w = (Ret Continue, w') ∧ tracker w' = tracker w ∧
    outstanding_peer_requests (locked w') = outstanding_peer_requests (locked w) ∧
    dom (peers (locked w')) ⊆ {[q]} ∪ dom (peers (locked w)) ∧
    sim_storage (net w') = sim_storage (net w) ∧ sim_closed (net w') = [].
Proof.
  intros Hc Hm.
  assert (∀ s' : TorrentState, piece_block_tracking s' = tracker w →
    outstanding_peer_requests s' = outstanding_peer_requests (locked w) →
    dom (peers s') ⊆ {[q]} ∪ dom (peers (locked w)) → ∀ w1, kept (on_state (λ _, s') w) w1 →
    ∃ w', unlock_and_send Wakeup w1 = (Ret Continue, w') ∧ tracker w' = tracker w ∧
    outstanding_peer_requests (locked w') = outstanding_peer_requests (locked w) ∧
    dom (peers (locked w')) ⊆ {[q]} ∪ dom (peers (locked w)) ∧
    sim_storage (net w') = sim_storage (net w) ∧ sim_closed (net w') = []) as Hend.
  { intros s' Ht Ho Hd w1 Hk. destruct (unlock_open Wakeup w1) as (w' & Hu & Hk').
    exists w'. split; [done|]. destruct (kept_trans _ _ _ Hk Hk') as (Hi & Hst & Hcl).
    unfold tracker, locked. rewrite Hi, Hst, Hcl. split_and!; try done. }
  assert (∀ l, ∃ w', learn_pieces q tx l w = (Ret Continue, w') ∧ tracker w' = tracker w ∧
    outstanding_peer_requests (locked w') = outstanding_peer_requests (locked w) ∧
    dom (peers (locked w')) ⊆ {[q]} ∪ dom (peers (locked w)) ∧
    sim_storage (net w') = sim_storage (net w) ∧ sim_closed (net w') = []) as Hlearn.
  { intros l. unfold learn_pieces.
    destruct (add_pieces_for_peer_spec q l (locked w)) as (X & Hs & HX).
    destruct (add_pieces_for_peer q l (locked w)) as [r s]. cbn [snd] in Hs.
    destruct r as [b|]; [|apply (Hend s); try done; by rewrite Hs; cbn; rewrite ?HX].
    pose proof (send_kept tx (interest_msg b) (on_state (λ _, s) w)) as Hk.
    pose proof (send_open tx (interest_msg b) (on_state (λ _, s) w) Hc) as Ho.
    destruct (send tx _ _) as [ok w1]. cbn in Ho. subst ok. cbn [negb].
    apply (Hend s); try done; by rewrite Hs; cbn; rewrite ?HX. }
  destruct msg as [|f|i|b|i b k|i b blk|i b k]; try done; cbn [handle_msg].
  - exists w. split_and!; try done. set_solver.
  - eapply Hend; [| | |done].
    + destruct f; unfold set_peer_choked_us, set_peers_interested_in_us; cbn; by rewrite add_peer_id_frame.
    + destruct f; unfold set_peer_choked_us, set_peers_interested_in_us; cbn; by rewrite add_peer_id_frame.
    + pose proof (peer_set_add q (locked w)) as Hp. unfold peer_set in Hp.
      destruct f; unfold set_peer_choked_us, set_peers_interested_in_us; cbn [negb peers set_not_choking set_interested]; (etrans; [apply (reflexive_eq _ _ Hp)|done]).
  - apply Hlearn.
  - rewrite bitfield_pieces_spec by done. apply Hlearn.
  - exists w. split_and!; try done. set_solver.
Qed.
End open.

(** * Sessions

    Peers connect under different ids, announce what they like, and answer what
    they were asked, each request once, with the data of the torrent. The main loop
    takes its wake-ups. The timer does not fire within the session: a request that
    expired would be made, and might be answered, twice. *)
Section session.
Context {S : Type} `{TorrentIO S} `{BytesCrateOk, Profile} (tor : V1Torrent) (data : Z → list byte).
Context `{!PieceStore S data}.
Abbreviation Proc := (Proc Z (SimNet S)).
Abbreviation n := (zlen (pieces (info tor))).
Abbreviation size := (piece_size tor).

(** The answer to the request of a download. *)
Definition block_of (d : BlockDownload) : Messages :=
  let r := piece_request d in
  Piece (req_index r) (req_begin r) (sub (data (req_index r)) (req_begin r) (req_length r)).

Inductive session_step : Z * Proc → Z * Proc → Prop :=
  | session_accepts c p h tx p' : peer_to_tx p !! peer_id (peer_ctx h) = None →
      accept_peer h tx p = Ret p' → session_step (c, p) (c, p')
  | session_announces c p h msg p' : h ∈ handlers p → announcement msg →
      peer_message h msg p = Ret p' → session_step (c, p) (c, p')
  | session_answers c p h i b d p' : h ∈ handlers p →
      loading (started (tracker (world p))) i b = Some d → req_peer_id (piece_request d) = h.1 →
      peer_message h (block_of d) p = Ret p' → session_step (c, p) (c, p')
  | session_wakes c c' p msg clock p' (O : HashOrder) : HashOrderOk O →
      (∀ i j, i ≤ j → clock i ≤ clock j) → (∀ i, c ≤ clock i ≤ c') →
      (∀ r, msg ≠ PeerRequested r) →
      wake_event clock msg p = Ret p' → session_step (c, p) (c', p').

(** A peer that has everything and lets us download. *)
Definition seeder (q : InternalPeerId) (s : TorrentState) : Prop :=
  q ∈ peers_not_choking s ∧ ∀ i, 0 ≤ i < n → has (block_peer_map s) q i.

(** The storage gives back the whole piece. *)
Definition downloaded (p : Proc) (i : Z) : Prop :=
  i ∈ get_pieces_completed (tracker (world p)) ∧
  fst (io_read i 0 (size i) (net (world p))) = inr (data i).

Context (Hwf : wf_torrent tor) (Hdata : ∀ i, 0 ≤ i < n → zlen (data i) = size i).

Record session_ok (c : Z) (p : Proc) : Prop := {
  so_inner : proc_ok tor c p;
  so_honest : honest tor (tracker (world p));
  so_stored : ∃ st io, sim_storage (net (world p)) = Some st ∧ shows st io ∧ ∀ i, 0 ≤ i < n →
    ∃ m, pieces_memory io !! Z.to_nat i = Some m ∧ piece_stored tor data (tracker (world p)) i m;
  so_open : sim_closed (net (world p)) = [];
  so_handlers : ∀ q tx, peer_to_tx p !! q = Some tx → (q, tx) ∈ handlers p;
  so_handled : ∀ h, h ∈ handlers p → is_Some (peer_to_tx p !! h.1);
  so_peers : dom (peers (locked (world p))) ⊆ dom (peer_to_tx p);
  so_asked : ∀ i b d, loading (started (tracker (world p))) i b = Some d →
    is_Some (peer_to_tx p !! req_peer_id (piece_request d));
  so_requests : outstanding_peer_requests (locked (world p)) = [];
  so_max : 1 ≤ max_outstanding_requests (tracker (world p));
}.

Lemma session_new max c0 st io : 1 ≤ max < 2 ^ 64 → shows st io → MemoryTorrentIO_new tor = Ret io →
  session_ok c0 (Proc_new tor max (mkSim [] [] [] (Some st))).
Proof.
  intros Hm Hsh Hio. destruct (MemoryTorrentIO_new_ok tor Hwf) as (io' & Hio' & Hfresh).
  assert (io' = io) as -> by congruence.
  set (p0 := Proc_new tor max _).
  assert (∀ i b d, loading (started (tracker (world p0))) i b ≠ Some d ∧
    arrived (started (tracker (world p0))) i b ≠ Some d) as Hnone.
  { intros i b d. split; unfold loading, arrived; cbn; by rewrite visit_empty. }
  split; [apply proc_new_ok; [done|lia]| | |done|..].
  - split.
    + intros i b d [Hd|Hd]; by apply Hnone in Hd.
    + intros i b d Hd. by apply Hnone in Hd.
    + cbn. set_solver.
  - exists st, io. split; [done|]. split; [done|]. intros i Hi. eexists. split; [by apply Hfresh|].
    split; [by apply fresh_holds, Hdata|done| |].
    + intros x. split; [by intros Hc%covers_nil|]. intros [_ [Hi'|(b & [d Hd] & _)]].
      * cbn in Hi'. set_solver.
      * by apply Hnone in Hd.
    + intros _. cbn. pose proof (piece_size_range tor i Hwf Hi). done.
  - intros q tx Hq. cbn in Hq. by rewrite lookup_empty in Hq.
  - intros h Hh. cbn in Hh. set_solver.
  - cbn. set_solver.
  - intros i b d Hd. by apply Hnone in Hd.
  - done.
  - cbn. lia.
Qed.

(** Only the memory of one piece changes. *)
Lemma session_stored_update t t' io i m' : (∃ m, pieces_memory io !! Z.to_nat i = Some m) → 0 ≤ i →
  piece_stored tor data t' i m' →
  (∀ j m, j ≠ i → piece_stored tor data t j m → piece_stored tor data t' j m) →
  (∀ j, 0 ≤ j < n → ∃ m, pieces_memory io !! Z.to_nat j = Some m ∧ piece_stored tor data t j m) →
  ∀ j, 0 ≤ j < n → ∃ m, <[Z.to_nat i := m']> (pieces_memory io) !! Z.to_nat j = Some m ∧
    piece_stored tor data t' j m.
Proof.
  intros [m Hm] Hi Hm' Hother Hall j Hj. destruct (decide (j = i)) as [->|Hne].
  - exists m'. split; [|done]. apply list_lookup_insert_eq. by eapply lookup_lt_Some.
  - destruct (Hall j Hj) as (mj & Hmj & Hs). exists mj. split; [|by apply Hother].
    rewrite list_lookup_insert_ne by lia. done.
Qed.

(** The storage takes the block of an answer as memory would. *)
Lemma answer_shown c i b d t st io m r m' : tracker_ok n c t → honest tor t →
  loading (started t) i b = Some d → shows st io →
  pieces_memory io !! Z.to_nat i = Some m → piece_stored tor data t i m →
  Memory_write i b (sub (data i) b (block_len (size i) b)) m = Ret (r, m') →
  piece_stored tor data (block_arrives r i b t) i m' →
  ∃ st', write_piece i b (sub (data i) b (block_len (size i) b)) st = (Ret r, st') ∧
    shows st' (mkMemoryIO (<[Z.to_nat i := m']> (pieces_memory io))).
Proof.
  intros Htr Hhon Hd Hsh Hm Hms Hw Hms'. destruct (hn_blocks _ _ Hhon i b d) as [Hi Hb]; [by left|].
  destruct (block_range tor i b Hi Hb) as (Hb0 & Hk & Hbk).
  pose proof (piece_size_range tor i Hwf Hi) as Hsz. pose proof Hwf as (_ & Hpl & _).
  apply (shows_write st io i b _ m r m'); try done; [lia|unfold is_u32; lia| | |].
  - rewrite zlen_sub; rewrite ?Hdata by done; lia.
  - apply (ps_incomplete _ _ _ _ _ Hms). intros Hc%(hn_settled _ _ Hhon). apply visit_dom in Hd.
    unfold pieces_ in Hc. set_solver.
  - intros ->. apply complete_holds; [rewrite Hdata by done; lia|apply (ps_data _ _ _ _ _ Hms')|].
    by rewrite <-(Memory_write_finished _ _ _ _ _ _ Hw).
Qed.

(** An answer is written and makes one block fewer missing. *)
Lemma session_answer c p h i b d : session_ok c p → h ∈ handlers p →
  loading (started (tracker (world p))) i b = Some d →
  ∃ p' done, peer_message h (block_of d) p = Ret p' ∧ session_ok c p' ∧
    tracker (world p') = block_arrives done i b (tracker (world p)) ∧
    torrent_state (inner (world p')) = set_tracking (tracker (world p')) (locked (world p)).
Proof.
  intros [Hin Hhon (st & io & Hst & Hsh & Hall) Hop Hh1 Hh2 Hp Has Hreq Hmax] Hh Hd.
  pose proof (ok_tracker _ _ _ Hin) as Htr.
  destruct (ok_keys _ _ _ Htr i b d) as [Hri Hrb]; [by left|].
  pose proof (hn_len _ _ Hhon i b d Hd) as Hrl. destruct (hn_blocks _ _ Hhon i b d) as [Hi Hb]; [by left|].
  assert (arrived (started (tracker (world p))) i b = None) as Ha by (apply (ok_moved _ _ _ Htr); eauto).
  destruct (Hall i Hi) as (m & Hm & Hms).
  destruct (answer_stored tor Hwf data Hdata c i b d _ m Htr Hhon Hms Hd) as (r & m' & Hw & Hms').
  set (io' := mkMemoryIO (<[Z.to_nat i := m']> (pieces_memory io))).
  destruct (answer_shown c i b d _ st io m r m' Htr Hhon Hd Hsh Hm Hms Hw Hms') as (st' & Hwst & Hsh').
  assert (∃ w', handle_msg h.1 h.2 (block_of d) (world p) = (Ret Continue, w') ∧
    inner w' = mkInner (torrent (inner (world p)))
      (set_tracking (block_arrives r i b (tracker (world p))) (locked (world p))) ∧
    sim_storage (net w') = Some st' ∧ sim_closed (net w') = []) as (w' & Hrun & Hw' & Hst' & Hcl').
  { unfold block_of. rewrite Hri, Hrb, Hrl. cbn [handle_msg]. unfold on_net. cbn [io_write sim_env].
    rewrite Hst, IoHandler_write_spec, Hwst.
    destruct r; (eexists; split; [reflexivity|]); split_and!; try done; cbn; by rewrite Hop. }
  exists (mkProc w' (peer_to_tx p) (handlers p) (finished p)), r.
  assert (tracker w' = block_arrives r i b (tracker (world p))) as Ht'.
  { unfold tracker at 1, locked at 1. by rewrite Hw'. }
  unfold peer_message. rewrite Hrun. split_and!; [done| |done|cbn; by rewrite Ht', Hw'].
  assert (proc_ok tor c (mkProc w' (peer_to_tx p) (handlers p) (finished p))) as Hok'.
  { pose proof (handle_msg_ok tor c h.1 h.2 (block_of d) (world p) Hin) as Hh'.
    rewrite Hrun in Hh'. by apply Hh'. }
  split; cbn [world peer_to_tx handlers]; try done.
  - rewrite Ht'. by eapply arrives_honest.
  - exists st', io'. split; [done|]. split; [done|]. rewrite Ht'.
    apply (session_stored_update (tracker (world p)) _ io i m'); [by exists m|lia|done| |done].
    intros j mj Hj Hmj. by eapply other_stored.
  - unfold locked. rewrite Hw'. done.
  - intros j b' d'. rewrite Ht'. pose proof (arrives_maps r i b _ d Hd) as (_ & _ & Hl & _).
    rewrite Hl. destruct (decide _); [done|]. apply Has.
  - unfold locked. by rewrite Hw'.
  - rewrite Ht'. unfold block_arrives, set_request_finished.
    destruct r; [done|]. by destruct (Map_set_request_finished _ _ _).
Qed.

Lemma init_kept tx (w : World (SimNet S)) : kept w (snd (init_connection tx w)).
Proof.
  unfold init_connection. destruct (put_bit_set _ _ _) as [b| |]; [|done..].
  pose proof (send_kept tx (BitField (BitFieldWriter_into b)) w) as Hk1.
  destruct (send tx _ w) as [[] w1]; cbn [snd negb] in *; [|done].
  pose proof (send_kept tx (Flag Choke) w1) as Hk2.
  destruct (send tx _ w1) as [[] w2]; cbn [snd negb] in *; [|by eapply kept_trans].
  pose proof (send_kept tx (Flag NotInterested) w2) as Hk3.
  destruct (send tx _ w2) as [[] w3]; cbn [snd negb] in *;
    (eapply kept_trans; [exact Hk1|]; by eapply kept_trans).
Qed.

(** The state of the processor moves on, its peers and channels stay. *)
Lemma session_moves c (p : Proc) w' : session_ok c p → kept (world p) w' →
  session_ok c (mkProc w' (peer_to_tx p) (handlers p) (finished p)).
Proof.
  intros [Hin Hhon Hst Hop Hh1 Hh2 Hp Has Hreq Hmax] (Hi & Hs & Hc).
  split; unfold proc_ok, tracker, locked; cbn [world peer_to_tx handlers]; rewrite ?Hi, ?Hs, ?Hc; done.
Qed.

Lemma session_accept c p h tx p' : session_ok c p → peer_to_tx p !! peer_id (peer_ctx h) = None →
  accept_peer h tx p = Ret p' → session_ok c p'.
Proof.
  intros Hok Hn Hr. unfold accept_peer in Hr. pose proof (init_kept tx (world p)) as Hk.
  destruct (init_connection tx (world p)) as [[u| |] w']; cbn [snd] in Hk; [|by injection Hr as <-; apply session_moves|done].
  injection Hr as <-. apply (session_moves c p w') in Hok as [Hin Hhon Hst Hop Hh1 Hh2 Hp Has Hreq Hmax]; [|done].
  cbn [world peer_to_tx handlers] in *. split; cbn [world peer_to_tx handlers]; try done.
  - intros q x Hq. apply lookup_insert_Some in Hq as [[<- <-]|[_ Hq]]; [by left|]. right. by apply Hh1.
  - intros x Hx. apply lookup_insert_is_Some'. apply elem_of_cons in Hx as [->|Hx]; [by left|right; by apply Hh2].
  - rewrite dom_insert. set_solver.
  - intros i b d Hd. apply lookup_insert_is_Some'. right. by eapply Has.
Qed.

Lemma session_announcement c p h msg p' : session_ok c p → h ∈ handlers p → announcement msg →
  peer_message h msg p = Ret p' → session_ok c p'.
Proof.
  intros Hok Hh Hm Hr. pose proof (so_inner _ _ Hok) as Hin.
  destruct (announcement_open h.1 h.2 msg (world p)) as (w' & Hrun & Ht & Ho & Hd & Hs & Hc);
    [apply (so_open _ _ Hok)|done|].
  pose proof (handle_msg_ok tor c h.1 h.2 msg (world p) Hin) as Hh'.
  unfold peer_message in Hr. rewrite Hrun in Hr, Hh'. injection Hr as <-.
  assert (msg_ok msg) as Hmok by by destruct msg. destruct (Hh' Hmok) as [_ Hin'].
  destruct Hok as [_ Hhon Hst Hop Hh1 Hh2 Hp Has Hreq Hmax].
  split; cbn [world peer_to_tx handlers]; rewrite ?Ht, ?Hs, ?Ho; try done.
  etrans; [exact Hd|]. apply union_subseteq. split; [|done].
  apply singleton_subseteq_l, elem_of_dom. by apply Hh2.
Qed.

(** A wake-up asks for what can be asked for. *)
Lemma session_wake `{HashOrderOk} c c' p msg clock : session_ok c p →
  (∀ i j, i ≤ j → clock i ≤ clock j) → (∀ i, c ≤ clock i ≤ c') → (∀ r, msg ≠ PeerRequested r) →
  ∃ p' t' reqs c2, wake_event clock msg p = Ret p' ∧ session_ok c' p' ∧
    torrent_state (inner (world p')) = set_requests [] (set_tracking t' (locked (world p))) ∧
    starts n c (tracker (world p)) reqs c2 t' ∧ peer_to_tx p' = peer_to_tx p ∧ handlers p' = handlers p ∧
    ∀ i X, piece_id_to_peers (locked (world p)) !! i = Some X → X ≠ ∅ → saturated tor i t'.
Proof.
  intros Hok Hm Hc Hmsg. pose proof (so_inner _ _ Hok) as Hin.
  destruct (wake_event_ok tor Hwf c c' clock msg p Hin Hm Hc) as (p' & Hrun & Hin').
  unfold wake_event, wake_up in Hrun. rewrite prune_open in Hrun by apply (so_open _ _ Hok).
  set (w1 := match msg with
             | Wakeup => world p
             | PieceComplete i => announce_piece (peer_to_tx p) i (world p)
             | PeerRequested r => queue_requests r (world p)
             end) in Hrun.
  assert (kept (world p) w1) as Hk1.
  { destruct msg as [|i|r]; [done|apply announce_kept|by destruct (Hmsg r)]. }
  destruct Hk1 as (Hi1 & Hs1 & Hcl1). pose proof Hin as [Htor Htr Hst].
  destruct (generate_starts (E := AnyError) tor Hwf clock (piece_id_to_peers (locked (world p))) c
    (tracker (world p))) as (reqs & c2 & t' & Hgen & Hs & Hp & Hsat & _); [done|by eapply clock_ok_available|].
  unfold compute_requests_for_download, locked in Hrun. rewrite Hi1, Htor in Hrun.
  unfold tracker, locked in Hgen. rewrite Hgen in Hrun.
  assert (∀ r, r ∈ reqs → is_Some (peer_to_tx p !! req_peer_id r)) as Hto.
  { intros r Hr. rewrite Forall_forall in Hp. destruct (Hp r Hr) as (i & X & HX & peer & b & HpX & _ & ->).
    rewrite piece_id_to_peers_lookup in HX. case_decide; [|done]. injection HX as <-.
    cbn. apply elem_of_dom, (so_peers _ _ Hok). unfold peers_that_choke, peer_set in HpX. set_solver. }
  assert (Forall (λ r, ∃ i X, i ∈ pieces_not_started (tracker (world p)) ∪ pieces_ (started (tracker (world p)))
    ∧ proper tor i X r) reqs) as Hp'.
  { eapply Forall_impl; [exact Hp|]. intros r (i & X & HX & Hpr). exists i, X. split; [|done].
    apply elem_of_dom_2 in HX. by rewrite dom_piece_id_to_peers in HX. }
  set (w2 := on_tracker (λ _, t') w1) in Hrun.
  assert (sim_closed (net w2) = []) as Hc2 by (cbn; rewrite Hcl1; apply (so_open _ _ Hok)).
  pose proof (dispatch_open (peer_to_tx p) reqs w2 Hc2 Hto) as (Hi3 & Hs3 & Hcl3).
  set (w3 := fold_left (dispatch (peer_to_tx p)) reqs w2) in *.
  assert (torrent_state (inner w3) = set_tracking t' (locked (world p))) as Hts.
  { rewrite Hi3. unfold w2, on_tracker, on_state. cbn. by rewrite Hi1. }
  unfold dequeue_requests in Hrun. unfold locked in Hrun. rewrite Hts in Hrun.
  cbn [set_tracking outstanding_peer_requests] in Hrun. rewrite (so_requests _ _ Hok) in Hrun.
  cbn [take_requests answer_requests] in Hrun. injection Hrun as <-.
  assert (tracker (on_state (set_requests []) w3) = t') as Ht3.
  { unfold tracker, locked. cbn. by rewrite Hts. }
  exists (mkProc (on_state (set_requests []) w3) (peer_to_tx p) (handlers p) (finished p)), t', reqs, c2.
  split; [|split; [|split; [cbn; by rewrite Hts|by split_and!]]].
  { unfold wake_event, wake_up. rewrite prune_open by apply (so_open _ _ Hok). fold w1.
    unfold compute_requests_for_download, locked. rewrite Hi1, Htor, Hgen. fold w2 w3.
    unfold dequeue_requests, locked. rewrite Hts. cbn [set_tracking outstanding_peer_requests].
    by rewrite (so_requests _ _ Hok). }
  destruct Hok as [_ Hhon (st & io & Hio & Hsh & Hall) Hop Hh1 Hh2 Hpe Has Hreq Hmax].
  split; cbn [world peer_to_tx handlers]; try done.
  - rewrite Ht3. by eapply starts_honest.
  - exists st, io. cbn. rewrite Hs3. cbn. rewrite Hs1. split; [done|]. split; [done|]. intros i Hi.
    destruct (Hall i Hi) as (m & Hm' & Hms). exists m. split; [done|].
    change (piece_stored tor data (tracker (on_state (set_requests []) w3)) i m). rewrite Ht3.
    by eapply starts_stored.
  - cbn. by rewrite Hcl3.
  - unfold locked. cbn. by rewrite Hts.
  - intros i b d. rewrite Ht3. intros Hd.
    apply (starts_loading _ _ _ _ _ _ i b d Hs) in Hd as [Hd|(Hd & _)]; [by eapply Has|by apply Hto].
  - rewrite Ht3. by rewrite (starts_max _ _ _ _ _ _ Hs).
Qed.

(** ** The end of a download *)

(** The tracker knows a piece whose blocks have all arrived, and so the storage
    has it. *)
Lemma known_downloaded c p i : session_ok c p → 0 ≤ i < n →
  (∀ x, 0 ≤ x < size i → known tor (tracker (world p)) i x) → downloaded p i.
Proof.
  intros Hok Hi Hk. destruct (so_stored _ _ Hok) as (st & io & Hio & Hsh & Hall).
  destruct (Hall i Hi) as (m & Hm & [Hd Hsep Hkn Hinc]).
  pose proof (piece_size_range tor i Hwf Hi) as Hsz. pose proof Hwf as (_ & Hpl & _).
  pose proof Hd as (Hl & He & _). rewrite Hdata in Hl, He by done.
  assert (is_complete (mem_slices m) = true) as Hc.
  { apply is_complete_spec; [lia|]. rewrite He. apply separated_full; [done|lia|].
    intros x. rewrite Hkn. split; [by intros []|]. intros Hx. split; [done|by apply Hk]. }
  split.
  - destruct (decide (i ∈ pieces_completed (tracker (world p)))) as [?|Hn]; [done|].
    apply Hinc in Hn. congruence.
  - pose proof (complete_holds (data i) m) as Hmem. rewrite Hdata in Hmem by done.
    rewrite <-Hmem by (done || lia). cbn [io_read sim_env]. rewrite Hio, IoHandler_read_spec, <-Hl.
    destruct (shows_read st io i m Hsh) as (st' & ->); [lia|lia|done..].
Qed.

Lemma none_missing c p : session_ok c p → remaining tor (tracker (world p)) = 0%nat →
  ∀ i, 0 ≤ i < n → downloaded p i.
Proof.
  intros Hok Hr i Hi. apply (known_downloaded c); [done..|]. intros x Hx.
  destruct (block_slices_tile tor Hwf i Hi) as (_ & _ & Ht).
  destruct (Ht x Hx) as (q & (b & -> & Hb)%list_elem_of_fmap & Hxb). cbn in Hxb.
  apply nil_length_inv in Hr. assert (¬ missing (tracker (world p)) (i, b)) as Hn.
  { intros Hm. apply (not_elem_of_nil (i, b)). rewrite <-Hr. apply list_elem_of_filter.
    split; [done|]. by apply elem_of_all_blocks. }
  unfold missing in Hn. cbn in Hn. destruct (decide (i ∈ pieces_completed (tracker (world p)))) as [?|Hc];
    [by left|]. right. exists b. split; [|done].
  destruct (arrived _ i b); [done|]. by destruct Hn.
Qed.

(** While a block is missing and a seeder is there, a wake-up leaves a request
    under way. *)
Lemma session_progress `{HashOrderOk} c p q t' reqs c2 : session_ok c p → seeder q (locked (world p)) →
  remaining tor (tracker (world p)) ≠ 0%nat → starts n c (tracker (world p)) reqs c2 t' →
  (∀ i X, piece_id_to_peers (locked (world p)) !! i = Some X → X ≠ ∅ →
    saturated tor i t') →
  ∃ i b d, loading (started t') i b = Some d.
Proof.
  intros Hok [Hq Hhas] Hr Hs Hsat. unfold remaining in Hr.
  destruct (filter (missing (tracker (world p))) (all_blocks tor)) as [|[i b] l] eqn:Hf; [done|].
  assert ((i, b) ∈ filter (missing (tracker (world p))) (all_blocks tor)) as Hin by (rewrite Hf; by left).
  apply list_elem_of_filter in Hin as [[Hc Ha] [Hi Hb]%elem_of_all_blocks]. cbn [fst snd] in *.
  pose proof (so_inner _ _ Hok) as [_ Htr Hst].
  destruct (Hsat i (peers_that_choke false (locked (world p)) ∩
    get_peers_with_piece (block_peer_map (locked (world p))) i))
    as [Hfull|Hall].
  - rewrite piece_id_to_peers_lookup, decide_True; [done|].
    pose proof (ok_covered _ _ _ Htr i Hi). unfold tracker, locked in *. set_solver.
  - apply (non_empty_inhabited_L q). apply elem_of_intersection. split; [|by apply Hhas].
    unfold peers_that_choke. pose proof (ok_not_choking _ Hst). unfold locked in *. set_solver.
  - destruct (total_size_pos (downloading (started t'))) as (j & r & b' & d & Hj & Hd).
    + change (0 < downloading_requests_len t'). rewrite Hfull, (starts_max _ _ _ _ _ _ Hs).
      pose proof (so_max _ _ Hok). lia.
    + exists j, b', d. unfold loading, visit. by rewrite Hj.
  - specialize (Hall b Hb). rewrite free_spec, (starts_arrived _ _ _ _ _ _ i b Hs) in Hall.
    destruct (loading (started t') i b) as [d|] eqn:Hd; [eauto|]. by destruct Hall.
Qed.

Lemma session_finishes k : ∀ c p q, (remaining tor (tracker (world p)) ≤ k)%nat → session_ok c p →
  seeder q (locked (world p)) →
  ∃ p', rtc session_step (c, p) (c, p') ∧ session_ok c p' ∧ remaining tor (tracker (world p')) = 0%nat.
Proof.
  induction k as [|k IH]; intros c p q Hk Hok Hq; [exists p; split_and!; [done|done|lia]|].
  destruct (decide (remaining tor (tracker (world p)) = 0%nat)) as [?|Hr]; [by exists p|].
  destruct (session_wake (H3 := ElementsOrder.elements_order_ok) c c p Wakeup (λ _, c) Hok)
    as (p1 & t' & reqs & c2 & Hrun & Hok1 & Hst1 & Hs & Htx & Hhs & Hsat); [lia|lia|done|].
  destruct (session_progress (H3 := ElementsOrder.elements_order_ok) c p q t' reqs c2 Hok Hq Hr Hs Hsat)
    as (i & b & d & Hd).
  assert (tracker (world p1) = t') as Ht1 by (unfold tracker, locked; by rewrite Hst1).
  rewrite <-Ht1 in Hd. destruct (so_asked _ _ Hok1 i b d Hd) as [tx Htx1].
  pose proof (so_handlers _ _ Hok1 _ _ Htx1) as Hh.
  destruct (session_answer c p1 _ i b d Hok1 Hh Hd) as (p2 & fin & Hrun2 & Hok2 & Ht2 & Hst2).
  destruct (IH c p2 q) as (p' & Hsteps & Hok' & Hr').
  - pose proof (arrives_remaining tor Hwf data Hdata fin c i b (tracker (world p1)) d
      (ok_tracker _ _ _ (so_inner _ _ Hok1)) (so_honest _ _ Hok1) Hd) as Hlt.
    rewrite <-Ht2 in Hlt. destruct (starts_missing tor _ _ _ _ _ Hs) as [_ Hsame].
    rewrite Ht1 in Hlt. lia.
  - done.
  - unfold seeder, locked. rewrite Hst2. unfold locked. by rewrite Hst1.
  - exists p'. split; [|done]. eapply rtc_l; [|eapply rtc_l; [|exact Hsteps]].
    + by apply (session_wakes c c p Wakeup (λ _, c) p1 _ ElementsOrder.elements_order_ok); [lia|lia|..].
    + by apply (session_answers c p1 (req_peer_id (piece_request d), tx) i b d).
Qed.

Lemma session_run max c0 st io y : 1 ≤ max < 2 ^ 64 → shows st io → MemoryTorrentIO_new tor = Ret io →
  rtc session_step (c0, Proc_new tor max (mkSim [] [] [] (Some st))) y → session_ok y.1 y.2.
Proof.
  intros Hm Hsh Hio. revert y. refine (rtc_ind_r _ _ _ _); [by eapply session_new|].
  intros y z _ Hs Hok. destruct Hs as [c p h tx p' Hn Hr|c p h msg p' Hh Ha Hr|c p h i b d p' Hh Hd Hq Hr
    |c c' p msg clock p' O HO Hmono Hc Hmsg Hr]; cbn [fst snd] in *.
  - by eapply session_accept.
  - by eapply session_announcement.
  - destruct (session_answer c p h i b d Hok Hh Hd) as (p2 & fin & Hr2 & Hok2 & _). congruence.
  - destruct (session_wake c c' p msg clock Hok Hmono Hc Hmsg) as (p2 & _ & _ & _ & Hr2 & Hok2 & _).
    congruence.
Qed.

(** A download over any storage that does as the one in memory. *)
Lemma session_completes max c0 st io c p : 1 ≤ max < 2 ^ 64 → shows st io → MemoryTorrentIO_new tor = Ret io →
  rtc session_step (c0, Proc_new tor max (mkSim [] [] [] (Some st))) (c, p) →
  (∀ i, 0 ≤ i < n → i ∈ get_pieces_completed (tracker (world p)) → downloaded p i) ∧
  (∀ q, seeder q (locked (world p)) → ∃ p', rtc session_step (c, p) (c, p') ∧
    ∀ i, 0 ≤ i < n → downloaded p' i).
Proof.
  intros Hmax Hsh Hio Hrun.
  pose proof (session_run max c0 st io (c, p) Hmax Hsh Hio Hrun) as Hok. cbn in Hok. split.
  - intros i Hi Hc. apply (known_downloaded c); [done..|]. intros x _. by left.
  - intros q Hq. destruct (session_finishes (remaining tor (tracker (world p))) c p q)
      as (p' & Hs & Hok' & Hr); [lia|done|done|]. exists p'. split; [done|]. by apply (none_missing c).
Qed.
End session.

(** * Properties *)

(** C1. A download is right and can always be finished. In a session of
    honest peers over a fresh storage in memory, whatever order connections, announcements,
    answers and wake-ups come in: a piece that the processor counts as completed is read back
    from the storage as it is in the torrent; and as long as one peer has said that it has all
    pieces and lets us download, wake-ups and the answers to the requests they make bring the
    session to a state in which every piece is completed and read back right. *)
Theorem download_completes `{BytesCrateOk, Profile} tor data max c0 io c p :
  wf_torrent tor → (∀ i, 0 ≤ i < zlen (pieces (info tor)) → zlen (data i) = piece_size tor i) →
  1 ≤ max < 2 ^ 64 → MemoryTorrentIO_new tor = Ret io →
  rtc (session_step data) (c0, Proc_new tor max (mkSim [] [] [] (Some io))) (c, p) →
  (∀ i, 0 ≤ i < zlen (pieces (info tor)) → i ∈ get_pieces_completed (tracker (world p)) →
    downloaded tor data p i) ∧
  (∀ q, seeder tor q (locked (world p)) → ∃ p', rtc (session_step data) (c, p) (c, p') ∧
    ∀ i, 0 ≤ i < zlen (pieces (info tor)) → downloaded tor data p' i).
Proof.
  intros Hwf Hdata Hmax Hio. by apply (session_completes tor data Hwf Hdata max c0 io io).
Qed.

Module DownloadExamples.
Import ListBytes DevProfile ElementsOrder SwarmExamples.

(** The torrent of [SwarmExamples]: ten bytes and five, which [ann] offers. *)
Definition bytes (i : Z) : list byte := if i =? 0 then bs "0123456789" else bs "world".

Definition fresh_store : MemoryTorrentIO :=
  mkMemoryIO [Memory_from (replicate 10 x00); Memory_from (replicate 5 x00)].

Lemma run_session : rtc (session_step bytes)
  (0, Proc_new short_last 4 (mkSim [] [] [] (Some fresh_store))) (0, informed).
Proof.
  apply (rtc_l _ _ (0, connected)).
  { apply (session_accepts bytes 0 _ hello 7); [reflexivity|vm_compute; reflexivity]. }
  apply (rtc_l _ _ (0, unchoked)).
  { apply (session_announces bytes 0 connected (ann, 7) (Flag Unchoke)); [by left|exact I|vm_compute; reflexivity]. }
  apply rtc_once.
  apply (session_announces bytes 0 unchoked (ann, 7) (BitField [xc0])); [by left|reflexivity|vm_compute; reflexivity].
Qed.

Lemma ann_seeds : seeder short_last ann (locked (world informed)).
Proof.
  split; [apply (bool_decide_unpack _); vm_compute; exact I|].
  intros i Hi. assert (i = 0 ∨ i = 1) as [-> | ->] by (change (zlen (pieces (info short_last))) with 2 in Hi; lia);
    unfold has; apply (bool_decide_unpack _); vm_compute; exact I.
Qed.

Lemma download_completes_witness : ∃ p', rtc (session_step bytes) (0, informed) (0, p') ∧
  fst (io_read 0 0 10 (net (world p'))) = inr (bs "0123456789") ∧
  fst (io_read 1 0 5 (net (world p'))) = inr (bs "world").
Proof.
  destruct (download_completes short_last bytes 4 0 fresh_store 0 informed) as [_ Hdone].
  - exact short_last_wf.
  - intros i Hi. assert (i = 0 ∨ i = 1) as [-> | ->]
      by (change (zlen (pieces (info short_last))) with 2 in Hi; lia); reflexivity.
  - split; [discriminate|reflexivity].
  - vm_compute. reflexivity.
  - exact run_session.
  - destruct (Hdone ann ann_seeds) as (p' & Hs & Hd). exists p'. split; [exact Hs|].
    split; [apply (Hd 0)|apply (Hd 1)]; (split; [discriminate|reflexivity]).
Defined.
End DownloadExamples.
