(* ===== verification/FileDownload.v ===== *)
(** A whole download into the storage in a file ([src/src/peer/io/file.rs]), on a disk that
    does not fail: the file storage does as the one in memory, as long as the pieces
    that are completed have the digests of the torrent. *)
From S2P Require Import Prelude ByteStr BytesCrate Model Protocol Errors Bitfield Collections.
From S2P Require Import Allocation Slices Io FileIo Storage Piece State Processor Traffic Swarm Download.
From Stdlib Require Import ZArith Lia.

(** A disk without errors: seeking and writing succeed, and reading inside the
    file. *)
Class FileWorks (F : Type) `{FileOk F} : Prop := {
  seek_works p f : ∃ f', seek p f = (Ret tt, f');
  write_all_works b f : ∃ f', write_all b f = (Ret tt, f');
  read_exact_works n f : 0 ≤ n → 0 ≤ cursor f → cursor f + n ≤ zlen (contents f) →
    ∃ buf f', read_exact n f = (Ret buf, f');
}.

Lemma act_bind_run {S E A B} (m : action S E A) (f : A → action S E B) s a s1 :
  m s = (Ret a, s1) → act_bind m f s = f a s1.
Proof. unfold act_bind. by intros ->. Qed.

Lemma pure_run {S E A} (m : outcome E A) (s : S) a : m = Ret a → pure m s = (Ret a, s).
Proof. unfold pure. by intros ->. Qed.

Section file_works.
Context {F : Type} `{FileWorks F} `{Profile}.
Context (sha1 hex_encode : list byte → list byte).
Implicit Types (s : FileTorrentIO F) (p : FilePieceState).

Lemma on_file_run {A} (m : action F AnyError A) s a f :
  m (file s) = (Ret a, f) → on_file m s = (Ret a, mkFileIO f (piece_to_file s) (allocation s)).
Proof. intros Hm. apply zoom_inv. by exists f. Qed.

Lemma seek_offset_works p off f : 0 ≤ start_idx p + off < 2 ^ 64 →
  ∃ f', seek_offset p off f = (Ret tt, f').
Proof.
  intros Hr. destruct (seek_works (start_idx p + off) f) as (f' & Hs). exists f'. unfold seek_offset.
  erewrite act_bind_run; [|by apply pure_run, arith_ok]. by apply io_inv.
Qed.

Lemma write_all_runs b f : ∃ f', io (write_all b) f = (Ret tt, f').
Proof. destruct (write_all_works b f) as (f' & Hf). exists f'. by apply io_inv. Qed.

Lemma compute_hash_works p f : 0 ≤ start_idx p → 0 ≤ size p < 2 ^ 32 →
  start_idx p + size p ≤ zlen (contents f) →
  ∃ f', compute_file_sha1_hash sha1 p f = (Ret (sha1 (sub (contents f) (start_idx p) (size p))), f').
Proof.
  intros Hst Hsz Hfit. destruct (seek_works (start_idx p) f) as (f1 & Hs).
  pose proof (seek_spec _ _ _ Hs) as [Hc Hp].
  destruct (read_exact_works (size p) f1) as (buf & f2 & Hr); [lia|lia|rewrite Hc; lia|].
  pose proof (read_exact_spec _ _ _ _ Hr) as (_ & _ & Hbuf). rewrite Hc, Hp in Hbuf.
  exists f2. unfold compute_file_sha1_hash. erewrite act_bind_run by (by apply io_inv).
  erewrite act_bind_run; [|apply pure_run; unfold vec_zeroed; by rewrite (proj2 (Z.leb_le _ _)) by lia].
  erewrite act_bind_run by (by apply io_inv). by subst.
Qed.

(** A write that the digest does not refuse succeeds. *)
Lemma file_write_works s i b block p r sl : file_ok s → 0 ≤ i → is_u32 b →
  piece_to_file s !! Z.to_nat i = Some p → is_complete (fp_slices p) = false →
  piece_len (E := AnyError) (allocation s) i = Ret (size p) → b + zlen block ≤ size p →
  Slices_insert (E := AnyError) (fp_slices p) b (zlen block) = Ret (r, sl) →
  (r = true → sha1 (sub (overwrite (contents (file s)) (start_idx p + b) block) (start_idx p) (size p)) =
    fp_hash p) →
  ∃ s', File_write_piece sha1 hex_encode i b block s = (Ret r, s').
Proof.
  intros [Hok _] Hi Hb Hp Hc Hpl Hfit Hins Hhash.
  pose proof (Forall_lookup_1 _ _ _ _ Hok Hp) as (Hs0 & Hsz & Hin). unfold is_u32 in Hb.
  destruct (seek_offset_works p b (file s)) as (f1 & Hs1); [zlia|].
  pose proof (seek_offset_inv _ _ _ _ Hs1 ltac:(zlia)) as [Hc1 Hp1].
  destruct (write_all_runs block f1) as (f2 & Hw).
  pose proof (proj1 (io_inv _ _ _ _) Hw) as Hw'. apply write_all_spec in Hw'; [|zlia|rewrite Hc1, Hp1; zlia].
  rewrite Hc1, Hp1 in Hw'.
  unfold File_write_piece. erewrite act_bind_run by done. rewrite Hp, Hc.
  erewrite act_bind_run; [|apply pure_run, arith_ok; zlia]. erewrite act_bind_run by (by apply pure_run).
  rewrite Z.gtb_ltb, (proj2 (Z.ltb_ge _ _)) by lia.
  erewrite act_bind_run by (by apply on_file_run). erewrite act_bind_run by (by apply on_file_run).
  erewrite act_bind_run; [|apply pure_run; rewrite wrap_small by zlia; exact Hins].
  erewrite act_bind_run by done. cbn [fst snd]. destruct r; [|by eexists].
  destruct (compute_hash_works (mkFilePiece (fp_hash p) sl (start_idx p) (size p)) f2) as (f3 & Hh);
    cbn [start_idx size]; [lia|lia|rewrite Hw', zlen_overwrite; zlia|]. cbn [start_idx size] in Hh.
  erewrite act_bind_run by (by apply on_file_run). rewrite Hw', Hhash by done.
  rewrite decide_True by done. by eexists.
Qed.

(** Reading a complete piece succeeds. *)
Lemma file_read_works s i len p : file_ok s → 0 ≤ i → 0 ≤ len ≤ size p →
  piece_to_file s !! Z.to_nat i = Some p → is_complete (fp_slices p) = true →
  piece_len (E := AnyError) (allocation s) i = Ret (size p) →
  ∃ bytes s', File_read_piece (F := F) i 0 len s = (Ret bytes, s').
Proof.
  intros [Hok _] Hi Hl Hp Hc Hpl. pose proof (Forall_lookup_1 _ _ _ _ Hok Hp) as (Hs0 & Hsz & Hin).
  destruct (seek_offset_works p 0 (file s)) as (f1 & Hs1); [lia|].
  pose proof (seek_offset_inv _ _ _ _ Hs1 ltac:(lia)) as [Hc1 Hp1].
  destruct (read_exact_works len f1) as (buf & f2 & Hr); [lia|lia|rewrite Hc1; lia|].
  eexists buf, _. unfold File_read_piece. erewrite act_bind_run by done. rewrite Hp.
  erewrite act_bind_run; [|apply pure_run, arith_ok; lia]. erewrite act_bind_run by (by apply pure_run).
  rewrite Z.gtb_ltb, (proj2 (Z.ltb_ge _ _)) by lia. rewrite Hc. cbn [negb].
  erewrite act_bind_run by (by apply on_file_run).
  erewrite act_bind_run; [|apply pure_run; unfold vec_zeroed; by rewrite (proj2 (Z.leb_le _ _)) by lia].
  by apply on_file_run, io_inv.
Qed.

(** ** The file storage does as the one in memory *)

(** The pieces have the lengths of the allocation and the digests of [data]. *)
Definition file_for (data : Z → list byte) (s : FileTorrentIO F) : Prop := ∀ i p, 0 ≤ i →
  piece_to_file s !! Z.to_nat i = Some p →
  piece_len (E := AnyError) (allocation s) i = Ret (size p) ∧ sha1 (data i) = fp_hash p.

Lemma file_for_write data s i b block r s' : file_ok s → file_for data s → 0 ≤ i → is_u32 b →
  zlen block < 2 ^ 32 → File_write_piece sha1 hex_encode i b block s = (Ret r, s') → file_for data s'.
Proof.
  intros Hok Hf Hi Hb Hbl Hw.
  destruct (file_write_inv _ _ _ _ _ _ _ _ Hok Hi Hb Hbl Hw) as (p & sl & Hp & _ & _ & _ & Hps & Ha & _).
  intros j q Hj Hq. rewrite Hps, list_lookup_insert in Hq. rewrite Ha.
  destruct (decide _) as [[He _]|_]; [|by apply Hf]. injection Hq as <-. cbn [size fp_hash].
  apply Hf; [done|]. by rewrite <-He.
Qed.

(** What a write in memory does to the bytes of the piece. *)
Lemma Memory_write_inv i b block m r m' : is_u32 b → zlen block < 2 ^ 32 →
  Memory_write i b block m = Ret (r, m') → b + zlen block ≤ zlen (memory m) ∧
  Slices_insert (E := AnyError) (mem_slices m) b (zlen block) = Ret (r, mem_slices m') ∧
  zlen (memory m') = zlen (memory m) ∧
  ∀ k : nat, memory m' !! k = if decide (b ≤ Z.of_nat k < b + zlen block)
    then block !! (k - Z.to_nat b)%nat else memory m !! k.
Proof.
  intros Hb Hbl Hw. unfold Memory_write, is_u32 in *. rewrite bind_arith in Hw by zlia.
  destruct (_ >? _) eqn:Hgt; [done|]. rewrite Z.gtb_ltb in Hgt. apply Z.ltb_ge in Hgt.
  rewrite wrap_small in Hw by zlia.
  destruct (Slices_insert _ _ _) as [[fin sl]| |] eqn:Hins; [|done..]. rewrite bind_ret in Hw.
  destruct (write_bytes_spec (E := AnyError) block (memory m) b) as (mem' & Hwb & Hl & Hk); [lia|lia|].
  rewrite Hwb, bind_ret in Hw. injection Hw as <- <-. cbn [memory mem_slices]. done.
Qed.

#[local] Program Instance file_store data :
    @PieceStore (FileTorrentIO F) (file_torrent_io sha1 hex_encode) _ data := {|
  shows s mem := storage_sim s mem ∧ file_for data s;
|}.
Next Obligation.
  cbn. intros data s mem i b block m r m' [Hsim Hf] Hi Hb Hbl Hm Hc Hw Hdone.
  pose proof Hsim as [Hok Hps Hap]. destruct (Forall2_lookup_r _ _ _ _ _ Hps Hm) as (p & Hp & Hbytes & Hsl).
  pose proof (Forall_lookup_1 _ _ _ _ (proj1 Hok) Hp) as (Hst & Hsz & Hin).
  assert (zlen (memory m) = size p) as Hlen by (rewrite Hbytes; apply zlen_sub; lia).
  destruct (Memory_write_inv _ _ _ _ _ _ Hb Hbl Hw) as (Hfit & Hins & Hl & Hk). rewrite Hlen in Hfit, Hl.
  destruct (Hf i p Hi Hp) as [Hpl Hhash]. unfold is_u32 in Hb.
  assert (memory m' = sub (overwrite (contents (file s)) (start_idx p + b) block) (start_idx p) (size p)) as Hm'.
  { apply (sub_overwrite_here _ _ _ _ _ (memory m')); try lia. intros k. by rewrite Hk, Hbytes. }
  destruct (file_write_works s i b block p r (mem_slices m')) as (s' & Hw'); try done.
  - by rewrite <-Hsl.
  - by rewrite <-Hsl.
  - intros Hr. by rewrite <-Hm', (Hdone Hr).
  - exists s'. split; [done|]. destruct (write_sim sha1 hex_encode s mem i b block r s') as (mem' & Hmw & Hsim');
      [done..|]. pose proof (Memory_write_piece_at mem i m b block Hm) as Hat.
    rewrite Hw in Hat. cbn in Hat. rewrite Hmw in Hat. injection Hat as ->.
    split; [done|]. by apply (file_for_write data s i b block r s').
Qed.
Next Obligation.
  cbn. intros data s mem i m [Hsim Hf] Hi Hn Hm Hc.
  pose proof Hsim as [Hok Hps Hap]. destruct (Forall2_lookup_r _ _ _ _ _ Hps Hm) as (p & Hp & Hbytes & Hsl).
  pose proof (Forall_lookup_1 _ _ _ _ (proj1 Hok) Hp) as (Hst & Hsz & Hin).
  assert (zlen (memory m) = size p) as Hlen by (rewrite Hbytes; apply zlen_sub; lia).
  destruct (Hf i p Hi Hp) as [Hpl _].
  destruct (file_read_works s i (zlen (memory m)) p) as (bytes & s' & Hr); try done; [zlia|by rewrite <-Hsl|].
  destruct (read_sim s mem i 0 (zlen (memory m)) bytes s') as [Hmr _]; try done; [unfold is_u32; zlia|].
  pose proof (read_whole mem i m Hn Hm) as Hrw. cbn in Hrw. rewrite Hmr in Hrw. injection Hrw as ->.
  by exists s'.
Qed.

(** A fresh file shows what fresh memory holds. *)
Lemma fresh_shows data t f s mem : wf_torrent t → contents f = [] →
  torrent_length (info t) = zlen (pieces (info t)) * piece_length (info t) →
  (∀ i q, 0 ≤ i → pieces (info t) !! Z.to_nat i = Some q → sha1 (data i) = hash q) →
  FileTorrentIO_new t f = Ret s → MemoryTorrentIO_new t = Ret mem → @shows _ _ _ _ (file_store data) s mem.
Proof.
  intros Hwf Hc Hlen Hh Hs Hmem. split; [by eapply fresh_sim|]. intros i p Hi Hp.
  destruct (file_new_inv t f s Hwf Hs Hc) as (_ & Ha & _ & Hpieces).
  destruct (Hpieces i p Hp Hi) as (Hin & Hsz & _). split; [rewrite Hsz; by apply wf_piece_len|].
  unfold FileTorrentIO_new in Hs. rewrite Ha, bind_ret in Hs.
  destruct (set_len _ f) as [[[]| |] f']; [|done..]. cbn [map_err] in Hs. rewrite bind_ret in Hs.
  destruct (file_pieces_layout t (allocation s) Hwf Ha (pieces (info t)) 0) as (l & Hl & Hll & Hk); [lia|lia|].
  rewrite Hl, bind_ret in Hs. injection Hs as Hs. rewrite <-Hs in Hp. cbn [piece_to_file] in Hp.
  destruct (lookup_lt_is_Some_2 (pieces (info t)) (Z.to_nat i)) as [q Hq]; [unfold zlen in Hin; lia|].
  rewrite (Hk _ _ Hq) in Hp. injection Hp as <-. cbn [fp_hash]. by apply Hh.
Qed.
End file_works.

(** * Property *)

Section file_download.
Context {F : Type} `{FileWorks F} `{BytesCrateOk, Profile}.
Context (sha1 hex_encode : list byte → list byte).
#[local] Instance file_io : TorrentIO (FileTorrentIO F) := file_torrent_io sha1 hex_encode.

(** C2. A download into a file is right and can always be finished,
    when the pieces have one size, the bytes that the honest peers send have the digests of the
    torrent, and the disk does not fail: what the processor counts as completed is read
    back from the file right, and as long as a peer has everything and lets us download the
    session can go on until every piece is in the file. *)
Theorem file_download_completes tor data max c0 f io c (p : Proc Z (SimNet (FileTorrentIO F))) :
  wf_torrent tor → torrent_length (info tor) = zlen (pieces (info tor)) * piece_length (info tor) →
  (∀ i, 0 ≤ i < zlen (pieces (info tor)) → zlen (data i) = piece_size tor i) →
  (∀ i q, 0 ≤ i → pieces (info tor) !! Z.to_nat i = Some q → sha1 (data i) = hash q) →
  1 ≤ max < 2 ^ 64 → contents f = [] → FileTorrentIO_new tor f = Ret io →
  rtc (session_step data) (c0, Proc_new tor max (mkSim [] [] [] (Some io))) (c, p) →
  (∀ i, 0 ≤ i < zlen (pieces (info tor)) → i ∈ get_pieces_completed (tracker (world p)) →
    downloaded tor data p i) ∧
  (∀ q, seeder tor q (locked (world p)) → ∃ p', rtc (session_step data) (c, p) (c, p') ∧
    ∀ i, 0 ≤ i < zlen (pieces (info tor)) → downloaded tor data p' i).
Proof.
  intros Hwf Hlen Hdata Hhash Hmax Hc Hio.
  destruct (MemoryTorrentIO_new_ok tor Hwf) as (mem & Hmem & _).
  apply (session_completes (PieceStore0 := file_store sha1 hex_encode data) tor data Hwf Hdata max c0 io mem);
    [done| |done]. by apply (fresh_shows sha1 hex_encode data tor f).
Qed.
End file_download.

Module FileDownloadExamples.
Import ListBytes DevProfile ElementsOrder FileExamples SwarmExamples.

#[export] Instance mem_file_works : FileWorks mem_file.
Proof.
  split; cbn; [by eexists|by eexists|]. intros n f Hn Hc Hfit. eexists _, _.
  rewrite decide_True; [reflexivity|]. apply zlen_sub; lia.
Qed.

(** [ann] has both pieces of the torrent of [FileExamples] and lets us download. *)
Definition halves (i : Z) : list byte := if i =? 0 then one else two.
#[local] Instance file_io_ : TorrentIO (FileTorrentIO mem_file) := file_torrent_io FileExamples.sha hex.
Abbreviation FileProc := (Proc Z (SimNet (FileTorrentIO mem_file))).

Definition next (r : outcome AnyError FileProc) (p : FileProc) : FileProc := match r with Ret p => p | _ => p end.
Definition file_start : FileProc := Proc_new (FileExamples.tor 8) 4 (mkSim [] [] [] (Some (fresh 8))).
Definition file_connected : FileProc := next (accept_peer hello 7 file_start) file_start.
Definition file_unchoked : FileProc := next (peer_message (ann, 7) (Flag Unchoke) file_connected) file_start.
Definition file_informed : FileProc := next (peer_message (ann, 7) (BitField [xc0]) file_unchoked) file_start.

Lemma file_session : rtc (session_step halves) (0, file_start) (0, file_informed).
Proof.
  apply (rtc_l _ _ (0, file_connected)).
  { apply (session_accepts halves 0 _ hello 7); [reflexivity|vm_compute; reflexivity]. }
  apply (rtc_l _ _ (0, file_unchoked)).
  { apply (session_announces halves 0 file_connected (ann, 7) (Flag Unchoke)); [by left|exact I|vm_compute; reflexivity]. }
  apply rtc_once.
  apply (session_announces halves 0 file_unchoked (ann, 7) (BitField [xc0])); [by left|reflexivity|vm_compute; reflexivity].
Qed.

Lemma two_pieces i : 0 ≤ i < zlen (pieces (info (FileExamples.tor 8))) → i = 0 ∨ i = 1.
Proof. change (zlen (pieces (info (FileExamples.tor 8)))) with 2. lia. Qed.

Lemma ann_seeds_file : seeder (FileExamples.tor 8) ann (locked (world file_informed)).
Proof.
  split; [apply (bool_decide_unpack _); vm_compute; exact I|].
  intros i [-> | ->]%two_pieces; unfold has; apply (bool_decide_unpack _); vm_compute; exact I.
Qed.

Lemma file_download_completes_witness : ∃ p', rtc (session_step halves) (0, file_informed) (0, p') ∧
  fst (io_read 0 0 4 (net (world p'))) = inr one ∧ fst (io_read 1 0 4 (net (world p'))) = inr two.
Proof.
  destruct (file_download_completes FileExamples.sha hex (FileExamples.tor 8) halves 4 0 (mkMemFile [] 0) (fresh 8)
    0 file_informed) as [_ Hdone].
  - vm_compute. split_and!; congruence.
  - reflexivity.
  - intros i [-> | ->]%two_pieces; reflexivity.
  - intros i q Hi Hq. assert (i = 0 ∨ i = 1) as [-> | ->].
    { apply two_pieces. apply lookup_lt_Some in Hq. unfold zlen. lia. }
    all: cbn in Hq; by injection Hq as <-.
  - split; [discriminate|reflexivity].
  - reflexivity.
  - reflexivity.
  - exact file_session.
  - destruct (Hdone ann ann_seeds_file) as (p' & Hs & Hd). exists p'. split; [exact Hs|].
    split; [apply (Hd 0)|apply (Hd 1)]; (split; [discriminate|reflexivity]).
Defined.
End FileDownloadExamples.
