(* ===== verification/Ip.v ===== *)
(** The standard library's IP addresses and their parser, [IpAddr::from_str],
    which [src/src/model/tracker.rs] applies to the addresses a tracker sends.

    A reader takes bytes off the input or fails and leaves it as it was. *)
From S2P Require Import Prelude ByteStr.
From Stdlib Require Import ZArith.

Inductive IpAddr :=
  | V4 (a b c d : Z)
  | V6 (groups : list Z).

#[export] Instance IpAddr_eq_dec : EqDecision IpAddr.
Proof. solve_decision. Defined.

(** [SocketAddr]: a V6 address has a flow label and a scope too, both 0 here. *)
Inductive SocketAddr :=
  | SocketV4 (a b c d : Z) (port : Z)
  | SocketV6 (groups : list Z) (port flowinfo scope_id : Z).

Definition reader A : Type := list byte → option (A * list byte).

(** [char::to_digit]. *)
Definition to_digit (radix : Z) (b : byte) : option Z :=
  let v := byte_val b in
  let d := if (48 <=? v) && (v <=? 57) then Some (v - 48)
           else if (97 <=? v) && (v <=? 122) then Some (v - 87)
           else if (65 <=? v) && (v <=? 90) then Some (v - 55)
           else None in
  match d with Some d => if d <? radix then Some d else None | None => None end.

Definition read_given_char (c : byte) : reader unit := λ l,
  match l with b :: r => if Byte.eqb b c then Some ((), r) else None | [] => None end.

(** The digits at the front: their value and how many they are, at most
    [max_digits]. *)
Fixpoint read_digits (radix max_digits result count : Z) (l : list byte)
    : option (Z * Z * list byte) :=
  match l with
  | b :: r =>
      match to_digit radix b with
      | Some d =>
          if max_digits <? count + 1 then None
          else read_digits radix max_digits (result * radix + d) (count + 1) r
      | None => Some (result, count, l)
      end
  | [] => Some (result, count, [])
  end.

(** A number below [bound], the range of its type. *)
Definition read_number (radix max_digits bound : Z) (allow_zero_prefix : bool) : reader Z := λ l,
  let has_leading_zero := match l with b :: _ => Byte.eqb b "0" | [] => false end in
  match read_digits radix max_digits 0 0 l with
  | Some (result, count, r) =>
      if count =? 0 then None
      else if negb allow_zero_prefix && has_leading_zero && (1 <? count) then None
      else if result <? bound then Some (result, r) else None
  | None => None
  end.

(** The separator stands before every element but the first. *)
Definition read_separator {A} (sep : byte) (index : nat) (inner : reader A) : reader A := λ l,
  match index with
  | O => inner l
  | S _ => '(_, l) ← read_given_char sep l; inner l
  end.

Definition read_octet (index : nat) : reader Z :=
  read_separator "." index (read_number 10 3 256 false).

Definition read_ipv4_addr : reader (Z * Z * Z * Z) := λ l,
  '(a, l) ← read_octet 0 l;
  '(b, l) ← read_octet 1 l;
  '(c, l) ← read_octet 2 l;
  '(d, l) ← read_octet 3 l;
  Some ((a, b, c, d), l).

(** [k] groups are left to fill, [i] are filled. The flag says that an IPv4
    address was read, as the last two of them. *)
Fixpoint read_groups (k i : nat) (l : list byte) : list Z * bool * list byte :=
  match k with
  | O => ([], false, l)
  | S k =>
      match (if decide (k = O) then None else read_separator ":" i read_ipv4_addr l) with
      | Some (a, b, c, d, l) => ([a * 256 + b; c * 256 + d], true, l)
      | None =>
          match read_separator ":" i (read_number 16 4 65536 true) l with
          | Some (g, l) => let '(gs, v4, l) := read_groups k (S i) l in (g :: gs, v4, l)
          | None => ([], false, l)
          end
      end
  end.

Definition read_ipv6_addr : reader (list Z) := λ l,
  let '(head, head_ipv4, l) := read_groups 8 0 l in
  if decide (length head = 8%nat) then Some (head, l)
  else if head_ipv4 : bool then None
  else
    '(_, l) ← read_given_char ":" l;
    '(_, l) ← read_given_char ":" l;
    let '(tail, _, l) := read_groups (8 - (length head + 1)) 0 l in
    Some (head ++ replicate (8 - length head - length tail) 0 ++ tail, l).

Definition AddrParseError : list byte := bs "invalid IP address syntax".

(** [IpAddr::from_str]: nothing may follow the address. *)
Definition ip_from_str (s : list byte) : list byte + IpAddr :=
  match read_ipv4_addr s with
  | Some (a, b, c, d, l) => if decide (l = []) then inr (V4 a b c d) else inl AddrParseError
  | None =>
      match read_ipv6_addr s with
      | Some (g, l) => if decide (l = []) then inr (V6 g) else inl AddrParseError
      | None => inl AddrParseError
      end
  end.

(** * The addresses that are read are addresses *)

Definition ip_ok (ip : IpAddr) : Prop :=
  match ip with
  | V4 a b c d => Forall (λ x, 0 ≤ x < 256) [a; b; c; d]
  | V6 g => length g = 8%nat ∧ Forall (λ x, 0 ≤ x < 65536) g
  end.

Lemma to_digit_range radix b d : to_digit radix b = Some d → 0 ≤ d.
Proof.
  unfold to_digit. pose proof (byte_val_range b).
  repeat case_match; intros; simplify_eq; rewrite ?andb_true_iff, ?Z.leb_le in *; lia.
Qed.

Lemma read_digits_range radix m l : 0 ≤ radix → ∀ r c v n l',
  0 ≤ r → read_digits radix m r c l = Some (v, n, l') → 0 ≤ v.
Proof.
  intros Hx. induction l as [|b l IH]; intros r c v n l' Hr; cbn; [by intros [= <- _ _]|].
  destruct (to_digit radix b) as [d|] eqn:Hd; [|by intros [= <- _ _]].
  apply to_digit_range in Hd. case_match; [done|]. intros Hv. eapply IH, Hv. nia.
Qed.

Lemma read_number_range radix m bound z l v l' : 0 ≤ radix →
  read_number radix m bound z l = Some (v, l') → 0 ≤ v < bound.
Proof.
  intros Hx. unfold read_number.
  destruct (read_digits radix m 0 0 l) as [[[r c] l2]|] eqn:Hr; [|done].
  apply read_digits_range in Hr; [|done|lia].
  destruct (c =? 0); [done|]. destruct (negb z && _ && _); [done|].
  destruct (Z.ltb_spec r bound); [|done]. intros [= <- _]. lia.
Qed.

Lemma separator_inv {A} sep i (inner : reader A) l x :
  read_separator sep i inner l = Some x → ∃ l0, inner l0 = Some x.
Proof.
  destruct i; cbn; [by exists l|]. destruct (read_given_char sep l) as [[? l0]|]; [|done].
  by exists l0.
Qed.

Lemma read_octet_range i l v l' : read_octet i l = Some (v, l') → 0 ≤ v < 256.
Proof. intros (l0 & Hv)%separator_inv. by eapply read_number_range, Hv. Qed.

Lemma read_ipv4_range l a b c d l' : read_ipv4_addr l = Some (a, b, c, d, l') →
  Forall (λ x, 0 ≤ x < 256) [a; b; c; d].
Proof.
  unfold read_ipv4_addr. intros Hr.
  repeat match type of Hr with
  | context [read_octet ?i ?l] =>
      let E := fresh in destruct (read_octet i l) as [[? ?]|] eqn:E; cbn [mbind option_bind] in Hr;
        [|done]; apply read_octet_range in E
  end.
  injection Hr as -> -> -> -> _. by repeat (apply Forall_cons; split).
Qed.

Lemma read_groups_range k : ∀ i l g v l', read_groups k i l = (g, v, l') →
  (length g ≤ k)%nat ∧ Forall (λ x, 0 ≤ x < 65536) g.
Proof.
  induction k as [|k IH]; intros i l g v l'; cbn [read_groups]; [by intros [= <- _ _]|].
  assert (∀ o, (match (if decide (k = O) then None else o) with
    | Some (a, b, c, d, l) => ([a * 256 + b; c * 256 + d], true, l)
    | None =>
          match read_separator ":" i (read_number 16 4 65536 true) l with
          | Some (g, l) => let '(gs, v4, l) := read_groups k (S i) l in (g :: gs, v4, l)
          | None => ([], false, l)
          end
    end) = (g, v, l') → (∀ a b c d l2, o = Some (a, b, c, d, l2) → Forall (λ x, 0 ≤ x < 256) [a; b; c; d]) →
    (length g ≤ S k)%nat ∧ Forall (λ x, 0 ≤ x < 65536) g) as Hgen.
  { intros o Hm Ho. destruct (if decide (k = O) then None else o) as [[[[[a b] c] d] l2]|] eqn:Hif.
    - case_decide; [done|]. subst o. injection Hm as <- _ _.
      specialize (Ho a b c d l2 eq_refl). rewrite !Forall_cons in Ho. split; [cbn; lia|].
      rewrite !Forall_cons. split_and!; [lia..|done].
    - destruct (read_separator _ i _ l) as [[x l2]|] eqn:Hs; [|by injection Hm as <- _ _; split; [cbn; lia|]].
      destruct (read_groups k (S i) l2) as [[gs v4] l3] eqn:Hg. injection Hm as <- _ _.
      apply IH in Hg as [Hl Hf]. split; [cbn; lia|]. constructor; [|done].
      apply separator_inv in Hs as (l0 & Hs). by eapply read_number_range, Hs. }
  intros Hm. eapply Hgen; [exact Hm|]. intros a b c d l2 (l0 & Ha)%separator_inv.
  by eapply read_ipv4_range.
Qed.

Lemma ip_from_str_ok s ip : ip_from_str s = inr ip → ip_ok ip.
Proof.
  unfold ip_from_str. destruct (read_ipv4_addr s) as [[[[[a b] c] d] l]|] eqn:H4.
  - case_decide; [|done]. intros [= <-]. by eapply read_ipv4_range.
  - unfold read_ipv6_addr. destruct (read_groups 8 0 s) as [[h v] l] eqn:Hh.
    apply read_groups_range in Hh as [Hl Hf]. case_decide as He.
    + case_decide; [|done]. by intros [= <-].
    + destruct v; [done|].
      destruct (read_given_char ":" l) as [[[] l1]|]; [cbn|done].
      destruct (read_given_char ":" l1) as [[[] l2]|]; [cbn|done].
      destruct (read_groups (8 - (length h + 1)) 0 l2) as [[t w] l3] eqn:Ht.
      apply read_groups_range in Ht as [Hl' Hf']. case_decide; [|done]. intros [= <-]. cbn. split.
      * rewrite !length_app, length_replicate. lia.
      * rewrite !Forall_app. split_and!; [done| |done]. apply Forall_replicate. lia.
Qed.

Module IpExamples.
Example v4 : ip_from_str (bs "192.168.0.1") = inr (V4 192 168 0 1).
Proof. vm_compute. reflexivity. Qed.
Example leading_zero : ip_from_str (bs "192.168.0.01") = inl AddrParseError.
Proof. vm_compute. reflexivity. Qed.
Example too_large : ip_from_str (bs "192.168.0.256") = inl AddrParseError.
Proof. vm_compute. reflexivity. Qed.
Example localhost : ip_from_str (bs "::1") = inr (V6 [0; 0; 0; 0; 0; 0; 0; 1]).
Proof. vm_compute. reflexivity. Qed.
Example v6 : ip_from_str (bs "2001:dB8::8:800:200c:417a") =
  inr (V6 [8193; 3512; 0; 0; 8; 2048; 8204; 16762]).
Proof. vm_compute. reflexivity. Qed.
Example embedded : ip_from_str (bs "::ffff:1.2.3.4") = inr (V6 [0; 0; 0; 0; 0; 65535; 258; 772]).
Proof. vm_compute. reflexivity. Qed.
Example host_name : ip_from_str (bs "tracker.example") = inl AddrParseError.
Proof. vm_compute. reflexivity. Qed.
Example trailing : ip_from_str (bs "1.2.3.4:80") = inl AddrParseError.
Proof. vm_compute. reflexivity. Qed.
End IpExamples.
