(* ===== verification/Bencode.v ===== *)
(** Bencoding, [src/src/file/bencode.rs]: values, encoder and parser.

    The parser is written with the combinators of the [nom] crate, which are the
    parameter [Nom] with the behaviour its documentation gives, [NomOk]. A
    [BTreeMap] is its list of entries in the order of the keys. *)
From S2P Require Import Prelude ByteStr.
From Stdlib Require Import ZArith Lia.

(** * Decimal numbers, as [format!] writes them *)

Definition digit (d : Z) : byte := byte_of (48 + d).
Definition is_digit (b : byte) : bool := (48 <=? byte_val b) && (byte_val b <=? 57).

(** The digits of [n], [fuel] bounding their number. *)
Fixpoint dec_nat (fuel : nat) (n : Z) : list byte :=
  match fuel with
  | O => []
  | S fuel => if n <? 10 then [digit n] else dec_nat fuel (n / 10) ++ [digit (n mod 10)]
  end.

(** Numbers of the program have at most twenty digits. *)
Definition dec (z : Z) : list byte :=
  if z <? 0 then bs "-" ++ dec_nat 20 (- z) else dec_nat 20 z.

(** * The parser combinators

    A parser returns the rest of its input and a value, or an error with which
    another alternative can be tried. [Panic] is the overflow of the stack by a
    recursive parser: combinators pass it on. *)
Definition parser (E A : Type) : Type := list byte → outcome E (list byte * A).

Class Nom := {
  nom_error : Type;
  nom_error_to_string : nom_error → list byte;
  tag : list byte → parser nom_error (list byte);
  take_bytes : Z → parser nom_error (list byte);
  nom_i64 : parser nom_error Z;
  nom_u32 : parser nom_error Z;
  delimited {A B C} : parser nom_error A → parser nom_error B → parser nom_error C →
    parser nom_error B;
  alt {A} : list (parser nom_error A) → parser nom_error A;
  many_till {A B} : parser nom_error A → parser nom_error B → parser nom_error (list A * B);
}.

(** The input does not go on with a digit. *)
Definition no_digit (i : list byte) : Prop :=
  match i with b :: _ => is_digit b = false | [] => True end.

Class NomOk `(Nom) : Prop := {
  tag_ok t rest : tag t (t ++ rest) = Ret (rest, t);
  tag_err t i : ¬ (∃ rest, i = t ++ rest) → ∃ e, tag t i = Err e;
  take_ok a rest : take_bytes (zlen a) (a ++ rest) = Ret (rest, a);
  take_err n i : zlen i < n → ∃ e, take_bytes n i = Err e;
  i64_ok z rest : - 2 ^ 63 ≤ z < 2 ^ 63 → no_digit rest → nom_i64 (dec z ++ rest) = Ret (rest, z);
  u32_ok z rest : 0 ≤ z < 2 ^ 32 → no_digit rest → nom_u32 (dec z ++ rest) = Ret (rest, z);
  i64_inv i : (∃ e, nom_i64 i = Err e) ∨
    ∃ d rest z, nom_i64 i = Ret (rest, z) ∧ i = d ++ rest ∧ d ≠ [] ∧ - 2 ^ 63 ≤ z < 2 ^ 63;
  u32_inv i : (∃ e, nom_u32 i = Err e) ∨
    ∃ d rest z, nom_u32 i = Ret (rest, z) ∧ i = d ++ rest ∧ d ≠ [] ∧ 0 ≤ z < 2 ^ 32;
  delimited_eq {A B C} (f : parser nom_error A) (g : parser nom_error B) (h : parser nom_error C) i :
    delimited f g h i = ('(i, _) ← f i; '(i, x) ← g i; '(i, _) ← h i; Ret (i, x));
  alt_stop {A} (p : parser nom_error A) ps i : (∀ e, p i ≠ Err e) → alt (p :: ps) i = p i;
  alt_next {A} (p q : parser nom_error A) ps i e : p i = Err e →
    alt (p :: q :: ps) i = alt (q :: ps) i;
  alt_last {A} (p : parser nom_error A) i e : p i = Err e → ∃ e', alt [p] i = Err e';
  till_end {A B} (f : parser nom_error A) (g : parser nom_error B) i rest o :
    g i = Ret (rest, o) → many_till f g i = Ret (rest, ([], o));
  till_step {A B} (f : parser nom_error A) (g : parser nom_error B) i e rest x :
    g i = Err e → f i = Ret (rest, x) → (length rest < length i)%nat →
    many_till f g i = ('(rest, (xs, o)) ← many_till f g rest; Ret (rest, (x :: xs, o)));
  till_stuck {A B} (f : parser nom_error A) (g : parser nom_error B) i e rest x :
    g i = Err e → f i = Ret (rest, x) → length rest = length i → ∃ e', many_till f g i = Err e';
  till_fail {A B} (f : parser nom_error A) (g : parser nom_error B) i e e1 :
    g i = Err e → f i = Err e1 → ∃ e', many_till f g i = Err e';
  till_overflow {A B} (f : parser nom_error A) (g : parser nom_error B) i e :
    g i = Err e → f i = Panic → many_till f g i = Panic;
}.

(** * Values *)

#[local] Set Warnings "-register-all".

Inductive Bencode :=
  | Int (i : Z)
  | ByteString (elements : list byte)
  | BList (l : list Bencode)
  | Dictionary (d : list (list byte * Bencode)).

(** Induction with a hypothesis for every element. *)
Section bencode_ind.
Context (P : Bencode → Prop).
Context (HInt : ∀ i, P (Int i)) (HStr : ∀ b, P (ByteString b)).
Context (HList : ∀ l, Forall P l → P (BList l)).
Context (HDict : ∀ d, Forall (λ kv, P kv.2) d → P (Dictionary d)).

Fixpoint Bencode_nested_ind (b : Bencode) : P b :=
  match b with
  | Int i => HInt i
  | ByteString s => HStr s
  | BList l => HList l
      ((fix go l : Forall P l :=
          match l with
          | [] => Forall_nil_2 P
          | x :: l => Forall_cons_2 P x l (Bencode_nested_ind x) (go l)
          end) l)
  | Dictionary d => HDict d
      ((fix go d : Forall (λ kv, P kv.2) d :=
          match d with
          | [] => Forall_nil_2 _
          | x :: d => Forall_cons_2 _ x d (Bencode_nested_ind x.2) (go d)
          end) d)
  end.
End bencode_ind.

(** * The encoder *)

Definition encode_int (i : Z) : list byte := bs "i" ++ dec i ++ bs "e".

Definition encode_bs (b : list byte) : list byte := dec (zlen b) ++ bs ":" ++ b.

Fixpoint encode (bc : Bencode) : list byte :=
  match bc with
  | Int i => encode_int i
  | ByteString b => encode_bs b
  | BList l => bs "l" ++ concat (map encode l) ++ bs "e"
  | Dictionary d => bs "d" ++ concat (map (λ kv, encode_bs kv.1 ++ encode kv.2) d) ++ bs "e"
  end.

(** * Collecting into a [BTreeMap]: the last of equal keys stays *)

Fixpoint bt_insert {A} (k : list byte) (v : A) (m : list (list byte * A)) : list (list byte * A) :=
  match m with
  | [] => [(k, v)]
  | (k', v') :: m' =>
      if bytes_ltb k k' then (k, v) :: m
      else if bytes_ltb k' k then (k', v') :: bt_insert k v m'
      else (k, v) :: m'
  end.

Definition bt_collect {A} (l : list (list byte * A)) : list (list byte * A) :=
  fold_left (λ m kv, bt_insert kv.1 kv.2 m) l [].

(** * The parser *)

Section parser.
Context `{Nom}.

Definition parse_int : parser nom_error Bencode := λ i,
  '(leftover, number) ← delimited (tag (bs "i")) nom_i64 (tag (bs "e")) i;
  Ret (leftover, Int number).

Definition inner_parse_bytestring : parser nom_error (list byte) := λ i,
  '(leftover, len) ← nom_u32 i;
  '(leftover, _) ← tag (bs ":") leftover;
  '(leftover, b) ← take_bytes len leftover;
  Ret (leftover, b).

Definition parse_bytestring : parser nom_error Bencode := λ i,
  '(leftover, b) ← inner_parse_bytestring i;
  Ret (leftover, ByteString b).

(** The parsers that call [parse_type], with it as an argument. *)
Definition parse_list (parse_type : parser nom_error Bencode) : parser nom_error Bencode := λ i,
  '(leftover, _) ← tag (bs "l") i;
  '(leftover, (eles, _)) ← many_till parse_type (tag (bs "e")) leftover;
  Ret (leftover, BList eles).

Definition parse_pair (parse_type : parser nom_error Bencode)
    : parser nom_error (list byte * Bencode) := λ i,
  '(leftover, k) ← inner_parse_bytestring i;
  '(leftover, v) ← parse_type leftover;
  Ret (leftover, (k, v)).

Definition parse_dictionary (parse_type : parser nom_error Bencode) : parser nom_error Bencode := λ i,
  '(leftover, _) ← tag (bs "d") i;
  '(leftover, (eles, _)) ← many_till (parse_pair parse_type) (tag (bs "e")) leftover;
  Ret (leftover, Dictionary (bt_collect eles)).

(** [stack] is the depth of recursion the stack has room for. *)
Fixpoint parse_type (stack : nat) : parser nom_error Bencode := λ i,
  match stack with
  | O => Panic
  | S stack =>
      alt [parse_int; parse_list (parse_type stack); parse_dictionary (parse_type stack);
           parse_bytestring] i
  end.
End parser.

(** [Error] of [src/src/file/error.rs]. *)
Inductive Error :=
  | Missing (what : list byte)
  | V1PiecesByteLenWrong
  | WrongType
  | BencodeParse (msg : list byte).

Definition Error_missing (s : string) : Error := Missing (bs s).
Definition Error_bencode_parse (msg : list byte) : Error := BencodeParse msg.

(** What follows the value is ignored. *)
Definition parse_bencode `{Nom} (stack : nat) (i : list byte) : outcome Error Bencode :=
  match parse_type stack i with
  | Ret (_, bc) => Ret bc
  | Err err => Err (Error_bencode_parse (nom_error_to_string err))
  | Panic => Panic
  end.

(** * Specification *)

(** Strictly increasing keys, as in a [BTreeMap]. *)
Definition keys_sorted {A} (m : list (list byte * A)) : Prop :=
  StronglySorted (λ x y, bytes_ltb x.1 y.1 = true) m.

(** Values that the program's types can hold and the parser's integers reach. *)
Inductive wf_bencode : Bencode → Prop :=
  | wf_Int i : - 2 ^ 63 ≤ i < 2 ^ 63 → wf_bencode (Int i)
  | wf_ByteString b : zlen b < 2 ^ 32 → wf_bencode (ByteString b)
  | wf_BList l : Forall wf_bencode l → wf_bencode (BList l)
  | wf_Dictionary d : keys_sorted d → Forall (λ kv, zlen kv.1 < 2 ^ 32) d →
      Forall (λ kv, wf_bencode kv.2) d → wf_bencode (Dictionary d).

(** The recursion depth that parsing a value takes. *)
Fixpoint depth (b : Bencode) : nat :=
  match b with
  | Int _ | ByteString _ => 1
  | BList l => S (fold_right (λ x n, max (depth x) n) O l)
  | Dictionary d => S (fold_right (λ kv n, max (depth kv.2) n) O d)
  end.

(** ** Maps *)

Lemma bt_insert_last {A} k (v : A) m : Forall (λ x, bytes_ltb x.1 k = true) m →
  bt_insert k v m = m ++ [(k, v)].
Proof.
  induction 1 as [|[k' v'] m Hk _ IH]; [done|]. cbn in *. rewrite Hk, IH.
  destruct (bytes_ltb k k') eqn:Hk'; [|done].
  pose proof (bytes_ltb_trans _ _ _ Hk Hk') as Hx. by rewrite bytes_ltb_irrefl in Hx.
Qed.

Lemma bt_collect_sorted {A} (l : list (list byte * A)) : keys_sorted l → bt_collect l = l.
Proof.
  unfold bt_collect. assert (∀ l m : list (list byte * A), keys_sorted (m ++ l) →
    fold_left (λ m kv, bt_insert kv.1 kv.2 m) l m = m ++ l) as Hgen; [|intros; by apply (Hgen l [])].
  clear l. induction l as [|[k v] l IH]; intros m Hs; cbn [fold_left]; [by rewrite app_nil_r|].
  rewrite bt_insert_last.
  - rewrite IH; by rewrite <-app_assoc.
  - unfold keys_sorted in Hs. apply StronglySorted_app in Hs as (Hs & _ & _).
    apply Forall_forall. intros x Hx. apply (Hs x (k, v)); [done|left].
Qed.

Lemma bt_insert_Forall {A} (P : list byte * A → Prop) k v m :
  P (k, v) → Forall P m → Forall P (bt_insert k v m).
Proof.
  intros Hk. induction 1 as [|[k' v'] m Hx Hm IH]; cbn; [by repeat constructor|].
  repeat case_match; by repeat constructor.
Qed.

Lemma bt_insert_sorted {A} k (v : A) m : keys_sorted m → keys_sorted (bt_insert k v m).
Proof.
  unfold keys_sorted. induction 1 as [|[k' v'] m Hs IH Hx]; cbn; [by repeat constructor|].
  destruct (bytes_ltb k k') eqn:H1.
  - constructor; [by constructor|]. constructor; [done|]. eapply Forall_impl; [done|].
    cbn. intros x Hx'. by eapply bytes_ltb_trans.
  - destruct (bytes_ltb k' k) eqn:H2; constructor; try done.
    + by apply bt_insert_Forall.
    + assert (k = k') as -> by (by apply bytes_ltb_total). done.
Qed.

Lemma bt_collect_spec {A} (P : list byte * A → Prop) l :
  Forall P l → keys_sorted (bt_collect l) ∧ Forall P (bt_collect l).
Proof.
  unfold bt_collect. assert (∀ l m : list (list byte * A), Forall P l → keys_sorted m → Forall P m →
    keys_sorted (fold_left (λ m kv, bt_insert kv.1 kv.2 m) l m) ∧
    Forall P (fold_left (λ m kv, bt_insert kv.1 kv.2 m) l m)) as Hgen.
  { clear l. induction l as [|[k v] l IH]; intros m Hl Hs Hm; [done|].
    apply Forall_cons in Hl as [? Hl]. apply IH; [done|by apply bt_insert_sorted|by apply bt_insert_Forall]. }
  intros Hl. apply Hgen; [done|constructor|constructor].
Qed.

(** ** What encodings start with *)

Lemma digit_is_digit d : 0 ≤ d < 10 → is_digit (digit d) = true.
Proof.
  intros Hd. unfold is_digit, digit. rewrite byte_val_of, Z.mod_small by lia.
  apply andb_true_iff. rewrite !Z.leb_le. lia.
Qed.

Lemma dec_nat_cons fuel n : 0 ≤ n → (0 < fuel)%nat →
  ∃ b l, dec_nat fuel n = b :: l ∧ (n < 10 ^ Z.of_nat fuel → is_digit b = true).
Proof.
  revert n. induction fuel as [|fuel IH]; intros n Hn Hf; [lia|]. cbn [dec_nat].
  destruct (Z.ltb_spec n 10) as [Hl|Hl].
  { exists (digit n), []. split; [done|]. intros _. apply digit_is_digit. lia. }
  destruct fuel as [|fuel].
  { cbn. exists (digit (n mod 10)), []. split; [done|]. intros _. apply digit_is_digit.
    pose proof (Z.mod_pos_bound n 10). lia. }
  destruct (IH (n / 10)) as (b & l & Hd & Hb); [apply Z.div_pos; lia|lia|].
  rewrite Hd. exists b, (l ++ [digit (n mod 10)]). split; [done|]. intros Hlt. apply Hb.
  apply Z.div_lt_upper_bound; [lia|]. rewrite Nat2Z.inj_succ, Z.pow_succ_r in Hlt; lia.
Qed.

Lemma dec_cons z : 0 ≤ z < 2 ^ 64 → ∃ b l, dec z = b :: l ∧ is_digit b = true.
Proof.
  intros Hz. unfold dec. rewrite (proj2 (Z.ltb_ge z 0)) by lia.
  destruct (dec_nat_cons 20 z) as (b & l & Hd & Hb); [lia|lia|]. exists b, l. split; [done|].
  apply Hb. lia.
Qed.

(** The first byte of the encoding of a value. *)
Lemma encode_cons b : wf_bencode b → ∃ c l, encode b = c :: l ∧
  match b with
  | Int _ => c = "i"%byte
  | BList _ => c = "l"%byte
  | Dictionary _ => c = "d"%byte
  | ByteString _ => is_digit c = true
  end.
Proof.
  destruct 1 as [i Hi|s Hs|l Hl|d Hd Hk Hv]; cbn [encode].
  - by eexists _, _.
  - destruct (dec_cons (zlen s)) as (c & l & Hc & Hd); [zlia|].
    unfold encode_bs. rewrite Hc. by eexists _, _.
  - by eexists _, _.
  - by eexists _, _.
Qed.

(** * Parsing what was encoded *)

Section parse_facts.
Context `{NomOk}.

Lemma tag_app t rest : tag t (t ++ rest) = Ret (rest, t).
Proof. apply tag_ok. Qed.

Lemma tag_other c c' l : c ≠ c' → ∃ e, tag [c] (c' :: l) = Err e.
Proof. intros Hc. apply tag_err. intros (rest & [= ? _]). by destruct Hc. Qed.

Lemma tag_inv t i rest x : tag t i = Ret (rest, x) → i = t ++ rest.
Proof.
  intros Ht. destruct (decide (take (length t) i = t)) as [Hp|Hp].
  - rewrite <-(take_drop (length t) i), Hp, tag_ok in Ht. injection Ht as <- _.
    by rewrite <-Hp at 1; rewrite take_drop.
  - destruct (tag_err t i) as [e He]; [|by rewrite He in Ht].
    intros (r & ->). by rewrite take_app_length in Hp.
Qed.

Lemma tag_total t i : tag t i ≠ Panic.
Proof.
  destruct (decide (take (length t) i = t)) as [Hp|Hp].
  - by rewrite <-(take_drop (length t) i), Hp, tag_ok.
  - destruct (tag_err t i) as [e He]; [|by rewrite He].
    intros (r & ->). by rewrite take_app_length in Hp.
Qed.

Lemma inner_parse_encode b rest : zlen b < 2 ^ 32 →
  inner_parse_bytestring (encode_bs b ++ rest) = Ret (rest, b).
Proof.
  intros Hb. unfold inner_parse_bytestring, encode_bs. rewrite <-!app_assoc.
  rewrite u32_ok by (zlia || done). rewrite bind_ret, tag_ok, bind_ret, take_ok. done.
Qed.

Lemma parse_int_encode z rest : - 2 ^ 63 ≤ z < 2 ^ 63 →
  parse_int (encode_int z ++ rest) = Ret (rest, Int z).
Proof.
  intros Hz. unfold parse_int, encode_int. rewrite delimited_eq, <-!app_assoc.
  rewrite tag_ok, bind_ret, i64_ok by done. by rewrite bind_ret, tag_ok, bind_ret.
Qed.

(** Each parser refuses what starts with another byte. *)
Lemma parse_int_other c l : c ≠ "i"%byte → ∃ e, parse_int (c :: l) = Err e.
Proof.
  intros Hc. unfold parse_int. rewrite delimited_eq.
  destruct (tag_other "i" c l) as [e He]; [done|]. change (bs "i") with ["i"%byte]. rewrite He. by eexists.
Qed.

Lemma parse_list_other f c l : c ≠ "l"%byte → ∃ e, parse_list f (c :: l) = Err e.
Proof.
  intros Hc. unfold parse_list. destruct (tag_other "l" c l) as [e He]; [done|].
  change (bs "l") with ["l"%byte]. rewrite He. by eexists.
Qed.

Lemma parse_dictionary_other f c l : c ≠ "d"%byte → ∃ e, parse_dictionary f (c :: l) = Err e.
Proof.
  intros Hc. unfold parse_dictionary. destruct (tag_other "d" c l) as [e He]; [done|].
  change (bs "d") with ["d"%byte]. rewrite He. by eexists.
Qed.

(** A sequence of elements up to the end mark. *)
Lemma many_till_encoded {A} (f : parser nom_error A) (enc : A → list byte) l rest :
  Forall (λ x, (∀ r, f (enc x ++ r) = Ret (r, x)) ∧ ∃ c k, enc x = c :: k ∧ c ≠ "e"%byte) l →
  many_till f (tag (bs "e")) (concat (map enc l) ++ bs "e" ++ rest) = Ret (rest, (l, bs "e")).
Proof.
  induction 1 as [|x l (Hf & c & k & Hc & Hne) _ IH]; cbn [map concat].
  { apply till_end. rewrite app_nil_l. apply tag_ok. }
  rewrite <-app_assoc. set (tl := concat _ ++ _) in *.
  destruct (tag_other "e" c (k ++ tl)) as [e He]; [done|].
  rewrite (till_step f _ _ e tl x).
  - by rewrite IH, bind_ret.
  - rewrite Hc. exact He.
  - apply Hf.
  - rewrite length_app, Hc. cbn. lia.
Qed.

Lemma depth_list x l st : x ∈ l → (depth (BList l) ≤ S st)%nat → (depth x ≤ st)%nat.
Proof.
  cbn [depth]. intros Hx Hd. apply le_S_n in Hd. induction Hx as [y l|y l k Hx IH]; cbn in Hd; lia.
Qed.

Lemma depth_dictionary kv d st : kv ∈ d → (depth (Dictionary d) ≤ S st)%nat → (depth kv.2 ≤ st)%nat.
Proof.
  cbn [depth]. intros Hx Hd. apply le_S_n in Hd. induction Hx as [y l|y l k Hx IH]; cbn in Hd; lia.
Qed.

Lemma digit_not_letter c : is_digit c = true →
  c ≠ "i"%byte ∧ c ≠ "l"%byte ∧ c ≠ "d"%byte ∧ c ≠ "e"%byte.
Proof. intros Hc. split_and!; intros ->; vm_compute in Hc; discriminate. Qed.

Lemma encode_not_e b : wf_bencode b → ∃ c k, encode b = c :: k ∧ c ≠ "e"%byte.
Proof.
  intros Hb. destruct (encode_cons b Hb) as (c & k & Hc & Hk). exists c, k. split; [done|].
  destruct b; subst; try done. by apply digit_not_letter in Hk as (_ & _ & _ & ?).
Qed.

Lemma parse_encode b : wf_bencode b → ∀ stack rest, (depth b ≤ stack)%nat →
  parse_type stack (encode b ++ rest) = Ret (rest, b).
Proof.
  induction b as [z|s|l IH|d IH] using Bencode_nested_ind; intros Hwf [|st] rest Hst;
    try (cbn in Hst; lia); cbn [parse_type].
  - inversion Hwf; subst. rewrite alt_stop; cbn [encode]; [by apply parse_int_encode|].
    intros e. by rewrite parse_int_encode.
  - destruct (encode_cons _ Hwf) as (c & k & Hc & Hd). inversion Hwf; subst.
    apply digit_not_letter in Hd as (? & ? & ? & _).
    destruct (parse_int_other c (k ++ rest)) as [e1 He1]; [done|].
    destruct (parse_list_other (parse_type st) c (k ++ rest)) as [e2 He2]; [done|].
    destruct (parse_dictionary_other (parse_type st) c (k ++ rest)) as [e3 He3]; [done|].
    rewrite app_comm_cons, <-Hc in He1, He2, He3.
    rewrite (alt_next _ _ _ _ e1), (alt_next _ _ _ _ e2), (alt_next _ _ _ _ e3) by done.
    assert (parse_bytestring (encode (ByteString s) ++ rest) = Ret (rest, ByteString s)) as Hp.
    { unfold parse_bytestring. cbn [encode]. by rewrite inner_parse_encode, bind_ret. }
    rewrite alt_stop; [exact Hp|]. intros e. by rewrite Hp.
  - inversion Hwf as [| |? Hl|]; subst.
    destruct (parse_int_other "l" ((concat (map encode l) ++ bs "e") ++ rest)) as [e1 He1]; [done|].
    rewrite (alt_next _ _ _ _ e1) by exact He1.
    assert (parse_list (parse_type st) (encode (BList l) ++ rest) = Ret (rest, BList l)) as Hp.
    { unfold parse_list. cbn [encode]. rewrite <-!app_assoc, tag_ok, bind_ret.
      rewrite many_till_encoded; [by rewrite bind_ret|].
      apply Forall_forall. intros x Hx. rewrite Forall_forall in IH, Hl. split.
      - intros r. apply IH; [done|by apply Hl|by eapply depth_list].
      - by apply encode_not_e, Hl. }
    rewrite alt_stop; [exact Hp|]. intros e. by rewrite Hp.
  - inversion Hwf as [| | |? Hs Hk Hv]; subst.
    set (enc := λ kv, encode_bs kv.1 ++ encode kv.2).
    destruct (parse_int_other "d" ((concat (map enc d) ++ bs "e") ++ rest)) as [e1 He1]; [done|].
    rewrite (alt_next _ _ _ _ e1) by exact He1.
    destruct (parse_list_other (parse_type st) "d" ((concat (map enc d) ++ bs "e") ++ rest)) as [e2 He2];
      [done|].
    rewrite (alt_next _ _ _ _ e2) by exact He2.
    assert (parse_dictionary (parse_type st) (encode (Dictionary d) ++ rest) = Ret (rest, Dictionary d))
      as Hp.
    { unfold parse_dictionary. cbn [encode]. fold enc. rewrite <-!app_assoc, tag_ok, bind_ret.
      rewrite many_till_encoded; [by rewrite bind_ret, bt_collect_sorted|].
      apply Forall_forall. intros [k v] Hx. rewrite Forall_forall in IH, Hk, Hv.
      specialize (Hk _ Hx). specialize (Hv _ Hx). cbn in Hk, Hv. split.
      - intros r. unfold parse_pair, enc. cbn [fst snd]. rewrite <-app_assoc, inner_parse_encode by done.
        rewrite bind_ret, (IH (k, v)); [done|done|done|by eapply (depth_dictionary (k, v))].
      - destruct (dec_cons (zlen k)) as (c & w & Hc & Hd); [zlia|].
        unfold enc, encode_bs. cbn [fst snd]. rewrite Hc. eexists c, _. split; [reflexivity|].
        by apply digit_not_letter. }
    rewrite alt_stop; [exact Hp|]. intros e. by rewrite Hp.
Qed.

(** ** What a successful parse says *)

Lemma alt_inv {A} (ps : list (parser nom_error A)) i r : ps ≠ [] → (∀ e, r ≠ Err e) →
  alt ps i = r → ∃ p, p ∈ ps ∧ p i = r.
Proof.
  intros Hne Hr. induction ps as [|p ps IH]; [done|]. clear Hne. intros Ha.
  destruct (p i) as [x|e|] eqn:Hp.
  - exists p. split; [left|]. rewrite alt_stop in Ha by (intros; by rewrite Hp). congruence.
  - destruct ps as [|q ps].
    + destruct (alt_last p i e Hp) as [e' He]. exfalso. apply (Hr e'). congruence.
    + rewrite (alt_next p q ps i e Hp) in Ha. destruct (IH ltac:(done) Ha) as (p' & Hin & Hp').
      exists p'. split; [by right|done].
  - exists p. split; [left|]. rewrite alt_stop in Ha by (intros; by rewrite Hp). congruence.
Qed.

Lemma tag_shorter t i rest x : tag t i = Ret (rest, x) → (length rest + length t = length i)%nat.
Proof. intros ->%tag_inv. rewrite length_app. lia. Qed.

Lemma take_inv n i rest a : take_bytes n i = Ret (rest, a) → 0 ≤ n → i = a ++ rest ∧ zlen a = n.
Proof.
  intros Ht Hn. destruct (Z.ltb_spec (zlen i) n) as [Hl|Hl].
  - destruct (take_err n i Hl) as [e He]. congruence.
  - assert (zlen (take (Z.to_nat n) i) = n) as Hz by (unfold zlen in *; rewrite length_take; lia).
    pose proof (take_ok (take (Z.to_nat n) i) (drop (Z.to_nat n) i)) as Hk.
    rewrite Hz, take_drop in Hk. rewrite Hk in Ht. injection Ht as <- <-. by rewrite take_drop.
Qed.

Lemma take_total n i : 0 ≤ n → take_bytes n i ≠ Panic.
Proof.
  intros Hn. destruct (Z.ltb_spec (zlen i) n) as [Hl|Hl].
  - destruct (take_err n i Hl) as [e He]. by rewrite He.
  - assert (zlen (take (Z.to_nat n) i) = n) as Hz by (unfold zlen in *; rewrite length_take; lia).
    pose proof (take_ok (take (Z.to_nat n) i) (drop (Z.to_nat n) i)) as Hk.
    rewrite Hz, take_drop in Hk. by rewrite Hk.
Qed.

Lemma inner_parse_inv i rest b : inner_parse_bytestring i = Ret (rest, b) →
  (length rest < length i)%nat ∧ zlen b < 2 ^ 32.
Proof.
  unfold inner_parse_bytestring. intros Hp. inv_bind.
  destruct (u32_inv i) as [[e He]|(d & r & z & Hz & -> & Hd & ?)]; [congruence|].
  match goal with
  | Hu : nom_u32 _ = Ret _, Ht : tag _ _ = Ret _, Hk : take_bytes _ _ = Ret _ |- _ =>
      rewrite Hu in Hz; injection Hz as -> ->; apply tag_shorter in Ht;
      apply take_inv in Hk as [-> Hk]; [|lia]
  end.
  rewrite !length_app in *. destruct d; [done|]. cbn in *. split; [lia|lia].
Qed.

Lemma inner_parse_total i : inner_parse_bytestring i ≠ Panic.
Proof.
  unfold inner_parse_bytestring.
  destruct (u32_inv i) as [[e He]|(d & r & z & Hz & -> & Hd & ?)]; [by rewrite He|].
  rewrite Hz, bind_ret. pose proof (tag_total (bs ":") r) as Ht.
  destruct (tag (bs ":") r) as [[r1 x]|e|]; [|done|done]. rewrite bind_ret.
  pose proof (take_total z r1) as Hk. destruct (take_bytes z r1) as [[r2 y]|e|]; [done|done|].
  exfalso. apply Hk; [lia|done].
Qed.

Section till.
Context {A : Type} (f : parser nom_error A) (Q : A → Prop) (bound : nat).
Context (Hf : ∀ j k x, (length j ≤ bound)%nat → f j = Ret (k, x) → (length k < length j)%nat ∧ Q x).

Lemma many_till_inv n : ∀ i rest xs o, (length i ≤ n)%nat → (length i ≤ bound)%nat →
  many_till f (tag (bs "e")) i = Ret (rest, (xs, o)) → (length rest < length i)%nat ∧ Forall Q xs.
Proof.
  induction n as [|n IH]; intros i rest xs o Hn Hb Hm.
  all: destruct (tag (bs "e") i) as [[r x]|e|] eqn:Hg; [|destruct (f i) as [[r x]|e1|] eqn:Hfi|].
  all: try by (apply tag_total in Hg).
  all: try by (rewrite (till_overflow f _ i e) in Hm).
  all: try by (destruct (till_fail f _ i e e1 Hg Hfi) as [e' He']; congruence).
  all: try (rewrite (till_end f _ i r x Hg) in Hm; injection Hm as <- <- _; apply tag_shorter in Hg;
    cbn in Hg; split; [lia|constructor]).
  all: destruct (Hf i r x Hb Hfi) as [Hr Hx].
  1: lia.
  rewrite (till_step f _ i e r x) in Hm by done. inv_bind.
  destruct (IH r _ _ _ ltac:(lia) ltac:(lia) Hm0) as [? ?].
  split; [lia|by constructor].
Qed.

Lemma many_till_total n : (∀ j, (length j ≤ bound)%nat → f j ≠ Panic) → ∀ i, (length i ≤ n)%nat →
  (length i ≤ bound)%nat → many_till f (tag (bs "e")) i ≠ Panic.
Proof.
  intros Hnp. induction n as [|n IH]; intros i Hn Hb.
  all: destruct (tag (bs "e") i) as [[r x]|e|] eqn:Hg; [|destruct (f i) as [[r x]|e1|] eqn:Hfi|].
  all: try by (apply tag_total in Hg).
  all: try by (apply Hnp in Hfi).
  all: try by (rewrite (till_end f _ i r x Hg)).
  all: try by (destruct (till_fail f _ i e e1 Hg Hfi) as [e' He']; rewrite He').
  all: destruct (Hf i r x Hb Hfi) as [Hr Hx].
  1: lia.
  rewrite (till_step f _ i e r x) by done.
  pose proof (IH r ltac:(lia) ltac:(lia)) as Hm.
  by destruct (many_till f (tag (bs "e")) r) as [[r' [xs o]]|e'|].
Qed.
End till.

Lemma parse_int_inv i rest b : parse_int i = Ret (rest, b) →
  (length rest < length i)%nat ∧ wf_bencode b.
Proof.
  unfold parse_int. rewrite delimited_eq. intros Hp. inv_bind.
  repeat match goal with
  | Ht : tag _ _ = Ret _ |- _ => apply tag_shorter in Ht; cbn in Ht
  | Hu : nom_i64 ?j = Ret _ |- _ =>
      destruct (i64_inv j) as [[e He]|(d & r & z & Hz & -> & Hd & ?)]; [congruence|];
      rewrite Hu in Hz; injection Hz as -> ->; clear Hu
  end.
  rewrite length_app in *. destruct d; [done|]. cbn in *. split; [lia|by constructor].
Qed.

Lemma parse_int_total i : parse_int i ≠ Panic.
Proof.
  unfold parse_int. rewrite delimited_eq. pose proof (tag_total (bs "i") i) as Ht.
  destruct (tag (bs "i") i) as [[r1 x]|e|]; [|done|done]. rewrite bind_ret.
  destruct (i64_inv r1) as [[e He]|(d & r & z & Hz & -> & Hd & ?)]; [by rewrite He|].
  rewrite Hz, bind_ret. pose proof (tag_total (bs "e") r) as Ht2.
  by destruct (tag (bs "e") r) as [[r2 y]|e|].
Qed.

Lemma parse_bytestring_inv i rest b : parse_bytestring i = Ret (rest, b) →
  (length rest < length i)%nat ∧ wf_bencode b.
Proof.
  unfold parse_bytestring. intros Hp. inv_bind.
  match goal with Hi : inner_parse_bytestring _ = Ret _ |- _ => apply inner_parse_inv in Hi as [? ?] end.
  split; [done|by constructor].
Qed.

(** An entry of a dictionary. *)
Definition wf_pair (kv : list byte * Bencode) : Prop := zlen kv.1 < 2 ^ 32 ∧ wf_bencode kv.2.

(** A parsed value is well formed and takes some of the input. *)
Lemma parse_type_inv st : ∀ i rest b, parse_type st i = Ret (rest, b) →
  (length rest < length i)%nat ∧ wf_bencode b.
Proof.
  induction st as [|st IH]; intros i rest b Hp; [done|]. cbn [parse_type] in Hp.
  apply alt_inv in Hp as (p & Hin & Hp); [|done|done].
  rewrite !elem_of_cons, elem_of_nil in Hin.
  destruct Hin as [->|[->|[->|[->|[]]]]].
  - by apply parse_int_inv.
  - unfold parse_list in Hp. inv_bind.
    match goal with
    | Ht : tag _ _ = Ret _, Hm : many_till _ _ ?j = Ret _ |- _ =>
        apply tag_shorter in Ht; cbn in Ht;
        apply (many_till_inv _ wf_bencode (length j)) with (n := length j) in Hm as [? ?];
          [|intros j' k x _; apply IH|lia|lia]
    end.
    split; [lia|by constructor].
  - unfold parse_dictionary in Hp. inv_bind.
    match goal with
    | Ht : tag _ _ = Ret _, Hm : many_till _ _ ?j = Ret _ |- _ =>
        apply tag_shorter in Ht; cbn in Ht;
        apply (many_till_inv _ wf_pair (length j)) with (n := length j) in Hm as [? Hq]; [| |lia|lia]
    end.
    + destruct (bt_collect_spec wf_pair _ Hq) as [Hs HQ]. split; [lia|].
      constructor; [done|eapply Forall_impl; [exact HQ|]; by intros ? []..].
    + intros j' k [kk v] _ Hpair. unfold parse_pair in Hpair. inv_bind.
      match goal with
      | Hi : inner_parse_bytestring _ = Ret _, Hv : parse_type _ _ = Ret _ |- _ =>
          apply inner_parse_inv in Hi as [? ?]; apply IH in Hv as [? ?]
      end.
      split; [lia|done].
  - by apply parse_bytestring_inv.
Qed.

Lemma parse_pair_inv st j k x : parse_pair (parse_type st) j = Ret (k, x) → (length k < length j)%nat.
Proof.
  unfold parse_pair. intros Hp. inv_bind.
  match goal with
  | Hi : inner_parse_bytestring _ = Ret _, Hv : parse_type _ _ = Ret _ |- _ =>
      apply inner_parse_inv in Hi as [? _]; apply parse_type_inv in Hv as [? _]
  end.
  lia.
Qed.

(** The depth of recursion never exceeds the length of the input. *)
Lemma parse_type_total st : ∀ i, (length i < st)%nat → parse_type st i ≠ Panic.
Proof.
  induction st as [|st IH]; intros i Hi Hp; [lia|]. cbn [parse_type] in Hp.
  apply alt_inv in Hp as (p & Hin & Hp); [|done|done].
  rewrite !elem_of_cons, elem_of_nil in Hin.
  destruct Hin as [->|[->|[->|[->|[]]]]].
  - by apply parse_int_total in Hp.
  - unfold parse_list in Hp. pose proof (tag_total (bs "l") i) as Ht.
    destruct (tag (bs "l") i) as [[r x]|e|] eqn:Htag; [|done|done]. rewrite bind_ret in Hp.
    apply tag_shorter in Htag. cbn in Htag.
    assert (many_till (parse_type st) (tag (bs "e")) r ≠ Panic) as Hm.
    { apply (many_till_total _ (λ _, True) (length r)) with (n := length r); [| |done|done].
      - intros j k y _ Hj. by apply parse_type_inv in Hj as [? _].
      - intros j Hj. apply IH. lia. }
    by destruct (many_till _ _ r) as [[r' [xs o]]|e|].
  - unfold parse_dictionary in Hp. pose proof (tag_total (bs "d") i) as Ht.
    destruct (tag (bs "d") i) as [[r x]|e|] eqn:Htag; [|done|done]. rewrite bind_ret in Hp.
    apply tag_shorter in Htag. cbn in Htag.
    assert (many_till (parse_pair (parse_type st)) (tag (bs "e")) r ≠ Panic) as Hm.
    { apply (many_till_total _ (λ _, True) (length r)) with (n := length r); [| |done|done].
      - intros j k y _ Hj. by apply parse_pair_inv in Hj.
      - intros j Hj. unfold parse_pair. pose proof (inner_parse_total j) as Hin.
        destruct (inner_parse_bytestring j) as [[k b]|e|] eqn:Hb; [|done|done]. rewrite bind_ret.
        apply inner_parse_inv in Hb as [? _]. pose proof (IH k ltac:(lia)) as Hk.
        by destruct (parse_type st k) as [[? ?]|e|]. }
    by destruct (many_till _ _ r) as [[r' [xs o]]|e|].
  - unfold parse_bytestring in Hp. pose proof (inner_parse_total i) as Hb.
    by destruct (inner_parse_bytestring i) as [[? ?]|e|].
Qed.

(** A list begins with a call one level deeper. *)
Lemma parse_type_overflow st : ∀ n rest, (st < n)%nat → parse_type st (replicate n x6c ++ rest) = Panic.
Proof.
  induction st as [|st IH]; intros [|n] rest Hn; [done|done|lia|].
  cbn [parse_type replicate app]. set (i := replicate n x6c ++ rest).
  assert (∃ e, parse_int (x6c :: i) = Err e) as [e He].
  { unfold parse_int. rewrite delimited_eq.
    destruct (tag_err (bs "i") (x6c :: i)) as [e ->]; [by intros [? [=]]|by eexists]. }
  assert (parse_list (parse_type st) (x6c :: i) = Panic) as Hl.
  { unfold parse_list. change (x6c :: i) with (bs "l" ++ i). rewrite tag_ok, bind_ret.
    destruct (tag_err (bs "e") i) as [e' He'].
    { unfold i. destruct n; [lia|]. by intros [? [=]]. }
    rewrite (till_overflow _ _ _ _ He'); [done|]. apply IH. lia. }
  rewrite (alt_next _ _ _ _ e He), alt_stop; [done|]. by rewrite Hl.
Qed.
End parse_facts.

(** * Properties *)

Section bencode_properties.
Context `{NomOk}.

Lemma parse_bencode_wf stack i b : parse_bencode stack i = Ret b → wf_bencode b.
Proof.
  unfold parse_bencode. intros Hp.
  destruct (parse_type stack i) as [[rest b']|e|] eqn:Ht; [|done|done]. injection Hp as ->.
  by apply parse_type_inv in Ht as [_ ?].
Qed.

(** C23. Parsing the encoding of a value, whatever follows it, gives
    the value back, with room on the stack for as many calls as the value is deep. *)
Theorem bencode_roundtrip b rest stack : wf_bencode b → (depth b ≤ stack)%nat →
  parse_bencode stack (encode b ++ rest) = Ret b.
Proof. intros Hb Hs. unfold parse_bencode. by rewrite parse_encode. Qed.

(** C24. The parser calls itself once for each level of nesting, and
    nothing bounds the level. It returns, with a value or an error, on every input that is
    shorter than the calls the stack has room for; and on an input that begins with more
    letters "l" than that, the stack overflows. *)
Theorem parse_bencode_total i stack :
  ((length i < stack)%nat → parse_bencode stack i ≠ Panic) ∧
  (∀ n rest, (stack < n)%nat → i = replicate n x6c ++ rest → parse_bencode stack i = Panic).
Proof.
  split.
  - intros Hs. unfold parse_bencode. pose proof (parse_type_total stack i Hs).
    by destruct (parse_type stack i) as [[rest b]|e|].
  - intros n rest Hn ->. unfold parse_bencode. by rewrite parse_type_overflow.
Qed.

(** What the parser accepts is well formed, dictionaries with
    strictly increasing keys included; encoding it gives canonical bytes, that parse to
    the same value. *)
Theorem parse_bencode_canonical i stack b : parse_bencode stack i = Ret b →
  wf_bencode b ∧ ∀ stack', (depth b ≤ stack')%nat → parse_bencode stack' (encode b) = Ret b.
Proof.
  unfold parse_bencode. intros Hp.
  destruct (parse_type stack i) as [[rest b']|e|] eqn:Ht; [|done|done]. injection Hp as ->.
  apply parse_type_inv in Ht as [_ Hwf]. split; [done|]. intros st Hst.
  rewrite <-(app_nil_r (encode b)). by rewrite parse_encode.
Qed.
End bencode_properties.

(** * Concrete combinators *)

Module ListNom.

Fixpoint digits (i : list byte) : list byte * list byte :=
  match i with
  | b :: r => if is_digit b then let '(d, r') := digits r in (b :: d, r') else ([], i)
  | [] => ([], [])
  end.

Definition number (d : list byte) : Z := fold_left (λ n b, n * 10 + (byte_val b - 48)) d 0.

Definition unsigned (i : list byte) : option (Z * list byte) :=
  let '(d, r) := digits i in
  match d with [] => None | _ => Some (number d, r) end.

Definition in_range (lo hi : Z) (n : option (Z * list byte)) : outcome unit (list byte * Z) :=
  match n with
  | Some (z, r) => if (lo <=? z) && (z <? hi) then Ret (r, z) else Err tt
  | None => Err tt
  end.

Definition signed (i : list byte) : option (Z * list byte) :=
  match i with
  | "-"%byte :: r => '(z, r) ← unsigned r; Some (- z, r)
  | "+"%byte :: r => unsigned r
  | _ => unsigned i
  end.

Fixpoint alternatives {A} (ps : list (parser unit A)) : parser unit A := λ i,
  match ps with
  | [] => Err tt
  | p :: ps => match p i with Err e => match ps with [] => Err e | _ => alternatives ps i end | r => r end
  end.

Fixpoint till {A B} (fuel : nat) (f : parser unit A) (g : parser unit B) : parser unit (list A * B) := λ i,
  match fuel with
  | O => Err tt
  | S fuel =>
      match g i with
      | Ret (r, o) => Ret (r, ([], o))
      | Panic => Panic
      | Err _ =>
          match f i with
          | Ret (r, x) =>
              if (length r <? length i)%nat then '(r, (xs, o)) ← till fuel f g r; Ret (r, (x :: xs, o))
              else Err tt
          | Err e => Err e
          | Panic => Panic
          end
      end
  end.

#[export] Instance list_nom : Nom := {|
  nom_error := unit;
  nom_error_to_string _ := bs "Parsing Error";
  tag t i := if decide (take (length t) i = t) then Ret (drop (length t) i, t) else Err tt;
  take_bytes n i := if n <=? zlen i then Ret (drop (Z.to_nat n) i, take (Z.to_nat n) i) else Err tt;
  nom_i64 i := in_range (- 2 ^ 63) (2 ^ 63) (signed i);
  nom_u32 i := in_range 0 (2 ^ 32) (unsigned i);
  delimited A B C f g h i := '(i, _) ← f i; '(i, x) ← g i; '(i, _) ← h i; Ret (i, x);
  alt A := alternatives;
  many_till A B f g i := till (S (length i)) f g i;
|}.

Lemma digits_app d rest : Forall (λ b, is_digit b = true) d → no_digit rest →
  digits (d ++ rest) = (d, rest).
Proof.
  intros Hd Hr. induction Hd as [|b d Hb _ IH].
  - destruct rest as [|b rest]; [done|]. cbn in *. by rewrite Hr.
  - cbn. by rewrite Hb, IH.
Qed.

Lemma digits_spec i : i = (digits i).1 ++ (digits i).2.
Proof.
  induction i as [|b i IH]; [done|]. cbn. destruct (is_digit b); [|done].
  destruct (digits i) as [d r]. cbn in *. by rewrite IH.
Qed.

Lemma number_snoc d b : number (d ++ [b]) = number d * 10 + (byte_val b - 48).
Proof. unfold number. by rewrite fold_left_app. Qed.

Lemma dec_nat_spec fuel n : 0 ≤ n < 10 ^ Z.of_nat fuel →
  Forall (λ b, is_digit b = true) (dec_nat fuel n) ∧ number (dec_nat fuel n) = n.
Proof.
  revert n. induction fuel as [|fuel IH]; intros n Hn; [cbn in *; split; [constructor|lia]|].
  cbn [dec_nat]. pose proof (Z.div_mod n 10 ltac:(lia)). pose proof (Z.mod_pos_bound n 10 ltac:(lia)).
  destruct (Z.ltb_spec n 10) as [Hl|Hl].
  - split; [repeat constructor; apply digit_is_digit; lia|].
    change (number [digit n]) with (0 * 10 + (byte_val (digit n) - 48)).
    unfold digit. rewrite byte_val_of, Z.mod_small by lia. lia.
  - rewrite Nat2Z.inj_succ, Z.pow_succ_r in Hn by lia.
    destruct (IH (n / 10)) as [Hd Hv]; [lia|]. split.
    + apply Forall_app. split; [done|]. repeat constructor. apply digit_is_digit. lia.
    + rewrite number_snoc, Hv. unfold digit. rewrite byte_val_of, (Z.mod_small (48 + _)) by lia. lia.
Qed.

Lemma unsigned_dec n rest : 0 ≤ n < 10 ^ 20 → no_digit rest →
  unsigned (dec_nat 20 n ++ rest) = Some (n, rest).
Proof.
  intros Hn Hr. destruct (dec_nat_spec 20 n) as [Hd Hv]; [exact Hn|].
  destruct (dec_nat_cons 20 n) as (b & l & Hc & _); [lia|lia|].
  unfold unsigned. rewrite digits_app by done. rewrite Hv. by rewrite Hc.
Qed.

Lemma unsigned_inv i z r : unsigned i = Some (z, r) → ∃ d, i = d ++ r ∧ d ≠ [].
Proof.
  unfold unsigned. pose proof (digits_spec i) as Hi. destruct (digits i) as [d r']. cbn in Hi.
  destruct d as [|b d]; [done|]. intros [= <- <-]. by exists (b :: d).
Qed.

Lemma signed_inv i z r : signed i = Some (z, r) → ∃ d, i = d ++ r ∧ d ≠ [].
Proof.
  assert (∀ c j, (∃ d, j = d ++ r ∧ d ≠ []) → ∃ d, c :: j = d ++ r ∧ d ≠ []) as Hcons.
  { intros c j (d & -> & _). by exists (c :: d). }
  unfold signed. destruct i as [|b i]; [intros ?; by eapply unsigned_inv|].
  destruct b; try (intros ?; by eapply unsigned_inv).
  - intros Hu. apply Hcons. by eapply unsigned_inv.
  - intros ([z' r'] & Hu & [= _ ->])%bind_Some. apply Hcons. by eapply unsigned_inv.
Qed.

Lemma till_fuel {A B} (f : parser unit A) (g : parser unit B) fuel : ∀ fuel' i,
  (length i < fuel)%nat → (length i < fuel')%nat → till fuel f g i = till fuel' f g i.
Proof.
  induction fuel as [|fuel IH]; intros [|fuel'] i Hf Hf'; [lia..|]. cbn [till].
  destruct (g i) as [[r o]|e|]; [done| |done]. destruct (f i) as [[r x]|e1|]; [|done|done].
  destruct (Nat.ltb_spec (length r) (length i)); [|done]. by rewrite (IH fuel' r) by lia.
Qed.

Lemma signed_dec z rest : - 2 ^ 63 ≤ z < 2 ^ 63 → no_digit rest → signed (dec z ++ rest) = Some (z, rest).
Proof.
  intros Hz Hr. unfold dec. destruct (Z.ltb_spec z 0) as [Hn|Hn].
  - change (signed ((bs "-" ++ dec_nat 20 (- z)) ++ rest)) with
      ('(z, r) ← unsigned (dec_nat 20 (- z) ++ rest); Some (- z, r)).
    rewrite unsigned_dec by (done || lia). cbn. f_equal. f_equal. lia.
  - destruct (dec_nat_cons 20 z) as (b & l & Hc & Hb); [lia|lia|].
    rewrite <-(unsigned_dec z rest) by (done || lia). rewrite Hc. cbn [app signed].
    assert (is_digit b = true) as Hdig by (apply Hb; lia). by destruct b.
Qed.

#[export] Instance list_nom_ok : NomOk list_nom.
Proof.
  split; cbn [tag take_bytes nom_i64 nom_u32 delimited alt many_till list_nom nom_error].
  - intros t rest. by rewrite take_app_length, decide_True, drop_app_length.
  - intros t i Hn. rewrite decide_False; [by eexists|]. intros Ht. apply Hn.
    exists (drop (length t) i). rewrite <-Ht at 1. by rewrite take_drop.
  - intros a rest. rewrite (proj2 (Z.leb_le _ _)) by (rewrite zlen_app; zlia).
    unfold zlen. by rewrite Nat2Z.id, take_app_length, drop_app_length.
  - intros n i Hn. rewrite (proj2 (Z.leb_gt _ _)) by done. by eexists.
  - intros z rest Hz Hr. rewrite signed_dec by done. cbn [in_range].
    by rewrite (proj2 (Z.leb_le _ _)), (proj2 (Z.ltb_lt _ _)) by lia.
  - intros z rest Hz Hr. unfold dec. rewrite (proj2 (Z.ltb_ge z 0)) by lia.
    rewrite unsigned_dec by (done || lia). cbn [in_range].
    by rewrite (proj2 (Z.leb_le _ _)), (proj2 (Z.ltb_lt _ _)) by lia.
  - intros i. destruct (signed i) as [[z r]|] eqn:Hs; cbn [in_range]; [|by left; eexists].
    destruct (Z.leb_spec (- 2 ^ 63) z), (Z.ltb_spec z (2 ^ 63)); cbn [andb]; try (by left; eexists).
    right. apply signed_inv in Hs as (d & -> & Hd). by exists d, r, z.
  - intros i. destruct (unsigned i) as [[z r]|] eqn:Hs; cbn [in_range]; [|by left; eexists].
    destruct (Z.leb_spec 0 z), (Z.ltb_spec z (2 ^ 32)); cbn [andb]; try (by left; eexists).
    right. apply unsigned_inv in Hs as (d & -> & Hd). by exists d, r, z.
  - done.
  - intros A p ps i Hp. cbn [alternatives]. destruct (p i) as [x|e|]; [done| |done].
    exfalso. by apply (Hp e).
  - intros A p q ps i e Hp. cbn [alternatives]. by rewrite Hp.
  - intros A p i e Hp. cbn [alternatives]. rewrite Hp. by eexists.
  - intros A B f g i rest o Hg. cbn [till]. by rewrite Hg.
  - intros A B f g i e rest x Hg Hf Hl. cbn [till]. rewrite Hg, Hf, (proj2 (Nat.ltb_lt _ _)) by done.
    rewrite (till_fuel f g (length i) (S (length rest)) rest) by lia. done.
  - intros A B f g i e rest x Hg Hf Hl. cbn [till]. rewrite Hg, Hf, (proj2 (Nat.ltb_ge _ _)) by lia.
    by eexists.
  - intros A B f g i e e1 Hg Hf. cbn [till]. rewrite Hg, Hf. by eexists.
  - intros A B f g i e Hg Hf. cbn [till]. by rewrite Hg, Hf.
Qed.
End ListNom.

Module BencodeExamples.
Import ListNom.

Definition sample : Bencode :=
  Dictionary [(bs "meaning", Int 42); (bs "wiki", BList [ByteString (bs "bencode"); Int (-20)])].

Lemma sample_wf : wf_bencode sample.
Proof.
  constructor.
  - repeat constructor.
  - repeat constructor.
  - repeat (constructor; cbn); lia.
Qed.

Example encode_sample : encode sample = bs "d7:meaningi42e4:wikil7:bencodei-20eee".
Proof. vm_compute. reflexivity. Qed.

(** The unit tests of the source. *)
Example test_parse_int_neg_42 : parse_bencode 9 (bs "i-42e") = Ret (Int (-42)).
Proof. vm_compute. reflexivity. Qed.
Example test_bs_empty : parse_bencode 9 (bs "0:") = Ret (ByteString []).
Proof. vm_compute. reflexivity. Qed.
Example test_list : parse_bencode 9 (bs "l7:bencodei-20ee") = Ret (BList [ByteString (bs "bencode"); Int (-20)]).
Proof. vm_compute. reflexivity. Qed.
Example test_empty_dict : parse_bencode 9 (bs "de") = Ret (Dictionary []).
Proof. vm_compute. reflexivity. Qed.

(** Keys out of order are sorted, the last of equal keys stays. *)
Example unsorted_dict : parse_bencode 9 (bs "d1:bi1e1:ai2e1:bi3ee") =
  Ret (Dictionary [(bs "a", Int 2); (bs "b", Int 3)]).
Proof. vm_compute. reflexivity. Qed.

Lemma bencode_roundtrip_witness :
  parse_bencode 3 (bs "d7:meaningi42e4:wikil7:bencodei-20eee" ++ bs "junk") = Ret sample.
Proof.
  apply (bencode_roundtrip sample (bs "junk") 3); [exact sample_wf|vm_compute; lia].
Defined.

Lemma parse_bencode_total_witness :
  parse_bencode 9 (bs "lllll") ≠ Panic ∧ parse_bencode 4 (bs "lllll") = Panic.
Proof.
  split.
  - apply (parse_bencode_total (bs "lllll") 9). vm_compute. lia.
  - apply (parse_bencode_total (bs "lllll") 4) with (n := 5%nat) (rest := []); [lia|reflexivity].
Defined.

Lemma parse_bencode_canonical_witness :
  parse_bencode 2 (bs "d1:ai2e1:bi3ee") = Ret (Dictionary [(bs "a", Int 2); (bs "b", Int 3)]).
Proof.
  apply (parse_bencode_canonical (bs "d1:bi1e1:ai2e1:bi3ee") 9
    (Dictionary [(bs "a", Int 2); (bs "b", Int 3)])); [vm_compute; reflexivity|vm_compute; lia].
Defined.
End BencodeExamples.
