(* ===== verification/Metainfo.v ===== *)
(** From bencoded values to torrents and tracker answers:
    [src/src/model/torrent.rs] and [src/src/model/tracker.rs].

    A dictionary's keys become [String]s by [String::from_utf8_lossy], and the
    entries a [HashMap] or [BTreeMap] from which fields are taken by name. The
    digest of the [sha1] crate is the parameter [sha1]. *)
From S2P Require Import Prelude ByteStr Model Ip Bencode Allocation.
From Stdlib Require Import ZArith Lia.

(** * [String::from_utf8_lossy]

    Valid sequences are copied; each maximal prefix of a valid sequence that is
    not one is replaced by U+FFFD. *)
Definition between (lo b hi : Z) : bool := (lo <=? b) && (b <=? hi).
Definition continuation (b : byte) : bool := between 128 (byte_val b) 191.

(** May [b1] follow the first byte [b0] of a sequence of three or four? *)
Definition second_ok (b0 b1 : byte) : bool :=
  let v := byte_val b1 in
  if byte_val b0 =? 224 then between 160 v 191
  else if byte_val b0 =? 237 then between 128 v 159
  else if byte_val b0 =? 240 then between 144 v 191
  else if byte_val b0 =? 244 then between 128 v 143
  else between 128 v 191.

(** The next sequence: is it valid, and how many bytes it takes after the
    first. *)
Definition utf8_next (b0 : byte) (r : list byte) : bool * nat :=
  let v := byte_val b0 in
  if v <? 128 then (true, 0%nat)
  else if between 194 v 223 then
    match r with b1 :: _ => if continuation b1 then (true, 1%nat) else (false, 0%nat) | [] => (false, 0%nat) end
  else if between 224 v 239 then
    match r with
    | b1 :: r =>
        if second_ok b0 b1 then
          match r with b2 :: _ => if continuation b2 then (true, 2%nat) else (false, 1%nat) | [] => (false, 1%nat) end
        else (false, 0%nat)
    | [] => (false, 0%nat)
    end
  else if between 240 v 244 then
    match r with
    | b1 :: r =>
        if second_ok b0 b1 then
          match r with
          | b2 :: r =>
              if continuation b2 then
                match r with b3 :: _ => if continuation b3 then (true, 3%nat) else (false, 2%nat) | [] => (false, 2%nat) end
              else (false, 1%nat)
          | [] => (false, 1%nat)
          end
        else (false, 0%nat)
    | [] => (false, 0%nat)
    end
  else (false, 0%nat).

(** U+FFFD in UTF-8. *)
Definition replacement : list byte := [xef; xbf; xbd].

Fixpoint utf8_lossy_loop (fuel : nat) (i : list byte) : list byte :=
  match fuel, i with
  | S fuel, b0 :: r =>
      let '(valid, n) := utf8_next b0 r in
      (if valid : bool then b0 :: take n r else replacement) ++ utf8_lossy_loop fuel (drop n r)
  | _, _ => []
  end.

(** A sequence takes at least one byte. *)
Definition from_utf8_lossy (i : list byte) : list byte := utf8_lossy_loop (length i) i.

(** * Dictionaries *)

Definition convert_dict_keys (eles : list (list byte * Bencode)) : gmap (list byte) Bencode :=
  fold_left (λ m kv, <[from_utf8_lossy kv.1 := kv.2]> m) eles ∅.

(** The same entries, in a [BTreeMap]. *)
Definition map_dict_keys := convert_dict_keys.

Definition get_int (conv : gmap (list byte) Bencode) (k : string) : option Z :=
  match conv !! bs k with Some (Int i) => Some i | _ => None end.
Definition get_bytes (conv : gmap (list byte) Bencode) (k : string) : option (list byte) :=
  match conv !! bs k with Some (ByteString b) => Some b | _ => None end.

(** [let ... else return Err(Error::missing(k))]. *)
Definition required {A} (k : string) (o : option A) : outcome Error A :=
  match o with Some x => Ret x | None => Err (Error_missing k) end.

(** [as_chunks::<20>], on a length that is a multiple of 20. *)
Fixpoint chunks (fuel n : nat) (l : list byte) : list (list byte) :=
  match fuel, l with
  | S fuel, _ :: _ => take n l :: chunks fuel n (drop n l)
  | _, _ => []
  end.

(** * Torrents *)
Section torrent.
Context (sha1 : list byte → list byte).

Definition info_hash_of (bc : Bencode) : list byte := sha1 (encode bc).

Definition parse_pieces (elements : list byte) : outcome Error (list V1Piece) :=
  if negb (zlen elements mod 20 =? 0) then Err WrongType
  else Ret (map mkPiece (chunks (length elements) 20 elements)).

Definition V1TorrentInfo_try_from (bc : Bencode) : outcome Error V1TorrentInfo :=
  let info_hash := info_hash_of bc in
  match bc with
  | Dictionary eles =>
      let conv := convert_dict_keys eles in
      length ← required "length" (get_int conv "length");
      piece_length ← required "piece length" (get_int conv "piece length");
      elements ← required "pieces" (get_bytes conv "pieces");
      pieces ← parse_pieces elements;
      name ← required "name" (get_bytes conv "name");
      Ret (mkInfo length piece_length pieces (from_utf8_lossy name) info_hash)
  | _ => Err WrongType
  end.

Definition V1Torrent_try_from (bc : Bencode) : outcome Error V1Torrent :=
  match bc with
  | Dictionary eles =>
      let conv := convert_dict_keys eles in
      d ← required "info" (conv !! bs "info");
      info ← V1TorrentInfo_try_from d;
      announce ← required "announce" (get_bytes conv "announce");
      Ret (mkTorrent info (from_utf8_lossy announce) [])
  | _ => Err WrongType
  end.
End torrent.

(** * Tracker answers *)
Record TrackerPeer := mkTrackerPeer { address : IpAddr; port : Z }.

Definition socket_addr (p : TrackerPeer) : SocketAddr :=
  match address p with
  | V4 a b c d => SocketV4 a b c d (port p)
  | V6 groups => SocketV6 groups (port p) 0 0
  end.

Record TrackerResponse := mkTrackerResponse {
  interval : Z;
  tracker_peers : list TrackerPeer;
  complete : option Z;
  incomplete : option Z;
}.

Definition TrackerPeer_try_from (value : Bencode) : outcome Error TrackerPeer :=
  match value with
  | Dictionary dict =>
      let dict := map_dict_keys dict in
      match get_bytes dict "ip", get_int dict "port" with
      | Some ip, Some port =>
          match ip_from_str (from_utf8_lossy ip) with
          | inr ip => Ret (mkTrackerPeer ip (as_u16 port))
          | inl err => Err (BencodeParse err)
          end
      | _, _ => Err (Error_missing "missing peerid, ip or port")
      end
  | _ => Err WrongType
  end.

(** [flatten] keeps the values of the results that are not errors. *)
Definition flatten_results {A} (l : list (outcome Error A)) : list A :=
  omap (λ r, match r with Ret x => Some x | _ => None end) l.

Definition TrackerResponse_try_from (value : Bencode) : outcome Error TrackerResponse :=
  match value with
  | Dictionary dict =>
      let dict := map_dict_keys dict in
      match dict !! bs "interval", dict !! bs "peers" with
      | Some (Int interval), Some (BList peers) =>
          Ret (mkTrackerResponse interval (flatten_results (map TrackerPeer_try_from peers))
                 (get_int dict "complete") (get_int dict "incomplete"))
      | _, _ => Err WrongType
      end
  | _ => Err WrongType
  end.

(** * Lemmas *)

Definition ascii (k : list byte) : Prop := Forall (λ b, byte_val b < 128) k.

Lemma utf8_next_ascii b r : byte_val b < 128 → utf8_next b r = (true, 0%nat).
Proof. intros Hb. unfold utf8_next. by rewrite (proj2 (Z.ltb_lt _ _)). Qed.

Lemma lossy_ascii fuel k : (length k ≤ fuel)%nat → ascii k → utf8_lossy_loop fuel k = k.
Proof.
  revert fuel. induction k as [|b k IH]; intros [|fuel] Hl Hk; cbn in Hl; try done; [lia|].
  apply Forall_cons in Hk as [Hb Hk]. cbn. rewrite utf8_next_ascii by done. cbn.
  rewrite take_0, drop_0. cbn. by rewrite IH by (done || lia).
Qed.

(** Nothing else is printed as an ASCII string. *)
Lemma lossy_ascii_inv fuel : ∀ i k, (length i ≤ fuel)%nat → ascii k →
  utf8_lossy_loop fuel i = k → i = k.
Proof.
  induction fuel as [|fuel IH]; intros [|b i] k Hl Hk Hi; cbn in Hl; try (by subst); [lia|].
  cbn in Hi. destruct (Z.ltb_spec (byte_val b) 128) as [Hb|Hb].
  - rewrite utf8_next_ascii in Hi by done. cbn in Hi. rewrite take_0, drop_0 in Hi. cbn in Hi.
    subst k. apply Forall_cons in Hk as [_ Hk]. f_equal. apply (IH i); [lia|done|done].
  - exfalso. destruct (utf8_next b i) as [[] n]; cbn in Hi; subst k.
    + apply Forall_cons in Hk as [? _]. lia.
    + apply Forall_cons in Hk as [Hx _]. vm_compute in Hx. discriminate.
Qed.

Lemma from_utf8_lossy_ascii k : ascii k → from_utf8_lossy k = k.
Proof. by apply lossy_ascii. Qed.

Lemma from_utf8_lossy_key i k : ascii k → from_utf8_lossy i = k ↔ i = k.
Proof.
  intros Hk. split; [by apply lossy_ascii_inv|]. intros ->. by apply from_utf8_lossy_ascii.
Qed.

(** Looking up a field by an ASCII name finds the entry with that key. *)
Lemma convert_lookup d k v : NoDup d.*1 → ascii k →
  convert_dict_keys d !! k = Some v ↔ (k, v) ∈ d.
Proof.
  intros Hnd Hk. unfold convert_dict_keys.
  induction d as [|[k' v'] d IH] using rev_ind; [cbn; rewrite lookup_empty; set_solver|].
  rewrite fmap_app in Hnd. apply NoDup_app in Hnd as (Hnd & Hdis & _).
  rewrite fold_left_app. cbn [fold_left fst snd].
  rewrite elem_of_app, list_elem_of_singleton.
  destruct (decide (from_utf8_lossy k' = k)) as [He|Hne].
  - rewrite He, lookup_insert_eq. apply (proj1 (from_utf8_lossy_key k' k Hk)) in He. subst k. split.
    + intros [= ->]. by right.
    + intros [Hin|Heq]; [|by injection Heq as ->]. exfalso. apply (Hdis k'); [|set_solver].
      apply list_elem_of_fmap. by exists (k', v).
  - rewrite lookup_insert_ne, IH by done. split; [by left|]. intros [?|Heq]; [done|].
    injection Heq as -> ->. by rewrite from_utf8_lossy_ascii in Hne.
Qed.

(** What is found in a dictionary is well formed when the dictionary is. *)
Lemma convert_wf d : wf_bencode (Dictionary d) → map_Forall (λ _, wf_bencode) (convert_dict_keys d).
Proof.
  intros Hwf. assert (Forall (λ kv, wf_bencode kv.2) d) as Hv by (by inversion Hwf). clear Hwf.
  unfold convert_dict_keys.
  assert (map_Forall (λ _, wf_bencode) (∅ : gmap (list byte) Bencode)) as Hm by apply map_Forall_empty.
  revert Hm. generalize (∅ : gmap (list byte) Bencode).
  induction Hv as [|kv d Hkv _ IH]; intros m Hm; [done|]. apply IH.
  by apply map_Forall_insert_2.
Qed.

Lemma get_int_wf d k z : wf_bencode (Dictionary d) →
  get_int (convert_dict_keys d) k = Some z → - 2 ^ 63 ≤ z < 2 ^ 63.
Proof.
  intros Hwf. unfold get_int. destruct (convert_dict_keys d !! bs k) as [v|] eqn:Hk; [|done].
  apply (convert_wf d Hwf) in Hk. destruct v; try done. intros [= <-]. by inversion Hk.
Qed.

Lemma sorted_NoDup {A} (d : list (list byte * A)) : keys_sorted d → NoDup d.*1.
Proof.
  induction 1 as [|[k v] d Hs IH Hx]; cbn; constructor; [|done].
  intros (x & -> & Hin)%list_elem_of_fmap. eapply Forall_forall in Hx; [|done]. cbn in Hx.
  by rewrite bytes_ltb_irrefl in Hx.
Qed.

Lemma get_int_spec d k z : NoDup d.*1 → ascii (bs k) →
  get_int (convert_dict_keys d) k = Some z ↔ (bs k, Int z) ∈ d.
Proof.
  intros Hnd Hk. rewrite <-convert_lookup by done. unfold get_int.
  destruct (convert_dict_keys d !! bs k) as [[]|]; naive_solver.
Qed.

Lemma get_bytes_spec d k b : NoDup d.*1 → ascii (bs k) →
  get_bytes (convert_dict_keys d) k = Some b ↔ (bs k, ByteString b) ∈ d.
Proof.
  intros Hnd Hk. rewrite <-convert_lookup by done. unfold get_bytes.
  destruct (convert_dict_keys d !! bs k) as [[]|]; naive_solver.
Qed.

Lemma bind_required {A B} k (o : option A) (f : A → outcome Error B) r :
  (required k o ≫= f) = Ret r ↔ ∃ x, o = Some x ∧ f x = Ret r.
Proof. destruct o; cbn; naive_solver. Qed.

Lemma chunks_spec n fuel : (0 < n)%nat → ∀ l, (length l ≤ fuel)%nat → (length l mod n = 0)%nat →
  concat (chunks fuel n l) = l ∧ Forall (λ c, length c = n) (chunks fuel n l).
Proof.
  intros Hn. induction fuel as [|fuel IH]; intros [|b l] Hl Hm; try (split; [done|constructor]);
    [cbn in Hl; lia|].
  set (l' := b :: l) in *. assert (n ≤ length l')%nat as Hge.
  { pose proof (Nat.div_mod_eq (length l') n). rewrite Hm in *.
    destruct (length l' / n)%nat eqn:Hq; [|nia]. subst l'. cbn in *. lia. }
  change (chunks (S fuel) n l') with (take n l' :: chunks fuel n (drop n l')).
  destruct (IH (drop n l')) as [Hc Hf].
  - rewrite length_drop. subst l'. cbn in *. lia.
  - rewrite length_drop. replace (length l') with (length l' - n + 1 * n)%nat in Hm by lia.
    by rewrite Nat.Div0.mod_add in Hm.
  - cbn [concat]. rewrite Hc, take_drop. split; [done|]. constructor; [|done].
    rewrite length_take. lia.
Qed.

Lemma parse_pieces_spec e l : parse_pieces e = Ret l ↔
  concat (map hash l) = e ∧ Forall (λ p, length (hash p) = 20%nat) l.
Proof.
  assert (∀ k : list (list byte), Forall (λ c, length c = 20%nat) k →
    length (concat k) = (length k * 20)%nat) as Hlen.
  { induction 1 as [|c k Hc _ IH]; [done|]. cbn [concat length]. rewrite length_app, IH. lia. }
  unfold parse_pieces. split.
  - destruct (Z.eqb_spec (zlen e mod 20) 0) as [Hm|Hm]; cbn [negb]; [|done]. intros [= <-].
    destruct (chunks_spec 20 (length e) ltac:(lia) e ltac:(lia)) as [Hc Hf].
    { unfold zlen in Hm. apply Nat2Z.inj. rewrite Nat2Z.inj_mod. exact Hm. }
    rewrite map_map. cbn [hash]. rewrite map_id. split; [done|]. by apply Forall_map.
  - intros [Hc Hf]. apply (Forall_map hash (λ c, length c = 20%nat)) in Hf.
    assert (length e = length (map hash l) * 20)%nat as He by (rewrite <-Hc; by apply Hlen).
    assert (zlen e mod 20 = 0) as Hm.
    { unfold zlen. rewrite He, Nat2Z.inj_mul. apply Z.mod_mul. lia. }
    rewrite Hm. cbn [Z.eqb negb]. f_equal.
    assert (∀ fuel (k : list (list byte)), Forall (λ c, length c = 20%nat) k → (length k * 20 ≤ fuel)%nat →
      chunks fuel 20 (concat k) = k) as Hch.
    { induction fuel as [|fuel IH]; intros [|c k] Hk Hl; try done; [cbn in Hl; lia|].
      apply Forall_cons in Hk as [Hc' Hk]. cbn [concat].
      assert (∃ b r, c ++ concat k = b :: r) as (b & r & Hbr).
      { destruct c; [done|]. by eexists _, _. }
      change (chunks (S fuel) 20 (c ++ concat k)) with
        (match c ++ concat k with _ :: _ => take 20 (c ++ concat k) :: chunks fuel 20 (drop 20 (c ++ concat k)) | [] => [] end).
      rewrite Hbr, <-Hbr, <-Hc', take_app_length, drop_app_length, Hc'.
      f_equal. apply IH; [done|]. cbn in Hl. lia. }
    rewrite <-Hc at 2. rewrite Hch by (done || lia). rewrite map_map.
    by rewrite (map_ext _ id), map_id by by intros [].
Qed.

(** * Properties *)

Section metainfo_properties.
Context (sha1 : list byte → list byte).

(** What the [info] dictionary must hold, for the torrent info it becomes. *)
Definition describes (i : list (list byte * Bencode)) (t : V1TorrentInfo) : Prop :=
  (bs "length", Int (torrent_length t)) ∈ i ∧
  (bs "piece length", Int (piece_length t)) ∈ i ∧
  (bs "pieces", ByteString (concat (map hash (pieces t)))) ∈ i ∧
  Forall (λ p, length (hash p) = 20%nat) (pieces t) ∧
  (∃ n, (bs "name", ByteString n) ∈ i ∧ name t = from_utf8_lossy n) ∧
  torrent_info_hash t = sha1 (encode (Dictionary i)).

Lemma info_try_from_spec i t : keys_sorted i →
  V1TorrentInfo_try_from sha1 (Dictionary i) = Ret t ↔ describes i t.
Proof.
  intros Hs%sorted_NoDup. unfold V1TorrentInfo_try_from, describes, info_hash_of.
  assert (∀ k, ascii (bs k) → ∀ z, get_int (convert_dict_keys i) k = Some z ↔ (bs k, Int z) ∈ i) as Hint
    by (intros; by apply get_int_spec).
  assert (∀ k, ascii (bs k) → ∀ b, get_bytes (convert_dict_keys i) k = Some b ↔ (bs k, ByteString b) ∈ i)
    as Hbytes by (intros; by apply get_bytes_spec).
  rewrite bind_required. setoid_rewrite bind_required. setoid_rewrite bind_required.
  setoid_rewrite bind_ret_inv. setoid_rewrite parse_pieces_spec. setoid_rewrite bind_required.
  setoid_rewrite (Hint "length"); [|repeat constructor].
  setoid_rewrite (Hint "piece length"); [|repeat constructor].
  setoid_rewrite (Hbytes "pieces"); [|repeat constructor].
  setoid_rewrite (Hbytes "name"); [|repeat constructor]. split.
  - intros (len & Hlen & pl & Hpl & e & He & ps & (Hc & Hf) & n & Hn & [= <-]). cbn.
    subst e. split_and!; [done..| |done]. by exists n.
  - intros (Hlen & Hpl & He & Hf & (n & Hn & Hname) & Hh).
    exists (torrent_length t). split; [done|]. exists (piece_length t). split; [done|].
    eexists. split; [exact He|]. exists (pieces t). split; [done|]. exists n. split; [done|].
    destruct t. cbn in *. by subst.
Qed.

Lemma torrent_try_from_parts d t : wf_bencode (Dictionary d) →
  V1Torrent_try_from sha1 (Dictionary d) = Ret t ↔
  ∃ i a, (bs "info", Dictionary i) ∈ d ∧ describes i (info t) ∧
    (bs "announce", ByteString a) ∈ d ∧ announce t = from_utf8_lossy a ∧ announce_list t = [].
Proof.
  intros Hwf. inversion Hwf as [| | |? Hs Hk Hv]; subst.
  pose proof (sorted_NoDup d Hs) as Hnd. unfold V1Torrent_try_from.
  rewrite bind_required. setoid_rewrite bind_ret_inv. setoid_rewrite bind_required.
  setoid_rewrite get_bytes_spec; [|done|repeat constructor].
  setoid_rewrite convert_lookup; [|done|repeat constructor].
  assert (∀ i, (bs "info", Dictionary i) ∈ d → keys_sorted i) as Hsi.
  { intros i Hi. eapply Forall_forall in Hv; [|done]. by inversion Hv. }
  split.
  - intros (x & Hx & inf & Hinf & a & Ha & [= <-]). cbn.
    destruct x as [| | |i]; [done..|]. exists i, a. split_and!; [done| |done|done|done].
    apply info_try_from_spec; [by apply Hsi|done].
  - intros (i & a & Hi & Hd & Ha & Hann & Hal). exists (Dictionary i). split; [done|].
    exists (info t). split; [by apply info_try_from_spec; [apply Hsi|]|].
    exists a. split; [done|]. destruct t. cbn in *. by subst.
Qed.

(** C25. A parsed metainfo file becomes a torrent exactly when it
    has all the fields, with their types, and the pieces' digests come in twenties; the
    torrent has these fields, its pieces are the digests cut apart, and its hash is the
    digest of the encoding of the [info] dictionary. *)
Theorem torrent_try_from_spec d t : wf_bencode (Dictionary d) →
  V1Torrent_try_from sha1 (Dictionary d) = Ret t ↔
  ∃ i a, (bs "info", Dictionary i) ∈ d ∧ describes i (info t) ∧
    (bs "announce", ByteString a) ∈ d ∧ announce t = from_utf8_lossy a ∧ announce_list t = [].
Proof. apply torrent_try_from_parts. Qed.

(** C26. The torrent read from a canonical metainfo file has as its hash
    the digest of the very bytes that the file holds for the key [info]. *)
Theorem info_hash_of_file `{NomOk} d t stack rest : wf_bencode (Dictionary d) →
  (depth (Dictionary d) ≤ stack)%nat →
  (b ← parse_bencode stack (encode (Dictionary d) ++ rest); V1Torrent_try_from sha1 b) = Ret t →
  ∃ before i after, (bs "info", Dictionary i) ∈ d ∧
    encode (Dictionary d) = before ++ bs "4:info" ++ encode (Dictionary i) ++ after ∧
    torrent_info_hash (info t) = sha1 (encode (Dictionary i)).
Proof.
  intros Hwf Hst Hrun. unfold parse_bencode in Hrun. rewrite parse_encode, bind_ret in Hrun by done.
  apply torrent_try_from_parts in Hrun as (i & a & Hi & Hd & _); [|done].
  pose proof Hi as Hin. apply list_elem_of_split in Hi as (d1 & d2 & ->).
  eexists (bs "d" ++ concat (map (λ kv, encode_bs kv.1 ++ encode kv.2) d1)), i, _.
  split; [done|]. split; [|by apply Hd].
  match goal with |- encode (Dictionary ?l) = _ => change (encode (Dictionary l)) with
    (bs "d" ++ concat (map (λ kv, encode_bs kv.1 ++ encode kv.2) l) ++ bs "e") end.
  rewrite map_app, concat_app, map_cons. cbn [concat fst snd].
  change (encode_bs (bs "info")) with (bs "4:info"). rewrite <-!app_assoc. reflexivity.
Qed.
End metainfo_properties.

(** * Properties of the tracker's answer *)

Lemma elem_of_flatten {A} (l : list (outcome Error A)) x : x ∈ flatten_results l ↔ Ret x ∈ l.
Proof.
  unfold flatten_results. rewrite list_elem_of_omap. split.
  - intros ([] & Hin & Hx); [|done..]. by injection Hx as ->.
  - intros Hin. by exists (Ret x).
Qed.

(** What an entry of the answer must hold, for the peer it becomes. *)
Definition locates (e : list (list byte * Bencode)) (p : TrackerPeer) : Prop :=
  ∃ a n, (bs "ip", ByteString a) ∈ e ∧ (bs "port", Int n) ∈ e ∧
    ip_from_str (from_utf8_lossy a) = inr (address p) ∧ port p = n mod 2 ^ 16.

Lemma peer_try_from_spec e p : keys_sorted e →
  TrackerPeer_try_from (Dictionary e) = Ret p ↔ locates e p.
Proof.
  intros Hs%sorted_NoDup. unfold TrackerPeer_try_from, locates, map_dict_keys.
  pose proof (λ b, get_bytes_spec e "ip" b Hs ltac:(repeat constructor)) as Hip.
  pose proof (λ z, get_int_spec e "port" z Hs ltac:(repeat constructor)) as Hport.
  setoid_rewrite <-Hip. setoid_rewrite <-Hport.
  destruct (get_bytes _ "ip") as [a|]; [|naive_solver].
  destruct (get_int _ "port") as [n|]; [|naive_solver].
  destruct (ip_from_str (from_utf8_lossy a)) as [err|x] eqn:Hx; split.
  - done.
  - intros (? & ? & [= <-] & _ & ? & _). congruence.
  - intros [= <-]. exists a, n. done.
  - intros (? & ? & [= <-] & [= <-] & Ha & Hp). destruct p as [a' n']. cbn in *.
    rewrite Hx in Ha. injection Ha as ->. by subst n'.
Qed.

Lemma tracker_response_spec d : wf_bencode (Dictionary d) →
  (∀ n l, (bs "interval", Int n) ∈ d → (bs "peers", BList l) ∈ d →
    ∃ r, TrackerResponse_try_from (Dictionary d) = Ret r ∧ interval r = n ∧
      ∀ p, p ∈ tracker_peers r ↔ ∃ e, Dictionary e ∈ l ∧ locates e p) ∧
  ((∀ n l, (bs "interval", Int n) ∈ d → (bs "peers", BList l) ∉ d) →
    TrackerResponse_try_from (Dictionary d) = Err WrongType).
Proof.
  intros Hwf. inversion Hwf as [| | |? Hs Hk Hv]; subst. pose proof (sorted_NoDup d Hs) as Hnd.
  pose proof (λ v, convert_lookup d (bs "interval") v Hnd ltac:(repeat constructor)) as Hint.
  pose proof (λ v, convert_lookup d (bs "peers") v Hnd ltac:(repeat constructor)) as Hpeers.
  unfold TrackerResponse_try_from, map_dict_keys. split.
  - intros n l Hn Hl. pose proof Hl as Hwl.
    apply Hint in Hn. apply Hpeers in Hl. rewrite Hn, Hl. eexists. split; [done|].
    split; [done|]. intros p. cbn [tracker_peers]. rewrite elem_of_flatten, list_elem_of_fmap.
    eapply Forall_forall in Hv; [|exact Hwl]. cbn in Hv. inversion Hv as [| |? Hf|]; subst.
    rewrite Forall_forall in Hf. split.
    + intros (v & Hp & Hin). destruct v as [| | |e]; [done..|]. exists e. split; [done|].
      apply peer_try_from_spec; [|done]. specialize (Hf _ Hin). by inversion Hf.
    + intros (e & Hin & Hp). exists (Dictionary e). split; [|done]. symmetry.
      apply peer_try_from_spec; [|done]. specialize (Hf _ Hin). by inversion Hf.
  - intros Hno. destruct (convert_dict_keys d !! bs "interval") as [[n| | |]|]; try done.
    destruct (convert_dict_keys d !! bs "peers") as [[| |l|]|]; try done.
    exfalso. by apply (Hno n l); [apply Hint|apply Hpeers].
Qed.

(** A tracker's answer is accepted exactly when it has an
    integer interval and a list of peers; the response has a peer for each entry that is a
    dictionary with a port and a readable address (its port cut to 16 bits), and the other
    entries are passed over without an error. *)
Theorem tracker_peers_collected d : wf_bencode (Dictionary d) →
  (∀ n l, (bs "interval", Int n) ∈ d → (bs "peers", BList l) ∈ d →
    ∃ r, TrackerResponse_try_from (Dictionary d) = Ret r ∧ interval r = n ∧
      ∀ p, p ∈ tracker_peers r ↔ ∃ e, Dictionary e ∈ l ∧ locates e p) ∧
  ((∀ n l, (bs "interval", Int n) ∈ d → (bs "peers", BList l) ∉ d) →
    TrackerResponse_try_from (Dictionary d) = Err WrongType).
Proof. apply tracker_response_spec. Qed.

(** The values of the fields of an answer fit the types of the program. *)
Definition response_ok (r : TrackerResponse) : Prop :=
  let i64 z := - 2 ^ 63 ≤ z < 2 ^ 63 in
  i64 (interval r) ∧ (∀ z, complete r = Some z → i64 z) ∧ (∀ z, incomplete r = Some z → i64 z) ∧
  Forall (λ p, ip_ok (address p) ∧ 0 ≤ port p < 2 ^ 16) (tracker_peers r).

Lemma peer_try_from_ok v p : TrackerPeer_try_from v = Ret p →
  ip_ok (address p) ∧ 0 ≤ port p < 2 ^ 16.
Proof.
  unfold TrackerPeer_try_from. destruct v as [| | |e]; [done..|].
  destruct (get_bytes _ "ip") as [a|]; [|done]. destruct (get_int _ "port") as [n|]; [|done].
  destruct (ip_from_str _) as [|ip] eqn:Hip; [done|]. intros [= <-].
  split; [by eapply ip_from_str_ok|]. by apply wrap_range.
Qed.

Lemma response_try_from_ok v r : wf_bencode v → TrackerResponse_try_from v = Ret r → response_ok r.
Proof.
  intros Hwf. unfold TrackerResponse_try_from. destruct v as [| | |d]; [done..|].
  change (map_dict_keys d) with (convert_dict_keys d).
  destruct (convert_dict_keys d !! bs "interval") as [[n| | |]|] eqn:Hn; try done.
  destruct (convert_dict_keys d !! bs "peers") as [[| |l|]|]; try done. intros [= <-].
  refine (conj _ (conj _ (conj _ _))); cbn [interval complete incomplete tracker_peers].
  - apply (convert_wf d Hwf) in Hn. by inversion Hn.
  - intros z. by apply get_int_wf.
  - intros z. by apply get_int_wf.
  - apply Forall_forall. intros p Hp. apply elem_of_flatten, list_elem_of_fmap in Hp as (v & Hv & _).
    by eapply peer_try_from_ok.
Qed.

Module MetainfoExamples.
Import ListNom DevProfile.

Definition digest : list byte := replicate 20 x07.

Definition info_entries : list (list byte * Bencode) :=
  [(bs "length", Int 5); (bs "name", ByteString (bs "a")); (bs "piece length", Int 8);
   (bs "pieces", ByteString digest)].

Definition metainfo : list (list byte * Bencode) :=
  [(bs "announce", ByteString (bs "http://t")); (bs "info", Dictionary info_entries)].

Lemma metainfo_wf : wf_bencode (Dictionary metainfo).
Proof.
  constructor.
  - repeat constructor.
  - repeat constructor.
  - repeat (constructor; cbn); lia.
Qed.

(** The identity in the place of the digest. *)
Definition read_torrent : V1Torrent :=
  mkTorrent (mkInfo 5 8 [mkPiece digest] (bs "a") (encode (Dictionary info_entries)))
    (bs "http://t") [].

Lemma torrent_try_from_spec_witness :
  V1Torrent_try_from id (Dictionary metainfo) = Ret read_torrent.
Proof.
  apply (torrent_try_from_spec id metainfo read_torrent metainfo_wf).
  exists info_entries, (bs "http://t"). unfold describes.
  split_and!; try (vm_compute; reflexivity); unfold metainfo, info_entries; set_solver.
Defined.

Lemma info_hash_of_file_witness : ∃ before i after,
  (bs "info", Dictionary i) ∈ metainfo ∧
  encode (Dictionary metainfo) = before ++ bs "4:info" ++ encode (Dictionary i) ++ after ∧
  encode (Dictionary info_entries) = id (encode (Dictionary i)).
Proof.
  apply (info_hash_of_file id metainfo read_torrent 9 (bs "junk") metainfo_wf);
    [vm_compute; lia|vm_compute; reflexivity].
Defined.

(** Nothing relates the lengths of an accepted metainfo file: the start-up panics on it. *)
Example accepted_geometry_panics :
  (b ← parse_bencode 9 (bs "d8:announce1:t4:infod6:lengthi5e4:name1:a12:piece lengthi8e6:pieces0:ee");
   V1Torrent_try_from id b) =
    Ret (mkTorrent (mkInfo 5 8 [] (bs "a")
      (bs "d6:lengthi5e4:name1:a12:piece lengthi8e6:pieces0:e")) (bs "t") []) ∧
  allocate_torrent (E := unit) (mkTorrent (mkInfo 5 8 [] (bs "a")
      (bs "d6:lengthi5e4:name1:a12:piece lengthi8e6:pieces0:e")) (bs "t") []) = Panic.
Proof. split; vm_compute; reflexivity. Qed.

(** Digests whose length is not a multiple of 20 are a [WrongType]. *)
Example uneven_pieces :
  V1TorrentInfo_try_from id (Dictionary
    [(bs "length", Int 5); (bs "piece length", Int 8); (bs "pieces", ByteString (bs "abc"))]) =
    Err WrongType.
Proof. vm_compute. reflexivity. Qed.

(** A port out of range, a host name, something that is no dictionary. *)
Definition answer : list (list byte * Bencode) :=
  [(bs "interval", Int 900);
   (bs "peers", BList [Dictionary [(bs "ip", ByteString (bs "::1")); (bs "port", Int 65537)];
                       Dictionary [(bs "ip", ByteString (bs "host")); (bs "port", Int 1)];
                       Int 3])].

Lemma answer_wf : wf_bencode (Dictionary answer).
Proof.
  constructor.
  - repeat constructor.
  - repeat constructor.
  - repeat (constructor; cbn); lia.
Qed.

Lemma tracker_peers_collected_witness :
  ∃ r, TrackerResponse_try_from (Dictionary answer) = Ret r ∧ interval r = 900 ∧
    mkTrackerPeer (V6 [0; 0; 0; 0; 0; 0; 0; 1]) 1 ∈ tracker_peers r.
Proof.
  destruct (proj1 (tracker_peers_collected answer answer_wf) 900
    [Dictionary [(bs "ip", ByteString (bs "::1")); (bs "port", Int 65537)];
     Dictionary [(bs "ip", ByteString (bs "host")); (bs "port", Int 1)]; Int 3])
    as (r & Hr & Hi & Hp); [unfold answer; set_solver..|].
  exists r. split; [exact Hr|]. split; [exact Hi|]. apply Hp.
  exists [(bs "ip", ByteString (bs "::1")); (bs "port", Int 65537)]. split; [set_solver|].
  exists (bs "::1"), 65537. split; [set_solver|]. split; [set_solver|].
  split; vm_compute; reflexivity.
Defined.

(** The compact form of the list of peers is refused. *)
Example compact_peers_refused :
  TrackerResponse_try_from
    (Dictionary [(bs "interval", Int 900); (bs "peers", ByteString (bs "abcdef"))]) = Err WrongType.
Proof. vm_compute. reflexivity. Qed.

(** A byte that is not UTF-8 becomes U+FFFD. *)
Example lossy_name : from_utf8_lossy [x61; xff; xc3; xa9] = [x61] ++ replacement ++ [xc3; xa9].
Proof. vm_compute. reflexivity. Qed.
End MetainfoExamples.
