(* ===== verification/Tracker.v ===== *)
(** The tracker client, [src/src/peer/tracker.rs], and the peer id of
    [src/src/peer/mod.rs].

    The crates [url] and [urlencoding] and the HTTP request are parameters:
    [UrlCrate] has the calls the program makes, [UrlCrateOk] what is documented
    of them. *)
From S2P Require Import Prelude ByteStr Model Ip Bencode Metainfo.
From Stdlib Require Import ZArith.

(** [url::Url]; [append_pair] stands for the serializer that [query_pairs_mut]
    gives, whose [finish] writes the query back. *)
Class UrlCrate := {
  Url : Type;
  url_parse : list byte → option Url;
  append_pair : list byte → list byte → Url → Url;
  url_to_string : Url → list byte;
  encode_binary : list byte → list byte;
}.

(** Bytes that form encoding leaves as they are. *)
Definition plain (l : list byte) : Prop :=
  Forall (λ b, is_digit b = true ∨ 97 ≤ byte_val b ≤ 122 ∨ 65 ≤ byte_val b ≤ 90 ∨ b = "-"%byte) l.

(** [query u] is the query of [u], if it has one; URLs with a fragment are left
    out. Pairs are joined by [&]. *)
Class UrlCrateOk `(UrlCrate) := {
  base : Url → list byte;
  query : Url → option (list byte);
  url_to_string_spec u : url_to_string u =
    base u ++ match query u with Some q => bs "?" ++ q | None => [] end;
  append_pair_spec k v u : plain k → plain v →
    base (append_pair k v u) = base u ∧
    query (append_pair k v u) = Some (match query u with
      | Some [] | None => k ++ bs "=" ++ v
      | Some q => q ++ bs "&" ++ k ++ bs "=" ++ v
      end);
}.

Record UploadDownloadState := mkUploadDownload { uploaded : Z; downloaded : Z }.
Definition UploadDownloadState_new : UploadDownloadState := mkUploadDownload 0 0.
Definition get_downloaded (s : UploadDownloadState) : Z := downloaded s.
Definition get_uploaded (s : UploadDownloadState) : Z := uploaded s.

(** The HTTP client is an argument of [get_announce]. *)
Record TrackerClient := mkTrackerClient {
  client_torrent : V1Torrent;
  my_peer_id : InternalPeerId;
  upload_download_state : UploadDownloadState;
}.
Definition TrackerClient_new (torrent : V1Torrent) (my_peer_id : InternalPeerId) : TrackerClient :=
  mkTrackerClient torrent my_peer_id UploadDownloadState_new.

(** The errors that end in the [anyhow::Error] of [get_announce]. *)
Inductive AnnounceError (E : Type) :=
  | AnnounceHttp (e : E)
  | AnnounceFile (e : Error).
Arguments AnnounceHttp {E} e.
Arguments AnnounceFile {E} e.

Section tracker.
Context `{UrlCrate}.

(** [Url::parse(...).unwrap()]. *)
Definition tracker_url {E} (self : TrackerClient) : outcome E (list byte) :=
  let torrent := client_torrent self in
  let info_hash := encode_binary (torrent_info_hash (info torrent)) in
  let peer_id := encode_binary (my_peer_id self) in
  match url_parse (announce torrent) with
  | None => Panic
  | Some url =>
      let url := append_pair (bs "port") (bs "6881") url in
      let url := append_pair (bs "uploaded") (dec (get_uploaded (upload_download_state self))) url in
      let url := append_pair (bs "downloaded") (dec (get_downloaded (upload_download_state self))) url in
      let url := append_pair (bs "left") (dec (torrent_length (info torrent))) url in
      let url := append_pair (bs "numwant") (bs "100") url in
      Ret (url_to_string url ++ bs "&info_hash=" ++ info_hash ++ bs "&peer_id=" ++ peer_id)
  end.

(** [http_get] sends the request and reads the whole answer. *)
Definition get_announce `{Nom} {E} (http_get : list byte → outcome E (list byte)) (stack : nat)
    (self : TrackerClient) : outcome (AnnounceError E) TrackerResponse :=
  url ← tracker_url self;
  text ← map_err AnnounceHttp (http_get url);
  decoded ← map_err AnnounceFile (parse_bencode stack text);
  map_err AnnounceFile (TrackerResponse_try_from decoded).
End tracker.

(** [make_peer_id], at a time given in nanoseconds since the epoch. *)
Definition make_peer_id {E} (sha1 : list byte → list byte) (now : Z) : outcome E InternalPeerId :=
  if now <? 0 then Panic
  else
    let id := bs "ben-" ++ dec (now / 1000000000) in
    Ret (sha1 id).

(** * Properties *)

Lemma plain_digit d : 0 ≤ d < 10 → plain [digit d].
Proof. intros Hd. repeat constructor. by apply digit_is_digit. Qed.

Lemma dec_nat_plain fuel : ∀ n, 0 ≤ n → plain (dec_nat fuel n).
Proof.
  induction fuel as [|fuel IH]; intros n Hn; [constructor|]. cbn [dec_nat].
  destruct (Z.ltb_spec n 10); [by apply plain_digit|].
  apply Forall_app. split; [apply IH, Z.div_pos; lia|].
  apply plain_digit, Z.mod_pos_bound. lia.
Qed.

Lemma dec_plain z : plain (dec z).
Proof.
  unfold dec. destruct (Z.ltb_spec z 0); [|by apply dec_nat_plain].
  apply Forall_cons. split; [by right; right; right|]. apply dec_nat_plain. lia.
Qed.

Lemma plain_spec l : forallb (λ b, is_digit b || (97 <=? byte_val b) && (byte_val b <=? 122)
  || (65 <=? byte_val b) && (byte_val b <=? 90) || Byte.eqb b "-") l = true → plain l.
Proof.
  intros Hl. apply Forall_forall. intros b Hb. rewrite forallb_forall in Hl.
  specialize (Hl b (proj1 (list_elem_of_In _ _) Hb)).
  rewrite !orb_true_iff, !andb_true_iff, !Z.leb_le in Hl.
  destruct Hl as [[[?|?]|?]|He]; [by left|by right; left|by right; right; left|].
  right; right; right. by apply Byte.byte_dec_bl.
Qed.

Section tracker_properties.
Context `{UrlCrateOk}.

(** The query of the announce URL, with the [&] to what follows. *)
Definition own_query (u : Url) : list byte :=
  match query u with Some [] | None => [] | Some q => q ++ bs "&" end.

Lemma query_append k v u : plain k → plain v →
  query (append_pair k v u) = Some (own_query u ++ k ++ bs "=" ++ v).
Proof.
  intros Hk Hv. rewrite (proj2 (append_pair_spec k v u Hk Hv)). unfold own_query.
  destruct (query u) as [[|]|]; by rewrite <-?app_assoc.
Qed.

Lemma own_query_append k v u : plain k → plain v →
  own_query (append_pair k v u) = own_query u ++ k ++ bs "=" ++ v ++ bs "&".
Proof.
  intros Hk Hv. unfold own_query at 1. rewrite query_append by done.
  destruct (own_query u ++ k ++ bs "=" ++ v) as [|x l] eqn:He.
  - apply app_nil in He as [_ He]. by apply app_nil in He as [_ ?].
  - rewrite <-He, <-!app_assoc. done.
Qed.

Lemma base_append k v u : plain k → plain v → base (append_pair k v u) = base u.
Proof. intros Hk Hv. apply append_pair_spec; done. Qed.

(** The announce request of a torrent whose announce URL is [u]. *)
Definition request_url (u : Url) (torrent : V1Torrent) (id : InternalPeerId) : list byte :=
  base u ++ bs "?" ++ own_query u ++ bs "port=6881&uploaded=0&downloaded=0&left=" ++
  dec (torrent_length (info torrent)) ++ bs "&numwant=100" ++
  bs "&info_hash=" ++ encode_binary (torrent_info_hash (info torrent)) ++
  bs "&peer_id=" ++ encode_binary id.

Lemma tracker_url_spec {E} torrent id u : url_parse (announce torrent) = Some u →
  tracker_url (E := E) (TrackerClient_new torrent id) = Ret (request_url u torrent id).
Proof.
  intros Hu. unfold tracker_url. cbn [client_torrent my_peer_id TrackerClient_new upload_download_state].
  rewrite Hu. f_equal. unfold request_url. rewrite url_to_string_spec.
  rewrite query_append by (apply plain_spec; vm_compute; reflexivity).
  rewrite !own_query_append, !base_append by (apply dec_plain || (apply plain_spec; vm_compute; reflexivity)).
  rewrite <-!app_assoc. reflexivity.
Qed.

(** C27. When the tracker answers the announce request (the
    announce URL of the torrent with the parameters of the query: nothing uploaded or
    downloaded, the whole length left, the torrent's hash and our id) with the encoding of
    a dictionary that has an interval and a list of peers, [get_announce] returns this
    interval and the peers of the list that have an address and a port. *)
Theorem announce_collects_peers `{NomOk} {E} (http_get : list byte → outcome E (list byte)) stack
    torrent id u d junk n l :
  url_parse (announce torrent) = Some u →
  http_get (request_url u torrent id) = Ret (encode (Dictionary d) ++ junk) →
  wf_bencode (Dictionary d) → (depth (Dictionary d) ≤ stack)%nat →
  (bs "interval", Int n) ∈ d → (bs "peers", BList l) ∈ d →
  ∃ r, get_announce http_get stack (TrackerClient_new torrent id) = Ret r ∧ interval r = n ∧
    ∀ p, p ∈ tracker_peers r ↔ ∃ e, Dictionary e ∈ l ∧ locates e p.
Proof.
  intros Hu Hget Hwf Hst Hn Hl. unfold get_announce, parse_bencode.
  rewrite (tracker_url_spec torrent id u Hu), bind_ret, Hget. cbn [map_err]. rewrite bind_ret.
  rewrite parse_encode by done. cbn [map_err]. rewrite bind_ret.
  destruct (proj1 (tracker_response_spec d Hwf) n l Hn Hl) as (r & Hr & Hi & Hp).
  exists r. by rewrite Hr.
Qed.

(** Whatever the tracker answers, a response that [get_announce]
    returns has an interval and counts that fit 64 bits, and peers with an address of four
    octets or eight groups and a port of 16 bits. *)
Theorem announce_well_typed `{NomOk} {E} (http_get : list byte → outcome E (list byte)) stack client r :
  get_announce http_get stack client = Ret r → response_ok r.
Proof.
  unfold get_announce. intros (url & _ & Hr)%bind_ret_inv. apply bind_ret_inv in Hr as (text & _ & Hr).
  apply bind_ret_inv in Hr as (v & Hv & Hr). apply map_err_ret in Hv, Hr.
  eapply response_try_from_ok; [by eapply parse_bencode_wf|done].
Qed.

(** An announce URL that does not parse panics. *)
Lemma announce_url_panics {E} torrent id : url_parse (announce torrent) = None →
  tracker_url (E := E) (TrackerClient_new torrent id) = Panic.
Proof. intros Hu. unfold tracker_url. cbn [client_torrent TrackerClient_new]. by rewrite Hu. Qed.
End tracker_properties.

(** * A concrete realisation *)
Module ListUrl.

(** The bytes before the query, and the query. A URL has a scheme. *)
Definition parts : Type := list byte * option (list byte).

Fixpoint split_at (c : byte) (l : list byte) : list byte * option (list byte) :=
  match l with
  | [] => ([], None)
  | b :: r => if Byte.eqb b c then ([], Some r) else let '(p, q) := split_at c r in (b :: p, q)
  end.

Definition parse (l : list byte) : option parts :=
  if bool_decide (take 7 l = bs "http://") then Some (split_at "?" l) else None.

Definition hex_digit (d : Z) : byte := byte_of (if d <? 10 then 48 + d else 55 + d).

Definition unreserved (b : byte) : bool :=
  is_digit b || (97 <=? byte_val b) && (byte_val b <=? 122)
  || (65 <=? byte_val b) && (byte_val b <=? 90)
  || Byte.eqb b "-" || Byte.eqb b "_" || Byte.eqb b "." || Byte.eqb b "~".

Definition percent (l : list byte) : list byte :=
  concat (map (λ b, if unreserved b then [b]
    else ["%"%byte; hex_digit (byte_val b / 16); hex_digit (byte_val b mod 16)]) l).

#[export] Instance list_url : UrlCrate := {|
  Url := parts;
  url_parse := parse;
  append_pair k v u := (u.1, Some (match u.2 with
    | Some [] | None => percent k ++ bs "=" ++ percent v
    | Some q => q ++ bs "&" ++ percent k ++ bs "=" ++ percent v end));
  url_to_string u := u.1 ++ match u.2 with Some q => bs "?" ++ q | None => [] end;
  encode_binary := percent;
|}.

Lemma percent_plain l : plain l → percent l = l.
Proof.
  induction 1 as [|b l Hb _ IH]; [done|]. unfold percent in *. cbn. rewrite IH.
  assert (unreserved b = true) as ->; [|done]. unfold unreserved.
  rewrite !orb_true_iff, !andb_true_iff, !Z.leb_le. destruct Hb as [?|[?|[?| ->]]]; [tauto..|]. left. left. left. by right.
Qed.

#[export] Program Instance list_url_ok : UrlCrateOk list_url := {|
  base u := u.1;
  query u := u.2;
|}.
Next Obligation. done. Qed.
Next Obligation.
  intros k v [b q] Hk Hv. cbn. split; [done|]. by rewrite !percent_plain.
Qed.
End ListUrl.

Module TrackerExamples.
Import ListNom ListUrl MetainfoExamples.

Definition client_torrent : V1Torrent :=
  mkTorrent (mkInfo 5 8 [] (bs "a") (replicate 2 xff)) (bs "http://t/a?key=1") [].

(** The tracker that knows one request. *)
Definition one_request (answer : list byte) (url : list byte) : outcome unit (list byte) :=
  if bool_decide (url = bs "http://t/a?key=1&port=6881&uploaded=0&downloaded=0&left=5&numwant=100&info_hash=%FF%FF&peer_id=me")
  then Ret answer else Err ().

Lemma announce_collects_peers_witness :
  ∃ r, get_announce (one_request (encode (Dictionary answer) ++ [])) 9
      (TrackerClient_new client_torrent (bs "me")) = Ret r ∧ interval r = 900.
Proof.
  destruct (announce_collects_peers (H := list_url) (one_request (encode (Dictionary answer) ++ [])) 9
    client_torrent (bs "me") (bs "http://t/a", Some (bs "key=1")) answer [] 900
    [Dictionary [(bs "ip", ByteString (bs "::1")); (bs "port", Int 65537)];
     Dictionary [(bs "ip", ByteString (bs "host")); (bs "port", Int 1)]; Int 3])
    as (r & Hr & Hi & _).
  - vm_compute. reflexivity.
  - vm_compute. reflexivity.
  - exact answer_wf.
  - vm_compute. lia.
  - unfold answer. set_solver.
  - unfold answer. set_solver.
  - exists r. split; [exact Hr|exact Hi].
Defined.

Lemma announce_well_typed_witness :
  response_ok (mkTrackerResponse 900 [mkTrackerPeer (V6 [0; 0; 0; 0; 0; 0; 0; 1]) 1] None None).
Proof.
  apply (announce_well_typed (one_request (encode (Dictionary answer))) 9
    (TrackerClient_new client_torrent (bs "me"))). vm_compute. reflexivity.
Defined.

(** The answer of a tracker that refuses: its [failure reason] is not looked at. *)
Example failure_reason :
  get_announce (one_request (bs "d14:failure reason4:nonee")) 9
    (TrackerClient_new client_torrent (bs "me")) = Err (AnnounceFile WrongType).
Proof. vm_compute. reflexivity. Qed.

Example peer_id_of_time : make_peer_id (E := unit) id 1700000000999999999 = Ret (bs "ben-1700000000").
Proof. vm_compute. reflexivity. Qed.
End TrackerExamples.
