(* ===== verification/Peers.v ===== *)
(** Connecting to the peers and the task of a connection: [connect_torrent_peers]
    and [run_connection] of [src/src/peer/net.rs], with the [Config] of
    [src/src/config.rs].

    Dialling and the one-second limits belong to tokio and the network: the
    class [Dial] says how each attempt ends. A connection's task is a step
    relation: between two iterations of its loop the processor may send a
    message, drop its sender or drop its receiver. An iteration leaves behind the
    connection as it is then, however the iteration ends: a write can be cut off inside a frame. *)
From S2P Require Import Prelude ByteStr BytesCrate Model Protocol Errors Net Ip Bencode Metainfo.
From Stdlib Require Import ZArith Lia.

Record Config := mkConfig {
  use_file_writer : bool;
  max_conns : Z;
  peer_tx_size : Z;
  peer_rx_size : Z;
  file_handler_channel_size : Z;
  max_outstanding_requests : Z;
}.

Definition Config_default : Config := mkConfig true 4 128 128 2 128.

(** The attempt number, counted from 0, and the address: no answer within a
    second, an error, or a stream. *)
Class Dial (S : Type) := {
  tcp_connect : nat → SocketAddr → option (AnyError + S);
  handshake_in_time : nat → bool;
}.

Section connecting.
Context {S : Type} `{BytesCrate} `{TcpStream S} `{Dial S}.

(** The first loop of [connect_torrent_peers]: the connections it makes. A
    panic of the handshake is not caught. Its one-second limit, [handshake_in_time], is over before
    the three seconds of a write: the handshake's write is not cut otherwise. *)
Fixpoint connect_loop (fuel : nat) (torrent : V1Torrent) (our_id : InternalPeerId) (config : Config)
    (attempt : nat) (peers : list TrackerPeer) (active_conns : list (Handshake * Connection S))
    : option (outcome AnyError (list (Handshake * Connection S))) :=
  match peers with
  | [] => Some (Ret active_conns)
  | peer :: peers =>
      let continue := connect_loop fuel torrent our_id config (Datatypes.S attempt) peers in
      if zlen active_conns >=? max_conns config then Some (Ret active_conns)
      else
        match tcp_connect attempt (socket_addr peer) with
        | Some (inr stream) =>
            if handshake_in_time attempt then
              match do_handshake fuel None torrent our_id stream with
              | Some (Ret (handshake, conn)) => continue (active_conns ++ [(handshake, conn)])
              | Some (Err _) => continue active_conns
              | Some Panic => Some Panic
              | None => None
              end
            else continue active_conns
        | _ => continue active_conns
        end
  end.

Definition connect_torrent_peers (fuel : nat) (torrent : V1Torrent) (our_id : InternalPeerId)
    (tracker_resp : TrackerResponse) (config : Config)
    : option (outcome AnyError (list (Handshake * Connection S))) :=
  connect_loop fuel torrent our_id config 0 (tracker_peers tracker_resp) [].
End connecting.

(** * The task of a connection *)

(** The connection; the messages of the processor that wait to be written, and
    whether the processor has dropped its sender; whether the processor's
    handler has dropped its receiver; how the task ended. [forwarded] records
    the messages that went into the processor's channel. *)
Record Task (S : Type) := mkTask {
  conn : Connection S;
  queue : list Messages;
  sender_dropped : bool;
  receiver_dropped : bool;
  result : option (outcome AnyError unit);
  forwarded : list Messages;
}.
Arguments mkTask {S} _ _ _ _ _ _.
Arguments conn {S} _.
Arguments queue {S} _.
Arguments sender_dropped {S} _.
Arguments receiver_dropped {S} _.
Arguments result {S} _.
Arguments forwarded {S} _.

(** Which branch of the [select!] is taken. While the processor's message is
    awaited, the read goes on; [rounds] is how often it got bytes before it was
    cancelled. *)
Inductive Branch :=
  | FromProcessor (rounds : nat) (cut : option nat)
  | FromPeer
  | NoBranch.

Section task.
Context {S : Type} `{BytesCrate, Profile} `{TcpStream S}.

Definition Task_new (c : Connection S) : Task S := mkTask c [] false false None [].

(** The connection that a cancelled [read_msg] leaves behind: a read that had
    come to an error or to the end disabled its branch. [None]: the read would
    have returned a message or panicked. *)
Fixpoint read_cancelled (rounds : nat) (needs : Z) (c : Connection S) : option (Connection S) :=
  match rounds with
  | O => Some c
  | Datatypes.S rounds =>
      let read (needs : Z) :=
        match read_buf (stream c) (buffer c) with
        | Err _ => Some c
        | Panic => None
        | Ret (read_bytes, buffer, stream) =>
            let c := mkConnection stream buffer in
            if 0 =? read_bytes then Some c else read_cancelled rounds needs c
        end in
      if remaining (buffer c) >=? needs then
        match decode (T := Messages) (buffer c) with
        | Ret _ => None
        | Err (PE_TryGetError e) => read (requested e)
        | Err _ => Some c
        | Panic => None
        end
      else read needs
  end.

(** The task ends, with the connection as it is then. *)
Definition end_task (r : outcome AnyError unit) (c : Connection S) (queue : list Messages) (t : Task S) : Task S :=
  mkTask c queue (sender_dropped t) (receiver_dropped t) (Some r) (forwarded t).

(** One iteration of the loop; [None] when this branch is not the one taken. A message
    received from the processor has left the queue, whatever becomes of its write; one read
    from the peer has left the buffer. *)
Definition run_iteration (fuel : nat) (b : Branch) (t : Task S) : option (Task S) :=
  match b with
  | FromProcessor rounds cut =>
      match queue t with
      | [] => None
      | msg :: rest =>
          c ← read_cancelled rounds 0 (conn t);
          Some match write_msg cut msg c with
          | (Ret _, c) => mkTask c rest (sender_dropped t) (receiver_dropped t) None (forwarded t)
          | (Err e, c) => end_task (Err e) c rest t
          | (Panic, c) => end_task Panic c rest t
          end
      end
  | FromPeer =>
      '(r, c) ← read_msg fuel (conn t);
      match r with
      | Ret (Some msg) =>
          Some (if receiver_dropped t then end_task (Err AE_Send) c (queue t) t
                else mkTask c (queue t) (sender_dropped t) false None (forwarded t ++ [msg]))
      | Panic => Some (end_task Panic c (queue t) t)
      | _ => None
      end
  | NoBranch =>
      if sender_dropped t && bool_decide (queue t = []) then
        '(r, c) ← read_msg (T := Messages) fuel (conn t);
        match r with
        | Ret None | Err _ => Some (end_task (Ret tt) c (queue t) t)
        | _ => None
        end
      else None
  end.

Inductive task_step (fuel : nat) : Task S → Task S → Prop :=
  | task_iteration b t t' : result t = None → run_iteration fuel b t = Some t' → task_step fuel t t'
  | task_push msg t : wf_message msg → sender_dropped t = false → result t = None →
      task_step fuel t (mkTask (conn t) (queue t ++ [msg]) false (receiver_dropped t) None (forwarded t))
  | task_drop_sender t : task_step fuel t
      (mkTask (conn t) (queue t) true (receiver_dropped t) (result t) (forwarded t))
  | task_drop_receiver t : task_step fuel t
      (mkTask (conn t) (queue t) (sender_dropped t) true (result t) (forwarded t)).
End task.

(** * What the task of a connection promises

    Two queues: what the peer has still to say is delivered to the processor in
    order, what the processor sends is said to the peer in order. A write can fail: then a
    part of one more frame is on the wire, its message is lost, and nothing follows. [torn]
    is that message and that part. *)
Record Relay := mkRelay {
  inbound : list Messages;
  delivered : list Messages;
  outbound : list Messages;
  said : list Messages;
  torn : option (Messages * list byte);
}.

Definition Relay_new (ms : list Messages) : Relay := mkRelay ms [] [] [] None.

Inductive relay_step : Relay → Relay → Prop :=
  | relay_deliver m inb del out sd :
      relay_step (mkRelay (m :: inb) del out sd None) (mkRelay inb (del ++ [m]) out sd None)
  | relay_send m inb del out sd : wf_message m →
      relay_step (mkRelay inb del out sd None) (mkRelay inb del (out ++ [m]) sd None)
  | relay_say m inb del out sd :
      relay_step (mkRelay inb del (m :: out) sd None) (mkRelay inb del out (sd ++ [m]) None)
  | relay_tear m part inb del out sd : part `prefix_of` frame m →
      relay_step (mkRelay inb del (m :: out) sd None) (mkRelay inb del out sd (Some (m, part))).

(** The message lost in a write, and the part of its frame that is on the wire. *)
Definition lost (r : Relay) : list Messages := match torn r with Some (m, _) => [m] | None => [] end.
Definition tail_part (r : Relay) : list byte := match torn r with Some (_, part) => part | None => [] end.

(** * Connecting: properties *)

Section connecting_properties.
Context {S : Type} `{BytesCrateOk} `{TcpStreamOk S} `{Dial S}.
Context (fuel : nat) (torrent : V1Torrent) (our_id : InternalPeerId) (config : Config).

(** What an attempt gives: its handshake in time, if it gets so far. *)
Definition attempt (i : nat) (peer : TrackerPeer)
    : option (outcome AnyError (Handshake * Connection S)) :=
  match tcp_connect i (socket_addr peer) with
  | Some (inr stream) =>
      if handshake_in_time i then do_handshake fuel None torrent our_id stream
      else Some (Err (AE_Peer NetworkTimeout))
  | _ => Some (Err (AE_Peer NetworkTimeout))
  end.

(** The attempts, from the [i]-th on, that gave a connection. *)
Fixpoint successes (i : nat) (peers : list TrackerPeer) : list (Handshake * Connection S) :=
  match peers with
  | [] => []
  | p :: peers =>
      match attempt i p with Some (Ret x) => [x] | _ => [] end ++ successes (Datatypes.S i) peers
  end.

Lemma connect_loop_step i p peers active : zlen active < max_conns config →
  connect_loop fuel torrent our_id config i (p :: peers) active =
    match attempt i p with
    | Some (Ret x) => connect_loop fuel torrent our_id config (Datatypes.S i) peers (active ++ [x])
    | Some (Err _) => connect_loop fuel torrent our_id config (Datatypes.S i) peers active
    | Some Panic => Some Panic
    | None => None
    end.
Proof.
  intros Hlt. cbn [connect_loop]. rewrite Z.geb_leb, (proj2 (Z.leb_gt _ _)) by done. unfold attempt.
  destruct (tcp_connect i (socket_addr p)) as [[e|s]|]; [done| |done].
  destruct (handshake_in_time i); [|done].
  by destruct (do_handshake fuel None torrent our_id s) as [[[]| |]|].
Qed.

Lemma connect_loop_full i peers active : max_conns config ≤ zlen active →
  connect_loop fuel torrent our_id config i peers active = Some (Ret active).
Proof.
  intros Hle. destruct peers; [done|]. cbn [connect_loop].
  by rewrite Z.geb_leb, (proj2 (Z.leb_le _ _)).
Qed.

Lemma connect_loop_spec peers : ∀ i active,
  (∀ k p, peers !! k = Some p → attempt (i + k) p ≠ None ∧ attempt (i + k) p ≠ Some Panic) →
  zlen active ≤ Z.max 0 (max_conns config) →
  connect_loop fuel torrent our_id config i peers active =
    Some (Ret (active ++ take (Z.to_nat (max_conns config) - length active) (successes i peers))).
Proof.
  induction peers as [|p peers IH]; intros i active Hok Hle.
  - cbn. by rewrite take_nil, app_nil_r.
  - assert (∀ k q, peers !! k = Some q →
      attempt (Datatypes.S i + k) q ≠ None ∧ attempt (Datatypes.S i + k) q ≠ Some Panic) as Hok'.
    { intros k q Hq. replace (Datatypes.S i + k)%nat with (i + Datatypes.S k)%nat by lia. by apply Hok. }
    destruct (decide (zlen active < max_conns config)) as [Hlt|Hge].
    + rewrite connect_loop_step by done. specialize (Hok 0%nat p eq_refl) as [Hn Hp].
      rewrite Nat.add_0_r in Hn, Hp. cbn [successes].
      destruct (attempt i p) as [[x|e|]|]; [|by apply IH|done|done].
      rewrite IH; [|done|rewrite zlen_app; cbn; unfold zlen in *; cbn; lia].
      rewrite <-app_assoc, length_app. cbn [app length]. unfold zlen in Hlt.
      replace (Z.to_nat (max_conns config) - length active)%nat
        with (Datatypes.S (Z.to_nat (max_conns config) - (length active + 1))) by lia.
      done.
    + rewrite connect_loop_full by lia. unfold zlen in *.
      replace (Z.to_nat (max_conns config) - length active)%nat with 0%nat by lia.
      by rewrite take_0, app_nil_r.
Qed.

Lemma connect_loop_panic peers : ∀ i active k p,
  (∀ j q, peers !! j = Some q → (j < k)%nat → attempt (i + j) q ≠ None) →
  peers !! k = Some p → attempt (i + k) p = Some Panic →
  zlen active + zlen (successes i (take k peers)) < max_conns config →
  connect_loop fuel torrent our_id config i peers active = Some Panic.
Proof.
  induction peers as [|p0 peers IH]; intros i active k p Hok Hk Hp Hlt; [done|].
  rewrite connect_loop_step by (pose proof (zlen_nonneg (successes i (take k (p0 :: peers)))); lia).
  destruct k as [|k]; [injection Hk as ->; rewrite Nat.add_0_r in Hp; by rewrite Hp|].
  pose proof (Hok 0%nat p0 eq_refl ltac:(lia)) as Hn. rewrite Nat.add_0_r in Hn.
  cbn [take successes] in Hlt. rewrite zlen_app in Hlt.
  assert (∀ active', zlen active' + zlen (successes (Datatypes.S i) (take k peers)) < max_conns config →
    connect_loop fuel torrent our_id config (Datatypes.S i) peers active' = Some Panic) as Hrec.
  { intros active' Hlt'. apply (IH _ _ k p); [|done| |done].
    - intros j q Hq Hj. replace (Datatypes.S i + j)%nat with (i + Datatypes.S j)%nat by lia.
      apply Hok; [done|lia].
    - by replace (Datatypes.S i + k)%nat with (i + Datatypes.S k)%nat by lia. }
  destruct (attempt i p0) as [[x|e|]|]; [|by apply Hrec|done|done].
  apply Hrec. rewrite zlen_app. exact Hlt || (cbn in *; lia).
Qed.

(** When no handshake panics, the connections made are those of the
    first [max_conns] peers of the tracker's answer, in its order, that answer within a
    second and complete the handshake. *)
Theorem connects_in_order resp :
  (∀ k p, tracker_peers resp !! k = Some p → attempt k p ≠ None ∧ attempt k p ≠ Some Panic) →
  connect_torrent_peers fuel torrent our_id resp config =
    Some (Ret (take (Z.to_nat (max_conns config)) (successes 0 (tracker_peers resp)))).
Proof.
  intros Hok. unfold connect_torrent_peers. rewrite (connect_loop_spec _ 0 []); [|done|rewrite zlen_nil; lia].
  by rewrite Nat.sub_0_r.
Qed.

(** C34. One peer whose handshake arrives in two pieces, cut
    inside the reserved bytes, makes the whole of [connect_torrent_peers] panic, and with it
    the connections made before. *)
Theorem split_handshake_stops_all `{!TcpWrites S} resp k p s h a b cs :
  (1 < fuel)%nat →
  (∀ j q, tracker_peers resp !! j = Some q → (j < k)%nat → attempt j q ≠ None) →
  zlen (successes 0 (take k (tracker_peers resp))) < max_conns config →
  tracker_peers resp !! k = Some p →
  tcp_connect k (socket_addr p) = Some (inr s) → handshake_in_time k = true →
  delivers s (a :: cs) → wf_handshake h → handshake_frame h = a ++ b → 20 ≤ zlen a < 28 →
  connect_torrent_peers fuel torrent our_id resp config = Some Panic.
Proof.
  intros Hf Hok Hlt Hk Hdial Hin Hd Hwf Hfr Ha. unfold connect_torrent_peers.
  eapply (connect_loop_panic _ 0 []); [done|exact Hk| |exact Hlt].
  unfold attempt. rewrite Nat.add_0_l, Hdial, Hin. by eapply do_handshake_split.
Qed.
End connecting_properties.

(** * The task of a connection: properties *)

Section task_properties.
Context {S : Type} `{BytesCrateOk, Profile} `{TcpStreamOk S}.
Implicit Types (c : Connection S) (t : Task S).

Lemma read_cancelled_spec rounds : ∀ needs c c' cs, incoming c cs →
  read_cancelled rounds needs c = Some c' →
  ∃ cs', incoming c' cs' ∧ (length cs' ≤ length cs)%nat ∧
    buffer c' ++ concat cs' = buffer c ++ concat cs ∧ sent (stream c') = sent (stream c).
Proof.
  induction rounds as [|rounds IH]; intros needs c c' cs Hin; [intros [= <-]; by exists cs|].
  assert (∀ n, match read_buf (stream c) (buffer c) with
    | Ret (read_bytes, buffer, stream) =>
        if 0 =? read_bytes then Some (mkConnection stream buffer)
        else read_cancelled rounds n (mkConnection stream buffer)
    | Err _ => Some c
    | Panic => None
    end = Some c' → ∃ cs', incoming c' cs' ∧ (length cs' ≤ length cs)%nat ∧
      buffer c' ++ concat cs' = buffer c ++ concat cs ∧ sent (stream c') = sent (stream c)) as Hread.
  { intros n. destruct Hin as [Hd Hne]. destruct cs as [|x cs].
    - destruct (read_buf_eof (stream c) (buffer c) Hd) as (s' & -> & Hd' & Hs).
      cbn [Z.eqb]. intros [= <-]. by exists [].
    - destruct (read_buf_chunk (stream c) (buffer c) x cs Hd) as (s' & -> & Hd' & Hs).
      apply Forall_cons in Hne as [Hx Hne]. destruct (Z.eqb_spec 0 (zlen x)) as [Hz|_].
      { destruct x; [done|]. rewrite zlen_cons in Hz. zlia. }
      intros Hr. apply (IH _ _ _ cs) in Hr as (cs' & ? & ? & Hb & Hs'); [|done].
      exists cs'. split_and!; [done|cbn; lia| |by rewrite Hs'].
      rewrite Hb. cbn [buffer concat]. by rewrite <-app_assoc. }
  cbn [read_cancelled]. destruct (remaining (buffer c) >=? needs); [|apply Hread].
  destruct (decode (buffer c)) as [|e|]; [done| |done].
  destruct e; try (intros [= <-]; by exists cs). apply Hread.
Qed.

(** How a write ends, and what is on the wire then. *)
Lemma write_msg_spec cut msg c : wf_message msg →
  (∃ c', write_msg cut msg c = (Ret tt, c') ∧ cut = None ∧ buffer c' = buffer c ∧
    sent (stream c') = sent (stream c) ++ frame msg ∧ ∀ cs, incoming c cs → incoming c' cs) ∨
  (∃ e c' part, write_msg cut msg c = (Err e, c') ∧ buffer c' = buffer c ∧ part `prefix_of` frame msg ∧
    sent (stream c') = sent (stream c) ++ part).
Proof.
  intros Hwf. unfold write_msg, Net.encode, Messages_Encode. rewrite encode_frame by done. cbn [map_err app].
  destruct cut as [n|].
  - right. eexists _, _, (take n (frame msg)). split; [reflexivity|]. cbn [buffer stream].
    split; [done|]. split; [apply prefix_take|apply write_cut_sends].
  - destruct (write_all_buf _ (stream c)) as [[[]|e|] s'] eqn:Hw; apply write_all_sends in Hw; [left|right|done].
    + destruct Hw as [Hs Hd]. eexists. split_and!; [reflexivity|done|done|done|].
      intros cs [Hc Hne]. split; [by apply Hd|done].
    + destruct Hw as (part & Hpart & Hs). by eexists _, _, part.
Qed.

Lemma write_msg_works `{!TcpWrites S} msg c cs : wf_message msg → delivers (stream c) cs →
  ∃ c', write_msg None msg c = (Ret tt, c').
Proof.
  intros Hwf Hd. unfold write_msg, Net.encode, Messages_Encode. rewrite encode_frame by done. cbn [map_err app].
  destruct (writes (stream c) (frame msg) cs Hd) as (s' & ->). by eexists.
Qed.

(** The abstract relay that a task implements, while the rest of the peer's
    bytes comes in at most [n] chunks and ends in [p]; [w0] had been written
    before. A write that failed has ended the task. *)
Record task_sim (n : nat) (p w0 : list byte) (t : Task S) (r : Relay) : Prop := {
  ts_incoming : result t = None → ∃ cs, incoming (conn t) cs ∧ (length cs ≤ n)%nat ∧
    buffer (conn t) ++ concat cs = concat (map frame (inbound r)) ++ p;
  ts_forwarded : forwarded t = delivered r;
  ts_queue : queue t = outbound r;
  ts_sent : sent (stream (conn t)) = w0 ++ concat (map frame (said r)) ++ tail_part r;
  ts_torn : result t = None → torn r = None;
  ts_tail : ∀ m part, torn r = Some (m, part) → part `prefix_of` frame m;
  ts_inbound : Forall wf_message (inbound r);
  ts_outbound : Forall wf_message (outbound r);
}.

Context (fuel n : nat) (p w0 : list byte).
Context (Hp : partial frame wf_message p) (Hfuel : (n < fuel)%nat).

(** A task that ends other than in a write. *)
Lemma sim_end r0 c t r : task_sim n p w0 t r → sent (stream c) = sent (stream (conn t)) →
  task_sim n p w0 (end_task r0 c (queue t) t) r.
Proof. intros [] Hs. split; cbn; try done. by rewrite Hs. Qed.

(** What the next read gives. *)
Lemma read_next t r : task_sim n p w0 t r → result t = None →
  match inbound r with
  | m :: inb => ∃ c cs, read_msg fuel (conn t) = Some (Ret (Some m), c) ∧
      incoming c cs ∧ (length cs ≤ n)%nat ∧ buffer c ++ concat cs = concat (map frame inb) ++ p ∧
      sent (stream c) = sent (stream (conn t))
  | [] => ∃ c, read_msg (T := Messages) fuel (conn t) =
      Some (if decide (p = []) then Ret None else Err reset_error, c) ∧
      sent (stream c) = sent (stream (conn t))
  end.
Proof.
  intros [Hinc _ _ _ _ _ Hwf _] Hres. destruct (Hinc Hres) as (cs & Hin & Hl & Hb). unfold read_msg. destruct (inbound r) as [|m inb].
  - cbn [map concat app] in Hb.
    destruct (loop_end frame wf_message cs fuel 0 (conn t) Hin) as (c & Hc & Hs); [by rewrite Hb|lia|].
    exists c. split; [|done]. rewrite Hc. do 2 f_equal. by rewrite Hb.
  - apply Forall_cons in Hwf as [Hm _]. cbn [map concat] in Hb. rewrite <-app_assoc in Hb.
    destruct (loop_frame frame wf_message m _ cs Hm fuel 0 (conn t) Hin Hb)
      as (c & cs' & Hr & Hin' & Hb' & Hl' & Hs); [apply zlen_nonneg|lia|].
    exists c, cs'. split_and!; [done|done|lia|done|done].
Qed.

(** Writing the first message of the queue. *)
Lemma write_next rounds cut t r msg out c t' : task_sim n p w0 t r → result t = None →
  outbound r = msg :: out → queue t = msg :: out → read_cancelled rounds 0 (conn t) = Some c →
  run_iteration fuel (FromProcessor rounds cut) t = Some t' →
  ∃ r', rtc relay_step r r' ∧ task_sim n p w0 t' r' ∧ said r' ++ lost r' ++ outbound r' = said r ++ outbound r.
Proof.
  intros [Hinc Hf Hq Hs Ht Htail Hi Ho] Hres Hout Hqt Hc Hrun. cbn [run_iteration] in Hrun.
  rewrite Hqt, Hc in Hrun. cbn in Hrun. rewrite Hout in Ho. apply Forall_cons in Ho as [Hwf Ho].
  destruct (Hinc Hres) as (cs & Hin & Hl & Hb).
  apply (read_cancelled_spec _ _ _ _ cs) in Hc as (cs' & Hin' & Hl' & Hb' & Hs'); [|done].
  destruct r as [inb del out0 sd tn]. cbn [outbound torn inbound said delivered] in *. clear Hq. subst out0.
  rewrite (Ht Hres) in *. unfold tail_part in Hs. cbn [torn said] in Hs. rewrite app_nil_r in Hs.
  destruct (write_msg_spec cut msg c Hwf) as [(c' & Hw & _ & Hb2 & Hs2 & Hin2)|(e & c' & part & Hw & Hb2 & Hp2 & Hs2)];
    rewrite Hw in Hrun; injection Hrun as <-.
  - exists (mkRelay inb del out (sd ++ [msg]) None). split; [apply rtc_once, relay_say|].
    split; [|cbn; by rewrite <-app_assoc]. split; cbn [conn forwarded queue inbound outbound said result torn]; try done.
    + intros _. exists cs'. split_and!; [by apply Hin2|lia|]. by rewrite Hb2, Hb'.
    + unfold tail_part. cbn [torn said]. rewrite Hs2, Hs', Hs, map_app, concat_app. cbn [map concat].
      by rewrite !app_nil_r, <-app_assoc.
  - exists (mkRelay inb del out sd (Some (msg, part))). split; [by apply rtc_once, relay_tear|].
    split; [|done]. split; cbn [conn forwarded queue inbound outbound said result torn end_task]; try done.
    + unfold tail_part. cbn [torn said]. by rewrite Hs2, Hs', Hs, <-app_assoc.
    + by intros m part' [= <- <-].
Qed.

Lemma iteration_sim b t t' r : task_sim n p w0 t r → result t = None → run_iteration fuel b t = Some t' →
  ∃ r', rtc relay_step r r' ∧ task_sim n p w0 t' r' ∧
    said r' ++ lost r' ++ outbound r' = said r ++ lost r ++ outbound r.
Proof.
  intros Hsim Hres Hrun. pose proof (read_next t r Hsim Hres) as Hnext.
  pose proof (ts_torn _ _ _ _ _ Hsim Hres) as Htorn.
  destruct b as [rounds cut| |].
  - destruct (queue t) as [|msg rest] eqn:Hq; [cbn [run_iteration] in Hrun; by rewrite Hq in Hrun|].
    destruct (read_cancelled rounds 0 (conn t)) as [c|] eqn:Hc;
      [|cbn [run_iteration] in Hrun; by rewrite Hq, Hc in Hrun].
    pose proof (ts_queue _ _ _ _ _ Hsim) as Hq'. rewrite Hq in Hq'.
    assert (lost r = []) as -> by (unfold lost; by rewrite Htorn). by eapply write_next.
  - cbn [run_iteration] in Hrun. destruct r as [inb del out sd tn]. cbn [torn] in Htorn. subst tn.
    destruct inb as [|m inb]; cbn [inbound] in Hnext.
    { destruct Hnext as (c & Hr & _). rewrite Hr in Hrun. cbn in Hrun. by case_decide. }
    destruct Hnext as (c & cs & Hr & Hin & Hl & Hb & Hs). rewrite Hr in Hrun. cbn in Hrun.
    destruct (receiver_dropped t); injection Hrun as <-.
    { eexists. split; [done|]. split; [by apply sim_end|done]. }
    exists (mkRelay inb (del ++ [m]) out sd None). split; [apply rtc_once, relay_deliver|]. split; [|done].
    destruct Hsim as [_ Hf Hq Hs' Ht Htail Hi Ho]. cbn [inbound outbound delivered said torn] in *.
    apply Forall_cons in Hi as [_ Hi]. split; cbn [conn forwarded queue]; try done.
    + by exists cs.
    + by rewrite Hf.
    + by rewrite Hs.
  - cbn [run_iteration] in Hrun. destruct (sender_dropped t && _); [|done].
    destruct (inbound r) as [|m inb].
    + destruct Hnext as (c & Hr & Hs). rewrite Hr in Hrun. cbn in Hrun.
      case_decide; injection Hrun as <-; (eexists; split; [done|]; split; [by apply sim_end|done]).
    + destruct Hnext as (c & cs & Hr & _). by rewrite Hr in Hrun.
Qed.

Lemma step_sim t t' r : task_sim n p w0 t r → task_step fuel t t' →
  ∃ r', rtc relay_step r r' ∧ task_sim n p w0 t' r'.
Proof.
  intros Hsim Hstep. destruct Hstep as [b t t' Hres Hi|msg t Hwf _ Hres|t|t].
  - apply (iteration_sim _ _ _ _ Hsim Hres) in Hi as (r' & Hr & Hsim' & _). by exists r'.
  - destruct r as [inb del out sd tn], Hsim as [Hc Hf Hq Hs Ht Htail Hi Ho].
    cbn [inbound outbound delivered said torn] in *. rewrite (Ht Hres) in *.
    exists (mkRelay inb del (out ++ [msg]) sd None).
    split; [by apply rtc_once, relay_send|]. split; cbn [conn forwarded queue]; try done.
    + intros _. by apply Hc.
    + by rewrite Hq.
    + apply Forall_app. by repeat constructor.
  - exists r. split; [done|]. by destruct Hsim.
  - exists r. split; [done|]. by destruct Hsim.
Qed.

Lemma steps_sim t t' : rtc (task_step fuel) t t' → ∀ r, task_sim n p w0 t r →
  ∃ r', rtc relay_step r r' ∧ task_sim n p w0 t' r'.
Proof.
  induction 1 as [t|t t1 t' Hs _ IH]; intros r Hsim; [by exists r|].
  apply (step_sim _ _ _ Hsim) in Hs as (r1 & Hr1 & Hsim1).
  destruct (IH r1 Hsim1) as (r' & Hr' & Hsim'). exists r'. split; [by etransitivity|done].
Qed.

Lemma sim_new c ms cs : Forall wf_message ms → incoming c cs → (length cs ≤ n)%nat →
  buffer c ++ concat cs = concat (map frame ms) ++ p → sent (stream c) = w0 →
  task_sim n p w0 (Task_new c) (Relay_new ms).
Proof.
  intros Hwf Hin Hl Hb Hs. split; cbn; try done; [by exists cs|by rewrite app_nil_r].
Qed.

Lemma relay_conserves ms r r' : rtc relay_step r r' → delivered r ++ inbound r = ms →
  delivered r' ++ inbound r' = ms.
Proof.
  induction 1 as [|r r1 r' Hs _ IH]; [done|]. intros Hms. apply IH. rewrite <-Hms.
  destruct Hs; cbn; by rewrite <-?app_assoc.
Qed.
End task_properties.

(** While the stream takes writes the first message of the queue can be written. *)
Lemma write_progress {S} `{BytesCrateOk, Profile} `{TcpWrites S} fuel (t : Task S) m q cs :
  result t = None → queue t = m :: q → wf_message m → delivers (stream (conn t)) cs →
  ∃ t', task_step fuel t t' ∧ result t' = None ∧ queue t' = q ∧
    sent (stream (conn t')) = sent (stream (conn t)) ++ frame m.
Proof.
  intros Hres Hq Hwf Hin. destruct (write_msg_works m (conn t) cs Hwf Hin) as (c' & Hw).
  destruct (write_msg_spec None m (conn t) Hwf) as [(c2 & Hw2 & _ & _ & Hs & _)|(e & c2 & part & Hw2 & _)];
    rewrite Hw in Hw2; [injection Hw2 as <-|done]. eexists. split.
  - apply (task_iteration fuel (FromProcessor 0 None) t); [done|]. cbn [run_iteration]. rewrite Hq. cbn.
    by rewrite Hw.
  - done.
Qed.

(** Decoding errors, seen from the task, stay. *)
Section malformed.
Context {S : Type} `{BytesCrateOk, Profile} `{TcpStream S}.

Definition malformed (b : list byte) : Prop := decode (T := Messages) b = Err BadId.

Lemma malformed_cancelled rounds c c' : malformed (buffer c) →
  read_cancelled rounds 0 c = Some c' → c' = c.
Proof.
  intros Hbad. destruct rounds as [|rounds]; [by intros [= <-]|]. cbn [read_cancelled].
  rewrite remaining_spec, Hbad, Z.geb_leb, (proj2 (Z.leb_le _ _)) by zlia. by intros [= <-].
Qed.

Lemma malformed_read fuel c : malformed (buffer c) →
  read_msg (T := Messages) (Datatypes.S fuel) c = Some (Err (AE_Protocol BadId), c).
Proof.
  intros Hbad. unfold read_msg. cbn [read_msg_loop]. rewrite remaining_spec, Hbad.
  by rewrite Z.geb_leb, (proj2 (Z.leb_le _ _)) by zlia.
Qed.

Lemma write_msg_buffer cut (msg : Messages) c r c' : write_msg cut msg c = (r, c') → buffer c' = buffer c.
Proof.
  unfold write_msg. destruct (map_err AE_Protocol _) as [b|e|]; [|by intros [= _ <-]..].
  destruct cut; [by intros [= _ <-]|]. destruct (write_all_buf _ _) as [x s]. by intros [= _ <-].
Qed.

(** What a step can do then: it writes, or the processor has let go of the task. *)
Lemma malformed_step fuel (t t' : Task S) : malformed (buffer (conn t)) →
  task_step (Datatypes.S fuel) t t' →
  forwarded t' = forwarded t ∧ buffer (conn t') = buffer (conn t) ∧
  (result t = None → result t' = None ∨ (sender_dropped t = true ∧ queue t = []) ∨
    ∃ cut m q r, queue t = m :: q ∧ fst (write_msg cut m (conn t)) = r ∧ r ≠ Ret tt ∧ result t' = Some r).
Proof.
  intros Hbad Hs. destruct Hs as [b t t' Hres Hrun|? t _ _ _|t|t]; [|split_and!; auto..].
  destruct b as [rounds cut| |]; cbn [run_iteration] in Hrun.
  - destruct (queue t) as [|msg rest] eqn:Hq; [done|].
    destruct (read_cancelled rounds 0 (conn t)) as [c|] eqn:Hc; [cbn in Hrun|done].
    apply malformed_cancelled in Hc as ->; [|done]. injection Hrun as <-.
    destruct (write_msg cut msg (conn t)) as [r c'] eqn:Hw.
    pose proof (write_msg_buffer _ _ _ _ _ Hw) as Hb.
    destruct r as [[]|e|]; (split; [done|]; split; [exact Hb|]; intros _); [by left|right; right..];
      eexists cut, msg, rest, _; by rewrite Hw.
  - rewrite malformed_read in Hrun by done. done.
  - destruct (sender_dropped t) eqn:Hd; [|done]. destruct (bool_decide_reflect (queue t = [])) as [Hq|]; [|done].
    rewrite malformed_read in Hrun by done. cbn in Hrun. injection Hrun as <-. split_and!; auto.
Qed.
End malformed.

(** What still lies before the task then: the bytes to come, and messages that can be encoded. *)
Lemma malformed_kept {S} `{BytesCrateOk, Profile} `{TcpStreamOk S} fuel (t t' : Task S) cs :
  malformed (buffer (conn t)) → task_step (Datatypes.S fuel) t t' → Forall wf_message (queue t) →
  (result t = None → delivers (stream (conn t)) cs) →
  Forall wf_message (queue t') ∧ (result t' = None → delivers (stream (conn t')) cs).
Proof.
  intros Hbad Hs Hq Hd. destruct Hs as [b t t' Hres Hrun|msg t Hwf _ Hres|t|t].
  - destruct b as [rounds cut| |]; cbn [run_iteration] in Hrun.
    + destruct (queue t) as [|msg rest]; [done|]. apply Forall_cons in Hq as [Hwf Hq].
      destruct (read_cancelled rounds 0 (conn t)) as [c|] eqn:Hc; [cbn in Hrun|done].
      apply malformed_cancelled in Hc as ->; [|done]. injection Hrun as <-. revert Hd.
      unfold write_msg, Net.encode, Messages_Encode. rewrite encode_frame by done. cbn [map_err app].
      destruct cut; [done|]. destruct (write_all_buf _ _) as [x s] eqn:Hw. apply write_all_sends in Hw.
      destruct x as [[]|e|]; [|done..]. intros Hd. split; [done|]. intros _. by apply Hw, Hd.
    + by rewrite malformed_read in Hrun.
    + destruct (sender_dropped t && _); [|done]. rewrite malformed_read in Hrun by done.
      cbn in Hrun. by injection Hrun as <-.
  - split; [|auto]. apply Forall_app. by repeat constructor.
  - auto.
  - auto.
Qed.

(** * Properties of the task *)
Section task_theorems.
Context {S : Type} `{BytesCrateOk, Profile} `{TcpStreamOk S}.

(** C10. Refinement: a connection whose peer sends the frames of
    [ms] (and then nothing, or a part of a frame), however the network cuts them, however its two
    directions interleave and however its writes end, does what two queues do. The processor has
    been given a prefix of [ms]; on the wire are the frames of what the processor sent, in
    order, less what still waits. A write that fails or reaches its time limit ends the
    connection, with its message lost and a part of that message's frame on the wire. *)
Theorem connection_refines_relay fuel (c : Connection S) ms p cs t :
  Forall wf_message ms → partial frame wf_message p → incoming c cs → (length cs < fuel)%nat →
  buffer c ++ concat cs = concat (map frame ms) ++ p →
  rtc (task_step fuel) (Task_new c) t →
  ∃ r, rtc relay_step (Relay_new ms) r ∧ delivered r ++ inbound r = ms ∧
    forwarded t = delivered r ∧ queue t = outbound r ∧
    sent (stream (conn t)) = sent (stream c) ++ concat (map frame (said r)) ++ tail_part r ∧
    (result t = None → torn r = None) ∧ (∀ m part, torn r = Some (m, part) → part `prefix_of` frame m).
Proof.
  intros Hms Hp Hin Hf Hb Hr.
  eapply steps_sim in Hr as (r & Hrelay & Hsim); [|done|exact Hf|by eapply sim_new].
  exists r. split; [done|]. split; [by eapply relay_conserves|]. by destruct Hsim.
Qed.

(** C16. A connection that has not ended can always go on: the next
    message of the peer can be forwarded while the processor listens, and the first message
    that waits can be written. *)
Theorem connection_progress `{!TcpWrites S} fuel (c : Connection S) ms p cs t :
  Forall wf_message ms → partial frame wf_message p → incoming c cs → (length cs < fuel)%nat →
  buffer c ++ concat cs = concat (map frame ms) ++ p →
  rtc (task_step fuel) (Task_new c) t → result t = None →
  (∀ m ms', ms = forwarded t ++ m :: ms' → receiver_dropped t = false →
    ∃ t', task_step fuel t t' ∧ result t' = None ∧ forwarded t' = forwarded t ++ [m]) ∧
  (∀ m q, queue t = m :: q →
    ∃ t', task_step fuel t t' ∧ result t' = None ∧ queue t' = q ∧
      sent (stream (conn t')) = sent (stream (conn t)) ++ frame m).
Proof.
  intros Hms Hp Hin Hf Hb Hr Hres.
  eapply steps_sim in Hr as (r & Hrelay & Hsim); [|done|exact Hf|by eapply sim_new].
  apply (relay_conserves ms) in Hrelay; [|done]. pose proof (ts_forwarded _ _ _ _ _ Hsim) as Hfw.
  pose proof (read_next fuel (length cs) p _ Hp Hf t r Hsim Hres) as Hnext. split.
  - intros m ms' Hm Hd. rewrite Hfw, <-Hrelay in Hm. apply app_inv_head in Hm. rewrite Hm in Hnext.
    destruct Hnext as (c' & cs' & Hr & _). eexists. split.
    + apply (task_iteration fuel FromPeer t); [done|]. cbn [run_iteration].
      rewrite Hr. cbn. by rewrite Hd.
    + done.
  - intros m q Hmq. destruct (ts_incoming _ _ _ _ _ Hsim Hres) as (cs' & Hin' & _).
    assert (wf_message m) as Hwf.
    { pose proof (ts_outbound _ _ _ _ _ Hsim) as Ho. rewrite <-(ts_queue _ _ _ _ _ Hsim), Hmq in Ho.
      by apply Forall_cons in Ho as [Ho _]. }
    by apply (write_progress fuel t m q cs'); try apply Hin'.
Qed.

(** When everything that the peer sent has been forwarded and
    the peer has closed (or reset) the connection, the task neither ends nor tells the
    processor: no branch is taken until the processor sends something or drops its sender. *)
Theorem connection_outlives_peer fuel (c : Connection S) ms p cs t b :
  Forall wf_message ms → partial frame wf_message p → incoming c cs → (length cs < fuel)%nat →
  buffer c ++ concat cs = concat (map frame ms) ++ p →
  rtc (task_step fuel) (Task_new c) t → result t = None →
  forwarded t = ms → queue t = [] → sender_dropped t = false →
  run_iteration fuel b t = None.
Proof.
  intros Hms Hp Hin Hf Hb Hr Hres Hall Hq Hd.
  eapply steps_sim in Hr as (r & Hrelay & Hsim); [|done|exact Hf|by eapply sim_new].
  apply (relay_conserves ms) in Hrelay; [|done].
  assert (inbound r = []) as Hi.
  { pose proof (ts_forwarded _ _ _ _ _ Hsim) as Hfw. rewrite <-Hall, Hfw in Hrelay.
    apply (app_inv_head (delivered r)). by rewrite app_nil_r. }
  pose proof (read_next fuel (length cs) p _ Hp Hf t r Hsim Hres) as Hnext. rewrite Hi in Hnext.
  destruct Hnext as (c' & Hr & _). destruct b as [rounds cut| |]; cbn [run_iteration].
  - by rewrite Hq.
  - rewrite Hr. cbn. by case_decide.
  - by rewrite Hd.
Qed.

(** C37. Once a frame that does not decode is at the front of the
    buffer, the connection never forwards another message, whatever the peer sends after it. But
    it goes on: the decoding error does not end it (only a write that fails does, or the processor
    that lets go of it), and each message of the processor can be written. *)
Theorem malformed_frame_wedges `{!TcpWrites S} fuel (t t1 : Task S) cs :
  decode (T := Messages) (buffer (conn t)) = Err BadId →
  delivers (stream (conn t)) cs → Forall wf_message (queue t) →
  rtc (task_step (Datatypes.S fuel)) t t1 →
  forwarded t1 = forwarded t ∧ buffer (conn t1) = buffer (conn t) ∧
  (result t1 = None → ∀ t2, task_step (Datatypes.S fuel) t1 t2 →
    result t2 = None ∨ (sender_dropped t1 = true ∧ queue t1 = []) ∨
    ∃ cut m q e, queue t1 = m :: q ∧ fst (write_msg cut m (conn t1)) = Err e ∧ result t2 = Some (Err e)) ∧
  (result t1 = None → ∀ m q, queue t1 = m :: q → ∃ t2, task_step (Datatypes.S fuel) t1 t2 ∧
    result t2 = None ∧ queue t2 = q ∧ sent (stream (conn t2)) = sent (stream (conn t1)) ++ frame m).
Proof.
  intros Hbad Hd Hq Hr.
  assert (forwarded t1 = forwarded t ∧ buffer (conn t1) = buffer (conn t) ∧ Forall wf_message (queue t1) ∧
    (result t1 = None → delivers (stream (conn t1)) cs)) as (Hf & Hb & Hq1 & Hd1).
  { clear -Hbad Hd Hq Hr H0 H3. revert t1 Hr. refine (rtc_ind_r _ _ _ _); [by auto|].
    intros t1 t2 _ Hs (Hf & Hb & Hq1 & Hd1). pose proof Hbad as Hbad1. rewrite <-Hb in Hbad1.
    destruct (malformed_step fuel t1 t2 Hbad1 Hs) as (Hf2 & Hb2 & _).
    split; [congruence|]. split; [congruence|]. by apply (malformed_kept fuel t1). }
  pose proof Hbad as Hbad1. rewrite <-Hb in Hbad1. split_and!; [done|done| |].
  - intros Hres t2 Hs. destruct (malformed_step fuel t1 t2 Hbad1 Hs) as (_ & _ & Hend).
    destruct (Hend Hres) as [?|[?|(cut & m & q & r & Hqm & <- & Hne & Hr2)]]; [by left|by right; left|].
    right. right. rewrite Hqm in Hq1. apply Forall_cons in Hq1 as [Hwf _].
    destruct (write_msg_spec cut m (conn t1) Hwf) as [(c' & Hw & _)|(e & c' & part & Hw & _)];
      rewrite Hw in Hne, Hr2; [done|].
    exists cut, m, q, e. by rewrite Hw.
  - intros Hres m q Hmq. rewrite Hmq in Hq1. apply Forall_cons in Hq1 as [Hwf _].
    exact (write_progress (Datatypes.S fuel) t1 m q cs Hres Hmq Hwf (Hd1 Hres)).
Qed.
End task_theorems.

Module PeersExamples.
Import ListBytes DevProfile ProtocolExamples NetExamples.

(** The second of three peers does not answer in time. *)
Definition answers (i : nat) (chunks : list (list byte)) : option (AnyError + chunk_stream) :=
  if decide (i = 1%nat) then None else Some (inr (chunks, [])).

Definition dial_whole : Dial chunk_stream := {|
  tcp_connect i _ := answers i [handshake_frame hs];
  handshake_in_time _ := true;
|}.

Definition dial_split : Dial chunk_stream := {|
  tcp_connect i _ := answers i
    (if decide (i = 0%nat) then [handshake_frame hs] else [take 24 (handshake_frame hs)]);
  handshake_in_time _ := true;
|}.

Definition three_peers : TrackerResponse :=
  mkTrackerResponse 900 [mkTrackerPeer (V4 10 0 0 1) 6881; mkTrackerPeer (V4 10 0 0 2) 6881;
    mkTrackerPeer (V4 10 0 0 3) 6881] None None.

Definition me : InternalPeerId := replicate 20 x0b.

Lemma connects_in_order_witness :
  connect_torrent_peers (H1 := dial_whole) 2 small_torrent me three_peers Config_default =
    Some (Ret (take 4 (successes (H3 := dial_whole) 2 small_torrent me 0 (tracker_peers three_peers)))).
Proof.
  apply (connects_in_order (H3 := dial_whole) 2 small_torrent me Config_default three_peers).
  intros [|[|[|k]]] p; cbn [lookup list_lookup tracker_peers three_peers]; intros Hp; try done;
    injection Hp as <-; vm_compute; split; discriminate.
Defined.

Example two_connections :
  length (successes (H3 := dial_whole) 2 small_torrent me 0 (tracker_peers three_peers)) = 2%nat.
Proof. vm_compute. reflexivity. Qed.

Lemma split_handshake_stops_all_witness :
  connect_torrent_peers (H1 := dial_split) 2 small_torrent me three_peers Config_default = Some Panic.
Proof.
  apply (split_handshake_stops_all (H3 := dial_split) 2 small_torrent me Config_default three_peers
    2 (mkTrackerPeer (V4 10 0 0 3) 6881) ([take 24 (handshake_frame hs)], []) hs
    (take 24 (handshake_frame hs)) (drop 24 (handshake_frame hs)) []).
  - lia.
  - intros [|[|j]] q Hq Hj; [..|lia]; injection Hq as <-; vm_compute; discriminate.
  - vm_compute. reflexivity.
  - reflexivity.
  - reflexivity.
  - reflexivity.
  - reflexivity.
  - split; reflexivity.
  - reflexivity.
  - vm_compute. split; congruence.
Defined.

(** A peer says three things and closes inside a fourth. *)
Definition chunks3 : list (list byte) := [take 3 wire; drop 3 wire; take 6 (frame piece_msg)].
Definition conn3 : Connection chunk_stream := Connection_new (chunks3, []).

Lemma three_wf : Forall wf_message three.
Proof. repeat constructor; vm_compute; try split; congruence. Qed.

Lemma rest_partial : partial frame wf_message (take 6 (frame piece_msg)).
Proof.
  right. exists piece_msg, (drop 6 (frame piece_msg)). split_and!; [|reflexivity|discriminate].
  repeat constructor; vm_compute; try split; congruence.
Qed.

Lemma conn3_incoming : incoming conn3 chunks3.
Proof. split; [reflexivity|]. repeat constructor; discriminate. Qed.

(** The processor sends a message; a message of the peer is forwarded. *)
Definition pushed1 : Task chunk_stream := mkTask conn3 [Flag Interested] false false None [].
Definition iterate (b : Branch) (t : Task chunk_stream) : Task chunk_stream :=
  default t (run_iteration 4 b t).
Definition forwarded1 : Task chunk_stream := iterate FromPeer pushed1.

Lemma pushed1_reached : rtc (task_step 4) (Task_new conn3) pushed1.
Proof. apply rtc_once. apply (task_push 4 (Flag Interested) (Task_new conn3)); done. Qed.

Lemma forwarded1_reached : rtc (task_step 4) (Task_new conn3) forwarded1.
Proof.
  eapply rtc_r; [apply pushed1_reached|].
  apply (task_iteration 4 FromPeer); [reflexivity|]. vm_compute. reflexivity.
Qed.

(** The same, but the write reaches its time limit after two bytes. *)
Definition torn1 : Task chunk_stream := iterate (FromProcessor 0 (Some 2%nat)) forwarded1.

Lemma torn1_reached : rtc (task_step 4) (Task_new conn3) torn1.
Proof.
  eapply rtc_r; [apply forwarded1_reached|].
  apply (task_iteration 4 (FromProcessor 0 (Some 2%nat))); [reflexivity|]. vm_compute. reflexivity.
Qed.

Lemma connection_refines_relay_witness :
  ∃ r, rtc relay_step (Relay_new three) r ∧ [Flag Unchoke] = delivered r ∧ [] = outbound r ∧
    take 2 (frame (Flag Interested)) = concat (map frame (said r)) ++ tail_part r.
Proof.
  destruct (connection_refines_relay 4 conn3 three (take 6 (frame piece_msg)) chunks3 torn1)
    as (r & Hr & _ & Hf & Hq & Hs & _).
  - exact three_wf.
  - exact rest_partial.
  - exact conn3_incoming.
  - simpl; lia.
  - reflexivity.
  - exact torn1_reached.
  - exists r. split; [exact Hr|]. split; [exact Hf|]. split; [exact Hq|exact Hs].
Defined.

Lemma connection_progress_witness :
  (∃ t', task_step 4 forwarded1 t' ∧ forwarded t' = [Flag Unchoke; KeepAlive]) ∧
  (∃ t', task_step 4 forwarded1 t' ∧ sent (stream (conn t')) = frame (Flag Interested)).
Proof.
  destruct (connection_progress 4 conn3 three (take 6 (frame piece_msg)) chunks3 forwarded1)
    as [Hin Hout].
  - exact three_wf.
  - exact rest_partial.
  - exact conn3_incoming.
  - simpl; lia.
  - reflexivity.
  - exact forwarded1_reached.
  - reflexivity.
  - destruct (Hin KeepAlive [piece_msg]) as (t1 & Hs1 & _ & Hf1); [reflexivity|reflexivity|].
    destruct (Hout (Flag Interested) []) as (t2 & Hs2 & _ & _ & Hf2); [reflexivity|].
    split; [exists t1; split; [exact Hs1|exact Hf1]|exists t2; split; [exact Hs2|exact Hf2]].
Defined.

(** Everything is forwarded; nothing waits to be written. *)
Definition all_forwarded : Task chunk_stream :=
  iterate FromPeer (iterate FromPeer (iterate FromPeer (Task_new conn3))).

Lemma all_forwarded_reached : rtc (task_step 4) (Task_new conn3) all_forwarded.
Proof.
  do 3 (eapply rtc_l; [apply (task_iteration 4 FromPeer); [reflexivity|vm_compute; reflexivity]|]).
  apply rtc_refl.
Qed.

Lemma connection_outlives_peer_witness :
  run_iteration 4 FromPeer all_forwarded = None.
Proof.
  apply (connection_outlives_peer 4 conn3 three (take 6 (frame piece_msg)) chunks3 all_forwarded
    FromPeer).
  - exact three_wf.
  - exact rest_partial.
  - exact conn3_incoming.
  - simpl; lia.
  - reflexivity.
  - exact all_forwarded_reached.
  - reflexivity.
  - reflexivity.
  - reflexivity.
  - reflexivity.
Defined.

(** The identifier 99 is followed by a message that is never read. *)
Definition bad_task : Task chunk_stream :=
  Task_new (mkConnection ([frame KeepAlive], []) (be_bytes 4 1 ++ [x63])).

(** The processor's message is still written, with the frame still in the buffer. *)
Definition bad_pushed : Task chunk_stream :=
  mkTask (conn bad_task) [Flag Interested] false false None [].
Lemma bad_pushed_reached : rtc (task_step 4) bad_task bad_pushed.
Proof. apply rtc_once, (task_push 4 (Flag Interested) bad_task); done. Qed.

Lemma malformed_frame_wedges_witness :
  forwarded bad_pushed = [] ∧ buffer (conn bad_pushed) = buffer (conn bad_task) ∧
  ∃ t2, task_step 4 bad_pushed t2 ∧ sent (stream (conn t2)) = frame (Flag Interested).
Proof.
  destruct (malformed_frame_wedges 3 bad_task bad_pushed [frame KeepAlive])
    as (Hf & Hb & _ & Hw).
  - vm_compute. reflexivity.
  - reflexivity.
  - constructor.
  - exact bad_pushed_reached.
  - split; [exact Hf|]. split; [exact Hb|].
    destruct (Hw eq_refl (Flag Interested) [] eq_refl) as (t2 & Hs & _ & _ & Ht).
    exists t2. split; [exact Hs|exact Ht].
Defined.
End PeersExamples.
