(* ===== verification/Startup.v ===== *)
(** Start-up: [main] of [src/src/main.rs] and [start_processing] of
    [src/src/peer/mod.rs], from the bytes of a metainfo file to a processor with
    its storage and the connections to its peers.

    The command line, logging and the creation of the download file are
    parameters; the tasks that are spawned are what [System.v] runs. *)
From S2P Require Import Prelude ByteStr BytesCrate Model Protocol Errors Net Collections Allocation.
From S2P Require Import Slices Io FileIo Piece State Processor Swarm Ip Bencode Metainfo Tracker Peers.
From Stdlib Require Import ZArith.

(** [Box<dyn TorrentIO>]: the operations of whichever storage it holds. *)
#[export] Instance either_io {A B} `{TorrentIO A, TorrentIO B} : TorrentIO (A + B) := {|
  write_piece index begin block io :=
    match io with
    | inl a => let '(r, a) := write_piece index begin block a in (r, inl a)
    | inr b => let '(r, b) := write_piece index begin block b in (r, inr b)
    end;
  read_piece index begin length io :=
    match io with
    | inl a => let '(r, a) := read_piece index begin length a in (r, inl a)
    | inr b => let '(r, b) := read_piece index begin length b in (r, inr b)
    end;
|}.

#[export] Program Instance either_bounded {A B} `{BoundedIO A, BoundedIO B} : BoundedIO (A + B) := {|
  io_bounded io := match io with inl a => io_bounded a | inr b => io_bounded b end;
|}.
Next Obligation.
  intros A B HA IA HB IB i b block [a|m] r s' Hw Hs; cbn in Hw;
    destruct (write_piece i b block _) as [x s1] eqn:He; injection Hw as <- <-;
    exact (write_bounded _ _ _ _ _ _ He Hs).
Qed.
Next Obligation.
  intros A B HA IA HB IB i b k [a|m] r s' Hw Hs; cbn in Hw;
    destruct (read_piece i b k _) as [x s1] eqn:He; injection Hw as <- <-;
    exact (read_bounded _ _ _ _ _ _ He Hs).
Qed.
Next Obligation.
  intros A B HA IA HB IB i b k [a|m] block s' Hw Hb Hk Hs; cbn in Hw;
    destruct (read_piece i b k _) as [x s1] eqn:He; injection Hw as -> <-;
    exact (read_fits _ _ _ _ _ _ He Hb Hk Hs).
Qed.

Section startup.
Context {C F E : Type} `{BytesCrate, Profile} `{TcpStream C, Dial C} `{FileApi F}.
Context `{Nom} `{UrlCrate}.
Context (sha1 : list byte → list byte).
(** [File::create_new] in the directory named after the torrent and the time. *)
Context (create_new : list byte → Z → AnyError + F).
Context (http_get : list byte → outcome E (list byte)).

(** Errors that [start_processing] returns. *)
Inductive StartError := StartIo (e : AnyError) | StartAnnounce (e : AnnounceError E).

(** The storage lives in the I/O task, the connections in their own tasks. *)
Record Started := mkStarted {
  our_id : InternalPeerId;
  torrent_processor : Proc Z (SimNet (FileTorrentIO F + MemoryTorrentIO));
  connections : list (Handshake * Connection C);
}.

Definition create_storage (config : Config) (torrent : V1Torrent) (now : Z)
    : outcome AnyError (FileTorrentIO F + MemoryTorrentIO) :=
  if use_file_writer config then
    _ ← allocate_torrent torrent;
    file ← (match create_new (name (info torrent)) (now / 1000000000) with inr f => Ret f | inl e => Err e end);
    io ← FileTorrentIO_new torrent file;
    Ret (inl io)
  else
    io ← MemoryTorrentIO_new torrent;
    Ret (inr io).

(** [inner_start_processing]: the processor is running when the tracker is
    asked; the connections follow. *)
Definition inner_start_processing (fuel stack : nat) (torrent : V1Torrent)
    (processor : Proc Z (SimNet (FileTorrentIO F + MemoryTorrentIO))) (our_id : InternalPeerId)
    (config : Config) : option (outcome StartError Started) :=
  match get_announce http_get stack (TrackerClient_new torrent our_id) with
  | Ret tracker_response =>
      conns ← connect_torrent_peers fuel torrent our_id tracker_response config;
      Some (connections ← map_err StartIo conns; Ret (mkStarted our_id processor connections))
  | Err e => Some (Err (StartAnnounce e))
  | Panic => Some Panic
  end.

Definition start_processing (fuel stack : nat) (torrent : V1Torrent) (config : Config) (now : Z)
    : option (outcome StartError Started) :=
  match make_peer_id (E := StartError) sha1 now with
  | Ret our_id =>
      match create_storage config torrent now with
      | Ret io =>
          inner_start_processing fuel stack torrent
            (Proc_new torrent (max_outstanding_requests config) (mkSim [] [] [] (Some io))) our_id config
      | Err e => Some (Err (StartIo e))
      | Panic => Some Panic
      end
  | Err e => Some (Err e)
  | Panic => Some Panic
  end.

(** [main] on the bytes of the file: [Ret None] when it prints an error and
    ends, [Err] when it logs the error of [start_processing] and ends; the
    conversion to a torrent is [unwrap]ped. *)
Definition main (fuel stack : nat) (torrent : list byte) (config : Config) (now : Z)
    : option (outcome StartError (option Started)) :=
  match parse_bencode stack torrent with
  | Ret parsed =>
      match V1Torrent_try_from sha1 parsed with
      | Ret torrent =>
          r ← start_processing fuel stack torrent config now;
          Some (started ← r; Ret (Some started))
      | Err _ | Panic => Some Panic
      end
  | Err _ => Some (Ret None)
  | Panic => Some Panic
  end.
End startup.
Arguments StartError : clear implicits.

(** * Properties *)

Section startup_properties.
Context {C F E : Type} `{BytesCrateOk, Profile} `{TcpStreamOk C} `{Dial C} `{FileApi F}.
Context `{NomOk} `{UrlCrateOk}.
Context (sha1 : list byte → list byte) (create_new : list byte → Z → AnyError + F).
Context (http_get : list byte → outcome E (list byte)).

(** A start-up that succeeds, on any storage. *)
Lemma main_starts fuel stack bytes config now t u r resp io :
  (b ← parse_bencode stack bytes; V1Torrent_try_from sha1 b) = Ret t → 0 ≤ now →
  let id := sha1 (bs "ben-" ++ dec (now / 1000000000)) in
  url_parse (announce t) = Some u →
  http_get (request_url u t id) = Ret r →
  (v ← parse_bencode stack r; TrackerResponse_try_from v) = Ret resp →
  (∀ k p, tracker_peers resp !! k = Some p →
    attempt fuel t id k p ≠ None ∧ attempt fuel t id k p ≠ Some Panic) →
  create_storage create_new config t now = Ret io →
  main (F := F) sha1 create_new http_get fuel stack bytes config now =
    Some (Ret (Some (mkStarted id
      (Proc_new t (max_outstanding_requests config) (mkSim [] [] [] (Some io)))
      (take (Z.to_nat (max_conns config)) (successes fuel t id 0 (tracker_peers resp)))))).
Proof.
  intros Ht Hnow id Hu Hget Hresp Hok Hio.
  apply bind_ret_inv in Ht as (b & Hb & Ht). apply bind_ret_inv in Hresp as (v & Hv & Hresp).
  unfold main. rewrite Hb, Ht. unfold start_processing, make_peer_id.
  rewrite (proj2 (Z.ltb_ge _ _)) by done. fold id. rewrite Hio.
  unfold inner_start_processing, get_announce.
  rewrite (tracker_url_spec t id u Hu), bind_ret, Hget. cbn [map_err]. rewrite bind_ret, Hv.
  cbn [map_err]. rewrite bind_ret, Hresp. cbn [map_err].
  unfold connect_torrent_peers. rewrite (connect_loop_spec _ _ _ _ _ 0 []);
    [|done|rewrite zlen_nil; lia].
  rewrite Nat.sub_0_r. done.
Qed.

(** C17. A start-up that succeeds, on in-memory storage: from a metainfo
    file of consistent geometry and an answer of the tracker, when no handshake panics, the
    program starts a processor for the torrent of the file on a fresh storage, and connects
    to the first peers of the answer that can be reached, as many as it is configured to. *)
Theorem start_up_ready fuel stack bytes config now t u r io :
  (b ← parse_bencode stack bytes; V1Torrent_try_from sha1 b) = Ret t → wf_torrent t →
  use_file_writer config = false → 0 ≤ now →
  let id := sha1 (bs "ben-" ++ dec (now / 1000000000)) in
  url_parse (announce t) = Some u →
  http_get (request_url u t id) = Ret r →
  ∀ resp, (v ← parse_bencode stack r; TrackerResponse_try_from v) = Ret resp →
  (∀ k p, tracker_peers resp !! k = Some p →
    attempt fuel t id k p ≠ None ∧ attempt fuel t id k p ≠ Some Panic) →
  MemoryTorrentIO_new t = Ret io →
  main (F := F) sha1 create_new http_get fuel stack bytes config now =
    Some (Ret (Some (mkStarted id
      (Proc_new t (max_outstanding_requests config) (mkSim [] [] [] (Some (inr io))))
      (take (Z.to_nat (max_conns config)) (successes fuel t id 0 (tracker_peers resp)))))).
Proof.
  intros Ht Hwf Hfile Hnow id Hu Hget resp Hresp Hok Hio. eapply main_starts; try done.
  unfold create_storage. by rewrite Hfile, Hio, bind_ret.
Qed.
End startup_properties.

Module StartupExamples.
Import ListBytes ListNom ListUrl DevProfile NetExamples MetainfoExamples PeersExamples.

(** A digest, an answer that names three peers, a configuration without a file. *)
Definition sha (l : list byte) : list byte := replicate 20 x01.
Definition entry (ip : string) : Bencode :=
  Dictionary [(bs "ip", ByteString (bs ip)); (bs "port", Int 6881)].
Definition three_answer : list byte := encode (Dictionary
  [(bs "interval", Int 900); (bs "peers", BList [entry "10.0.0.1"; entry "10.0.0.2"; entry "10.0.0.3"])]).
Definition in_memory : Config := mkConfig false 1 128 128 2 128.
Definition no_file (name : list byte) (seconds : Z) : AnyError + FileExamples.mem_file := inl (AE_Io 0).

Definition torrent_read : V1Torrent :=
  mkTorrent (mkInfo 5 8 [mkPiece digest] (bs "a") (replicate 20 x01)) (bs "http://t") [].
Definition io_read_ : MemoryTorrentIO :=
  match MemoryTorrentIO_new torrent_read with Ret io => io | _ => mkMemoryIO [] end.

#[local] Existing Instance dial_whole.
#[local] Existing Instance FileExamples.mem_file_api.

Lemma start_up_ready_witness :
  main (E := unit) (F := FileExamples.mem_file) sha no_file (λ _, Ret three_answer) 2 9
    (encode (Dictionary metainfo)) in_memory 1700000000000000000 =
  Some (Ret (Some (mkStarted (replicate 20 x01)
    (Proc_new torrent_read 128 (mkSim [] [] [] (Some (inr io_read_))))
    (take 1 (successes 2 torrent_read (replicate 20 x01) 0 (tracker_peers three_peers)))))).
Proof.
  apply (start_up_ready sha no_file (λ _, Ret three_answer) 2 9 (encode (Dictionary metainfo)) in_memory
    1700000000000000000 torrent_read ((bs "http://t", None) : @Url list_url) three_answer io_read_) with (resp := three_peers).
  - vm_compute. reflexivity.
  - vm_compute. split_and!; congruence.
  - reflexivity.
  - discriminate.
  - vm_compute. reflexivity.
  - reflexivity.
  - vm_compute. reflexivity.
  - intros [|[|[|k]]] p; cbn [lookup list_lookup tracker_peers three_peers]; intros Hp; try done;
      injection Hp as <-; vm_compute; split; discriminate.
  - reflexivity.
Defined.

(** Not a bencoded file: an error is printed. A bencoded file that is no torrent: a panic. *)
Example not_bencoded :
  main (E := unit) (F := FileExamples.mem_file) sha no_file (λ _, Ret three_answer) 2 9
    (bs "hello") in_memory 0 = Some (Ret None).
Proof. vm_compute. reflexivity. Qed.
Example not_a_torrent :
  main (E := unit) (F := FileExamples.mem_file) sha no_file (λ _, Ret three_answer) 2 9
    (bs "de") in_memory 0 = Some Panic.
Proof. vm_compute. reflexivity. Qed.
End StartupExamples.
