(* ===== verification/System.v ===== *)
(** The components together: the processor of [src/src/peer/state/mod.rs], a task
    per connection of [src/src/peer/net.rs] and the channels between them.

    A channel is a number. What the processor sends into channel [tx] waits in
    the queue of the task of [tx]; what this task forwards is taken in order by
    the handler that the processor runs for [tx]; what the handlers send to the
    processor itself is taken in order by its main loop. *)
From S2P Require Import Prelude ByteStr BytesCrate Model Protocol Errors Net Collections Allocation.
From S2P Require Import Slices Io Piece State Processor Traffic Swarm Ip Bencode Metainfo Peers.
From Stdlib Require Import ZArith Lia.

(** [tasks]: each task, with how many of the messages it forwarded have been
    taken by their handler. [woken_taken]: how many wake-ups were taken. *)
Record System (C S : Type) := mkSystem {
  processor : Proc Z (SimNet S);
  tasks : gmap Z (Task C * nat);
  woken_taken : nat;
}.
Arguments mkSystem {C S} _ _ _.
Arguments processor {C S} _.
Arguments tasks {C S} _.
Arguments woken_taken {C S} _.

(** The messages for channel [tx] in a log. *)
Definition msgs_to (tx : Z) (log : list (Z * Messages)) : list Messages :=
  map snd (filter (λ m, m.1 = tx) log).

Definition push_all {C} (l : list Messages) (t : Task C) : Task C :=
  mkTask (conn t) (queue t ++ l) (sender_dropped t) (receiver_dropped t) (result t) (forwarded t).

(** What was sent since [old] goes into the queues. *)
Definition deliver {C S} (old new : SimNet S) (ts : gmap Z (Task C * nat)) : gmap Z (Task C * nat) :=
  let fresh := drop (length (sim_sent old)) (sim_sent new) in
  map_imap (λ tx '(t, k), Some (push_all (msgs_to tx fresh) t, k)) ts.

(** The processor has moved on to [p]. *)
Definition advance_processor {C S} (p : Proc Z (SimNet S)) (ts : gmap Z (Task C * nat))
    (taken : nat) (s : System C S) : System C S :=
  mkSystem p (deliver (net (world (processor s))) (net (world p)) ts) taken.

(** A channel whose task has ended refuses messages. *)
Definition close_channel {S} (tx : Z) (p : Proc Z (SimNet S)) : Proc Z (SimNet S) :=
  let e := net (world p) in
  mkProc (mkWorld (inner (world p)) (mkSim (sim_sent e) (sim_woken e) (tx :: sim_closed e) (sim_storage e)))
    (peer_to_tx p) (handlers p) (finished p).

(** The peer of a channel: the bytes it was sent in the handshake, the messages
    it says, the part of a frame it ends with. *)
Record Script := mkScript { greeting : list byte; says : list Messages; breaks_off : list byte }.

Class Scripts := script : Z → Script.

Class ScriptsOk `(Scripts) : Prop := {
  says_ok tx : Forall wf_message (says (script tx));
  breaks_off_ok tx : partial frame wf_message (breaks_off (script tx));
}.

Section system.
Context {C S : Type} `{Net.TcpStreamOk C} `{TorrentIO S} `{BytesCrate, Profile, Scripts}.

Definition System_new (torrent : V1Torrent) (max : Z) (e : SimNet S) : System C S :=
  mkSystem (Proc_new torrent max e) ∅ 0.

(** A connection after its handshake, whose peer follows the script. *)
Definition opening (fuel : nat) (tx : Z) (c : Connection C) : Prop :=
  ∃ cs, incoming c cs ∧ (length cs < fuel)%nat ∧
    buffer c ++ concat cs = concat (map frame (says (script tx))) ++ breaks_off (script tx) ∧
    Net.sent (stream c) = greeting (script tx).

(** What the wire of a task carries after [w0], when [log] was sent into its channel: the frames
    of [log], in order, less the messages that wait. When a write has failed, the message it was
    of is lost, and a part of its frame is the last thing on the wire. *)
Definition carries (log : list Messages) (w0 : list byte) (t : Task C) : Prop :=
  ∃ said,
    (log = said ++ queue t ∧ Net.sent (stream (conn t)) = w0 ++ concat (map frame said)) ∨
    (∃ m part, log = said ++ m :: queue t ∧ is_Some (result t) ∧ part `prefix_of` frame m ∧
      Net.sent (stream (conn t)) = w0 ++ concat (map frame said) ++ part).

(** The network before anything was sent, with a storage of short pieces. *)
Definition quiet_start `{!BoundedIO S} (e : SimNet S) : Prop :=
  sim_sent e = [] ∧ sim_woken e = [] ∧ net_bounded (Tx := Z) e.

(** An arm of the main loop, from instant [i] to instant [j]: the processor, the tasks
    and the count of wake-ups taken afterwards, without what it sent being delivered. *)
Inductive main_event (fuel : nat) (i : Z) (s : System C S) :
    Z → Proc Z (SimNet S) → gmap Z (Task C * nat) → nat → Prop :=
  | main_accept h tx c p' : tasks s !! tx = None →
      msgs_to tx (sim_sent (net (world (processor s)))) = [] → opening fuel tx c →
      accept_peer h tx (processor s) = Ret p' →
      main_event fuel i s i p' (<[tx := (Task_new c, 0%nat)]> (tasks s)) (woken_taken s)
  | main_finished q (O : HashOrder) : HashOrderOk O → q ∈ finished (processor s) →
      main_event fuel i s i (handler_finished q (processor s)) (tasks s) (woken_taken s)
  | main_wake j msg clock p' (O : HashOrder) : HashOrderOk O →
      (∀ a b, a ≤ b → clock a ≤ clock b) → (∀ a, i ≤ clock a ≤ j) →
      sim_woken (net (world (processor s))) !! woken_taken s = Some msg →
      wake_event clock msg (processor s) = Ret p' →
      main_event fuel i s j p' (tasks s) (Datatypes.S (woken_taken s))
  | main_timer now p' (O : HashOrder) : HashOrderOk O → i ≤ now →
      timer_event now (processor s) = Ret p' →
      main_event fuel i s now p' (tasks s) (woken_taken s).

Inductive sys_step (fuel : nat) : Z * System C S → Z * System C S → Prop :=
  | sys_main i s j p' ts k : main_event fuel i s j p' ts k →
      sys_step fuel (i, s) (j, advance_processor p' ts k s)
  | sys_message i s q tx t k msg p' : (q, tx) ∈ handlers (processor s) →
      tasks s !! tx = Some (t, k) → forwarded t !! k = Some msg →
      peer_message (q, tx) msg (processor s) = Ret p' →
      sys_step fuel (i, s)
        (i, advance_processor p' (<[tx := (t, Datatypes.S k)]> (tasks s)) (woken_taken s) s)
  | sys_eof i s q tx t k : (q, tx) ∈ handlers (processor s) →
      tasks s !! tx = Some (t, k) → is_Some (result t) → k = length (forwarded t) →
      sys_step fuel (i, s) (i, mkSystem (stop_handler (q, tx) (processor s)) (tasks s) (woken_taken s))
  | sys_task i s tx t k b t' : tasks s !! tx = Some (t, k) → result t = None →
      run_iteration fuel b t = Some t' →
      sys_step fuel (i, s)
        (i, mkSystem (if result t' is Some _ then close_channel tx (processor s) else processor s)
          (<[tx := (t', k)]> (tasks s)) (woken_taken s))
  | sys_drop_sender i s tx t k : tasks s !! tx = Some (t, k) →
      (∀ q, peer_to_tx (processor s) !! q ≠ Some tx) → (∀ q, (q, tx) ∉ handlers (processor s)) →
      sys_step fuel (i, s) (i, mkSystem (processor s)
        (<[tx := (mkTask (conn t) (queue t) true (receiver_dropped t) (result t) (forwarded t), k)]> (tasks s))
        (woken_taken s))
  | sys_drop_receiver i s tx t k : tasks s !! tx = Some (t, k) →
      (∀ q, (q, tx) ∉ handlers (processor s)) →
      sys_step fuel (i, s) (i, mkSystem (processor s)
        (<[tx := (mkTask (conn t) (queue t) (sender_dropped t) true (result t) (forwarded t), k)]> (tasks s))
        (woken_taken s)).
End system.

(** * Invariant *)

Section system_facts.
Context {C S : Type} `{Net.TcpStreamOk C} `{BoundedIO S} `{BytesCrateOk, Profile, ScriptsOk}.
Context (fuel : nat) (tor : V1Torrent) (Hwf : wf_torrent tor).
Abbreviation System := (System C S).
Abbreviation log s := (sim_sent (net (world (processor s)))).

(** Each connection is the relay of its peer's script and of what the processor
    has sent into its channel. *)
Definition task_inv (tx : Z) (log : list (Z * Messages)) (t : Task C) (k : nat) : Prop :=
  ∃ n r, (n < fuel)%nat ∧ task_sim n (breaks_off (script tx)) (greeting (script tx)) t r ∧
    delivered r ++ inbound r = says (script tx) ∧
    said r ++ lost r ++ outbound r = msgs_to tx log ∧
    (k ≤ length (forwarded t))%nat.

Definition tasks_inv (log : list (Z * Messages)) (ts : gmap Z (Task C * nat)) : Prop :=
  ∀ tx t k, ts !! tx = Some (t, k) → task_inv tx log t k.

Lemma tasks_inv_insert lg ts tx t k : tasks_inv lg ts → task_inv tx lg t k →
  tasks_inv lg (<[tx := (t, k)]> ts).
Proof.
  intros Hts Ht tx' t' k' Hl. apply lookup_insert_Some in Hl as [[<- [= <- <-]]|[_ Hl]]; [done|].
  by apply Hts.
Qed.

Lemma msgs_to_app tx l k : msgs_to tx (l ++ k) = msgs_to tx l ++ msgs_to tx k.
Proof. unfold msgs_to. by rewrite filter_app, map_app. Qed.

Lemma msgs_to_Forall (P : Messages → Prop) tx l : Forall (λ m, P m.2) l → Forall P (msgs_to tx l).
Proof.
  intros Hl. apply Forall_map, Forall_forall. intros m [_ Hm]%list_elem_of_filter.
  by eapply Forall_forall in Hl.
Qed.

(** Sending fills the queues. *)
Lemma deliver_inv (old new : SimNet S) l ts : tasks_inv (sim_sent old) ts →
  sim_sent new = sim_sent old ++ l → Forall (λ m, wf_message m.2) l →
  tasks_inv (sim_sent new) (deliver old new ts).
Proof.
  intros Hts Hnew Hl tx t k. unfold deliver. rewrite Hnew, drop_app_length, map_lookup_imap.
  destruct (ts !! tx) as [[t0 k0]|] eqn:Ht; [|done]. cbn. intros [= <- <-].
  destruct (Hts _ _ _ Ht) as (n & r & Hn & Hsim & Hin & Hout & Hk).
  exists n, (mkRelay (inbound r) (delivered r) (outbound r ++ msgs_to tx l) (said r) (torn r)).
  split; [done|]. split; [|split; [done|split; [|done]]].
  - destruct Hsim. split; cbn [conn forwarded queue push_all inbound delivered outbound said]; try done.
    + by rewrite ts_queue.
    + apply Forall_app. split; [done|]. by apply msgs_to_Forall.
  - rewrite msgs_to_app, <-Hout. cbn [said outbound]. by rewrite <-!app_assoc.
Qed.

Lemma task_inv_new tx c lg : opening fuel tx c → msgs_to tx lg = [] →
  task_inv tx lg (Task_new c) 0.
Proof.
  intros (cs & Hin & Hf & Hb & Hs) Hlg. exists (length cs), (Relay_new (says (script tx))).
  split; [done|]. split; [apply (sim_new _ _ _ _ _ cs); try done; by apply says_ok|].
  split; [done|]. split; [by rewrite Hlg|]. cbn. lia.
Qed.

Lemma relay_delivers r r' : rtc relay_step r r' → (length (delivered r) ≤ length (delivered r'))%nat.
Proof.
  induction 1 as [|r r1 r' Hs _ IH]; [done|]. etransitivity; [|exact IH].
  destruct Hs; cbn; rewrite ?length_app; lia.
Qed.

Lemma task_inv_step tx lg t k b t' : task_inv tx lg t k → result t = None →
  run_iteration fuel b t = Some t' → task_inv tx lg t' k.
Proof.
  intros (n & r & Hn & Hsim & Hin & Hout & Hk) Hres Hrun.
  apply (iteration_sim fuel n (breaks_off (script tx)) _ (breaks_off_ok tx) Hn b t t' r Hsim Hres)
    in Hrun as (r' & Hr & Hsim' & Hsame).
  exists n, r'. split; [done|]. split; [done|]. split; [by eapply relay_conserves|].
  split; [congruence|]. apply relay_delivers in Hr. destruct Hsim, Hsim'. congruence || (rewrite ts_forwarded0, ts_forwarded in *; lia).
Qed.

Lemma handled_wf tx lg t k msg : task_inv tx lg t k → forwarded t !! k = Some msg → wf_message msg.
Proof.
  intros (n & r & _ & Hsim & Hin & _) Hm. pose proof (says_ok tx) as Hok.
  rewrite <-Hin in Hok. apply Forall_app in Hok as [Hok _]. destruct Hsim.
  rewrite ts_forwarded in Hm. by eapply Forall_lookup_1 in Hok.
Qed.

Lemma wf_msg_ok msg : wf_message msg → msg_ok msg.
Proof. destruct msg; cbn; zlia || done. Qed.

(** A step of the system is a step of the processor, or the processor waits. *)
Lemma main_proc_step i s j (p' : Proc Z (SimNet S)) ts k : main_event fuel i s j p' ts k →
  proc_step (i, processor s) (j, p').
Proof.
  intros [h tx c p2 _ _ _ Hp|q O HO Hq|j2 msg clock p2 O HO Hmono Hc _ Hp|now p2 O HO Hn Hp].
  - by eapply step_accept.
  - by apply (step_finished _ _ _ O).
  - by eapply (step_wake _ _ _ msg clock _ O).
  - by eapply (step_timer _ _ _ _ O).
Qed.

Lemma sys_proc_step (x y : Z * System) : tasks_inv (log x.2) (tasks x.2) → sys_step fuel x y →
  rtc proc_step (x.1, processor x.2) (y.1, processor y.2).
Proof.
  intros Hinv Hs. destruct Hs as [i s j p' ts k Hm|i s q tx t k msg p' Hh Ht Hm Hp
    |i s q tx t k Hh _ _ _|i s tx t k b t' Ht _ Hrun|i s tx t k _ _ _|i s tx t k _ _];
    cbn [fst snd processor advance_processor] in *.
  - by eapply rtc_once, main_proc_step.
  - eapply rtc_once, (step_message _ _ (q, tx) msg); [done| |done].
    eapply wf_msg_ok, handled_wf; [by apply Hinv|done].
  - by apply rtc_once, step_eof.
  - destruct (result t'); [|done]. by apply rtc_once, step_env.
  - done.
  - done.
Qed.

Lemma proc_steps_log (x y : Z * Proc Z (SimNet S)) : rtc proc_step x y →
  ∃ l, sim_sent (net (world y.2)) = sim_sent (net (world x.2)) ++ l.
Proof.
  induction 1 as [x|x x1 y Hs _ (l & IH)]; [exists []; by rewrite app_nil_r|].
  apply proc_step_log in Hs as (l1 & Hl1 & _). cbn in Hl1. exists (l1 ++ l). by rewrite IH, Hl1, app_assoc.
Qed.

(** The state of the processor, with what it sent and what it is to be told. *)
Lemma sys_step_traffic (x y : Z * System) : tasks_inv (log x.2) (tasks x.2) → sys_step fuel x y →
  traffic_ok tor x.1 (processor x.2) → traffic_ok tor y.1 (processor y.2).
Proof.
  intros Hinv Hs Ht. destruct Hs as [i s j p' ts k Hm|i s q tx t k msg p' Hh Htk Hm Hp
    |i s q tx t k Hh _ _ _|i s tx t k b t' Htk _ Hrun|i s tx t k _ _ _|i s tx t k _ _];
    cbn [fst snd processor advance_processor] in *.
  - destruct Hm as [h tx c p2 _ _ _ Hp|q O HO Hq|j2 msg clock p2 O HO Hmono Hc Hw Hp|now p2 O HO Hn Hp].
    + by eapply traffic_accept.
    + by apply traffic_finished.
    + eapply (traffic_wake tor Hwf i j2 clock msg); [done| |done..].
      by apply (Forall_lookup_1 _ _ _ _ (traffic_woken _ _ _ Ht) Hw).
    + by eapply (traffic_timer tor i now).
  - apply (traffic_message tor i (q, tx) msg (processor s) p' Ht); [|done].
    eapply handled_wf; [by apply Hinv|done].
  - destruct Ht. by split.
  - destruct (result t'); [|done]. destruct Ht. by split.
  - done.
  - done.
Qed.

Lemma sys_step_tasks (x y : Z * System) : tasks_inv (log x.2) (tasks x.2) → sys_step fuel x y →
  Forall (λ m, wf_message m.2) (log y.2) → tasks_inv (log y.2) (tasks y.2).
Proof.
  intros Hinv Hs. pose proof (proc_steps_log _ _ (sys_proc_step x y Hinv Hs)) as (l & Hl).
  assert (∀ (p : Proc Z (SimNet S)) ts k (s : System), tasks_inv (log s) ts →
    sim_sent (net (world p)) = log s ++ l → Forall (λ m, wf_message m.2) (sim_sent (net (world p))) →
    tasks_inv (sim_sent (net (world p))) (tasks (advance_processor p ts k s))) as Hadv.
  { intros p ts k s Hts Hp Hlog. rewrite Hp in Hlog. apply Forall_app in Hlog as [_ Hlog].
    by eapply deliver_inv. }
  intros Hlog. destruct Hs as [i s j p' ts k Hm|i s q tx t k msg p' Hh Ht Hm Hp
    |i s q tx t k Hh _ _ _|i s tx t k b t' Ht Hres Hrun|i s tx t k Ht _ _|i s tx t k Ht _]; cbn [fst snd] in *.
  - apply Hadv; [|done..]. destruct Hm as [h tx c p2 Hn Hlg Ho Hp|q O HO Hq|j2 msg clock p2 O HO Hmono Hc Hw Hp
      |now p2 O HO Hn Hp]; [|done..]. apply tasks_inv_insert; [done|]. by apply task_inv_new.
  - apply Hadv; [|done..]. apply tasks_inv_insert; [done|].
    destruct (Hinv _ _ _ Ht) as (n & r & ? & ? & ? & ? & ?). exists n, r. split_and!; try done.
    by apply lookup_lt_Some in Hm.
  - done.
  - assert (log (mkSystem (if result t' is Some _ then close_channel tx (processor s) else processor s)
      (<[tx := (t', k)]> (tasks s)) (woken_taken s)) = log s) as -> by (cbn; by destruct (result t')).
    apply tasks_inv_insert; [done|]. eapply task_inv_step; [by apply Hinv|done|done].
  - apply tasks_inv_insert; [done|]. destruct (Hinv _ _ _ Ht) as (n & r & ? & [] & ? & ? & ?).
    by exists n, r.
  - apply tasks_inv_insert; [done|]. destruct (Hinv _ _ _ Ht) as (n & r & ? & [] & ? & ? & ?).
    by exists n, r.
Qed.

(** The invariant of the system holds in all of its runs, which are runs of the
    processor. *)
Lemma sys_reachable max c0 (e : SimNet S) (y : Z * System) : 0 ≤ max < 2 ^ 64 → quiet_start e →
  rtc (sys_step fuel) (c0, System_new tor max e) y →
  tasks_inv (log y.2) (tasks y.2) ∧ traffic_ok tor y.1 (processor y.2) ∧
  rtc proc_step (c0, Proc_new tor max e) (y.1, processor y.2).
Proof.
  intros Hm (Hs & Hk & Hb). revert y. refine (rtc_ind_r _ _ _ _).
  - split_and!; [|by apply traffic_new|done]. intros tx t k Ht. cbn in Ht. by rewrite lookup_empty in Ht.
  - intros y z _ Hstep (Hy & Ht & Hp). pose proof (sys_step_traffic y z Hy Hstep Ht) as Ht'.
    split_and!; [eapply sys_step_tasks; [done..|apply (traffic_sent _ _ _ Ht')]|done|].
    etransitivity; [exact Hp|]. by apply sys_proc_step.
Qed.

(** What the invariant says of a connection. *)
Lemma task_inv_spec tx lg t k : task_inv tx lg t k →
  forwarded t `prefix_of` says (script tx) ∧ (k ≤ length (forwarded t))%nat ∧
  carries (msgs_to tx lg) (greeting (script tx)) t.
Proof.
  intros (n & r & _ & Hsim & Hin & Hout & Hk). destruct Hsim.
  split_and!; [exists (inbound r); by rewrite <-Hin, ts_forwarded|done|]. exists (said r).
  rewrite <-Hout, ts_queue. unfold tail_part, lost in *.
  destruct (torn r) as [[m part]|] eqn:Ht; [right|left; by rewrite app_nil_r in ts_sent].
  exists m, part. split_and!; [done| |by apply ts_tail|done].
  destruct (result t); [by eexists|]. by specialize (ts_torn eq_refl).
Qed.
End system_facts.

(** * Properties *)

Section system_properties.
Context {C S : Type} `{Net.TcpStreamOk C} `{BoundedIO S} `{BytesCrateOk, Profile, ScriptsOk}.

(** C7. Refinement, for the components put together: every run of the
    system on a storage whose pieces fit a frame is a run of the processor (its invariant and its safety hold in the system), all that
    the processor sends can be encoded, and on each channel the handler has been given the
    first [k] messages that the peer put on the wire, while the wire to the peer carries, after
    the handshake, the frames of the messages the processor sent into the channel, in order,
    less those still queued; where a failed write ended the task, one message less and a part of
    its frame. *)
Theorem system_refines fuel torrent max c0 (e : SimNet S) c (s : System C S) :
  wf_torrent torrent → 0 ≤ max < 2 ^ 64 → quiet_start e →
  rtc (sys_step fuel) (c0, System_new torrent max e) (c, s) →
  rtc proc_step (c0, Proc_new torrent max e) (c, processor s) ∧
  Forall (λ m, wf_message m.2) (sim_sent (net (world (processor s)))) ∧
  ∀ tx t k, tasks s !! tx = Some (t, k) →
    forwarded t `prefix_of` says (script tx) ∧ (k ≤ length (forwarded t))%nat ∧
    carries (msgs_to tx (sim_sent (net (world (processor s))))) (greeting (script tx)) t.
Proof.
  intros Hwf Hmax He Hr. apply sys_reachable in Hr as (Hinv & Htr & Hp); [|done..].
  split_and!; [done|apply (traffic_sent _ _ _ Htr)|]. intros tx t k Ht.
  by apply (task_inv_spec fuel), Hinv.
Qed.

(** C8. Liveness, for the components put together: while a handler runs
    for a channel whose task goes on, the next message that the peer put on the wire reaches
    the handler in two steps of the system, and is handled without a panic. *)
Theorem system_delivers fuel torrent max c0 (e : SimNet S) c (s : System C S) q tx t k m ms :
  wf_torrent torrent → 0 ≤ max < 2 ^ 64 → quiet_start e →
  rtc (sys_step fuel) (c0, System_new torrent max e) (c, s) →
  (q, tx) ∈ handlers (processor s) → tasks s !! tx = Some (t, k) →
  result t = None → receiver_dropped t = false → k = length (forwarded t) →
  says (script tx) = forwarded t ++ m :: ms →
  ∃ s1 s2, sys_step fuel (c, s) (c, s1) ∧ sys_step fuel (c, s1) (c, s2) ∧
    peer_message (q, tx) m (processor s) = Ret (processor s2).
Proof.
  intros Hwf Hmax He Hr Hq Ht Hres Hdrop -> Hsays.
  apply sys_reachable in Hr as (Hinv & Htr & Hp); [|done..].
  destruct (Hinv tx t _ Ht) as (n & r & Hn & Hsim & Hin & _ & _).
  pose proof (read_next fuel n _ _ (breaks_off_ok tx) Hn t r Hsim Hres) as Hnext.
  assert (inbound r = m :: ms) as Hi.
  { destruct Hsim. rewrite Hsays, ts_forwarded in Hin. by apply app_inv_head in Hin. }
  rewrite Hi in Hnext. destruct Hnext as (cn & cs & Hread & _).
  assert (wf_message m) as Hm.
  { pose proof (says_ok tx) as Hok. rewrite Hsays in Hok. apply Forall_app in Hok as [_ Hok].
    by apply Forall_cons in Hok as [Hok _]. }
  destruct (peer_message_ok torrent c (q, tx) m (processor s)) as (p' & Hp' & _);
    [apply (traffic_proc _ _ _ Htr)|by apply wf_msg_ok|].
  set (t' := mkTask cn (queue t) (sender_dropped t) false None (forwarded t ++ [m])).
  set (s1 := mkSystem (processor s) (<[tx := (t', length (forwarded t))]> (tasks s)) (woken_taken s)).
  exists s1, (advance_processor p' (<[tx := (t', Datatypes.S (length (forwarded t)))]> (tasks s1))
    (woken_taken s1) s1).
  split; [|split; [|exact Hp']].
  - apply (sys_task fuel c s tx t (length (forwarded t)) FromPeer t'); [done|done|]. cbn [run_iteration].
    rewrite Hread. cbn. by rewrite Hdrop.
  - apply (sys_message fuel c s1 q tx t'
      (length (forwarded t)) m p'); [done| | |done].
    + cbn [s1 tasks]. by rewrite lookup_insert_eq.
    + cbn [t' forwarded]. rewrite lookup_app_r, Nat.sub_diag by done. done.
Qed.
End system_properties.

Module SystemExamples.
Import ListBytes DevProfile ElementsOrder NetExamples SwarmExamples.

(** The peer of every channel lets us download and has both pieces. *)
Definition told : list Messages := [Flag Unchoke; BitField [xc0]].
#[export] Instance scripts : Scripts := λ _, mkScript (bs "hello") told [].

#[export] Instance scripts_ok : ScriptsOk scripts.
Proof.
  split; intros tx; [|by left].
  by repeat constructor.
Qed.

(** The connection of channel 7; its bytes arrive in one chunk. *)
Definition conn7 : Connection chunk_stream :=
  Connection_new ([concat (map frame told)], bs "hello").

Definition sys0 : System chunk_stream MemoryTorrentIO := System_new short_last 4 net0.
Definition sys1 : System chunk_stream MemoryTorrentIO :=
  advance_processor connected (<[7 := (Task_new conn7, 0%nat)]> ∅) 0 sys0.

Lemma conn7_opening : opening 2 7 conn7.
Proof.
  exists [concat (map frame told)]. split; [split; [reflexivity|repeat constructor; discriminate]|].
  split; [simpl; lia|]. split; [by rewrite app_nil_r|reflexivity].
Qed.

Lemma sys1_reached : rtc (sys_step 2) (0, sys0) (0, sys1).
Proof.
  apply rtc_once, sys_main, (main_accept 2 0 sys0 hello 7 conn7 connected).
  - reflexivity.
  - reflexivity.
  - exact conn7_opening.
  - vm_compute. reflexivity.
Qed.

Lemma net0_quiet : quiet_start net0.
Proof.
  split_and!; [reflexivity|reflexivity|]. cbn.
  destruct (MemoryTorrentIO_new_ok short_last short_last_wf) as (io & Hio & _).
  unfold store. rewrite Hio. by apply (MemoryTorrentIO_new_bounded short_last io short_last_wf).
Qed.

(** What the task of channel 7 holds: three messages to write. *)
Definition task7 : Task chunk_stream :=
  push_all [BitField [x00]; Flag Choke; Flag NotInterested] (Task_new conn7).

Lemma task7_there : tasks sys1 !! 7 = Some (task7, 0%nat).
Proof. vm_compute. reflexivity. Qed.

(** The first of them is cut off in its write, after three bytes. *)
Definition torn7 : Task chunk_stream :=
  mkTask (mkConnection ([concat (map frame told)], bs "hello" ++ take 3 (frame (BitField [x00]))) [])
    [Flag Choke; Flag NotInterested] false false (Some (Err (AE_Peer NetworkTimeout))) [].
Definition sys2 : System chunk_stream MemoryTorrentIO :=
  mkSystem (close_channel 7 (processor sys1)) (<[7 := (torn7, 0%nat)]> (tasks sys1)) (woken_taken sys1).

Lemma sys2_reached : rtc (sys_step 2) (0, sys0) (0, sys2).
Proof.
  eapply rtc_r; [exact sys1_reached|].
  apply (sys_task 2 0 sys1 7 task7 0 (FromProcessor 0 (Some 3%nat)) torn7);
    [exact task7_there|reflexivity|reflexivity].
Qed.

Lemma system_refines_witness :
  rtc proc_step (0, start) (0, processor sys2) ∧
  carries (msgs_to 7 (sim_sent (net (world (processor sys2))))) (greeting (script 7)) torn7.
Proof.
  destruct (system_refines 2 short_last 4 0 net0 0 sys2) as (Hp & _ & Ht).
  - exact short_last_wf.
  - split; [discriminate|reflexivity].
  - exact net0_quiet.
  - exact sys2_reached.
  - split; [exact Hp|]. destruct (Ht 7 torn7 0%nat) as (_ & _ & Hs); [|exact Hs].
    apply lookup_insert_eq.
Defined.

Lemma system_delivers_witness :
  ∃ s2, rtc (sys_step 2) (0, sys1) (0, s2) ∧
    peer_message (ann, 7) (Flag Unchoke) connected = Ret (processor s2).
Proof.
  destruct (system_delivers 2 short_last 4 0 net0 0 sys1 ann 7 task7 0 (Flag Unchoke) [BitField [xc0]])
    as (s1 & s2 & H1 & H2 & Hm).
  - exact short_last_wf.
  - split; [discriminate|reflexivity].
  - exact net0_quiet.
  - exact sys1_reached.
  - left.
  - exact task7_there.
  - reflexivity.
  - reflexivity.
  - reflexivity.
  - reflexivity.
  - exists s2. split; [eapply rtc_l; [exact H1|apply rtc_once; exact H2]|exact Hm].
Defined.
End SystemExamples.
