(* ===== verification/Channels.v ===== *)
(** The capacities of the channels: [channel(10)] of the wake-ups in
    [src/src/peer/state/mod.rs], [peer_tx_size] and [peer_rx_size] of the [Config] in
    [src/src/peer/net.rs].

    A sender waits while its channel is full. An arm of the main loop's [select!] runs
    to its end before the loop selects again, and the handlers of the peers are only
    polled by the [select!]: while an arm waits, no handler runs. The handler of a [Have] or
    a [BitField] keeps the mutex of the state while it sends to its peer; what sends the
    wake-ups has released it. The system with
    bounded channels does nothing that the system of [System.v] does not do, but it
    can stop. Of what waits, modelled are the arms, and a handler that keeps the mutex; other
    handlers take a message when what they then send fits. While the mutex is kept, the
    arm that wants it is the timer's, whose first act it is. A
    message for a task that ends while its sender waits counts as sent. *)
From S2P Require Import Prelude ByteStr BytesCrate Model Protocol Errors Net Collections Allocation.
From S2P Require Import Slices Io Piece State Processor Traffic Swarm Ip Bencode Metainfo Peers System.
From Stdlib Require Import ZArith Lia.

(** [mpsc::channel(10)]. *)
Definition wake_up_capacity : nat := 10.

(** What is waited for: room for a message in the channel of a peer, room for a
    wake-up, the mutex of the state. *)
Inductive Sending :=
  | ToPeer (tx : Z) (msg : Messages)
  | ToSelf (msg : InternalStateMessage)
  | TheLock.

(** [arm]: what the running arm has still to send; with nothing left the main loop
    selects. [handler]: the same for a handler that waits in the middle of a message.
    The processor's state is the one that both leave. *)
Record Bounded (C S : Type) := mkBounded {
  system : System C S;
  arm : list Sending;
  handler : list Sending;
}.
Arguments mkBounded {C S} _ _ _.
Arguments system {C S} _.
Arguments arm {C S} _.
Arguments handler {C S} _.

(** What was sent between two states of the network. *)
Definition sendings {S} (old new : SimNet S) : list Sending :=
  map (λ m, ToPeer m.1 m.2) (drop (length (sim_sent old)) (sim_sent new)) ++
  map ToSelf (drop (length (sim_woken old)) (sim_woken new)).

(** The messages that are on their way to peers. *)
Definition to_peers (l : list Sending) : list (Z * Messages) :=
  omap (λ s, match s with ToPeer tx m => Some (tx, m) | _ => None end) l.

(** A handler keeps the mutex as long as it has something to send to its peer. *)
Definition unlocked (h : list Sending) : Prop := to_peers h = [].

Section channels.
Context {C S : Type} `{Net.TcpStreamOk C} `{TorrentIO S} `{BytesCrate, Profile, Scripts}.
Context (config : Config).

Definition put_task (tx : Z) (t : Task C) (k : nat) (s : System C S) : System C S :=
  mkSystem (processor s) (<[tx := (t, k)]> (tasks s)) (woken_taken s).

(** Wake-ups that wait in their channel, with the one its sender still holds. *)
Definition backlog (s : System C S) : nat :=
  length (sim_woken (net (world (processor s)))) - woken_taken s.

(** A task waits to forward when its channel is full and it holds one message more. *)
Definition forwarding (t : Task C) (k : nat) : bool :=
  (Z.to_nat (peer_rx_size config) <? length (forwarded t) - k)%nat.

(** There is room in the queue of a task, or nobody waits for it any more. *)
Definition has_room (t : Task C) : bool :=
  (length (queue t) <? Z.to_nat (peer_tx_size config))%nat || bool_decide (is_Some (result t)).

Inductive bounded_step (fuel : nat) : Z * Bounded C S → Z * Bounded C S → Prop :=
  | bounded_arm i j s h p' ts k : unlocked h → main_event fuel i s j p' ts k →
      bounded_step fuel (i, mkBounded s [] h)
        (j, mkBounded (mkSystem p' ts k) (sendings (net (world (processor s))) (net (world p'))) h)
  | bounded_tick i s h : ¬ unlocked h →
      bounded_step fuel (i, mkBounded s [] h) (i, mkBounded s [TheLock] h)
  | bounded_push i s tx msg rest h t k : tasks s !! tx = Some (t, k) → has_room t = true →
      bounded_step fuel (i, mkBounded s (ToPeer tx msg :: rest) h)
        (i, mkBounded (put_task tx (push_all [msg] t) k s) rest h)
  | bounded_push_self i s msg rest h : (backlog s ≤ wake_up_capacity)%nat →
      bounded_step fuel (i, mkBounded s (ToSelf msg :: rest) h) (i, mkBounded s rest h)
  | bounded_message i s q tx t k msg p' s' : (q, tx) ∈ handlers (processor s) →
      tasks s !! tx = Some (t, k) → forwarded t !! k = Some msg →
      peer_message (q, tx) msg (processor s) = Ret p' →
      s' = advance_processor p' (<[tx := (t, Datatypes.S k)]> (tasks s)) (woken_taken s) s →
      (∀ tx' t' k', tasks s' !! tx' = Some (t', k') →
         (length (queue t') ≤ Z.to_nat (peer_tx_size config))%nat ∨ tasks s !! tx' = Some (t', k')) →
      (backlog s' ≤ wake_up_capacity)%nat →
      bounded_step fuel (i, mkBounded s [] []) (i, mkBounded s' [] [])
  | bounded_hold i s q tx t k msg p' m rest : (q, tx) ∈ handlers (processor s) →
      tasks s !! tx = Some (t, k) → forwarded t !! k = Some msg →
      peer_message (q, tx) msg (processor s) = Ret p' → has_room t = false →
      sendings (net (world (processor s))) (net (world p')) = ToPeer tx m :: rest →
      bounded_step fuel (i, mkBounded s [] []) (i, mkBounded
        (mkSystem p' (<[tx := (t, Datatypes.S k)]> (tasks s)) (woken_taken s)) [] (ToPeer tx m :: rest))
  | bounded_release i s tx msg rest t k : tasks s !! tx = Some (t, k) → has_room t = true →
      bounded_step fuel (i, mkBounded s [] (ToPeer tx msg :: rest))
        (i, mkBounded (put_task tx (push_all [msg] t) k s) [] rest)
  | bounded_release_self i s msg rest : (backlog s ≤ wake_up_capacity)%nat →
      bounded_step fuel (i, mkBounded s [] (ToSelf msg :: rest)) (i, mkBounded s [] rest)
  | bounded_eof i s q tx t k : (q, tx) ∈ handlers (processor s) →
      tasks s !! tx = Some (t, k) → is_Some (result t) → k = length (forwarded t) →
      bounded_step fuel (i, mkBounded s [] [])
        (i, mkBounded (mkSystem (stop_handler (q, tx) (processor s)) (tasks s) (woken_taken s)) [] [])
  | bounded_task i s l h tx t k b t' : tasks s !! tx = Some (t, k) → result t = None →
      forwarding t k = false → (b = NoBranch → ∀ msg, ToPeer tx msg ∉ l ++ h) →
      run_iteration fuel b t = Some t' →
      bounded_step fuel (i, mkBounded s l h)
        (i, mkBounded (mkSystem
              (if result t' is Some _ then close_channel tx (processor s) else processor s)
              (<[tx := (t', k)]> (tasks s)) (woken_taken s)) l h)
  | bounded_drop_sender i s tx t k : tasks s !! tx = Some (t, k) →
      (∀ q, peer_to_tx (processor s) !! q ≠ Some tx) → (∀ q, (q, tx) ∉ handlers (processor s)) →
      bounded_step fuel (i, mkBounded s [] []) (i, mkBounded (put_task tx
        (mkTask (conn t) (queue t) true (receiver_dropped t) (result t) (forwarded t)) k s) [] [])
  | bounded_drop_receiver i s tx t k : tasks s !! tx = Some (t, k) →
      (∀ q, (q, tx) ∉ handlers (processor s)) →
      bounded_step fuel (i, mkBounded s [] []) (i, mkBounded (put_task tx
        (mkTask (conn t) (queue t) (sender_dropped t) true (result t) (forwarded t)) k s) [] []).

(** The system once everything that waits is sent. *)
Definition complete (b : Bounded C S) : System C S :=
  mkSystem (processor (system b))
    (map_imap (λ tx '(t, k), Some (push_all (msgs_to tx (to_peers (arm b ++ handler b))) t, k)) (tasks (system b)))
    (woken_taken (system b)).

(** What is waited for does not come while only tasks run: the task that empties the
    channel itself waits to forward; the wake-up channel is full; the mutex is kept. (A
    message for no task waits as well.) *)
Definition blocked (s : System C S) (x : Sending) : bool :=
  match x with
  | ToPeer tx _ =>
      match tasks s !! tx with
      | Some (t, k) => negb (has_room t) && forwarding t k
      | None => true
      end
  | ToSelf _ => (wake_up_capacity <? backlog s)%nat
  | TheLock => true
  end.

(** The first thing that is waited for. *)
Definition head_blocked (s : System C S) (l : list Sending) : bool :=
  match l with [] => false | x :: _ => blocked s x end.

(** The running arm waits for what does not come; or no arm runs, and a handler does
    so while it keeps the mutex. *)
Definition stuck (b : Bounded C S) : Prop :=
  head_blocked (system b) (arm b) = true ∨
  (arm b = [] ∧ ¬ unlocked (handler b) ∧ head_blocked (system b) (handler b) = true).

(** ** Lemmas *)

Lemma push_all_nil (t : Task C) : push_all [] t = t.
Proof. unfold push_all. rewrite app_nil_r. by destruct t. Qed.

Lemma push_all_app l1 l2 (t : Task C) : push_all l2 (push_all l1 t) = push_all (l1 ++ l2) t.
Proof. unfold push_all. cbn. by rewrite app_assoc. Qed.

Lemma msgs_to_cons tx tx' m l :
  msgs_to tx ((tx', m) :: l) = (if decide (tx' = tx) then [m] else []) ++ msgs_to tx l.
Proof. unfold msgs_to. rewrite filter_cons. cbn. by destruct (decide (tx' = tx)). Qed.

Lemma to_peers_sendings (old new : SimNet S) :
  to_peers (sendings old new) = drop (length (sim_sent old)) (sim_sent new).
Proof.
  unfold to_peers, sendings. rewrite omap_app.
  assert (∀ l : list (Z * Messages), omap (λ s, match s with ToPeer tx m => Some (tx, m) | _ => None end)
    (map (λ m, ToPeer m.1 m.2) l) = l) as ->.
  { induction l as [|[tx m] l IH]; [done|]. cbn. by rewrite IH. }
  assert (∀ l, omap (λ s, match s with ToPeer tx m => Some (tx, m) | _ => None end) (map ToSelf l) = [])
    as ->; [|by rewrite app_nil_r]. by induction l.
Qed.

Lemma complete_selecting (s : System C S) : complete (mkBounded s [] []) = s.
Proof.
  unfold complete. cbn. destruct s as [p ts k]. f_equal. cbn. apply map_eq. intros tx.
  rewrite map_lookup_imap. destruct (ts !! tx) as [[t n]|]; cbn; [|done]. by rewrite push_all_nil.
Qed.

Lemma complete_task b tx t k : tasks (system b) !! tx = Some (t, k) →
  tasks (complete b) !! tx = Some (push_all (msgs_to tx (to_peers (arm b ++ handler b))) t, k).
Proof. intros Ht. unfold complete. cbn. by rewrite map_lookup_imap, Ht. Qed.

Lemma complete_put s l h tx t k p' :
  complete (mkBounded (mkSystem p' (<[tx := (t, k)]> (tasks s)) (woken_taken s)) l h) =
  mkSystem p' (<[tx := (push_all (msgs_to tx (to_peers (l ++ h))) t, k)]> (tasks (complete (mkBounded s l h))))
    (woken_taken s).
Proof.
  unfold complete. cbn. f_equal. apply map_eq. intros tx'. rewrite map_lookup_imap.
  destruct (decide (tx' = tx)) as [->|Hne].
  - by rewrite !lookup_insert_eq.
  - by rewrite !lookup_insert_ne, map_lookup_imap.
Qed.

(** What waits behind the queue does not change an iteration. *)
Lemma iteration_push fuel b (t t' : Task C) l : run_iteration fuel b t = Some t' →
  (b = NoBranch → l = []) → run_iteration fuel b (push_all l t) = Some (push_all l t').
Proof.
  intros Hr Hl. destruct b as [rounds cut| |];
    [| |by rewrite Hl, !push_all_nil by done]; cbn [run_iteration push_all queue conn] in *.
  - destruct (queue t) as [|msg rest] eqn:Hq; [done|]. cbn [app].
    destruct (read_cancelled rounds 0 (conn t)) as [c|]; [|done]. cbn in Hr |- *.
    injection Hr as <-. by destruct (write_msg cut msg c) as [[[]|e|] c'].
  - destruct (read_msg fuel (conn t)) as [[[[msg|]| |] c]|]; try done; cbn in Hr |- *; injection Hr as <-; [|done].
    by destruct (receiver_dropped t).
Qed.

(** Giving one message to its queue, of those that wait. *)
Lemma complete_push s l h l' h' tx m t k : l' ++ h' = ToPeer tx m :: l ++ h → tasks s !! tx = Some (t, k) →
  complete (mkBounded (put_task tx (push_all [m] t) k s) l h) = complete (mkBounded s l' h').
Proof.
  intros Hl Ht. unfold put_task. rewrite complete_put, push_all_app. unfold complete. f_equal.
  apply map_eq. intros tx'. cbn [tasks system arm handler]. rewrite Hl.
  change (to_peers (ToPeer tx m :: l ++ h)) with ((tx, m) :: to_peers (l ++ h)).
  rewrite map_lookup_imap, msgs_to_cons. destruct (decide (tx' = tx)) as [->|Hne].
  - by rewrite lookup_insert_eq, Ht, decide_True.
  - rewrite lookup_insert_ne, map_lookup_imap, decide_False by done. done.
Qed.

(** What is sent waits: as if delivered. *)
Lemma complete_sending p' ts k s l h : l ++ h = sendings (net (world (processor s))) (net (world p')) →
  complete (mkBounded (mkSystem p' ts k) l h) = advance_processor p' ts k s.
Proof.
  intros Hl. unfold complete. cbn [system arm handler processor tasks woken_taken].
  by rewrite Hl, to_peers_sendings.
Qed.

Lemma complete_unlocked s l h : unlocked h → complete (mkBounded s l h) = complete (mkBounded s l []).
Proof.
  unfold unlocked, complete, to_peers. cbn [system arm handler]. rewrite app_nil_r, omap_app.
  intros ->. by rewrite app_nil_r.
Qed.

(** Every step is one of the unbounded system, on what it will have sent, or
    none. *)
Lemma bounded_sim fuel (x y : Z * Bounded C S) : bounded_step fuel x y →
  rtc (sys_step fuel) (x.1, complete x.2) (y.1, complete y.2).
Proof.
  intros Hs. destruct Hs as [i j s h p' ts k Hu Hm|i s h Hu|i s tx msg rest h t k Ht Hroom
    |i s msg rest h Hb|i s q tx t k msg p' s' Hh Ht Hm Hp -> Hroom Hb
    |i s q tx t k msg p' m rest Hh Ht Hm Hp Hroom Hl|i s tx msg rest t k Ht Hroom|i s msg rest Hb
    |i s q tx t k Hh Ht Hres Hk|i s l h tx t k b t' Ht Hres Hf Hn Hrun|i s tx t k Ht Hp Hh
    |i s tx t k Ht Hh]; cbn [fst snd].
  - rewrite !(complete_unlocked _ _ h), complete_selecting by done. apply rtc_once.
    rewrite (complete_sending _ _ _ s) by apply app_nil_r. by apply sys_main.
  - done.
  - by rewrite (complete_push _ _ _ (ToPeer tx msg :: rest) h).
  - done.
  - rewrite !complete_selecting. by eapply rtc_once, sys_message.
  - rewrite complete_selecting, (complete_sending _ _ _ s) by done. by eapply rtc_once, sys_message.
  - by rewrite (complete_push _ _ _ [] (ToPeer tx msg :: rest)).
  - done.
  - rewrite !complete_selecting. by eapply rtc_once, sys_eof.
  - rewrite complete_put. apply rtc_once.
    pose proof (complete_task (mkBounded s l h) tx t k Ht) as Ht'. cbn [arm handler] in Ht'.
    pose proof (iteration_push fuel b t t' (msgs_to tx (to_peers (l ++ h))) Hrun) as Hrun'.
    assert (result t' = result (push_all (msgs_to tx (to_peers (l ++ h))) t')) as -> by done.
    eapply (sys_task fuel i (complete (mkBounded s l h)) tx _ k b); [exact Ht'|done|].
    apply Hrun'. intros Hb.
    assert (∀ m, (tx, m) ∉ to_peers (l ++ h)) as Hnone.
    { intros m (x & Hx & Hxm)%list_elem_of_omap. destruct x as [tx' m'| |]; [|done..].
      injection Hxm as -> ->. by apply (Hn Hb m). }
    clear -Hnone. induction (to_peers (l ++ h)) as [|[tx' m] l' IH]; [done|]. rewrite msgs_to_cons, decide_False.
    + apply IH. intros m' Hm'. apply (Hnone m'). by right.
    + intros ->. apply (Hnone m). by left.
  - rewrite !complete_selecting. unfold put_task. by eapply rtc_once, sys_drop_sender.
  - rewrite !complete_selecting. unfold put_task. by eapply rtc_once, sys_drop_receiver.
Qed.

Lemma bounded_sims fuel (x y : Z * Bounded C S) : rtc (bounded_step fuel) x y →
  rtc (sys_step fuel) (x.1, complete x.2) (y.1, complete y.2).
Proof.
  induction 1 as [|x x1 y Hs _ IH]; [done|]. etransitivity; [by apply bounded_sim|exact IH].
Qed.

Lemma blocked_task s tx t k t' x : tasks s !! tx = Some (t, k) → forwarding t k = false →
  blocked s x = true → blocked (mkSystem
    (if result t' is Some _ then close_channel tx (processor s) else processor s)
    (<[tx := (t', k)]> (tasks s)) (woken_taken s)) x = true.
Proof.
  intros Ht Hf Hx. destruct x as [tx' m|m|]; cbn [blocked tasks] in *; [| |done].
  - destruct (decide (tx' = tx)) as [->|Hne]; [|by rewrite lookup_insert_ne].
    by rewrite Ht, Hf, andb_false_r in Hx.
  - rewrite <-Hx. unfold backlog. cbn. by destruct (result t').
Qed.

(** What is stuck stays, and the processor is not changed but for channels that close
    and handlers that end. *)
Lemma stuck_step fuel x b (z : Z * Bounded C S) : bounded_step fuel (x, b) z → stuck b →
  stuck z.2 ∧ handler z.2 = handler b ∧ (arm b ≠ [] → arm z.2 = arm b) ∧
  inner (world (processor (system z.2))) = inner (world (processor (system b))).
Proof.
  intros Hs Hb. inversion Hs as [i j s h p' ts k Hu Hm|i s h Hu|i s tx msg rest h t k Ht Hroom
    |i s msg rest h Hl|i s q tx t k msg p' s' Hh Ht Hm Hp Hs' Hroom Hl
    |i s q tx t k msg p' m rest Hh Ht Hm Hp Hroom Hl|i s tx msg rest t k Ht Hroom|i s msg rest Hl
    |i s q tx t k Hh Ht Hres Hk|i s l h tx t k br t' Ht Hres Hf Hn Hrun|i s tx t k Ht Hp Hh
    |i s tx t k Ht Hh]; subst; unfold stuck in *; cbn [arm handler system snd head_blocked] in *.
  - destruct Hb as [|(_ & Hnu & _)]; done.
  - split; [by left|done].
  - destruct Hb as [Hb|[? _]]; [|done]. cbn [blocked] in Hb. by rewrite Ht, Hroom in Hb.
  - destruct Hb as [Hb|[? _]]; [|done]. cbn [blocked] in Hb. apply Nat.ltb_lt in Hb. lia.
  - by destruct Hb as [|(_ & [] & _)].
  - by destruct Hb as [|(_ & [] & _)].
  - destruct Hb as [|(_ & _ & Hb)]; [done|]. cbn [blocked] in Hb. by rewrite Ht, Hroom in Hb.
  - destruct Hb as [|(_ & _ & Hb)]; [done|]. cbn [blocked] in Hb. apply Nat.ltb_lt in Hb. lia.
  - by destruct Hb as [|(_ & [] & _)].
  - split_and!; [|done|done|by destruct (result t')]. destruct Hb as [Hb|(Ha & Hu & Hb)].
    + left. destruct l; [done|]. by eapply blocked_task.
    + right. split_and!; [done..|]. destruct h; [done|]. by eapply blocked_task.
  - by destruct Hb as [|(_ & [] & _)].
  - by destruct Hb as [|(_ & [] & _)].
Qed.

Lemma stuck_steps fuel (y z : Z * Bounded C S) : rtc (bounded_step fuel) y z → stuck y.2 →
  handler z.2 = handler y.2 ∧ (arm y.2 ≠ [] → arm z.2 = arm y.2) ∧
  inner (world (processor (system z.2))) = inner (world (processor (system y.2))).
Proof.
  induction 1 as [y|[i b] y1 z Hs _ IH]; intros Hst; [done|].
  apply stuck_step in Hs as (Hst' & Hh & Ha & Hi); [|done]. destruct (IH Hst') as (Hh' & Ha' & Hi').
  cbn [snd] in *. split_and!; [congruence| |congruence]. intros Hne. rewrite <-(Ha Hne).
  apply Ha'. by rewrite Ha.
Qed.

(** A task that does not wait to forward makes room. *)
Lemma room_made fuel i tx k rest h : (0 < Z.to_nat (peer_tx_size config))%nat → ∀ n s t,
  tasks s !! tx = Some (t, k) → forwarding t k = false → length (queue t) = n →
  ∃ s' t', rtc (bounded_step fuel) (i, mkBounded s rest h) (i, mkBounded s' rest h) ∧
    tasks s' !! tx = Some (t', k) ∧ has_room t' = true.
Proof.
  intros Hpos n. induction n as [|n IH]; intros s t Ht Hf Hn.
  - exists s, t. split; [done|]. split; [done|]. unfold has_room. apply orb_true_intro. left.
    apply Nat.ltb_lt. lia.
  - destruct (has_room t) eqn:Hroom; [by exists s, t|]. apply orb_false_iff in Hroom as [_ Hres].
    apply bool_decide_eq_false in Hres. apply eq_None_not_Some in Hres.
    destruct (queue t) as [|msg q] eqn:Hq; [done|]. injection Hn as Hn.
    destruct (run_iteration fuel (FromProcessor 0 None) t) as [t'|] eqn:Hrun;
      [|cbn [run_iteration] in Hrun; by rewrite Hq in Hrun].
    assert (bounded_step fuel (i, mkBounded s rest h) (i, mkBounded (mkSystem
      (if result t' is Some _ then close_channel tx (processor s) else processor s)
      (<[tx := (t', k)]> (tasks s)) (woken_taken s)) rest h)) as Hs by (by apply (bounded_task fuel i s rest h tx t k (FromProcessor 0 None) t')).
    cbn [run_iteration read_cancelled] in Hrun. rewrite Hq in Hrun. cbn in Hrun. injection Hrun as Hrun.
    destruct (write_msg None msg (conn t)) as [[[]|e|] c]; rewrite <-Hrun in Hs; cbn [result end_task] in Hs.
    + set (t1 := mkTask c q (sender_dropped t) (receiver_dropped t) None (forwarded t)) in *.
      destruct (IH (mkSystem (processor s) (<[tx := (t1, k)]> (tasks s)) (woken_taken s)) t1)
        as (s' & t2 & Hs' & Ht2); [cbn [tasks]; apply lookup_insert_eq|exact Hf|exact Hn|].
      exists s', t2. split; [by eapply rtc_l|done].
    + eexists _, _. split; [by eapply rtc_once|]. split; [by cbn; rewrite lookup_insert_eq|].
      unfold has_room. cbn. by rewrite orb_true_r.
    + eexists _, _. split; [by eapply rtc_once|]. split; [by cbn; rewrite lookup_insert_eq|].
      unfold has_room. cbn. by rewrite orb_true_r.
Qed.

(** What does not wait for ever gets room. *)
Lemma peer_room fuel i s tx m l h : 0 < peer_tx_size config → blocked s (ToPeer tx m) = false →
  ∃ s' t k, rtc (bounded_step fuel) (i, mkBounded s l h) (i, mkBounded s' l h) ∧
    tasks s' !! tx = Some (t, k) ∧ has_room t = true.
Proof.
  intros Hpos. cbn [blocked]. destruct (tasks s !! tx) as [[t k]|] eqn:Ht; [|done]. intros Hb.
  destruct (has_room t) eqn:Hroom; [by exists s, t, k|].
  destruct (room_made fuel i tx k l h ltac:(lia) _ s t Ht Hb eq_refl) as (s' & t' & ? & ? & ?).
  by exists s', t', k.
Qed.
End channels.

(** ** Properties *)

Section channels_properties.
Context {C S : Type} `{Net.TcpStreamOk C} `{TorrentIO S} `{BytesCrate, Profile, Scripts}.
Context (config : Config) (fuel : nat).

(** C9. Refinement: with the capacities of its channels the program does
    nothing that it does not do with channels that never fill: a run is one of the system of
    [System.v], in which what still waits has been sent. *)
Theorem bounded_refines torrent max c0 (e : SimNet S) c (b : Bounded C S) :
  rtc (bounded_step config fuel) (c0, mkBounded (System_new torrent max e) [] []) (c, b) →
  rtc (sys_step fuel) (c0, System_new torrent max e) (c, complete b).
Proof. intros Hr. apply bounded_sims in Hr. cbn [fst snd] in Hr. by rewrite complete_selecting in Hr. Qed.

(** C35. An arm of the main loop can send its next message, or it never does.
    It never does when the wake-up channel is full, when the channel of the peer is full
    and the peer's task waits to forward, or when a handler keeps the mutex: no handler runs while
    the arm waits, so the arm stays where it is and the state of the torrent is never
    changed again. *)
Theorem arm_waits i (b : Bounded C S) x rest : 0 < peer_tx_size config → arm b = x :: rest →
  (blocked config (system b) x = false →
    ∃ s', rtc (bounded_step config fuel) (i, b) (i, mkBounded s' rest (handler b))) ∧
  (blocked config (system b) x = true → ∀ j b', rtc (bounded_step config fuel) (i, b) (j, b') →
    arm b' = x :: rest ∧ handler b' = handler b ∧
    inner (world (processor (system b'))) = inner (world (processor (system b)))).
Proof.
  intros Hpos Harm. split; intros Hst.
  - destruct b as [s l h]. cbn [arm system handler] in *. subst l. destruct x as [tx m|m|]; [| |done].
    + destruct (peer_room config fuel i s tx m (ToPeer tx m :: rest) h Hpos Hst) as (s' & t & k & Hs & Ht & Hr).
      eexists. eapply rtc_r; [exact Hs|]. by eapply bounded_push.
    + cbn [blocked] in Hst. apply Nat.ltb_ge in Hst. exists s. by apply rtc_once, bounded_push_self.
  - intros j b' Hr. apply stuck_steps in Hr as (Hh & Ha & Hi); cbn [snd] in *.
    + split_and!; [rewrite <-Harm; apply Ha; by rewrite Harm|done|done].
    + left. cbn [snd]. by rewrite Harm.
Qed.

(** C36. A handler that waits to tell its peer of our interest does so with the
    mutex of the state. It can send when the peer's task does not wait to forward, and never does
    otherwise; but a tick of the timer meanwhile stops the program for good in any case: the
    timer's arm waits for the mutex, and the handler that keeps it is not polled any more. *)
Theorem handler_waits i (b : Bounded C S) tx m rest : 0 < peer_tx_size config →
  arm b = [] → handler b = ToPeer tx m :: rest →
  (blocked config (system b) (ToPeer tx m) = false →
    ∃ s', rtc (bounded_step config fuel) (i, b) (i, mkBounded s' [] rest)) ∧
  (blocked config (system b) (ToPeer tx m) = true → ∀ j b',
    rtc (bounded_step config fuel) (i, b) (j, b') → handler b' = handler b ∧
    inner (world (processor (system b'))) = inner (world (processor (system b)))) ∧
  (∃ b1, bounded_step config fuel (i, b) (i, b1) ∧ ∀ j b',
    rtc (bounded_step config fuel) (i, b1) (j, b') → arm b' = [TheLock] ∧ handler b' = handler b ∧
    inner (world (processor (system b'))) = inner (world (processor (system b)))).
Proof.
  intros Hpos Harm Hh. destruct b as [s l h]. cbn [arm system handler] in *. subst l h.
  assert (¬ unlocked (ToPeer tx m :: rest)) as Hu by done. split_and!.
  - intros Hst. destruct (peer_room config fuel i s tx m [] (ToPeer tx m :: rest) Hpos Hst)
      as (s' & t & k & Hs & Ht & Hr).
    eexists. eapply rtc_r; [exact Hs|]. by eapply bounded_release.
  - intros Hst j b' Hr. apply stuck_steps in Hr as (Hh & _ & Hi); [done|]. by right.
  - eexists. split; [by apply bounded_tick|]. intros j b' Hr.
    apply stuck_steps in Hr as (Hh & Ha & Hi); [|by left]. split_and!; [by apply Ha|done|done].
Qed.
End channels_properties.

(** One connection whose channels hold one message each: the peer says two things while
    the processor greets it. *)
Module ChannelsExamples.
Import ListBytes DevProfile ElementsOrder NetExamples SwarmExamples SystemExamples.

Definition narrow : Config := mkConfig false 4 1 1 2 128.

Definition greeting7 : list Sending :=
  [ToPeer 7 (BitField [x00]); ToPeer 7 (Flag Choke); ToPeer 7 (Flag NotInterested)].

Definition with_task7 (t : Task chunk_stream) : System chunk_stream MemoryTorrentIO :=
  mkSystem connected (<[7 := (t, 0%nat)]> ∅) 0.

Definition b0 : Bounded chunk_stream MemoryTorrentIO := mkBounded sys0 [] [].
(** The arm has started. *)
Definition b1 : Bounded chunk_stream MemoryTorrentIO := mkBounded (with_task7 (Task_new conn7)) greeting7 [].
(** The channel to the peer is full. *)
Definition b2 : Bounded chunk_stream MemoryTorrentIO :=
  mkBounded (put_task 7 (push_all [BitField [x00]] (Task_new conn7)) 0 (system b1)) (tail greeting7) [].

(** The peer's messages come in before that is written. *)
Definition after_reading (t : Task chunk_stream) : Task chunk_stream :=
  default t (run_iteration 2 FromPeer t).
Definition one_read : Task chunk_stream := after_reading (push_all [BitField [x00]] (Task_new conn7)).
Definition both_read : Task chunk_stream := after_reading one_read.
Definition read_step (t : Task chunk_stream) (b : Bounded chunk_stream MemoryTorrentIO) :
    Bounded chunk_stream MemoryTorrentIO :=
  mkBounded (mkSystem (processor (system b)) (<[7 := (t, 0%nat)]> (tasks (system b))) (woken_taken (system b)))
    (arm b) (handler b).
Definition b4 : Bounded chunk_stream MemoryTorrentIO := read_step both_read (read_step one_read b2).

Lemma b2_reached : rtc (bounded_step narrow 2) (0, b0) (0, b2).
Proof.
  eapply rtc_l; [|apply rtc_once, (bounded_push narrow 2 0 (system b1) 7); [vm_compute; reflexivity..]].
  apply (bounded_arm narrow 2 0 0 sys0); [reflexivity|]. apply (main_accept 2 0 sys0 hello 7 conn7 connected).
  - reflexivity.
  - reflexivity.
  - exact conn7_opening.
  - vm_compute. reflexivity.
Qed.

Lemma b4_reached : rtc (bounded_step narrow 2) (0, b0) (0, b4).
Proof.
  etransitivity; [exact b2_reached|]. eapply rtc_l.
  - apply (bounded_task narrow 2 0 (system b2) (arm b2) [] 7 (push_all [BitField [x00]] (Task_new conn7)) 0
      FromPeer one_read); [vm_compute; reflexivity..|discriminate|vm_compute; reflexivity].
  - apply rtc_once, (bounded_task narrow 2 0 (system (read_step one_read b2)) (arm b2) [] 7 one_read 0
      FromPeer both_read); [vm_compute; reflexivity..|discriminate|vm_compute; reflexivity].
Qed.

Lemma bounded_refines_witness : rtc (sys_step 2) (0, sys0) (0, complete b4).
Proof. apply (bounded_refines narrow 2 short_last 4 0 net0 0 b4). exact b4_reached. Defined.

Lemma arm_waits_witness :
  (∃ s', rtc (bounded_step narrow 2) (0, b2) (0, mkBounded s' [ToPeer 7 (Flag NotInterested)] [])) ∧
  (∀ j b', rtc (bounded_step narrow 2) (0, b4) (j, b') → arm b' = tail greeting7).
Proof.
  split.
  - apply (arm_waits narrow 2 0 b2 (ToPeer 7 (Flag Choke)) [ToPeer 7 (Flag NotInterested)]).
    + reflexivity.
    + reflexivity.
    + vm_compute. reflexivity.
  - intros j b' Hr.
    destruct (arm_waits narrow 2 0 b4 (ToPeer 7 (Flag Choke)) [ToPeer 7 (Flag NotInterested)])
      as [_ Hw]; [reflexivity|reflexivity|].
    apply (Hw ltac:(vm_compute; reflexivity) j b' Hr).
Defined.

(** The three messages of the greeting fill the channel; then the peer tells which
    pieces it has. *)
Definition wide : Config := mkConfig false 4 3 1 2 128.

Definition t1 : Task chunk_stream := push_all [BitField [x00]] (Task_new conn7).
Definition t2 : Task chunk_stream := push_all [Flag Choke] t1.
Definition t3 : Task chunk_stream := push_all [Flag NotInterested] t2.
Definition t4 : Task chunk_stream := after_reading t3.
Definition t5 : Task chunk_stream := after_reading t4.

Definition d3 : Bounded chunk_stream MemoryTorrentIO :=
  mkBounded (put_task 7 t3 0 (put_task 7 t2 0 (put_task 7 t1 0 (system b1)))) [] [].
Definition d4 : Bounded chunk_stream MemoryTorrentIO := read_step t4 d3.

(** The handler has let us download; then it hears of the pieces. *)
Definition handled (msg : Messages) (p : Proc Z (SimNet MemoryTorrentIO)) : Proc Z (SimNet MemoryTorrentIO) :=
  match peer_message (ann, 7) msg p with Ret p => p | _ => p end.
Definition d5 : Bounded chunk_stream MemoryTorrentIO :=
  mkBounded (advance_processor (handled (Flag Unchoke) connected) (<[7 := (t4, 1%nat)]> (tasks (system d4))) 0
    (system d4)) [] [].
Definition d6 : Bounded chunk_stream MemoryTorrentIO :=
  mkBounded (mkSystem (processor (system d5)) (<[7 := (t5, 1%nat)]> (tasks (system d5))) 0) [] [].
Definition d7 : Bounded chunk_stream MemoryTorrentIO :=
  mkBounded (mkSystem (handled (BitField [xc0]) (processor (system d6)))
      (<[7 := (t5, 2%nat)]> (tasks (system d6))) 0) []
    [ToPeer 7 (Flag Interested); ToSelf Wakeup].

Lemma d3_reached : rtc (bounded_step wide 2) (0, b0) (0, d3).
Proof.
  eapply rtc_l.
  { apply (bounded_arm wide 2 0 0 sys0); [reflexivity|]. apply (main_accept 2 0 sys0 hello 7 conn7 connected);
      [reflexivity|reflexivity|exact conn7_opening|vm_compute; reflexivity]. }
  eapply rtc_l; [apply (bounded_push wide 2 0 (system b1) 7); [vm_compute; reflexivity..]|].
  eapply rtc_l; [apply (bounded_push wide 2 0 (put_task 7 t1 0 (system b1)) 7); [vm_compute; reflexivity..]|].
  apply rtc_once, (bounded_push wide 2 0 (put_task 7 t2 0 (put_task 7 t1 0 (system b1))) 7); vm_compute; reflexivity.
Qed.

Lemma d5_reached : rtc (bounded_step wide 2) (0, b0) (0, d5).
Proof.
  etransitivity; [exact d3_reached|]. eapply rtc_l.
  - apply (bounded_task wide 2 0 (system d3) [] [] 7 t3 0 FromPeer t4);
      [vm_compute; reflexivity..|discriminate|vm_compute; reflexivity].
  - apply rtc_once, (bounded_message wide 2 0 (system d4) ann 7 t4 0 (Flag Unchoke)
      (handled (Flag Unchoke) connected)); [left|vm_compute; reflexivity..| |vm_compute; lia].
    intros tx t k Ht. left. revert Ht.
    assert (map_Forall (λ _ x, (length (queue (fst x)) ≤ 3)%nat) (tasks (system d5))) as Hall;
      [|intros Ht; exact (Hall tx (t, k) Ht)].
    apply (bool_decide_unpack _). vm_compute. exact I.
Qed.

Lemma d7_reached : rtc (bounded_step wide 2) (0, b0) (0, d7).
Proof.
  etransitivity; [exact d5_reached|]. eapply rtc_l.
  - apply (bounded_task wide 2 0 (system d5) [] [] 7 t4 1 FromPeer t5);
      [vm_compute; reflexivity..|discriminate|vm_compute; reflexivity].
  - apply rtc_once, (bounded_hold wide 2 0 (system d6) ann 7 t5 1 (BitField [xc0]));
      [left|vm_compute; reflexivity..].
Qed.

Lemma handler_waits_witness : rtc (bounded_step wide 2) (0, b0) (0, d7) ∧
  (∃ s', rtc (bounded_step wide 2) (0, d7) (0, mkBounded s' [] [ToSelf Wakeup])) ∧
  (∃ b1, bounded_step wide 2 (0, d7) (0, b1) ∧ ∀ j b',
    rtc (bounded_step wide 2) (0, b1) (j, b') → arm b' = [TheLock]).
Proof.
  split; [exact d7_reached|].
  destruct (handler_waits wide 2 0 d7 7 (Flag Interested) [ToSelf Wakeup]) as (Hgo & _ & b1' & Hb & Hdead).
  - reflexivity.
  - reflexivity.
  - reflexivity.
  - split; [apply Hgo; vm_compute; reflexivity|]. exists b1'. split; [exact Hb|].
    intros j b' Hr. apply (Hdead j b' Hr).
Defined.
End ChannelsExamples.
