(* ===== verification/Program.v ===== *)
(** The whole program: what [main] of [src/src/main.rs] starts is what the system of
    [System.v] runs. The connections are those that [connect_torrent_peers] has made; the
    processor gets them in any order, at any time. *)
From S2P Require Import Prelude ByteStr BytesCrate Model Protocol Errors Net Collections Allocation.
From S2P Require Import Slices Io FileIo Piece State Processor Traffic Swarm Ip Bencode Metainfo Tracker.
From S2P Require Import Peers Startup System.
From Stdlib Require Import ZArith Lia.

(** ** The storages that are created have short pieces *)

Section bounded_storage.
Context {F : Type} `{FileOk F} `{Profile}.
Context (sha1 hex_encode : list byte → list byte).

Lemma FileTorrentIO_new_bounded t (f : F) s : wf_torrent t → piece_length (info t) + 9 < 2 ^ 32 →
  FileTorrentIO_new t f = Ret s → short_pieces s.
Proof.
  intros Hwf Hb Hs i n. unfold FileTorrentIO_new in Hs. rewrite wf_allocation, bind_ret in Hs by done.
  destruct (set_len _ f) as [r f']. apply bind_ret_inv in Hs as (u & _ & Hs).
  apply bind_ret_inv in Hs as (l & _ & Hs). injection Hs as <-. cbn [allocation].
  pose proof Hwf as (Hn & Hpl & Hlen & Hmax).
  pose proof (piece_size_range t (zlen (pieces (info t)) - 1) Hwf ltac:(lia)).
  unfold piece_len. cbn [total_pieces last_piece_size max_piece_size].
  rewrite bind_arith by lia. destruct (_ =? _); intros [= <-]; lia.
Qed.
End bounded_storage.

(** ** The peers of the program *)

Section program.
Context {C F E : Type} `{BytesCrateOk, Profile} `{TcpStreamOk C} `{Dial C} `{FileOk F}.
Context `{Nom} `{UrlCrate}.
Context (sha1 hex_encode : list byte → list byte).
Abbreviation Storage := (FileTorrentIO F + MemoryTorrentIO)%type.
#[local] Instance file_io : TorrentIO (FileTorrentIO F) := file_torrent_io sha1 hex_encode.
#[local] Instance file_io_bounded : BoundedIO (FileTorrentIO F) := file_bounded sha1 hex_encode.

(** [peer_script i]: what the peer at place [i] of the tracker's answer says, and with which
    part of a frame it ends. *)
Context (fuel : nat) (peer_script : nat → Script).

(** The places of the peers with which a connection was made. *)
Fixpoint answering (torrent : V1Torrent) (our_id : InternalPeerId) (i : nat) (peers : list TrackerPeer)
    : list nat :=
  match peers with
  | [] => []
  | p :: peers =>
      match attempt fuel torrent our_id i p with Some (Ret _) => [i] | _ => [] end ++
      answering torrent our_id (Datatypes.S i) peers
  end.

(** Our handshake. *)
Definition our_handshake (torrent : V1Torrent) (our_id : InternalPeerId) : list byte :=
  handshake_frame (mkHandshake (mkPeerContext (torrent_info_hash (info torrent)) our_id)).

(** Channel [n] belongs to the [n]-th connection. *)
Definition program_scripts (torrent : V1Torrent) (our_id : InternalPeerId) (peers : list TrackerPeer)
    : Scripts := λ n,
  let p := peer_script (default 0%nat (answering torrent our_id 0 peers !! Z.to_nat n)) in
  mkScript (our_handshake torrent our_id) (says p) (breaks_off p).

(** The peer at place [i], when it can be reached: its handshake arrives in one
    piece, with or without more; then come the frames of its script, cut in any way. *)
Definition behaves (i : nat) (p : TrackerPeer) : Prop := ∀ s : C,
  tcp_connect i (socket_addr p) = Some (inr s) → Net.sent s = [] ∧
  ∃ h rest cs, wf_handshake h ∧ delivers s ((handshake_frame h ++ rest) :: cs) ∧
    Forall (λ c, c ≠ []) cs ∧ (length cs < fuel)%nat ∧
    rest ++ concat cs = concat (map frame (says (peer_script i))) ++ breaks_off (peer_script i).

Definition script_ok (p : Script) : Prop :=
  Forall wf_message (says p) ∧ partial frame wf_message (breaks_off p).

(** A step of what [main] has started: a connection reaches the processor, on a
    channel of its own; or any step of the system that brings no connection. *)
Inductive program_step (scripts : Scripts) (st : Started (C := C) (F := F)) :
    Z * System C Storage → Z * System C Storage → Prop :=
  | program_accept i s n h c p' : connections st !! n = Some (h, c) →
      tasks s !! Z.of_nat n = None → msgs_to (Z.of_nat n) (sim_sent (net (world (processor s)))) = [] →
      accept_peer (N := SimNet Storage) h (Z.of_nat n) (processor s) = Ret p' →
      program_step scripts st (i, s)
        (i, advance_processor p' (<[Z.of_nat n := (Task_new c, 0%nat)]> (tasks s)) (woken_taken s) s)
  | program_goes_on x y : sys_step fuel x y → dom (tasks y.2) = dom (tasks x.2) →
      program_step scripts st x y.

(** ** Lemmas *)

Lemma successes_lookup t id peers : ∀ i n x, successes fuel t id i peers !! n = Some x →
  ∃ j p, answering t id i peers !! n = Some (i + j)%nat ∧ peers !! j = Some p ∧
    attempt fuel t id (i + j) p = Some (Ret x).
Proof.
  induction peers as [|p peers IH]; intros i n x Hx; [done|]. cbn [successes answering] in *.
  destruct (attempt fuel t id i p) as [[y|e|]|] eqn:Ha; cbn [app] in *;
    [destruct n as [|n]; [injection Hx as ->; exists 0%nat, p; by rewrite Nat.add_0_r|]|..];
    (apply IH in Hx as (j & q & Hl & Hq & Hat); exists (Datatypes.S j), q;
     by rewrite Nat.add_succ_r).
Qed.

Context (Hfuel : (1 < fuel)%nat).

(** An attempt at a peer that behaves makes a connection that begins with the
    peer's script, or none. *)
Lemma attempt_behaves t id i p : behaves i p →
  (∃ e, attempt fuel t id i p = Some (Err e)) ∨
  (∃ h c cs, attempt fuel t id i p = Some (Ret (h, c)) ∧ incoming c cs ∧ (length cs < fuel)%nat ∧
    buffer c ++ concat cs = concat (map frame (says (peer_script i))) ++ breaks_off (peer_script i) ∧
    Net.sent (stream c) = our_handshake t id).
Proof.
  intros Hb. unfold attempt. unfold behaves in Hb.
  destruct (tcp_connect i (socket_addr p)) as [[e|s]|]; [left; by eexists| |left; by eexists].
  destruct (handshake_in_time i); [|left; by eexists].
  destruct (Hb s eq_refl) as (Hs & h & rest & cs & Hh & Hd & Hne & Hl & Hr).
  destruct (do_handshake_cases s t id h rest cs fuel)
    as [(e & c & _ & ->)|(c & Hc & Hbuf & Hdel & Hsent)]; [done..|left; by eexists|].
  right. exists h, c, cs. split_and!; [by rewrite Hc|done|done|by rewrite Hbuf|by rewrite Hsent, Hs].
Qed.

(** Each connection is as the system expects it. *)
Lemma connection_opening t id peers n h c : (∀ i p, peers !! i = Some p → behaves i p) →
  successes fuel t id 0 peers !! n = Some (h, c) →
  @opening C _ _ (program_scripts t id peers) fuel (Z.of_nat n) c.
Proof.
  intros Hb (j & p & Hn & Hp & Ha)%successes_lookup. cbn [Nat.add] in *.
  destruct (attempt_behaves t id j p (Hb j p Hp)) as [[e He]|(h' & c' & cs & Ha' & Hin & Hl & Hbuf & Hs)];
    [by rewrite He in Ha|]. rewrite Ha in Ha'. injection Ha' as <- <-.
  exists cs. unfold script, program_scripts. rewrite Nat2Z.id, Hn. cbn [default says breaks_off greeting].
  by split_and!.
Qed.

Lemma program_system t id peers st x y : (∀ i p, peers !! i = Some p → behaves i p) →
  (∀ n hc, connections st !! n = Some hc → successes fuel t id 0 peers !! n = Some hc) →
  program_step (program_scripts t id peers) st x y → @sys_step C Storage _ _ _ _ _ (program_scripts t id peers) fuel x y.
Proof.
  intros Hb Hst [i s n h c p' Hn Htk Hlog Hp|x' y' Hs _]; [|done].
  apply sys_main, (main_accept _ _ _ h); [done|done| |done]. by eapply connection_opening, Hst.
Qed.

(** Only connections that were made have a task. *)
Lemma program_dom scripts st c0 p (y : Z * System C Storage) :
  rtc (program_step scripts st) (c0, mkSystem p ∅ 0) y →
  ∀ tx, tx ∈ dom (tasks y.2) → ∃ n hc, tx = Z.of_nat n ∧ connections st !! n = Some hc.
Proof.
  revert y. refine (rtc_ind_r _ _ _ _); [cbn; set_solver|].
  intros x y _ Hs IH tx Htx. destruct Hs as [i s n h c p' Hn _ _ _|x y _ Hd]; [|apply IH; by rewrite <-Hd].
  cbn [snd tasks advance_processor] in *. apply elem_of_dom in Htx as [tk Htk].
  unfold deliver in Htk. rewrite map_lookup_imap in Htk.
  destruct (decide (tx = Z.of_nat n)) as [->|Hne]; [by exists n, (h, c)|].
  rewrite lookup_insert_ne in Htk by done. apply IH, elem_of_dom.
  destruct (tasks s !! tx); [by eexists|done].
Qed.

Lemma create_storage_bounded create_new config t now io : wf_torrent t → piece_length (info t) + 9 < 2 ^ 32 →
  create_storage (F := F) create_new config t now = Ret io → io_bounded io.
Proof.
  intros Hwf Hb. unfold create_storage. destruct (use_file_writer config); intros Hio.
  - apply bind_ret_inv in Hio as (a & _ & Hio). apply bind_ret_inv in Hio as (f & _ & Hio).
    apply bind_ret_inv in Hio as (s & Hs & Hio). injection Hio as <-.
    exact (FileTorrentIO_new_bounded t f s Hwf Hb Hs).
  - apply bind_ret_inv in Hio as (s & Hs & Hio). injection Hio as <-.
    by apply (MemoryTorrentIO_new_bounded t s).
Qed.

Lemma program_run t id peers (st : Started (C := C) (F := F)) max io c0 c (s : System C Storage) :
  (∀ i, script_ok (peer_script i)) →
  (∀ i p, peers !! i = Some p → behaves i p) →
  (∀ n hc, connections st !! n = Some hc → successes fuel t id 0 peers !! n = Some hc) →
  torrent_processor st = Proc_new t max (mkSim [] [] [] (Some io)) →
  wf_torrent t → 0 ≤ max < 2 ^ 64 → io_bounded io →
  rtc (program_step (program_scripts t id peers) st) (c0, mkSystem (torrent_processor st) ∅ 0) (c, s) →
  rtc proc_step (c0, torrent_processor st) (c, processor s) ∧
  ∀ tx tk k, tasks s !! tx = Some (tk, k) → ∃ i,
    answering t id 0 peers !! Z.to_nat tx = Some i ∧
    forwarded tk `prefix_of` says (peer_script i) ∧ (k ≤ length (forwarded tk))%nat ∧
    carries (msgs_to tx (sim_sent (net (world (processor s))))) (our_handshake t id) tk.
Proof.
  intros Hscripts Hb Hst Hp Hwf Hmax Hio Hr.
  assert (@ScriptsOk (program_scripts t id peers)) as Hok.
  { split; intros tx; apply (Hscripts (default 0%nat (answering t id 0 peers !! Z.to_nat tx))). }
  pose proof (program_dom _ _ _ _ _ Hr) as Hdom.
  assert (rtc (@sys_step C Storage _ _ _ _ _ (program_scripts t id peers) fuel)
    (c0, System_new t max (mkSim [] [] [] (Some io))) (c, s)) as Hs.
  { rewrite Hp in Hr. revert Hr. apply rtc_subrel. intros x y. by apply program_system. }
  apply sys_reachable in Hs as (Hinv & _ & Hproc); [|done..].
  split; [by rewrite Hp|]. intros tx tk k Htk. cbn [snd] in *.
  destruct (Hdom tx) as (n & hc & -> & Hn); [apply elem_of_dom; by eexists|].
  apply Hst, successes_lookup in Hn as (j & p & Hj & _).
  destruct (task_inv_spec fuel _ _ _ _ (Hinv _ _ _ Htk)) as (Hf & Hk & Hcar).
  unfold script, program_scripts in Hf, Hcar. rewrite Nat2Z.id, Hj in *.
  exists (0 + j)%nat. by split; [|split].
Qed.
End program.

(** ** Properties *)

Section program_properties.
Context {C F E : Type} `{BytesCrateOk, Profile} `{TcpStreamOk C} `{Dial C} `{FileOk F}.
Context `{NomOk} `{UrlCrateOk}.
Context (sha1 hex_encode : list byte → list byte) (create_new : list byte → Z → AnyError + F).
Context (http_get : list byte → outcome E (list byte)).

(** C6. Refinement, for the whole program: from a metainfo file of consistent
    geometry, whose pieces are short enough for the length field of a frame, an answer of the tracker and peers whose handshakes arrive in one piece, [main]
    starts a processor on either storage, with connections; and whatever happens then is a run
    of the processor in which each of the connections carries, in order, what its peer says,
    and after our handshake the messages that the processor has sent to that peer, less those
    that still wait; where a failed or timed-out write ended the connection, one message less
    and a part of its frame. *)
Theorem program_refines fuel peer_script stack bytes config now t u r resp io :
  (1 < fuel)%nat → (∀ i, script_ok (peer_script i)) →
  (b ← parse_bencode stack bytes; V1Torrent_try_from sha1 b) = Ret t →
  wf_torrent t → piece_length (info t) + 9 < 2 ^ 32 → 0 ≤ now →
  let id := sha1 (bs "ben-" ++ dec (now / 1000000000)) in
  url_parse (announce t) = Some u →
  http_get (request_url u t id) = Ret r →
  (v ← parse_bencode stack r; TrackerResponse_try_from v) = Ret resp →
  (∀ i p, tracker_peers resp !! i = Some p → behaves (C := C) fuel peer_script i p) →
  create_storage create_new config t now = Ret io → 0 ≤ max_outstanding_requests config < 2 ^ 64 →
  ∃ st, main sha1 create_new http_get fuel stack bytes config now = Some (Ret (Some st)) ∧
    ∀ c0 c s, rtc (program_step sha1 hex_encode fuel
        (program_scripts fuel peer_script t id (tracker_peers resp)) st)
        (c0, mkSystem (torrent_processor st) ∅ 0) (c, s) →
      rtc (proc_step (H := @sim_env _ (@either_io _ _ (file_torrent_io sha1 hex_encode) _)))
        (c0, torrent_processor st) (c, processor s) ∧
      ∀ tx tk k, tasks s !! tx = Some (tk, k) → ∃ i,
        answering fuel t id 0 (tracker_peers resp) !! Z.to_nat tx = Some i ∧
        forwarded tk `prefix_of` says (peer_script i) ∧ (k ≤ length (forwarded tk))%nat ∧
        carries (msgs_to tx (sim_sent (net (world (processor s))))) (our_handshake t id) tk.
Proof.
  intros Hfuel Hscripts Ht Hwf Hpl Hnow id Hu Hget Hresp Hb Hio Hmax.
  eexists. split.
  { eapply main_starts; try done. intros k p Hk. fold id.
    destruct (attempt_behaves fuel peer_script Hfuel t id k p (Hb k p Hk))
      as [[e ->]|(h & c & cs & -> & _)]; done. }
  intros c0 c s. eapply program_run; try done; [|by eapply create_storage_bounded].
  intros n hc. cbn [connections]. by intros [Hn _]%lookup_take_Some.
Qed.
End program_properties.

Module ProgramExamples.
Import ListBytes ListNom ListUrl DevProfile ElementsOrder ProtocolExamples NetExamples MetainfoExamples PeersExamples.
Import StartupExamples.
#[local] Existing Instance FileExamples.mem_file_api.
#[local] Existing Instance FileExamples.mem_file_ok.

(** The peers send their handshake with the beginning of three messages. *)
#[local] Instance dial_three : Dial chunk_stream := {|
  tcp_connect i _ := answers i [handshake_frame hs ++ take 3 wire; drop 3 wire];
  handshake_in_time _ := true;
|}.
Definition says_three (i : nat) : Script := mkScript [] three [].
Definition me_ : InternalPeerId := replicate 20 x01.

Lemma three_behave i p : behaves (C := chunk_stream) 3 says_three i p.
Proof.
  intros s. unfold dial_three, answers. cbn [tcp_connect]. destruct (decide (i = 1%nat)); [done|].
  intros [= <-]. split; [reflexivity|]. exists hs, (take 3 wire), [drop 3 wire].
  split; [split; reflexivity|]. split; [reflexivity|]. split; [repeat constructor; discriminate|].
  split; [simpl; lia|]. cbn [concat]. rewrite !app_nil_r, take_drop. reflexivity.
Qed.

Lemma program_refines_witness : ∃ st,
  main (C := chunk_stream) (E := unit) (F := FileExamples.mem_file) sha no_file (λ _, Ret three_answer) 3 9
    (encode (Dictionary metainfo)) in_memory 1700000000000000000 = Some (Ret (Some st)) ∧
  ∀ c0 c s, rtc (program_step sha sha 3 (program_scripts 3 says_three torrent_read me_ (tracker_peers three_peers)) st)
      (c0, mkSystem (torrent_processor st) ∅ 0) (c, s) →
    ∀ tx tk k, tasks s !! tx = Some (tk, k) → forwarded tk `prefix_of` three ∧
      carries (msgs_to tx (sim_sent (net (world (processor s))))) (our_handshake torrent_read me_) tk.
Proof.
  destruct (program_refines (C := chunk_stream) (E := unit) (F := FileExamples.mem_file) sha sha no_file
    (λ _, Ret three_answer) 3 says_three 9 (encode (Dictionary metainfo)) in_memory
    1700000000000000000 torrent_read ((bs "http://t", None) : @Url list_url) three_answer three_peers (inr io_read_))
    as (st & Hmain & Hrun).
  - lia.
  - intros i. split; [exact three_wf|left; reflexivity].
  - vm_compute. reflexivity.
  - vm_compute. split_and!; congruence.
  - reflexivity.
  - discriminate.
  - vm_compute. reflexivity.
  - reflexivity.
  - vm_compute. reflexivity.
  - intros i p _. apply three_behave.
  - reflexivity.
  - vm_compute. split; congruence.
  - exists st. split; [exact Hmain|]. intros c0 c s Hr tx tk k Htk.
    destruct (Hrun c0 c s Hr) as [_ Ht]. destruct (Ht tx tk k Htk) as (i & _ & Hf & _ & Hw). split; [exact Hf|exact Hw].
Defined.

(** A run of it: the connection reaches the processor, and the first message the task. *)
Definition started : Started (C := chunk_stream) (F := FileExamples.mem_file) :=
  mkStarted me_ (Proc_new torrent_read 128 (mkSim [] [] [] (Some (inr io_read_))))
    (take 1 (successes 3 torrent_read me_ 0 (tracker_peers three_peers))).
Definition first : Handshake * Connection chunk_stream :=
  default (hs, Connection_new ([], [])) (connections started !! 0%nat).

#[local] Instance storage_ : TorrentIO (FileTorrentIO FileExamples.mem_file + MemoryTorrentIO) :=
  @either_io _ _ (file_torrent_io sha sha) _.
#[local] Instance scripts_ : Scripts := program_scripts 3 says_three torrent_read me_ (tracker_peers three_peers).

Definition accepted : Proc Z (SimNet (FileTorrentIO FileExamples.mem_file + MemoryTorrentIO)) :=
  match accept_peer first.1 0 (torrent_processor started) with Ret p => p | _ => torrent_processor started end.
Definition run0 : System chunk_stream (FileTorrentIO FileExamples.mem_file + MemoryTorrentIO) :=
  mkSystem (torrent_processor started) ∅ 0.
Definition run1 : System chunk_stream (FileTorrentIO FileExamples.mem_file + MemoryTorrentIO) :=
  advance_processor accepted (<[0 := (Task_new first.2, 0%nat)]> ∅) 0 run0.
Definition task1 : Task chunk_stream :=
  match tasks run1 !! 0 with Some (t, _) => t | None => Task_new first.2 end.
Definition task2 : Task chunk_stream := default task1 (run_iteration 3 FromPeer task1).
Definition run2 : System chunk_stream (FileTorrentIO FileExamples.mem_file + MemoryTorrentIO) :=
  mkSystem accepted (<[0 := (task2, 0%nat)]> (tasks run1)) 0.

Example first_message : forwarded task2 = [Flag Unchoke] ∧
  rtc (program_step sha sha 3 scripts_ started) (0, run0) (0, run2).
Proof.
  split; [vm_compute; reflexivity|]. eapply rtc_l.
  - apply (program_accept sha sha 3 scripts_ started 0 run0 0 first.1 first.2 accepted); [|reflexivity..|].
    + vm_compute. reflexivity.
    + vm_compute. reflexivity.
  - apply rtc_once, program_goes_on.
    + apply (sys_task 3 0 run1 0 task1 0 FromPeer task2); vm_compute; reflexivity.
    + cbn [snd tasks run2]. rewrite dom_insert_lookup_L; [done|]. apply (bool_decide_unpack _). vm_compute. exact I.
Qed.
End ProgramExamples.
