(* ===== verification/UnitTests.v ===== *)
(** The repository's own unit tests, run on the model: a definition per test
    function, [true] when all its assertions hold ([unwrap] of an error or of
    nothing is a failed one). They check that the definitions compute what the
    program computes on the inputs its authors chose.

    The test of the running processor is in [ProcessorTest.v]. Left out is the test
    that needs a file of the repository ([round_trip] of [bencode.rs]). *)
From S2P Require Import Prelude ByteStr BytesCrate Model Protocol Bitfield Collections Allocation Slices Piece Bencode Metainfo.
From Stdlib Require Import ZArith.

Import ListBytes ListNom DevProfile ElementsOrder.

(** [assert_eq!]. *)
Definition assert_eq {A} `{EqDecision A} (x y : A) : bool := bool_decide (x = y).

(** The value of a call, [unwrap]ped. *)
Definition unwrap {E A} (m : outcome E A) (k : A → bool) : bool :=
  match m with Ret x => k x | _ => false end.
Definition unwrap_option {A} (m : option A) (k : A → bool) : bool :=
  match m with Some x => k x | None => false end.

(** [hex::decode] on lower-case digits. *)
Definition hex_value (b : byte) : Z :=
  let v := byte_val b in if v <? 97 then v - 48 else v - 87.
Fixpoint hex_bytes (l : list byte) : list byte :=
  match l with
  | a :: b :: l => byte_of (hex_value a * 16 + hex_value b) :: hex_bytes l
  | _ => []
  end.

(** * [src/src/peer/protocol.rs] *)

(** The test digests the time into the two ids; here they are arguments. *)
Definition round_trip_handshake (info_hash peer_id : list byte) : bool :=
  let hs := mkHandshake (mkPeerContext info_hash peer_id) in
  let buf := Handshake_encode hs [] in
  assert_eq (map byte_val (take 1 buf)) [19] &&
  assert_eq (take 19 (drop 1 buf)) HANDSHAKE_PROTOCOL_ID &&
  unwrap (HandshakeDecoder_decode buf) (λ '(handshake, _),
    assert_eq (Model.info_hash (peer_ctx handshake)) info_hash).

Example round_trip_handshake_passes :
  round_trip_handshake (replicate 20 x2a) (replicate 20 x2b) = true.
Proof. vm_compute. reflexivity. Qed.

Definition handshake_bytes : list byte := hex_bytes (bs
  "13426974546f7272656e742070726f746f636f6c00000000000000000164fe7ef1105c57764170edf603c439d64214f1b86a737fe80caf680259963724652756ee4d165b").

Definition handshake_cap : bool :=
  unwrap (HandshakeDecoder_decode handshake_bytes) (λ '(hs, _),
    assert_eq (Handshake_encode hs []) handshake_bytes).

Example handshake_cap_passes : handshake_cap = true.
Proof. vm_compute. reflexivity. Qed.

Definition bitfield_bytes : list byte := hex_bytes (bs
  "0000001905fffffffffffffffffffffffffffffffffffffffffffffffe").

Definition bitfield_cap : bool :=
  unwrap (MessagesDecoder_decode bitfield_bytes) (λ '(msg, _),
    unwrap (Messages_encode msg []) (λ hs_b, assert_eq hs_b bitfield_bytes)).

Example bitfield_cap_passes : bitfield_cap = true.
Proof. vm_compute. reflexivity. Qed.

(** * [src/src/peer/io/mod.rs] *)

(** The assertions on the answers of successive calls of [insert]. *)
Fixpoint inserts (slices : Slices) (calls : list (Z * Z * bool)) : bool :=
  match calls with
  | [] => true
  | (begin, len, expected) :: calls =>
      unwrap (Slices_insert (E := unit) slices begin len) (λ '(r, slices),
        assert_eq r expected && inserts slices calls)
  end.

Definition slices_returns_full_sequential : bool :=
  inserts (Slices_new 15) [(0, 5, false); (5, 5, false); (10, 5, true)].
Definition slices_returns_full_reverse : bool :=
  inserts (Slices_new 15) [(10, 5, false); (5, 5, false); (0, 5, true)].
Definition slices_returns_full_single_gap : bool :=
  inserts (Slices_new 15) [(10, 5, false); (0, 5, false); (5, 5, true)].
Definition slices_returns_full_double_gap : bool :=
  inserts (Slices_new 20) [(15, 5, false); (0, 5, false); (5, 5, false); (10, 5, true)].
Definition slices_returns_full_double_gap_rev : bool :=
  inserts (Slices_new 20) [(15, 5, false); (5, 5, false); (0, 5, false); (10, 5, true)].
Definition slices_returns_full_double_gap_rev_2 : bool :=
  inserts (Slices_new 20) [(10, 5, false); (5, 5, false); (0, 5, false); (15, 5, true)].

Example slices_tests_pass :
  forallb id [slices_returns_full_sequential; slices_returns_full_reverse;
    slices_returns_full_single_gap; slices_returns_full_double_gap;
    slices_returns_full_double_gap_rev; slices_returns_full_double_gap_rev_2] = true.
Proof. vm_compute. reflexivity. Qed.

(** * [src/src/peer/bitfield.rs] *)

Definition expected_bits : list bool :=
  [true; false; false; false; true; false; false; true; true; true; true; true; true;
   false; false; false].

Definition read_bits : bool :=
  let bitfield := mkReader [byte_of 137; byte_of 248] in
  assert_eq (map (get_bit bitfield) (seqZ 0 16)) (map Some expected_bits).

Definition roundtrip_bits : bool :=
  unwrap (put_bits (E := unit) (BitFieldWriter_new []) expected_bits) (λ writer,
    let reader := mkReader (BitFieldWriter_into writer) in
    assert_eq (map (get_bit reader) (seqZ 0 16)) (map Some expected_bits)).

Example bitfield_tests_pass : read_bits && roundtrip_bits = true.
Proof. vm_compute. reflexivity. Qed.

(** * [src/src/peer/state/piece.rs], with the fixtures of [src/src/peer/mod.rs] *)

Definition torrent_fixture_impl (info_hash : list byte) (pieces_len piece_length length : Z)
    : V1Torrent :=
  let pieces := map (λ i, mkPiece (replicate 20 (byte_of (as_u8 (i * 11))))) (seqZ 1 pieces_len) in
  mkTorrent (mkInfo length piece_length pieces (bs "test.txt") info_hash) [] [].

Definition torrent_fixture (info_hash : list byte) : V1Torrent :=
  torrent_fixture_impl info_hash 2 5120000 10240000.

Definition gen_availiable_piece_to_peers (torrent : V1Torrent) : gmap Z (gset InternalPeerId) :=
  let peers : gset InternalPeerId := {[ replicate 10 x00 ]} in
  fold_left (λ (acc : gmap Z (gset InternalPeerId)) (idx : Z), <[as_u32 idx := peers]> acc)
    (seqZ 0 (zlen (pieces (info torrent)))) ∅.

Definition setup_piece_block_tracker : PieceBlockTracker * V1Torrent * nat :=
  let pieces_ := 2 in
  let max_outstanding_requests := 2 in
  let requests_per_piece := 4 in
  let torrent_len := PIECE_BLOCK_SIZE * requests_per_piece * pieces_ in
  let piece_len := torrent_len / pieces_ in
  let torrent := torrent_fixture_impl (replicate 20 x01) 2 piece_len torrent_len in
  let pbt := Tracker_new max_outstanding_requests (pieces (info torrent)) in
  (pbt, torrent, 4%nat).

(** The clock of a test, in seconds. *)
Definition at_second (s : Z) : Z → Z := λ _, s * 10 ^ 9.

Definition assignments_at (s : Z) (torrent : V1Torrent) (pbt : PieceBlockTracker)
    : outcome unit (list PeerRequestedPiece * PieceBlockTracker) :=
  generate_assignments (at_second s) torrent (gen_availiable_piece_to_peers torrent) pbt.

(** [set_request_finished(...).unwrap()] for each of the requests. *)
Fixpoint finish_all (reqs : list PeerRequestedPiece) (pbt : PieceBlockTracker)
    : option PieceBlockTracker :=
  match reqs with
  | [] => Some pbt
  | assigned :: reqs =>
      let '(r, pbt) := set_request_finished pbt (req_index assigned) (req_begin assigned) in
      _ ← r; finish_all reqs pbt
  end.

Definition correctly_assigns_pieces_when_not_hitting_threshold : bool :=
  let torrent := torrent_fixture (replicate 20 x01) in
  let pbt := Tracker_new 2 (pieces (info torrent)) in
  unwrap (assignments_at 0 torrent pbt) (λ '(assignments, pbt),
    negb (assert_eq assignments []) &&
    assert_eq (downloading_requests_len pbt) 2 &&
    assert_eq (outstanding_pieces_len pbt) 1 &&
    assert_eq (size (pieces_not_started pbt)) 1%nat).

Definition correctly_expires_completed_requests_by_not_expiring : bool :=
  let '(pbt, torrent, _) := setup_piece_block_tracker in
  unwrap (assignments_at 0 torrent pbt) (λ '(assignments, pbt),
    negb (assert_eq assignments []) &&
    unwrap_option (finish_all assignments pbt) (λ pbt,
      let '(expired, _) := remove_expired (at_second 11 0) pbt in
      assert_eq expired [])).

Definition correctly_expires_incompleted_requests_by_expiring : bool :=
  let '(pbt, torrent, _) := setup_piece_block_tracker in
  unwrap (assignments_at 0 torrent pbt) (λ '(assignments, pbt),
    negb (assert_eq assignments []) &&
    let '(expired, _) := remove_expired (at_second 11 0) pbt in
    assert_eq (length expired) 2%nat).

(** The loop of the test: no request is made twice. *)
Fixpoint threshold_loop (rounds : nat) (torrent : V1Torrent) (pbt : PieceBlockTracker)
    (ack_reqs requests_made : list PeerRequestedPiece) : bool :=
  match rounds with
  | O => true
  | S rounds =>
      unwrap_option (finish_all ack_reqs pbt) (λ pbt,
        unwrap (assignments_at 0 torrent pbt) (λ '(assignments, pbt),
          negb (assert_eq assignments []) &&
          bool_decide (NoDup assignments) &&
          forallb (λ req, bool_decide (req ∉ requests_made)) assignments &&
          threshold_loop rounds torrent pbt assignments (requests_made ++ assignments)))
  end.

Definition correctly_assigns_pieces_when_hitting_threshold : bool :=
  let '(pbt, torrent, requests_per_piece) := setup_piece_block_tracker in
  threshold_loop requests_per_piece torrent pbt [] [].

(** [PieceBlockAllocation::new] on a piece of the fixture: its first and last
    request. *)
Definition create_correct_request (piece_id : Z) : bool :=
  let torrent := torrent_fixture (replicate 20 x01) in
  let peer_id : InternalPeerId := replicate 20 x02 in
  unwrap (PieceBlockAllocation_new (E := unit) piece_id torrent {[peer_id]} Inprogress_default 1024)
    (λ '(req, _), unwrap_option req (λ requests_to_make,
      assert_eq (head requests_to_make) (Some (mkRequest peer_id piece_id 0 PIECE_BLOCK_SIZE)) &&
      assert_eq (last requests_to_make) (Some (mkRequest peer_id piece_id 5111808 8192)))).

Definition create_correct_request_first_piece : bool := create_correct_request 0.
Definition create_correct_request_last_piece : bool := create_correct_request 1.

Example piece_tests_pass :
  forallb id [correctly_assigns_pieces_when_not_hitting_threshold;
    correctly_expires_completed_requests_by_not_expiring;
    correctly_expires_incompleted_requests_by_expiring;
    correctly_assigns_pieces_when_hitting_threshold;
    create_correct_request_first_piece; create_correct_request_last_piece] = true.
Proof. vm_compute. reflexivity. Qed.

(** * [src/src/file/bencode.rs] *)

(** The depth of recursion allowed in these tests. *)
Definition test_stack : nat := 9.

Definition do_int_tests (i : string) (v : Z) : bool :=
  unwrap (parse_int (bs i)) (λ '(leftover, zero),
    match zero with Int n => assert_eq n v | _ => false end && assert_eq leftover []).

Definition do_bytestring_test (i val : string) : bool :=
  unwrap (parse_bytestring (bs i)) (λ '(leftover, v),
    match v with ByteString elements => assert_eq elements (bs val) | _ => false end &&
    assert_eq leftover []).

(** Equality of values, through their encodings (which determine them). *)
Definition same_value (x y : Bencode) : bool := assert_eq (encode x) (encode y).

Definition do_list_test (i : string) (vals : list Bencode) : bool :=
  unwrap (parse_list (parse_type test_stack) (bs i)) (λ '(leftover, v),
    match v with BList extracted => same_value (BList vals) (BList extracted) | _ => false end &&
    assert_eq leftover []).

Definition do_dict_test (i : string) (vals : list (list byte * Bencode)) : bool :=
  unwrap (parse_dictionary (parse_type test_stack) (bs i)) (λ '(leftover, v),
    match v with
    | Dictionary extracted =>
        assert_eq (length vals) (length extracted) &&
        forallb (λ '(k, v), existsb (λ '(k', v'), assert_eq k' k && same_value v' v) extracted) vals
    | _ => false
    end && assert_eq leftover []).

Definition test_parse_int_0 : bool := do_int_tests "i0e" 0.
Definition test_parse_int_42 : bool := do_int_tests "i42e" 42.
Definition test_parse_int_neg_42 : bool := do_int_tests "i-42e" (-42).
Definition test_bs_empty : bool := do_bytestring_test "0:" EmptyString.
Definition test_bs_bencode : bool := do_bytestring_test "7:bencode" "bencode".
Definition test_list_empty : bool := do_list_test "le" [].
Definition test_list : bool :=
  do_list_test "l7:bencodei-20ee" [ByteString (bs "bencode"); Int (-20)].
Definition test_empty_dict : bool := do_dict_test "de" [].
Definition test_dict : bool :=
  do_dict_test "d7:meaningi42e4:wiki7:bencodee"
    [(bs "meaning", Int 42); (bs "wiki", ByteString (bs "bencode"))].

Definition announce_bytes : list byte := hex_bytes (bs
  "64383a636f6d706c65746569313038326531303a696e636f6d706c65746569353765383a696e74657276616c693138303065353a70656572736c64323a697033383a323430393a386132303a326433333a616264303a3231313a333266663a666538323a36303262373a7065657220696432303a2d5452323933302d746e356b30776d7466723737343a706f7274693635333535656564323a697033353a323030313a3437303a376138333a366637343a303a373036393a373236313a37343635373a7065657220696432303a2d5452343036302d73717770347a78726c326931343a706f72746936393739656564323a697033383a323030313a3637633a323333633a353163323a663864393a633466663a666563383a61333536373a7065657220696432303a2d6c74304438302dca53f1685f94351d6f9a3a88343a706f72746936393338656564323a697032303a323030313a6263383a313634303a3533303a3a31373a7065657220696432303a2d5452343130422d386f31723036396633766a31343a706f7274693133303030656564323a697033363a326130313a6530613a3131643a393836303a393230393a643066663a666532313a616462373a7065657220696432303a2d5452323933302d666178347376397136747378343a706f7274693136383831656564323a697033383a326130303a363032303a623332663a613430303a3231313a333266663a666562373a62333531373a7065657220696432303a2d5452343036302d31716239337564646f366971343a706f7274693531343133656564323a697033363a323030313a3862303a613739303a363034613a636136303a66663a666538363a63663134373a7065657220696432303a2d5452333030302d343677766478746574757135343a706f7274693531343133656564323a697032303a323030313a3437303a316630363a3332623a3a32373a7065657220696432303a2d5452343130422d653171376c67657934796279343a706f7274693534353535656564323a697033373a323030313a3862303a313130653a623136343a336532343a3734383a633936373a63373635373a7065657220696432303a2d5452343130422d786677676f79776633323931343a706f7274693531343133656564323a697031373a326130323a613436653a356339393a3a31373a7065657220696432303a2d5452333030302d79777937737833776636386b343a706f7274693531343135656564323a697032323a323030313a343164303a313030343a323062353a3a31373a7065657220696432303a2d5452333030302d70736767613634347a313971343a706f7274693531343133656564323a697031343a3138352e3132352e3139302e3539373a7065657220696432303a543033492d2d303172526d58764a2e664d6c6930343a706f72746936393235656564323a697032343a323630373a663734383a3230333a3132353a343a3a313132373a7065657220696432303a2d6c74304630352d4ee791fa85e19ed0e183f88e343a706f7274693231333937656564323a697032303a326130323a323437393a34343a386630303a3a31373a7065657220696432303a2d6c74304438302d2dce18912ebb76fd946f52a9343a706f72746936393238656564323a697032303a326130303a363830303a333a6634393a3a313030373a7065657220696432303a2d5452343130422d6b6471363777656379636b6b343a706f7274693531343133656564323a697031373a326130333a336234303a32633a313a3a33373a7065657220696432303a2d5452323933302d7737736b353467307064386d343a706f7274693438333839656564323a697033383a323830343a313435633a383662333a3230303a383034623a646431333a356663663a36613830373a7065657220696432303a2d5452343130422d32667a32356535306d387338343a706f7274693531343133656564323a697033383a323630373a666561383a666466303a383235623a396538643a663437343a346432343a336638373a7065657220696432303a2d5452323934302d3037637334356b6163377362343a706f7274693531343133656564323a697033373a326130313a6530613a6534373a373233303a613461383a336565353a656633373a39333139373a7065657220696432303a2d5452343036302d746f6a686961686770777467343a706f7274693531343133656564323a697032333a326130313a376530303a653030313a643430333a3a3130373a7065657220696432303a2d5452343036302d357971676b6d757a336a6276343a706f7274693632313133656564323a697032303a326130313a3466383a6331373a313136643a3a32373a7065657220696432303a2d6c74304438302d9c65ff905eeb93a33b0a368b343a706f72746936393934656564323a697033373a326130353a333538303a646430303a633130303a3166613a313561313a383162333a613665373a7065657220696432303a2d5554313832302dfd3b667f82411b545ece06c2343a706f727469353233343865656565").

Definition test_announce : bool :=
  unwrap (parse_bencode test_stack announce_bytes) (λ bc,
    match bc with
    | Dictionary dict =>
        match map_dict_keys dict !! bs "complete" with Some (Int n) => assert_eq n 1082 | _ => false end
    | _ => false
    end).

Example bencode_tests_pass :
  forallb id [test_parse_int_0; test_parse_int_42; test_parse_int_neg_42; test_bs_empty;
    test_bs_bencode; test_list_empty; test_list; test_empty_dict; test_dict; test_announce] = true.
Proof. vm_compute. reflexivity. Qed.

(** The addresses in the captured answer, all of the compressed IPv6 forms among
    them, are read: every entry of its list of peers becomes a peer. *)
Example announce_peers_read :
  match parse_bencode test_stack announce_bytes with
  | Ret bc => match TrackerResponse_try_from bc with
              | Ret r => (interval r, length (tracker_peers r)) | _ => (0, 0%nat) end
  | _ => (0, 0%nat)
  end = (1800, 22%nat).
Proof. vm_compute. reflexivity. Qed.
