(* ===== verification/ProcessorTest.v ===== *)
(** The test of the running processor, [connection_handles_choke_events] of
    [src/src/peer/state/mod.rs], on the model.

    The test is a function of the torrent and of the storage. Its fixture of ten
    megabytes is scaled down: once to pieces of one block, in memory, and once to pieces
    of many blocks, on a storage that only keeps track of the slices. *)
From S2P Require Import Prelude ByteStr BytesCrate Model Protocol Errors Bitfield Collections.
From S2P Require Import Allocation Slices Io Piece State Processor Traffic Swarm Peers UnitTests.
From Stdlib Require Import ZArith.

Import ListBytes DevProfile ElementsOrder.

(** A storage that forgets the bytes: a slice tracker per piece. *)
#[export] Instance slices_io : TorrentIO (list Slices) := {|
  write_piece index begin block io :=
    match io !! Z.to_nat index with
    | Some s =>
        match Slices_insert s begin (zlen block) with
        | Ret (finished, s) => (Ret finished, <[Z.to_nat index := s]> io)
        | Err e => (Err e, io)
        | Panic => (Panic, io)
        end
    | None => (Err (AE_Peer (BadPieceIdx index)), io)
    end;
  read_piece index begin length io := (Err (AE_Peer (BadPieceIdx index)), io);
|}.

Section test.
Context {S : Type} `{TorrentIO S}.

(** A test in progress: the processor's task and how much of the two channels
    of the processor has been taken, the wake-ups by its main loop and the messages by the
    test. *)
Record Running := mkRunning {
  processor : Proc Z (SimNet S);
  woken_taken : nat;
  received : nat;
}.

(** The sender of the only peer, and its handler. *)
Definition out_tx : Z := 0.

Definition peer_start_fixture (info_hash : list byte) : Handshake :=
  mkHandshake (mkPeerContext info_hash (replicate 20 x0a)).

Definition peer_handler : InternalPeerId * Z := (replicate 20 x0a, out_tx).

(** The main loop takes the wake-ups that wait, and those they cause. *)
Fixpoint run_wake_ups (rounds : nat) (r : Running) : option Running :=
  match rounds with
  | O => None
  | Datatypes.S rounds =>
      match sim_woken (net (world (processor r))) !! woken_taken r with
      | None => Some r
      | Some msg =>
          match wake_event (λ _, 0) msg (processor r) with
          | Ret p => run_wake_ups rounds (mkRunning p (Datatypes.S (woken_taken r)) (received r))
          | _ => None
          end
      end
  end.

Definition setup_test (torrent : V1Torrent) (io : S) : option Running :=
  let config := mkConfig (use_file_writer Config_default) (max_conns Config_default)
                  (peer_tx_size Config_default) (peer_rx_size Config_default)
                  (file_handler_channel_size Config_default) 1024 in
  let processor := Proc_new torrent (max_outstanding_requests config) (mkSim [] [] [] (Some io)) in
  match accept_peer (peer_start_fixture (torrent_info_hash (info torrent))) out_tx processor with
  | Ret p => Some (mkRunning p 0 0)
  | _ => None
  end.

(** [msg_tx.send(msg).await.unwrap()]; then the processor runs. *)
Definition msg_tx_send (msg : Messages) (r : Running) : option Running :=
  match peer_message peer_handler msg (processor r) with
  | Ret p => run_wake_ups 4 (mkRunning p (woken_taken r) (received r))
  | _ => None
  end.

(** [None] is the panic of a timeout. With nothing expected, a message that
    comes is still returned. *)
Definition wait_rx (expect : nat) (r : Running) : option (list Messages * Running) :=
  let msgs := take (Nat.max 1 expect) (map snd (drop (received r) (sim_sent (net (world (processor r)))))) in
  if (length msgs <? expect)%nat then None
  else Some (msgs, mkRunning (processor r) (woken_taken r) (received r + length msgs)).

Definition await_expected_initial_messages (r : Running) : option Running :=
  '(msgs, r) ← wait_rx 3 r;
  if assert_eq msgs [BitField [x00]; Flag Choke; Flag NotInterested] then Some r else None.

Definition send_bitfield (set : gset Z) (set_len : Z) (r : Running) : option Running :=
  match put_bit_set (E := unit) (BitFieldWriter_new []) set set_len with
  | Ret all_pieces_bf => msg_tx_send (BitField (BitFieldWriter_into all_pieces_bf)) r
  | _ => None
  end.

(** The answer to a request, with zeroes. *)
Definition answer (msg : Messages) : option Messages :=
  match msg with
  | Request index begin length => Some (Piece index begin (replicate (Z.to_nat length) x00))
  | _ => None
  end.

Definition have_index (msg : Messages) : option Z :=
  match msg with Have piece_index => Some piece_index | _ => None end.

Definition connection_handles_choke_events (torrent : V1Torrent) (io : S) (expected : Z) : bool :=
  unwrap_option (
    r ← setup_test torrent io;
    r ← await_expected_initial_messages r;
    r ← send_bitfield {[ 0; 1 ]} 2 r;
    r ← msg_tx_send (Flag Choke) r;
    r ← msg_tx_send (Flag NotInterested) r;
    '(interested, r) ← wait_rx 1 r;
    '(none, r) ← wait_rx 0 r;
    r ← msg_tx_send (Flag Unchoke) r;
    '(requests, r) ← wait_rx (Z.to_nat expected) r;
    let pieces := omap answer requests in
    r' ← fold_left (λ r piece, r ← r; msg_tx_send piece r) pieces (Some r);
    '(haves, _) ← wait_rx 2 r';
    indices ← mapM have_index haves;
    Some (assert_eq interested [Flag Interested] && assert_eq none [] &&
      assert_eq (zlen requests) expected && assert_eq (zlen pieces) expected &&
      assert_eq (merge_sort Z.le indices) [0; 1])) id.
End test.

(** Two pieces of twenty bytes, in memory. *)
Definition small_fixture : V1Torrent := torrent_fixture_impl [x01; x14] 2 20 40.

Example processor_test_in_memory :
  unwrap (MemoryTorrentIO_new small_fixture) (λ io,
    connection_handles_choke_events small_fixture io 2) = true.
Proof. vm_compute. reflexivity. Qed.

(** Pieces of ten blocks and a half, as the fixture of the test has pieces of 312 and a
    half: each of the 22 blocks is asked for, answered and counted. *)
Definition scaled_fixture : V1Torrent := torrent_fixture_impl [x01; x14] 2 172032 344064.

Example processor_test_many_blocks :
  connection_handles_choke_events scaled_fixture [Slices_new 172032; Slices_new 172032]
    (344064 / 16384 + 1) = true.
Proof. vm_compute. reflexivity. Qed.
